(* ===== verification/_CoqProject ===== *)
-Q . S2P
Prelude.v
OrdMap.v
Bytes.v
Float64.v
FloatInt.v
Core.v
Key.v
Kv.v
Document.v
Index.v
IndexTheorems.v
Collection.v
Crud.v
CollectionSpec.v
CollectionTheorems.v
EdgeStore.v
EdgeSpec.v
Traverse.v
GraphTheorems.v
Path.v
Components.v
ComponentsSpec.v
Community.v
CommunitySpec.v
Ranking.v
RankingSpec.v
Ast.v
Display.v
Tokenizer.v
Parser.v
ParserTotal.v
TokenizerRender.v
Cache.v
CacheSpec.v
Planner.v
Executor.v
PlannerSpec.v
PlanExact.v
ExecutorRows.v
ExecutorTheorems.v
Format.v
GraphStatements.v
GraphStatementsSpec.v
Statements.v
StatementsSpec.v
Footprint.v
Session.v
SessionSpec.v
Isolation.v
IndexDdl.v
Printer.v
ParserRoundtrip.v
MetaAst.v
Extract.v
QueryHelpers.v
QueryHelpersSpec.v
CodeTokenizer.v
Similarity.v
Diff.v
Ingest.v
IngestSpec.v
IngestQueries.v
Distance.v
Vector.v
BinaryHeap.v
Hnsw.v
HnswBeam.v
HnswSpec.v
HnswTheorems.v
HnswSnapshot.v
FullText.v
SearchServices.v
FullTextSpec.v
SearchExecutor.v
ServiceRuns.v
VectorService.v
VectorTheorems.v
FullTextService.v
Server.v
ServerSpec.v
