(* ===== verification/Prelude.v ===== *)
(** * dllb, verified

    A development about dllb, a multi-model database in Rust: documents,
    graph edges and secondary indexes in one ordered key space (the redb
    engine), full-text and vector indexes beside it, a text query language, a
    result cache, and code intelligence over syntax trees.  Paths below are
    under [src/crates].

    ** How the program is put together

    A request is a line of text, read by the server or the command line.
    [tokenizer.rs] and [parser.rs] turn it into a statement of [ast.rs];
    [executor.rs] consults the cache ([cache.rs]), plans an index access for
    the [WHERE] clause and runs the statement on collections (crate
    [document]), edges and graph algorithms (crate [graph]), which read and
    write keys (crate [storage], [key.rs]) of the store; after a write it
    maintains the search indexes of the table ([search.rs], crates [search]
    and [vector]); [format.rs] prints the result.  [code-intel] turns syntax
    trees into documents, edges and statements.

    ** Files

    - [Prelude], [OrdMap], [Bytes], [Float64], [FloatInt], [BinaryHeap]:
      results and state with errors, ordered maps ([BTreeMap]), bytes and
      machine integers, IEEE 754 binary64 and binary32, the heap of the
      standard library.
    - [Core], [Key] (core, storage/key.rs): values, errors, schemas; key
      layout, prefix bounds, the key parser, disjointness of key regions.
    - [Kv] (storage: kv.rs, backend.rs, db.rs, actor.rs): the store as the
      class [KvStore] with [KvLaws]; [RedbBackend] over the engine interface
      [Redb]; the writer process.  Every client is proved against [KvLaws].
    - [Document], [Index], [IndexTheorems] (document: document.rs, serde.rs,
      validate.rs, index.rs): documents, validation, index entries, a codec.
    - [Collection], [Crud], [CollectionSpec], [CollectionTheorems]
      (collection.rs): CRUD with index maintenance and the index invariant.
    - [EdgeStore], [EdgeSpec], [Traverse], [GraphTheorems], [Path],
      [Components], [ComponentsSpec], [Community], [CommunitySpec], [Ranking],
      [RankingSpec] (crate graph): edges, hops and walks, shortest paths,
      union-find, Louvain and label propagation, degrees, PageRank.
    - [Ast], [Display], [Tokenizer], [TokenizerRender], [Parser],
      [ParserTotal], [Printer], [ParserRoundtrip]: the query language.
    - [Planner], [PlannerSpec], [PlanExact], [Executor], [ExecutorRows],
      [ExecutorTheorems], [IndexDdl], [GraphStatements],
      [GraphStatementsSpec], [Statements], [StatementsSpec], [Footprint],
      [Isolation] (executor.rs with [services: None]): filters, plans, every
      statement; [Isolation] also has interleaved requests.
    - [Cache], [CacheSpec], [Session], [SessionSpec] (cache.rs, executor.rs
      [run], [execute_batch]): the result cache and requests over it.
    - [Format] (format.rs): JSON, TOON and CSV texts.
    - [Distance], [Vector], [Hnsw], [HnswBeam], [HnswSpec], [HnswTheorems],
      [HnswSnapshot] (crate vector): metrics in binary32, the index interface
      and the exact index, the HNSW graph, its invariants, its snapshots.
    - [FullText] (crate search), [SearchServices] (query/search.rs),
      [SearchExecutor] (executor.rs with services): the search indexes of the
      process, and every handler as the server runs it.
    - [ServiceRuns], [VectorService], [VectorTheorems], [FullTextSpec],
      [FullTextService]: the interface [Maintained] of a table whose search
      indexes follow its documents, with three instances: tables without
      search indexes, with a vector index, with a full-text index.  The lemma
      [execute_tracks] is proved once against it.  [FullTextSpec] has the
      documented laws of the text engine ([TantivyLaws]) and an engine that
      satisfies them ([MemTantivy]).
    - [Server], [ServerSpec] (server/main.rs, cli/main.rs, cli/render.rs): the
      process state, the line protocol, batches, the read loop.
    - [MetaAst], [Extract], [QueryHelpers], [QueryHelpersSpec],
      [CodeTokenizer], [Similarity], [Diff], [Ingest], [IngestSpec],
      [IngestQueries] (crate code-intel).

    ** Groups of theorems

    Keys: encodings are injective and keep the order, scans select exactly
    their region.  Store: atomic batches; the backend and the writer process
    refine an ordered map.  Collections: the index invariant over every
    sequence of operations, schemas as types of the stored documents,
    contracts of every operation on success and error, exact lookups.  Graph:
    the edge store refines a map of edges; paths, components and communities
    are what their names say.  Language: the lexer and the parser terminate on
    every input and invert a printer.  Statements: [SELECT], [DELETE],
    [COUNT] find matching documents only, and answer as a scan would when no
    index is used or the matching documents fit it, with examples where they
    do not; rows are in the order of [ORDER BY] when that is a total order on
    them, and only otherwise can the sort panic; a statement changes keys of
    its own table only.  Cache: bounded, evicting the least
    recently used entries only, and transparent for requests one after the
    other; a race when they interleave.  Vectors: the HNSW index refines a map
    of vectors, searches end in a local optimum, small indexes answer
    exactly, snapshots read back.  Services: they are transparent for tables
    without search indexes; a vector index is a cache of the store, from its
    definition on and through restarts; a full-text index follows the store up
    to its last commit, and a restart loses what was not committed.  Server: a connection is answered
    request by request, a batch is all or nothing.  Code intelligence:
    extraction, queries, diffs and batches are exact.

    ** State, errors, panics and fuel

    A stateful fallible method is [SE S E A = S -> Result E A * S]: the state
    survives an error.  A panic (index out of bounds, overflow, a failed
    [unwrap]) is [None] in pure code, [Ok None] in a handler without services
    and the error [Panicked] in one with services.  Loops take fuel that a
    theorem shows to be enough: the length of the input (lexer), the number of
    tokens plus one (parser), the number of edges plus two (breadth-first
    search), the number of parents ([find]), the number of entries
    (eviction), the number of nodes (the beam of HNSW), the digits of a number
    (printing).

    ** Parameters

    What is not under [src] is an interface with the laws its documentation
    gives and a concrete instance for the examples: the redb engine, the
    MessagePack and JSON codecs, the [lru] crate, Tantivy and the directories
    it writes, debug text, the iteration order of hash maps, what
    [slice::sort_by] does with a comparator that is no total order (a panic or
    any order, [Sorter]), fresh identifiers and random levels, Unicode tables beyond ASCII, the standard hasher, JSON
    of nodes and rows, the Markdown renderer and the line editor.

    ** Not modelled

    Process start-up, configuration and logging, sockets, signals and task
    scheduling of the server; line editing, history and colours of the command
    line; the constructors that only wire shared handles together; the test
    modules; [transaction], which holds documentation only. *)

From Stdlib Require Export ZArith NArith Lia Strings.Byte String Ascii Sorted.
From stdpp Require Export base tactics decidable option list sets strings.



Create HintDb dllb.
Create Rewrite HintDb dllb.
Create Rewrite HintDb dllb_shape.

(** ** Results

    Rust's [Result<A, E>]. *)
Inductive Result (E A : Type) : Type :=
  | Ok (a : A)
  | Err (e : E).
Arguments Ok {E A} a.
Arguments Err {E A} e.

#[export] Instance Result_ret E : MRet (Result E) := λ A a, Ok a.
#[export] Instance Result_bind E : MBind (Result E) := λ A B f r,
  match r with Ok a => f a | Err e => Err e end.

Definition is_ok {E A} (r : Result E A) : bool :=
  match r with Ok _ => true | Err _ => false end.

(** [option.ok_or_else(e)]. *)
Definition ok_or {E A} (o : option A) (e : E) : Result E A :=
  match o with Some a => Ok a | None => Err e end.

(** [result.ok()]. *)
Definition ok {E A} (r : Result E A) : option A :=
  match r with Ok a => Some a | Err _ => None end.

Lemma bind_Ok_inv {E A B} (r : Result E A) (f : A → Result E B) b :
  r ≫= f = Ok b → ∃ a, r = Ok a ∧ f a = Ok b.
Proof. destruct r; simpl; [eauto | done]. Qed.

Lemma bind_Err_inv {E A B} (r : Result E A) (f : A → Result E B) e :
  r ≫= f = Err e → r = Err e ∨ ∃ a, r = Ok a ∧ f a = Err e.
Proof. destruct r; simpl; [eauto | naive_solver]. Qed.

(** [for x in l { out.push(f(x)?) }]: the first error ends the loop. *)
Fixpoint traverse {E A B} (f : A → Result E B) (l : list A) : Result E (list B) :=
  match l with
  | [] => Ok []
  | x :: l' => y ← f x; ys ← traverse f l'; Ok (y :: ys)
  end.

Lemma traverse_Ok {E A B} (f : A → Result E B) (g : A → B) l :
  (∀ x, x ∈ l → f x = Ok (g x)) → traverse f l = Ok (map g l).
Proof.
  induction l as [|x l IH]; intros H; simpl; [done|].
  rewrite (H x) by set_solver. simpl. rewrite IH by set_solver. done.
Qed.

Lemma traverse_Forall2 {E A B} (f : A → Result E B) l ys :
  traverse f l = Ok ys ↔ Forall2 (λ x y, f x = Ok y) l ys.
Proof.
  revert ys; induction l as [|x l IH]; intros ys; simpl.
  - split; [by intros [= <-]; constructor | by intros H; inversion H].
  - destruct (f x) as [y|e] eqn:Hf; simpl.
    + destruct (traverse f l) as [ys'|e'] eqn:Ht; simpl.
      * split; [intros [= <-]; constructor; [done | by apply IH]|].
        intros H; inversion H as [|? ? ? ? Hy Hl]; subst.
        apply IH in Hl. congruence.
      * split; [done|]. intros H; inversion H as [|? ? ? ? Hy Hl]; subst.
        apply IH in Hl. congruence.
    + split; [done|]. intros H; inversion H; subst. congruence.
Qed.

Lemma traverse_length {E A B} (f : A → Result E B) l ys :
  traverse f l = Ok ys → length ys = length l.
Proof. intros H. apply traverse_Forall2 in H. symmetry. by eapply Forall2_length. Qed.

Lemma traverse_app {E A B} (f : A → Result E B) l1 l2 ys :
  traverse f (l1 ++ l2) = Ok ys ↔ ∃ y1 y2, traverse f l1 = Ok y1 ∧ traverse f l2 = Ok y2 ∧ ys = y1 ++ y2.
Proof.
  rewrite traverse_Forall2. split.
  - intros (y1 & y2 & H1 & H2 & ->)%Forall2_app_inv_l. exists y1, y2. by rewrite !traverse_Forall2.
  - intros (y1 & y2 & H1 & H2 & ->). rewrite traverse_Forall2 in H1, H2. by apply Forall2_app.
Qed.

(** A loop with [continue]: [for x in l { if let Some(y) = f(x)? { out.push(y) } }]. *)
Fixpoint traverse_opt {E A B} (f : A → Result E (option B)) (l : list A) : Result E (list B) :=
  match l with
  | [] => Ok []
  | x :: l' =>
      o ← f x; ys ← traverse_opt f l';
      Ok (match o with Some y => y :: ys | None => ys end)
  end.

Lemma traverse_opt_Ok {E A B} (f : A → Result E (option B)) (g : A → option B) l :
  (∀ x, x ∈ l → f x = Ok (g x)) → traverse_opt f l = Ok (omap g l).
Proof.
  induction l as [|x l IH]; intros H; simpl; [done|].
  rewrite (H x) by set_solver. simpl. rewrite IH by set_solver. simpl. by destruct (g x).
Qed.

(** Membership across a pointwise relation. *)
Lemma Forall2_elem_of_l {A B} (P : A → B → Prop) l k x :
  Forall2 P l k → x ∈ l → ∃ y, y ∈ k ∧ P x y.
Proof.
  intros Hf [i Hi]%list_elem_of_lookup. destruct (Forall2_lookup_l _ _ _ _ _ Hf Hi) as (y & ? & ?).
  exists y. split; [|done]. by eapply list_elem_of_lookup_2.
Qed.
Lemma Forall2_elem_of_r {A B} (P : A → B → Prop) l k y :
  Forall2 P l k → y ∈ k → ∃ x, x ∈ l ∧ P x y.
Proof.
  intros Hf [i Hi]%list_elem_of_lookup. destruct (Forall2_lookup_r _ _ _ _ _ Hf Hi) as (x & ? & ?).
  exists x. split; [|done]. by eapply list_elem_of_lookup_2.
Qed.

(** Filtering with a boolean predicate. *)
Lemma elem_filter_bool {A} (p : A → bool) l x : x ∈ List.filter p l ↔ p x = true ∧ x ∈ l.
Proof.
  induction l as [|y l IH]; simpl; [set_solver|].
  destruct (p y) eqn:E; rewrite ?elem_of_cons, IH; naive_solver congruence.
Qed.
Lemma NoDup_filter_bool {A} (p : A → bool) l : NoDup l → NoDup (List.filter p l).
Proof.
  induction 1 as [|y l Hn Hl IH]; simpl; [constructor|]. destruct (p y); [|done].
  constructor; [|done]. rewrite elem_filter_bool. naive_solver.
Qed.

(** ** Sorting

    [slice::sort_by], the stable sort, as insertion from the right. *)
Section sort.
Context {A : Type} (cmp : A → A → comparison).
Fixpoint sort_insert (x : A) (l : list A) : list A :=
  match l with
  | [] => [x]
  | y :: l' => match cmp x y with Gt => y :: sort_insert x l' | _ => x :: l end
  end.
Definition sort_by (l : list A) : list A := foldr sort_insert [] l.
End sort.
Lemma sort_by_perm {A} (cmp : A → A → comparison) l : sort_by cmp l ≡ₚ l.
Proof.
  induction l as [|x l IH]; [done|]. simpl. rewrite <- IH at 2. generalize (sort_by cmp l). intros k.
  induction k as [|y k IHk]; [done|]. simpl. destruct (cmp x y); [done..|]. rewrite IHk. by constructor.
Qed.

(** ** State with errors

    A stateful operation that may fail: [&self] or [&mut self] methods that
    return [Result].  The state is returned on both branches, so partial
    effects before an error are visible. *)
Definition SE (S E A : Type) : Type := S → Result E A * S.

#[export] Instance SE_ret S E : MRet (SE S E) := λ A a s, (Ok a, s).
#[export] Instance SE_bind S E : MBind (SE S E) := λ A B f m s,
  match m s with
  | (Ok a, s') => f a s'
  | (Err e, s') => (Err e, s')
  end.

(** A pure fallible computation inside a stateful one ([expr?]). *)
Definition lift {S E A} (r : Result E A) : SE S E A := λ s, (r, s).
Definition throw {S E A} (e : E) : SE S E A := λ s, (Err e, s).

(** [for x in l { body(x)?; }]. *)
Fixpoint for_each {S E A} (body : A → SE S E unit) (l : list A) : SE S E unit :=
  match l with
  | [] => mret tt
  | x :: l' => _ ← body x; for_each body l'
  end.

(** [for x in l { out.push(body(x)?) }]. *)
Fixpoint for_map {S E A B} (body : A → SE S E B) (l : list A) : SE S E (list B) :=
  match l with
  | [] => mret []
  | x :: l' => y ← body x; ys ← for_map body l'; mret (y :: ys)
  end.

Lemma SE_bind_ok {S E A B} (m : SE S E A) (f : A → SE S E B) s a s' :
  m s = (Ok a, s') → (m ≫= f) s = f a s'.
Proof. intros H. unfold mbind, SE_bind. by rewrite H. Qed.

Lemma SE_bind_err {S E A B} (m : SE S E A) (f : A → SE S E B) s e s' :
  m s = (Err e, s') → (m ≫= f) s = (Err e, s').
Proof. intros H. unfold mbind, SE_bind. by rewrite H. Qed.

Lemma for_map_pure {S E A B} (body : A → SE S E B) (g : A → B) l s :
  (∀ x, x ∈ l → body x s = (Ok (g x), s)) → for_map body l s = (Ok (map g l), s).
Proof.
  induction l as [|x l IH]; intros H; simpl; [done|].
  rewrite (SE_bind_ok _ _ s (g x) s) by (apply H; set_solver).
  rewrite (SE_bind_ok _ _ s (map g l) s); [done|]. apply IH; set_solver.
Qed.

(** Split a pair-valued run of a stateful computation into its steps. *)
Ltac run_bind :=
  match goal with
  | |- context [(?m ≫= ?f) ?s] =>
      let H := fresh "Hrun" in
      eassert (m s = _) as H; [|rewrite (SE_bind_ok m f s _ _ H); clear H]
  end.

(** Decide a closed decidable proposition by computation. *)
Ltac compute_decide := apply (bool_decide_unpack _); vm_compute; exact I.

(** * Sorting

    Sortedness of [sort_by] for comparators that agree with an integer
    measure, and sorts whose comparator unwraps a partial comparison. *)

Open Scope nat_scope.

(** ** Sorting by an integer measure *)
Section sort_measure.
Context {A : Type} (cmp : A → A → comparison) (m : A → Z).
Lemma insert_measure x l :
  (∀ y, y ∈ l → cmp x y = (m x ?= m y)%Z) →
  StronglySorted (λ a b, (m a ≤ m b)%Z) l → StronglySorted (λ a b, (m a ≤ m b)%Z) (sort_insert cmp x l).
Proof.
  intros Hc Hs. induction Hs as [|y l Hs IH Hy]; [by repeat constructor|]. simpl. rewrite Hc by left.
  assert (∀ z, z ∈ l → cmp x z = (m x ?= m z)%Z) as Hc' by (intros z Hz; apply Hc; by right).
  destruct (Z.compare_spec (m x) (m y)) as [E|E|E].
  - constructor; [by constructor|]. constructor; [lia|]. eapply Forall_impl; [exact Hy|]. intros; simpl in *; lia.
  - constructor; [by constructor|]. constructor; [lia|]. eapply Forall_impl; [exact Hy|]. intros; simpl in *; lia.
  - constructor; [by apply IH|]. clear -Hy E. induction l as [|z l IHl]; simpl; [constructor; [lia|constructor]|].
    apply Forall_cons in Hy as [Hz Hy]. destruct (cmp x z); constructor; try lia; try done; [..|by apply IHl];
      by constructor.
Qed.
Lemma sort_by_measure l :
  (∀ x y, x ∈ l → y ∈ l → cmp x y = (m x ?= m y)%Z) → StronglySorted (λ a b, (m a ≤ m b)%Z) (sort_by cmp l).
Proof.
  induction l as [|x l IH]; intros Hc; simpl; [constructor|]. apply insert_measure.
  - intros y Hy. rewrite (sort_by_perm cmp l) in Hy. apply Hc; [left|by right].
  - apply IH. intros y z Hy Hz. apply Hc; by right.
Qed.
End sort_measure.

Lemma sorted_weaken {A} (R R' : A → A → Prop) l : (∀ a b, R a b → R' a b) → StronglySorted R l → StronglySorted R' l.
Proof.
  intros HR. induction 1 as [|x l Hs IH Hx]; constructor; [done|]. eapply Forall_impl; [exact Hx|]. auto.
Qed.

(** ** Sorts that unwrap a partial comparison

    [slice::sort_by(|a, b| a.partial_cmp(b).unwrap())]: a slice of two or more
    elements compares every element, so an incomparable one is a panic. *)
Definition sort_unwrap {A} (comparable : A → bool) (cmp : A → A → comparison) (l : list A) : option (list A) :=
  if (length l <=? 1) || forallb comparable l then Some (sort_by cmp l) else None.

Lemma sort_unwrap_Some {A} (comparable : A → bool) cmp (l : list A) :
  (∀ x, x ∈ l → comparable x = true) → sort_unwrap comparable cmp l = Some (sort_by cmp l).
Proof.
  intros Hc. unfold sort_unwrap. replace (forallb comparable l) with true; [by rewrite orb_true_r|].
  symmetry. apply forallb_forall. intros x Hx. apply Hc. by apply list_elem_of_In.
Qed.
Lemma sort_unwrap_perm {A} (comparable : A → bool) cmp (l l' : list A) :
  sort_unwrap comparable cmp l = Some l' → l' ≡ₚ l.
Proof. unfold sort_unwrap. destruct (_ || _); [|done]. intros [= <-]. apply sort_by_perm. Qed.

(** ** Sorts by an arbitrary comparator

    [slice::sort_by] documents that the result is the stable sort when the
    comparator is a total order on the elements, and that it otherwise may
    panic ([None]) or leave all the elements in an unspecified order.  What it
    does then is a parameter. *)
Definition total_on {A} (cmp : A → A → comparison) (l : list A) : Prop :=
  Forall (λ x, cmp x x = Eq ∧ Forall (λ y, cmp y x = CompOpp (cmp x y) ∧
    Forall (λ z, cmp x y ≠ Gt → cmp y z ≠ Gt → cmp x z ≠ Gt) l) l) l.
#[export] Instance total_on_dec {A} (cmp : A → A → comparison) l : Decision (total_on cmp l).
Proof. unfold total_on. apply _. Defined.

Definition Sorter : Type := ∀ A : Type, (A → A → comparison) → list A → option (list A).
Record sorter_ok (sort : Sorter) : Prop := {
  so_total : ∀ A (cmp : A → A → comparison) l, total_on cmp l → sort A cmp l = Some (sort_by cmp l);
  so_perm : ∀ A (cmp : A → A → comparison) l l', sort A cmp l = Some l' → l' ≡ₚ l
}.
(** A sort that never panics, and one that always does where it may. *)
Definition lenient_sort : Sorter := λ A cmp l, Some (sort_by cmp l).
Definition strict_sort : Sorter := λ A cmp l, if decide (total_on cmp l) then Some (sort_by cmp l) else None.
Lemma lenient_sort_ok : sorter_ok lenient_sort.
Proof. split; [done|]. intros A cmp l l' [= <-]. apply sort_by_perm. Qed.
Lemma strict_sort_ok : sorter_ok strict_sort.
Proof.
  split; intros A cmp l; unfold strict_sort; [intros Ht; by rewrite decide_True by done|].
  intros l'. destruct (decide _); [|done]. intros [= <-]. apply sort_by_perm.
Qed.

Section total.
Context {A : Type} (cmp : A → A → comparison).
Lemma total_on_elem l : total_on cmp l ↔ ∀ x y z, x ∈ l → y ∈ l → z ∈ l →
  cmp x x = Eq ∧ cmp y x = CompOpp (cmp x y) ∧ (cmp x y ≠ Gt → cmp y z ≠ Gt → cmp x z ≠ Gt).
Proof.
  unfold total_on. rewrite Forall_forall. setoid_rewrite Forall_forall. setoid_rewrite Forall_forall. split.
  - intros Hl x y z Hx Hy Hz. destruct (Hl x Hx) as [? Hxy]. destruct (Hxy y Hy) as [? Hxyz]. auto.
  - intros Hl x Hx. split; [by apply (Hl x x x)|]. intros y Hy. split; [by apply (Hl x y x)|].
    intros z Hz. by apply (Hl x y z).
Qed.
Lemma total_on_sub l l' : (∀ x, x ∈ l' → x ∈ l) → total_on cmp l → total_on cmp l'.
Proof. rewrite !total_on_elem. intros Hs Hl x y z ???. apply Hl; auto. Qed.
Lemma total_on_measure (m : A → Z) l : (∀ x y, x ∈ l → y ∈ l → cmp x y = (m x ?= m y)%Z) → total_on cmp l.
Proof.
  intros Hc. apply total_on_elem. intros x y z Hx Hy Hz. rewrite !Hc by done.
  split_and!; [apply Z.compare_refl|by rewrite <- Z.compare_antisym|]. rewrite !Z.compare_le_iff. lia.
Qed.
Lemma sort_insert_total x l : total_on cmp (x :: l) → StronglySorted (λ a b, cmp a b ≠ Gt) l →
  StronglySorted (λ a b, cmp a b ≠ Gt) (sort_insert cmp x l).
Proof.
  intros Ht Hs. revert Ht. induction Hs as [|y l Hs IH Hy]; intros Ht; [by repeat constructor|]. simpl.
  pose proof (proj1 (total_on_elem _) Ht) as Hl.
  assert (cmp x y ≠ Gt → StronglySorted (λ a b, cmp a b ≠ Gt) (x :: y :: l)) as Hhead.
  { intros Hxy. constructor; [by constructor|]. constructor; [done|]. rewrite Forall_forall in Hy |- *. intros z Hz.
    apply (Hl x y z); [left|right; left|by do 2 right|done|by apply Hy]. }
  destruct (cmp x y) eqn:E; [by apply Hhead..|]. constructor.
  - apply IH. revert Ht. apply total_on_sub. set_solver.
  - assert (sort_insert cmp x l ≡ₚ x :: l) as Hp.
    { clear. induction l as [|w l IH]; [done|]. simpl. destruct (cmp x w); [done..|]. rewrite IH. by constructor. }
    rewrite Hp. constructor; [|done]. destruct (Hl x y y) as (_ & -> & _); [left|right; left|right; left|]. by rewrite E.
Qed.
Lemma sort_by_total l : total_on cmp l → StronglySorted (λ a b, cmp a b ≠ Gt) (sort_by cmp l).
Proof.
  induction l as [|x l IH]; intros Ht; simpl; [constructor|]. apply sort_insert_total.
  - revert Ht. apply total_on_sub. intros y. by rewrite !elem_of_cons, sort_by_perm.
  - apply IH. revert Ht. apply total_on_sub. intros y. by right.
Qed.
(** Whatever a sorter answers. *)
Lemma sorter_cases sort l : sorter_ok sort →
  match sort A cmp l with
  | Some l' => l' ≡ₚ l ∧ (total_on cmp l → StronglySorted (λ a b, cmp a b ≠ Gt) l')
  | None => ¬ total_on cmp l
  end.
Proof.
  intros [Ht Hp]. destruct (sort A cmp l) as [l'|] eqn:E; [split; [by eapply Hp|]|]; intros Hl; rewrite Ht in E by done; [|done].
  injection E as <-. by apply sort_by_total.
Qed.
End total.
Lemma total_on_ext {A} (c1 c2 : A → A → comparison) l :
  (∀ x y, x ∈ l → y ∈ l → c2 x y = c1 x y) → total_on c1 l → total_on c2 l.
Proof. rewrite !total_on_elem. intros Hc Hl x y z ???. rewrite !Hc by done. by apply Hl. Qed.
(** Lexicographic and reversed comparisons of total orders. *)
Lemma total_on_lex {A} (c1 c2 : A → A → comparison) l : total_on c1 l → total_on c2 l →
  total_on (λ a b, match c1 a b with Eq => c2 a b | c => c end) l.
Proof.
  rewrite !total_on_elem. intros H1 H2 x y z Hx Hy Hz.
  destruct (H1 x y z) as (R1 & Oxy & T1), (H2 x y z) as (R2 & O2 & T2); [done..|].
  destruct (H1 y z x) as (_ & Oyz & T1'), (H1 z x y) as (_ & Ozx & T1''), (H1 x z y) as (_ & Oxz & _); [done..|].
  rewrite R1, Oxy. split_and!; [done|by destruct (c1 x y)|]. rewrite Oxz, Oxy in T1'. rewrite Oxz, Oyz in T1''.
  clear -T1 T1' T1'' T2. destruct (c1 x y), (c1 y z), (c1 x z); simpl in *; intros Ha Hb;
    first [discriminate | contradiction | by apply T2 | by destruct T1 | by destruct T1' | by destruct T1''].
Qed.
Lemma total_on_opp {A} (c : A → A → comparison) l : total_on c l → total_on (λ a b, CompOpp (c a b)) l.
Proof.
  rewrite !total_on_elem. intros Hc x y z Hx Hy Hz. destruct (Hc z y x) as (_ & Oy & T), (Hc x y z) as (R & O & _); [done..|].
  destruct (Hc y z x) as (_ & Oz & _), (Hc x z y) as (_ & O' & _); [done..|]. rewrite R, O. split_and!; [done..|].
  rewrite Oz, O, O' in T. clear -T. destruct (c x y), (c y z), (c x z); simpl in *; intros Ha Hb;
    first [discriminate | contradiction | by destruct T].
Qed.
