(* ===== verification/OrdMap.v ===== *)
(** * Ordered maps

    The maps the program keeps in key order: Rust's [BTreeMap<String, Value>]
    and the key space of the embedded store.  A map is an association list
    sorted by strictly increasing key; iteration order is the list order. *)

From Stdlib Require Import Sorted.
From S2P Require Export Prelude.

(** ** Total orders *)
Class Ord (K : Type) := ord_cmp : K → K → comparison.
Class OrdLaws (K : Type) `{Ord K} : Prop := {
  ord_eq_iff : ∀ a b, ord_cmp a b = Eq ↔ a = b;
  ord_opp : ∀ a b, ord_cmp b a = CompOpp (ord_cmp a b);
  ord_lt_trans : ∀ a b c,
    ord_cmp a b = Lt → ord_cmp b c = Lt → ord_cmp a c = Lt
}.

#[global] Arguments ord_cmp {_ _} _ _ : simpl never.

Definition ltb {K} `{Ord K} (a b : K) : bool :=
  match ord_cmp a b with Lt => true | _ => false end.
Definition leb {K} `{Ord K} (a b : K) : bool :=
  match ord_cmp a b with Gt => false | _ => true end.

Section order.
Context {K : Type} `{OrdLaws K}.

Lemma ord_refl (a : K) : ord_cmp a a = Eq.
Proof. by apply ord_eq_iff. Qed.

Lemma ltb_lt (a b : K) : ltb a b = true ↔ ord_cmp a b = Lt.
Proof. unfold ltb. by destruct (ord_cmp a b). Qed.

Lemma ltb_irrefl (a : K) : ltb a a = false.
Proof. unfold ltb. by rewrite ord_refl. Qed.

Lemma leb_refl (a : K) : leb a a = true.
Proof. unfold leb. by rewrite ord_refl. Qed.

Lemma leb_negb_ltb (a b : K) : leb a b = negb (ltb b a).
Proof. unfold leb, ltb. rewrite (ord_opp a b). by destruct (ord_cmp a b). Qed.

Lemma ltb_trans (a b c : K) : ltb a b = true → ltb b c = true → ltb a c = true.
Proof. rewrite !ltb_lt. apply ord_lt_trans. Qed.

Lemma leb_cases (a b : K) : leb a b = true ↔ ltb a b = true ∨ a = b.
Proof.
  unfold leb, ltb. rewrite <- ord_eq_iff. destruct (ord_cmp a b); naive_solver.
Qed.

Lemma leb_trans (a b c : K) : leb a b = true → leb b c = true → leb a c = true.
Proof.
  rewrite !leb_cases. intros [|<-] [|<-]; eauto using ltb_trans.
Qed.

Lemma ltb_leb_trans (a b c : K) : ltb a b = true → leb b c = true → ltb a c = true.
Proof. rewrite leb_cases. intros ? [|<-]; eauto using ltb_trans. Qed.

Lemma leb_ltb_trans (a b c : K) : leb a b = true → ltb b c = true → ltb a c = true.
Proof. rewrite leb_cases. intros [|<-] ?; eauto using ltb_trans. Qed.

Lemma leb_antisym (a b : K) : leb a b = true → leb b a = true → a = b.
Proof.
  rewrite (leb_negb_ltb b a), negb_true_iff, leb_cases.
  intros [Hlt|]; [|done]. congruence.
Qed.

Lemma ltb_ne (a b : K) : ltb a b = true → a ≠ b.
Proof. intros Hlt ->. by rewrite ltb_irrefl in Hlt. Qed.

Lemma ltb_total (a b : K) : ltb a b = true ∨ a = b ∨ ltb b a = true.
Proof.
  unfold ltb. rewrite (ord_opp a b), <- (ord_eq_iff a b).
  destruct (ord_cmp a b); auto.
Qed.
End order.

(** Sorting by the order gives an ascending list. *)
Section sorted.
Context {K : Type} `{OrdLaws K}.

Lemma sort_insert_sorted (x : K) l :
  StronglySorted (λ a b, leb a b = true) l → StronglySorted (λ a b, leb a b = true) (sort_insert ord_cmp x l).
Proof.
  induction 1 as [|y l Hl IH Hy]; simpl; [repeat constructor|].
  destruct (ord_cmp x y) eqn:E.
  1,2: assert (leb x y = true) as Hxy by (unfold leb; by rewrite E);
    constructor; [by constructor|]; constructor; [done|]; eapply List.Forall_impl; [|done];
    intros z ?; by eapply leb_trans.
  assert (leb y x = true) as Hyx by (unfold leb; by rewrite (ord_opp x y), E).
  constructor; [done|]. rewrite Forall_forall in Hy |- *. intros z Hz.
  assert (sort_insert ord_cmp x l ≡ₚ x :: l) as Hp.
  { clear. induction l as [|w l IH]; [done|]. simpl. destruct (ord_cmp x w); [done..|]. rewrite IH. by constructor. }
  rewrite Hp in Hz. apply elem_of_cons in Hz as [->|]; [done|by apply Hy].
Qed.
Lemma sort_by_sorted (l : list K) : StronglySorted (λ a b, leb a b = true) (sort_by ord_cmp l).
Proof. induction l; simpl; [constructor|by apply sort_insert_sorted]. Qed.
Lemma total_on_ord {A} (cmp : A → A → comparison) (f : A → K) l :
  (∀ x y, x ∈ l → y ∈ l → cmp x y = ord_cmp (f x) (f y)) → total_on cmp l.
Proof.
  intros Hc. apply total_on_elem. intros x y z Hx Hy Hz. rewrite !Hc by done. split_and!; [by apply ord_eq_iff|apply ord_opp|].
  assert (∀ a b : K, ord_cmp a b ≠ Gt ↔ leb a b = true) as Hle by (intros a b; unfold leb; by destruct (ord_cmp a b)).
  rewrite !Hle. apply leb_trans.
Qed.
End sorted.

(** Lexicographic order on lists over an ordered alphabet. *)
Fixpoint list_cmp {K} `{Ord K} (a b : list K) : comparison :=
  match a, b with
  | [], [] => Eq
  | [], _ :: _ => Lt
  | _ :: _, [] => Gt
  | x :: a', y :: b' =>
      match ord_cmp x y with Eq => list_cmp a' b' | c => c end
  end.
#[export] Instance list_Ord {K} `{Ord K} : Ord (list K) := list_cmp.

#[export] Instance list_OrdLaws {K} `{OrdLaws K} : OrdLaws (list K).
Proof.
  split; unfold ord_cmp, list_Ord.
  - induction a as [|x a IH]; intros [|y b]; simpl; try done.
    destruct (ord_cmp x y) eqn:E.
    + rewrite IH. apply ord_eq_iff in E as ->. naive_solver.
    + split; [done|]. intros [= -> ->]. by rewrite ord_refl in E.
    + split; [done|]. intros [= -> ->]. by rewrite ord_refl in E.
  - induction a as [|x a IH]; intros [|y b]; simpl; try done.
    rewrite (ord_opp x y). destruct (ord_cmp x y); simpl; auto.
  - induction a as [|x a IH]; intros [|y b] [|z c]; simpl; try done.
    destruct (ord_cmp x y) eqn:E1, (ord_cmp y z) eqn:E2; try done; intros H1 H2.
    + apply ord_eq_iff in E1 as ->. rewrite E2. eauto.
    + apply ord_eq_iff in E1 as ->. by rewrite E2.
    + apply ord_eq_iff in E2 as <-. by rewrite E1.
    + by rewrite (ord_lt_trans _ _ _ E1 E2).
Qed.

Lemma list_cmp_cons {K} `{Ord K} (a b : K) x y :
  ord_cmp (a :: x) (b :: y) = match ord_cmp a b with Eq => ord_cmp x y | c => c end.
Proof. done. Qed.
Lemma list_cmp_nil {K} `{Ord K} (b : K) y : ord_cmp [] (b :: y) = Lt.
Proof. done. Qed.
Lemma list_cmp_cons_nil {K} `{Ord K} (b : K) y : ord_cmp (b :: y) [] = Gt.
Proof. done. Qed.

(** ** Sorted association lists *)
Abbreviation OMap K V := (list (K * V)) (only parsing).

Section omap_ops.
Context {K V : Type} `{Ord K}.

Fixpoint oget (k : K) (m : OMap K V) : option V :=
  match m with
  | [] => None
  | (k', v) :: m' => match ord_cmp k k' with Eq => Some v | _ => oget k m' end
  end.

Fixpoint oinsert (k : K) (v : V) (m : OMap K V) : OMap K V :=
  match m with
  | [] => [(k, v)]
  | (k', v') :: m' =>
      match ord_cmp k k' with
      | Lt => (k, v) :: (k', v') :: m'
      | Eq => (k, v) :: m'
      | Gt => (k', v') :: oinsert k v m'
      end
  end.

Fixpoint odelete (k : K) (m : OMap K V) : OMap K V :=
  match m with
  | [] => []
  | (k', v') :: m' =>
      match ord_cmp k k' with
      | Eq => odelete k m'
      | _ => (k', v') :: odelete k m'
      end
  end.

Definition ocontains (k : K) (m : OMap K V) : bool :=
  match oget k m with Some _ => true | None => false end.

Definition okeys (m : OMap K V) : list K := map fst m.

(** The entries of the half-open key range [lo..hi], in key order. *)
Definition orange (lo hi : K) (m : OMap K V) : OMap K V :=
  filter (λ kv, Is_true (leb lo kv.1 && ltb kv.1 hi)) m.

(** [BTreeMap::extend] / [collect]: later entries win. *)
Definition oextend (m : OMap K V) (l : list (K * V)) : OMap K V :=
  fold_left (λ m kv, oinsert kv.1 kv.2 m) l m.

Definition odelete_all (m : OMap K V) (l : list K) : OMap K V :=
  fold_left (λ m k, odelete k m) l m.

Fixpoint osorted (m : OMap K V) : Prop :=
  match m with
  | [] => True
  | kv :: m' => Forall (λ kv', ltb kv.1 kv'.1 = true) m' ∧ osorted m'
  end.
End omap_ops.

Section omap_laws.
Context {K V : Type} `{OrdLaws K}.
Implicit Types (k : K) (v : V) (m : OMap K V).

Lemma oget_insert_eq k v m : oget k (oinsert k v m) = Some v.
Proof.
  induction m as [|[k' v'] m IH]; simpl; [by rewrite ord_refl|].
  destruct (ord_cmp k k') eqn:E; simpl; rewrite ?ord_refl; [done..|].
  by rewrite E.
Qed.

Lemma oget_insert_ne k k' v m : k ≠ k' → oget k' (oinsert k v m) = oget k' m.
Proof.
  intros Hne. induction m as [|[k2 v2] m IH]; simpl.
  - destruct (ord_cmp k' k) eqn:E; [|done..].
    apply ord_eq_iff in E. congruence.
  - destruct (ord_cmp k k2) eqn:E; simpl.
    + apply ord_eq_iff in E as ->.
      destruct (ord_cmp k' k2) eqn:E2; [|done..]. apply ord_eq_iff in E2. congruence.
    + destruct (ord_cmp k' k) eqn:E2; [|done..]. apply ord_eq_iff in E2. congruence.
    + by rewrite IH.
Qed.

Lemma oget_delete_eq k m : oget k (odelete k m) = None.
Proof.
  induction m as [|[k' v'] m IH]; simpl; [done|].
  destruct (ord_cmp k k') eqn:E; simpl; rewrite ?E; done.
Qed.

Lemma oget_delete_ne k k' m : k ≠ k' → oget k' (odelete k m) = oget k' m.
Proof.
  intros Hne. induction m as [|[k2 v2] m IH]; simpl; [done|].
  destruct (ord_cmp k k2) eqn:E; simpl; rewrite ?IH; [|done..].
  apply ord_eq_iff in E as ->.
  destruct (ord_cmp k' k2) eqn:E2; [|done..]. apply ord_eq_iff in E2. congruence.
Qed.

Lemma oget_elem k v m : oget k m = Some v → (k, v) ∈ m.
Proof.
  induction m as [|[k' v'] m IH]; simpl; [done|].
  destruct (ord_cmp k k') eqn:E; [|set_solver..].
  apply ord_eq_iff in E as ->. intros [= ->]. set_solver.
Qed.

Lemma oget_None k m : oget k m = None ↔ k ∉ okeys m.
Proof.
  induction m as [|[k' v'] m IH]; simpl; [set_solver|].
  rewrite not_elem_of_cons. destruct (ord_cmp k k') eqn:E.
  - apply ord_eq_iff in E. naive_solver.
  - rewrite IH. split; [|naive_solver]. intros; split; [|done].
    intros ->. by rewrite ord_refl in E.
  - rewrite IH. split; [|naive_solver]. intros; split; [|done].
    intros ->. by rewrite ord_refl in E.
Qed.

Lemma osorted_elem k v m : osorted m → (k, v) ∈ m → oget k m = Some v.
Proof.
  induction m as [|[k' v'] m IH]; simpl; [set_solver|].
  intros [Hall Hs] [Heq|Hin]%elem_of_cons.
  - simplify_eq. by rewrite ord_refl.
  - rewrite Forall_forall in Hall. specialize (Hall _ Hin). simpl in Hall.
    apply ltb_lt in Hall. rewrite (ord_opp k' k), Hall. simpl. auto.
Qed.

Lemma oget_iff k v m : osorted m → oget k m = Some v ↔ (k, v) ∈ m.
Proof. split; eauto using oget_elem, osorted_elem. Qed.

Lemma oinsert_elem k v m kv :
  kv ∈ oinsert k v m → kv = (k, v) ∨ kv ∈ m.
Proof.
  induction m as [|[k' v'] m IH]; simpl; [set_solver|].
  destruct (ord_cmp k k'); set_solver.
Qed.

Lemma odelete_elem k m kv : kv ∈ odelete k m → kv ∈ m.
Proof.
  induction m as [|[k' v'] m IH]; simpl; [set_solver|].
  destruct (ord_cmp k k'); set_solver.
Qed.

Lemma osorted_insert k v m : osorted m → osorted (oinsert k v m).
Proof.
  induction m as [|[k' v'] m IH]; simpl; [by repeat constructor|].
  intros [Hall Hs]. destruct (ord_cmp k k') eqn:E; simpl.
  - apply ord_eq_iff in E as ->. done.
  - assert (ltb k k' = true) as Hlt by by apply ltb_lt.
    split; [|done]. constructor; [done|].
    eapply Forall_impl; [exact Hall|]. simpl. eauto using ltb_trans.
  - split; [|auto]. apply Forall_forall. intros kv Hin.
    apply oinsert_elem in Hin as [->|Hin]; simpl.
    + apply ltb_lt. by rewrite (ord_opp k k'), E.
    + rewrite Forall_forall in Hall. auto.
Qed.

Lemma osorted_delete k m : osorted m → osorted (odelete k m).
Proof.
  induction m as [|[k' v'] m IH]; simpl; [done|].
  intros [Hall Hs]. destruct (ord_cmp k k'); simpl; [auto| |];
    (split; [|auto]; rewrite Forall_forall in *; eauto using odelete_elem).
Qed.

Lemma osorted_extend m l : osorted m → osorted (oextend m l).
Proof.
  unfold oextend. revert m; induction l as [|[k v] l IH]; simpl; eauto using osorted_insert.
Qed.

Lemma osorted_delete_all m (l : list K) : osorted m → osorted (odelete_all m l).
Proof.
  unfold odelete_all. revert m; induction l; simpl; eauto using osorted_delete.
Qed.

Lemma osorted_filter (P : K * V → Prop) `{∀ kv, Decision (P kv)} m :
  osorted m → osorted (filter P m).
Proof.
  induction m as [|kv m IH]; [done|]. intros [Hall Hs].
  rewrite filter_cons. case_decide; [|auto]. split; [|auto].
  rewrite Forall_forall in *. intros kv' [_ ?]%list_elem_of_filter. auto.
Qed.

Lemma osorted_NoDup_keys m : osorted m → NoDup (map fst m).
Proof.
  induction m as [|[k v] m IH]; simpl; [constructor|]. intros [Hall Hs]. constructor; [|auto].
  intros ([k' v'] & -> & Hin)%list_elem_of_fmap. rewrite Forall_forall in Hall.
  specialize (Hall _ Hin). simpl in Hall. by rewrite ltb_irrefl in Hall.
Qed.
Lemma osorted_NoDup m : osorted m → NoDup m.
Proof. intros. by eapply NoDup_fmap_1, osorted_NoDup_keys. Qed.

Lemma osorted_ext m1 m2 :
  osorted m1 → osorted m2 → (∀ k, oget k m1 = oget k m2) → m1 = m2.
Proof.
  revert m2; induction m1 as [|[k1 v1] m1 IH]; intros [|[k2 v2] m2] H1 H2 Heq.
  - done.
  - specialize (Heq k2). simpl in Heq. by rewrite ord_refl in Heq.
  - specialize (Heq k1). simpl in Heq. by rewrite ord_refl in Heq.
  - destruct H1 as [Ha1 Hs1], H2 as [Ha2 Hs2].
    assert (k1 = k2) as ->.
    { destruct (ltb_total k1 k2) as [Hlt|[|Hlt]]; [|done|]; exfalso.
      - pose proof (Heq k1) as Hk. simpl in Hk. rewrite ord_refl in Hk.
        apply ltb_lt in Hlt as Hc. rewrite Hc in Hk. symmetry in Hk.
        apply oget_elem in Hk. rewrite Forall_forall in Ha2.
        specialize (Ha2 _ Hk). simpl in Ha2.
        pose proof (ltb_trans _ _ _ Hlt Ha2) as Hi. by rewrite ltb_irrefl in Hi.
      - pose proof (Heq k2) as Hk. simpl in Hk. rewrite ord_refl in Hk.
        apply ltb_lt in Hlt as Hc. rewrite Hc in Hk.
        apply oget_elem in Hk. rewrite Forall_forall in Ha1.
        specialize (Ha1 _ Hk). simpl in Ha1.
        pose proof (ltb_trans _ _ _ Hlt Ha1) as Hi. by rewrite ltb_irrefl in Hi. }
    pose proof (Heq k2) as Hv. simpl in Hv. rewrite ord_refl in Hv.
    simplify_eq. f_equal. apply IH; [done..|]. intros k.
    specialize (Heq k). simpl in Heq. destruct (ord_cmp k k2) eqn:E; [|done..].
    apply ord_eq_iff in E as ->.
    assert (∀ m, Forall (λ kv : K * V, ltb k2 kv.1 = true) m → oget k2 m = None) as Hno.
    { intros m Hm. apply oget_None. unfold okeys. intros Hin. apply list_elem_of_fmap in Hin as ([k' v'] & -> & Hin).
      rewrite Forall_forall in Hm. specialize (Hm _ Hin). simpl in Hm.
      by rewrite ltb_irrefl in Hm. }
    by rewrite !Hno.
Qed.

Lemma oget_insert k k' v m :
  oget k' (oinsert k v m) = match ord_cmp k' k with Eq => Some v | _ => oget k' m end.
Proof.
  destruct (ord_cmp k' k) eqn:E.
  - apply ord_eq_iff in E as ->. apply oget_insert_eq.
  - apply oget_insert_ne. intros ->. by rewrite ord_refl in E.
  - apply oget_insert_ne. intros ->. by rewrite ord_refl in E.
Qed.

Lemma oget_extend_notin m (l : list (K * V)) k :
  k ∉ map fst l → oget k (oextend m l) = oget k m.
Proof.
  unfold oextend. revert m; induction l as [|[k' v'] l IH]; intros m Hn; simpl; [done|].
  simpl in Hn. apply not_elem_of_cons in Hn as [? ?].
  rewrite IH by done. by apply oget_insert_ne.
Qed.

Lemma oget_extend_inv m (l : list (K * V)) k v :
  oget k (oextend m l) = Some v → (k, v) ∈ l ∨ oget k m = Some v.
Proof.
  unfold oextend. revert m; induction l as [|[k' v'] l IH]; intros m Hk; simpl in *; [by right|].
  apply IH in Hk as [Hk|Hk]; [left; by right|]. rewrite oget_insert in Hk.
  destruct (ord_cmp k k') eqn:E; [|by right..]. apply ord_eq_iff in E as ->. injection Hk as ->. left. left.
Qed.
Lemma oget_delete_all_notin m (l : list K) k :
  k ∉ l → oget k (odelete_all m l) = oget k m.
Proof.
  unfold odelete_all. revert m; induction l as [|k' l IH]; intros m Hn; simpl; [done|].
  apply not_elem_of_cons in Hn as [? ?].
  rewrite IH by done. by apply oget_delete_ne.
Qed.

Lemma oget_delete_all_None m (l : list K) k :
  oget k m = None → oget k (odelete_all m l) = None.
Proof.
  unfold odelete_all. revert m; induction l as [|k' l IH]; intros m Hn; simpl; [done|].
  apply IH. destruct (ltb_total k k') as [Hlt|[->|Hlt]].
  - rewrite oget_delete_ne; [done|]. intros ->. by rewrite ltb_irrefl in Hlt.
  - apply oget_delete_eq.
  - rewrite oget_delete_ne; [done|]. intros ->. by rewrite ltb_irrefl in Hlt.
Qed.

Lemma oget_delete_all_in m (l : list K) k :
  k ∈ l → oget k (odelete_all m l) = None.
Proof.
  unfold odelete_all. revert m; induction l as [|k' l IH]; intros m Hin; simpl; [set_solver|].
  apply elem_of_cons in Hin as [->|Hin]; [|auto].
  apply (oget_delete_all_None (odelete k' m) l k'), oget_delete_eq.
Qed.

Lemma oget_delete_all_inv m (l : list K) k v :
  oget k (odelete_all m l) = Some v → (k ∉ l) ∧ oget k m = Some v.
Proof.
  intros Hg. assert (k ∉ l) as Hn.
  { intros Hin. by rewrite oget_delete_all_in in Hg. }
  split; [done|]. by rewrite oget_delete_all_notin in Hg.
Qed.

(** Last write wins when all writes to [k] carry the same value. *)
Lemma oget_extend_same m (l : list (K * V)) k v :
  (k, v) ∈ l → (∀ v', (k, v') ∈ l → v' = v) → oget k (oextend m l) = Some v.
Proof.
  unfold oextend. revert m; induction l as [|[k' v'] l IH] using rev_ind; intros m Hin Hu; [set_solver|].
  rewrite fold_left_app. simpl.
  destruct (ltb_total k k') as [Hlt|[->|Hlt]].
  - rewrite oget_insert_ne by (intros ->; by rewrite ltb_irrefl in Hlt).
    apply IH; [|set_solver]. apply elem_of_app in Hin as [|[= -> ->]%list_elem_of_singleton]; [done|].
    by rewrite ltb_irrefl in Hlt.
  - rewrite oget_insert_eq. f_equal. apply Hu. set_solver.
  - rewrite oget_insert_ne by (intros ->; by rewrite ltb_irrefl in Hlt).
    apply IH; [|set_solver]. apply elem_of_app in Hin as [|[= -> ->]%list_elem_of_singleton]; [done|].
    by rewrite ltb_irrefl in Hlt.
Qed.

Lemma oget_extend_in m (l : list (K * V)) k :
  k ∈ map fst l → is_Some (oget k (oextend m l)).
Proof.
  unfold oextend. revert m; induction l as [|[k' v'] l IH] using rev_ind; intros m Hin; [set_solver|].
  rewrite fold_left_app. simpl. rewrite oget_insert. rewrite map_app in Hin.
  destruct (ord_cmp k k') eqn:E; [eauto|..];
    (apply elem_of_app in Hin as [Hin|Hin]; [by apply IH|]; apply list_elem_of_singleton in Hin;
     simpl in Hin; subst; by rewrite ord_refl in E).
Qed.

Lemma orange_elem lo hi m kv :
  kv ∈ orange lo hi m ↔ kv ∈ m ∧ leb lo kv.1 = true ∧ ltb kv.1 hi = true.
Proof.
  unfold orange. rewrite list_elem_of_filter, Is_true_true, andb_true_iff. tauto.
Qed.

(** Inserting a fresh key keeps the order of the others. *)
Lemma oinsert_split k v m : oget k m = None → ∃ l1 l2, m = l1 ++ l2 ∧ oinsert k v m = l1 ++ (k, v) :: l2.
Proof.
  induction m as [|[k' v'] m IH]; intros Hk; [by exists [], []|]. cbn [oget oinsert] in *.
  destruct (ord_cmp k k'); [done|by exists [], ((k', v') :: m)|].
  destruct IH as (l1 & l2 & -> & ->); [done|]. by exists ((k', v') :: l1), l2.
Qed.

Lemma ocontains_true k m : ocontains k m = true ↔ is_Some (oget k m).
Proof. unfold ocontains. destruct (oget k m); split; intros Hc; eauto; try done; by destruct Hc. Qed.

Lemma ocontains_false k m : ocontains k m = false ↔ oget k m = None.
Proof. unfold ocontains. by destruct (oget k m). Qed.
End omap_laws.

#[export] Hint Resolve osorted_insert osorted_delete osorted_extend osorted_delete_all
  osorted_filter : dllb.
#[export] Hint Rewrite @oget_insert_eq @oget_delete_eq using typeclasses eauto : dllb.
