(* ===== verification/Bytes.v ===== *)
(** * Bytes, strings and machine integers

    [u8] is [Byte.byte]; [&[u8]] and [Vec<u8>] are lists of bytes with the
    lexicographic order; [String] and [&str] are Rocq strings holding the
    UTF-8 bytes; [i64] and [u64] are [Z] with the wrap-around written out. *)

From S2P Require Export Prelude OrdMap.

Abbreviation bytes := (list byte).

#[export] Instance byte_eq_dec : EqDecision byte := Byte.byte_eq_dec.
#[export] Instance byte_Ord : Ord byte := λ a b, N.compare (Byte.to_N a) (Byte.to_N b).
#[export] Instance N_Ord : Ord N := N.compare.

Lemma to_N_inj a b : Byte.to_N a = Byte.to_N b → a = b.
Proof.
  intros E. assert (Some a = Some b) as [= ->]; [|done].
  rewrite <- (Byte.of_to_N a), <- (Byte.of_to_N b). by f_equal.
Qed.

#[export] Instance byte_OrdLaws : OrdLaws byte.
Proof.
  split; unfold ord_cmp, byte_Ord.
  - intros a b. rewrite N.compare_eq_iff. split; [apply to_N_inj | by intros ->].
  - intros a b. by rewrite N.compare_antisym.
  - intros a b c. rewrite !N.compare_lt_iff. lia.
Qed.

(** ** Bytes as numbers *)
Definition b2z (b : byte) : Z := Z.of_N (Byte.to_N b).
Definition z2b (z : Z) : byte :=
  match Byte.of_N (Z.to_N (z `mod` 256)) with Some b => b | None => x00 end.

Lemma b2z_range b : (0 ≤ b2z b < 256)%Z.
Proof. unfold b2z. pose proof (Byte.to_N_bounded b). lia. Qed.

Lemma z2b_b2z b : z2b (b2z b) = b.
Proof.
  unfold z2b. rewrite Z.mod_small by apply b2z_range.
  unfold b2z. by rewrite N2Z.id, Byte.of_to_N.
Qed.

Lemma b2z_z2b z : b2z (z2b z) = (z `mod` 256)%Z.
Proof.
  unfold z2b, b2z. pose proof (Z.mod_pos_bound z 256).
  destruct (Byte.of_N _) as [b|] eqn:E.
  - apply Byte.to_of_N in E. rewrite E. lia.
  - apply Byte.of_N_None_iff in E. lia.
Qed.

Lemma byte_cmp_b2z a b : ord_cmp a b = Z.compare (b2z a) (b2z b).
Proof. unfold ord_cmp, byte_Ord, b2z. by rewrite N2Z.inj_compare. Qed.

Lemma byte_ltb_b2z a b : ltb a b = true ↔ (b2z a < b2z b)%Z.
Proof. rewrite ltb_lt, byte_cmp_b2z. apply Z.compare_lt_iff. Qed.

Lemma b2z_inj a b : b2z a = b2z b → a = b.
Proof. unfold b2z. intros E. apply to_N_inj. lia. Qed.

(** ** Lexicographic order on byte strings *)
Section lex.
Context {K : Type} `{OrdLaws K}.
Implicit Types p x y k : list K.

Lemma list_cmp_app p x y : ord_cmp (p ++ x) (p ++ y) = ord_cmp x y.
Proof. induction p as [|c p IH]; simpl; [done|]. by rewrite list_cmp_cons, ord_refl. Qed.

Lemma ltb_app p x y : ltb (p ++ x) (p ++ y) = ltb x y.
Proof. unfold ltb. by rewrite list_cmp_app. Qed.

Lemma leb_app p x y : leb (p ++ x) (p ++ y) = leb x y.
Proof. unfold leb. by rewrite list_cmp_app. Qed.

Lemma leb_prefix p k : p `prefix_of` k → leb p k = true.
Proof.
  intros [r ->]. rewrite <- (app_nil_r p) at 1. rewrite leb_app. by destruct r.
Qed.

(** Keys squeezed between two extensions of [p] extend [p]. *)
Lemma between_prefix p x y k :
  leb (p ++ x) k = true → ltb k (p ++ y) = true → p `prefix_of` k.
Proof.
  unfold leb, ltb. revert k; induction p as [|c p IH]; intros k Hl Hu; [apply prefix_nil|].
  destruct k as [|d k]; simpl in *; [done|].
  rewrite list_cmp_cons in Hl, Hu. rewrite (ord_opp c d) in Hu. destruct (ord_cmp c d) eqn:E; simpl in *; [|done|done].
  apply ord_eq_iff in E as ->. apply prefix_cons, IH; done.
Qed.

Lemma list_cmp_app_same x1 x2 y1 y2 :
  length x1 = length x2 →
  ord_cmp (x1 ++ y1) (x2 ++ y2) =
  match ord_cmp x1 x2 with Eq => ord_cmp y1 y2 | c => c end.
Proof.
  revert x2; induction x1 as [|c x1 IH]; intros [|d x2] Hlen; simpl in *; try done.
  rewrite !list_cmp_cons. destruct (ord_cmp c d) eqn:E; [|done..]. apply IH. lia.
Qed.
End lex.

(** ** Big-endian encoding: [u64::to_be_bytes] *)
Fixpoint be_bytes (w : nat) (n : Z) : bytes :=
  match w with
  | O => []
  | S w' => be_bytes w' (n `div` 256) ++ [z2b n]
  end.
Definition to_be_bytes (n : Z) : bytes := be_bytes 8 n.

Lemma be_bytes_length w n : length (be_bytes w n) = w.
Proof. revert n; induction w; intros n; simpl; rewrite ?length_app, ?IHw; simpl; lia. Qed.

Lemma be_bytes_cmp w a b :
  (0 ≤ a < 256 ^ Z.of_nat w)%Z → (0 ≤ b < 256 ^ Z.of_nat w)%Z →
  ord_cmp (be_bytes w a) (be_bytes w b) = Z.compare a b.
Proof.
  revert a b; induction w as [|w IH]; intros a b Ha Hb.
  { simpl in *. assert (a = b) as -> by lia. by rewrite Z.compare_refl. }
  rewrite Nat2Z.inj_succ, Z.pow_succ_r in Ha, Hb by lia.
  simpl. rewrite list_cmp_app_same by by rewrite !be_bytes_length.
  pose proof (Z_div_mod_eq_full a 256). pose proof (Z_div_mod_eq_full b 256).
  pose proof (Z.mod_pos_bound a 256). pose proof (Z.mod_pos_bound b 256).
  rewrite IH by (split; [apply Z.div_pos | apply Z.div_lt_upper_bound]; lia).
  assert (ord_cmp [z2b a] [z2b b] = Z.compare (a `mod` 256) (b `mod` 256)) as ->.
  { change (ord_cmp [z2b a] [z2b b])
      with (match ord_cmp (z2b a) (z2b b) with Eq => Eq | c => c end).
    rewrite byte_cmp_b2z, !b2z_z2b. by destruct (_ ?= _)%Z. }
  destruct (Z.compare_spec (a `div` 256) (b `div` 256)),
    (Z.compare_spec (a `mod` 256) (b `mod` 256)), (Z.compare_spec a b);
    first [done | lia].
Qed.

Lemma to_be_bytes_cmp a b :
  (0 ≤ a < 2 ^ 64)%Z → (0 ≤ b < 2 ^ 64)%Z →
  ord_cmp (to_be_bytes a) (to_be_bytes b) = Z.compare a b.
Proof. intros. apply be_bytes_cmp; change (256 ^ Z.of_nat 8)%Z with (2 ^ 64)%Z; done. Qed.

Lemma to_be_bytes_inj a b :
  (0 ≤ a < 2 ^ 64)%Z → (0 ≤ b < 2 ^ 64)%Z → to_be_bytes a = to_be_bytes b → a = b.
Proof.
  intros Ha Hb Heq. apply Z.compare_eq_iff.
  rewrite <- to_be_bytes_cmp by done. by rewrite ord_eq_iff.
Qed.

(** ** Integer casts *)
Definition i64_range (n : Z) : Prop := (- 2 ^ 63 ≤ n < 2 ^ 63)%Z.
(** [n as u64]. *)
Definition as_u64 (n : Z) : Z := (n `mod` 2 ^ 64)%Z.
(** [n as i64]. *)
Definition as_i64 (n : Z) : Z := ((n + 2 ^ 63) `mod` 2 ^ 64 - 2 ^ 63)%Z.

(** ** Strings *)
Definition as_bytes (s : string) : bytes := list_byte_of_string s.
Definition str_of_bytes (bs : bytes) : string := string_of_list_byte bs.

Lemma str_as_bytes s : str_of_bytes (as_bytes s) = s.
Proof. apply string_of_list_byte_of_string. Qed.
Lemma as_bytes_str bs : as_bytes (str_of_bytes bs) = bs.
Proof. apply list_byte_of_string_of_list_byte. Qed.

#[export] Instance as_bytes_inj : Inj (=) (=) as_bytes.
Proof. intros s t E. rewrite <- (str_as_bytes s), <- (str_as_bytes t). by f_equal. Qed.

#[export] Instance string_Ord : Ord string := λ a b, ord_cmp (as_bytes a) (as_bytes b).
Lemma string_cmp (a b : string) : ord_cmp a b = ord_cmp (as_bytes a) (as_bytes b).
Proof. done. Qed.

#[export] Instance string_OrdLaws : OrdLaws string.
Proof.
  split.
  - intros a b. rewrite string_cmp, ord_eq_iff.
    split; [apply as_bytes_inj | by intros ->].
  - intros a b. rewrite !string_cmp. apply ord_opp.
  - intros a b c. rewrite !string_cmp. apply ord_lt_trans.
Qed.

(** Well-formed UTF-8 (Unicode table 3-7), the check of [str::from_utf8]. *)
Definition in_range (lo hi : N) (b : byte) : bool :=
  (lo <=? Byte.to_N b)%N && (Byte.to_N b <=? hi)%N.
Definition cont : byte → bool := in_range 0x80 0xBF.

Fixpoint utf8_valid (l : bytes) : bool :=
  match l with
  | [] => true
  | b1 :: l1 =>
      if in_range 0x00 0x7F b1 then utf8_valid l1
      else match l1 with
      | [] => false
      | b2 :: l2 =>
          if in_range 0xC2 0xDF b1 then cont b2 && utf8_valid l2
          else match l2 with
          | [] => false
          | b3 :: l3 =>
              let ok3 := cont b3 && utf8_valid l3 in
              if in_range 0xE0 0xE0 b1 then in_range 0xA0 0xBF b2 && ok3
              else if in_range 0xE1 0xEC b1 || in_range 0xEE 0xEF b1 then cont b2 && ok3
              else if in_range 0xED 0xED b1 then in_range 0x80 0x9F b2 && ok3
              else match l3 with
              | [] => false
              | b4 :: l4 =>
                  let ok4 := cont b3 && cont b4 && utf8_valid l4 in
                  if in_range 0xF0 0xF0 b1 then in_range 0x90 0xBF b2 && ok4
                  else if in_range 0xF1 0xF3 b1 then cont b2 && ok4
                  else if in_range 0xF4 0xF4 b1 then in_range 0x80 0x8F b2 && ok4
                  else false
              end
          end
      end
  end.

(** The invariant of Rust's [String]. *)
Definition is_str (s : string) : Prop := utf8_valid (as_bytes s) = true.

Definition from_utf8 (bs : bytes) : option string :=
  if utf8_valid bs then Some (str_of_bytes bs) else None.

Lemma from_utf8_as_bytes s : is_str s → from_utf8 (as_bytes s) = Some s.
Proof. unfold is_str, from_utf8. intros ->. by rewrite str_as_bytes. Qed.

Lemma from_utf8_Some bs s : from_utf8 bs = Some s → bs = as_bytes s ∧ is_str s.
Proof.
  unfold from_utf8, is_str. destruct (utf8_valid bs) eqn:E; [|done].
  intros [= <-]. by rewrite as_bytes_str.
Qed.

(** ** Splitting: [slice.splitn(n, |b| b == sep)] *)
Fixpoint split_at_sep (sep : byte) (l : bytes) : bytes * option bytes :=
  match l with
  | [] => ([], None)
  | b :: l' =>
      if decide (b = sep) then ([], Some l')
      else let '(seg, rest) := split_at_sep sep l' in (b :: seg, rest)
  end.

Fixpoint splitn (n : nat) (sep : byte) (l : bytes) : list bytes :=
  match n with
  | O => []
  | S O => [l]
  | S n' =>
      match split_at_sep sep l with
      | (seg, None) => [seg]
      | (seg, Some rest) => seg :: splitn n' sep rest
      end
  end.

Definition no_byte (c : byte) (l : bytes) : Prop := c ∉ l.

Lemma split_at_sep_app sep seg rest :
  sep ∉ seg → split_at_sep sep (seg ++ sep :: rest) = (seg, Some rest).
Proof.
  induction seg as [|b seg IH]; intros Hn; simpl.
  - by rewrite decide_True.
  - apply not_elem_of_cons in Hn as [Hb Hn].
    rewrite decide_False by congruence. by rewrite IH.
Qed.

Lemma split_at_sep_none sep seg : sep ∉ seg → split_at_sep sep seg = (seg, None).
Proof.
  induction seg as [|b seg IH]; intros Hn; simpl; [done|].
  apply not_elem_of_cons in Hn as [Hb Hn].
  rewrite decide_False by congruence. by rewrite IH.
Qed.

Lemma split_at_sep_Some sep l seg rest :
  split_at_sep sep l = (seg, Some rest) → l = seg ++ sep :: rest ∧ sep ∉ seg.
Proof.
  revert seg; induction l as [|b l IH]; intros seg; simpl; [done|].
  case_decide as Hd; [intros [= <- <-]; subst; set_solver|].
  destruct (split_at_sep sep l) as [seg' rest'] eqn:E. intros [= <- ->].
  destruct (IH _ eq_refl) as [-> Hn]. set_solver.
Qed.

Lemma splitn_app n sep seg rest :
  sep ∉ seg → splitn (S (S n)) sep (seg ++ sep :: rest) = seg :: splitn (S n) sep rest.
Proof. intros Hn. cbn [splitn]. by rewrite split_at_sep_app. Qed.

(** Two segment/rest decompositions of the same bytes agree. *)
Lemma sep_inj (sep : byte) (a b : bytes) r s :
  sep ∉ a → sep ∉ b → a ++ sep :: r = b ++ sep :: s → a = b ∧ r = s.
Proof.
  intros Ha Hb E. pose proof (split_at_sep_app sep a r Ha) as H1.
  rewrite E, split_at_sep_app in H1 by done. by simplify_eq.
Qed.
