(* ===== verification/Float64.v ===== *)
(** * IEEE 754 floating-point values

    An [f64] is its bit pattern ([f64::to_bits]); comparison, sign and the
    conversion from [i64] follow IEEE 754 binary64 as Rust's primitive type
    does.  [f32] is its bit pattern as well. *)

From Stdlib Require Import SpecFloat.
From S2P Require Export Prelude Bytes.

Record f64 := F64 { to_bits : Z }.
Record f32 := F32 { to_bits32 : Z }.

#[export] Instance f64_eq_dec : EqDecision f64.
Proof. solve_decision. Defined.
#[export] Instance f32_eq_dec : EqDecision f32.
Proof. solve_decision. Defined.

Definition f64_wf (f : f64) : Prop := (0 ≤ to_bits f < 2 ^ 64)%Z.

Section bits.
Local Open Scope Z_scope.

Definition is_sign_negative (f : f64) : bool := Z.testbit (to_bits f) 63.
(** Exponent and fraction fields: the magnitude bits. *)
Definition magnitude (f : f64) : Z := to_bits f mod 2 ^ 63.
Definition is_nan (f : f64) : bool := 0x7FF0000000000000 <? magnitude f.

(** Sign-magnitude integer whose order is the order of non-NaN floats;
    both zeros map to 0. *)
Definition f64_rank (f : f64) : Z :=
  if is_sign_negative f then - magnitude f else magnitude f.

(** [f64::partial_cmp]. *)
Definition f64_partial_cmp (a b : f64) : option comparison :=
  if is_nan a || is_nan b then None else Some (f64_rank a ?= f64_rank b).

(** [f64 == f64]. *)
Definition f64_eqb (a b : f64) : bool :=
  match f64_partial_cmp a b with Some Eq => true | _ => false end.

Definition is_nan32 (f : f32) : bool := 0x7F800000 <? to_bits32 f mod 2 ^ 31.
Definition f32_eqb (a b : f32) : bool :=
  if is_nan32 a || is_nan32 b then false
  else (to_bits32 a =? to_bits32 b)
       || ((to_bits32 a mod 2 ^ 31 =? 0) && (to_bits32 b mod 2 ^ 31 =? 0)).

(** Conversions to and from the reference IEEE semantics. *)
Definition of_spec (x : spec_float) : f64 :=
  let signed (s : bool) (m : Z) := F64 (if s then m + 2 ^ 63 else m) in
  match x with
  | S754_zero s => signed s 0
  | S754_infinity s => signed s 0x7FF0000000000000
  | S754_nan => F64 0x7FF8000000000000
  | S754_finite s m e =>
      if Zpos m <? 2 ^ 52 then signed s (Zpos m)
      else signed s ((e + 1075) * 2 ^ 52 + (Zpos m - 2 ^ 52))
  end.

(** Bit pattern to value, for [mw] fraction bits and exponents from [emin]. *)
Definition spec_of_bits (mw ebits : Z) (bits : Z) : spec_float :=
  let s := Z.testbit bits (mw + ebits) in
  let e := (bits / 2 ^ mw) mod 2 ^ ebits in
  let m := bits mod 2 ^ mw in
  let emin := 2 - 2 ^ (ebits - 1) - mw in
  if e =? 2 ^ ebits - 1 then if m =? 0 then S754_infinity s else S754_nan
  else match (if e =? 0 then m else m + 2 ^ mw) with
       | Zpos p => S754_finite s p (if e =? 0 then emin else emin + e - 1)
       | _ => S754_zero s
       end.
Definition to_spec (f : f64) : spec_float := spec_of_bits 52 11 (to_bits f).
Definition to_spec32 (f : f32) : spec_float := spec_of_bits 23 8 (to_bits32 f).

Definition of_spec32 (x : spec_float) : f32 :=
  let signed (s : bool) (m : Z) := F32 (if s then m + 2 ^ 31 else m) in
  match x with
  | S754_zero s => signed s 0
  | S754_infinity s => signed s 0x7F800000
  | S754_nan => F32 0x7FC00000
  | S754_finite s m e =>
      if Zpos m <? 2 ^ 23 then signed s (Zpos m)
      else signed s ((e + 150) * 2 ^ 23 + (Zpos m - 2 ^ 23))
  end.

(** Arithmetic of [f64] and [f32]: correctly rounded; a NaN result has the
    default quiet pattern. *)
Definition f64_op (op : spec_float → spec_float → spec_float) (a b : f64) : f64 :=
  of_spec (op (to_spec a) (to_spec b)).
Definition f64_add : f64 → f64 → f64 := f64_op (SFadd 53 1024).
Definition f64_sub : f64 → f64 → f64 := f64_op (SFsub 53 1024).
Definition f64_mul : f64 → f64 → f64 := f64_op (SFmul 53 1024).
Definition f64_div : f64 → f64 → f64 := f64_op (SFdiv 53 1024).
Definition f64_abs (a : f64) : f64 := F64 (magnitude a).
Definition f64_neg (a : f64) : f64 :=
  F64 (if is_sign_negative a then magnitude a else magnitude a + 2 ^ 63).

Definition f32_op (op : spec_float → spec_float → spec_float) (a b : f32) : f32 :=
  of_spec32 (op (to_spec32 a) (to_spec32 b)).
Definition f32_add : f32 → f32 → f32 := f32_op (SFadd 24 128).
Definition f32_sub : f32 → f32 → f32 := f32_op (SFsub 24 128).
Definition f32_mul : f32 → f32 → f32 := f32_op (SFmul 24 128).
Definition f32_div : f32 → f32 → f32 := f32_op (SFdiv 24 128).
Definition f32_sqrt (a : f32) : f32 := of_spec32 (SFsqrt 24 128 (to_spec32 a)).
Definition f32_neg (a : f32) : f32 :=
  F32 (if Z.testbit (to_bits32 a) 31 then to_bits32 a mod 2 ^ 31 else to_bits32 a mod 2 ^ 31 + 2 ^ 31).

(** [f32::partial_cmp]. *)
Definition f32_rank (f : f32) : Z :=
  if Z.testbit (to_bits32 f) 31 then - (to_bits32 f mod 2 ^ 31) else to_bits32 f mod 2 ^ 31.
Definition f32_partial_cmp (a b : f32) : option comparison :=
  if is_nan32 a || is_nan32 b then None else Some (f32_rank a ?= f32_rank b).

(** [x as f64] and [x as f32]. *)
Definition f64_of_f32 (a : f32) : f64 :=
  of_spec match to_spec32 a with
          | S754_finite s m e => binary_normalize 53 1024 (if s then Zneg m else Zpos m) e s
          | x => x
          end.
Definition f32_of_f64 (a : f64) : f32 :=
  of_spec32 match to_spec a with
            | S754_finite s m e => binary_normalize 24 128 (if s then Zneg m else Zpos m) e s
            | x => x
            end.
Definition f32_of_i64 (n : Z) : f32 := of_spec32 (binary_normalize 24 128 n 0 false).

(** Comparison operators: false on NaN. *)
Definition f64_ltb (a b : f64) : bool :=
  match f64_partial_cmp a b with Some Lt => true | _ => false end.
Definition f64_gtb (a b : f64) : bool := f64_ltb b a.
Definition f64_leb (a b : f64) : bool :=
  match f64_partial_cmp a b with Some Lt | Some Eq => true | _ => false end.
Definition f32_ltb (a b : f32) : bool :=
  match f32_partial_cmp a b with Some Lt => true | _ => false end.

(** [n as f64]: correctly rounded, ties to even. *)
Definition f64_of_i64 (n : Z) : f64 := of_spec (binary_normalize 53 1024 n 0 false).

Definition f64_one : f64 := F64 0x3FF0000000000000.
Definition f64_zero : f64 := F64 0.
Definition f32_zero : f32 := F32 0.
Definition f32_one : f32 := F32 0x3F800000.
End bits.

(** Sign bit and magnitude of a well-formed pattern. *)
Lemma f64_split f : f64_wf f →
  to_bits f = ((if is_sign_negative f then 2 ^ 63 else 0) + magnitude f)%Z.
Proof.
  unfold f64_wf, is_sign_negative, magnitude. intros [H0 H1].
  rewrite Z.testbit_odd, Z.shiftr_div_pow2 by lia.
  pose proof (Z_div_mod_eq_full (to_bits f) (2 ^ 63)) as Hd.
  assert (0 ≤ to_bits f `div` 2 ^ 63 < 2)%Z as Hq.
  { split; [apply Z.div_pos; lia | apply Z.div_lt_upper_bound; lia]. }
  assert (to_bits f `div` 2 ^ 63 = 0 ∨ to_bits f `div` 2 ^ 63 = 1)%Z as [Hz|Hz] by lia;
    rewrite Hz in *; simpl Z.odd; cbv iota; lia.
Qed.

Lemma magnitude_range f : (0 ≤ magnitude f < 2 ^ 63)%Z.
Proof. unfold magnitude. apply Z.mod_pos_bound. lia. Qed.

Lemma f64_eqb_refl f : is_nan f = false → f64_eqb f f = true.
Proof.
  unfold f64_eqb, f64_partial_cmp. intros ->. simpl. by rewrite Z.compare_refl.
Qed.

Example f64_of_i64_ex :
  map (to_bits ∘ f64_of_i64) [0; 1; -1; 3; 9007199254740993]%Z =
  [0; 0x3FF0000000000000; 0xBFF0000000000000; 0x4008000000000000; 0x4340000000000000]%Z.
Proof. reflexivity. Qed.

Example f64_arith_ex :
  let f := f64_of_i64 in
  map to_bits [f64_add (f64_div (f 1) (f 10)) (f64_div (f 2) (f 10)); f64_sub (f 3) (f 5); f64_mul (f 7) (f (-3));
    f64_div (f 1) (f 0); f64_of_f32 (f32_of_f64 (f64_div (f 1) (f 3)))]%Z =
  [0x3FD3333333333334; to_bits (f (-2)); to_bits (f (-21)); 0x7FF0000000000000; 0x3FD5555560000000]%Z.
Proof. reflexivity. Qed.
Example f32_arith_ex :
  to_bits32 (f32_sqrt (f32_of_i64 2)) = 0x3FB504F3%Z.
Proof. reflexivity. Qed.
