(* ===== verification/FloatInt.v ===== *)
(** * Counting in floating point

    Sums of natural numbers below [2^53] are exact in [f64] and compare as the
    numbers do: the facts the degree counts rely on. *)

From Stdlib Require Import SpecFloat.
From S2P Require Export Float64.

Local Open Scope Z_scope.

Lemma digits2_log p : Zpos (digits2_pos p) = Z.log2 (Zpos p) + 1.
Proof.
  induction p as [p IH|p IH|]; [..|done]; simpl digits2_pos; rewrite Pos2Z.inj_succ, IH.
  - rewrite Pos2Z.inj_xI, Z.log2_succ_double by lia. lia.
  - rewrite Pos2Z.inj_xO, Z.log2_double by lia. lia.
Qed.

Lemma iter_xO p d : Zpos (Pos.iter xO p d) = Zpos p * 2 ^ Zpos d.
Proof.
  induction d as [|d IH] using Pos.peano_ind; [simpl; lia|].
  rewrite Pos.iter_succ, Pos2Z.inj_xO, IH, Pos2Z.inj_succ, Z.pow_succ_r by lia. lia.
Qed.

Lemma iter_plus {A} (f : A → A) a b x : Nat.iter (a + b) f x = Nat.iter a f (Nat.iter b f x).
Proof. induction a as [|a IH]; [done|]. simpl. by rewrite IH. Qed.
Lemma iter_pos_nat {A} (f : A → A) n x : SpecFloat.iter_pos f n x = Nat.iter (Pos.to_nat n) f x.
Proof.
  revert x. induction n as [n IH|n IH|]; intros x; cbn [SpecFloat.iter_pos]; [| |done].
  - rewrite !IH. trans (Nat.iter (Pos.to_nat n + (Pos.to_nat n + 1)) f x); [by rewrite !iter_plus|].
    f_equal. rewrite Pos2Nat.inj_xI. lia.
  - rewrite !IH, <- iter_plus. f_equal. rewrite Pos2Nat.inj_xO. lia.
Qed.

Lemma shr_exact n k :
  0 < n → Nat.iter k shr_1 (Build_shr_record (n * 2 ^ Z.of_nat k) false false) = Build_shr_record n false false.
Proof.
  intros Hn. induction k as [|k IH]; [simpl; f_equal; lia|].
  replace (S k) with (k + 1)%nat by lia. rewrite iter_plus. rewrite <- IH. f_equal.
  replace (Z.of_nat (k + 1)) with (Z.succ (Z.of_nat k)) by lia. rewrite Z.pow_succ_r by lia.
  assert (0 < n * 2 ^ Z.of_nat k) as Hp by (apply Z.mul_pos_pos; [done|lia]).
  replace (n * (2 * 2 ^ Z.of_nat k)) with (2 * (n * 2 ^ Z.of_nat k)) by lia.
  destruct (n * 2 ^ Z.of_nat k) as [|p|p]; [lia|done|lia].
Qed.

Abbreviation bits_of n := (Z.log2 n + 1).
(** The mantissa and exponent of a natural number. *)
Definition mant (n : Z) : Z := n * 2 ^ (53 - bits_of n).
Definition canon (n : Z) : spec_float :=
  match mant n with Zpos m => S754_finite false m (bits_of n - 53) | _ => S754_zero false end.

Lemma log2_shift n j : 0 < n → 0 ≤ j → Z.log2 (n * 2 ^ j) = Z.log2 n + j.
Proof. intros Hn Hj. rewrite Z.log2_mul_pow2 by lia. lia. Qed.

Lemma bits_range n : 0 < n < 2 ^ 53 → 1 ≤ bits_of n ≤ 53.
Proof.
  intros Hn. pose proof (Z.log2_nonneg n). assert (Z.log2 n < 53) by (apply Z.log2_lt_pow2; lia). lia.
Qed.

Lemma mant_range n : 0 < n < 2 ^ 53 → 2 ^ 52 ≤ mant n < 2 ^ 53.
Proof.
  intros Hn. pose proof (bits_range n Hn). pose proof (Z.log2_spec n ltac:(lia)) as Hs.
  unfold mant. replace (2 ^ 52) with (2 ^ Z.log2 n * 2 ^ (53 - bits_of n)) by (rewrite <- Z.pow_add_r by lia; f_equal; lia).
  replace (2 ^ 53) with (2 ^ Z.succ (Z.log2 n) * 2 ^ (53 - bits_of n)) by (rewrite <- Z.pow_add_r by lia; f_equal; lia).
  assert (0 < 2 ^ (53 - bits_of n)) by (apply Z.pow_pos_nonneg; lia). nia.
Qed.

Lemma fexp_small d : -1021 ≤ d → fexp 53 1024 d = d - 53.
Proof. unfold fexp, emin. lia. Qed.

(** Rounding at the final exponent changes nothing. *)
Lemma shr_fexp_done m e : 0 < m → fexp 53 1024 (bits_of m + e) = e → shr_fexp 53 1024 m e loc_Exact = (Build_shr_record m false false, e).
Proof.
  intros Hm He. unfold shr_fexp. destruct m as [|m|m]; try lia. unfold Zdigits2. rewrite digits2_log, He, Z.sub_diag. done.
Qed.

Lemma normalize_exact n j szero :
  0 < n < 2 ^ 53 → 0 ≤ j → binary_normalize 53 1024 (n * 2 ^ j) (- j) szero = canon n.
Proof.
  intros Hn Hj. pose proof (bits_range n Hn) as Hb. pose proof (mant_range n Hn) as Hmr.
  assert (0 < n * 2 ^ j) as Hp by (apply Z.mul_pos_pos; [lia|apply Z.pow_pos_nonneg; lia]).
  assert (Z.log2 (n * 2 ^ j) = Z.log2 n + j) as Hlog by (apply log2_shift; lia).
  assert (Z.log2 (mant n) = 52) as Hlm.
  { unfold mant. rewrite log2_shift by lia. lia. }
  assert (∀ m e, 0 < m → (∃ k, 0 ≤ k ∧ m = mant n * 2 ^ k ∧ e = bits_of n - 53 - k) →
    binary_round_aux 53 1024 false m e loc_Exact = canon n) as Haux.
  { intros m e Hm (k & Hk & -> & ->). unfold binary_round_aux.
    assert (shr_fexp 53 1024 (mant n * 2 ^ k) (bits_of n - 53 - k) loc_Exact =
            (Build_shr_record (mant n) false false, bits_of n - 53)) as ->.
    { unfold shr_fexp.
      assert (Zdigits2 (mant n * 2 ^ k) = 53 + k) as ->.
      { assert (Z.log2 (mant n * 2 ^ k) = 52 + k) by (rewrite log2_shift by lia; lia).
        destruct (mant n * 2 ^ k) as [|p|p]; try lia. unfold Zdigits2. rewrite digits2_log. lia. }
      rewrite fexp_small by lia. replace (53 + k + (bits_of n - 53 - k) - 53 - (bits_of n - 53 - k)) with k by lia.
      destruct k as [|k|k]; [by rewrite Z.mul_1_r, Z.sub_0_r| |lia].
      cbn [shr shr_record_of_loc]. rewrite iter_pos_nat, <- (positive_nat_Z k), shr_exact by lia. f_equal. lia. }
    cbn [shr_m loc_of_shr_record round_nearest_even].
    rewrite shr_fexp_done; [|lia|rewrite Hlm, fexp_small by lia; lia].
    cbn [shr_m]. unfold canon. destruct (mant n) as [|p|p]; try lia.
    destruct (Z.leb_spec (bits_of n - 53) (1024 - 53)); [done|lia]. }
  unfold binary_normalize. destruct (n * 2 ^ j) as [|m|m] eqn:E; try lia.
  unfold binary_round, shl_align. rewrite digits2_log, Hlog.
  replace (Z.log2 n + j + 1 + - j) with (bits_of n) by lia. rewrite fexp_small by lia.
  destruct (bits_of n - 53 - - j) as [|q|q] eqn:Eq; apply Haux.
  - lia.
  - exists 0. split; [lia|]. split; [|lia]. rewrite <- E. unfold mant. replace (53 - bits_of n) with j by lia. lia.
  - lia.
  - exists (Zpos q). split; [lia|]. split; [|lia]. rewrite <- E. unfold mant.
    rewrite <- Z.mul_assoc, <- Z.pow_add_r by lia. do 2 f_equal. lia.
  - lia.
  - exists 0. split; [lia|]. split; [|lia]. rewrite iter_xO, <- E. unfold mant.
    rewrite <- Z.mul_assoc, <- Z.pow_add_r by lia. rewrite Z.mul_1_r. do 2 f_equal. lia.
Qed.

Lemma of_i64_canon n : 0 < n < 2 ^ 53 → f64_of_i64 n = of_spec (canon n).
Proof. intros Hn. unfold f64_of_i64. f_equal. rewrite <- (Z.mul_1_r n) at 1. by apply (normalize_exact n 0). Qed.

(** The bit pattern. *)
Definition int_bits (n : Z) : Z := (bits_of n + 1022) * 2 ^ 52 + (mant n - 2 ^ 52).
Lemma of_spec_canon n : 0 < n < 2 ^ 53 → of_spec (canon n) = F64 (int_bits n).
Proof.
  intros Hn. pose proof (mant_range n Hn). unfold canon, int_bits. destruct (mant n) as [|p|p]; try lia.
  unfold of_spec. cbv zeta iota. destruct (Z.ltb_spec (Zpos p) (2 ^ 52)); [lia|]. f_equal. lia.
Qed.

Lemma int_bits_range n : 0 < n < 2 ^ 53 → 0 < int_bits n < 2 ^ 63.
Proof.
  intros Hn. pose proof (mant_range n Hn). pose proof (bits_range n Hn).
  unfold int_bits. change (2 ^ 52) with 4503599627370496 in *. change (2 ^ 53) with 9007199254740992 in *.
  change (2 ^ 63) with 9223372036854775808. lia.
Qed.

Lemma to_spec_int n : 0 < n < 2 ^ 53 → to_spec (F64 (int_bits n)) = canon n.
Proof.
  intros Hn. pose proof (mant_range n Hn) as Hm. pose proof (bits_range n Hn) as Hb. pose proof (int_bits_range n Hn) as Hi.
  unfold to_spec, spec_of_bits. simpl to_bits.
  assert (int_bits n / 2 ^ 52 = bits_of n + 1022) as ->.
  { unfold int_bits. rewrite Z.div_add_l by lia. rewrite Z.div_small by lia. lia. }
  assert (int_bits n mod 2 ^ 52 = mant n - 2 ^ 52) as ->.
  { unfold int_bits. rewrite Z.add_comm, Z.mod_add, Z.mod_small by lia. done. }
  rewrite (Z.mod_small (bits_of n + 1022)) by lia.
  assert (Z.testbit (int_bits n) (52 + 11) = false) as ->.
  { rewrite Z.testbit_odd, Z.shiftr_div_pow2 by lia. rewrite Z.div_small by lia. done. }
  destruct (Z.eqb_spec (bits_of n + 1022) (2 ^ 11 - 1)); [lia|].
  destruct (Z.eqb_spec (bits_of n + 1022) 0); [lia|].
  replace (mant n - 2 ^ 52 + 2 ^ 52) with (mant n) by lia.
  unfold canon. destruct (mant n) as [|p|p]; try lia. f_equal. lia.
Qed.

Lemma align_canon m n j :
  0 < n < 2 ^ 53 → bits_of n - 53 ≤ 0 → 53 - bits_of n ≤ j → mant n = Zpos m →
  Zpos (fst (shl_align m (bits_of n - 53) (- j))) = n * 2 ^ j.
Proof.
  intros Hn _ Hj Hm. pose proof (bits_range n Hn) as Hb. unfold shl_align.
  destruct (- j - (bits_of n - 53)) as [|q|q] eqn:E; simpl fst.
  - rewrite <- Hm. unfold mant. do 2 f_equal. lia.
  - lia.
  - rewrite iter_xO, <- Hm. unfold mant. rewrite <- Z.mul_assoc, <- Z.pow_add_r by lia. do 2 f_equal. lia.
Qed.

Lemma f64_of_i64_zero : f64_of_i64 0 = f64_zero.
Proof. reflexivity. Qed.

Lemma add_pos a b : 0 < a → 0 < b → a + b < 2 ^ 53 → f64_add (f64_of_i64 a) (f64_of_i64 b) = f64_of_i64 (a + b).
Proof.
  intros Ha Hb Hs.
  assert (0 < a < 2 ^ 53 ∧ 0 < b < 2 ^ 53 ∧ 0 < a + b < 2 ^ 53) as (Ha' & Hb' & Hs') by lia.
  unfold f64_add, f64_op. rewrite !of_i64_canon, !of_spec_canon, !to_spec_int by done.
  rewrite <- of_spec_canon by done. f_equal.
  pose proof (bits_range a Ha'). pose proof (bits_range b Hb').
  pose proof (mant_range a Ha'). pose proof (mant_range b Hb').
  unfold canon at 1 2. destruct (mant a) as [|ma|] eqn:Ea; try lia. destruct (mant b) as [|mb|] eqn:Eb; try lia.
  cbn [SFadd]. set (j := 53 - Z.min (bits_of a) (bits_of b)).
  replace (Z.min (bits_of a - 53) (bits_of b - 53)) with (- j) by lia. cbv zeta. cbn [cond_Zopp].
  rewrite (align_canon ma a j), (align_canon mb b j) by (done || lia).
  rewrite <- Z.mul_add_distr_r. apply normalize_exact; lia.
Qed.

(** Sums of naturals are exact. *)
Lemma f64_add_int a b : 0 ≤ a → 0 ≤ b → a + b < 2 ^ 53 → f64_add (f64_of_i64 a) (f64_of_i64 b) = f64_of_i64 (a + b).
Proof.
  intros Ha Hb Hs. destruct (decide (a = 0)) as [->|]; [destruct (decide (b = 0)) as [->|]; [done|]|destruct (decide (b = 0)) as [->|]].
  - rewrite Z.add_0_l, (of_i64_canon b), (of_spec_canon b) by lia. unfold f64_add, f64_op. rewrite (to_spec_int b) by lia.
    change (to_spec (f64_of_i64 0)) with (S754_zero false). rewrite <- (of_spec_canon b) by lia. f_equal.
    unfold canon. by destruct (mant b).
  - rewrite Z.add_0_r, (of_i64_canon a), (of_spec_canon a) by lia. unfold f64_add, f64_op. rewrite (to_spec_int a) by lia.
    change (to_spec (f64_of_i64 0)) with (S754_zero false). rewrite <- (of_spec_canon a) by lia. f_equal.
    unfold canon. by destruct (mant a).
  - apply add_pos; lia.
Qed.

Lemma int_bits_mono a b : 0 < a → a < b → b < 2 ^ 53 → int_bits a < int_bits b.
Proof.
  intros Ha Hab Hb. pose proof (mant_range a ltac:(lia)). pose proof (mant_range b ltac:(lia)).
  pose proof (Z.log2_le_mono a b ltac:(lia)). unfold int_bits.
  change (2 ^ 52) with 4503599627370496 in *. change (2 ^ 53) with 9007199254740992 in *.
  destruct (decide (Z.log2 a = Z.log2 b)) as [E|]; [|lia].
  assert (mant a < mant b); [|lia]. unfold mant. rewrite E. apply Z.mul_lt_mono_pos_r; [|done].
  pose proof (bits_range b ltac:(lia)). apply Z.pow_pos_nonneg; lia.
Qed.

(** Naturals compare as numbers. *)
Lemma f64_cmp_int a b : 0 ≤ a < 2 ^ 53 → 0 ≤ b < 2 ^ 53 →
  f64_partial_cmp (f64_of_i64 a) (f64_of_i64 b) = Some (a ?= b).
Proof.
  intros Ha Hb.
  assert (∀ n, 0 ≤ n < 2 ^ 53 → ∃ k, f64_of_i64 n = F64 k ∧ 0 ≤ k ≤ 0x4340000000000000 ∧ (n = 0 → k = 0) ∧ (0 < n → k = int_bits n)) as Hk.
  { intros n Hn. destruct (decide (n = 0)) as [->|]; [exists 0; split_and!; [done|lia..]|].
    exists (int_bits n). rewrite of_i64_canon, of_spec_canon by lia.
    pose proof (mant_range n ltac:(lia)). pose proof (bits_range n ltac:(lia)).
    assert (0 ≤ int_bits n ≤ 0x4340000000000000); [|split_and!; (done || lia)]. unfold int_bits.
    change (2 ^ 52) with 4503599627370496 in *. change (2 ^ 53) with 9007199254740992 in *. lia. }
  destruct (Hk a Ha) as (ka & -> & Hra & Hza & Hpa), (Hk b Hb) as (kb & -> & Hrb & Hzb & Hpb).
  unfold f64_partial_cmp, is_nan, f64_rank, is_sign_negative, magnitude. simpl to_bits.
  rewrite !(Z.mod_small _ (2 ^ 63)) by lia.
  destruct (Z.ltb_spec 0x7FF0000000000000 ka); [lia|]. destruct (Z.ltb_spec 0x7FF0000000000000 kb); [lia|]. simpl orb.
  rewrite !Z.testbit_odd, !Z.shiftr_div_pow2, !Z.div_small by lia. simpl Z.odd. cbv iota. f_equal.
  destruct (Z.compare_spec a b) as [->|Hlt|Hgt].
  - apply Z.compare_eq_iff. destruct (decide (b = 0)); [rewrite Hza, Hzb by done; done|]. rewrite Hpa, Hpb by lia. done.
  - apply Z.compare_lt_iff. rewrite (Hpb ltac:(lia)). destruct (decide (a = 0)); [rewrite Hza by done; apply int_bits_range; lia|].
    rewrite Hpa by lia. apply int_bits_mono; lia.
  - apply Z.compare_gt_iff. rewrite (Hpa ltac:(lia)). destruct (decide (b = 0)); [rewrite Hzb by done; apply int_bits_range; lia|].
    rewrite Hpb by lia. apply int_bits_mono; lia.
Qed.

(** * Rounded results are representable

    Rounding yields a valid value of the format, valid values survive the trip
    through their bit pattern, and negation of a value flips its sign bit:
    the facts behind the symmetry of the distance metrics. *)

Local Open Scope Z_scope.

Lemma shr_1_half rec : 0 ≤ shr_m rec → shr_m (shr_1 rec) = shr_m rec / 2.
Proof.
  destruct rec as [m r s]. simpl. destruct m as [|[p|p|]|p]; simpl; intros H; try done.
  - rewrite Pos2Z.inj_xI. replace (2 * Zpos p + 1) with (1 + Zpos p * 2) by lia. rewrite Z.div_add by lia. done.
  - rewrite Pos2Z.inj_xO. by rewrite Z.mul_comm, Z.div_mul.
Qed.
Lemma shr_iter n : ∀ rec, 0 ≤ shr_m rec → shr_m (Nat.iter n shr_1 rec) = shr_m rec / 2 ^ Z.of_nat n.
Proof.
  induction n as [|n IH]; intros rec Hr; [by rewrite Z.div_1_r|]. simpl Nat.iter.
  rewrite shr_1_half, IH by (try rewrite IH; try apply Z.div_pos; lia).
  rewrite Z.div_div by lia. f_equal. rewrite Nat2Z.inj_succ, Z.pow_succ_r by lia. lia.
Qed.

Section rounding.
Variables prec emax : Z.
Hypothesis Hprec : 1 < prec.
Local Abbreviation fexp := (fexp prec emax).
Local Abbreviation emin := (emin prec emax).

Lemma shr_shift m l e n : 0 ≤ m → 0 ≤ n →
  shr_m (fst (shr (shr_record_of_loc m l) e n)) = m / 2 ^ n ∧ snd (shr (shr_record_of_loc m l) e n) = e + n.
Proof.
  intros Hm Hn. assert (shr_m (shr_record_of_loc m l) = m) as Hr by (by destruct l as [|[]]).
  destruct n as [|p|p]; [|..|lia]; simpl; [rewrite Z.div_1_r, Hr; lia|].
  rewrite iter_pos_nat, shr_iter by lia. by rewrite Hr, positive_nat_Z.
Qed.
Lemma shr_none m l e n : n ≤ 0 → shr (shr_record_of_loc m l) e n = (shr_record_of_loc m l, e).
Proof. destruct n; [done|lia|done]. Qed.

Lemma digits_bounds m : 0 < m → 2 ^ (Zdigits2 m - 1) ≤ m < 2 ^ Zdigits2 m ∧ 1 ≤ Zdigits2 m.
Proof.
  intros Hm. destruct m as [|p|p]; try lia. unfold Zdigits2. rewrite digits2_log.
  pose proof (Z.log2_spec (Zpos p) ltac:(lia)) as Hs. pose proof (Z.log2_nonneg (Zpos p)).
  replace (Z.log2 (Zpos p) + 1 - 1) with (Z.log2 (Zpos p)) by lia.
  replace (Z.log2 (Zpos p) + 1) with (Z.succ (Z.log2 (Zpos p))) by lia. lia.
Qed.
Lemma digits_unique m d : 0 < d → 2 ^ (d - 1) ≤ m < 2 ^ d → Zdigits2 m = d.
Proof.
  intros Hd Hm. assert (0 < 2 ^ (d - 1)) by (apply Z.pow_pos_nonneg; lia).
  destruct m as [|p|p]; try lia. unfold Zdigits2. rewrite digits2_log.
  rewrite (Z.log2_unique (Zpos p) (d - 1)) by (rewrite ?Z.sub_1_r, ?Z.succ_pred in *; lia). lia.
Qed.

(** The quotient of the first shift. *)
Lemma first_shift m e : 0 < m → e ≤ fexp (Zdigits2 m + e) →
  let e' := fexp (Zdigits2 m + e) in let q := m / 2 ^ (e' - e) in
  0 ≤ q < 2 ^ prec ∧ emin ≤ e' ∧ (emin < e' → 2 ^ (prec - 1) ≤ q).
Proof.
  intros Hm He e' q. pose proof (digits_bounds m Hm) as [[Hlo Hhi] Hd].
  assert (0 < 2 ^ (e' - e)) as Hp by (apply Z.pow_pos_nonneg; lia).
  assert (Zdigits2 m + e - prec ≤ e' ∧ emin ≤ e') as [He' Hmin] by (unfold e', SpecFloat.fexp; lia).
  split_and!; [by apply Z.div_pos; lia| |done|].
  - apply Z.div_lt_upper_bound; [done|]. rewrite <- Z.pow_add_r by lia.
    eapply Z.lt_le_trans; [exact Hhi|]. apply Z.pow_le_mono_r; lia.
  - intros Hgt. assert (e' = Zdigits2 m + e - prec) as Heq by (unfold e', SpecFloat.fexp in *; lia).
    apply Z.div_le_lower_bound; [done|]. rewrite <- Z.pow_add_r by lia.
    etrans; [|exact Hlo]. apply Z.pow_le_mono_r; lia.
Qed.

(** The second shift, after rounding up to [r <= 2^prec]. *)
Lemma second_shift r e : 0 ≤ r ≤ 2 ^ prec → emin ≤ e → (emin < e → 2 ^ (prec - 1) ≤ r) →
  ∃ rec e', shr_fexp prec emax r e loc_Exact = (rec, e') ∧
    (shr_m rec = 0 ∨ ∃ m, shr_m rec = Zpos m ∧ canonical_mantissa prec emax m e' = true).
Proof.
  intros Hr He Hc. unfold shr_fexp. set (d := Zdigits2 r).
  destruct (Z.eq_dec r 0) as [->|Hr0].
  { unfold d. simpl Zdigits2. rewrite shr_none by (unfold SpecFloat.fexp; lia). eexists _, _. split; [done|by left]. }
  pose proof (digits_bounds r ltac:(lia)) as [[Hlo Hhi] Hd]. fold d in Hlo, Hhi, Hd.
  destruct (Z.eq_dec r (2 ^ prec)) as [->|Hr2].
  - assert (d = prec + 1) as ->.
    { apply digits_unique; [lia|]. replace (prec + 1 - 1) with prec by lia. rewrite Z.pow_add_r by lia. lia. }
    assert (fexp (prec + 1 + e) - e = 1) as -> by (unfold SpecFloat.fexp; lia).
    destruct (shr_shift (2 ^ prec) loc_Exact e 1 ltac:(lia) ltac:(lia)) as [Hm He'].
    destruct (shr (shr_record_of_loc (2 ^ prec) loc_Exact) e 1) as [rec e'] eqn:E1. simpl in Hm, He'.
    exists rec, e'. split; [done|]. right. rewrite Hm, He'.
    assert (2 ^ prec / 2 ^ 1 = 2 ^ (prec - 1)) as -> by (rewrite <- Z.pow_sub_r by lia; done).
    destruct (2 ^ (prec - 1)) as [|m|m] eqn:E; try (pose proof (Z.pow_pos_nonneg 2 (prec - 1)); lia).
    exists m. split; [done|]. unfold canonical_mantissa. apply Z.eqb_eq.
    change (Zpos (digits2_pos m)) with (Zdigits2 (Zpos m)). rewrite (digits_unique _ prec); [unfold SpecFloat.fexp; lia|lia|].
    rewrite <- E. split; [done|apply Z.pow_lt_mono_r; lia].
  - assert (d ≤ prec) as Hdp.
    { apply Z.lt_pred_le. rewrite Z.lt_pred_lt_succ || idtac. destruct (Z.le_gt_cases d prec); [lia|].
      assert (2 ^ prec ≤ 2 ^ (d - 1)) by (apply Z.pow_le_mono_r; lia). lia. }
    rewrite shr_none by (unfold SpecFloat.fexp; lia). eexists _, _. split; [done|]. right.
    destruct r as [|m|m]; try lia. exists m. split; [done|]. unfold canonical_mantissa. apply Z.eqb_eq.
    change (Zpos (digits2_pos m)) with d. destruct (Z.eq_dec e emin) as [->|Hn]; [unfold SpecFloat.fexp; lia|].
    assert (d = prec) as ->; [|unfold SpecFloat.fexp; lia]. unfold d. apply digits_unique; [lia|]. split; [|lia]. apply Hc. lia.
Qed.

(** The sign only passes through rounding. *)
Lemma round_aux_sign s m e l : binary_round_aux prec emax (negb s) m e l = SFopp (binary_round_aux prec emax s m e l).
Proof.
  unfold binary_round_aux. destruct (shr_fexp _ _ m e l) as [r1 e1]. destruct (shr_fexp _ _ _ e1 _) as [r2 e2].
  destruct (shr_m r2); [done| |done]. by destruct (Z.leb _ _).
Qed.
(** A rounded number is valid, a number, and has the sign given. *)
Definition signed (s : bool) (x : spec_float) : Prop :=
  match x with S754_zero s' | S754_infinity s' | S754_finite s' _ _ => s' = s | S754_nan => False end.
Lemma round_aux_ok s m e l : 0 < m → e ≤ fexp (Zdigits2 m + e) →
  let x := binary_round_aux prec emax s m e l in valid_binary prec emax x = true ∧ signed s x.
Proof.
  intros Hm He. unfold binary_round_aux. destruct (first_shift m e Hm He) as (Hq & Hmin & Hc).
  destruct (shr_fexp prec emax m e l) as [rec e'] eqn:E1. unfold shr_fexp in E1.
  destruct (shr_shift m l e (fexp (Zdigits2 m + e) - e) ltac:(lia) ltac:(lia)) as [Hm1 He1]. rewrite E1 in Hm1, He1.
  simpl in Hm1, He1. replace (e + (fexp (Zdigits2 m + e) - e)) with (fexp (Zdigits2 m + e)) in He1 by lia.
  rewrite <- Hm1, <- He1 in *.
  set (r := round_nearest_even _ _). assert (shr_m rec ≤ r ≤ shr_m rec + 1) as Hr.
  { unfold r, round_nearest_even. destruct (loc_of_shr_record rec) as [|[]]; [lia| |lia..]. destruct (Z.even _); lia. }
  destruct (second_shift r e') as (rec2 & e2 & -> & [->|(m2 & -> & Hcan)]); [lia|lia|intros; lia|done|].
  destruct (Z.leb_spec e2 (emax - prec)) as [Hle|_]; [|done]. simpl. unfold bounded. rewrite Hcan. split; [|done].
  apply Z.leb_le. lia.
Qed.
Lemma round_aux_valid s m e l :
  0 < m → e ≤ fexp (Zdigits2 m + e) → valid_binary prec emax (binary_round_aux prec emax s m e l) = true.
Proof. intros Hm He. by apply round_aux_ok. Qed.

Lemma binary_round_ok s m e : let x := binary_round prec emax s m e in valid_binary prec emax x = true ∧ signed s x.
Proof.
  unfold binary_round. destruct (shl_align m e _) as [mz ez] eqn:E. unfold shl_align in E.
  destruct (fexp (Zpos (digits2_pos m) + e) - e) as [|d|d] eqn:Ed; injection E as <- <-;
    (apply round_aux_ok; [lia|]); unfold Zdigits2; try lia.
  rewrite !digits2_log in *. rewrite iter_xO, log2_shift by lia. apply Z.eq_le_incl. f_equal. lia.
Qed.
Lemma binary_normalize_valid m e s : valid_binary prec emax (binary_normalize prec emax m e s) = true.
Proof. destruct m; simpl; [done|apply binary_round_ok..]. Qed.
Lemma binary_normalize_signed m e s : ∃ s', signed s' (binary_normalize prec emax m e s) ∧ (0 < m → s' = false).
Proof.
  destruct m as [|m|m]; simpl; [by exists s|exists false; split; [apply binary_round_ok|done]|].
  exists true. split; [apply binary_round_ok|lia].
Qed.
Lemma binary_normalize_opp m e :
  binary_normalize prec emax (- m) e false =
  if m =? 0 then S754_zero false else SFopp (binary_normalize prec emax m e false).
Proof.
  destruct m as [|m|m]; [done|..]; simpl; unfold binary_round; destruct (shl_align _ _ _) as [mz ez];
    [by rewrite <- round_aux_sign|]. rewrite <- (round_aux_sign true). done.
Qed.
End rounding.

(** ** Single precision *)
Lemma testbit_31 b : 0 ≤ b < 2 ^ 31 → Z.testbit b 31 = false ∧ Z.testbit (b + 2 ^ 31) 31 = true.
Proof.
  intros Hb. rewrite !Z.testbit_odd, !Z.shiftr_div_pow2 by lia. split.
  - rewrite Z.div_small by lia. done.
  - replace (b + 2 ^ 31) with (b + 1 * 2 ^ 31) by lia. rewrite Z.div_add, Z.div_small by lia. done.
Qed.

(** The bits of the magnitude. *)
Definition pattern32 (x : spec_float) : Z :=
  match x with
  | S754_zero _ => 0
  | S754_infinity _ => 0x7F800000
  | S754_nan => 0x7FC00000
  | S754_finite _ m e => if Zpos m <? 2 ^ 23 then Zpos m else (e + 150) * 2 ^ 23 + (Zpos m - 2 ^ 23)
  end.
Definition sign_of (x : spec_float) : bool :=
  match x with S754_zero s | S754_infinity s | S754_finite s _ _ => s | S754_nan => false end.
Lemma of_spec32_bits x : of_spec32 x = F32 (if sign_of x then pattern32 x + 2 ^ 31 else pattern32 x).
Proof. destruct x as [[]|[]| |[] m e]; try done; simpl; by destruct (_ <? _). Qed.

Lemma canonical32 m e : bounded 24 128 m e = true →
  Zpos m < 2 ^ 24 ∧ -149 ≤ e ≤ 104 ∧ (Zpos m < 2 ^ 23 → e = -149).
Proof.
  unfold bounded, canonical_mantissa. rewrite andb_true_iff, Z.eqb_eq, Z.leb_le. unfold fexp, emin.
  change (Zpos (digits2_pos m)) with (Zdigits2 (Zpos m)). intros [Hc Hle].
  pose proof (digits_bounds (Zpos m) ltac:(lia)) as [[Hlo Hhi] Hd]. set (d := Zdigits2 (Zpos m)) in *.
  assert (d ≤ 24) as Hd24 by lia.
  assert (2 ^ d ≤ 2 ^ 24) by (apply Z.pow_le_mono_r; lia).
  split_and!; try lia. intros Hm. destruct (Z.le_gt_cases d 23); [lia|].
  assert (2 ^ 23 ≤ 2 ^ (d - 1)) by (apply Z.pow_le_mono_r; lia). lia.
Qed.
Lemma pattern32_range x : valid_binary 24 128 x = true → 0 ≤ pattern32 x < 2 ^ 31.
Proof.
  destruct x as [s|s| |s m e]; simpl; try lia. intros (Hm & He & Hs)%canonical32.
  change (2 ^ 23) with 8388608 in *. change (2 ^ 24) with 16777216 in *. change (2 ^ 31) with 2147483648.
  destruct (Z.ltb_spec (Zpos m) 8388608); lia.
Qed.

(** The sign bit of a pattern is the sign of its value. *)
Lemma spec_of_bits_sign b : 0 ≤ b < 2 ^ 31 → spec_of_bits 23 8 (b + 2 ^ 31) = SFopp (spec_of_bits 23 8 b).
Proof.
  intros Hb. destruct (testbit_31 b Hb) as [H0 H1]. unfold spec_of_bits. cbv zeta.
  change (23 + 8) with 31. rewrite H1, H0.
  replace ((b + 2 ^ 31) mod 2 ^ 23) with (b mod 2 ^ 23)
    by (replace (b + 2 ^ 31) with (b + 2 ^ 8 * 2 ^ 23) by lia; by rewrite Z.mod_add).
  replace (((b + 2 ^ 31) / 2 ^ 23) mod 2 ^ 8) with ((b / 2 ^ 23) mod 2 ^ 8)
    by (replace (b + 2 ^ 31) with (b + 2 ^ 8 * 2 ^ 23) by lia; rewrite Z.div_add by lia;
        replace (b / 2 ^ 23 + 2 ^ 8) with (b / 2 ^ 23 + 1 * 2 ^ 8) by lia; by rewrite Z.mod_add).
  destruct (_ =? 2 ^ 8 - 1); [by destruct (_ =? 0)|]. by destruct (if _ =? 0 then _ else _).
Qed.

Lemma to_of_spec32_pos x : valid_binary 24 128 x = true → sign_of x = false →
  to_spec32 (F32 (pattern32 x)) = x.
Proof.
  destruct x as [s|s| |s m e]; simpl; intros Hv Hs; try (by subst s); [done|]. subst s.
  pose proof (pattern32_range (S754_finite false m e) Hv) as Hr. simpl in Hr.
  apply canonical32 in Hv as (Hm & He & Hsub). unfold to_spec32, spec_of_bits. simpl to_bits32.
  set (b := if _ <? _ then _ else _) in *. change (23 + 8) with 31.
  destruct (testbit_31 b Hr) as [-> _].
  unfold b. clear Hr b. destruct (Z.ltb_spec (Zpos m) (2 ^ 23)) as [Hlt|Hge].
  - rewrite Hsub by done. rewrite (Z.div_small (Zpos m)), (Z.mod_small (Zpos m)) by lia. done.
  - rewrite Z.div_add_l, (Z.div_small (Zpos m - 2 ^ 23)) by lia.
    rewrite (Z.add_comm ((e + 150) * 2 ^ 23)), Z.mod_add, (Z.mod_small (Zpos m - 2 ^ 23)) by lia.
    rewrite Z.mod_small by lia.
    destruct (Z.eqb_spec (e + 150 + 0) (2 ^ 8 - 1)); [lia|]. destruct (Z.eqb_spec (e + 150 + 0) 0); [lia|].
    replace (Zpos m - 2 ^ 23 + 2 ^ 23) with (Zpos m) by lia. f_equal. lia.
Qed.

(** A valid value survives the trip through its pattern, a NaN as a NaN. *)
Lemma to_of_spec32 x : valid_binary 24 128 x = true → to_spec32 (of_spec32 x) = x.
Proof.
  intros Hv. rewrite of_spec32_bits. destruct (sign_of x) eqn:Hs; [|by apply to_of_spec32_pos].
  assert (valid_binary 24 128 (SFopp x) = true ∧ sign_of (SFopp x) = false ∧ pattern32 (SFopp x) = pattern32 x ∧
    SFopp (SFopp x) = x) as (Hv' & Hs' & Hp & Ho).
  { destruct x as [s|s| |s m e]; simpl in *; try done; by subst s. }
  unfold to_spec32. simpl. rewrite spec_of_bits_sign by (by apply pattern32_range). rewrite <- Ho at 2. f_equal.
  rewrite <- Hp. by apply to_of_spec32_pos.
Qed.

(** ** Differences *)
Lemma sub_valid x y : valid_binary 24 128 x = true → valid_binary 24 128 y = true →
  valid_binary 24 128 (SFsub 24 128 x y) = true.
Proof.
  intros Hx Hy. destruct x as [[]|[]| |sx mx ex], y as [[]|[]| |sy my ey]; simpl in *; try done;
    by apply binary_normalize_valid.
Qed.
Lemma sub_opp x y : SFsub 24 128 y x = SFsub 24 128 x y ∨ SFsub 24 128 y x = SFopp (SFsub 24 128 x y).
Proof.
  destruct x as [[]|[]| |sx mx ex], y as [[]|[]| |sy my ey]; simpl; try (by left); try (by right);
    try (right; by rewrite negb_involutive).
  rewrite (Z.min_comm ey ex).
  match goal with |- binary_normalize _ _ (?a - ?b) _ _ = _ ∨ _ => replace (a - b) with (- (b - a)) by lia;
    rewrite (binary_normalize_opp 24 128 (b - a)); destruct (Z.eqb_spec (b - a) 0) as [->|_] end; [by left|by right].
Qed.
Lemma mul_opp x : SFmul 24 128 (SFopp x) (SFopp x) = SFmul 24 128 x x.
Proof. destruct x as [[]|[]| |[] m e]; done. Qed.

Lemma to_spec32_valid_mag b : valid_binary 24 128 (spec_of_bits 23 8 b) = true.
Proof.
  unfold spec_of_bits. assert (0 ≤ (b / 2 ^ 23) mod 2 ^ 8 < 2 ^ 8) as He by (apply Z.mod_pos_bound; lia).
  assert (0 ≤ b mod 2 ^ 23 < 2 ^ 23) as Hm by (apply Z.mod_pos_bound; lia).
  set (e := (b / 2 ^ 23) mod 2 ^ 8) in *. set (m := b mod 2 ^ 23) in *.
  destruct (Z.eqb_spec e (2 ^ 8 - 1)); [by destruct (m =? 0)|].
  destruct (Z.eqb_spec e 0) as [He0|He0].
  - destruct m as [|p|p]; [done| |done]. simpl. unfold bounded, canonical_mantissa. rewrite andb_true_r.
    apply Z.eqb_eq. pose proof (digits_bounds (Zpos p) ltac:(lia)) as [[Hlo _] _].
    change (Zpos (digits2_pos p)) with (Zdigits2 (Zpos p)). destruct (Z.le_gt_cases (Zdigits2 (Zpos p)) 24).
    + unfold fexp, emin. lia.
    + assert (2 ^ 24 ≤ 2 ^ (Zdigits2 (Zpos p) - 1)) by (apply Z.pow_le_mono_r; lia). lia.
  - destruct (m + 2 ^ 23) as [|p|p] eqn:Ep; [done| |done]. simpl. unfold bounded, canonical_mantissa.
    rewrite andb_true_iff, Z.eqb_eq, Z.leb_le. change (Zpos (digits2_pos p)) with (Zdigits2 (Zpos p)).
    rewrite (digits_unique (Zpos p) 24) by lia. unfold fexp, emin. lia.
Qed.
Lemma to_spec32_valid x : valid_binary 24 128 (to_spec32 x) = true.
Proof. apply to_spec32_valid_mag. Qed.

(** ** Numbers

    Sums of numbers of one sign, differences of finite numbers and squares of
    numbers are numbers, and the sign is as it should be. *)
Lemma signed_ex x : (x ≠ S754_nan) → ∃ s, signed s x.
Proof. destruct x as [s|s| |s m e]; [by exists s..|done|by exists s]. Qed.
Lemma add_nonneg x y : valid_binary 24 128 x = true → valid_binary 24 128 y = true → signed false x → signed false y →
  valid_binary 24 128 (SFadd 24 128 x y) = true ∧ signed false (SFadd 24 128 x y).
Proof.
  destruct x as [sx|sx| |sx mx ex], y as [sy|sy| |sy my ey]; try (by intros); intros Hx Hy Hsx Hsy;
    cbn in Hsx, Hsy; subst sx sy; cbn [SFadd Bool.eqb]; try done.
  split; [by apply binary_normalize_valid|].
  match goal with |- signed _ (binary_normalize _ _ ?m ?e ?s) =>
    destruct (binary_normalize_signed 24 128 ltac:(lia) m e s) as (s' & Hs' & Hpos) end.
  rewrite Hpos in Hs'; [done|]. simpl. lia.
Qed.
Lemma sub_signed x y : x ≠ S754_nan → y ≠ S754_nan → (∀ s, x ≠ S754_infinity s) → ∃ s, signed s (SFsub 24 128 x y).
Proof.
  intros Hx Hy Hi. destruct x as [sx|sx| |sx mx ex]; [| by destruct (Hi sx)|done|]; destruct y as [sy|sy| |sy my ey];
    try done; cbn [SFsub].
  1: by apply signed_ex; destruct sx, sy.
  1-4: by eexists.
  - match goal with |- ∃ s, signed s (binary_normalize _ _ ?m ?e ?s') =>
      destruct (binary_normalize_signed 24 128 ltac:(lia) m e s') as (s1 & Hs' & _) end. by exists s1.
Qed.
Lemma square_nonneg x s : valid_binary 24 128 x = true → signed s x →
  valid_binary 24 128 (SFmul 24 128 x x) = true ∧ signed false (SFmul 24 128 x x).
Proof.
  destruct x as [s'|s'| |s' m e]; try done; intros Hv _; cbn [SFmul]; rewrite ?xorb_nilpotent; [done..|].
  apply round_aux_ok; [lia|lia|]. cbn [valid_binary] in Hv. unfold bounded, canonical_mantissa in Hv.
  rewrite andb_true_iff, Z.eqb_eq in Hv. change (Zpos (digits2_pos m)) with (Zdigits2 (Zpos m)) in Hv.
  destruct Hv as [Hc _]. unfold fexp, emin in *. pose proof (digits_bounds (Zpos m) ltac:(lia)) as [Hm Hd].
  set (d := Zdigits2 (Zpos m)) in *. assert (2 * d - 1 ≤ Zdigits2 (Zpos (m * m))) as Hmm; [|lia].
  pose proof (digits_bounds (Zpos (m * m)) ltac:(lia)) as [Hsq Hd2]. set (d2 := Zdigits2 (Zpos (m * m))) in *.
  destruct (Z.le_gt_cases (2 * d - 1) d2) as [|Hlt]; [done|]. exfalso.
  assert (2 ^ d2 ≤ 2 ^ (d - 1) * 2 ^ (d - 1)) by (rewrite <- Z.pow_add_r by lia; apply Z.pow_le_mono_r; lia).
  assert (0 < 2 ^ (d - 1)) by (apply Z.pow_pos_nonneg; lia). nia.
Qed.
Lemma signed_not_nan s x : valid_binary 24 128 x = true → signed s x → is_nan32 (of_spec32 x) = false.
Proof.
  intros Hv Hs. pose proof (pattern32_range x Hv) as Hr. unfold is_nan32. rewrite of_spec32_bits. cbn [to_bits32].
  assert ((if sign_of x then pattern32 x + 2 ^ 31 else pattern32 x) mod 2 ^ 31 = pattern32 x) as ->.
  { destruct (sign_of x); [|by apply Z.mod_small].
    replace (pattern32 x + 2 ^ 31) with (pattern32 x + 1 * 2 ^ 31) by lia. rewrite Z.mod_add by lia. by apply Z.mod_small. }
  apply Z.ltb_ge. destruct x as [?|?| |? m e]; try done. simpl in *. destruct (canonical32 m e Hv) as (Hm & He & _).
  destruct (Z.ltb_spec (Zpos m) (2 ^ 23)); lia.
Qed.
