(* ===== verification/Core.v ===== *)
(** * Core data model (crates/core)

    [Value], [RecordId], table schemas and the shared error type. *)

From S2P Require Export Prelude OrdMap Bytes Float64.

(** ** Errors (core/src/error.rs)

    The variants of [dllb_core::Error].  A message keeps its literal text and
    the displayed string arguments; an argument printed with [{:?}] appears as
    the literal [{:?}]. *)
Inductive Error : Type :=
  | Storage (msg : string)
  | Serialization (msg : string)
  | NotFound (msg : string)
  | Schema (msg : string)
  | Conflict (msg : string)
  | Query (msg : string)
  | Index (msg : string)
  | DimensionMismatch (expected actual : nat)
  | Other (msg : string).

#[export] Instance Error_eq_dec : EqDecision Error.
Proof. solve_decision. Defined.

(** [dllb_core::Result<T>]. *)
Abbreviation result := (Result Error).
(** A stateful operation of the program. *)
Abbreviation M S := (SE S Error).

(** ** Record identifiers (core/src/record_id.rs) *)
Record RecordId := MkRecordId { rid_table : string; rid_id : string }.

#[export] Instance RecordId_eq_dec : EqDecision RecordId.
Proof. solve_decision. Defined.

Module RecordIds.
Definition new (table id : string) : RecordId := MkRecordId table id.

(** [impl Display]: [write!(f, "{}:{}", table, id)]. *)
Definition display (r : RecordId) : string :=
  (rid_table r ++ ":" ++ rid_id r)%string.

(** [str::split_once(':')]: split at the first colon. *)
Fixpoint split_once_colon (s : string) : option (string * string) :=
  match s with
  | EmptyString => None
  | String c s' =>
      if decide (c = ":"%char) then Some (""%string, s')
      else '(a, b) ← split_once_colon s'; Some (String c a, b)
  end.

(** [impl FromStr]. *)
Definition from_str (s : string) : result RecordId :=
  '(table, id) ← ok_or (split_once_colon s) (Other ("invalid record id: " ++ s)%string);
  Ok (new table id).

(** [RecordId::generate]: the fresh UUID is supplied by the caller. *)
Definition generate (uuid : string) (table : string) : RecordId := MkRecordId table uuid.
End RecordIds.

(** ** Values (core/src/value.rs) *)
Inductive Value : Type :=
  | VNone
  | VBool (b : bool)
  | VInt (n : Z)
  | VFloat (f : f64)
  | VString (s : string)
  | VBytes (b : bytes)
  | VArray (l : list Value)
  | VObject (m : OMap string Value)
  | VRecordId (r : RecordId)
  | VVector (v : list f32).

(** A field map: [BTreeMap<String, Value>]. *)
Abbreviation Fields := (OMap string Value).

Module Values.
Definition is_none (v : Value) : bool :=
  match v with VNone => true | _ => false end.

Definition as_vector (v : Value) : option (list f32) :=
  match v with VVector x => Some x | _ => None end.

Fixpoint list_eqb {A} (eqb : A → A → bool) (l1 l2 : list A) : bool :=
  match l1, l2 with
  | [], [] => true
  | x :: l1', y :: l2' => eqb x y && list_eqb eqb l1' l2'
  | _, _ => false
  end.

(** [#[derive(PartialEq)]]: structural, with IEEE equality on floats. *)
Fixpoint eqb (a b : Value) {struct a} : bool :=
  match a, b with
  | VNone, VNone => true
  | VBool x, VBool y => Bool.eqb x y
  | VInt x, VInt y => Z.eqb x y
  | VFloat x, VFloat y => f64_eqb x y
  | VString x, VString y => String.eqb x y
  | VBytes x, VBytes y => bool_decide (x = y)
  | VArray x, VArray y => list_eqb eqb x y
  | VObject x, VObject y =>
      list_eqb (λ p q, String.eqb p.1 q.1 && eqb p.2 q.2) x y
  | VRecordId x, VRecordId y => bool_decide (x = y)
  | VVector x, VVector y => list_eqb f32_eqb x y
  | _, _ => false
  end.

(** The [From] conversions. *)
Definition from_String (s : string) : Value := VString s.
Definition from_i64 (n : Z) : Value := VInt n.
Definition from_f64 (n : f64) : Value := VFloat n.
Definition from_bool (b : bool) : Value := VBool b.
Definition from_Vec_f32 (v : list f32) : Value := VVector v.
End Values.

(** ** Schemas (core/src/schema.rs) *)
Inductive FieldType : Type :=
  | TString | TInt | TFloat | TBool | TBytes | TArray | TObject | TRecordId
  | TVector (dim : nat).

Inductive SchemaMode : Type := Schemaless | Schemafull.

#[export] Instance FieldType_eq_dec : EqDecision FieldType.
Proof. solve_decision. Defined.
#[export] Instance SchemaMode_eq_dec : EqDecision SchemaMode.
Proof. solve_decision. Defined.

Record FieldDefinition := {
  fd_name : string;
  fd_field_type : FieldType;
  fd_required : bool
}.

Record TableDefinition := {
  td_name : string;
  td_schema_mode : SchemaMode;
  td_fields : list FieldDefinition
}.

(** ** Properties *)
Lemma split_once_colon_app (t i : string) :
  ":"%char ∉ list_ascii_of_string t →
  RecordIds.split_once_colon (t ++ ":" ++ i) = Some (t, i).
Proof.
  induction t as [|c t IH]; intros Hn; [done|].
  cbn in Hn. apply not_elem_of_cons in Hn as [Hc Hn].
  simpl. rewrite decide_False by congruence.
  simpl in IH. by rewrite (IH Hn).
Qed.
