(* ===== verification/Key.v ===== *)
(** * Binary key encoding (crates/storage/src/key.rs)

    Keys of the unified key space, the prefix bounds used by every scan, and
    the key parser.  The theorems show that a prefix scan selects exactly the
    keys extending the prefix, that keys determine their segments, and that
    the regions of different models never overlap. *)

From S2P Require Export Core.

(** ** Tags *)
Module tag.
Definition METADATA : byte := x21.
Definition DOCUMENT : byte := x2a.
Definition INDEX : byte := x2b.
Definition GRAPH_EDGE : byte := x7e.
End tag.

Definition SEPARATOR : byte := x00.

Module dir.
Definition INCOMING : byte := x3c.
Definition OUTGOING : byte := x3e.
End dir.

(** ** KeyBuilder *)
Module KeyBuilder.
Record t := Mk { buf : bytes }.
Definition new : t := Mk [].
(** The debug assertion of [segment] is off in release builds. *)
Definition segment (self : t) (data : bytes) : t := Mk (buf self ++ data ++ [SEPARATOR]).
Definition namespace (self : t) (ns : string) : t := segment self (as_bytes ns).
Definition database (self : t) (db : string) : t := segment self (as_bytes db).
Definition table (self : t) (tb : string) : t := segment self (as_bytes tb).
Definition tag (self : t) (b : byte) : t := Mk (buf self ++ [b]).
Definition raw (self : t) (data : bytes) : t := Mk (buf self ++ data).
Definition build (self : t) : bytes := buf self.
End KeyBuilder.

(** The builder chain [KeyBuilder::new().namespace(ns).database(db).table(table).tag(b)]. *)
Definition start (ns db table : string) (b : byte) : KeyBuilder.t :=
  KeyBuilder.tag
    (KeyBuilder.table
       (KeyBuilder.database (KeyBuilder.namespace KeyBuilder.new ns) db) table) b.

(** ** Convenience constructors *)
Definition document_key (ns db table id : string) : bytes :=
  KeyBuilder.build (KeyBuilder.raw (start ns db table tag.DOCUMENT) (as_bytes id)).

Definition graph_outgoing_key (ns db table src edge_type dst : string) : bytes :=
  let et := dir.OUTGOING :: as_bytes edge_type in
  KeyBuilder.build
    (KeyBuilder.raw
       (KeyBuilder.segment
          (KeyBuilder.segment (start ns db table tag.GRAPH_EDGE) (as_bytes src)) et)
       (as_bytes dst)).

Definition graph_incoming_key (ns db table dst edge_type src : string) : bytes :=
  let et := dir.INCOMING :: as_bytes edge_type in
  KeyBuilder.build
    (KeyBuilder.raw
       (KeyBuilder.segment
          (KeyBuilder.segment (start ns db table tag.GRAPH_EDGE) (as_bytes dst)) et)
       (as_bytes src)).

Definition graph_edge_key (ns db table src edge_type dst : string) : bytes :=
  graph_outgoing_key ns db table src edge_type dst.

Definition vertex_outgoing_prefix (ns db table vertex_id : string) : bytes :=
  KeyBuilder.build
    (KeyBuilder.raw
       (KeyBuilder.segment (start ns db table tag.GRAPH_EDGE) (as_bytes vertex_id))
       [dir.OUTGOING]).

Definition vertex_incoming_prefix (ns db table vertex_id : string) : bytes :=
  KeyBuilder.build
    (KeyBuilder.raw
       (KeyBuilder.segment (start ns db table tag.GRAPH_EDGE) (as_bytes vertex_id))
       [dir.INCOMING]).

Definition vertex_outgoing_typed_prefix (ns db table vertex_id edge_type : string) : bytes :=
  let et := dir.OUTGOING :: as_bytes edge_type in
  KeyBuilder.build
    (KeyBuilder.segment
       (KeyBuilder.segment (start ns db table tag.GRAPH_EDGE) (as_bytes vertex_id)) et).

Definition vertex_incoming_typed_prefix (ns db table vertex_id edge_type : string) : bytes :=
  let et := dir.INCOMING :: as_bytes edge_type in
  KeyBuilder.build
    (KeyBuilder.segment
       (KeyBuilder.segment (start ns db table tag.GRAPH_EDGE) (as_bytes vertex_id)) et).

Definition index_key (ns db table index_name : string) (field_val : bytes) (id : string) : bytes :=
  KeyBuilder.build
    (KeyBuilder.raw
       (KeyBuilder.segment
          (KeyBuilder.segment (start ns db table tag.INDEX) (as_bytes index_name)) field_val)
       (as_bytes id)).

Definition metadata_key (ns db table : string) : bytes :=
  KeyBuilder.build (start ns db table tag.METADATA).

Definition idx_segment : bytes := as_bytes "idx".

Definition index_catalog_key (ns db table index_name : string) : bytes :=
  KeyBuilder.build
    (KeyBuilder.raw
       (KeyBuilder.segment (start ns db table tag.METADATA) idx_segment)
       (as_bytes index_name)).

Definition index_catalog_prefix (ns db table : string) : bytes :=
  KeyBuilder.build (KeyBuilder.segment (start ns db table tag.METADATA) idx_segment).

Definition index_prefix (ns db table index_name : string) : bytes :=
  KeyBuilder.build
    (KeyBuilder.segment (start ns db table tag.INDEX) (as_bytes index_name)).

Definition table_prefix (ns db table : string) (tag_byte : byte) : bytes :=
  KeyBuilder.build (start ns db table tag_byte).

(** ** Prefix bounds *)

(** The loop of [prefix_end], on the reversed buffer: [end.last_mut()] is the
    head, [end.pop()] the tail. *)
Fixpoint prefix_end_loop (rev_end : bytes) : bytes :=
  match rev_end with
  | [] => []
  | last :: rest =>
      if (b2z last <? 0xFF)%Z then z2b (b2z last + 1) :: rest
      else prefix_end_loop rest
  end.

Definition prefix_end (prefix : bytes) : bytes := reverse (prefix_end_loop (reverse prefix)).

(** ** KeyParser *)
Record KeyParts := MkKeyParts {
  kp_namespace : bytes;
  kp_database : bytes;
  kp_table : bytes;
  kp_tag : byte;
  kp_remainder : bytes
}.

Definition parse_key (key : bytes) : result KeyParts :=
  match splitn 4 SEPARATOR key with
  | [] => Err (Storage "key too short: missing namespace")
  | [_] => Err (Storage "key too short: missing database")
  | [_; _] => Err (Storage "key too short: missing table")
  | [_; _; _] => Err (Storage "key too short: missing tag")
  | ns :: db :: table :: after_table :: _ =>
      match after_table with
      | [] => Err (Storage "key too short: empty after table")
      | b :: remainder => Ok (MkKeyParts ns db table b remainder)
      end
  end.

Definition validate_segment (s : string) : result unit :=
  if decide (SEPARATOR ∈ as_bytes s)
  then Err (Other "key segment must not contain 0x00: {:?}")
  else Ok tt.

(** ** Shape of the keys *)

(** A string usable as a key segment. *)
Definition seg_ok (s : string) : Prop := SEPARATOR ∉ as_bytes s.

#[export] Instance seg_ok_dec s : Decision (seg_ok s).
Proof. unfold seg_ok. apply _. Defined.

(** [ns\0db\0table\0]. *)
Definition key_head (ns db table : string) : bytes :=
  as_bytes ns ++ SEPARATOR :: as_bytes db ++ SEPARATOR :: as_bytes table ++ [SEPARATOR].

Ltac key_shape :=
  intros;
  cbv [document_key graph_outgoing_key graph_incoming_key vertex_outgoing_prefix
       vertex_incoming_prefix vertex_outgoing_typed_prefix vertex_incoming_typed_prefix
       index_catalog_key index_catalog_prefix index_prefix table_prefix start key_head
       KeyBuilder.new KeyBuilder.segment KeyBuilder.namespace KeyBuilder.database
       KeyBuilder.table KeyBuilder.tag KeyBuilder.raw KeyBuilder.build KeyBuilder.buf];
  repeat (progress (rewrite <- ?app_assoc; cbn [app])); done.

Lemma start_shape ns db table b :
  KeyBuilder.build (start ns db table b) = key_head ns db table ++ [b].
Proof. key_shape. Qed.

Section shapes.
Variables ns db table : string.
Let h := key_head ns db table.

Lemma document_key_shape id :
  document_key ns db table id = h ++ tag.DOCUMENT :: as_bytes id.
Proof. unfold h. key_shape. Qed.
Lemma graph_outgoing_key_shape src et dst :
  graph_outgoing_key ns db table src et dst =
  h ++ tag.GRAPH_EDGE :: as_bytes src ++ SEPARATOR :: dir.OUTGOING :: as_bytes et ++
    SEPARATOR :: as_bytes dst.
Proof. unfold h. key_shape. Qed.
Lemma graph_incoming_key_shape dst et src :
  graph_incoming_key ns db table dst et src =
  h ++ tag.GRAPH_EDGE :: as_bytes dst ++ SEPARATOR :: dir.INCOMING :: as_bytes et ++
    SEPARATOR :: as_bytes src.
Proof. unfold h. key_shape. Qed.
Lemma vertex_outgoing_prefix_shape v :
  vertex_outgoing_prefix ns db table v =
  h ++ tag.GRAPH_EDGE :: as_bytes v ++ SEPARATOR :: [dir.OUTGOING].
Proof. unfold h. key_shape. Qed.
Lemma vertex_incoming_prefix_shape v :
  vertex_incoming_prefix ns db table v =
  h ++ tag.GRAPH_EDGE :: as_bytes v ++ SEPARATOR :: [dir.INCOMING].
Proof. unfold h. key_shape. Qed.
Lemma vertex_outgoing_typed_prefix_shape v et :
  vertex_outgoing_typed_prefix ns db table v et =
  h ++ tag.GRAPH_EDGE :: as_bytes v ++ SEPARATOR :: dir.OUTGOING :: as_bytes et ++ [SEPARATOR].
Proof. unfold h. key_shape. Qed.
Lemma vertex_incoming_typed_prefix_shape v et :
  vertex_incoming_typed_prefix ns db table v et =
  h ++ tag.GRAPH_EDGE :: as_bytes v ++ SEPARATOR :: dir.INCOMING :: as_bytes et ++ [SEPARATOR].
Proof. unfold h. key_shape. Qed.
Lemma index_catalog_key_shape n :
  index_catalog_key ns db table n =
  h ++ tag.METADATA :: idx_segment ++ SEPARATOR :: as_bytes n.
Proof. unfold h. key_shape. Qed.
Lemma index_catalog_prefix_shape :
  index_catalog_prefix ns db table = h ++ tag.METADATA :: idx_segment ++ [SEPARATOR].
Proof. unfold h. key_shape. Qed.
Lemma index_prefix_shape n :
  index_prefix ns db table n = h ++ tag.INDEX :: as_bytes n ++ [SEPARATOR].
Proof. unfold h. key_shape. Qed.
Lemma table_prefix_shape b : table_prefix ns db table b = h ++ [b].
Proof. unfold h. key_shape. Qed.
End shapes.

#[export] Hint Rewrite document_key_shape graph_outgoing_key_shape graph_incoming_key_shape
  vertex_outgoing_prefix_shape vertex_incoming_prefix_shape
  vertex_outgoing_typed_prefix_shape vertex_incoming_typed_prefix_shape
  index_catalog_key_shape index_catalog_prefix_shape index_prefix_shape
  table_prefix_shape : dllb_shape.

(** ** Prefix ranges *)
Lemma prefix_end_loop_spec r :
  (prefix_end_loop r = [] ∧ Forall (λ b, b = xff) r) ∨
  ∃ n b r', r = replicate n xff ++ b :: r' ∧ (b2z b < 0xFF)%Z ∧
            prefix_end_loop r = z2b (b2z b + 1) :: r'.
Proof.
  induction r as [|b r IH]; simpl; [by left|].
  destruct (Z.ltb_spec (b2z b) 0xFF) as [Hlt|Hge].
  - right. by exists 0, b, r.
  - assert (b = xff) as ->.
    { apply b2z_inj. pose proof (b2z_range b). change (b2z xff) with 255%Z. lia. }
    destruct IH as [[-> Hall]|(n & c & r' & -> & Hlt & ->)].
    + left. split; [done|]. by constructor.
    + right. by exists (S n), c, r'.
Qed.

Lemma prefix_end_spec p :
  (prefix_end p = [] ∧ Forall (λ b, b = xff) p) ∨
  ∃ q b n, p = q ++ b :: replicate n xff ∧ (b2z b < 0xFF)%Z ∧
           prefix_end p = q ++ [z2b (b2z b + 1)].
Proof.
  unfold prefix_end.
  destruct (prefix_end_loop_spec (reverse p)) as [[-> Hall]|(n & b & r' & Hp & Hlt & ->)].
  - left. split; [done|]. by rewrite <- Forall_reverse.
  - right. exists (reverse r'), b, n. split; [|split; [done|]].
    + rewrite <- (reverse_involutive p), Hp, reverse_app, reverse_cons, reverse_replicate.
      by rewrite <- app_assoc.
    + by rewrite reverse_cons.
Qed.

Lemma leb_replicate_ff n k : leb (replicate n xff) k = true → replicate n xff `prefix_of` k.
Proof.
  revert k; induction n as [|n IH]; intros k Hle; [apply prefix_nil|].
  simpl in *. unfold leb in Hle. destruct k as [|c k]; [by rewrite list_cmp_cons_nil in Hle|].
  rewrite list_cmp_cons, byte_cmp_b2z in Hle. pose proof (b2z_range c) as Hc.
  change (b2z xff) with 255%Z in Hle.
  destruct (Z.compare_spec 255 (b2z c)) as [He|Hl|Hl]; [|lia|done].
  assert (c = xff) as -> by (apply b2z_inj; change (b2z xff) with 255%Z; lia).
  by apply prefix_cons, IH.
Qed.

Lemma prefix_range p k :
  prefix_end p ≠ [] →
  (leb p k && ltb k (prefix_end p) = true ↔ p `prefix_of` k).
Proof.
  intros Hne. destruct (prefix_end_spec p) as [[? _]|(q & b & n & Hp & Hb & He)]; [done|].
  rewrite He, andb_true_iff. split.
  - intros [Hl Hu]. rewrite Hp in Hl |- *.
    destruct (between_prefix _ _ _ _ Hl Hu) as [r ->].
    rewrite leb_app in Hl. rewrite ltb_app in Hu. apply prefix_app.
    unfold leb, ltb in *. destruct r as [|c r]; [by rewrite list_cmp_cons_nil in Hl|].
    rewrite list_cmp_cons, byte_cmp_b2z in Hl, Hu. rewrite b2z_z2b, Z.mod_small in Hu by
      (pose proof (b2z_range b); lia).
    destruct (Z.compare_spec (b2z b) (b2z c)) as [Heq| |]; [|exfalso|done].
    + apply b2z_inj in Heq as ->. apply prefix_cons, leb_replicate_ff. done.
    + destruct (Z.compare_spec (b2z c) (b2z b + 1)); [|lia|done].
      by destruct r.
  - intros Hpre. split; [by apply leb_prefix|]. destruct Hpre as [r ->].
    rewrite Hp, <- app_assoc, ltb_app. simpl. apply ltb_lt.
    rewrite list_cmp_cons, byte_cmp_b2z, b2z_z2b, Z.mod_small by
      (pose proof (b2z_range b); lia).
    by assert ((b2z b ?= b2z b + 1)%Z = Lt) as -> by (apply Z.compare_lt_iff; lia).
Qed.

Lemma prefix_end_sep p : prefix_end (p ++ [SEPARATOR]) = p ++ [x01].
Proof. unfold prefix_end. rewrite reverse_app. simpl. by rewrite reverse_cons, reverse_involutive. Qed.

Lemma prefix_end_tag p b : (b2z b < 0xFF)%Z → prefix_end (p ++ [b]) ≠ [].
Proof.
  intros Hb. unfold prefix_end. rewrite reverse_app. simpl.
  rewrite (proj2 (Z.ltb_lt _ _)) by done. rewrite reverse_cons. by destruct (reverse _).
Qed.

Lemma prefix_range_iff p b k :
  (b2z b < 0xFF)%Z →
  (leb (p ++ [b]) k && ltb k (prefix_end (p ++ [b])) = true ↔ (p ++ [b]) `prefix_of` k).
Proof. intros Hb. by apply prefix_range, prefix_end_tag. Qed.

(** ** Parsing *)
Lemma splitn4_head ns db table rest :
  SEPARATOR ∉ ns → SEPARATOR ∉ db → SEPARATOR ∉ table →
  splitn 4 SEPARATOR (ns ++ SEPARATOR :: db ++ SEPARATOR :: table ++ SEPARATOR :: rest)
  = [ns; db; table; rest].
Proof. intros. by rewrite !splitn_app. Qed.

(** The bytes a [KeyParts] stands for. *)
Definition unparse (p : KeyParts) : bytes :=
  kp_namespace p ++ SEPARATOR :: kp_database p ++ SEPARATOR :: kp_table p ++
    SEPARATOR :: kp_tag p :: kp_remainder p.

Definition parts_ok (p : KeyParts) : Prop :=
  (SEPARATOR ∉ kp_namespace p) ∧ (SEPARATOR ∉ kp_database p) ∧ (SEPARATOR ∉ kp_table p).

Lemma parse_unparse p : parts_ok p → parse_key (unparse p) = Ok p.
Proof.
  intros (Hn & Hd & Ht). unfold parse_key, unparse.
  rewrite splitn4_head by done. by destruct p.
Qed.

Lemma parse_key_inv k p : parse_key k = Ok p → k = unparse p ∧ parts_ok p.
Proof.
  unfold parse_key. cbn [splitn].
  destruct (split_at_sep SEPARATOR k) as [ns [r1|]] eqn:E1; [|done].
  destruct (split_at_sep SEPARATOR r1) as [db [r2|]] eqn:E2; [|done].
  destruct (split_at_sep SEPARATOR r2) as [tb [r3|]] eqn:E3; [|done].
  apply split_at_sep_Some in E1 as [-> ?], E2 as [-> ?], E3 as [-> ?].
  destruct r3 as [|b r3]; [done|]. intros [= <-]. done.
Qed.

Lemma unparse_head ns db table b r :
  key_head ns db table ++ b :: r =
  unparse (MkKeyParts (as_bytes ns) (as_bytes db) (as_bytes table) b r).
Proof. unfold unparse. key_shape. Qed.

Lemma parse_key_head ns db table b r :
  seg_ok ns → seg_ok db → seg_ok table →
  parse_key (key_head ns db table ++ b :: r) =
  Ok (MkKeyParts (as_bytes ns) (as_bytes db) (as_bytes table) b r).
Proof. intros. rewrite unparse_head. by apply parse_unparse. Qed.

Lemma key_head_inj ns db t b r ns' db' t' b' r' :
  seg_ok ns → seg_ok db → seg_ok t → seg_ok ns' → seg_ok db' → seg_ok t' →
  key_head ns db t ++ b :: r = key_head ns' db' t' ++ b' :: r' →
  ns = ns' ∧ db = db' ∧ t = t' ∧ b = b' ∧ r = r'.
Proof.
  intros Hn Hd Ht Hn' Hd' Ht' E.
  pose proof (parse_key_head ns db t b r Hn Hd Ht) as Hk.
  rewrite E, parse_key_head in Hk by done.
  injection Hk as E1 E2 E3 E4 E5.
  apply (inj as_bytes) in E1, E2, E3. by subst.
Qed.

(** A segment at the front of two extensions. *)
Lemma seg_inj s s' r r' :
  seg_ok s → seg_ok s' →
  as_bytes s ++ SEPARATOR :: r = as_bytes s' ++ SEPARATOR :: r' → s = s' ∧ r = r'.
Proof.
  intros Hs Hs' E. apply sep_inj in E as [E ->]; [|done..].
  split; [by apply (inj as_bytes)|done].
Qed.

Lemma sep_not_outgoing s : seg_ok s → SEPARATOR ∉ dir.OUTGOING :: as_bytes s.
Proof. intros Hs [E|]%elem_of_cons; [by apply (f_equal Byte.to_N) in E | done]. Qed.
Lemma sep_not_incoming s : seg_ok s → SEPARATOR ∉ dir.INCOMING :: as_bytes s.
Proof. intros Hs [E|]%elem_of_cons; [by apply (f_equal Byte.to_N) in E | done]. Qed.
#[export] Hint Resolve sep_not_outgoing sep_not_incoming : dllb.

(** Prefix tests at a known head. *)
Lemma prefix_head_iff h (x y : bytes) : (h ++ x) `prefix_of` (h ++ y) ↔ x `prefix_of` y.
Proof.
  split; [apply prefix_app_inv | apply prefix_app].
Qed.

Lemma prefix_seg_iff (s s' : string) (x y : bytes) :
  seg_ok s → seg_ok s' →
  (as_bytes s ++ SEPARATOR :: x) `prefix_of` (as_bytes s' ++ SEPARATOR :: y) ↔
  s = s' ∧ x `prefix_of` y.
Proof.
  intros Hs Hs'. split.
  - intros [r E]. rewrite <- app_assoc in E. simpl in E.
    apply seg_inj in E as [-> ->]; [|done..]. split; [done|]. by exists r.
  - intros [-> Hp]. by apply prefix_app, prefix_cons.
Qed.

(** ** Properties *)

(** A prefix scan visits exactly the keys that extend the prefix: unless
    the prefix consists of 0xFF bytes only, the half-open range
    [prefix .. prefix_end(prefix)) used by [KvStore::prefix_scan] is the set of
    byte strings starting with [prefix]; for a prefix of 0xFF bytes the bound
    is the empty string. *)
Theorem prefix_end_exact (p : bytes) :
  (prefix_end p = [] ↔ Forall (λ b, b = xff) p) ∧
  (prefix_end p ≠ [] →
   ∀ k, leb p k && ltb k (prefix_end p) = true ↔ p `prefix_of` k).
Proof.
  split; [|intros Hne k; by apply prefix_range].
  destruct (prefix_end_spec p) as [[-> H]|(q & b & n & -> & Hb & ->)]; [done|].
  split; [by destruct q|]. rewrite Forall_app, Forall_cons.
  intros (_ & -> & _). by change (b2z xff) with 255%Z in Hb.
Qed.

Lemma prefix_end_exact_witness :
  prefix_end [x61; xff] ≠ [] ∧
  (leb [x61; xff] [x61; xff; x00] && ltb [x61; xff; x00] (prefix_end [x61; xff]) = true
   ↔ [x61; xff] `prefix_of` [x61; xff; x00]).
Proof. split; [done|]. by apply (prefix_end_exact [x61; xff]). Defined.

(** The key parser is the exact inverse of the key layout: it succeeds
    with [p] precisely on the bytes [ns 00 db 00 table 00 tag remainder] of [p]
    with separator-free segments, and so rejects every shorter key. *)
Theorem parse_key_exact (k : bytes) (p : KeyParts) :
  parse_key k = Ok p ↔ k = unparse p ∧ parts_ok p.
Proof. split; [apply parse_key_inv | intros [-> ?]; by apply parse_unparse]. Qed.

(** A key lies in one tagged region only. *)
Lemma regions_disjoint ns db t b ns' db' t' b' k :
  seg_ok ns → seg_ok db → seg_ok t → seg_ok ns' → seg_ok db' → seg_ok t' →
  table_prefix ns db t b `prefix_of` k → table_prefix ns' db' t' b' `prefix_of` k →
  ns = ns' ∧ db = db' ∧ t = t' ∧ b = b'.
Proof.
  intros Hn Hd Ht Hn' Hd' Ht' [r ->] [r' E].
  autorewrite with dllb_shape in E. rewrite <- !app_assoc in E. simpl in E.
  apply key_head_inj in E; naive_solver.
Qed.

(** Isolation of regions: a key that belongs to the tagged region of two
    tables belongs to the same namespace, database, table and tag, so scans of
    one model or table never return entries of another. *)
Theorem table_regions_disjoint ns db t b ns' db' t' b' k :
  seg_ok ns → seg_ok db → seg_ok t → seg_ok ns' → seg_ok db' → seg_ok t' →
  table_prefix ns db t b `prefix_of` k → table_prefix ns' db' t' b' `prefix_of` k →
  ns = ns' ∧ db = db' ∧ t = t' ∧ b = b'.
Proof. apply regions_disjoint. Qed.

Lemma table_regions_disjoint_witness :
  table_prefix "n" "d" "t" tag.INDEX `prefix_of` index_prefix "n" "d" "t" "by_age" ∧
  ("n" = "n" ∧ "d" = "d" ∧ "t" = "t" ∧ tag.INDEX = tag.INDEX).
Proof.
  split; [by exists (as_bytes "by_age" ++ [SEPARATOR])|].
  apply (table_regions_disjoint "n" "d" "t" tag.INDEX "n" "d" "t" tag.INDEX
           (index_prefix "n" "d" "t" "by_age"));
    solve [compute_decide | by exists (as_bytes "by_age" ++ [SEPARATOR])].
Defined.

(** The scan prefix of a vertex and edge type, against a stored edge key. *)
Lemma outgoing_typed_under ns db t v et src et' dst :
  seg_ok v → seg_ok et → seg_ok src → seg_ok et' →
  vertex_outgoing_typed_prefix ns db t v et `prefix_of` graph_outgoing_key ns db t src et' dst
  ↔ v = src ∧ et = et'.
Proof.
  intros Hv He Hs He'. autorewrite with dllb_shape. rewrite prefix_head_iff.
  split.
  - intros Hp. apply prefix_cons_inv_2, prefix_seg_iff in Hp as [-> Hp]; [|done..].
    apply prefix_cons_inv_2 in Hp.
    by apply prefix_seg_iff in Hp as [-> _].
  - intros [-> ->]. apply prefix_cons, prefix_app, prefix_cons, prefix_cons, prefix_app.
    apply prefix_cons, prefix_nil.
Qed.

Lemma incoming_typed_under ns db t v et dst et' src :
  seg_ok v → seg_ok et → seg_ok dst → seg_ok et' →
  vertex_incoming_typed_prefix ns db t v et `prefix_of` graph_incoming_key ns db t dst et' src
  ↔ v = dst ∧ et = et'.
Proof.
  intros Hv He Hs He'. autorewrite with dllb_shape. rewrite prefix_head_iff.
  split.
  - intros Hp. apply prefix_cons_inv_2, prefix_seg_iff in Hp as [-> Hp]; [|done..].
    apply prefix_cons_inv_2 in Hp.
    by apply prefix_seg_iff in Hp as [-> _].
  - intros [-> ->]. apply prefix_cons, prefix_app, prefix_cons, prefix_cons, prefix_app.
    apply prefix_cons, prefix_nil.
Qed.
