(* ===== verification/Kv.v ===== *)
(** * Key-value storage (crates/storage: kv.rs, backend.rs, db.rs, actor.rs)

    The [KvStore] trait is a class with the trait's default methods as
    definitions.  The redb engine is a parameter: the class [Redb] lists the
    calls the backend makes, [RedbLaws] the documented behaviour it relies on.
    [RedbBackend] implements the trait over it, and the rest of the program is
    verified against the law class [KvLaws]. *)

From S2P Require Export Core Key.

Abbreviation kvs := (list (bytes * bytes)).

(** ** The [KvStore] trait (kv.rs) *)
Class KvRequired (S : Type) := {
  kv_get : bytes → M S (option bytes);
  kv_put : bytes → bytes → M S unit;
  kv_delete : bytes → M S unit;
  kv_scan : bytes → bytes → M S kvs;
  kv_put_batch : kvs → M S unit;
  kv_delete_batch : list bytes → M S unit
}.

Section defaults.
Context {S : Type} `{KvRequired S}.

Definition default_write_batch (puts : kvs) (deletes : list bytes) : M S unit :=
  _ ← (if bool_decide (deletes ≠ []) then kv_delete_batch deletes else mret tt);
  _ ← (if bool_decide (puts ≠ []) then kv_put_batch puts else mret tt);
  mret tt.

Definition default_contains (key : bytes) : M S bool :=
  v ← kv_get key; mret (match v with Some _ => true | None => false end).

Definition default_prefix_scan (prefix : bytes) : M S kvs :=
  kv_scan prefix (prefix_end prefix).

Definition default_count_prefix (prefix : bytes) : M S nat :=
  es ← default_prefix_scan prefix; mret (length es).

Definition default_scan_prefix_keys (prefix : bytes) : M S (list bytes) :=
  es ← default_prefix_scan prefix; mret (map fst es).

Definition default_multi_get (keys : list bytes) : M S (list (option bytes)) :=
  for_map kv_get keys.
End defaults.

Class KvStore (S : Type) := {
  kv_required :: KvRequired S;
  kv_write_batch : kvs → list bytes → M S unit;
  kv_contains : bytes → M S bool;
  kv_prefix_scan : bytes → M S kvs;
  kv_count_prefix : bytes → M S nat;
  kv_scan_prefix_keys : bytes → M S (list bytes);
  kv_multi_get : list bytes → M S (list (option bytes))
}.

(** ** The interface clients rely on

    [contents] is the abstract state of a store, a key-ordered map.  [KvLaws]
    describes every operation on it; [KvAtomic] says that an operation that
    fails has no effect and that reads never have one. *)
Class KvView (S : Type) := contents : S → OMap bytes bytes.

(** [m] run in [s] returns [a] and changes the contents to [c]. *)
Definition effect {S A} `{KvView S} (m : M S A) (s : S) (a : A) (c : OMap bytes bytes) : Prop :=
  ∃ s', m s = (Ok a, s') ∧ contents s' = c.

Class KvLaws (S : Type) `{KvStore S, KvView S} : Prop := {
  contents_sorted : ∀ s : S, osorted (contents s);
  get_law : ∀ k s, kv_get k s = (Ok (oget k (contents s)), s);
  scan_law : ∀ lo hi s, kv_scan lo hi s = (Ok (orange lo hi (contents s)), s);
  contains_law : ∀ k s, kv_contains k s = (Ok (ocontains k (contents s)), s);
  prefix_scan_law : ∀ p s,
    kv_prefix_scan p s = (Ok (orange p (prefix_end p) (contents s)), s);
  count_prefix_law : ∀ p s,
    kv_count_prefix p s = (Ok (length (orange p (prefix_end p) (contents s))), s);
  scan_prefix_keys_law : ∀ p s,
    kv_scan_prefix_keys p s = (Ok (map fst (orange p (prefix_end p) (contents s))), s);
  multi_get_law : ∀ ks s,
    kv_multi_get ks s = (Ok (map (λ k, oget k (contents s)) ks), s);
  put_law : ∀ k v s, effect (kv_put k v) s tt (oinsert k v (contents s));
  delete_law : ∀ k s, effect (kv_delete k) s tt (odelete k (contents s));
  put_batch_law : ∀ ops s, effect (kv_put_batch ops) s tt (oextend (contents s) ops);
  delete_batch_law : ∀ ks s,
    effect (kv_delete_batch ks) s tt (odelete_all (contents s) ks);
  write_batch_law : ∀ puts dels s,
    effect (kv_write_batch puts dels) s tt
      (oextend (odelete_all (contents s) dels) puts)
}.

(** Stores that agree on the keys with a prefix scan alike. *)
Lemma prefix_orange_ext {S} `{KvLaws S} (p : bytes) (s s' : S) : prefix_end p ≠ [] →
  (∀ k, p `prefix_of` k → oget k (contents s') = oget k (contents s)) →
  orange p (prefix_end p) (contents s') = orange p (prefix_end p) (contents s).
Proof.
  intros Hp Hs. assert (∀ m : OMap bytes bytes, osorted m → osorted (orange p (prefix_end p) m)) as Hso.
  { intros m Hm. unfold orange. by apply osorted_filter. }
  apply osorted_ext; [apply Hso, contents_sorted..|]. intros k. apply option_eq. intros v.
  rewrite !oget_iff by (apply Hso, contents_sorted). rewrite !orange_elem. simpl.
  rewrite <- !oget_iff by apply contents_sorted. split; intros (Hk & Hl & Hu); (split; [|done]).
  - rewrite <- Hs; [done|]. apply prefix_range; [done|]. by rewrite Hl, Hu.
  - rewrite Hs; [done|]. apply prefix_range; [done|]. by rewrite Hl, Hu.
Qed.

Definition error_keeps {S A} (m : M S A) : Prop := ∀ s e s', m s = (Err e, s') → s' = s.
Definition read_only {S A} (m : M S A) : Prop := ∀ s r s', m s = (r, s') → s' = s.

Class KvAtomic (S : Type) `{KvStore S} : Prop := {
  get_ro : ∀ k, read_only (kv_get k);
  scan_ro : ∀ lo hi, read_only (kv_scan lo hi);
  contains_ro : ∀ k, read_only (kv_contains k);
  prefix_scan_ro : ∀ p, read_only (kv_prefix_scan p);
  count_prefix_ro : ∀ p, read_only (kv_count_prefix p);
  scan_prefix_keys_ro : ∀ p, read_only (kv_scan_prefix_keys p);
  multi_get_ro : ∀ ks, read_only (kv_multi_get ks);
  put_atomic : ∀ k v, error_keeps (kv_put k v);
  delete_atomic : ∀ k, error_keeps (kv_delete k);
  put_batch_atomic : ∀ ops, error_keeps (kv_put_batch ops);
  delete_batch_atomic : ∀ ks, error_keeps (kv_delete_batch ks);
  write_batch_atomic : ∀ puts dels, error_keeps (kv_write_batch puts dels)
}.

(** A store that never fails is atomic. *)
Lemma laws_atomic {S} `{KL : KvLaws S} : KvAtomic S.
Proof.
  assert (∀ A (m : M S A) a, (∀ s, m s = (Ok (a s), s)) → read_only m) as Hro.
  { intros A m a Hm s r s' E. rewrite Hm in E. by injection E. }
  assert (∀ A (m : M S A) a c, (∀ s, effect m s (a s) (c s)) → error_keeps m) as Hek.
  { intros A m a c Hm s e s' E. destruct (Hm s) as (s1 & E1 & _). rewrite E in E1. by injection E1. }
  split; intros.
  - eapply Hro, get_law.
  - eapply Hro, scan_law.
  - eapply Hro, contains_law.
  - eapply Hro, prefix_scan_law.
  - eapply Hro, count_prefix_law.
  - eapply Hro, scan_prefix_keys_law.
  - eapply Hro, multi_get_law.
  - eapply (Hek _ _ (λ _, tt)), put_law.
  - eapply (Hek _ _ (λ _, tt)), delete_law.
  - eapply (Hek _ _ (λ _, tt)), put_batch_law.
  - eapply (Hek _ _ (λ _, tt)), delete_batch_law.
  - eapply (Hek _ _ (λ _, tt)), write_batch_law.
Qed.

(** ** The redb engine (a parameter)

    [DB] is a database handle, [RT] and [WT] read and write transactions,
    [TB] an open table.  A call may fail with an error that is displayed. *)
Class Redb (DB RT WT TB : Type) := {
  begin_read : DB → Result string RT;
  begin_write : DB → Result string WT;
  open_table : RT → Result string TB;
  open_table_mut : WT → Result string TB;
  table_get : TB → bytes → Result string (option bytes);
  table_insert : TB → bytes → bytes → Result string TB;
  table_remove : TB → bytes → Result string TB;
  (** The range cursor: each step yields an entry or an error. *)
  table_range : TB → bytes → bytes → Result string (list (Result string (bytes * bytes)));
  commit : WT → TB → Result string DB;
  (** [Database::create(path)] and [Database::compact]. *)
  db_create : string → Result string DB;
  db_compact : DB → Result string (bool * DB)
}.

(** redb's documented behaviour: transactions see the committed contents,
    tables are key-ordered maps, ranges are half-open, commit publishes. *)
Class RedbLaws DB RT WT TB `{Redb DB RT WT TB} := {
  db_view : DB → OMap bytes bytes;
  tb_view : TB → OMap bytes bytes;
  compact_view : ∀ d b d', db_compact d = Ok (b, d') → db_view d' = db_view d;
  db_view_sorted : ∀ d, osorted (db_view d);
  read_snapshot : ∀ d r t, begin_read d = Ok r → open_table r = Ok t → tb_view t = db_view d;
  write_snapshot : ∀ d w t, begin_write d = Ok w → open_table_mut w = Ok t → tb_view t = db_view d;
  table_get_spec : ∀ t k v, table_get t k = Ok v → v = oget k (tb_view t);
  table_insert_spec : ∀ t k v t', table_insert t k v = Ok t' → tb_view t' = oinsert k v (tb_view t);
  table_remove_spec : ∀ t k t', table_remove t k = Ok t' → tb_view t' = odelete k (tb_view t);
  table_range_spec : ∀ t lo hi its es,
    table_range t lo hi = Ok its → traverse (λ x, x) its = Ok es → es = orange lo hi (tb_view t);
  commit_spec : ∀ w t d, commit w t = Ok d → db_view d = tb_view t
}.

(** An engine that never reports an error. *)
Class RedbReliable DB RT WT TB `{Redb DB RT WT TB} : Prop := {
  begin_read_ok : ∀ d, is_ok (begin_read d) = true;
  begin_write_ok : ∀ d, is_ok (begin_write d) = true;
  open_table_ok : ∀ r, is_ok (open_table r) = true;
  open_table_mut_ok : ∀ w, is_ok (open_table_mut w) = true;
  table_get_ok : ∀ t k, is_ok (table_get t k) = true;
  table_insert_ok : ∀ t k v, is_ok (table_insert t k v) = true;
  table_remove_ok : ∀ t k, is_ok (table_remove t k) = true;
  table_range_ok : ∀ t lo hi, ∃ es, table_range t lo hi = Ok (map Ok es);
  commit_ok : ∀ w t, is_ok (commit w t) = true
}.

(** ** RedbBackend (backend.rs) *)
Module RedbBackend.
Section backend.
Context {DB RT WT TB : Type} `{Redb DB RT WT TB}.

  (** [map_err]. *)
Definition map_err {A} (r : Result string A) : result A :=
    match r with Ok a => Ok a | Err e => Err (Storage e) end.

  (** [begin_read] then [open_table(DATA)]. *)
Definition read_table (d : DB) : result TB :=
    r ← map_err (begin_read d); map_err (open_table r).

  (** A write transaction: open, run the body on the table, commit.  Any
      error drops the transaction, leaving the database as it was. *)
Definition write_txn (body : TB → result TB) : M DB unit := λ d,
    match
      w ← map_err (begin_write d);
      t ← map_err (open_table_mut w);
      t' ← body t;
      map_err (commit w t')
    with
    | Ok d' => (Ok tt, d')
    | Err e => (Err e, d)
    end.

Fixpoint insert_all (ops : kvs) (t : TB) : result TB :=
    match ops with
    | [] => Ok t
    | (k, v) :: ops' => t' ← map_err (table_insert t k v); insert_all ops' t'
    end.
Fixpoint remove_all (ks : list bytes) (t : TB) : result TB :=
    match ks with
    | [] => Ok t
    | k :: ks' => t' ← map_err (table_remove t k); remove_all ks' t'
    end.

Definition get (key : bytes) : M DB (option bytes) := λ d,
    (t ← read_table d; map_err (table_get t key), d).

Definition put (key value : bytes) : M DB unit :=
    write_txn (λ t, map_err (table_insert t key value)).

Definition delete (key : bytes) : M DB unit :=
    write_txn (λ t, map_err (table_remove t key)).

Definition scan (lo hi : bytes) : M DB kvs := λ d,
    (t ← read_table d;
     range ← map_err (table_range t lo hi);
     traverse map_err range, d).

Definition put_batch (ops : kvs) : M DB unit := write_txn (insert_all ops).

Definition delete_batch (keys : list bytes) : M DB unit := write_txn (remove_all keys).

Definition write_batch (puts : kvs) (deletes : list bytes) : M DB unit :=
    write_txn (λ t, t' ← remove_all deletes t; insert_all puts t').

Fixpoint count_entries (range : list (Result string (bytes * bytes))) (n : nat) : result nat :=
    match range with
    | [] => Ok n
    | entry :: range' => _ ← map_err entry; count_entries range' (n + 1)
    end.

Definition count_prefix (prefix : bytes) : M DB nat := λ d,
    let end_ := prefix_end prefix in
    (t ← read_table d;
     range ← map_err (table_range t prefix end_);
     count_entries range 0, d).

Definition scan_prefix_keys (prefix : bytes) : M DB (list bytes) := λ d,
    let end_ := prefix_end prefix in
    (t ← read_table d;
     range ← map_err (table_range t prefix end_);
     traverse (λ entry, kv ← map_err entry; Ok kv.1) range, d).

Definition multi_get (keys : list bytes) : M DB (list (option bytes)) := λ d,
    (t ← read_table d; traverse (λ key, map_err (table_get t key)) keys, d).

  (** [RedbBackend::open]: create the file, then make sure the data table
      exists by opening it in a committed write transaction. *)
Definition open (path : string) : result DB :=
    d ← map_err (db_create path);
    w ← map_err (begin_write d);
    t ← map_err (open_table_mut w);
    map_err (commit w t).

  (** The handle [Arc<Database>]: the database and its strong count. *)
Record Arc := MkArc { arc_db : DB; strong : nat }.
Definition arc_clone (a : Arc) : Arc := MkArc (arc_db a) (strong a + 1).
Definition arc_drop (a : Arc) : Arc := MkArc (arc_db a) (strong a - 1).

Definition db_handle (self : Arc) : Arc := arc_clone self.

  (** [compact]: [Arc::get_mut(&mut self.db.clone())] succeeds only when the
      clone is the single owner; the clone is dropped on return. *)
Definition compact : M Arc bool := λ self,
    let cl := arc_clone self in
    if (strong cl =? 1)%nat then
      match map_err (db_compact (arc_db cl)) with
      | Ok (b, d') => (Ok b, arc_drop (MkArc d' (strong cl)))
      | Err e => (Err e, arc_drop cl)
      end
    else (Ok false, arc_drop cl).

#[global] Instance required : KvRequired DB := {|
    kv_get := get; kv_put := put; kv_delete := delete; kv_scan := scan;
    kv_put_batch := put_batch; kv_delete_batch := delete_batch
  |}.

  (** [impl KvStore for RedbBackend]: [contains] and [prefix_scan] keep the
      trait's default, the others are overridden. *)
#[global] Instance store : KvStore DB := {|
    kv_write_batch := write_batch;
    kv_contains := default_contains;
    kv_prefix_scan := default_prefix_scan;
    kv_count_prefix := count_prefix;
    kv_scan_prefix_keys := scan_prefix_keys;
    kv_multi_get := multi_get
  |}.
End backend.
End RedbBackend.

(** ** DllbStorage (db.rs)

    The handle every model layer holds; each method forwards to the backend. *)
Module DllbStorage.
Section storage.
Context {S : Type} `{KvStore S}.
Definition put (key value : bytes) : M S unit := kv_put key value.
Definition delete (key : bytes) : M S unit := kv_delete key.
Definition put_batch (ops : kvs) : M S unit := kv_put_batch ops.
Definition delete_batch (keys : list bytes) : M S unit := kv_delete_batch keys.
Definition write_batch (puts : kvs) (deletes : list bytes) : M S unit :=
    kv_write_batch puts deletes.
Definition get (key : bytes) : M S (option bytes) := kv_get key.
Definition scan (lo hi : bytes) : M S kvs := kv_scan lo hi.
Definition prefix_scan (prefix : bytes) : M S kvs := kv_prefix_scan prefix.
Definition count_prefix (prefix : bytes) : M S nat := kv_count_prefix prefix.
Definition scan_prefix_keys (prefix : bytes) : M S (list bytes) := kv_scan_prefix_keys prefix.
Definition multi_get (keys : list bytes) : M S (list (option bytes)) := kv_multi_get keys.
Definition contains (key : bytes) : M S bool := kv_contains key.
End storage.
End DllbStorage.

(** ** StorageWriter (actor.rs)

    The GenServer that serializes access: each message is handled to
    completion before the next, on the state left by the previous one. *)
Module StorageWriter.
Inductive StorageCall :=
  | Get (key : bytes)
  | Scan (start end_ : bytes)
  | PrefixScan (prefix : bytes)
  | Contains (key : bytes).
Inductive StorageCast :=
  | Put (key value : bytes)
  | Delete (key : bytes)
  | PutBatch (ops : kvs)
  | DeleteBatch (keys : list bytes).
Inductive StorageReply :=
  | RValue (v : option bytes)
  | REntries (es : kvs)
  | RBool (b : bool).

Section server.
Context {S : Type} `{KvStore S}.

(** [result.unwrap_or(default)]. *)
Definition unwrap_or {A} (r : result A) (d : A) : A :=
  match r with Ok a => a | Err _ => d end.

Definition handle_call (call : StorageCall) (state : S) : StorageReply * S :=
  match call with
  | Get key => let '(r, s) := kv_get key state in (RValue (unwrap_or r None), s)
  | Scan lo hi => let '(r, s) := kv_scan lo hi state in (REntries (unwrap_or r []), s)
  | PrefixScan p => let '(r, s) := kv_prefix_scan p state in (REntries (unwrap_or r []), s)
  | Contains key => let '(r, s) := kv_contains key state in (RBool (unwrap_or r false), s)
  end.

(** A failed cast is logged and dropped. *)
Definition handle_cast (cast : StorageCast) (state : S) : S :=
  match cast with
  | Put key value => (kv_put key value state).2
  | Delete key => (kv_delete key state).2
  | PutBatch ops => (kv_put_batch ops state).2
  | DeleteBatch keys => (kv_delete_batch keys state).2
  end.

(** The mailbox: casts and calls in arrival order, replies in call order. *)
Fixpoint serve (msgs : list (StorageCast + StorageCall)) (state : S) : list StorageReply * S :=
  match msgs with
  | [] => ([], state)
  | inl c :: msgs' => serve msgs' (handle_cast c state)
  | inr c :: msgs' =>
      let '(r, s1) := handle_call c state in
      let '(rs, s2) := serve msgs' s1 in (r :: rs, s2)
  end.
End server.
End StorageWriter.

(** ** The engine's reliability gives the interface *)
Ltac ok_inv H :=
  let x := fresh "x" in let E := fresh "E" in
  match type of H with is_ok ?r = true => destruct r as [x|] eqn:E; [|done] end.

Section backend_laws.
Context {DB RT WT TB : Type} `{RL : RedbLaws DB RT WT TB}.
Import RedbBackend.

#[global] Instance db_KvView : KvView DB := db_view.

Lemma read_table_view d t : read_table d = Ok t → tb_view t = db_view d.
Proof.
  unfold read_table. intros (r & Hr & Ht)%bind_Ok_inv.
  destruct (begin_read d) eqn:E; simplify_eq/=.
  destruct (open_table r) eqn:E2; simplify_eq/=. eauto using read_snapshot.
Qed.

Lemma insert_all_view ops t t' :
  insert_all ops t = Ok t' → tb_view t' = oextend (tb_view t) ops.
Proof.
  revert t; induction ops as [|[k v] ops IH]; intros t; simpl; [by intros [= ->]|].
  intros (t1 & H1 & H2)%bind_Ok_inv. apply IH in H2 as ->.
  destruct (table_insert t k v) eqn:E; simplify_eq/=.
  by apply table_insert_spec in E as ->.
Qed.

Lemma remove_all_view ks t t' :
  remove_all ks t = Ok t' → tb_view t' = odelete_all (tb_view t) ks.
Proof.
  revert t; induction ks as [|k ks IH]; intros t; simpl; [by intros [= ->]|].
  intros (t1 & H1 & H2)%bind_Ok_inv. apply IH in H2 as ->.
  destruct (table_remove t k) eqn:E; simplify_eq/=.
  by apply table_remove_spec in E as ->.
Qed.

(** Engine errors surface as storage errors. *)
Definition only_storage {A} (r : result A) : Prop :=
  match r with Ok _ => True | Err e => ∃ msg, e = Storage msg end.

Lemma map_err_storage {A} (r : Result string A) : only_storage (map_err r).
Proof. destruct r; simpl; eauto. Qed.
Lemma bind_storage {A B} (r : result A) (f : A → result B) :
  only_storage r → (∀ a, only_storage (f a)) → only_storage (r ≫= f).
Proof. destruct r; simpl; auto. Qed.
Lemma insert_all_storage ops t : only_storage (insert_all ops t).
Proof.
  revert t; induction ops as [|[k v] ops IH]; intros t; simpl; [done|].
  apply bind_storage; auto using map_err_storage.
Qed.
Lemma remove_all_storage ks t : only_storage (remove_all ks t).
Proof.
  revert t; induction ks as [|k ks IH]; intros t; simpl; [done|].
  apply bind_storage; auto using map_err_storage.
Qed.

(** A write transaction either fails and changes nothing, or publishes the
    table computed by its body. *)
Lemma write_txn_cases body d :
  (∀ t, only_storage (body t)) →
  (∃ msg, write_txn body d = (Err (Storage msg), d)) ∨
  (∃ d' t t', write_txn body d = (Ok tt, d') ∧ tb_view t = db_view d ∧
              body t = Ok t' ∧ db_view d' = tb_view t').
Proof.
  intros Hbody. unfold write_txn.
  destruct (begin_write d) as [w|] eqn:E1; simpl; [|eauto].
  destruct (open_table_mut w) as [t|] eqn:E2; simpl; [|eauto].
  specialize (Hbody t). destruct (body t) as [t'|] eqn:E3; simpl;
    [|destruct Hbody as [msg ->]; eauto].
  destruct (commit w t') as [d'|] eqn:E4; simpl; [|eauto].
  right. exists d', t, t'. split; [done|].
  split; [by apply (write_snapshot d w)|]. split; [done|].
  by apply (commit_spec w).
Qed.
End backend_laws.

(** Failing operations have no effect, whatever the engine does. *)
Section backend_atomic.
Context {DB RT WT TB : Type} `{Redb DB RT WT TB}.
Import RedbBackend.

Lemma write_txn_atomic body : error_keeps (write_txn body).
Proof.
  intros d e d'. unfold write_txn. intros H'. case_match; by simplify_eq.
Qed.

Lemma pure_read_only {A} (f : DB → result A) : read_only (λ d, (f d, d)).
Proof. by intros d r d' [= _ <-]. Qed.

Lemma bind_read_only {A B} (m : M DB A) (f : A → M DB B) :
  read_only m → (∀ a, read_only (f a)) → read_only (m ≫= f).
Proof.
  intros Hm Hf d r d'. unfold mbind, SE_bind.
  destruct (m d) as [[a|e] d1] eqn:E; apply Hm in E as ->; [apply Hf | by intros [= _ <-]].
Qed.

#[global] Instance backend_KvAtomic : KvAtomic DB.
Proof.
  split; intros; try apply write_txn_atomic; try apply pure_read_only.
  apply bind_read_only; [apply pure_read_only|].
  intros a d r d' [= _ <-]. done.
Qed.
End backend_atomic.

Section backend_refinement.
Context {DB RT WT TB : Type} `{RL : RedbLaws DB RT WT TB} `{!RedbReliable DB RT WT TB}.
Import RedbBackend.

Lemma read_table_ok d : ∃ t, read_table d = Ok t ∧ tb_view t = db_view d.
Proof.
  pose proof (begin_read_ok d) as Hr. ok_inv Hr.
  pose proof (open_table_ok x) as Ht. ok_inv Ht.
  assert (read_table d = Ok x0) as Hx by (unfold read_table; by rewrite E; simpl; rewrite E0).
  eauto using read_table_view.
Qed.

Lemma range_ok t lo hi :
  ∃ its, table_range t lo hi = Ok (map Ok (orange lo hi (tb_view t))) ∧
         its = map (Ok (E := string)) (orange lo hi (tb_view t)).
Proof.
  destruct (table_range_ok t lo hi) as [es He]. eexists; split; [|done].
  rewrite He. repeat f_equal. apply (table_range_spec t lo hi _ es He).
  clear He. induction es as [|kv es IH]; simpl; [done|]. by rewrite IH.
Qed.

Lemma txn_effect body d t' :
  (∀ t, tb_view t = db_view d → ∃ t1, body t = Ok t1 ∧ tb_view t1 = t') →
  effect (write_txn body) d tt t'.
Proof.
  intros Hb. unfold effect, write_txn.
  pose proof (begin_write_ok d) as Hw. ok_inv Hw.
  pose proof (open_table_mut_ok x) as Ht. ok_inv Ht.
  destruct (Hb x0) as (t1 & Hb1 & <-); [by eapply write_snapshot|].
  pose proof (commit_ok x t1) as Hc. ok_inv Hc.
  simpl. rewrite E0. simpl. rewrite Hb1. simpl. rewrite E1. simpl.
  eexists; split; [done|]. by apply (commit_spec x).
Qed.

Lemma insert_all_ok ops t : ∃ t', insert_all ops t = Ok t'.
Proof.
  revert t; induction ops as [|[k v] ops IH]; intros t; simpl; [eauto|].
  pose proof (table_insert_ok t k v) as Hi. ok_inv Hi. simpl. apply IH.
Qed.
Lemma remove_all_ok ks t : ∃ t', remove_all ks t = Ok t'.
Proof.
  revert t; induction ks as [|k ks IH]; intros t; simpl; [eauto|].
  pose proof (table_remove_ok t k) as Hi. ok_inv Hi. simpl. apply IH.
Qed.

Lemma traverse_map_err (es : kvs) {B} (f : bytes * bytes → B) :
  traverse (λ x : Result string (bytes * bytes), kv ← map_err x; Ok (f kv)) (map Ok es) =
  Ok (E := Error) (map f es).
Proof. induction es as [|kv es IH]; simpl; [done|]. by rewrite IH. Qed.

Lemma count_entries_map (es : kvs) n :
  count_entries (map Ok es) n = Ok (n + length es).
Proof.
  revert n; induction es as [|kv es IH]; intros n; simpl; [f_equal; lia|].
  rewrite IH. f_equal. lia.
Qed.

Lemma scan_eq lo hi d : scan lo hi d = (Ok (orange lo hi (db_view d)), d).
Proof.
  unfold scan. destruct (read_table_ok d) as (t & -> & Hv). simpl.
  destruct (range_ok t lo hi) as (its & -> & _). simpl.
  rewrite Hv. f_equal. generalize (orange lo hi (db_view d)).
  intros es. induction es as [|kv es IH]; simpl; [done|]. by rewrite IH.
Qed.

Lemma get_eq k d : get k d = (Ok (oget k (db_view d)), d).
Proof.
  unfold get. destruct (read_table_ok d) as (t & -> & Hv). simpl.
  pose proof (table_get_ok t k) as Hg. ok_inv Hg. simpl.
  apply table_get_spec in E. by rewrite E, Hv.
Qed.

Lemma multi_get_eq ks d : multi_get ks d = (Ok (map (λ k, oget k (db_view d)) ks), d).
Proof.
  unfold multi_get. destruct (read_table_ok d) as (t & -> & Hv). simpl. f_equal.
  apply traverse_Ok. intros k _. pose proof (table_get_ok t k) as Hg. ok_inv Hg. simpl.
  apply table_get_spec in E. by rewrite E, Hv.
Qed.

Lemma scan_prefix_keys_eq p d :
  scan_prefix_keys p d = (Ok (map fst (orange p (prefix_end p) (db_view d))), d).
Proof.
  unfold scan_prefix_keys. destruct (read_table_ok d) as (t & -> & Hv). simpl.
  destruct (range_ok t p (prefix_end p)) as (its & -> & _). simpl.
  by rewrite traverse_map_err, Hv.
Qed.

Lemma count_prefix_eq p d :
  count_prefix p d = (Ok (length (orange p (prefix_end p) (db_view d))), d).
Proof.
  unfold count_prefix. destruct (read_table_ok d) as (t & -> & Hv). simpl.
  destruct (range_ok t p (prefix_end p)) as (its & -> & _). simpl.
  by rewrite count_entries_map, Hv.
Qed.

(** [RedbBackend] over a conforming engine refines the map interface. *)
#[global] Instance backend_KvLaws : KvLaws DB.
Proof.
  split.
  - apply db_view_sorted.
  - apply get_eq.
  - apply scan_eq.
  - intros k d. simpl. unfold default_contains.
    rewrite (SE_bind_ok _ _ d _ d (get_eq k d)). done.
  - intros p d. apply scan_eq.
  - apply count_prefix_eq.
  - apply scan_prefix_keys_eq.
  - apply multi_get_eq.
  - intros k v d. apply txn_effect. intros t Hv.
    pose proof (table_insert_ok t k v) as Hi. ok_inv Hi. eexists; split; [done|].
    apply table_insert_spec in E as ->. by rewrite Hv.
  - intros k d. apply txn_effect. intros t Hv.
    pose proof (table_remove_ok t k) as Hi. ok_inv Hi. eexists; split; [done|].
    apply table_remove_spec in E as ->. by rewrite Hv.
  - intros ops d. apply txn_effect. intros t Hv.
    destruct (insert_all_ok ops t) as [t' Ht]. exists t'; split; [done|].
    apply insert_all_view in Ht as ->. by rewrite Hv.
  - intros ks d. apply txn_effect. intros t Hv.
    destruct (remove_all_ok ks t) as [t' Ht]. exists t'; split; [done|].
    apply remove_all_view in Ht as ->. by rewrite Hv.
  - intros puts dels d. apply txn_effect. intros t Hv.
    destruct (remove_all_ok dels t) as [t1 H1].
    destruct (insert_all_ok puts t1) as [t2 H2]. exists t2.
    split; [by rewrite H1|].
    apply insert_all_view in H2 as ->. apply remove_all_view in H1 as ->. by rewrite Hv.
Qed.
End backend_refinement.

(** ** A concrete engine

    An in-memory engine that satisfies the assumed behaviour, for the
    witnesses. *)
Module MemRedb.
Record db := Mk { mem : kvs }.
Definition view (d : db) : OMap bytes bytes := oextend [] (mem d).

Lemma view_sorted d : osorted (view d).
Proof. by apply osorted_extend. Qed.

Lemma oextend_id (m : OMap bytes bytes) : osorted m → oextend [] m = m.
Proof.
  intros Hs. apply osorted_ext; [by apply osorted_extend|done|]. intros k.
  destruct (oget k m) as [v|] eqn:E.
  - apply oget_extend_same; [by apply oget_elem|].
    intros v' Hin. apply osorted_elem in Hin; [|done]. congruence.
  - rewrite oget_extend_notin; [done|]. by apply oget_None.
Qed.

#[global] Instance redb : Redb db db db db := {|
  begin_read d := Ok d;
  begin_write d := Ok d;
  open_table d := Ok d;
  open_table_mut d := Ok d;
  table_get d k := Ok (oget k (view d));
  table_insert d k v := Ok (Mk (oinsert k v (view d)));
  table_remove d k := Ok (Mk (odelete k (view d)));
  table_range d lo hi := Ok (map Ok (orange lo hi (view d)));
  commit _ t := Ok t;
  db_create _ := Ok (Mk []);
  db_compact d := Ok (true, d)
|}.

#[global] Instance laws : RedbLaws db db db db.
Proof.
  refine {| db_view := view; tb_view := view |}; try (intros; simpl in *; by simplify_eq).
  - apply view_sorted.
  - intros t k v t' [= <-]. apply oextend_id, osorted_insert, view_sorted.
  - intros t k t' [= <-]. apply oextend_id, osorted_delete, view_sorted.
  - intros t lo hi its es [= <-]. generalize (orange lo hi (view t)).
    intros l; revert es; induction l as [|kv l IH]; intros es; simpl; [by intros [= <-]|].
    intros (ys & Hys & [= <-])%bind_Ok_inv. by rewrite (IH _ Hys).
Defined.

#[global] Instance reliable : RedbReliable db db db db.
Proof. split; intros; simpl; eauto. Qed.

Definition empty : db := Mk [].
End MemRedb.

(** ** Properties of the storage layer *)
Section storage_properties.
Context {DB RT WT TB : Type} `{RL : RedbLaws DB RT WT TB}.

(** The abstract machine the writer implements. *)
Definition abs_call (c : StorageWriter.StorageCall) (m : OMap bytes bytes) :
    StorageWriter.StorageReply :=
  match c with
  | StorageWriter.Get k => StorageWriter.RValue (oget k m)
  | StorageWriter.Scan lo hi => StorageWriter.REntries (orange lo hi m)
  | StorageWriter.PrefixScan p => StorageWriter.REntries (orange p (prefix_end p) m)
  | StorageWriter.Contains k => StorageWriter.RBool (ocontains k m)
  end.
Definition abs_cast (c : StorageWriter.StorageCast) (m : OMap bytes bytes) : OMap bytes bytes :=
  match c with
  | StorageWriter.Put k v => oinsert k v m
  | StorageWriter.Delete k => odelete k m
  | StorageWriter.PutBatch ops => oextend m ops
  | StorageWriter.DeleteBatch ks => odelete_all m ks
  end.
Fixpoint abs_serve (msgs : list (StorageWriter.StorageCast + StorageWriter.StorageCall))
    (m : OMap bytes bytes) : list StorageWriter.StorageReply * OMap bytes bytes :=
  match msgs with
  | [] => ([], m)
  | inl c :: msgs' => abs_serve msgs' (abs_cast c m)
  | inr c :: msgs' => let '(rs, m') := abs_serve msgs' m in (abs_call c m :: rs, m')
  end.

Lemma handle_call_abs `{!RedbReliable DB RT WT TB} c (d : DB) :
  StorageWriter.handle_call c d = (abs_call c (contents d), d).
Proof.
  unfold StorageWriter.handle_call.
  destruct c; by rewrite ?get_law, ?scan_law, ?contains_law, ?prefix_scan_law.
Qed.

Lemma handle_cast_abs `{!RedbReliable DB RT WT TB} c (d : DB) :
  contents (StorageWriter.handle_cast c d) = abs_cast c (contents d).
Proof.
  unfold StorageWriter.handle_cast. destruct c as [k v|k|ops|ks].
  - destruct (put_law k v d) as (d' & -> & Hc). exact Hc.
  - destruct (delete_law k d) as (d' & -> & Hc). exact Hc.
  - destruct (put_batch_law ops d) as (d' & -> & Hc). exact Hc.
  - destruct (delete_batch_law ks d) as (d' & -> & Hc). exact Hc.
Qed.
End storage_properties.

(** Each override against the default it replaces. *)
Section overrides.
Context {DB RT WT TB : Type} `{Redb DB RT WT TB}.
Import RedbBackend.

Lemma count_entries_traverse its n :
  count_entries its n =
  match traverse (map_err (A := bytes * bytes)) its with
  | Ok es => Ok (n + length es)
  | Err e => Err e
  end.
Proof.
  revert n; induction its as [|[kv|e] its IH]; intros n; simpl; [f_equal; lia| |done].
  rewrite IH. destruct (traverse map_err its); simpl; [f_equal; lia|done].
Qed.

Lemma keys_traverse its :
  traverse (λ entry, kv ← map_err entry; Ok kv.1) its =
  match traverse (map_err (A := bytes * bytes)) its with
  | Ok es => Ok (map fst es)
  | Err e => Err e
  end.
Proof.
  induction its as [|[kv|e] its IH]; simpl; [done| |done].
  rewrite IH. by destruct (traverse map_err its).
Qed.

Lemma count_prefix_default p (d : DB) : count_prefix p d = default_count_prefix p d.
Proof.
  unfold count_prefix, default_count_prefix, default_prefix_scan, mbind at 3, SE_bind. simpl.
  unfold scan. destruct (read_table d) as [t|]; simpl; [|done].
  destruct (table_range t p (prefix_end p)) as [its|]; simpl; [|done].
  rewrite count_entries_traverse. by destruct (traverse map_err its).
Qed.

Lemma scan_prefix_keys_default p (d : DB) :
  scan_prefix_keys p d = default_scan_prefix_keys p d.
Proof.
  unfold scan_prefix_keys, default_scan_prefix_keys, default_prefix_scan, mbind at 4, SE_bind.
  simpl. unfold scan. destruct (read_table d) as [t|]; simpl; [|done].
  destruct (table_range t p (prefix_end p)) as [its|]; simpl; [|done].
  rewrite keys_traverse. by destruct (traverse map_err its).
Qed.

Lemma multi_get_default_ok t ks (d : DB) :
  read_table d = Ok t →
  for_map get ks d = (traverse (λ key, map_err (table_get t key)) ks, d).
Proof.
  intros Ht. induction ks as [|k ks IH]; simpl; [done|].
  unfold mbind, SE_bind at 1. unfold get at 1. rewrite Ht. simpl.
  destruct (map_err (table_get t k)) as [v|e]; simpl; [|done].
  unfold SE_bind. rewrite IH. by destruct (traverse _ ks).
Qed.

Lemma multi_get_default k ks (d : DB) :
  multi_get (k :: ks) d = default_multi_get (k :: ks) d.
Proof.
  unfold default_multi_get. simpl kv_get. unfold multi_get.
  destruct (read_table d) as [t|e] eqn:E.
  - symmetry. by apply multi_get_default_ok.
  - simpl. unfold mbind, SE_bind at 1, get. by rewrite E.
Qed.
End overrides.

(** [write_batch] is atomic and applies deletes before puts: it either
    fails with a storage error and leaves the database as it was, or leaves a
    database in which every key put holds its last put value, every other
    deleted key is gone and all other keys are unchanged. *)
Theorem write_batch_atomic_ordered {DB RT WT TB} `{RL : RedbLaws DB RT WT TB}
    (puts : kvs) (dels : list bytes) (d : DB) :
  (∃ msg, RedbBackend.write_batch puts dels d = (Err (Storage msg), d)) ∨
  (∃ d', RedbBackend.write_batch puts dels d = (Ok tt, d') ∧
     (∀ k v, (k, v) ∈ puts → (∀ v', (k, v') ∈ puts → v' = v) → oget k (db_view d') = Some v) ∧
     (∀ k, k ∉ map fst puts → k ∈ dels → oget k (db_view d') = None) ∧
     (∀ k, k ∉ map fst puts → k ∉ dels → oget k (db_view d') = oget k (db_view d))).
Proof.
  destruct (write_txn_cases
    (λ t, t' ← RedbBackend.remove_all dels t; RedbBackend.insert_all puts t') d)
    as [[msg He]|(d' & t & t' & Hw & Hv & (t1 & H1 & H2)%bind_Ok_inv & Hd)].
  - intros t. apply bind_storage; auto using remove_all_storage, insert_all_storage.
  - left. by exists msg.
  - right. exists d'. split; [exact Hw|].
    apply remove_all_view in H1. apply insert_all_view in H2.
    rewrite Hd, H2, H1, Hv. split_and!.
    + intros k v. apply oget_extend_same.
    + intros k Hk Hin. rewrite oget_extend_notin by done. by apply oget_delete_all_in.
    + intros k Hk Hn. rewrite oget_extend_notin by done. by apply oget_delete_all_notin.
Qed.

Lemma write_batch_atomic_ordered_witness :
  ∃ d', RedbBackend.write_batch [([x02], [x0a])] [[x01]; [x02]] (MemRedb.Mk [([x01], [x09])])
        = (Ok tt, d') ∧ oget [x02] (db_view d') = Some [x0a] ∧ oget [x01] (db_view d') = None.
Proof.
  destruct (write_batch_atomic_ordered [([x02], [x0a])] [[x01]; [x02]]
              (MemRedb.Mk [([x01], [x09])])) as [[msg H]|(d' & H1 & H2 & H3 & H4)].
  - discriminate H.
  - exists d'. split; [exact H1|]. split.
    + apply H2; [set_solver|]. intros v' Hin. set_solver.
    + apply H3; [compute_decide|compute_decide].
Defined.

(** [prefix_scan] of the backend returns exactly the committed entries
    whose key starts with the prefix, each once and in increasing key order,
    and changes nothing. *)
Theorem prefix_scan_entries {DB RT WT TB} `{RL : RedbLaws DB RT WT TB}
    `{!RedbReliable DB RT WT TB} (p : bytes) (d : DB) :
  prefix_end p ≠ [] →
  ∃ es, kv_prefix_scan p d = (Ok es, d) ∧ osorted es ∧
    ∀ k v, (k, v) ∈ es ↔ oget k (db_view d) = Some v ∧ p `prefix_of` k.
Proof.
  intros Hne. exists (orange p (prefix_end p) (db_view d)).
  split; [apply prefix_scan_law|]. split; [apply osorted_filter, db_view_sorted|].
  intros k v. rewrite orange_elem, <- oget_iff by apply db_view_sorted.
  rewrite <- (prefix_range p k Hne), andb_true_iff. done.
Qed.

Lemma prefix_scan_entries_witness :
  ∃ es, kv_prefix_scan [x61] (MemRedb.Mk [([x61; x02], [x01]); ([x62], [x02]); ([x61], [])])
    = (Ok es, MemRedb.Mk [([x61; x02], [x01]); ([x62], [x02]); ([x61], [])]) ∧
    ([x61; x02], [x01]) ∈ es.
Proof.
  destruct (prefix_scan_entries [x61]
    (MemRedb.Mk [([x61; x02], [x01]); ([x62], [x02]); ([x61], [])]))
    as (es & H1 & _ & H2); [done|].
  exists es. split; [exact H1|]. apply H2. split; [reflexivity|]. by exists [x02].
Defined.

(** The overridden backend methods agree with the trait's defaults they
    replace, on results and on errors, for every engine: counting, key-only
    scans, and batched point reads of a non-empty key list. *)
Theorem overrides_agree {DB RT WT TB} `{Redb DB RT WT TB} (p : bytes) (k : bytes)
    (ks : list bytes) (d : DB) :
  RedbBackend.count_prefix p d = default_count_prefix p d ∧
  RedbBackend.scan_prefix_keys p d = default_scan_prefix_keys p d ∧
  RedbBackend.multi_get (k :: ks) d = default_multi_get (k :: ks) d.
Proof.
  split_and!.
  - apply count_prefix_default.
  - apply scan_prefix_keys_default.
  - apply multi_get_default.
Qed.

(** The writer process refines the abstract key-ordered map: any mailbox
    of reads and writes is answered as the abstract machine answers it and
    leaves the abstract machine's contents. *)
Theorem storage_writer_refines {DB RT WT TB} `{RL : RedbLaws DB RT WT TB}
    `{!RedbReliable DB RT WT TB}
    (msgs : list (StorageWriter.StorageCast + StorageWriter.StorageCall)) (d : DB) :
  (StorageWriter.serve msgs d).1 = (abs_serve msgs (db_view d)).1 ∧
  db_view (StorageWriter.serve msgs d).2 = (abs_serve msgs (db_view d)).2.
Proof.
  revert d; induction msgs as [|[c|c] msgs IH]; intros d; simpl; [done| |].
  - pose proof (handle_cast_abs c d) as Hc. unfold contents, db_KvView in Hc.
    rewrite <- Hc. apply IH.
  - rewrite handle_call_abs. specialize (IH d). unfold contents, db_KvView.
    destruct (StorageWriter.serve msgs d), (abs_serve msgs (db_view d)).
    simpl in *. naive_solver.
Qed.

Lemma storage_writer_refines_witness :
  (StorageWriter.serve [inl (StorageWriter.Put [x01] [x05]); inr (StorageWriter.Get [x01])]
     MemRedb.empty).1 = [StorageWriter.RValue (Some [x05])].
Proof.
  destruct (storage_writer_refines
    [inl (StorageWriter.Put [x01] [x05]); inr (StorageWriter.Get [x01])] MemRedb.empty) as [-> _].
  reflexivity.
Defined.

(** [compact] never compacts: the handle it inspects is a clone of a live
    handle, so it is never the unique owner and the call reports [false]
    without touching the database. *)
Theorem compact_never_compacts {DB RT WT TB} `{Redb DB RT WT TB} (a : RedbBackend.Arc) :
  (1 ≤ RedbBackend.strong a)%nat → RedbBackend.compact a = (Ok false, a).
Proof.
  intros Ha. unfold RedbBackend.compact, RedbBackend.arc_drop, RedbBackend.arc_clone. simpl.
  rewrite (proj2 (Nat.eqb_neq _ _)) by lia. destruct a as [d n]; simpl. do 2 f_equal. lia.
Qed.

Lemma compact_never_compacts_witness :
  RedbBackend.compact (RedbBackend.MkArc MemRedb.empty 1) =
  (Ok false, RedbBackend.MkArc MemRedb.empty 1).
Proof. apply (compact_never_compacts (RedbBackend.MkArc MemRedb.empty 1)). simpl. lia. Defined.
