(* ===== verification/Document.v ===== *)
(** * Documents (crates/document: document.rs, serde.rs, validate.rs)

    Documents, their serialization and schema validation.  MessagePack and
    JSON are parameters with a round-trip law. *)

From S2P Require Export Core.

(** ** Document (document.rs) *)
Record Document := MkDocument { doc_id : RecordId; doc_fields : Fields }.

Module Documents.
Definition new (id : RecordId) : Document := MkDocument id [].
Definition with_field (self : Document) (name : string) (value : Value) : Document :=
  MkDocument (doc_id self) (oinsert name value (doc_fields self)).
Definition get (self : Document) (field : string) : option Value := oget field (doc_fields self).
Definition set (self : Document) (field : string) (value : Value) : Document :=
  MkDocument (doc_id self) (oinsert field value (doc_fields self)).
Definition remove (self : Document) (field : string) : option Value * Document :=
  (oget field (doc_fields self), MkDocument (doc_id self) (odelete field (doc_fields self))).
Definition fields (self : Document) : Fields := doc_fields self.
Definition into_fields (self : Document) : Fields := doc_fields self.
End Documents.

(** ** Serialization (serde.rs)

    [rmp_serde] and [serde_json] on a field map. *)
Class FieldsCodec := {
  rmp_to_vec : Fields → Result string bytes;
  rmp_from_slice : bytes → Result string Fields;
  json_to_string_pretty : Fields → Result string string;
  json_from_str : string → Result string Fields
}.

(** Decoding what was encoded gives the value back. *)
Class FieldsCodecLaws `{FieldsCodec} : Prop := {
  rmp_roundtrip : ∀ m b, rmp_to_vec m = Ok b → rmp_from_slice b = Ok m;
  (** The encoding of a map starts with its header. *)
  rmp_nonempty : ∀ m b, rmp_to_vec m = Ok b → b ≠ [];
  json_roundtrip : ∀ m s, json_to_string_pretty m = Ok s → json_from_str s = Ok m
}.

(** [.map_err(|e| Error::Serialization(e.to_string()))]. *)
Definition ser_err {A} (r : Result string A) : result A :=
  match r with Ok a => Ok a | Err e => Err (Serialization e) end.

Section serde.
Context `{FieldsCodec}.

Definition serialize (doc : Document) : result bytes := ser_err (rmp_to_vec (doc_fields doc)).

Definition deserialize (id : RecordId) (b : bytes) : result Document :=
  fields ← ser_err (rmp_from_slice b); Ok (MkDocument id fields).

Definition to_json (doc : Document) : result string :=
  ser_err (json_to_string_pretty (doc_fields doc)).

Definition from_json (id : RecordId) (json : string) : result Document :=
  fields ← ser_err (json_from_str json); Ok (MkDocument id fields).
End serde.

(** ** Validation (validate.rs) *)
Definition validate_field (value : Value) (expected : FieldType) (field_name : string) :
    result unit :=
  match value, expected with
  | VNone, _ => Ok tt
  | VString _, TString => Ok tt
  | VInt _, TInt => Ok tt
  | VFloat _, TFloat => Ok tt
  | VBool _, TBool => Ok tt
  | VBytes _, TBytes => Ok tt
  | VArray _, TArray => Ok tt
  | VObject _, TObject => Ok tt
  | VRecordId _, TRecordId => Ok tt
  | VVector v, TVector dim =>
      if (length v =? dim)%nat then Ok tt else Err (DimensionMismatch dim (length v))
  | _, _ => Err (Schema ("field '" ++ field_name ++ "': expected {:?}, got {:?}"))
  end.

(** The three loops of [validate_document]. *)
Fixpoint check_required (doc : Document) (fs : list FieldDefinition) : result unit :=
  match fs with
  | [] => Ok tt
  | fd :: fs' =>
      if fd_required fd && negb (ocontains (fd_name fd) (doc_fields doc))
      then Err (Schema ("missing required field: '" ++ fd_name fd ++ "'"))
      else check_required doc fs'
  end.

Fixpoint check_unknown (fs : list FieldDefinition) (names : list string) : result unit :=
  match names with
  | [] => Ok tt
  | n :: names' =>
      if existsb (λ f, String.eqb (fd_name f) n) fs then check_unknown fs names'
      else Err (Schema ("unknown field: '" ++ n ++ "'"))
  end.

Fixpoint check_types (doc : Document) (fs : list FieldDefinition) : result unit :=
  match fs with
  | [] => Ok tt
  | fd :: fs' =>
      _ ← match oget (fd_name fd) (doc_fields doc) with
          | Some value => validate_field value (fd_field_type fd) (fd_name fd)
          | None => Ok tt
          end;
      check_types doc fs'
  end.

Definition validate_document (doc : Document) (schema : TableDefinition) : result unit :=
  match td_schema_mode schema with
  | Schemaless => Ok tt
  | Schemafull =>
      _ ← check_required doc (td_fields schema);
      _ ← check_unknown (td_fields schema) (okeys (doc_fields doc));
      check_types doc (td_fields schema)
  end.

(** ** Specification of validation *)

(** The value conforms to the declared type. *)
Definition value_has_type (v : Value) (t : FieldType) : Prop :=
  match v, t with
  | VNone, _ => True
  | VString _, TString | VInt _, TInt | VFloat _, TFloat | VBool _, TBool
  | VBytes _, TBytes | VArray _, TArray | VObject _, TObject
  | VRecordId _, TRecordId => True
  | VVector v, TVector dim => length v = dim
  | _, _ => False
  end.

(** What a schemafull table promises about a stored document. *)
Record conforms (doc : Document) (fs : list FieldDefinition) : Prop := {
  conf_required : ∀ fd, fd ∈ fs → fd_required fd = true →
    is_Some (oget (fd_name fd) (doc_fields doc));
  conf_known : ∀ n, n ∈ okeys (doc_fields doc) → ∃ fd, fd ∈ fs ∧ fd_name fd = n;
  conf_types : ∀ fd v, fd ∈ fs → oget (fd_name fd) (doc_fields doc) = Some v →
    value_has_type v (fd_field_type fd)
}.

Lemma validate_field_ok v t n : validate_field v t n = Ok tt ↔ value_has_type v t.
Proof.
  destruct v, t; simpl; try done.
  destruct (Nat.eqb_spec (length v) dim); split; done.
Qed.

Lemma check_required_ok doc fs :
  check_required doc fs = Ok tt ↔
  ∀ fd, fd ∈ fs → fd_required fd = true → is_Some (oget (fd_name fd) (doc_fields doc)).
Proof.
  induction fs as [|fd fs IH]; simpl; [set_solver|].
  destruct (fd_required fd) eqn:Er, (ocontains (fd_name fd) (doc_fields doc)) eqn:Ec; simpl.
  - rewrite IH. apply ocontains_true in Ec. set_solver.
  - apply ocontains_false in Ec. split; [done|]. intros Hall.
    destruct (Hall fd) as [v Hv]; [set_solver|done|congruence].
  - rewrite IH. split; [|set_solver]. intros Hall fd' [->|]%elem_of_cons; [congruence|auto].
  - rewrite IH. split; [|set_solver]. intros Hall fd' [->|]%elem_of_cons; [congruence|auto].
Qed.

Lemma check_unknown_ok fs names :
  check_unknown fs names = Ok tt ↔ ∀ n, n ∈ names → ∃ fd, fd ∈ fs ∧ fd_name fd = n.
Proof.
  induction names as [|n names IH]; simpl; [set_solver|].
  destruct (existsb _ fs) eqn:E.
  - apply existsb_exists in E as (fd & Hin & He). apply String.eqb_eq in He.
    apply list_elem_of_In in Hin. rewrite IH. set_solver.
  - split; [done|]. intros Hall. destruct (Hall n) as (fd & Hin & He); [set_solver|].
    assert (existsb (λ f, String.eqb (fd_name f) n) fs = true); [|congruence].
    apply existsb_exists. exists fd. by rewrite <- list_elem_of_In, String.eqb_eq.
Qed.

Lemma check_types_ok doc fs :
  check_types doc fs = Ok tt ↔
  ∀ fd v, fd ∈ fs → oget (fd_name fd) (doc_fields doc) = Some v →
          value_has_type v (fd_field_type fd).
Proof.
  induction fs as [|fd fs IH]; simpl; [set_solver|].
  destruct (oget (fd_name fd) (doc_fields doc)) as [v|] eqn:E; simpl.
  - destruct (validate_field v (fd_field_type fd) (fd_name fd)) as [[]|e] eqn:Ev; simpl.
    + apply validate_field_ok in Ev. rewrite IH. split; [|set_solver].
      intros Hall fd' v' [->|]%elem_of_cons Hg; [|eauto]. congruence.
    + split; [done|]. intros Hall. specialize (Hall fd v).
      rewrite <- (validate_field_ok _ _ (fd_name fd)) in Hall.
      rewrite Ev in Hall. destruct Hall; [set_solver|done|done].
  - rewrite IH. split; [|set_solver]. intros Hall fd' v' [->|]%elem_of_cons Hg; [|eauto]. congruence.
Qed.

(** Validation decides conformance: a document is accepted exactly when
    the table is schemaless, or every required field is present, every present
    field is declared, and every declared field present has its declared type
    (with the declared dimension, for vectors). *)
Lemma validate_document_exact (doc : Document) (schema : TableDefinition) :
  validate_document doc schema = Ok tt ↔
  td_schema_mode schema = Schemaless ∨ conforms doc (td_fields schema).
Proof.
  unfold validate_document. destruct (td_schema_mode schema); [naive_solver|].
  split.
  - intros ([] & Hr & ([] & Hu & Ht)%bind_Ok_inv)%bind_Ok_inv. right.
    by split; [apply check_required_ok | apply check_unknown_ok | apply check_types_ok].
  - intros [|[Hr Hu Ht]]; [done|].
    apply check_required_ok in Hr. apply check_unknown_ok in Hu. apply check_types_ok in Ht.
    rewrite Hr. simpl. rewrite Hu. done.
Qed.

Section serde_laws.
Context `{FieldsCodecLaws}.

Lemma serialize_deserialize doc b :
  serialize doc = Ok b → deserialize (doc_id doc) b = Ok doc.
Proof.
  unfold serialize, deserialize. destruct (rmp_to_vec (doc_fields doc)) as [b'|] eqn:E; [|done].
  simpl. intros [= <-]. rewrite (rmp_roundtrip _ _ E). by destruct doc.
Qed.
End serde_laws.
