(* ===== verification/Index.v ===== *)
(** * Secondary indexes (crates/document/src/index.rs)

    The order-preserving, self-delimiting encoding of index entries, entry
    construction, range lookup, the index catalog and the unique check. *)

From S2P Require Export Core Key Kv Document.

(** ** Definitions *)
Inductive IndexKind :=
  | BTree
  | FullText (analyzer : string)
  | Vector (dim : nat) (metric : string).

Record IndexDefinition := MkIndexDefinition {
  ix_name : string;
  ix_fields : list string;
  ix_unique : bool;
  ix_kind : IndexKind
}.

#[export] Instance IndexKind_eq_dec : EqDecision IndexKind.
Proof. solve_decision. Defined.
#[export] Instance IndexDefinition_eq_dec : EqDecision IndexDefinition.
Proof. solve_decision. Defined.

Module IndexDefinitions.
Definition btree (name : string) (fields : list string) (unique : bool) : IndexDefinition :=
  MkIndexDefinition name fields unique BTree.
Definition is_btree (d : IndexDefinition) : bool :=
  match ix_kind d with BTree => true | _ => false end.
End IndexDefinitions.

(** [rmp_serde] on an index definition. *)
Class DefCodec := {
  def_to_vec : IndexDefinition → Result string bytes;
  def_from_slice : bytes → Result string IndexDefinition
}.
Class DefCodecLaws `{DefCodec} : Prop := {
  def_roundtrip : ∀ d b, def_to_vec d = Ok b → def_from_slice b = Ok d
}.

(** ** Sort-preserving value encoding *)
Definition encode_i64 (n : Z) : bytes := to_be_bytes (Z.lxor (as_u64 n) (2 ^ 63)).

Definition encode_f64 (f : f64) : bytes :=
  let bits := to_bits f in
  let encoded :=
    if is_sign_negative f then (Z.lnot bits `mod` 2 ^ 64)%Z
    else Z.lxor bits (2 ^ 63) in
  to_be_bytes encoded.

Definition encode_index_value (value : Value) : result bytes :=
  match value with
  | VString s => Ok (as_bytes s)
  | VInt n => Ok (encode_i64 n)
  | VFloat f => Ok (encode_f64 f)
  | VBool b => Ok [if b then x01 else x00]
  | _ => Err (Index "type not indexable: {:?}")
  end.

(** ** Self-delimiting key parts *)
Definition TERM : bytes := [x00; x01].

Fixpoint escape_into (raw : bytes) : bytes :=
  match raw with
  | [] => []
  | b :: raw' => if decide (b = x00) then b :: xff :: escape_into raw' else b :: escape_into raw'
  end.

Definition encode_index_value_escaped (value : Value) : result bytes :=
  raw ← encode_index_value value; Ok (escape_into raw).

Definition encode_index_key_part (value : Value) : result bytes :=
  out ← encode_index_value_escaped value; Ok (out ++ TERM).

(** The scanning loop of [id_from_entry], on the bytes from position [i]. *)
Fixpoint id_from_entry_loop (rest : bytes) (seen_terms field_count : nat) : option string :=
  match rest with
  | b1 :: ((b2 :: rest2) as rest1) =>
      if decide (b1 = x00) then
        if decide (b2 = xff) then id_from_entry_loop rest2 seen_terms field_count
        else if decide (b2 = x01) then
          let seen_terms := (seen_terms + 1)%nat in
          if (seen_terms =? field_count)%nat then from_utf8 rest2
          else id_from_entry_loop rest2 seen_terms field_count
        else None
      else id_from_entry_loop rest1 seen_terms field_count
  | _ => None
  end.

Definition id_from_entry (key : bytes) (region_len field_count : nat) : option string :=
  id_from_entry_loop (drop region_len key) 0 field_count.

Fixpoint collect_values (doc : Document) (fields : list string) : option (list Value) :=
  match fields with
  | [] => Some []
  | field :: fields' =>
      match oget field (doc_fields doc) with
      | Some v => if Values.is_none v then None else vs ← collect_values doc fields'; Some (v :: vs)
      | None => None
      end
  end.

Definition collect_index_values (doc : Document) (index : IndexDefinition) : option (list Value) :=
  match ix_fields index with
  | [] => None
  | fields => collect_values doc fields
  end.

Definition encode_composite_key_part (values : list Value) : result bytes :=
  parts ← traverse encode_index_key_part values; Ok (concat parts).

(** ** Entry construction *)
Definition index_entry_key (ns db table name : string) (key_part : bytes) (id : string) : bytes :=
  KeyBuilder.build
    (KeyBuilder.raw
       (KeyBuilder.raw
          (KeyBuilder.segment (start ns db table tag.INDEX) (as_bytes name)) key_part)
       (as_bytes id)).

Fixpoint build_index_entries (doc : Document) (ns db table : string)
    (indexes : list IndexDefinition) : result kvs :=
  match indexes with
  | [] => Ok []
  | idx :: indexes' =>
      if negb (IndexDefinitions.is_btree idx) then build_index_entries doc ns db table indexes'
      else if bool_decide (ix_fields idx = []) then Err (Index "index has no fields")
      else match collect_index_values doc idx with
      | Some values =>
          key_part ← encode_composite_key_part values;
          entries ← build_index_entries doc ns db table indexes';
          Ok ((index_entry_key ns db table (ix_name idx) key_part (rid_id (doc_id doc)), [])
                :: entries)
      | None => build_index_entries doc ns db table indexes'
      end
  end.

(** ** Lookup *)
Abbreviation RangeBound := (Value * bool)%type.

Definition filter_map {A B} (f : A → option B) (l : list A) : list B :=
  flat_map (λ a, match f a with Some b => [b] | None => [] end) l.

Section lookup.
Context {S : Type} `{KvStore S}.

(** The half-open scan range of a lookup. *)
Definition scan_start (base : bytes) (lower : option RangeBound) : result bytes :=
  match lower with
  | None => Ok base
  | Some (v, inclusive) =>
      e ← encode_index_value_escaped v;
      let p := base ++ e in
      Ok (if inclusive : bool then p else prefix_end (p ++ TERM))
  end.

Definition scan_end (base : bytes) (upper : option RangeBound) : result bytes :=
  match upper with
  | None => Ok (prefix_end base)
  | Some (v, inclusive) =>
      e ← encode_index_value_escaped v;
      let p := base ++ e in
      Ok (if inclusive : bool then prefix_end (p ++ TERM) else p)
  end.

Definition find_ids (ns db table index_name : string) (eq : list Value)
    (lower upper : option RangeBound) (field_count : nat) : M S (list string) :=
  let region := index_prefix ns db table index_name in
  eq_part ← lift (encode_composite_key_part eq);
  let base := region ++ eq_part in
  start ← lift (scan_start base lower);
  end_ ← lift (scan_end base upper);
  if leb end_ start then mret []
  else
    entries ← DllbStorage.scan start end_;
    mret (filter_map (λ kv, id_from_entry kv.1 (length region) field_count) entries).

Definition find_by_index (ns db table index_name : string) (value : Value) : M S (list string) :=
  find_ids ns db table index_name [value] None None 1.

Definition find_ids_by_range (ns db table index_name : string)
    (lower upper : option RangeBound) : M S (list string) :=
  find_ids ns db table index_name [] lower upper 1.

(** ** Unique constraint *)
Definition check_unique_constraint (ns db table : string) (index : IndexDefinition)
    (values : list Value) (exclude_id : string) : M S unit :=
  if negb (ix_unique index) then mret tt
  else
    ids ← find_ids ns db table (ix_name index) values None None (length (ix_fields index));
    match find (λ id, negb (String.eqb id exclude_id)) ids with
    | Some id =>
        throw (Schema ("unique constraint violated on index '" ++ ix_name index ++
                       "': value already exists for record '" ++ id ++ "'"))
    | None => mret tt
    end.

(** ** Catalog *)
Context `{DefCodec}.

Definition index_definition_kv (ns db table : string) (def : IndexDefinition) :
    result (bytes * bytes) :=
  let key := index_catalog_key ns db table (ix_name def) in
  b ← ser_err (def_to_vec def); Ok (key, b).

Definition save_index_definition (ns db table : string) (def : IndexDefinition) : M S unit :=
  '(key, b) ← lift (index_definition_kv ns db table def);
  DllbStorage.put key b.

Definition remove_index_definition (ns db table index_name : string) : M S bool :=
  let key := index_catalog_key ns db table index_name in
  existed ← DllbStorage.contains key;
  _ ← (if existed : bool then DllbStorage.delete key else mret tt);
  mret existed.

Definition load_index_definitions (ns db table : string) : M S (list IndexDefinition) :=
  let prefix := index_catalog_prefix ns db table in
  entries ← DllbStorage.prefix_scan prefix;
  lift (traverse (λ kv : bytes * bytes, ser_err (def_from_slice kv.2)) entries).
End lookup.

Lemma index_entry_key_shape ns db t n p id :
  index_entry_key ns db t n p id = index_prefix ns db t n ++ p ++ as_bytes id.
Proof. unfold index_entry_key, index_prefix. simpl. by rewrite <- !app_assoc. Qed.

(** ** Order of the scalar encodings *)
Lemma xor_top n : (0 ≤ n < 2 ^ 64)%Z →
  Z.lxor n (2 ^ 63) = (if (n <? 2 ^ 63)%Z then n + 2 ^ 63 else n - 2 ^ 63)%Z.
Proof.
  intros Hn. set (q := (n `mod` 2 ^ 63)%Z).
  assert (0 ≤ q < 2 ^ 63)%Z as Hq by (apply Z.mod_pos_bound; lia).
  assert (∀ m, (0 ≤ m < 2 ^ 63)%Z → Z.lxor m (2 ^ 63) = (m + 2 ^ 63)%Z) as Hlow.
  { intros m Hm. rewrite Z.add_nocarry_lxor; [done|].
    apply Z.bits_inj'. intros i Hi. rewrite Z.land_spec, Z.bits_0, Z.pow2_bits_eqb by lia.
    destruct (Z.eqb_spec 63 i) as [<-|]; [|by rewrite andb_false_r].
    rewrite andb_true_r. apply Z.testbit_false; [lia|]. by rewrite Z.div_small. }
  destruct (Z.ltb_spec n (2 ^ 63)); [apply Hlow; lia|].
  replace n with (Z.lxor (n - 2 ^ 63) (2 ^ 63)) at 1 by (rewrite Hlow; lia).
  by rewrite Z.lxor_assoc, Z.lxor_nilpotent, Z.lxor_0_r.
Qed.

Lemma encode_i64_val n : i64_range n → Z.lxor (as_u64 n) (2 ^ 63) = (n + 2 ^ 63)%Z.
Proof.
  unfold i64_range, as_u64. intros Hn. rewrite xor_top by (apply Z.mod_pos_bound; lia).
  destruct (Z.le_gt_cases 0 n).
  - rewrite Z.mod_small by lia. destruct (Z.ltb_spec n (2 ^ 63)); lia.
  - replace (n `mod` 2 ^ 64)%Z with (n + 2 ^ 64)%Z.
    + destruct (Z.ltb_spec (n + 2 ^ 64) (2 ^ 63)); lia.
    + rewrite <- (Z.mod_small (n + 2 ^ 64) (2 ^ 64)) by lia.
      by rewrite <- (Z_mod_plus_full n 1), Z.mul_1_l.
Qed.

Lemma encode_i64_cmp a b : i64_range a → i64_range b →
  ord_cmp (encode_i64 a) (encode_i64 b) = Z.compare a b.
Proof.
  intros Ha Hb. unfold encode_i64. rewrite !encode_i64_val by done.
  unfold i64_range in *. rewrite to_be_bytes_cmp by lia.
  destruct (Z.compare_spec (a + 2 ^ 63) (b + 2 ^ 63)), (Z.compare_spec a b); done || lia.
Qed.

(** The 64-bit key of a float and its relation to sign and magnitude. *)
Definition f64_key (f : f64) : Z :=
  (if is_sign_negative f then 2 ^ 63 - 1 - magnitude f else 2 ^ 63 + magnitude f)%Z.

Lemma f64_key_range f : (0 ≤ f64_key f < 2 ^ 64)%Z.
Proof. unfold f64_key. pose proof (magnitude_range f). destruct (is_sign_negative f); lia. Qed.

Lemma encode_f64_key f : f64_wf f → encode_f64 f = to_be_bytes (f64_key f).
Proof.
  intros Hf. unfold encode_f64, f64_key. pose proof (f64_split f Hf) as Hs.
  pose proof (magnitude_range f). f_equal. destruct (is_sign_negative f).
  - rewrite Hs. unfold Z.lnot. replace (Z.pred (- (2 ^ 63 + magnitude f)))%Z
      with (2 ^ 63 - 1 - magnitude f + (-1) * 2 ^ 64)%Z by lia.
    rewrite Z_mod_plus_full. apply Z.mod_small. lia.
  - rewrite Hs, xor_top by lia. destruct (Z.ltb_spec (0 + magnitude f) (2 ^ 63)); lia.
Qed.

Lemma encode_f64_cmp a b : f64_wf a → f64_wf b →
  ord_cmp (encode_f64 a) (encode_f64 b) = Z.compare (f64_key a) (f64_key b).
Proof.
  intros. rewrite !encode_f64_key by done. apply to_be_bytes_cmp; apply f64_key_range.
Qed.

Lemma f64_key_rank a b : (f64_rank a < f64_rank b)%Z → (f64_key a < f64_key b)%Z.
Proof.
  unfold f64_rank, f64_key. pose proof (magnitude_range a). pose proof (magnitude_range b).
  destruct (is_sign_negative a), (is_sign_negative b); lia.
Qed.

(** The order the index keeps on values of one scalar type. *)
Definition index_cmp (a b : Value) : option comparison :=
  match a, b with
  | VString x, VString y => Some (ord_cmp x y)
  | VInt x, VInt y => Some (Z.compare x y)
  | VFloat x, VFloat y => Some (Z.compare (f64_key x) (f64_key y))
  | VBool x, VBool y => Some (Z.compare (Z.b2z x) (Z.b2z y))
  | _, _ => None
  end.

(** Machine-representable values. *)
Definition value_wf (v : Value) : Prop :=
  match v with VInt n => i64_range n | VFloat f => f64_wf f | _ => True end.

Lemma encode_index_value_cmp a b x y c :
  value_wf a → value_wf b → index_cmp a b = Some c →
  encode_index_value a = Ok x → encode_index_value b = Ok y → ord_cmp x y = c.
Proof.
  intros Ha Hb Hc Hx Hy. destruct a, b; simplify_eq/=; try done.
  - by destruct b0, b.
  - by apply encode_i64_cmp.
  - by apply encode_f64_cmp.
Qed.

(** ** Escaping *)
Lemma byte_cmp_zero b : b ≠ x00 → ord_cmp x00 b = Lt.
Proof.
  intros Hb. rewrite byte_cmp_b2z. apply Z.compare_lt_iff.
  pose proof (b2z_range b). change (b2z x00) with 0%Z.
  assert (b2z b ≠ 0)%Z; [|lia]. intros E. apply Hb, b2z_inj. done.
Qed.

(** Comparing two terminated parts compares the raw bytes first. *)
Lemma escape_term_cmp x y r s :
  ord_cmp (escape_into x ++ TERM ++ r) (escape_into y ++ TERM ++ s) =
  match ord_cmp x y with Eq => ord_cmp r s | c => c end.
Proof.
  revert y; induction x as [|a x IH]; intros [|b y].
  - done.
  - simpl escape_into. rewrite list_cmp_nil. case_decide as Hb; [subst; done|].
    simpl. by rewrite list_cmp_cons, byte_cmp_zero.
  - simpl escape_into. rewrite list_cmp_cons_nil. case_decide as Ha; [subst; done|].
    simpl. by rewrite list_cmp_cons, (ord_opp x00 a), byte_cmp_zero.
  - simpl escape_into. rewrite (list_cmp_cons a b x y).
    destruct (ord_cmp a b) eqn:E.
    + apply ord_eq_iff in E as ->.
      case_decide; simpl; rewrite !list_cmp_cons, ?ord_refl; apply IH.
    + do 2 case_decide; subst; simpl; rewrite list_cmp_cons;
        first [by rewrite E | by rewrite ord_refl in E].
    + do 2 case_decide; subst; simpl; rewrite list_cmp_cons;
        first [by rewrite E | by rewrite ord_refl in E].
Qed.

Lemma escape_term_inj x y r s :
  escape_into x ++ TERM ++ r = escape_into y ++ TERM ++ s → x = y ∧ r = s.
Proof.
  intros E. pose proof (escape_term_cmp x y r s) as H. rewrite E, ord_refl in H.
  destruct (ord_cmp x y) eqn:Exy; [|done..]. apply ord_eq_iff in Exy. split; [done|].
  by apply ord_eq_iff.
Qed.

(** The four bounds a lookup uses, against a terminated part. *)
Lemma leb_escape_lower v w r : leb (escape_into v) (escape_into w ++ TERM ++ r) = leb v w.
Proof.
  revert w; induction v as [|a v IH]; intros w.
  - assert (∀ l : bytes, leb [] l = true) as Hn by (by intros []). simpl. by rewrite !Hn.
  - destruct w as [|b w].
    + simpl escape_into. unfold leb at 2. rewrite list_cmp_cons_nil.
      case_decide as Ha; [by subst|]. unfold leb. simpl.
      by rewrite list_cmp_cons, (ord_opp x00 a), byte_cmp_zero.
    + unfold leb in *. simpl escape_into. rewrite (list_cmp_cons a b v w).
      destruct (ord_cmp a b) eqn:E.
      * apply ord_eq_iff in E as ->.
        case_decide; simpl; rewrite !list_cmp_cons, ?ord_refl; apply IH.
      * do 2 case_decide; subst; simpl; rewrite list_cmp_cons;
        first [by rewrite E | by rewrite ord_refl in E].
      * do 2 case_decide; subst; simpl; rewrite list_cmp_cons;
        first [by rewrite E | by rewrite ord_refl in E].
Qed.

Lemma leb_escape_above v w r :
  leb (escape_into v ++ [x00; x02]) (escape_into w ++ TERM ++ r) = ltb v w.
Proof.
  revert w; induction v as [|a v IH]; intros w.
  - destruct w as [|b w]; [done|]. unfold ltb. rewrite list_cmp_nil.
    simpl escape_into. case_decide as Hb; [by subst|]. unfold leb. simpl.
    by rewrite list_cmp_cons, byte_cmp_zero.
  - destruct w as [|b w].
    + simpl escape_into. unfold ltb. rewrite list_cmp_cons_nil.
      case_decide as Ha; [by subst|]. unfold leb. simpl.
      by rewrite list_cmp_cons, (ord_opp x00 a), byte_cmp_zero.
    + unfold leb, ltb in *. simpl escape_into. rewrite (list_cmp_cons a b v w).
      destruct (ord_cmp a b) eqn:E.
      * apply ord_eq_iff in E as ->.
        case_decide; simpl; rewrite !list_cmp_cons, ?ord_refl; apply IH.
      * do 2 case_decide; subst; simpl; rewrite list_cmp_cons;
        first [by rewrite E | by rewrite ord_refl in E].
      * do 2 case_decide; subst; simpl; rewrite list_cmp_cons;
        first [by rewrite E | by rewrite ord_refl in E].
Qed.

(** ** Composite parts *)

(** The bytes of a tuple of raw encodings. *)
Definition tuple_part (raws : list bytes) : bytes :=
  concat (map (λ r, escape_into r ++ TERM) raws).

Lemma tuple_part_cons r raws : tuple_part (r :: raws) = escape_into r ++ TERM ++ tuple_part raws.
Proof. unfold tuple_part. simpl. by rewrite <- app_assoc. Qed.

Lemma tuple_part_app r1 r2 : tuple_part (r1 ++ r2) = tuple_part r1 ++ tuple_part r2.
Proof. unfold tuple_part. by rewrite map_app, concat_app. Qed.

Lemma encode_part_eq v :
  encode_index_key_part v = r ← encode_index_value v; Ok (escape_into r ++ TERM).
Proof. unfold encode_index_key_part, encode_index_value_escaped. by destruct (encode_index_value v). Qed.

Lemma encode_composite_Ok vs p :
  encode_composite_key_part vs = Ok p ↔
  ∃ raws, traverse encode_index_value vs = Ok raws ∧ p = tuple_part raws.
Proof.
  unfold encode_composite_key_part.
  assert (traverse encode_index_key_part vs =
          match traverse encode_index_value vs with
          | Ok raws => Ok (map (λ r, escape_into r ++ TERM) raws)
          | Err e => Err e end) as ->.
  { induction vs as [|v vs IH]; simpl; [done|].
    rewrite encode_part_eq. destruct (encode_index_value v) as [r|]; simpl; [|done]. rewrite IH.
    by destruct (traverse encode_index_value vs). }
  destruct (traverse encode_index_value vs) as [raws|]; simpl; naive_solver.
Qed.

Lemma tuple_part_inj raws raws' r r' :
  length raws = length raws' →
  tuple_part raws ++ r = tuple_part raws' ++ r' → raws = raws' ∧ r = r'.
Proof.
  revert raws'; induction raws as [|x raws IH]; intros [|y raws'] Hlen E; simplify_eq/=; [done|].
  rewrite !tuple_part_cons, <- !app_assoc in E.
  change (escape_into x ++ TERM ++ (tuple_part raws ++ r) =
          escape_into y ++ TERM ++ (tuple_part raws' ++ r')) in E.
  apply escape_term_inj in E as [-> E]. apply IH in E as [-> ->]; done.
Qed.

Lemma tuple_prefix_iff eqs raws r :
  length eqs ≤ length raws →
  tuple_part eqs `prefix_of` tuple_part raws ++ r ↔ eqs `prefix_of` raws.
Proof.
  revert raws; induction eqs as [|x eqs IH]; intros raws Hlen.
  - split; intros; apply prefix_nil.
  - destruct raws as [|y raws]; simpl in *; [lia|]. rewrite !tuple_part_cons. split.
    + intros [t E]. rewrite <- !app_assoc in E.
      change (escape_into y ++ TERM ++ (tuple_part raws ++ r) =
              escape_into x ++ TERM ++ (tuple_part eqs ++ t)) in E.
      apply escape_term_inj in E as [-> E]. apply prefix_cons, IH; [lia|]. by exists t.
    + intros Hp. pose proof (prefix_cons_inv_1 _ _ _ _ Hp) as ->.
      apply prefix_cons_inv_2 in Hp. rewrite <- !app_assoc. apply prefix_app, prefix_app.
      apply IH; [lia|done].
Qed.

(** Recovering the id past the terminators. *)
Lemma id_loop_escape raw rest n fc :
  id_from_entry_loop (escape_into raw ++ TERM ++ rest) n fc =
  if (n + 1 =? fc)%nat then from_utf8 rest else id_from_entry_loop rest (n + 1) fc.
Proof.
  induction raw as [|b raw IH]; [done|]. simpl escape_into. case_decide as Hb.
  - subst. rewrite <- IH. done.
  - rewrite <- IH. cbn [app].
    destruct (escape_into raw ++ TERM ++ rest) as [|b2 l] eqn:E.
    { by destruct (escape_into raw). }
    cbn [id_from_entry_loop]. by rewrite decide_False.
Qed.

Lemma id_loop_tuple raws rest n fc :
  raws ≠ [] → (n + length raws = fc)%nat →
  id_from_entry_loop (tuple_part raws ++ rest) n fc = from_utf8 rest.
Proof.
  revert n; induction raws as [|r raws IH]; intros n Hne Hlen; [done|].
  rewrite tuple_part_cons, <- !app_assoc.
  change (id_from_entry_loop (escape_into r ++ TERM ++ (tuple_part raws ++ rest)) n fc = from_utf8 rest).
  rewrite id_loop_escape. simpl in Hlen. destruct raws as [|r2 raws].
  - simpl in *. by rewrite (proj2 (Nat.eqb_eq _ _)) by lia.
  - rewrite (proj2 (Nat.eqb_neq _ _)) by (simpl in *; lia).
    apply IH; [done|]. simpl in *. lia.
Qed.

Lemma id_from_entry_tuple region raws id :
  raws ≠ [] → is_str id →
  id_from_entry (region ++ tuple_part raws ++ as_bytes id) (length region) (length raws) = Some id.
Proof.
  intros Hne Hid. unfold id_from_entry. rewrite drop_app_length.
  rewrite id_loop_tuple by done. by apply from_utf8_as_bytes.
Qed.

(** ** Lookup specification *)

(** A bound on the raw encoding of one field. *)
Abbreviation raw_bound := (option (bytes * bool)).

Definition above (lower : raw_bound) (w : bytes) : bool :=
  match lower with
  | None => true
  | Some (v, true) => leb v w
  | Some (v, false) => ltb v w
  end.
Definition below (upper : raw_bound) (w : bytes) : bool :=
  match upper with
  | None => true
  | Some (v, true) => leb w v
  | Some (v, false) => ltb w v
  end.

(** The tuples a lookup selects: the equality values lead, and the next field
    is within the bounds. *)
Definition tuple_matches (eqs : list bytes) (lower upper : raw_bound) (raws : list bytes) : Prop :=
  eqs `prefix_of` raws ∧
  match raws !! length eqs with
  | Some w => above lower w = true ∧ below upper w = true
  | None => True
  end.

Definition raw_start (base : bytes) (lower : raw_bound) : bytes :=
  match lower with
  | None => base
  | Some (r, true) => base ++ escape_into r
  | Some (r, false) => prefix_end ((base ++ escape_into r) ++ TERM)
  end.
Definition raw_end (base : bytes) (upper : raw_bound) : bytes :=
  match upper with
  | None => prefix_end base
  | Some (r, true) => prefix_end ((base ++ escape_into r) ++ TERM)
  | Some (r, false) => base ++ escape_into r
  end.

Lemma prefix_end_term p : prefix_end (p ++ TERM) = p ++ [x00; x02].
Proof.
  unfold prefix_end, TERM. rewrite reverse_app. simpl.
  by rewrite !reverse_cons, reverse_involutive, <- app_assoc.
Qed.

Lemma raw_start_ext base lower : ∃ x, raw_start base lower = base ++ x.
Proof.
  destruct lower as [[r []]|]; simpl; rewrite ?prefix_end_term, <- ?app_assoc; eauto.
  exists []. by rewrite app_nil_r.
Qed.

Lemma raw_start_above base lower w r :
  leb (raw_start base lower) (base ++ escape_into w ++ TERM ++ r) = above lower w.
Proof.
  destruct lower as [[v []]|]; cbn [raw_start above].
  - by rewrite leb_app, leb_escape_lower.
  - by rewrite prefix_end_term, <- app_assoc, leb_app, leb_escape_above.
  - apply leb_prefix, prefix_app_r. done.
Qed.

Lemma ltb_negb_leb {K} `{OrdLaws K} (a b : K) : ltb a b = negb (leb b a).
Proof. by rewrite leb_negb_ltb, negb_involutive. Qed.

Lemma raw_end_below base upper w r :
  prefix_end base ≠ [] →
  ltb (base ++ escape_into w ++ TERM ++ r) (raw_end base upper) = below upper w.
Proof.
  intros Hb. destruct upper as [[v []]|]; cbn [raw_end below].
  - by rewrite prefix_end_term, <- app_assoc, ltb_app, ltb_negb_leb, leb_escape_above,
      (leb_negb_ltb w v).
  - by rewrite ltb_app, ltb_negb_leb, leb_escape_lower, (ltb_negb_leb w v).
  - pose proof (proj2 (prefix_range base (base ++ escape_into w ++ TERM ++ r) Hb)) as Hp.
    rewrite andb_true_iff in Hp. apply Hp, prefix_app_r. done.
Qed.

(** Any key in the scanned range extends the common prefix. *)
Lemma range_base base lower upper k :
  prefix_end base ≠ [] →
  leb (raw_start base lower) k = true → ltb k (raw_end base upper) = true →
  base `prefix_of` k.
Proof.
  intros Hb Hl Hu. destruct (raw_start_ext base lower) as [x Hx].
  assert (upper = None ∨ ∃ y, raw_end base upper = base ++ y) as [->|[y Hy]].
  { destruct upper as [[v []]|]; simpl; rewrite ?prefix_end_term, <- ?app_assoc; eauto. }
  - apply (prefix_range base k Hb), andb_true_iff. split; [|done].
    eapply leb_trans; [|exact Hl]. rewrite Hx. apply leb_prefix, prefix_app_r. done.
  - rewrite Hx in Hl. rewrite Hy in Hu. eapply between_prefix; eauto.
Qed.

Lemma scan_range_iff region eqs lower upper raws id :
  prefix_end (region ++ tuple_part eqs) ≠ [] →
  length eqs ≤ length raws →
  (lower ≠ None ∨ upper ≠ None → length eqs < length raws) →
  let base := region ++ tuple_part eqs in
  let key := region ++ tuple_part raws ++ id in
  (leb (raw_start base lower) key = true ∧ ltb key (raw_end base upper) = true) ↔
  tuple_matches eqs lower upper raws.
Proof.
  intros Hb Hlen Hlt base key. unfold tuple_matches. split.
  - intros [Hl Hu]. pose proof (range_base base lower upper key Hb Hl Hu) as Hp.
    unfold base, key in Hp. apply prefix_app_inv, tuple_prefix_iff in Hp; [|done].
    split; [done|]. destruct Hp as [rest ->].
    rewrite lookup_app_r, Nat.sub_diag by lia. destruct rest as [|w rest]; [done|]. simpl.
    unfold key in Hl, Hu. rewrite tuple_part_app, tuple_part_cons in Hl, Hu.
    rewrite <- !app_assoc in Hl, Hu. rewrite (app_assoc region) in Hl, Hu.
    by rewrite raw_start_above in Hl; rewrite raw_end_below in Hu.
  - intros [[rest ->] Hm]. rewrite lookup_app_r, Nat.sub_diag in Hm by lia.
    unfold key. rewrite tuple_part_app. destruct rest as [|w rest]; simpl in Hm.
    + assert (lower = None ∧ upper = None) as [-> ->].
      { destruct lower, upper; try done; rewrite app_nil_r in Hlt;
          exfalso; assert (length eqs < length eqs); try lia; auto. }
      simpl. rewrite app_nil_r, <- andb_true_iff.
      apply prefix_range; [done|]. rewrite app_assoc. by apply prefix_app_r.
    + rewrite tuple_part_cons, <- !app_assoc, (app_assoc region).
      by rewrite raw_start_above, raw_end_below.
Qed.

Lemma filter_map_elem {A B} (f : A → option B) (l : list A) b :
  b ∈ filter_map f l ↔ ∃ a, a ∈ l ∧ f a = Some b.
Proof.
  unfold filter_map. induction l as [|a l IH]; simpl; [set_solver|].
  rewrite elem_of_app, IH. destruct (f a) eqn:E; set_solver.
Qed.

Lemma filter_map_NoDup {A B} (f : A → option B) (l : list A) :
  NoDup l → (∀ x y b, x ∈ l → y ∈ l → f x = Some b → f y = Some b → x = y) →
  NoDup (filter_map f l).
Proof.
  unfold filter_map. induction 1 as [|x l Hx Hl IH]; intros Hinj; simpl; [constructor|].
  assert (NoDup (filter_map f l)) as Hnd by (apply IH; intros; eapply Hinj; eauto; set_solver).
  destruct (f x) as [b|] eqn:E; simpl; [|exact Hnd]. constructor; [|exact Hnd].
  intros (y & Hy & Hfy)%(filter_map_elem f). assert (x = y) as ->; [|done].
  eapply Hinj; eauto; set_solver.
Qed.

(** Every entry of an index has a complete tuple of parts and a record id. *)
Definition region_wf (c : OMap bytes bytes) (region : bytes) (fc : nat) : Prop :=
  ∀ k v, oget k c = Some v → region `prefix_of` k →
    ∃ raws id, length raws = fc ∧ is_str id ∧ k = region ++ tuple_part raws ++ as_bytes id.

Definition raw_bound_of (b : option RangeBound) (rb : raw_bound) : Prop :=
  match b, rb with
  | None, None => True
  | Some (v, i), Some (r, j) => encode_index_value v = Ok r ∧ i = j
  | _, _ => False
  end.

Lemma scan_start_raw base lower rl :
  raw_bound_of lower rl → scan_start base lower = Ok (raw_start base rl).
Proof.
  destruct lower as [[v i]|], rl as [[r j]|]; simpl; try done.
  intros [Hv ->]. unfold encode_index_value_escaped. rewrite Hv. simpl. by destruct j.
Qed.
Lemma scan_end_raw base upper ru :
  raw_bound_of upper ru → scan_end base upper = Ok (raw_end base ru).
Proof.
  destruct upper as [[v i]|], ru as [[r j]|]; simpl; try done.
  intros [Hv ->]. unfold encode_index_value_escaped. rewrite Hv. simpl. by destruct j.
Qed.

Lemma index_base_end ns db t n eqs : prefix_end (index_prefix ns db t n ++ tuple_part eqs) ≠ [].
Proof.
  destruct eqs as [|e eqs _] using rev_ind.
  - simpl. rewrite app_nil_r, index_prefix_shape, app_comm_cons, app_assoc.
    by apply prefix_end_tag.
  - rewrite tuple_part_app. unfold tuple_part at 2. simpl. rewrite app_nil_r, !app_assoc.
    rewrite prefix_end_term. by intros [_ Hn]%app_eq_nil.
Qed.

Section find_ids_spec.
Context {S : Type} `{KvLaws S}.

(** The entries of a scanned range are those of the matching tuples. *)
Lemma range_entry s region eqs rl ru fc k v id :
  let base := region ++ tuple_part eqs in
  prefix_end base ≠ [] → fc ≠ 0 →
  (∀ raws id, length raws = fc →
    (leb (raw_start base rl) (region ++ tuple_part raws ++ id) = true ∧
     ltb (region ++ tuple_part raws ++ id) (raw_end base ru) = true) ↔ tuple_matches eqs rl ru raws) →
  region_wf (contents s) region fc →
  (k, v) ∈ orange (raw_start base rl) (raw_end base ru) (contents s) →
  id_from_entry k (length region) fc = Some id →
  is_str id ∧ ∃ raws, length raws = fc ∧ tuple_matches eqs rl ru raws ∧
    oget k (contents s) = Some v ∧ k = region ++ tuple_part raws ++ as_bytes id.
Proof.
  intros base Hbase Hfc Hrange Hwf Hin Hid. apply orange_elem in Hin as (Hin & Hl & Hu). simpl in *.
  apply oget_iff in Hin; [|apply contents_sorted].
  assert (region `prefix_of` k) as Hp.
  { destruct (range_base base rl ru k Hbase Hl Hu) as [r ->].
    unfold base. rewrite <- app_assoc. by apply prefix_app_r. }
  destruct (Hwf k v Hin Hp) as (raws & id' & Hr & Hs & ->).
  assert (raws ≠ []) as Hne by (intros ->; simpl in *; lia).
  rewrite <- Hr, id_from_entry_tuple in Hid by done. injection Hid as ->.
  split; [done|]. exists raws. split_and!; try done. by eapply Hrange.
Qed.

(** [find_ids] runs to a result and returns the ids of the matching entries. *)
Lemma find_ids_run ns db t n eq lower upper fc s eqs rl ru :
  traverse encode_index_value eq = Ok eqs →
  raw_bound_of lower rl → raw_bound_of upper ru →
  length eqs ≤ fc → fc ≠ 0 → (rl ≠ None ∨ ru ≠ None → length eqs < fc) →
  region_wf (contents s) (index_prefix ns db t n) fc →
  ∃ ids, find_ids ns db t n eq lower upper fc s = (Ok ids, s) ∧
    (∀ id, id ∈ ids ↔ is_str id ∧ ∃ raws, length raws = fc ∧ tuple_matches eqs rl ru raws ∧
      is_Some (oget (index_prefix ns db t n ++ tuple_part raws ++ as_bytes id) (contents s))) ∧
    ((∀ id raws raws', length raws = fc → length raws' = fc →
        is_Some (oget (index_prefix ns db t n ++ tuple_part raws ++ as_bytes id) (contents s)) →
        is_Some (oget (index_prefix ns db t n ++ tuple_part raws' ++ as_bytes id) (contents s)) →
        raws = raws') → NoDup ids).
Proof.
  intros Heq Hrl Hru Hlen Hfc Hlt Hwf.
  set (region := index_prefix ns db t n) in *. set (base := region ++ tuple_part eqs).
  assert (Hbase : prefix_end base ≠ []) by apply index_base_end.
  assert (Hrange : ∀ raws id, length raws = fc →
    (leb (raw_start base rl) (region ++ tuple_part raws ++ id) = true ∧
     ltb (region ++ tuple_part raws ++ id) (raw_end base ru) = true) ↔
    tuple_matches eqs rl ru raws).
  { intros raws id Hr. apply (scan_range_iff region eqs rl ru raws id Hbase); [lia|]. by rewrite Hr. }
  unfold find_ids.
  rewrite (SE_bind_ok _ _ s (tuple_part eqs) s) by
    (unfold lift; f_equal; apply encode_composite_Ok; eauto).
  fold region. fold base.
  rewrite (SE_bind_ok _ _ s (raw_start base rl) s) by
    (unfold lift; f_equal; by apply scan_start_raw).
  rewrite (SE_bind_ok _ _ s (raw_end base ru) s) by
    (unfold lift; f_equal; by apply scan_end_raw).
  destruct (leb (raw_end base ru) (raw_start base rl)) eqn:Hempty.
  - exists []. split; [done|]. split; [|intros; constructor]. intros id. split; [set_solver|].
    intros (_ & raws & Hr & Hm & _). exfalso.
    apply (Hrange raws (as_bytes id) Hr) in Hm as [Hl Hu].
    pose proof (ltb_leb_trans _ _ _ Hu Hempty) as Hlt'.
    rewrite ltb_negb_leb, Hl in Hlt'. done.
  - eexists. split.
    { unfold DllbStorage.scan. rewrite (SE_bind_ok _ _ s _ s (scan_law _ _ s)). done. }
    pose proof (λ k v id, range_entry s region eqs rl ru fc k v id Hbase Hfc Hrange Hwf) as Hentry.
    split.
    + intros id. rewrite filter_map_elem. split.
      * intros ([k v] & Hin & Hid). destruct (Hentry k v id Hin Hid) as (Hs & raws & Hr & Hm & Hg & ->).
        split; [done|]. exists raws. rewrite Hg. eauto.
      * intros (Hs & raws & Hr & Hm & [v Hv]).
        exists (region ++ tuple_part raws ++ as_bytes id, v). split.
        -- apply orange_elem. split; [by apply oget_elem|]. by apply Hrange.
        -- simpl. rewrite <- Hr. apply id_from_entry_tuple; [|done]. intros ->; simpl in *; lia.
    + intros Huniq. apply filter_map_NoDup.
      * apply osorted_NoDup, osorted_filter, contents_sorted.
      * intros [k1 v1] [k2 v2] id Hk1 Hk2 Hi1 Hi2. simpl in *.
        destruct (Hentry k1 v1 id Hk1 Hi1) as (_ & r1 & L1 & _ & G1 & ->).
        destruct (Hentry k2 v2 id Hk2 Hi2) as (_ & r2 & L2 & _ & G2 & ->).
        rewrite (Huniq id r1 r2) in G1 |- * by eauto. congruence.
Qed.
End find_ids_spec.
