(* ===== verification/IndexTheorems.v ===== *)
(** * A concrete serializer

    An instance of the codec parameters, used to run the model on concrete
    inputs.  Scalars, strings, record ids, vectors and arrays of numbers are
    supported; the other value constructors are reported as unsupported. *)

From stdpp Require Import countable.
From S2P Require Export Document Index.

Fixpoint pos_bytes (p : positive) : bytes :=
  match p with
  | xH => [x02]
  | xO p => x00 :: pos_bytes p
  | xI p => x01 :: pos_bytes p
  end.
Fixpoint bytes_pos (b : bytes) : option positive :=
  match b with
  | [x02] => Some xH
  | x00 :: b => xO <$> bytes_pos b
  | x01 :: b => xI <$> bytes_pos b
  | _ => None
  end.
Lemma bytes_pos_bytes p : bytes_pos (pos_bytes p) = Some p.
Proof. induction p as [p IH|p IH|]; simpl; by rewrite ?IH. Qed.

Fixpoint pos_string (p : positive) : string :=
  match p with
  | xH => ""
  | xO p => String "0" (pos_string p)
  | xI p => String "1" (pos_string p)
  end.
Fixpoint string_pos (s : string) : option positive :=
  match s with
  | "" => Some xH
  | String "0" s => xO <$> string_pos s
  | String "1" s => xI <$> string_pos s
  | _ => None
  end%string.
Lemma string_pos_string p : string_pos (pos_string p) = Some p.
Proof. induction p as [p IH|p IH|]; simpl; by rewrite ?IH. Qed.

Abbreviation scalar := (unit + bool + Z + Z + string + string * string + (list Z + list (Z + Z)))%type.

Definition to_number (v : Value) : option (Z + Z) :=
  match v with VInt n => Some (inl n) | VFloat f => Some (inr (to_bits f)) | _ => None end.
Definition of_number (n : Z + Z) : Value := match n with inl n => VInt n | inr z => VFloat (F64 z) end.
Lemma of_to_number v n : to_number v = Some n → of_number n = v.
Proof. destruct v as [| | |[]| | | | | |]; try done; by intros [= <-]. Qed.

Definition to_scalar (v : Value) : option scalar :=
  match v with
  | VNone => Some (inl (inl (inl (inl (inl (inl tt))))))
  | VBool b => Some (inl (inl (inl (inl (inl (inr b))))))
  | VInt n => Some (inl (inl (inl (inl (inr n)))))
  | VFloat f => Some (inl (inl (inl (inr (to_bits f)))))
  | VString s => Some (inl (inl (inr s)))
  | VRecordId r => Some (inl (inr (rid_table r, rid_id r)))
  | VVector v => Some (inr (inl (map to_bits32 v)))
  | VArray l => ns ← mapM to_number l; Some (inr (inr ns))
  | _ => None
  end.
Definition of_scalar (s : scalar) : Value :=
  match s with
  | inl (inl (inl (inl (inl (inl _))))) => VNone
  | inl (inl (inl (inl (inl (inr b))))) => VBool b
  | inl (inl (inl (inl (inr n)))) => VInt n
  | inl (inl (inl (inr z))) => VFloat (F64 z)
  | inl (inl (inr s)) => VString s
  | inl (inr (t, i)) => VRecordId (MkRecordId t i)
  | inr (inl v) => VVector (map F32 v)
  | inr (inr ns) => VArray (map of_number ns)
  end.
Lemma of_to_scalar v s : to_scalar v = Some s → of_scalar s = v.
Proof.
  destruct v as [| | |[]| | |l| |[]|v]; simpl; try done; try (by intros [= <-]).
  - intros (ns & Hns & [= <-])%bind_Some. simpl. f_equal. apply mapM_Some_1 in Hns.
    induction Hns as [|v n l ns Hn _ IH]; simpl; [done|]. by rewrite (of_to_number _ _ Hn), IH.
  - intros [= <-]. simpl. f_equal. rewrite map_map. rewrite <- (map_id v) at 2. apply map_ext. by intros [].
Qed.

Definition flatten (m : Fields) : option (list (string * scalar)) :=
  mapM (λ kv : string * Value, s ← to_scalar kv.2; Some (kv.1, s)) m.
Definition unflatten (l : list (string * scalar)) : Fields :=
  map (λ kv, (kv.1, of_scalar kv.2)) l.
Lemma unflatten_flatten m l : flatten m = Some l → unflatten l = m.
Proof.
  unfold flatten, unflatten. revert l; induction m as [|[k v] m IH]; simpl; [by intros l [= <-]|].
  intros l Hl. destruct (to_scalar v) as [s|] eqn:E; [|done]. simpl in Hl.
  destruct (mapM _ m) as [l'|] eqn:Em; [|done]. injection Hl as <-. simpl.
  by rewrite (of_to_scalar _ _ E), (IH l').
Qed.

Section via_countable.
Context {A B : Type} `{Countable B} (f : A → option B) (g : B → A)
        (Hfg : ∀ a b, f a = Some b → g b = a).
Definition via_to_vec (a : A) : Result string bytes :=
  match f a with Some b => Ok (pos_bytes (encode b)) | None => Err "unsupported"%string end.
Definition via_from_slice (bs : bytes) : Result string A :=
  match (bytes_pos bs ≫= decode (A := B)) with Some b => Ok (g b) | None => Err "malformed"%string end.
Lemma via_roundtrip a bs : via_to_vec a = Ok bs → via_from_slice bs = Ok a.
Proof using Hfg.
  unfold via_to_vec, via_from_slice. destruct (f a) as [b|] eqn:E; [|done]. intros [= <-].
  rewrite bytes_pos_bytes. simpl. rewrite decode_encode. by rewrite (Hfg a b).
Qed.
Lemma via_nonempty a bs : via_to_vec a = Ok bs → bs ≠ [].
Proof. unfold via_to_vec. destruct (f a) as [b|]; [|done]. intros [= <-]. by destruct (encode b). Qed.
Definition via_to_str (a : A) : Result string string :=
  match f a with Some b => Ok (pos_string (encode b)) | None => Err "unsupported"%string end.
Definition via_from_str (s : string) : Result string A :=
  match (string_pos s ≫= decode (A := B)) with Some b => Ok (g b) | None => Err "malformed"%string end.
Lemma via_str_roundtrip a bs : via_to_str a = Ok bs → via_from_str bs = Ok a.
Proof using Hfg.
  unfold via_to_str, via_from_str. destruct (f a) as [b|] eqn:E; [|done]. intros [= <-].
  rewrite string_pos_string. simpl. rewrite decode_encode. by rewrite (Hfg a b).
Qed.
End via_countable.

Module MemCodec.
#[global] Instance fields : FieldsCodec := {|
  rmp_to_vec := via_to_vec flatten;
  rmp_from_slice := via_from_slice unflatten;
  json_to_string_pretty := via_to_str flatten;
  json_from_str := via_from_str unflatten
|}.
#[global] Instance fields_laws : FieldsCodecLaws.
Proof.
  split; intros; [by eapply (via_roundtrip flatten unflatten), H; apply unflatten_flatten
                 |by eapply (via_nonempty flatten), H
                 |by eapply (via_str_roundtrip flatten unflatten), H; apply unflatten_flatten].
Qed.

Definition def_tuple (d : IndexDefinition) : option (string * list string * bool * (unit + string + nat * string)) :=
  Some (ix_name d, ix_fields d, ix_unique d,
        match ix_kind d with
        | BTree => inl (inl tt) | FullText a => inl (inr a) | Vector n m => inr (n, m)
        end).
Definition tuple_def (t : string * list string * bool * (unit + string + nat * string)) : IndexDefinition :=
  let '(n, fs, u, k) := t in
  MkIndexDefinition n fs u
    match k with inl (inl _) => BTree | inl (inr a) => FullText a | inr (n, m) => Vector n m end.

#[global] Instance defs : DefCodec := {|
  def_to_vec := via_to_vec def_tuple;
  def_from_slice := via_from_slice tuple_def
|}.
#[global] Instance defs_laws : DefCodecLaws.
Proof.
  split. intros d b Hd. eapply (via_roundtrip def_tuple tuple_def), Hd.
  intros [? ? ? []] ? [= <-]; done.
Qed.
End MemCodec.

(** * Theorems about index keys

    Entry keys keep the order of the values they index, the id is recovered
    from them, and floats are ordered as IEEE compares them. *)

(** Lexicographic order of value tuples. *)
Fixpoint index_cmp_list (vs ws : list Value) : option comparison :=
  match vs, ws with
  | [], [] => Some Eq
  | v :: vs', w :: ws' =>
      c ← index_cmp v w;
      match c with Eq => index_cmp_list vs' ws' | _ => Some c end
  | _, _ => None
  end.

Lemma tuple_part_cmp vs ws rv rw r s c :
  Forall value_wf vs → Forall value_wf ws → index_cmp_list vs ws = Some c →
  traverse encode_index_value vs = Ok rv → traverse encode_index_value ws = Ok rw →
  ord_cmp (tuple_part rv ++ r) (tuple_part rw ++ s) = match c with Eq => ord_cmp r s | _ => c end.
Proof.
  intros Hv. revert ws rv rw. induction Hv as [|v vs Hv Hvs IH]; intros [|w ws] rv rw Hw Hc; try done.
  - injection Hc as <-. by intros [= <-] [= <-].
  - inversion Hw as [|? ? Hw1 Hw2]; subst. simpl in Hc.
    destruct (index_cmp v w) as [c1|] eqn:E1; [|done]. simpl in Hc.
    intros (x & Hx & (xs & Hxs & [= <-])%bind_Ok_inv)%bind_Ok_inv.
    intros (y & Hy & (ys & Hys & [= <-])%bind_Ok_inv)%bind_Ok_inv.
    rewrite !tuple_part_cons, <- !app_assoc.
    transitivity (ord_cmp (escape_into x ++ TERM ++ (tuple_part xs ++ r))
                          (escape_into y ++ TERM ++ (tuple_part ys ++ s))); [done|].
    rewrite escape_term_cmp, (encode_index_value_cmp v w x y c1) by done.
    destruct c1; [by apply (IH ws)|by injection Hc as <-..].
Qed.

(** C27.  Index keys sort as the values they index: the entry keys of two tuples
    of pairwise comparable values compare as the tuples do, lexicographically
    (strings bytewise, integers and booleans numerically, floats by their total
    key), and entries of equal tuples compare by record id. *)
Theorem entry_key_order (ns db t n : string) (vs ws : list Value) (p q : bytes)
    (ida idb : string) (c : comparison) :
  Forall value_wf vs → Forall value_wf ws → index_cmp_list vs ws = Some c →
  encode_composite_key_part vs = Ok p → encode_composite_key_part ws = Ok q →
  ord_cmp (index_entry_key ns db t n p ida) (index_entry_key ns db t n q idb) =
  match c with Eq => ord_cmp (as_bytes ida) (as_bytes idb) | _ => c end.
Proof.
  intros Hv Hw Hc (rv & Hrv & ->)%encode_composite_Ok (rw & Hrw & ->)%encode_composite_Ok.
  rewrite !index_entry_key_shape, list_cmp_app.
  by apply (tuple_part_cmp vs ws rv rw).
Qed.

Lemma entry_key_order_witness :
  ord_cmp (index_entry_key "n" "d" "t" "i" (escape_into (encode_i64 (-5)) ++ TERM ++ as_bytes "b" ++ TERM) "z")
          (index_entry_key "n" "d" "t" "i" (escape_into (encode_i64 3) ++ TERM ++ as_bytes "a" ++ TERM) "a")
  = Lt.
Proof.
  apply (entry_key_order "n" "d" "t" "i" [VInt (-5); VString "b"] [VInt 3; VString "a"]
           _ _ "z" "a" Lt); [repeat constructor; simpl; unfold i64_range; lia
    |repeat constructor; simpl; unfold i64_range; lia|reflexivity|reflexivity|reflexivity].
Defined.

(** Recovering the id: from the entry key of any tuple of indexable values
    and any record id, [id_from_entry] with the length of the index prefix and
    the number of fields returns the record id, whatever bytes (terminator-like
    ones included) the values contain. *)
Theorem id_from_entry_roundtrip (ns db t n : string) (vs : list Value) (p : bytes) (id : string) :
  vs ≠ [] → is_str id → encode_composite_key_part vs = Ok p →
  id_from_entry (index_entry_key ns db t n p id) (length (index_prefix ns db t n)) (length vs)
  = Some id.
Proof.
  intros Hne Hid (raws & Hr & ->)%encode_composite_Ok.
  rewrite index_entry_key_shape. apply traverse_length in Hr as Hl. rewrite <- Hl.
  apply id_from_entry_tuple; [|done]. intros ->. by destruct vs.
Qed.

Lemma id_from_entry_roundtrip_witness :
  id_from_entry (index_entry_key "n" "d" "t" "i"
                   (tuple_part [[x00; x01; x61]; [x00; xff]]) "rec")
    (length (index_prefix "n" "d" "t" "i")) 2 = Some "rec"%string.
Proof.
  apply (id_from_entry_roundtrip "n" "d" "t" "i"
    [VString (str_of_bytes [x00; x01; x61]); VString (str_of_bytes [x00; xff])] _ "rec");
    [discriminate|reflexivity|reflexivity].
Defined.

(** Float keys follow IEEE order: for non-NaN floats the encoding is
    strictly increasing where [partial_cmp] says less, and floats that compare
    equal have the same encoding unless they are the two zeros, which are kept
    apart with the negative one first. *)
Theorem float_key_order (a b : f64) (c : comparison) :
  f64_wf a → f64_wf b → f64_partial_cmp a b = Some c →
  match c with
  | Eq => encode_f64 a = encode_f64 b ∨ (f64_rank a = 0%Z ∧ f64_rank b = 0%Z)
  | c => ord_cmp (encode_f64 a) (encode_f64 b) = c
  end.
Proof.
  intros Ha Hb. unfold f64_partial_cmp. destruct (is_nan a || is_nan b); [done|]. intros [= <-].
  rewrite encode_f64_cmp by done.
  destruct (Z.compare_spec (f64_rank a) (f64_rank b)) as [E|Hlt|Hlt].
  - destruct (decide (f64_key a = f64_key b)) as [Ek|Hne].
    + left. by rewrite !encode_f64_key, Ek.
    + right. revert E Hne. unfold f64_rank, f64_key.
      pose proof (magnitude_range a). pose proof (magnitude_range b).
      destruct (is_sign_negative a), (is_sign_negative b); lia.
  - apply f64_key_rank in Hlt. by apply Z.compare_lt_iff.
  - apply f64_key_rank in Hlt. by apply Z.compare_gt_iff.
Qed.

Lemma float_key_order_witness :
  ord_cmp (encode_f64 (F64 0xBFF0000000000000)) (encode_f64 (F64 0x3FF0000000000000)) = Lt.
Proof.
  apply (float_key_order (F64 0xBFF0000000000000) (F64 0x3FF0000000000000) Lt);
    [unfold f64_wf; simpl; lia|unfold f64_wf; simpl; lia|reflexivity].
Defined.

(** ** Values that collide or separate *)

(** Encodings are injective only within one type: an indexed string and an
    indexed boolean share an encoding, and the two zeros, which the value
    equality identifies, have different ones; equality lookups therefore differ
    from equality filters on such values. *)
Theorem encodings_not_faithful :
  (encode_index_value (VString (String "001" "")) = encode_index_value (VBool true) ∧
   Values.eqb (VString (String "001" "")) (VBool true) = false) ∧
  (encode_index_value (VFloat (F64 0)) ≠ encode_index_value (VFloat (F64 (2 ^ 63))) ∧
   Values.eqb (VFloat (F64 0)) (VFloat (F64 (2 ^ 63))) = true).
Proof. split; split; try reflexivity. vm_compute. discriminate. Qed.
