(* ===== verification/Collection.v ===== *)
(** * Collections (crates/document/src/collection.rs)

    Document CRUD with secondary-index maintenance over the storage
    interface. *)

From S2P Require Export Core Key Kv Document Index.

Record Collection := MkCollection {
  co_ns : string;
  co_db : string;
  co_table : string;
  co_schema : option TableDefinition;
  co_indexes : list IndexDefinition
}.

Module Collections.
Definition new (ns db table : string) : Collection := MkCollection ns db table None [].
Definition with_schema (self : Collection) (schema : TableDefinition) : Collection :=
  MkCollection (co_ns self) (co_db self) (co_table self) (Some schema) (co_indexes self).
Definition with_index (self : Collection) (index : IndexDefinition) : Collection :=
  MkCollection (co_ns self) (co_db self) (co_table self) (co_schema self)
    (co_indexes self ++ [index]).
Definition with_indexes (self : Collection) (indexes : list IndexDefinition) : Collection :=
  MkCollection (co_ns self) (co_db self) (co_table self) (co_schema self) indexes.
Definition indexes (self : Collection) : list IndexDefinition := co_indexes self.

Definition doc_key (self : Collection) (id : string) : bytes :=
  document_key (co_ns self) (co_db self) (co_table self) id.
Definition entries (self : Collection) (doc : Document) : result kvs :=
  build_index_entries doc (co_ns self) (co_db self) (co_table self) (co_indexes self).

(** [if let Some(schema) = &self.schema { validate_document(..)? }]. *)
Definition validate (self : Collection) (doc : Document) : result unit :=
  match co_schema self with
  | Some schema => validate_document doc schema
  | None => Ok tt
  end.

Definition not_found (id : string) : Error := NotFound ("record not found: " ++ id).

Section ops.
Context {S : Type} `{KvStore S} `{FieldsCodec} `{DefCodec}.

Definition load (ns db table : string) : M S Collection :=
  indexes ← load_index_definitions ns db table;
  mret (MkCollection ns db table None indexes).

(** *** Read *)
Definition get (self : Collection) (id : string) : M S (option Document) :=
  r ← DllbStorage.get (doc_key self id);
  match r with
  | Some b =>
      doc ← lift (deserialize (RecordIds.new (co_table self) id) b);
      mret (Some doc)
  | None => mret None
  end.

(** [std::str::from_utf8(parts.remainder).map_err(..)]. *)
Definition utf8_err (b : bytes) : result string :=
  ok_or (from_utf8 b) (Storage "{utf8 error}").

Definition scan_all (self : Collection) : M S (list Document) :=
  let prefix := table_prefix (co_ns self) (co_db self) (co_table self) tag.DOCUMENT in
  entries ← DllbStorage.prefix_scan prefix;
  lift (traverse (λ kv : bytes * bytes,
    parts ← parse_key kv.1;
    id_str ← utf8_err (kp_remainder parts);
    deserialize (RecordIds.new (co_table self) id_str) kv.2) entries).

Definition scan_ids (self : Collection) : M S (list string) :=
  let prefix := table_prefix (co_ns self) (co_db self) (co_table self) tag.DOCUMENT in
  keys ← DllbStorage.scan_prefix_keys prefix;
  lift (traverse (λ k, parts ← parse_key k; utf8_err (kp_remainder parts)) keys).

Definition count (self : Collection) : M S nat :=
  DllbStorage.count_prefix
    (table_prefix (co_ns self) (co_db self) (co_table self) tag.DOCUMENT).

(** The loop of [get_many] over [ids.iter().zip(values)]. *)
Fixpoint decode_found (self : Collection) (l : list (string * option bytes)) :
    result (list Document) :=
  match l with
  | [] => Ok []
  | (id, Some b) :: l' =>
      doc ← deserialize (RecordIds.new (co_table self) id) b;
      docs ← decode_found self l'; Ok (doc :: docs)
  | (_, None) :: l' => decode_found self l'
  end.

Definition get_many (self : Collection) (ids : list string) : M S (list Document) :=
  if bool_decide (ids = []) then mret []
  else
    values ← DllbStorage.multi_get (map (doc_key self) ids);
    lift (decode_found self (zip ids values)).

(** *** Create *)

(** Unique checks for every index whose tuple is complete. *)
Definition check_unique_all (self : Collection) (doc : Document) (id : string) : M S unit :=
  for_each (λ idx,
    if ix_unique idx then
      match collect_index_values doc idx with
      | Some values =>
          check_unique_constraint (co_ns self) (co_db self) (co_table self) idx values id
      | None => mret tt
      end
    else mret tt) (co_indexes self).

Definition create_inner (self : Collection) (id : string) (doc : Document) : M S RecordId :=
  _ ← lift (validate self doc);
  exists_ ← DllbStorage.contains (doc_key self id);
  if exists_ : bool then throw (Other ("record already exists: " ++ id))
  else
    _ ← check_unique_all self doc id;
    doc_bytes ← lift (serialize doc);
    idx_entries ← lift (entries self doc);
    _ ← DllbStorage.put_batch ((doc_key self id, doc_bytes) :: idx_entries);
    mret (doc_id doc).

Definition create (self : Collection) (doc : Document) : M S RecordId :=
  create_inner self (rid_id (doc_id doc)) doc.

Definition set_id (self : Collection) (id : string) (doc : Document) : Document :=
  MkDocument (RecordIds.new (co_table self) id) (doc_fields doc).

Definition create_with_id (self : Collection) (id : string) (doc : Document) : M S RecordId :=
  create_inner self id (set_id self id doc).

Definition create_to_ops (self : Collection) (id : string) (doc : Document) :
    result (RecordId * kvs) :=
  let doc := set_id self id doc in
  _ ← validate self doc;
  doc_bytes ← serialize doc;
  idx_entries ← entries self doc;
  Ok (doc_id doc, (doc_key self id, doc_bytes) :: idx_entries).

(** *** Update *)
Definition replace_with_indexes (self : Collection) (id : string) (old new : Document) : M S unit :=
  doc_bytes ← lift (serialize new);
  old_idx ← lift (entries self old);
  new_idx ← lift (entries self new);
  DllbStorage.write_batch ((doc_key self id, doc_bytes) :: new_idx) (map fst old_idx).

Definition update (self : Collection) (id : string) (fields : Fields) : M S unit :=
  o ← get self id;
  old ← lift (ok_or o (not_found id));
  let new_doc := MkDocument (doc_id old) fields in
  _ ← lift (validate self new_doc);
  replace_with_indexes self id old new_doc.

Definition merge_fields (old : Document) (fields : Fields) : Document :=
  MkDocument (doc_id old) (oextend (doc_fields old) fields).

Definition merge (self : Collection) (id : string) (fields : Fields) : M S unit :=
  o ← get self id;
  old ← lift (ok_or o (not_found id));
  let new_doc := merge_fields old fields in
  _ ← lift (validate self new_doc);
  replace_with_indexes self id old new_doc.

Definition upsert (self : Collection) (id : string) (doc : Document) (update_fields : Fields) :
    M S (RecordId * bool) :=
  exists_ ← DllbStorage.contains (doc_key self id);
  if exists_ : bool then
    _ ← merge self id update_fields;
    mret (RecordIds.new (co_table self) id, false)
  else
    created_id ← create_inner self id doc;
    mret (created_id, true).

Definition upsert_to_ops (self : Collection) (id : string) (doc : Document)
    (update_fields : Fields) : M S (RecordId * bool * kvs * list bytes) :=
  exists_ ← DllbStorage.contains (doc_key self id);
  if exists_ : bool then
    o ← get self id;
    old ← lift (ok_or o (not_found id));
    let new_doc := merge_fields old update_fields in
    _ ← lift (validate self new_doc);
    new_bytes ← lift (serialize new_doc);
    old_idx ← lift (entries self old);
    new_idx ← lift (entries self new_doc);
    mret (RecordIds.new (co_table self) id, false,
          (doc_key self id, new_bytes) :: new_idx, map fst old_idx)
  else
    '(record_id, put_ops) ← lift (create_to_ops self id doc);
    mret (record_id, true, put_ops, []).

(** *** Delete *)
Definition delete (self : Collection) (id : string) : M S bool :=
  o ← get self id;
  match o with
  | None => mret false
  | Some doc =>
      idx_entries ← lift (entries self doc);
      _ ← DllbStorage.delete_batch (doc_key self id :: map fst idx_entries);
      mret true
  end.

(** *** Index queries *)
Definition find_ids_by_index (self : Collection) (index_name : string) (value : Value) :
    M S (list string) :=
  Index.find_by_index (co_ns self) (co_db self) (co_table self) index_name value.

Definition find_by_index (self : Collection) (index_name : string) (value : Value) :
    M S (list Document) :=
  ids ← find_ids_by_index self index_name value;
  get_many self ids.

Definition find_ids_by_range (self : Collection) (index_name : string)
    (lower upper : option RangeBound) : M S (list string) :=
  Index.find_ids_by_range (co_ns self) (co_db self) (co_table self) index_name lower upper.

Definition find_ids_for_scan (self : Collection) (index_name : string) (eq : list Value)
    (lower upper : option RangeBound) (field_count : nat) : M S (list string) :=
  find_ids (co_ns self) (co_db self) (co_table self) index_name eq lower upper field_count.
End ops.
End Collections.
