(* ===== verification/Crud.v ===== *)
(** * Index consistency

    The invariant that ties the stored documents of a collection to its index
    entries, its preservation by every collection operation, and the
    exactness of index lookups that follows from it. *)

From S2P Require Export Collection.

(** ** Entries of a document *)
Lemma collect_values_length doc fs vs :
  collect_values doc fs = Some vs → length vs = length fs.
Proof.
  revert vs; induction fs as [|f fs IH]; intros vs; simpl; [by intros [= <-]|].
  destruct (oget f (doc_fields doc)) as [v|]; [|done].
  destruct (Values.is_none v); [done|].
  destruct (collect_values doc fs) as [vs'|]; [|done].
  intros [= <-]. simpl. by rewrite (IH vs').
Qed.

Lemma collect_index_values_length doc idx vs :
  collect_index_values doc idx = Some vs → length vs = length (ix_fields idx) ∧ vs ≠ [].
Proof.
  unfold collect_index_values. destruct (ix_fields idx) as [|f fs] eqn:E; [done|].
  intros Hc. apply collect_values_length in Hc. split; [done|]. by intros ->.
Qed.

(** [k] is the entry of [doc] in [idx]. *)
Definition entry_of (coll : Collection) (doc : Document) (idx : IndexDefinition) (k : bytes) : Prop :=
  ∃ vs raws, collect_index_values doc idx = Some vs ∧ traverse encode_index_value vs = Ok raws ∧
    k = index_prefix (co_ns coll) (co_db coll) (co_table coll) (ix_name idx) ++
        tuple_part raws ++ as_bytes (rid_id (doc_id doc)).

Lemma entries_elem coll doc es k :
  Collections.entries coll doc = Ok es →
  k ∈ map fst es ↔
  ∃ idx, idx ∈ co_indexes coll ∧ IndexDefinitions.is_btree idx = true ∧ entry_of coll doc idx k.
Proof.
  unfold Collections.entries. generalize (co_indexes coll). intros ixs.
  revert es; induction ixs as [|idx ixs IH]; intros es; simpl.
  { intros [= <-]. split; [by intros ?%elem_of_nil|by intros (? & ?%elem_of_nil & _)]. }
  assert (∀ es' : kvs, (k ∈ map fst es' ↔ ∃ i, i ∈ ixs ∧ IndexDefinitions.is_btree i = true ∧
                   entry_of coll doc i k) →
    (IndexDefinitions.is_btree idx = true → ¬ entry_of coll doc idx k) →
    k ∈ map fst es' ↔ ∃ i, i ∈ idx :: ixs ∧ IndexDefinitions.is_btree i = true ∧
                   entry_of coll doc i k) as Hskip.
  { intros es' -> Hn. split; [intros (i & ? & ?); exists i; by rewrite elem_of_cons; auto|].
    intros (i & [->|Hi]%elem_of_cons & Hb & He); [by destruct (Hn Hb He)|eauto]. }
  destruct (IndexDefinitions.is_btree idx) eqn:Hb; simpl; [|by intros; apply Hskip; [apply IH|]].
  case_bool_decide; [done|].
  destruct (collect_index_values doc idx) as [vs|] eqn:Hc.
  2:{ intros He. apply Hskip; [by apply IH|]. intros _ (vs & ? & ? & _). congruence. }
  intros (p & Hp & (es' & He & [= <-])%bind_Ok_inv)%bind_Ok_inv. simpl.
  apply encode_composite_Ok in Hp as (raws & Hr & ->).
  rewrite elem_of_cons, (IH _ He), index_entry_key_shape. split.
  - intros [->|(idx' & ? & ? & ?)].
    + exists idx. rewrite elem_of_cons. split_and!; [auto|done|]. by exists vs, raws.
    + exists idx'. rewrite elem_of_cons. auto.
  - intros (idx' & [->|Hin]%elem_of_cons & Hb' & He').
    + left. destruct He' as (vs' & raws' & ? & ? & ->). congruence.
    + right. eauto.
Qed.

(** ** The collection's well-formedness *)
Record coll_wf (coll : Collection) : Prop := {
  wf_ns : seg_ok (co_ns coll);
  wf_db : seg_ok (co_db coll);
  wf_table : seg_ok (co_table coll);
  wf_names : ∀ idx, idx ∈ co_indexes coll → seg_ok (ix_name idx);
  (** Index names identify the catalog entry. *)
  wf_unique_names : ∀ i1 i2, i1 ∈ co_indexes coll → i2 ∈ co_indexes coll →
    ix_name i1 = ix_name i2 → i1 = i2
}.

Definition index_region (coll : Collection) (k : bytes) : Prop :=
  ∃ idx, idx ∈ co_indexes coll ∧ IndexDefinitions.is_btree idx = true ∧
    index_prefix (co_ns coll) (co_db coll) (co_table coll) (ix_name idx) `prefix_of` k.

Section keys.
Context (coll : Collection) (Hwf : coll_wf coll).

Lemma doc_key_inj id1 id2 : Collections.doc_key coll id1 = Collections.doc_key coll id2 → id1 = id2.
Proof.
  unfold Collections.doc_key. rewrite !document_key_shape. intros E.
  apply app_inv_head in E. injection E as E. by apply (inj as_bytes).
Qed.

Lemma entry_in_region doc idx k :
  idx ∈ co_indexes coll → IndexDefinitions.is_btree idx = true →
  entry_of coll doc idx k → index_region coll k.
Proof.
  intros Hin Hb (vs & raws & _ & _ & ->). exists idx. split_and!; [done..|].
  by apply prefix_app_r.
Qed.

Lemma region_not_doc k id : index_region coll k → k ≠ Collections.doc_key coll id.
Proof.
  intros (idx & Hin & Hb & r & ->) E. unfold Collections.doc_key in E.
  rewrite document_key_shape, index_prefix_shape in E. rewrite <- app_assoc in E.
  apply app_inv_head in E. simpl in E. injection E as E _.
  by apply (f_equal Byte.to_N) in E.
Qed.

Lemma region_not_doc_prefix k :
  index_region coll k →
  ¬ table_prefix (co_ns coll) (co_db coll) (co_table coll) tag.DOCUMENT `prefix_of` k.
Proof.
  intros (idx & Hin & Hb & r & ->) [r' E].
  rewrite index_prefix_shape, table_prefix_shape, <- !app_assoc in E.
  apply app_inv_head in E. simpl in E. injection E as E _.
  by apply (f_equal Byte.to_N) in E.
Qed.

Lemma prefix_name_inj n1 n2 r1 r2 :
  seg_ok n1 → seg_ok n2 →
  index_prefix (co_ns coll) (co_db coll) (co_table coll) n1 ++ r1 =
  index_prefix (co_ns coll) (co_db coll) (co_table coll) n2 ++ r2 → n1 = n2 ∧ r1 = r2.
Proof.
  intros H1 H2 E. rewrite !index_prefix_shape, <- !app_assoc in E.
  apply app_inv_head in E. simpl in E. rewrite <- !app_assoc in E. injection E as E.
  by apply seg_inj in E.
Qed.

(** Entries of documents with different ids are different keys. *)
Lemma entry_of_same_id d1 d2 i1 i2 k :
  i1 ∈ co_indexes coll → i2 ∈ co_indexes coll →
  entry_of coll d1 i1 k → entry_of coll d2 i2 k →
  rid_id (doc_id d1) = rid_id (doc_id d2) ∧ i1 = i2.
Proof.
  intros Hin1 Hin2 (vs1 & r1 & Hc1 & Ht1 & ->) (vs2 & r2 & Hc2 & Ht2 & E).
  apply prefix_name_inj in E as [En E]; [|by apply (wf_names _ Hwf)..].
  apply (wf_unique_names _ Hwf) in En; [|done..]. subst i2.
  apply collect_index_values_length in Hc1 as [L1 _], Hc2 as [L2 _].
  apply traverse_length in Ht1, Ht2.
  apply tuple_part_inj in E as [_ E]; [|congruence]. by apply (inj as_bytes) in E.
Qed.
End keys.

(** ** The invariant *)
Section invariant.
Context `{FieldsCodec}.

(** The document stored under [id]. *)
Definition stored (c : OMap bytes bytes) (coll : Collection) (id : string) : option Document :=
  b ← oget (Collections.doc_key coll id) c;
  ok (deserialize (RecordIds.new (co_table coll) id) b).

Record coll_inv (c : OMap bytes bytes) (coll : Collection) : Prop := {
  (** Stored documents decode and their fields can be indexed. *)
  inv_docs : ∀ id b, oget (Collections.doc_key coll id) c = Some b →
    ∃ doc es, deserialize (RecordIds.new (co_table coll) id) b = Ok doc ∧
              Collections.entries coll doc = Ok es;
  (** Every key of the document region is the key of a record id. *)
  inv_ids : ∀ k v, oget k c = Some v →
    table_prefix (co_ns coll) (co_db coll) (co_table coll) tag.DOCUMENT `prefix_of` k →
    ∃ id, is_str id ∧ k = Collections.doc_key coll id;
  (** The index regions hold exactly the entries of the stored documents. *)
  inv_entries : ∀ k, index_region coll k →
    (is_Some (oget k c) ↔
     ∃ id doc es, stored c coll id = Some doc ∧ Collections.entries coll doc = Ok es ∧
                  k ∈ map fst es)
}.

Lemma deserialize_id rid b doc : deserialize rid b = Ok doc → doc_id doc = rid.
Proof. unfold deserialize. by intros (fs & _ & [= <-])%bind_Ok_inv. Qed.

Lemma stored_id c coll id doc : stored c coll id = Some doc → rid_id (doc_id doc) = id.
Proof.
  unfold stored. destruct (oget _ c) as [b|]; simpl; [|done].
  destruct (deserialize _ b) eqn:E; [|done]. intros [= <-].
  by rewrite (deserialize_id _ _ _ E).
Qed.

Lemma stored_is_str c coll id doc : coll_inv c coll → stored c coll id = Some doc → is_str id.
Proof.
  intros Hinv. unfold stored. destruct (oget _ c) as [b|] eqn:Eg; simpl; [|done]. intros _.
  destruct (inv_ids _ _ Hinv _ _ Eg) as (id' & Hs & E).
  - unfold Collections.doc_key. rewrite document_key_shape, table_prefix_shape.
    exists (as_bytes id). by rewrite <- app_assoc.
  - apply doc_key_inj in E. by subst.
Qed.

Definition entries_or_nil (coll : Collection) (o : option Document) (es : kvs) : Prop :=
  match o with Some doc => Collections.entries coll doc = Ok es | None => es = [] end.

(** The documents stored are those before, except that [id] now holds [new];
    nothing outside the document and index regions of the table changes. *)
Record written (coll : Collection) (c : OMap bytes bytes) (id : string) (new : option Document)
    (c' : OMap bytes bytes) : Prop := {
  wr_id : stored c' coll id = new;
  wr_other : ∀ id', id' ≠ id → stored c' coll id' = stored c coll id';
  wr_frame : ∀ k, k ≠ Collections.doc_key coll id → ¬ index_region coll k → oget k c' = oget k c
}.

Lemma entries_regional coll o es k : entries_or_nil coll o es → k ∈ map fst es → index_region coll k.
Proof.
  destruct o as [doc|]; simpl; intros He Hin; [|subst; set_solver].
  apply (entries_elem _ _ _ k He) in Hin as (idx & ? & ? & ?). by eapply entry_in_region.
Qed.
(** Documents with different ids have no index entry in common. *)
Lemma entries_disjoint c coll id id' doc' es' o es k : coll_wf coll → id' ≠ id →
  stored c coll id' = Some doc' → Collections.entries coll doc' = Ok es' → k ∈ map fst es' →
  entries_or_nil coll o es → (∀ d, o = Some d → rid_id (doc_id d) = id) → k ∉ map fst es.
Proof.
  intros Hwf Hne Hs' He' Hk He Ho Hin. destruct o as [d|]; simpl in He; [|subst; set_solver].
  apply (entries_elem _ _ _ k He) in Hin as (i1 & Hi1 & _ & Ho1).
  apply (entries_elem _ _ _ k He') in Hk as (i2 & Hi2 & _ & Ho2).
  destruct (entry_of_same_id coll Hwf _ _ _ _ _ Hi1 Hi2 Ho1 Ho2) as [E _].
  rewrite (Ho d eq_refl), (stored_id _ _ _ _ Hs') in E. congruence.
Qed.

(** A write that replaces the document [id] and its entries keeps the
    invariant. *)
Lemma inv_write c c' coll id new old_es new_es :
  coll_wf coll → is_str id → coll_inv c coll →
  entries_or_nil coll (stored c coll id) old_es → entries_or_nil coll new new_es →
  (∀ k, k ≠ Collections.doc_key coll id → k ∉ map fst new_es → k ∉ map fst old_es →
        oget k c' = oget k c) →
  (∀ k, k ∈ map fst new_es → is_Some (oget k c')) →
  (∀ k, k ∈ map fst old_es → k ∉ map fst new_es → oget k c' = None) →
  match new with
  | Some doc => ∃ b, oget (Collections.doc_key coll id) c' = Some b ∧
                     deserialize (RecordIds.new (co_table coll) id) b = Ok doc
  | None => oget (Collections.doc_key coll id) c' = None
  end →
  coll_inv c' coll ∧ written coll c id new c'.
Proof.
  intros Hwf Hid Hinv Hold Hnew Hother Hput Hdel Hdoc.
  assert (Hsame : ∀ id', id' ≠ id →
            oget (Collections.doc_key coll id') c' = oget (Collections.doc_key coll id') c).
  { intros id' Hne. apply Hother.
    - intros E. by apply doc_key_inj in E.
    - intros Hin. by eapply region_not_doc; [eapply (entries_regional coll new)|].
    - intros Hin. by eapply region_not_doc; [eapply (entries_regional coll (stored c coll id))|]. }
  assert (Hst : ∀ id', id' ≠ id → stored c' coll id' = stored c coll id').
  { intros id' Hne. unfold stored. by rewrite Hsame. }
  assert (Hst_id : stored c' coll id = new).
  { unfold stored. destruct new as [doc|]; [|by rewrite Hdoc].
    destruct Hdoc as (b & -> & Hb). simpl. by rewrite Hb. }
  split; [|split; [done|done|]; intros k Hk Hnr; apply Hother; eauto using entries_regional].
  split.
  - intros id' b Hb. destruct (decide (id' = id)) as [->|Hne].
    + destruct new as [doc|]; [|congruence]. destruct Hdoc as (b' & Hb' & Hd).
      exists doc, new_es. split; [congruence|done].
    + rewrite Hsame in Hb by done. by apply (inv_docs _ _ Hinv).
  - intros k v Hk Hp. destruct (decide (k = Collections.doc_key coll id)) as [->|Hne]; [eauto|].
    assert (∀ o es, entries_or_nil coll o es → k ∉ map fst es) as Hn.
    { intros o es He Hin. eapply region_not_doc_prefix; [eapply entries_regional|]; eauto. }
    rewrite Hother in Hk; eauto. by eapply (inv_ids _ _ Hinv).
  - intros k Hk. pose proof (λ i, region_not_doc coll k i Hk) as Hnd.
    pose proof (inv_entries _ _ Hinv k Hk) as Hiff. split.
    + intros Hsome. destruct (decide (k ∈ map fst new_es)) as [Hin|Hn].
      { destruct new as [doc|]; simpl in Hnew; [|subst; set_solver]. by exists id, doc, new_es. }
      destruct (decide (k ∈ map fst old_es)) as [Ho|Ho].
      { rewrite (Hdel k Ho Hn) in Hsome. by destruct Hsome. }
      rewrite Hother in Hsome by auto.
      apply Hiff in Hsome as (id' & doc' & es' & Hs' & He' & Hin').
      exists id', doc', es'. split; [|done]. rewrite Hst; [done|]. intros ->.
      rewrite Hs' in Hold. simpl in Hold. congruence.
    + intros (id' & doc' & es' & Hs' & He' & Hin').
      destruct (decide (id' = id)) as [->|Hne].
      * rewrite Hst_id in Hs'. rewrite Hs' in Hnew. simpl in Hnew. apply Hput. rewrite He' in Hnew. by injection Hnew as <-.
      * rewrite Hst in Hs' by done. rewrite Hother; [apply Hiff; eauto 10|done| |].
        -- eapply entries_disjoint; eauto. intros d ->. by eapply stored_id.
        -- eapply entries_disjoint; eauto. intros d Hd. by eapply stored_id.
Qed.
End invariant.

(** * Collection operations against the index invariant

    Every operation of a collection keeps the stored documents and the index
    entries consistent, and acts on the stored documents as its contract
    says, on success and on every error. *)

Section crud.
Context {S : Type} `{KL : KvLaws S} `{FL : FieldsCodecLaws} (coll : Collection) (Hwf : coll_wf coll).

Implicit Types (s : S) (doc : Document) (id : string).

Lemma entries_ext d1 d2 :
  rid_id (doc_id d1) = rid_id (doc_id d2) → doc_fields d1 = doc_fields d2 →
  Collections.entries coll d1 = Collections.entries coll d2.
Proof.
  intros Hid Hf. unfold Collections.entries.
  assert (∀ i, collect_index_values d1 i = collect_index_values d2 i) as Hc.
  { intros i. unfold collect_index_values. destruct (ix_fields i) as [|f fs]; [done|].
    generalize (f :: fs). induction l as [|g l IH]; [done|]. simpl. by rewrite Hf, IH. }
  induction (co_indexes coll) as [|idx ixs IH]; simpl; [done|]. by rewrite IH, Hc, Hid.
Qed.

Lemma set_id_ext doc id :
  rid_id (doc_id doc) = id →
  Collections.entries coll (Collections.set_id coll id doc) = Collections.entries coll doc.
Proof. intros <-. by apply entries_ext. Qed.

(** *** Reads *)
Lemma get_run s id :
  coll_inv (contents s) coll →
  Collections.get coll id s = (Ok (stored (contents s) coll id), s).
Proof.
  intros Hinv. unfold Collections.get, DllbStorage.get, stored.
  rewrite (SE_bind_ok _ _ s _ s (get_law _ s)).
  destruct (oget (Collections.doc_key coll id) (contents s)) as [b|] eqn:E; [|done].
  destruct (inv_docs _ _ Hinv _ _ E) as (doc & es & Hd & _). simpl.
  rewrite (SE_bind_ok _ _ s doc s); [by rewrite Hd|]. unfold lift. by rewrite Hd.
Qed.

Lemma stored_None_iff s id :
  coll_inv (contents s) coll →
  stored (contents s) coll id = None ↔ oget (Collections.doc_key coll id) (contents s) = None.
Proof.
  intros Hinv. unfold stored. destruct (oget _ _) as [b|] eqn:E; [|done].
  destruct (inv_docs _ _ Hinv _ _ E) as (doc & es & Hd & _). simpl. by rewrite Hd.
Qed.

Lemma contains_run s id :
  coll_inv (contents s) coll →
  DllbStorage.contains (Collections.doc_key coll id) s =
  (Ok (bool_decide (is_Some (stored (contents s) coll id))), s).
Proof.
  intros Hinv. unfold DllbStorage.contains. rewrite contains_law. do 2 f_equal.
  pose proof (stored_None_iff s id Hinv) as Hn. unfold ocontains.
  destruct (oget _ _), (stored _ _ _); try done; exfalso; naive_solver.
Qed.

Lemma stored_entries c id doc :
  coll_inv c coll → stored c coll id = Some doc → ∃ es, Collections.entries coll doc = Ok es.
Proof.
  unfold stored. intros Hinv. destruct (oget _ c) as [b|] eqn:E; [|done].
  destruct (inv_docs _ _ Hinv _ _ E) as (d & es & Hd & He). simpl. rewrite Hd. simpl.
  intros [= <-]. eauto.
Qed.

(** *** Writes *)

(** Deleting the old entries, then putting the document with its new ones. *)
Lemma put_written c id doc old_es new_es b :
  is_str id → coll_inv c coll → rid_id (doc_id doc) = id →
  entries_or_nil coll (stored c coll id) old_es →
  Collections.entries coll doc = Ok new_es → serialize doc = Ok b →
  let c' := oextend (odelete_all c (map fst old_es)) ((Collections.doc_key coll id, b) :: new_es) in
  coll_inv c' coll ∧ written coll c id (Some (Collections.set_id coll id doc)) c'.
Proof.
  intros Hs Hinv Hid Hold Hnew Hb c'.
  assert (Collections.doc_key coll id ∉ map fst new_es) as Hdk.
  { intros Hin. apply (entries_elem _ _ _ _ Hnew) in Hin as (i & Hi & Hbt & He).
    eapply region_not_doc; [|done]. by eapply entry_in_region. }
  apply (inv_write c c' coll id (Some (Collections.set_id coll id doc)) old_es new_es); try done.
  - simpl. by rewrite set_id_ext.
  - intros k Hk Hn Ho. unfold c'. rewrite oget_extend_notin by (simpl; set_solver).
    by apply oget_delete_all_notin.
  - intros k Hk. apply oget_extend_in. simpl. set_solver.
  - intros k Ho Hn. unfold c'. rewrite oget_extend_notin.
    + by apply oget_delete_all_in.
    + simpl. apply not_elem_of_cons. split; [|done]. intros ->.
      unfold entries_or_nil in Hold. destruct (stored c coll id) as [d|]; [|subst; set_solver].
      apply (entries_elem _ _ _ _ Hold) in Ho as (i & Hi & Hbt & He).
      eapply region_not_doc; [|done]. by eapply entry_in_region.
  - exists b. split.
    + apply oget_extend_same; [set_solver|]. intros v [|Hin]%elem_of_cons; [congruence|].
      destruct Hdk. apply list_elem_of_fmap. by exists (Collections.doc_key coll id, v).
    + pose proof (serialize_deserialize doc b Hb) as Hd. unfold deserialize in *.
      destruct (ser_err (rmp_from_slice b)); simpl in *; [|done]. injection Hd as <-. done.
Qed.

Lemma delete_written c id doc es :
  is_str id → coll_inv c coll → stored c coll id = Some doc →
  Collections.entries coll doc = Ok es →
  let c' := odelete_all c (Collections.doc_key coll id :: map fst es) in
  coll_inv c' coll ∧ written coll c id None c'.
Proof.
  intros Hs Hinv Hst He c'. apply (inv_write c c' coll id None es []); try done.
  - by rewrite Hst.
  - intros k Hk _ Ho. apply oget_delete_all_notin. set_solver.
  - set_solver.
  - intros k Ho _. apply oget_delete_all_in. set_solver.
  - apply oget_delete_all_in. set_solver.
Qed.

(** *** Index lookups *)

(** The tuple of raw encodings under which [doc] appears in [idx]. *)
Definition tuple_of (doc : Document) (idx : IndexDefinition) : option (list bytes) :=
  vs ← collect_index_values doc idx; ok (traverse encode_index_value vs).

Lemma tuple_of_Some doc idx raws :
  tuple_of doc idx = Some raws ↔
  ∃ vs, collect_index_values doc idx = Some vs ∧ traverse encode_index_value vs = Ok raws.
Proof.
  unfold tuple_of. split.
  - destruct (collect_index_values doc idx) as [vs|]; simpl; [|done].
    destruct (traverse encode_index_value vs) eqn:E; simpl; [|done]. intros [= <-]. eauto.
  - intros (vs & -> & Ht). simpl. by rewrite Ht.
Qed.

Lemma tuple_of_length doc idx raws :
  tuple_of doc idx = Some raws → length raws = length (ix_fields idx) ∧ raws ≠ [].
Proof.
  intros (vs & [Hc Hne]%collect_index_values_length & Ht%traverse_length)%tuple_of_Some.
  split; [congruence|]. intros ->. by destruct vs.
Qed.

Lemma entry_of_iff doc idx k :
  entry_of coll doc idx k ↔ ∃ raws, tuple_of doc idx = Some raws ∧
    k = index_prefix (co_ns coll) (co_db coll) (co_table coll) (ix_name idx) ++
        tuple_part raws ++ as_bytes (rid_id (doc_id doc)).
Proof.
  unfold entry_of. split.
  - intros (vs & raws & ? & ? & ->). exists raws. rewrite tuple_of_Some. eauto.
  - intros (raws & (vs & ? & ?)%tuple_of_Some & ->). eauto.
Qed.

(** The keys of an index region are the tuples of the stored documents. *)
Lemma region_iff c idx raws id :
  coll_inv c coll → idx ∈ co_indexes coll → IndexDefinitions.is_btree idx = true →
  length raws = length (ix_fields idx) →
  is_Some (oget (index_prefix (co_ns coll) (co_db coll) (co_table coll) (ix_name idx) ++
                 tuple_part raws ++ as_bytes id) c) ↔
  ∃ doc, stored c coll id = Some doc ∧ tuple_of doc idx = Some raws.
Proof.
  intros Hinv Hi Hb Hlen. rewrite (inv_entries _ _ Hinv).
  2:{ exists idx. split_and!; [done..|]. by apply prefix_app_r. }
  split.
  - intros (id' & doc & es & Hst & He & Hin).
    apply (entries_elem _ _ _ _ He) in Hin as (idx' & Hi' & Hb' & (raws' & Ht & E)%entry_of_iff).
    apply prefix_name_inj in E as [En E]; [|by apply (wf_names _ Hwf)..].
    apply (wf_unique_names _ Hwf) in En; [|done..]. subst idx'.
    pose proof (tuple_of_length _ _ _ Ht) as [L _].
    apply tuple_part_inj in E as [-> E]; [|congruence]. apply (inj as_bytes) in E.
    rewrite (stored_id _ _ _ _ Hst) in E. subst. eauto.
  - intros (doc & Hst & Ht). destruct (stored_entries _ _ _ Hinv Hst) as [es He].
    exists id, doc, es. split_and!; [done..|]. apply (entries_elem _ _ _ _ He).
    exists idx. split_and!; [done..|]. apply entry_of_iff. exists raws.
    by rewrite (stored_id _ _ _ _ Hst).
Qed.

Lemma region_wf_inv c idx :
  coll_inv c coll → idx ∈ co_indexes coll → IndexDefinitions.is_btree idx = true →
  region_wf c (index_prefix (co_ns coll) (co_db coll) (co_table coll) (ix_name idx))
    (length (ix_fields idx)).
Proof.
  intros Hinv Hi Hb k v Hk Hp.
  destruct (proj1 (inv_entries _ _ Hinv k ltac:(exists idx; eauto)) (mk_is_Some _ _ Hk))
    as (id & doc & es & Hst & He & Hin).
  apply (entries_elem _ _ _ _ He) in Hin as (idx' & Hi' & Hb' & (raws & Ht & E)%entry_of_iff).
  destruct Hp as [r Er]. rewrite Er in E.
  apply prefix_name_inj in E as [En E]; [|by apply (wf_names _ Hwf)..].
  apply (wf_unique_names _ Hwf) in En; [|done..]. subst idx'.
  exists raws, id. rewrite (stored_id _ _ _ _ Hst) in E. subst r.
  split_and!; [by apply tuple_of_length in Ht as []|by eapply stored_is_str|done].
Qed.

(** A lookup returns, each once, the ids of the stored documents whose tuple
    matches. *)
Lemma lookup_run s idx eq lower upper eqs rl ru :
  coll_inv (contents s) coll → idx ∈ co_indexes coll → IndexDefinitions.is_btree idx = true →
  ix_fields idx ≠ [] →
  traverse encode_index_value eq = Ok eqs → raw_bound_of lower rl → raw_bound_of upper ru →
  length eqs ≤ length (ix_fields idx) →
  (rl ≠ None ∨ ru ≠ None → length eqs < length (ix_fields idx)) →
  ∃ ids, find_ids (co_ns coll) (co_db coll) (co_table coll) (ix_name idx) eq lower upper
           (length (ix_fields idx)) s = (Ok ids, s) ∧ NoDup ids ∧
    ∀ id, id ∈ ids ↔ ∃ doc raws, stored (contents s) coll id = Some doc ∧
            tuple_of doc idx = Some raws ∧ tuple_matches eqs rl ru raws.
Proof.
  intros Hinv Hi Hb Hf Heq Hrl Hru Hlen Hlt.
  destruct (find_ids_run (co_ns coll) (co_db coll) (co_table coll) (ix_name idx) eq lower upper
    (length (ix_fields idx)) s eqs rl ru) as (ids & Hrun & Hids & Hnd); try done.
  { by destruct (ix_fields idx). }
  { by apply region_wf_inv. }
  exists ids. split; [done|]. split.
  - apply Hnd. intros id r1 r2 L1 L2 G1 G2.
    apply region_iff in G1 as (d1 & S1 & T1), G2 as (d2 & S2 & T2); [|done..]. congruence.
  - intros id. rewrite Hids. split.
    + intros (Hs & raws & Hr & Hm & Hg). apply region_iff in Hg as (doc & ? & ?); [|done..]. eauto.
    + intros (doc & raws & Hst & Ht & Hm). split; [by eapply stored_is_str|].
      pose proof (tuple_of_length _ _ _ Ht) as [L _]. exists raws. split_and!; [done..|].
      apply region_iff; eauto.
Qed.

(** *** Unique constraints *)

(** Another stored document holds the tuple of [doc] in the unique index. *)
Definition conflict_on (c : OMap bytes bytes) (id : string) (doc : Document)
    (idx : IndexDefinition) : Prop :=
  ∃ raws id' doc', tuple_of doc idx = Some raws ∧ stored c coll id' = Some doc' ∧ id' ≠ id ∧
    tuple_of doc' idx = Some raws.

Definition conflict (c : OMap bytes bytes) (id : string) (doc : Document) : Prop :=
  ∃ idx, idx ∈ co_indexes coll ∧ ix_unique idx = true ∧ conflict_on c id doc idx.

Lemma entries_tuple doc es idx vs :
  Collections.entries coll doc = Ok es → idx ∈ co_indexes coll →
  IndexDefinitions.is_btree idx = true → collect_index_values doc idx = Some vs →
  ∃ raws, traverse encode_index_value vs = Ok raws.
Proof.
  unfold Collections.entries. generalize (co_indexes coll). intros ixs.
  revert es; induction ixs as [|i ixs IH]; intros es He Hin Hb Hc; [by apply elem_of_nil in Hin|].
  simpl in He. apply elem_of_cons in Hin as [<-|Hin].
  - rewrite Hb, Hc in He. simpl in He. case_bool_decide; [done|].
    apply bind_Ok_inv in He as (p & (raws & Hr & _)%encode_composite_Ok & _). eauto.
  - destruct (IndexDefinitions.is_btree i); simpl in He; [|eauto].
    case_bool_decide; [done|]. destruct (collect_index_values doc i); [|eauto].
    apply bind_Ok_inv in He as (p & _ & (es' & He & _)%bind_Ok_inv). eauto.
Qed.

Lemma prefix_full {A} (l k : list A) : length l = length k → l `prefix_of` k → l = k.
Proof.
  intros Hl [r ->]. rewrite length_app in Hl. destruct r; [by rewrite app_nil_r|simpl in *; lia].
Qed.

Lemma check_unique_constraint_run s idx doc vs raws id :
  coll_inv (contents s) coll → idx ∈ co_indexes coll → IndexDefinitions.is_btree idx = true →
  ix_unique idx = true → collect_index_values doc idx = Some vs →
  traverse encode_index_value vs = Ok raws →
  ∃ r, check_unique_constraint (co_ns coll) (co_db coll) (co_table coll) idx vs id s = (r, s) ∧
    ((r = Ok tt ∧ ¬ conflict_on (contents s) id doc idx) ∨
     (∃ msg, r = Err (Schema msg)) ∧ conflict_on (contents s) id doc idx).
Proof.
  intros Hinv Hi Hb Hu Hc Hr. pose proof (proj2 (tuple_of_Some doc idx raws) ltac:(eauto)) as Ht.
  pose proof (tuple_of_length _ _ _ Ht) as [L Hne].
  destruct (lookup_run s idx vs None None raws None None) as (ids & Hrun & _ & Hids); try done.
  { by intros E; destruct (ix_fields idx), raws. }
  { lia. }
  { by intros []. }
  unfold check_unique_constraint. rewrite Hu. change (if negb true then ?x else ?y) with y.
  rewrite (SE_bind_ok _ _ s ids s Hrun).
  assert (∀ id', id' ∈ ids ↔ ∃ doc', stored (contents s) coll id' = Some doc' ∧
            tuple_of doc' idx = Some raws) as Hids'.
  { intros id'. rewrite Hids. split.
    - intros (d & raws' & Hst & Ht' & Hp & _). exists d. split; [done|].
      pose proof (tuple_of_length _ _ _ Ht') as [L' _].
      apply prefix_full in Hp; [congruence|congruence].
    - intros (d & Hst & Ht'). exists d, raws. split_and!; [done..|]. split; [done|].
      by rewrite lookup_ge_None_2 by lia. }
  destruct (find _ ids) as [id'|] eqn:Ef.
  - apply find_some in Ef as [Hin Hn]. apply list_elem_of_In, Hids' in Hin as (d & Hst & Ht').
    apply negb_true_iff, String.eqb_neq in Hn. eexists. split; [done|]. right.
    split; [eauto|]. by exists raws, id', d.
  - exists (Ok tt). split; [done|]. left. split; [done|]. intros (raws' & id' & d & Ht2 & Hst & Hn & Ht').
    assert (id' ∈ ids) as Hin by (apply Hids'; exists d; split; congruence).
    apply list_elem_of_In in Hin. pose proof (find_none _ _ Ef _ Hin) as Hf.
    by apply negb_false_iff, String.eqb_eq in Hf.
Qed.

(** Only BTree indexes are declared unique. *)
Definition unique_btree : Prop :=
  ∀ idx, idx ∈ co_indexes coll → ix_unique idx = true → IndexDefinitions.is_btree idx = true.

(** The check is read-only, passes exactly when no other document conflicts,
    and reports a schema error otherwise, for every document that can be
    indexed. *)
Lemma check_unique_all_run s doc es id :
  unique_btree → coll_inv (contents s) coll → Collections.entries coll doc = Ok es →
  ∃ r, Collections.check_unique_all coll doc id s = (r, s) ∧
    ((r = Ok tt ∧ ¬ conflict (contents s) id doc) ∨
     (∃ msg, r = Err (Schema msg)) ∧ conflict (contents s) id doc).
Proof.
  intros Hub Hinv He. unfold Collections.check_unique_all, conflict.
  assert (∀ i, i ∈ co_indexes coll → i ∈ co_indexes coll) as Hsub by done.
  revert Hsub. generalize (co_indexes coll) at 1 3 4 5. intros ixs Hsub.
  induction ixs as [|idx ixs IH]; simpl.
  { exists (Ok tt). split; [done|]. left. split; [done|]. by intros (? & ?%elem_of_nil & _). }
  destruct IH as (r & Hrun & Hr); [intros; apply Hsub; by right|].
  assert (∀ P : Prop, (P ↔ ∃ i, i ∈ ixs ∧ ix_unique i = true ∧ conflict_on (contents s) id doc i) →
    ¬ (ix_unique idx = true ∧ conflict_on (contents s) id doc idx) →
    P ↔ ∃ i, i ∈ idx :: ixs ∧ ix_unique i = true ∧ conflict_on (contents s) id doc i) as Hext.
  { intros P -> Hn. split; [intros (i & ? & ?); exists i; by rewrite elem_of_cons; auto|].
    intros (i & [->|Hin]%elem_of_cons & Hi); [by destruct Hn|eauto]. }
  destruct (ix_unique idx) eqn:Hu.
  2:{ rewrite (SE_bind_ok _ _ s tt s) by done. exists r. split; [done|].
      rewrite <- (Hext _ (iff_refl _)) by naive_solver. done. }
  destruct (collect_index_values doc idx) as [vs|] eqn:Hc.
  2:{ rewrite (SE_bind_ok _ _ s tt s) by done. exists r. split; [done|].
      rewrite <- (Hext _ (iff_refl _)); [done|]. intros [_ (raws & id' & d & Ht & _)].
      apply tuple_of_Some in Ht as (? & ? & _). congruence. }
  assert (idx ∈ co_indexes coll) as Hin by (apply Hsub; left).
  destruct (entries_tuple doc es idx vs) as [raws Hraws]; auto.
  destruct (check_unique_constraint_run s idx doc vs raws id) as (r1 & Hrun1 & Hr1); auto.
  destruct Hr1 as [[-> Hn]|[[msg ->] Hcf]].
  - rewrite (SE_bind_ok _ _ s tt s) by done. exists r. split; [done|].
    rewrite <- (Hext _ (iff_refl _)) by naive_solver. done.
  - rewrite (SE_bind_err _ _ s (Schema msg) s) by done. eexists. split; [done|]. right.
    split; [eauto|]. exists idx. split; [left|done].
Qed.

Lemma check_unique_all_read_only s doc id r s' :
  Collections.check_unique_all coll doc id s = (r, s') → s' = s.
Proof.
  unfold Collections.check_unique_all. revert r s'.
  induction (co_indexes coll) as [|idx ixs IH]; intros r s'; simpl; [by intros [= _ <-]|].
  intros Hrun. destruct (ix_unique idx) eqn:Hu.
  2:{ rewrite (SE_bind_ok _ _ s tt s) in Hrun by done. eauto. }
  destruct (collect_index_values doc idx) as [vs|].
  2:{ rewrite (SE_bind_ok _ _ s tt s) in Hrun by done. eauto. }
  assert (∃ r1, check_unique_constraint (co_ns coll) (co_db coll) (co_table coll) idx vs id s = (r1, s))
    as [[[]|e] Hr1].
  { unfold check_unique_constraint. rewrite Hu. change (if negb true then ?x else ?y) with y.
    assert (∃ r2, find_ids (co_ns coll) (co_db coll) (co_table coll) (ix_name idx) vs None None
              (length (ix_fields idx)) s = (r2, s)) as [[ids|e] Hr2].
    { unfold find_ids. destruct (encode_composite_key_part vs) as [p|e]; [|by eexists].
      rewrite (SE_bind_ok _ _ s p s) by done. cbn -[leb prefix_end].
      unfold mbind at 1, SE_bind at 1, lift. unfold mbind at 1, SE_bind at 1.
      destruct (leb _ _); [by eexists|]. unfold DllbStorage.scan.
      rewrite (SE_bind_ok _ _ s _ s (scan_law _ _ s)). by eexists. }
    - rewrite (SE_bind_ok _ _ s ids s Hr2). destruct (find _ ids); by eexists.
    - rewrite (SE_bind_err _ _ s e s Hr2). by eexists. }
  - rewrite (SE_bind_ok _ _ s tt s Hr1) in Hrun. eauto.
  - rewrite (SE_bind_err _ _ s e s Hr1) in Hrun. by injection Hrun as _ <-.
Qed.
End crud.
