(* ===== verification/CollectionSpec.v ===== *)
(** * What the collection operations promise

    The contract of each write operation on the stored documents, the
    invariant over any sequence of operations, and the exactness of lookups
    and scans. *)

From S2P Require Export Crud IndexTheorems.

Section runs.
Context {S : Type} `{KL : KvLaws S} `{FL : FieldsCodecLaws} (coll : Collection) (Hwf : coll_wf coll).
Implicit Types (s : S) (doc : Document) (id : string).

(** The conditions under which a new document is accepted. *)
Record accepted (c : OMap bytes bytes) (id : string) (doc : Document) : Prop := {
  acc_valid : Collections.validate coll doc = Ok tt;
  acc_fresh : stored c coll id = None;
  acc_unique : ¬ conflict coll c id doc;
  acc_entries : ∃ es, Collections.entries coll doc = Ok es;
  acc_bytes : ∃ b, serialize doc = Ok b
}.

Lemma create_inner_run s id doc :
  unique_btree coll → coll_inv (contents s) coll → is_str id → rid_id (doc_id doc) = id →
  ∃ r s', Collections.create_inner coll id doc s = (r, s') ∧
    ((r = Ok (doc_id doc) ∧ accepted (contents s) id doc ∧ coll_inv (contents s') coll ∧
      written coll (contents s) id (Some (Collections.set_id coll id doc)) (contents s')) ∨
     ((∃ e, r = Err e) ∧ s' = s ∧ ¬ accepted (contents s) id doc)).
Proof using Hwf KL FL.
  intros Hub Hinv Hs Hid. unfold Collections.create_inner.
  destruct (Collections.validate coll doc) as [[]|e] eqn:Hv.
  2:{ eexists _, s. split; [done|]. right. split_and!; eauto. intros []. congruence. }
  rewrite (SE_bind_ok _ _ s tt s) by done.
  rewrite (SE_bind_ok _ _ s _ s (contains_run coll s id Hinv)).
  case_bool_decide as Hst.
  { eexists _, s. split; [done|]. right. split_and!; eauto. intros [].
    destruct Hst; congruence. }
  assert (stored (contents s) coll id = None) as Hnone by (by destruct (stored _ _ _); [destruct Hst|]).
  destruct (Collections.check_unique_all coll doc id s) as [[[]|e] s1] eqn:Hcu.
  2:{ pose proof (check_unique_all_read_only _ _ _ _ _ _ Hcu) as ->.
      rewrite (SE_bind_err _ _ s e s Hcu). eexists _, s. split; [done|]. right. split_and!; eauto.
      intros [_ _ Hnc [es He] _].
      destruct (check_unique_all_run coll Hwf s doc es id Hub Hinv He) as (r & Hr & Hcases).
      rewrite Hcu in Hr. injection Hr as <-. naive_solver. }
  pose proof (check_unique_all_read_only _ _ _ _ _ _ Hcu) as ->.
  rewrite (SE_bind_ok _ _ s tt s Hcu).
  destruct (serialize doc) as [b|e] eqn:Hb.
  2:{ eexists _, s. split; [done|]. right. split_and!; eauto. intros [_ _ _ _ []]. congruence. }
  rewrite (SE_bind_ok _ _ s b s) by done.
  destruct (Collections.entries coll doc) as [es|e] eqn:He.
  2:{ eexists _, s. split; [done|]. right. split_and!; eauto. intros [_ _ _ [] _]. congruence. }
  rewrite (SE_bind_ok _ _ s es s) by done.
  destruct (put_batch_law ((Collections.doc_key coll id, b) :: es) s) as (s' & Hp & Hc).
  unfold DllbStorage.put_batch. rewrite (SE_bind_ok _ _ s tt s' Hp).
  exists (Ok (doc_id doc)), s'. split; [done|]. left.
  destruct (check_unique_all_run coll Hwf s doc es id Hub Hinv He) as (r & Hr & Hcases).
  rewrite Hcu in Hr. injection Hr as <-.
  destruct Hcases as [[_ Hnc]|[[msg ?] _]]; [|done].
  split; [done|]. split; [split; eauto|].
  rewrite Hc. apply (put_written coll Hwf (contents s) id doc [] es b); try done.
  by rewrite Hnone.
Qed.

(** The common tail of [update], [merge] and [upsert]. *)
Lemma replace_run s id old new :
  coll_inv (contents s) coll → stored (contents s) coll id = Some old →
  rid_id (doc_id new) = id →
  ∃ r s', Collections.replace_with_indexes coll id old new s = (r, s') ∧
    ((r = Ok tt ∧ (∃ es, Collections.entries coll new = Ok es) ∧ (∃ b, serialize new = Ok b) ∧
      coll_inv (contents s') coll ∧
      written coll (contents s) id (Some (Collections.set_id coll id new)) (contents s')) ∨
     ((∃ e, r = Err e) ∧ s' = s ∧
      ¬ ((∃ es, Collections.entries coll new = Ok es) ∧ (∃ b, serialize new = Ok b)))).
Proof using Hwf KL FL.
  intros Hinv Hst Hid. unfold Collections.replace_with_indexes.
  destruct (serialize new) as [b|e] eqn:Hb.
  2:{ eexists _, s. split; [done|]. right. split_and!; eauto. naive_solver. }
  rewrite (SE_bind_ok _ _ s b s) by done.
  destruct (stored_entries coll _ _ _ Hinv Hst) as [oes Ho].
  rewrite (SE_bind_ok _ _ s oes s) by (unfold lift; by rewrite Ho).
  destruct (Collections.entries coll new) as [es|e] eqn:He.
  2:{ eexists _, s. split; [done|]. right. split_and!; eauto. naive_solver. }
  rewrite (SE_bind_ok _ _ s es s) by done.
  destruct (write_batch_law ((Collections.doc_key coll id, b) :: es) (map fst oes) s)
    as (s' & Hw & Hc).
  exists (Ok tt), s'. split; [exact Hw|]. left. split_and!; eauto.
  all: rewrite Hc; refine (_ (put_written coll Hwf (contents s) id new oes es b
         ltac:(by eapply stored_is_str) Hinv Hid _ He Hb)); [by intros []|by rewrite Hst].
Qed.

Lemma stored_set_id c id old :
  stored c coll id = Some old → doc_id old = RecordIds.new (co_table coll) id.
Proof.
  unfold stored. destruct (oget _ c) as [b|]; simpl; [|done].
  destruct (deserialize _ b) eqn:E; simpl; [|done]. intros [= <-]. by eapply deserialize_id.
Qed.

(** The conditions under which a replacement is accepted. *)
Record replaceable (new : Document) : Prop := {
  rep_valid : Collections.validate coll new = Ok tt;
  rep_entries : ∃ es, Collections.entries coll new = Ok es;
  rep_bytes : ∃ b, serialize new = Ok b
}.

(** [update] and [merge] are one schema: replace by [f old]. *)
Definition modify (f : Document → Document) (id : string) : M S unit :=
  o ← Collections.get coll id;
  old ← lift (ok_or o (Collections.not_found id));
  let new_doc := f old in
  _ ← lift (Collections.validate coll new_doc);
  Collections.replace_with_indexes coll id old new_doc.

Lemma modify_run f s id :
  (∀ d, doc_id (f d) = doc_id d) → coll_inv (contents s) coll →
  match stored (contents s) coll id with
  | None => modify f id s = (Err (Collections.not_found id), s)
  | Some old => ∃ r s', modify f id s = (r, s') ∧
      ((r = Ok tt ∧ replaceable (f old) ∧ coll_inv (contents s') coll ∧
        written coll (contents s) id (Some (f old)) (contents s')) ∨
       ((∃ e, r = Err e) ∧ s' = s ∧ ¬ replaceable (f old)))
  end.
Proof using Hwf KL FL.
  intros Hf Hinv. unfold modify. rewrite (SE_bind_ok _ _ s _ s (get_run coll s id Hinv)).
  destruct (stored (contents s) coll id) as [old|] eqn:Hst; [|done].
  rewrite (SE_bind_ok _ _ s old s) by done. cbv zeta.
  destruct (Collections.validate coll (f old)) as [[]|e] eqn:Hv.
  2:{ eexists _, s. split; [done|]. right. split_and!; eauto. intros []. congruence. }
  rewrite (SE_bind_ok _ _ s tt s) by done.
  pose proof (stored_set_id _ _ _ Hst) as Hid.
  assert (Collections.set_id coll id (f old) = f old) as Hsi.
  { unfold Collections.set_id. rewrite <- Hid, <- Hf. by destruct (f old). }
  destruct (replace_run s id old (f old) Hinv Hst) as (r & s' & Hrun & Hcases).
  { by rewrite Hf, Hid. }
  exists r, s'. split; [done|]. rewrite Hsi in Hcases.
  destruct Hcases as [(-> & He & Hb & Hi & Hw)|(? & -> & Hn)]; [left|right]; split_and!; auto.
  - by split.
  - intros []. by apply Hn.
Qed.

Lemma delete_run s id :
  coll_inv (contents s) coll →
  match stored (contents s) coll id with
  | None => Collections.delete coll id s = (Ok false, s)
  | Some _ => ∃ s', Collections.delete coll id s = (Ok true, s') ∧ coll_inv (contents s') coll ∧
      written coll (contents s) id None (contents s')
  end.
Proof using Hwf KL FL.
  intros Hinv. unfold Collections.delete. rewrite (SE_bind_ok _ _ s _ s (get_run coll s id Hinv)).
  destruct (stored (contents s) coll id) as [old|] eqn:Hst; [|done].
  destruct (stored_entries coll _ _ _ Hinv Hst) as [es He].
  rewrite (SE_bind_ok _ _ s es s) by (unfold lift; by rewrite He).
  destruct (delete_batch_law (Collections.doc_key coll id :: map fst es) s) as (s' & Hd & Hc).
  unfold DllbStorage.delete_batch. rewrite (SE_bind_ok _ _ s tt s' Hd).
  exists s'. split; [done|]. rewrite Hc. eapply delete_written; eauto.
  by eapply stored_is_str.
Qed.
End runs.

(** ** Sequences of operations *)
Inductive crud_op :=
  | OpCreate (doc : Document)
  | OpCreateWithId (id : string) (doc : Document)
  | OpUpdate (id : string) (fields : Fields)
  | OpMerge (id : string) (fields : Fields)
  | OpUpsert (id : string) (doc : Document) (update_fields : Fields)
  | OpDelete (id : string).

Definition op_ok (op : crud_op) : Prop :=
  match op with
  | OpCreate doc => is_str (rid_id (doc_id doc))
  | OpUpsert id doc _ => is_str id ∧ rid_id (doc_id doc) = id
  | OpCreateWithId id _ | OpUpdate id _ | OpMerge id _ | OpDelete id => is_str id
  end.

Section sequences.
Context {S : Type} `{KvStore S} `{FieldsCodec} (coll : Collection).

Definition run_op (op : crud_op) : M S unit :=
  match op with
  | OpCreate doc => _ ← Collections.create coll doc; mret tt
  | OpCreateWithId id doc => _ ← Collections.create_with_id coll id doc; mret tt
  | OpUpdate id fields => Collections.update coll id fields
  | OpMerge id fields => Collections.merge coll id fields
  | OpUpsert id doc fields => _ ← Collections.upsert coll id doc fields; mret tt
  | OpDelete id => _ ← Collections.delete coll id; mret tt
  end.

(** The store after a sequence, whether or not each operation succeeds. *)
Fixpoint run_ops (ops : list crud_op) (s : S) : S :=
  match ops with
  | [] => s
  | op :: ops' => run_ops ops' (run_op op s).2
  end.
End sequences.

Lemma coll_inv_empty `{FieldsCodec} coll : coll_inv [] coll.
Proof.
  split; [done|done|]. intros k _. split; [by intros []|]. by intros (id & doc & es & Hs & _).
Qed.

Section sequence_laws.
Context {S : Type} `{KL : KvLaws S} `{FL : FieldsCodecLaws} (coll : Collection) (Hwf : coll_wf coll).

Lemma bind_tt_state {A} (m : M S A) s : ((_ ← m; mret tt) s).2 = (m s).2.
Proof. unfold mbind, SE_bind. by destruct (m s) as [[] ?]. Qed.

(** One operation: the table stays consistent, and at most one document is
    written, which was validated. *)
Record step_ok (s s' : S) : Prop := {
  so_inv : coll_inv (contents s') coll;
  so_docs id : stored (contents s') coll id = stored (contents s) coll id ∨
    ∀ doc, stored (contents s') coll id = Some doc →
      ∃ doc', Collections.validate coll doc' = Ok tt ∧ doc_fields doc' = doc_fields doc
}.
Lemma step_refl s : coll_inv (contents s) coll → step_ok s s.
Proof. intros Hi. split; [done|]. by left. Qed.
Lemma step_written s s' id new :
  coll_inv (contents s') coll → written coll (contents s) id new (contents s') →
  (∀ doc, new = Some doc → ∃ doc', Collections.validate coll doc' = Ok tt ∧ doc_fields doc' = doc_fields doc) →
  step_ok s s'.
Proof.
  intros Hi Hw Hn. split; [done|]. intros id'. destruct (decide (id' = id)) as [->|Hne].
  - right. by rewrite (wr_id _ _ _ _ _ Hw).
  - left. by apply (wr_other _ _ _ _ _ Hw).
Qed.

Lemma run_op_step op s :
  unique_btree coll → op_ok op → coll_inv (contents s) coll → step_ok s (run_op coll op s).2.
Proof using Hwf KL FL.
  intros Hub Hok Hinv.
  assert (∀ id doc, is_str id → rid_id (doc_id doc) = id →
    step_ok s (Collections.create_inner coll id doc s).2) as Hcreate.
  { intros id doc Hs Hid.
    destruct (create_inner_run coll Hwf s id doc) as (r & s' & -> & Hc); auto.
    destruct Hc as [(_ & Ha & Hi & Hw)|(_ & -> & _)]; [|by apply step_refl].
    eapply step_written; [done|exact Hw|]. intros ? [= <-]. exists doc. by split; [apply Ha|]. }
  assert (∀ f id, (∀ d, doc_id (f d) = doc_id d) → step_ok s (modify coll f id s).2) as Hmodify.
  { intros f id Hf. pose proof (modify_run coll Hwf f s id Hf Hinv) as Hm.
    destruct (stored (contents s) coll id) as [old|]; [|rewrite Hm; by apply step_refl].
    destruct Hm as (r & s' & -> & [(_ & Hr & Hi & Hw)|(_ & -> & _)]); [|by apply step_refl].
    eapply step_written; [done|exact Hw|]. intros ? [= <-]. exists (f old). by split; [apply Hr|]. }
  destruct op; simpl; rewrite ?bind_tt_state.
  - by apply Hcreate.
  - by apply Hcreate.
  - by apply (Hmodify (λ d, MkDocument (doc_id d) fields)).
  - by apply (Hmodify (λ d, Collections.merge_fields d fields)).
  - destruct Hok as [Hs Hid]. unfold Collections.upsert.
    rewrite (SE_bind_ok _ _ s _ s (contains_run coll s id Hinv)). case_bool_decide.
    + pose proof (Hmodify (λ d, Collections.merge_fields d update_fields) id (λ _, eq_refl)) as Hm.
      unfold mbind, SE_bind. change (Collections.merge coll id update_fields) with
        (modify coll (λ d, Collections.merge_fields d update_fields) id).
      by destruct (modify _ _ _ _) as [[] ?].
    + pose proof (Hcreate id doc Hs Hid) as Hc. unfold mbind, SE_bind.
      by destruct (Collections.create_inner _ _ _ _) as [[] ?].
  - pose proof (delete_run coll Hwf s id Hinv) as Hd.
    destruct (stored (contents s) coll id); [|rewrite Hd; by apply step_refl].
    destruct Hd as (s' & -> & Hi & Hw). by eapply step_written.
Qed.
Lemma run_op_inv op s :
  unique_btree coll → op_ok op → coll_inv (contents s) coll →
  coll_inv (contents (run_op coll op s).2) coll.
Proof using Hwf KL FL. intros Hub Hok Hinv. by apply (so_inv _ _ (run_op_step op s Hub Hok Hinv)). Qed.

Lemma run_ops_inv ops s :
  unique_btree coll → Forall op_ok ops → coll_inv (contents s) coll →
  coll_inv (contents (run_ops coll ops s)) coll.
Proof using Hwf KL FL.
  intros Hub Hok. revert s; induction Hok; intros s Hinv; simpl; [done|].
  auto using run_op_inv.
Qed.
End sequence_laws.

(** ** A concrete collection *)
Definition people : Collection :=
  MkCollection "n" "d" "people" None
    [IndexDefinitions.btree "by_age" ["age"%string] false;
     IndexDefinitions.btree "by_email" ["email"%string] true].

Definition person (id : string) (age : Z) (email : string) : Document :=
  MkDocument (RecordIds.new "people" id) [("age"%string, VInt age); ("email"%string, VString email)].

Lemma people_wf : coll_wf people.
Proof.
  split; try compute_decide.
  - intros idx [<-|[<-|[]]]%list_elem_of_In; compute_decide.
  - intros i1 i2 [<-|[<-|[]]]%list_elem_of_In [<-|[<-|[]]]%list_elem_of_In; done.
Qed.
Lemma people_unique : unique_btree people.
Proof. by intros idx [<-|[<-|[]]]%list_elem_of_In. Qed.

(** A store with two people in it. *)
Definition two_people : MemRedb.db :=
  run_ops people [OpCreateWithId "a" (person "a" 30 "a@x"); OpCreateWithId "b" (person "b" 40 "b@x")]
    MemRedb.empty.
Lemma two_people_inv : coll_inv (contents two_people) people.
Proof.
  apply (run_ops_inv people people_wf); [apply people_unique|by repeat constructor|].
  apply coll_inv_empty.
Qed.

(** ** Reading many documents *)
Section reads.
Context {S : Type} `{KL : KvLaws S} `{FL : FieldsCodecLaws} (coll : Collection) (Hwf : coll_wf coll).
Implicit Types (s : S).

Lemma get_many_run s ids :
  coll_inv (contents s) coll →
  Collections.get_many coll ids s = (Ok (omap (stored (contents s) coll) ids), s).
Proof using KL.
  intros Hinv. unfold Collections.get_many. case_bool_decide as Hn; [by subst|].
  unfold DllbStorage.multi_get. rewrite (SE_bind_ok _ _ s _ s (multi_get_law _ s)).
  unfold lift. f_equal. clear Hn. rewrite map_map.
  induction ids as [|id ids IH]; simpl; [done|].
  destruct (oget (Collections.doc_key coll id) (contents s)) as [b|] eqn:E.
  - destruct (inv_docs _ _ Hinv _ _ E) as (doc & es & Hd & _). rewrite Hd. simpl.
    assert (stored (contents s) coll id = Some doc) as ->; [|by rewrite IH].
    unfold stored. rewrite E. simpl. by rewrite Hd.
  - assert (stored (contents s) coll id = None) as ->; [|done]. unfold stored. by rewrite E.
Qed.

(** The document region, decoded. *)
Lemma doc_region_decode c :
  osorted c → coll_inv c coll →
  let p := table_prefix (co_ns coll) (co_db coll) (co_table coll) tag.DOCUMENT in
  ∃ docs, Forall2 (λ kv doc, kv.1 = Collections.doc_key coll (rid_id (doc_id doc)) ∧
                             is_str (rid_id (doc_id doc)) ∧
                             doc_id doc = RecordIds.new (co_table coll) (rid_id (doc_id doc)) ∧
                             deserialize (doc_id doc) kv.2 = Ok doc) (orange p (prefix_end p) c) docs.
Proof using KL Hwf.
  intros Hs Hinv p.
  assert (∀ kv, kv ∈ orange p (prefix_end p) c → kv ∈ c ∧ p `prefix_of` kv.1) as Hin.
  { intros kv (Hk & Hl & Hu)%orange_elem. split; [done|].
    apply prefix_range; [|by rewrite Hl, Hu]. unfold p. rewrite table_prefix_shape.
    by apply prefix_end_tag. }
  induction (orange p (prefix_end p) c) as [|[k v] l IH]; [by exists []|].
  destruct IH as [docs Hdocs]; [intros; apply Hin; by right|].
  destruct (Hin (k, v)) as [Hk Hp]; [by left|]. apply oget_iff in Hk; [|done].
  destruct (inv_ids _ _ Hinv _ _ Hk Hp) as (id & Hid & ->).
  destruct (inv_docs _ _ Hinv _ _ Hk) as (doc & es & Hd & _).
  pose proof (deserialize_id _ _ _ Hd) as Hdi.
  exists (doc :: docs). constructor; [|done]. simpl. rewrite Hdi. done.
Qed.

Lemma parse_doc_key id :
  parse_key (Collections.doc_key coll id) =
  Ok (MkKeyParts (as_bytes (co_ns coll)) (as_bytes (co_db coll)) (as_bytes (co_table coll))
        tag.DOCUMENT (as_bytes id)).
Proof using Hwf.
  unfold Collections.doc_key. rewrite document_key_shape.
  apply parse_key_head; [apply (wf_ns _ Hwf)|apply (wf_db _ Hwf)|apply (wf_table _ Hwf)].
Qed.

Lemma scans_run s :
  coll_inv (contents s) coll →
  ∃ docs, Collections.scan_all coll s = (Ok docs, s) ∧
    Collections.scan_ids coll s = (Ok (map (λ d, rid_id (doc_id d)) docs), s) ∧
    Collections.count coll s = (Ok (length docs), s) ∧
    NoDup (map (λ d, rid_id (doc_id d)) docs) ∧
    ∀ id doc, stored (contents s) coll id = Some doc ↔ doc ∈ docs ∧ rid_id (doc_id doc) = id.
Proof using Hwf KL.
  intros Hinv.
  set (p := table_prefix (co_ns coll) (co_db coll) (co_table coll) tag.DOCUMENT).
  destruct (doc_region_decode (contents s) (contents_sorted s) Hinv) as (docs & Hdocs). fold p in Hdocs.
  exists docs. set (l := orange p (prefix_end p) (contents s)) in *.
  assert (Forall2 (λ k doc, k = Collections.doc_key coll (rid_id (doc_id doc)) ∧
            is_str (rid_id (doc_id doc))) (map fst l) docs) as Hkeys.
  { clear -Hdocs. induction Hdocs; constructor; naive_solver. }
  split_and!.
  - unfold Collections.scan_all, DllbStorage.prefix_scan. fold p.
    rewrite (SE_bind_ok _ _ s l s (prefix_scan_law _ s)). unfold lift. f_equal.
    apply traverse_Forall2. eapply Forall2_impl; [exact Hdocs|].
    intros [k v] doc (-> & Hid & Hdi & Hd). simpl in *. rewrite parse_doc_key. simpl.
    unfold Collections.utf8_err. rewrite from_utf8_as_bytes by done. simpl. by rewrite <- Hdi.
  - unfold Collections.scan_ids, DllbStorage.scan_prefix_keys. fold p.
    rewrite (SE_bind_ok _ _ s (map fst l) s (scan_prefix_keys_law _ s)). unfold lift. f_equal.
    apply traverse_Forall2, Forall2_fmap_r. eapply Forall2_impl; [exact Hkeys|].
    intros k doc (-> & Hid). rewrite parse_doc_key. simpl.
    unfold Collections.utf8_err. by rewrite from_utf8_as_bytes.
  - unfold Collections.count, DllbStorage.count_prefix. fold p. rewrite count_prefix_law.
    fold l. by rewrite (Forall2_length _ _ _ Hdocs).
  - assert (NoDup (map fst l)) as Hnd by apply osorted_NoDup_keys, osorted_filter, contents_sorted.
    clear -Hkeys Hnd. induction Hkeys as [|k d ks ds [-> _] Hks IH]; simpl; [constructor|].
    inversion Hnd as [|? ? Hn Hnd']; subst. constructor; [|auto].
    intros (d' & Hid & Hd')%list_elem_of_fmap. apply Hn.
    apply (Forall2_elem_of_r _ _ _ _ Hks) in Hd' as (k & Hk & -> & _). by rewrite Hid.
  - intros id doc. split.
    + intros Hst. split; [|by eapply stored_id].
      unfold stored in Hst. destruct (oget _ _) as [b|] eqn:E; [|done]. simpl in Hst.
      destruct (deserialize _ b) as [d|] eqn:Hd; simpl in Hst; [|done]. injection Hst as ->.
      assert ((Collections.doc_key coll id, b) ∈ l) as Hin.
      { apply orange_elem. split; [by apply oget_elem|]. rewrite <- andb_true_iff.
        apply prefix_range; unfold p; rewrite table_prefix_shape; [by apply prefix_end_tag|].
        simpl. unfold Collections.doc_key. rewrite document_key_shape. exists (as_bytes id).
        by rewrite <- app_assoc. }
      apply (Forall2_elem_of_l _ _ _ _ Hdocs) in Hin as (d' & Hin & Hk & _ & Hdi & Hd').
      simpl in *. apply doc_key_inj in Hk. rewrite Hdi, <- Hk in Hd'. congruence.
    + intros [Hin <-]. apply (Forall2_elem_of_r _ _ _ _ Hdocs) in Hin as ([k b] & Hin & Hk & _ & Hdi & Hd).
      simpl in *. apply orange_elem in Hin as [Hin _]. apply oget_iff in Hin; [|apply contents_sorted].
      unfold stored. rewrite <- Hk, Hin. simpl. by rewrite <- Hdi, Hd.
Qed.
End reads.
