(* ===== verification/CollectionTheorems.v ===== *)
(** * Theorems about collections

    The index invariant over every sequence of operations, the contract of
    each operation, exactness of lookups and scans, uniqueness, atomicity of
    failures and the batched upsert. *)

From S2P Require Export CollectionSpec.

(** C8.  Index consistency: starting from a consistent table (an empty one is),
    any sequence of creates, updates, merges, upserts and deletes, successful
    or not, leaves a table in which every stored document decodes and the
    index regions hold exactly the entries of the stored documents. *)
Theorem crud_sequence_consistent {S} `{KL : KvLaws S} `{FL : FieldsCodecLaws} (coll : Collection)
    (ops : list crud_op) (s : S) :
  coll_wf coll → unique_btree coll → Forall op_ok ops →
  coll_inv (contents s) coll → coll_inv (contents (run_ops coll ops s)) coll.
Proof. intros Hwf. by apply run_ops_inv. Qed.

Lemma crud_sequence_consistent_witness :
  coll_inv (contents (run_ops people
    [OpCreateWithId "a" (person "a" 1 "x"); OpMerge "a" [("age"%string, VInt 2)]; OpDelete "a"]
    MemRedb.empty)) people.
Proof.
  apply (crud_sequence_consistent people
    [OpCreateWithId "a" (person "a" 1 "x"); OpMerge "a" [("age"%string, VInt 2)]; OpDelete "a"]
    MemRedb.empty).
  - exact people_wf.
  - exact people_unique.
  - by repeat constructor.
  - apply coll_inv_empty.
Defined.

(** Every stored document conforms to the fields of the table. *)
Definition well_typed `{FieldsCodec} (coll : Collection) (fs : list FieldDefinition) (c : OMap bytes bytes) : Prop :=
  ∀ id doc, stored c coll id = Some doc → conforms doc fs.
Lemma conforms_fields d1 d2 fs : doc_fields d1 = doc_fields d2 → conforms d1 fs → conforms d2 fs.
Proof. intros E [Hr Hk Ht]. split; rewrite <- E; done. Qed.
Lemma run_ops_typed {S} `{KL : KvLaws S} `{FL : FieldsCodecLaws} (coll : Collection) (schema : TableDefinition)
    (ops : list crud_op) : ∀ s,
  coll_wf coll → unique_btree coll → co_schema coll = Some schema → td_schema_mode schema = Schemafull →
  Forall op_ok ops → coll_inv (contents s) coll → well_typed coll (td_fields schema) (contents s) →
  well_typed coll (td_fields schema) (contents (run_ops coll ops s)).
Proof.
  induction ops as [|op ops IH]; intros s Hwf Hub Hsc Hmode Hok Hinv Ht; simpl; [done|].
  apply Forall_cons in Hok as [Hop Hok]. pose proof (run_op_step coll Hwf op s Hub Hop Hinv) as [Hi Hd].
  apply IH; try done. intros id doc Hst. destruct (Hd id) as [E|E]; [apply (Ht id); by rewrite <- E|].
  destruct (E doc Hst) as (doc' & Hv & Hf). apply (conforms_fields doc'); [done|].
  unfold Collections.validate in Hv. rewrite Hsc in Hv. apply validate_document_exact in Hv as [Hm|Hc]; [congruence|done].
Qed.

(** C9.  Schemas are types: in a schemafull table every stored document has
    all required fields, no undeclared ones, and every field holds a value of
    its declared type or none - vectors of their declared dimension.  Every
    sequence of creates, updates, merges, upserts and deletes keeps this,
    whether or not its operations are accepted. *)
Theorem schema_typed {S} `{KL : KvLaws S} `{FL : FieldsCodecLaws} (coll : Collection) (schema : TableDefinition)
    (ops : list crud_op) (s : S) :
  coll_wf coll → unique_btree coll → co_schema coll = Some schema → td_schema_mode schema = Schemafull →
  Forall op_ok ops → coll_inv (contents s) coll → well_typed coll (td_fields schema) (contents s) →
  well_typed coll (td_fields schema) (contents (run_ops coll ops s)).
Proof. apply run_ops_typed. Qed.

Definition embeddings : Collection :=
  MkCollection "n" "d" "emb" (Some (Build_TableDefinition "emb" Schemafull
    [Build_FieldDefinition "name" TString true; Build_FieldDefinition "v" (TVector 2) false])) [].
Definition embedding (v : list f32) : Document :=
  MkDocument (RecordIds.new "emb" "a") [("name"%string, VString "x"); ("v"%string, VVector v)].
Definition embedding_ops : list crud_op :=
  [OpCreate (embedding [f32_zero; f32_zero]); OpMerge "a" [("v"%string, VVector [f32_zero])];
   OpMerge "a" [("w"%string, VInt 1)]; OpMerge "a" [("name"%string, VString "y")]].
Lemma schema_typed_witness :
  ∃ schema, co_schema embeddings = Some schema ∧
    well_typed embeddings (td_fields schema) (contents (run_ops embeddings embedding_ops MemRedb.empty)) ∧
    stored (contents (run_ops embeddings embedding_ops MemRedb.empty)) embeddings "a"
      = Some (MkDocument (RecordIds.new "emb" "a") [("name"%string, VString "y"); ("v"%string, VVector [f32_zero; f32_zero])]).
Proof.
  eexists. split; [reflexivity|]. split; [|vm_compute; reflexivity].
  eapply schema_typed with (coll := embeddings).
  - split; try compute_decide; by intros ? ?%elem_of_nil || intros ? ? ?%elem_of_nil.
  - by intros ? ?%elem_of_nil.
  - reflexivity.
  - reflexivity.
  - by repeat constructor.
  - apply coll_inv_empty.
  - by intros id doc.
Defined.

(** C16.  Creation: on a consistent table, [create_with_id] accepts exactly the
    documents that satisfy the schema, whose id is fresh, that violate no
    unique index and whose fields can be indexed and serialized; then the
    document is stored under its id, every other document is unchanged and the
    table is consistent again.  Otherwise it reports an error and the store is
    untouched. *)
Theorem create_contract {S} `{KL : KvLaws S} `{FL : FieldsCodecLaws} (coll : Collection)
    (s : S) (id : string) (doc : Document) :
  coll_wf coll → unique_btree coll → coll_inv (contents s) coll → is_str id →
  let doc' := Collections.set_id coll id doc in
  ∃ r s', Collections.create_with_id coll id doc s = (r, s') ∧
    ((r = Ok (RecordIds.new (co_table coll) id) ∧ accepted coll (contents s) id doc' ∧
      coll_inv (contents s') coll ∧ written coll (contents s) id (Some doc') (contents s')) ∨
     ((∃ e, r = Err e) ∧ s' = s ∧ ¬ accepted coll (contents s) id doc')).
Proof.
  intros Hwf Hub Hinv Hs doc'.
  exact (create_inner_run coll Hwf s id doc' Hub Hinv Hs eq_refl).
Qed.

Lemma create_contract_witness :
  accepted people (contents two_people) "c" (person "c" 7 "c@x") ∧
  (Collections.create_with_id people "c" (person "c" 7 "c@x") two_people).1 =
    Ok (RecordIds.new "people" "c").
Proof.
  destruct (create_contract people two_people "c" (person "c" 7 "c@x")) as (r & s' & Hr & Hc);
    [exact people_wf|exact people_unique|exact two_people_inv|reflexivity|].
  destruct Hc as [(-> & Ha & _)|([e ->] & _)]; [|exfalso; vm_compute in Hr; discriminate Hr].
  split; [exact Ha|]. rewrite Hr. reflexivity.
Defined.

(** Deletion: a missing id is reported as [false] with no effect; a stored
    document is removed with all its index entries, and nothing else changes. *)
Theorem delete_contract {S} `{KL : KvLaws S} `{FL : FieldsCodecLaws} (coll : Collection)
    (s : S) (id : string) :
  coll_wf coll → coll_inv (contents s) coll →
  ∃ s', Collections.delete coll id s =
          (Ok (bool_decide (is_Some (stored (contents s) coll id))), s') ∧
    coll_inv (contents s') coll ∧ written coll (contents s) id None (contents s') ∧
    (stored (contents s) coll id = None → s' = s).
Proof.
  intros Hwf Hinv. pose proof (delete_run coll Hwf s id Hinv) as Hd.
  destruct (stored (contents s) coll id) as [d|] eqn:Hst.
  - destruct Hd as (s' & Hr & Hi & Hw). exists s'. by rewrite Hr.
  - exists s. rewrite Hd. split_and!; [done|done| |done]. by split.
Qed.

Lemma delete_contract_witness :
  stored (contents (Collections.delete people "a" two_people).2) people "a" = None ∧
  is_Some (stored (contents (Collections.delete people "a" two_people).2) people "b").
Proof.
  destruct (delete_contract people two_people "a" people_wf two_people_inv)
    as (s' & Hr & _ & Hw & _).
  rewrite Hr. split; [exact (wr_id _ _ _ _ _ Hw)|].
  rewrite (wr_other _ _ _ _ _ Hw) by discriminate. vm_compute. eauto.
Defined.

(** C11.  Exactness of index lookups: on a consistent table, a lookup in a BTree
    index by equality on the leading fields and bounds on the next one returns,
    each once, exactly the ids of the stored documents whose indexed tuple
    starts with the equality values and has its next field within the bounds
    (in the order of the encodings). *)
Theorem lookup_exact {S} `{KL : KvLaws S} `{FL : FieldsCodecLaws} (coll : Collection) (s : S)
    (idx : IndexDefinition) (eq : list Value) (lower upper : option RangeBound)
    (eqs : list bytes) (rl ru : raw_bound) :
  coll_wf coll → coll_inv (contents s) coll →
  idx ∈ co_indexes coll → IndexDefinitions.is_btree idx = true → ix_fields idx ≠ [] →
  traverse encode_index_value eq = Ok eqs → raw_bound_of lower rl → raw_bound_of upper ru →
  length eqs ≤ length (ix_fields idx) →
  (rl ≠ None ∨ ru ≠ None → length eqs < length (ix_fields idx)) →
  ∃ ids, Collections.find_ids_for_scan coll (ix_name idx) eq lower upper
           (length (ix_fields idx)) s = (Ok ids, s) ∧ NoDup ids ∧
    ∀ id, id ∈ ids ↔ ∃ doc raws, stored (contents s) coll id = Some doc ∧
            tuple_of doc idx = Some raws ∧ tuple_matches eqs rl ru raws.
Proof. intros Hwf ?????????. by apply lookup_run. Qed.

Lemma lookup_exact_witness :
  ∃ ids, Collections.find_ids_for_scan people "by_age" [] (Some (VInt 35, true)) None 1 two_people
           = (Ok ids, two_people) ∧ ("b"%string ∈ ids) ∧ ("a"%string ∉ ids).
Proof.
  destruct (lookup_exact people two_people (IndexDefinitions.btree "by_age" ["age"%string] false)
    [] (Some (VInt 35, true)) None [] (Some (encode_i64 35, true)) None people_wf two_people_inv)
    as (ids & Hr & _ & Hids); [left|reflexivity|discriminate|reflexivity|split; reflexivity|exact I
      |simpl; lia|simpl; lia|].
  exists ids. split; [exact Hr|]. split.
  - apply Hids. exists (person "b" 40 "b@x"), [encode_i64 40].
    split; [vm_compute; reflexivity|]. split; [vm_compute; reflexivity|].
    split; [apply prefix_nil|]. split; vm_compute; reflexivity.
  - intros (doc & raws & Hst & Ht & _ & Hm)%Hids.
    assert (Some doc = Some (person "a" 30 "a@x")) as [= ->]
      by (rewrite <- Hst; vm_compute; reflexivity).
    assert (Some raws = Some [encode_i64 30]) as [= ->]
      by (rewrite <- Ht; vm_compute; reflexivity).
    destruct Hm as [Hm _]. vm_compute in Hm. discriminate Hm.
Defined.

(** Scans agree: on a consistent table [scan_all] returns each stored
    document once, [scan_ids] the ids of the same documents in the same order,
    [count] their number, and [get_many] the stored documents among the ids
    asked for, in the order asked. *)
Theorem scans_agree {S} `{KL : KvLaws S} `{FL : FieldsCodecLaws} (coll : Collection) (s : S)
    (ids : list string) :
  coll_wf coll → coll_inv (contents s) coll →
  (∃ docs, Collections.scan_all coll s = (Ok docs, s) ∧
    Collections.scan_ids coll s = (Ok (map (λ d, rid_id (doc_id d)) docs), s) ∧
    Collections.count coll s = (Ok (length docs), s) ∧
    NoDup (map (λ d, rid_id (doc_id d)) docs) ∧
    ∀ id doc, stored (contents s) coll id = Some doc ↔ doc ∈ docs ∧ rid_id (doc_id doc) = id) ∧
  Collections.get_many coll ids s = (Ok (omap (stored (contents s) coll) ids), s).
Proof. intros Hwf Hinv. split; [by apply scans_run|by apply get_many_run]. Qed.

Lemma scans_agree_witness :
  ∃ docs, Collections.scan_all people two_people = (Ok docs, two_people) ∧ length docs = 2.
Proof.
  destruct (scans_agree people two_people [] people_wf two_people_inv)
    as [(docs & Hr & _ & Hc & _) _].
  exists docs. split; [exact Hr|].
  assert ((Collections.count people two_people).1 = Ok 2) as Hc2 by (vm_compute; reflexivity).
  rewrite Hc in Hc2. by injection Hc2 as ->.
Defined.

(** ** Uniqueness *)

(** No two stored documents share a tuple of a unique index. *)
Definition unique_holds `{FieldsCodec} (coll : Collection) (c : OMap bytes bytes) : Prop :=
  ∀ idx id1 id2 d1 d2 raws, idx ∈ co_indexes coll → ix_unique idx = true →
    stored c coll id1 = Some d1 → stored c coll id2 = Some d2 →
    tuple_of d1 idx = Some raws → tuple_of d2 idx = Some raws → id1 = id2.

Definition creates_or_deletes (op : crud_op) : bool :=
  match op with OpCreate _ | OpCreateWithId _ _ | OpDelete _ => true | _ => false end.

Section uniqueness.
Context {S : Type} `{KL : KvLaws S} `{FL : FieldsCodecLaws} (coll : Collection) (Hwf : coll_wf coll).

Lemma tuple_of_set_id id doc idx : tuple_of (Collections.set_id coll id doc) idx = tuple_of doc idx.
Proof.
  unfold tuple_of, collect_index_values. destruct (ix_fields idx) as [|f fs]; [done|].
  assert (∀ l, collect_values (Collections.set_id coll id doc) l = collect_values doc l) as ->; [|done].
  induction l as [|g l IH]; [done|]. simpl. by rewrite IH.
Qed.

Lemma unique_written_None c c' id :
  unique_holds coll c → written coll c id None c' → unique_holds coll c'.
Proof.
  intros Hu Hw idx id1 id2 d1 d2 raws Hi Hun G1 G2 T1 T2.
  destruct (decide (id1 = id)) as [->|N1]; [by rewrite (wr_id _ _ _ _ _ Hw) in G1|].
  destruct (decide (id2 = id)) as [->|N2]; [by rewrite (wr_id _ _ _ _ _ Hw) in G2|].
  rewrite (wr_other _ _ _ _ _ Hw) in G1, G2 by done. eapply Hu; eauto.
Qed.

Lemma unique_written_doc c c' id doc :
  unique_holds coll c → ¬ conflict coll c id doc → written coll c id (Some doc) c' → unique_holds coll c'.
Proof.
  intros Hu Hnc Hw.
  assert (∀ idx id' d' d raws, idx ∈ co_indexes coll → ix_unique idx = true → id' ≠ id →
    stored c' coll id = Some d → stored c' coll id' = Some d' →
    tuple_of d idx = Some raws → tuple_of d' idx = Some raws → False) as Hx.
  { intros idx id' d' d raws Hi Hun Hne Hd Hd' T T'.
    rewrite (wr_id _ _ _ _ _ Hw) in Hd. injection Hd as <-.
    rewrite (wr_other _ _ _ _ _ Hw) in Hd' by done.
    apply Hnc. exists idx. split_and!; [done..|]. by exists raws, id', d'. }
  intros idx id1 id2 d1 d2 raws Hi Hun G1 G2 T1 T2.
  destruct (decide (id1 = id)) as [->|N1], (decide (id2 = id)) as [->|N2]; [done|exfalso; eauto..|].
  rewrite (wr_other _ _ _ _ _ Hw) in G1, G2 by done. eapply Hu; eauto.
Qed.
Lemma unique_written_new c c' id doc :
  unique_holds coll c → ¬ conflict coll c id doc →
  written coll c id (Some (Collections.set_id coll id doc)) c' → unique_holds coll c'.
Proof.
  intros Hu Hnc. apply unique_written_doc; [done|]. intros (idx & Hi & Hun & raws & id' & d' & Ht & Hc). apply Hnc.
  rewrite tuple_of_set_id in Ht. exists idx. split_and!; [done..|]. by exists raws, id', d'.
Qed.

Lemma run_op_unique op s :
  unique_btree coll → op_ok op → creates_or_deletes op = true → coll_inv (contents s) coll →
  unique_holds coll (contents s) → unique_holds coll (contents (run_op coll op s).2).
Proof using Hwf KL FL.
  intros Hub Hok Hcd Hinv Hu.
  assert (∀ id doc, is_str id → rid_id (doc_id doc) = id →
    unique_holds coll (contents (Collections.create_inner coll id doc s).2)) as Hcreate.
  { intros id doc Hs Hid.
    destruct (create_inner_run coll Hwf s id doc) as (r & s' & -> & Hc); auto.
    destruct Hc as [(_ & [_ _ Hnc _ _] & _ & Hw)|(_ & -> & _)]; [|done].
    by eapply unique_written_new. }
  destruct op; try done; simpl; rewrite bind_tt_state.
  - by apply Hcreate.
  - by apply Hcreate.
  - pose proof (delete_run coll Hwf s id Hinv) as Hd.
    destruct (stored (contents s) coll id); [|by rewrite Hd].
    destruct Hd as (s' & -> & _ & Hw). by eapply unique_written_None.
Qed.

Lemma run_ops_unique ops s :
  unique_btree coll → Forall op_ok ops → forallb creates_or_deletes ops = true →
  coll_inv (contents s) coll → unique_holds coll (contents s) →
  unique_holds coll (contents (run_ops coll ops s)).
Proof using Hwf KL FL.
  intros Hub Hok. revert s. induction Hok as [|op ops Hop Hok IH]; intros s Hcd Hinv Hu; [done|].
  simpl in *. apply andb_true_iff in Hcd as [Hc1 Hc2].
  apply IH; [done|by apply run_op_inv|by apply run_op_unique].
Qed.
End uniqueness.

Lemma unique_holds_empty `{FieldsCodec} coll : unique_holds coll [].
Proof. intros idx id1 id2 d1 d2 raws _ _ Hd. discriminate Hd. Qed.

(** Unique indexes under creation and deletion: if no two stored documents
    share a tuple of a unique index, none do after any sequence of creates and
    deletes, successful or not. *)
Theorem creates_keep_unique {S} `{KL : KvLaws S} `{FL : FieldsCodecLaws} (coll : Collection)
    (ops : list crud_op) (s : S) :
  coll_wf coll → unique_btree coll → Forall op_ok ops → forallb creates_or_deletes ops = true →
  coll_inv (contents s) coll → unique_holds coll (contents s) →
  unique_holds coll (contents (run_ops coll ops s)).
Proof.
  intros Hwf. by apply run_ops_unique.
Qed.

Lemma creates_keep_unique_witness :
  unique_holds people (contents (run_ops people
    [OpCreateWithId "a" (person "a" 1 "x"); OpCreateWithId "b" (person "b" 2 "x")] MemRedb.empty)).
Proof.
  apply (creates_keep_unique people
    [OpCreateWithId "a" (person "a" 1 "x"); OpCreateWithId "b" (person "b" 2 "x")] MemRedb.empty).
  - exact people_wf.
  - exact people_unique.
  - by repeat constructor.
  - reflexivity.
  - apply coll_inv_empty.
  - apply unique_holds_empty.
Defined.

(** Unique indexes are not enforced by [merge] (nor by [update], which
    ends in the same write): from a consistent table in which the unique index
    holds, a merge succeeds and leaves two documents with the same unique
    tuple. *)
Theorem merge_breaks_unique :
  coll_inv (contents two_people) people ∧ unique_holds people (contents two_people) ∧
  (Collections.merge people "b" [("email"%string, VString "a@x")] two_people).1 = Ok tt ∧
  ¬ unique_holds people
      (contents (Collections.merge people "b" [("email"%string, VString "a@x")] two_people).2).
Proof.
  split; [exact two_people_inv|]. split.
  - apply (run_ops_unique people people_wf _ _ people_unique); [by repeat constructor|done| |].
    + apply coll_inv_empty.
    + apply unique_holds_empty.
  - split; [vm_compute; reflexivity|]. intros Hu.
    assert ("a"%string = "b"%string); [|done].
    apply (Hu (IndexDefinitions.btree "by_email" ["email"%string] true) "a"%string "b"%string
             (person "a" 30 "a@x") (person "b" 40 "a@x") [as_bytes "a@x"]);
      [right; left|vm_compute; reflexivity..].
Qed.

(** ** Replacements *)

(** C26.  Update and merge of a document whose replacement (the new fields for
    [update], the old fields overlaid with the new for [merge]) shares no tuple
    of a unique index with another stored document: on a missing id they
    report [NotFound] and change nothing; on a stored document they store
    exactly the replacement when it is valid, indexable and serializable, with
    the indexes moved along, no other document touched and every unique index
    still unique; otherwise they report an error and change nothing.  (A
    replacement that does share one is stored as well, against the definition
    of a unique index: [merge_breaks_unique].) *)
Theorem update_merge_contract {S} `{KL : KvLaws S} `{FL : FieldsCodecLaws} (coll : Collection)
    (s : S) (id : string) (fields : Fields) (is_merge : bool) :
  let op := if is_merge then Collections.merge coll id fields
            else Collections.update coll id fields in
  let replacement old := if is_merge then Collections.merge_fields old fields
                         else MkDocument (doc_id old) fields in
  coll_wf coll → coll_inv (contents s) coll → unique_holds coll (contents s) →
  (∀ old, stored (contents s) coll id = Some old → ¬ conflict coll (contents s) id (replacement old)) →
  match stored (contents s) coll id with
  | None => op s = (Err (NotFound ("record not found: " ++ id)), s)
  | Some old => ∃ r s', op s = (r, s') ∧ unique_holds coll (contents s') ∧
      ((r = Ok tt ∧ replaceable coll (replacement old) ∧ coll_inv (contents s') coll ∧
        written coll (contents s) id (Some (replacement old)) (contents s')) ∨
       ((∃ e, r = Err e) ∧ s' = s ∧ ¬ replaceable coll (replacement old)))
  end.
Proof.
  intros op replacement Hwf Hinv Hu Hnc.
  assert (op = modify coll replacement id) as -> by (by destruct is_merge).
  pose proof (modify_run coll Hwf replacement s id) as Hr. destruct (stored (contents s) coll id) as [old|] eqn:Hst; cycle 1.
  { apply Hr; [|done]. intros d. by destruct is_merge. }
  destruct Hr as (r & s' & Hrun & Hc); [intros d; by destruct is_merge|done|].
  exists r, s'. split; [done|]. split; [|done]. destruct Hc as [(_ & _ & _ & Hw)|(_ & -> & _)]; [|done].
  eapply unique_written_doc; [exact Hu|by apply Hnc|exact Hw].
Qed.

Lemma update_merge_contract_witness :
  (Collections.merge people "a" [("age"%string, VInt 31)] two_people).1 = Ok tt ∧
  stored (contents (Collections.merge people "a" [("age"%string, VInt 31)] two_people).2) people "a"
    = Some (person "a" 31 "a@x").
Proof.
  assert (stored (contents two_people) people "a" = Some (person "a" 30 "a@x")) as Hst by (vm_compute; reflexivity).
  assert (unique_holds people (contents two_people)) as Hu.
  { apply (run_ops_unique people people_wf _ _ people_unique); [by repeat constructor|done|apply coll_inv_empty|apply unique_holds_empty]. }
  pose proof (update_merge_contract people two_people "a" [("age"%string, VInt 31)] true
    people_wf two_people_inv Hu) as Hm. cbv zeta in Hm.
  rewrite Hst in Hm. destruct Hm as (r & s' & Hr & _ & [(-> & _ & _ & Hw)|([e ->] & _)]).
  - intros old [= <-] (idx & Hi & Hun & raws & id' & d' & Ht & Hd & Hne & Ht').
    assert (tuple_of (person "a" 30 "a@x") idx = Some raws) as Ht0.
    { rewrite <- Ht. apply list_elem_of_In in Hi as [<-|[<-|[]]]; [discriminate Hun|vm_compute; reflexivity]. }
    apply Hne. exact (Hu idx id' "a"%string d' _ raws Hi Hun Hd Hst Ht' Ht0).
  - rewrite Hr. split; [reflexivity|]. exact (wr_id _ _ _ _ _ Hw).
  - exfalso. vm_compute in Hr. discriminate Hr.
Defined.

(** ** Atomicity of failures *)
Definition never_fails {S A} (m : M S A) : Prop := ∀ s e s', m s ≠ (Err e, s').

Lemma bind_error_keeps {S A B} (m : M S A) (f : A → M S B) :
  read_only m → (∀ a, error_keeps (f a)) → error_keeps (m ≫= f).
Proof.
  intros Hm Hf s e s'. unfold mbind, SE_bind.
  destruct (m s) as [[a|e'] s1] eqn:E; apply Hm in E as ->; [apply Hf|by intros [= _ <-]].
Qed.
Lemma write_then_keeps {S A B} (m : M S A) (f : A → M S B) :
  error_keeps m → (∀ a, never_fails (f a)) → error_keeps (m ≫= f).
Proof.
  intros Hm Hf s e s'. unfold mbind, SE_bind.
  destruct (m s) as [[a|e'] s1] eqn:E; [by intros ?%Hf|]. intros [= <- <-]. by eapply Hm.
Qed.
Lemma read_only_error_keeps {S A} (m : M S A) : read_only m → error_keeps m.
Proof. intros Hm s e s'. apply Hm. Qed.
Lemma lift_read_only {S A} (r : result A) : read_only (lift (S := S) r).
Proof. by intros s r' s' [= _ <-]. Qed.
Lemma mret_read_only {S A} (a : A) : read_only (mret (M := M S) a).
Proof. by intros s r' s' [= _ <-]. Qed.
Lemma throw_read_only {S A} (e : Error) : read_only (throw (S := S) (A := A) e).
Proof. by intros s r' s' [= _ <-]. Qed.
Lemma mret_never_fails {S A} (a : A) : never_fails (mret (M := M S) a).
Proof. by intros s e s'. Qed.
Lemma read_bind {S A B} (m : M S A) (f : A → M S B) :
  read_only m → (∀ a, read_only (f a)) → read_only (m ≫= f).
Proof.
  intros Hm Hf d r d'. unfold mbind, SE_bind.
  destruct (m d) as [[a|e] d1] eqn:E; apply Hm in E as ->; [apply Hf | by intros [= _ <-]].
Qed.

Create HintDb atomic.
#[export] Hint Resolve lift_read_only mret_read_only throw_read_only mret_never_fails
  get_ro scan_ro contains_ro prefix_scan_ro count_prefix_ro scan_prefix_keys_ro multi_get_ro
  put_atomic delete_atomic put_batch_atomic delete_batch_atomic write_batch_atomic
  read_only_error_keeps : atomic.

(** Decompose a body into its reads, its branches and its final write. *)
Ltac atomic_step :=
  match goal with
  | |- read_only (_ ≫= _) => apply read_bind; [|intros ?]
  | |- error_keeps (_ ≫= _) =>
      first [apply bind_error_keeps; [solve [atomic_solve]|intros ?]
            |apply write_then_keeps; [|intros ?]]
  | |- context [match ?x with _ => _ end] => destruct x
  | |- _ => solve [eauto 3 with atomic]
  end
with atomic_solve := repeat atomic_step.

Section atomic_ops.
Context {S : Type} `{KA : KvAtomic S} `{FieldsCodec} (coll : Collection).

Lemma find_ids_ro ns db t n eq lower upper fc : read_only (find_ids ns db t n eq lower upper fc).
Proof using KA. unfold find_ids, DllbStorage.scan. atomic_solve. Qed.

Lemma check_unique_ro ns db t idx vs id : read_only (check_unique_constraint ns db t idx vs id).
Proof using KA.
  unfold check_unique_constraint. pose proof find_ids_ro. atomic_solve.
Qed.

Lemma for_each_ro {A} (body : A → M S unit) l :
  (∀ x, read_only (body x)) → read_only (for_each body l).
Proof. intros Hb. induction l; simpl; atomic_solve; auto. Qed.

Lemma check_unique_all_ro doc id : read_only (Collections.check_unique_all coll doc id).
Proof using KA.
  apply for_each_ro. intros idx. pose proof check_unique_ro. atomic_solve.
Qed.

Lemma get_coll_ro id : read_only (Collections.get coll id).
Proof using KA. unfold Collections.get, DllbStorage.get. atomic_solve. Qed.

Lemma create_inner_atomic id doc : error_keeps (Collections.create_inner coll id doc).
Proof using KA.
  pose proof check_unique_all_ro.
  unfold Collections.create_inner, DllbStorage.contains, DllbStorage.put_batch. atomic_solve.
Qed.
Lemma merge_atomic id fields : error_keeps (Collections.merge coll id fields).
Proof using KA.
  pose proof get_coll_ro.
  unfold Collections.merge, Collections.replace_with_indexes, DllbStorage.write_batch. atomic_solve.
Qed.
End atomic_ops.

(** C40.  Failure atomicity: over any store whose own operations are atomic,
    including one whose engine can fail at any call, an operation of a
    collection that reports an error has left the store as it was; the
    document is never written without its index entries. *)
Theorem failed_ops_change_nothing {S} `{KA : KvAtomic S} `{FieldsCodec} (coll : Collection)
    (op : crud_op) (s s' : S) (e : Error) :
  run_op coll op s = (Err e, s') → s' = s.
Proof.
  revert s e s'. change (error_keeps (run_op coll op)).
  pose proof (create_inner_atomic coll). pose proof (merge_atomic coll).
  pose proof (get_coll_ro coll).
  destruct op; simpl; unfold Collections.create, Collections.create_with_id, Collections.update,
    Collections.replace_with_indexes, Collections.upsert, Collections.delete,
    DllbStorage.contains, DllbStorage.write_batch, DllbStorage.delete_batch.
  all: atomic_solve.
Qed.

Lemma failed_ops_change_nothing_witness :
  ∃ e, run_op people (OpCreateWithId "a" (person "a" 1 "z")) two_people = (Err e, two_people).
Proof.
  destruct (run_op people (OpCreateWithId "a" (person "a" 1 "z")) two_people) as [[[]|e] s'] eqn:E.
  - exfalso. apply (f_equal fst) in E. vm_compute in E. discriminate E.
  - exists e. by rewrite (failed_ops_change_nothing people _ _ _ _ E).
Defined.

(** ** Batched upsert *)
Lemma validate_ext coll d1 d2 :
  doc_fields d1 = doc_fields d2 → Collections.validate coll d1 = Collections.validate coll d2.
Proof.
  intros Hf. unfold Collections.validate, validate_document.
  destruct (co_schema coll) as [sc|]; [|done]. destruct (td_schema_mode sc); [done|].
  assert (check_required d1 (td_fields sc) = check_required d2 (td_fields sc)) as ->.
  { induction (td_fields sc) as [|fd fs IH]; simpl; [done|]. by rewrite Hf, IH. }
  assert (check_types d1 (td_fields sc) = check_types d2 (td_fields sc)) as ->; [|by rewrite Hf].
  induction (td_fields sc) as [|fd fs IH]; simpl; [done|]. by rewrite Hf, IH.
Qed.

Lemma SE_bind_inv {S A B} (m : M S A) (f : A → M S B) s b s' :
  (m ≫= f) s = (Ok b, s') → ∃ a s1, m s = (Ok a, s1) ∧ f a s1 = (Ok b, s').
Proof.
  unfold mbind, SE_bind. destruct (m s) as [[a|e] s1]; [|done]. eauto.
Qed.

Lemma lift_inv {S A} (r : result A) (s : S) a s' : lift r s = (Ok a, s') → r = Ok a ∧ s' = s.
Proof. by intros [= -> ->]. Qed.

(** The batched upsert: whenever [upsert] succeeds, [upsert_to_ops]
    succeeds on the same input without touching the store, reports the same
    created flag, and the batch it returns, written with deletes before puts,
    leaves the same contents as [upsert]. *)
Theorem upsert_ops_agree {S} `{KL : KvLaws S} `{FL : FieldsCodecLaws} (coll : Collection)
    (id : string) (doc : Document) (fields : Fields) (s s2 : S) (rid : RecordId) (created : bool) :
  coll_inv (contents s) coll → rid_id (doc_id doc) = id →
  Collections.upsert coll id doc fields s = (Ok (rid, created), s2) →
  ∃ puts dels s3,
    Collections.upsert_to_ops coll id doc fields s =
      (Ok (RecordIds.new (co_table coll) id, created, puts, dels), s) ∧
    kv_write_batch puts dels s = (Ok tt, s3) ∧ contents s3 = contents s2.
Proof.
  intros Hinv Hid. unfold Collections.upsert, Collections.upsert_to_ops.
  rewrite !(SE_bind_ok _ _ s _ s (contains_run coll s id Hinv)). case_bool_decide as Hst.
  - intros ([] & s1 & Hm & [= <- <- <-])%SE_bind_inv. revert Hm. unfold Collections.merge.
    rewrite !(SE_bind_ok _ _ s _ s (get_run coll s id Hinv)).
    destruct Hst as [old ->]. rewrite !(SE_bind_ok _ _ s old s) by done. cbv zeta.
    intros ([] & sa & [Hv ->]%lift_inv & Hr)%SE_bind_inv.
    rewrite (SE_bind_ok _ _ s tt s) by (unfold lift; by rewrite Hv). revert Hr.
    unfold Collections.replace_with_indexes.
    intros (b & sb & [Hb ->]%lift_inv & Hr)%SE_bind_inv.
    rewrite (SE_bind_ok _ _ s b s) by (unfold lift; by rewrite Hb). revert Hr.
    intros (oes & sc & [Ho ->]%lift_inv & Hr)%SE_bind_inv.
    rewrite (SE_bind_ok _ _ s oes s) by (unfold lift; by rewrite Ho). revert Hr.
    intros (es & sd & [He ->]%lift_inv & Hr)%SE_bind_inv.
    rewrite (SE_bind_ok _ _ s es s) by (unfold lift; by rewrite He).
    eexists _, _, s1. split; [reflexivity|]. split; [exact Hr|done].
  - intros (rid' & s1 & Hc & [= <- <- <-])%SE_bind_inv. revert Hc. unfold Collections.create_inner.
    intros ([] & sa & [Hv ->]%lift_inv & Hr)%SE_bind_inv. revert Hr.
    rewrite !(SE_bind_ok _ _ s _ s (contains_run coll s id Hinv)).
    rewrite bool_decide_eq_false_2 by done.
    intros ([] & sb & ->%check_unique_all_read_only & Hr)%SE_bind_inv. revert Hr.
    intros (b & sc & [Hb ->]%lift_inv & Hr)%SE_bind_inv. revert Hr.
    intros (es & sd & [He ->]%lift_inv & Hr)%SE_bind_inv. revert Hr.
    intros ([] & sf & Hp & [= <- <-])%SE_bind_inv.
    assert (Collections.create_to_ops coll id doc =
            Ok (RecordIds.new (co_table coll) id, (Collections.doc_key coll id, b) :: es)) as Hops.
    { unfold Collections.create_to_ops. cbv zeta.
      rewrite (validate_ext coll (Collections.set_id coll id doc) doc eq_refl), Hv. simpl.
      rewrite (set_id_ext coll doc id Hid), He.
      change (serialize (Collections.set_id coll id doc)) with (serialize doc). by rewrite Hb. }
    rewrite Hops. destruct (put_batch_law ((Collections.doc_key coll id, b) :: es) s) as (s4 & Hp4 & Hc4).
    unfold DllbStorage.put_batch in Hp. rewrite Hp4 in Hp. injection Hp as <-.
    destruct (write_batch_law ((Collections.doc_key coll id, b) :: es) [] s) as (s3 & Hw & Hc3).
    eexists _, _, s3. split; [reflexivity|]. split; [exact Hw|]. by rewrite Hc3, Hc4.
Qed.

Lemma upsert_ops_agree_witness :
  ∃ puts s3,
    Collections.upsert_to_ops people "c" (person "c" 5 "c@x") [] two_people =
      (Ok (RecordIds.new "people" "c", true, puts, []), two_people) ∧
    kv_write_batch puts [] two_people = (Ok tt, s3) ∧
    contents s3 = contents (Collections.upsert people "c" (person "c" 5 "c@x") [] two_people).2.
Proof.
  destruct (upsert_ops_agree people "c" (person "c" 5 "c@x") [] two_people
    (Collections.upsert people "c" (person "c" 5 "c@x") [] two_people).2
    (RecordIds.new "people" "c") true) as (puts & dels & s3 & Ho & Hw & Hc).
  - exact two_people_inv.
  - reflexivity.
  - vm_compute. reflexivity.
  - assert (dels = []) as -> by (vm_compute in Ho; congruence).
    exists puts, s3. split; [exact Ho|]. split; [exact Hw|exact Hc].
Defined.
