(* ===== verification/EdgeStore.v ===== *)
(** * Graph edges (crates/graph: edge.rs, store.rs)

    Each edge is two entries, an outgoing one that carries the properties and
    an empty incoming one. *)

From S2P Require Export Core Key Kv Document.

(** ** Edge (edge.rs) *)
Record Edge := MkEdge { e_src : string; e_edge_type : string; e_dst : string; e_properties : Fields }.

Module Edges.
Definition new (src edge_type dst : string) : Edge := MkEdge src edge_type dst [].
Definition with_property (self : Edge) (name : string) (value : Value) : Edge :=
  MkEdge (e_src self) (e_edge_type self) (e_dst self) (oinsert name value (e_properties self)).
End Edges.

(** ** EdgeStore (store.rs) *)
Record EdgeStore := MkEdgeStore { es_ns : string; es_db : string; es_table : string }.

Section props.
Context `{FieldsCodec}.

Definition serialize_props (props : Fields) : result bytes :=
  if bool_decide (props = []) then Ok [] else ser_err (rmp_to_vec props).

Definition deserialize_props (b : bytes) : result Fields :=
  match b with [] => Ok [] | _ => ser_err (rmp_from_slice b) end.
End props.

Module EdgeStores.
Definition new (ns db table : string) : EdgeStore := MkEdgeStore ns db table.

Definition out_key (self : EdgeStore) (src edge_type dst : string) : bytes :=
  graph_outgoing_key (es_ns self) (es_db self) (es_table self) src edge_type dst.
Definition in_key (self : EdgeStore) (dst edge_type src : string) : bytes :=
  graph_incoming_key (es_ns self) (es_db self) (es_table self) dst edge_type src.
Definition edge_prefix (self : EdgeStore) : bytes :=
  table_prefix (es_ns self) (es_db self) (es_table self) tag.GRAPH_EDGE.

(** The part the three table scans share: the remainder of a key split as
    [src], direction and type, [dst]; [None] is [continue]. *)
Definition outgoing_segs (k : bytes) : result (option (string * bytes * string)) :=
  parts ← parse_key k;
  match splitn 3 SEPARATOR (kp_remainder parts) with
  | [src; d :: ty; dst] =>
      if decide (d = dir.OUTGOING) then
        match from_utf8 src, from_utf8 dst with
        | Some s, Some t => Ok (Some (s, ty, t))
        | _, _ => Ok None
        end
      else Ok None
  | _ => Ok None
  end.

Section ops.
Context {S : Type} `{KvStore S} `{FieldsCodec}.

Definition relate (self : EdgeStore) (edge : Edge) : M S unit :=
  props ← lift (serialize_props (e_properties edge));
  DllbStorage.put_batch
    [(out_key self (e_src edge) (e_edge_type edge) (e_dst edge), props);
     (in_key self (e_dst edge) (e_edge_type edge) (e_src edge), [])].

Definition relate_to_ops (self : EdgeStore) (edge : Edge) : result kvs :=
  props ← serialize_props (e_properties edge);
  Ok [(out_key self (e_src edge) (e_edge_type edge) (e_dst edge), props);
      (in_key self (e_dst edge) (e_edge_type edge) (e_src edge), [])].

Definition get (self : EdgeStore) (src edge_type dst : string) : M S (option Edge) :=
  r ← DllbStorage.get (out_key self src edge_type dst);
  match r with
  | Some b =>
      properties ← lift (deserialize_props b);
      mret (Some (MkEdge src edge_type dst properties))
  | None => mret None
  end.

Definition delete (self : EdgeStore) (src edge_type dst : string) : M S bool :=
  existed ← DllbStorage.contains (out_key self src edge_type dst);
  _ ← (if existed : bool
       then DllbStorage.delete_batch [out_key self src edge_type dst; in_key self dst edge_type src]
       else mret tt);
  mret existed.

(** The weight of an edge from its stored properties; undecodable properties
    count as none. *)
Definition edge_weight (v : bytes) : f64 :=
  match v with
  | [] => f64_one
  | _ =>
      let props := match rmp_from_slice v with Ok p => p | Err _ => [] end in
      match oget "weight"%string props with
      | Some (VFloat f) => f
      | Some (VInt n) => f64_of_i64 n
      | _ => f64_one
      end
  end.

Definition scan_all_outgoing (self : EdgeStore) : M S (list (string * string * f64)) :=
  entries ← DllbStorage.prefix_scan (edge_prefix self);
  lift (traverse_opt (λ kv : bytes * bytes,
    o ← outgoing_segs kv.1;
    Ok (match o with Some (src, _, dst) => Some (src, dst, edge_weight kv.2) | None => None end)) entries).

Definition scan_all_edges (self : EdgeStore) : M S (list (string * string)) :=
  keys ← DllbStorage.scan_prefix_keys (edge_prefix self);
  lift (traverse_opt (λ k,
    o ← outgoing_segs k;
    Ok (match o with Some (src, _, dst) => Some (src, dst) | None => None end)) keys).

Definition scan_all_outgoing_edges (self : EdgeStore) : M S (list Edge) :=
  entries ← DllbStorage.prefix_scan (edge_prefix self);
  lift (traverse_opt (λ kv : bytes * bytes,
    o ← outgoing_segs kv.1;
    match o with
    | Some (src, ty, dst) =>
        match from_utf8 ty with
        | Some edge_type =>
            properties ← deserialize_props kv.2;
            Ok (Some (MkEdge src edge_type dst properties))
        | None => Ok None
        end
    | None => Ok None
    end) entries).

Definition edge_not_found (src edge_type dst : string) : Error :=
  NotFound ("edge not found: " ++ src ++ "->" ++ edge_type ++ "->" ++ dst).

Definition update_properties (self : EdgeStore) (src edge_type dst : string) (props : Fields) : M S unit :=
  existed ← DllbStorage.contains (out_key self src edge_type dst);
  if negb existed then throw (edge_not_found src edge_type dst)
  else
    b ← lift (serialize_props props);
    DllbStorage.put (out_key self src edge_type dst) b.
End ops.
End EdgeStores.

(** ** Keys of edges *)

(** A triple whose parts are strings without the separator. *)
Record triple_ok (src et dst : string) : Prop := {
  t_src : seg_ok src; t_type : seg_ok et; t_dst : seg_ok dst;
  t_src_str : is_str src; t_type_str : is_str et; t_dst_str : is_str dst
}.

Record store_wf (st : EdgeStore) : Prop := {
  sw_ns : seg_ok (es_ns st); sw_db : seg_ok (es_db st); sw_table : seg_ok (es_table st)
}.

Section keys.
Context (st : EdgeStore).

Lemma out_key_inj s e d s' e' d' :
  seg_ok s → seg_ok e → seg_ok s' → seg_ok e' →
  EdgeStores.out_key st s e d = EdgeStores.out_key st s' e' d' → s = s' ∧ e = e' ∧ d = d'.
Proof.
  intros Hs He Hs' He'. unfold EdgeStores.out_key. rewrite !graph_outgoing_key_shape.
  intros E%app_inv_head. injection E as E. apply seg_inj in E as [-> E]; [|done..].
  injection E as E. apply seg_inj in E as [-> E]; [|done..]. by apply (inj as_bytes) in E as ->.
Qed.
Lemma in_key_inj d e s d' e' s' :
  seg_ok d → seg_ok e → seg_ok d' → seg_ok e' →
  EdgeStores.in_key st d e s = EdgeStores.in_key st d' e' s' → d = d' ∧ e = e' ∧ s = s'.
Proof.
  intros Hs He Hs' He'. unfold EdgeStores.in_key. rewrite !graph_incoming_key_shape.
  intros E%app_inv_head. injection E as E. apply seg_inj in E as [-> E]; [|done..].
  injection E as E. apply seg_inj in E as [-> E]; [|done..]. by apply (inj as_bytes) in E as ->.
Qed.
Lemma out_in_ne s e d d' e' s' :
  seg_ok s → seg_ok d' → EdgeStores.out_key st s e d ≠ EdgeStores.in_key st d' e' s'.
Proof.
  intros Hs Hd. unfold EdgeStores.out_key, EdgeStores.in_key.
  rewrite graph_outgoing_key_shape, graph_incoming_key_shape.
  intros E%app_inv_head. injection E as E. apply seg_inj in E as [-> E]; [|done..].
  injection E as E _. by apply (f_equal Byte.to_N) in E.
Qed.
Lemma out_key_prefix s e d : EdgeStores.edge_prefix st `prefix_of` EdgeStores.out_key st s e d.
Proof.
  unfold EdgeStores.edge_prefix, EdgeStores.out_key. rewrite table_prefix_shape, graph_outgoing_key_shape.
  apply prefix_app, prefix_cons, prefix_nil.
Qed.
Lemma in_key_prefix s e d : EdgeStores.edge_prefix st `prefix_of` EdgeStores.in_key st s e d.
Proof.
  unfold EdgeStores.edge_prefix, EdgeStores.in_key. rewrite table_prefix_shape, graph_incoming_key_shape.
  apply prefix_app, prefix_cons, prefix_nil.
Qed.
Lemma edge_prefix_end : prefix_end (EdgeStores.edge_prefix st) ≠ [].
Proof. unfold EdgeStores.edge_prefix. rewrite table_prefix_shape. by apply prefix_end_tag. Qed.
End keys.

Section parsing.
Context (st : EdgeStore) (Hst : store_wf st).

Lemma parse_out s e d :
  parse_key (EdgeStores.out_key st s e d) =
  Ok (MkKeyParts (as_bytes (es_ns st)) (as_bytes (es_db st)) (as_bytes (es_table st)) tag.GRAPH_EDGE
        (as_bytes s ++ SEPARATOR :: (dir.OUTGOING :: as_bytes e) ++ SEPARATOR :: as_bytes d)).
Proof using Hst.
  unfold EdgeStores.out_key. rewrite graph_outgoing_key_shape. simpl.
  destruct Hst. by apply parse_key_head.
Qed.
Lemma parse_in d e s :
  parse_key (EdgeStores.in_key st d e s) =
  Ok (MkKeyParts (as_bytes (es_ns st)) (as_bytes (es_db st)) (as_bytes (es_table st)) tag.GRAPH_EDGE
        (as_bytes d ++ SEPARATOR :: (dir.INCOMING :: as_bytes e) ++ SEPARATOR :: as_bytes s)).
Proof using Hst.
  unfold EdgeStores.in_key. rewrite graph_incoming_key_shape. simpl.
  destruct Hst. by apply parse_key_head.
Qed.

Lemma splitn_triple a (m c : bytes) :
  seg_ok a → SEPARATOR ∉ m → splitn 3 SEPARATOR (as_bytes a ++ SEPARATOR :: m ++ SEPARATOR :: c) =
  [as_bytes a; m; c].
Proof. intros. by rewrite !splitn_app. Qed.

Lemma outgoing_segs_out s e d :
  triple_ok s e d → EdgeStores.outgoing_segs (EdgeStores.out_key st s e d) = Ok (Some (s, as_bytes e, d)).
Proof using Hst.
  intros []. unfold EdgeStores.outgoing_segs. rewrite parse_out. cbn [mbind Result_bind kp_remainder].
  rewrite splitn_triple by auto with dllb. rewrite decide_True by done.
  by rewrite !from_utf8_as_bytes.
Qed.
Lemma outgoing_segs_in s e d :
  triple_ok s e d → EdgeStores.outgoing_segs (EdgeStores.in_key st d e s) = Ok None.
Proof using Hst.
  intros []. unfold EdgeStores.outgoing_segs. rewrite parse_in. cbn [mbind Result_bind kp_remainder].
  rewrite splitn_triple by auto with dllb. done.
Qed.
End parsing.
