(* ===== verification/EdgeSpec.v ===== *)
(** * The edge store against its specification

    The mirror invariant between outgoing and incoming entries, the abstract
    map of edges, and the refinement of every operation. *)

From S2P Require Export EdgeStore IndexTheorems.

Section invariant.
Context `{FieldsCodec} (st : EdgeStore).

Record edge_inv (c : OMap bytes bytes) : Prop := {
  (** The edge region holds only outgoing entries that decode and empty
      incoming ones. *)
  ei_region : ∀ k v, oget k c = Some v → EdgeStores.edge_prefix st `prefix_of` k →
    ∃ s e d, triple_ok s e d ∧
      ((k = EdgeStores.out_key st s e d ∧ ∃ p, deserialize_props v = Ok p) ∨
       (k = EdgeStores.in_key st d e s ∧ v = []));
  (** Outgoing and incoming entries come in pairs. *)
  ei_mirror : ∀ s e d, triple_ok s e d →
    is_Some (oget (EdgeStores.out_key st s e d) c) ↔ is_Some (oget (EdgeStores.in_key st d e s) c)
}.

Lemma edge_inv_empty : edge_inv [].
Proof. split; [done|]. by intros. Qed.

(** The properties of the edge [s -e-> d], if it is stored. *)
Definition edge_at (c : OMap bytes bytes) (s e d : string) : option Fields :=
  b ← oget (EdgeStores.out_key st s e d) c; ok (deserialize_props b).

Lemma out_decodes c s e d b :
  edge_inv c → triple_ok s e d → oget (EdgeStores.out_key st s e d) c = Some b →
  ∃ p, deserialize_props b = Ok p ∧ edge_at c s e d = Some p.
Proof.
  intros Hinv Ht Hb.
  destruct (ei_region _ Hinv _ _ Hb (out_key_prefix st s e d))
    as (s' & e' & d' & Ht' & [(Hk & p & Hp)|[Hk _]]).
  - exists p. split; [done|]. unfold edge_at. rewrite Hb. simpl. by rewrite Hp.
  - exfalso. destruct Ht, Ht'. revert Hk. by apply out_in_ne.
Qed.

Lemma edge_at_None c s e d :
  edge_inv c → triple_ok s e d →
  edge_at c s e d = None ↔ oget (EdgeStores.out_key st s e d) c = None.
Proof.
  intros Hinv Ht. unfold edge_at. destruct (oget _ c) as [b|] eqn:E; [|done].
  destruct (out_decodes c s e d b Hinv Ht E) as (p & Hp & _). simpl. by rewrite Hp.
Qed.

Lemma edge_at_Some c s e d p :
  edge_at c s e d = Some p ↔
  ∃ b, oget (EdgeStores.out_key st s e d) c = Some b ∧ deserialize_props b = Ok p.
Proof.
  unfold edge_at. destruct (oget _ c) as [b|]; simpl; [|naive_solver].
  destruct (deserialize_props b) as [q|] eqn:E; simpl; split; intros Hx.
  - injection Hx as ->. eauto.
  - destruct Hx as (b' & [= <-] & Hb). congruence.
  - done.
  - destruct Hx as (b' & [= <-] & Hb). congruence.
Qed.

(** A write to the two entries of one edge. *)
Lemma edge_step c c' s e d :
  triple_ok s e d → edge_inv c →
  (∀ k, k ≠ EdgeStores.out_key st s e d → k ≠ EdgeStores.in_key st d e s → oget k c' = oget k c) →
  (∃ b p, oget (EdgeStores.out_key st s e d) c' = Some b ∧ deserialize_props b = Ok p ∧
          oget (EdgeStores.in_key st d e s) c' = Some []) ∨
  (oget (EdgeStores.out_key st s e d) c' = None ∧ oget (EdgeStores.in_key st d e s) c' = None) →
  edge_inv c' ∧ ∀ s' e' d', triple_ok s' e' d' → (s', e', d') ≠ (s, e, d) →
    edge_at c' s' e' d' = edge_at c s' e' d'.
Proof.
  intros Ht Hinv Hother Hnew. pose proof Ht as [].
  assert (∀ s' e' d', triple_ok s' e' d' → (s', e', d') ≠ (s, e, d) →
    oget (EdgeStores.out_key st s' e' d') c' = oget (EdgeStores.out_key st s' e' d') c ∧
    oget (EdgeStores.in_key st d' e' s') c' = oget (EdgeStores.in_key st d' e' s') c) as Hsame.
  { intros s' e' d' [] Hne. split; apply Hother.
    - intros (-> & -> & ->)%out_key_inj; done.
    - by apply out_in_ne.
    - intros E. by apply eq_sym, out_in_ne in E.
    - intros (-> & -> & ->)%in_key_inj; done. }
  split; [split|].
  - intros k v Hk Hp.
    destruct (decide (k = EdgeStores.out_key st s e d)) as [->|N1].
    { destruct Hnew as [(b & p & Hb & Hd & _)|[Hn _]]; [|congruence].
      exists s, e, d. split; [done|]. left. split; [done|]. exists p. congruence. }
    destruct (decide (k = EdgeStores.in_key st d e s)) as [->|N2].
    { destruct Hnew as [(b & p & _ & _ & Hb)|[_ Hn]]; [|congruence].
      exists s, e, d. split; [done|]. right. split; [done|]. congruence. }
    rewrite Hother in Hk by done. by apply (ei_region _ Hinv).
  - intros s' e' d' Ht'. destruct (decide ((s', e', d') = (s, e, d))) as [[= -> -> ->]|Hne].
    + destruct Hnew as [(b & p & -> & _ & ->)|[-> ->]]; split; intros []; eauto; done.
    + destruct (Hsame _ _ _ Ht' Hne) as [-> ->]. by apply (ei_mirror _ Hinv).
  - intros s' e' d' Ht' Hne. unfold edge_at. by destruct (Hsame _ _ _ Ht' Hne) as [-> _].
Qed.
End invariant.

Lemma props_roundtrip `{FieldsCodecLaws} p b : serialize_props p = Ok b → deserialize_props b = Ok p.
Proof.
  unfold serialize_props, deserialize_props. case_bool_decide as Hp; [by intros [= <-]; subst|].
  destruct (rmp_to_vec p) as [b'|] eqn:E; [|done]. intros [= <-].
  pose proof (rmp_nonempty _ _ E). destruct b'; [done|]. by rewrite (rmp_roundtrip _ _ E).
Qed.

(** ** The abstract edge store *)
Inductive edge_op :=
  | ERelate (edge : Edge)
  | EGet (src edge_type dst : string)
  | EDelete (src edge_type dst : string)
  | EUpdate (src edge_type dst : string) (props : Fields).

Inductive edge_reply :=
  | EUnit
  | EBool (b : bool)
  | EEdge (o : option Edge).

Definition edge_op_ok (op : edge_op) : Prop :=
  match op with
  | ERelate edge => triple_ok (e_src edge) (e_edge_type edge) (e_dst edge)
  | EGet s e d | EDelete s e d | EUpdate s e d _ => triple_ok s e d
  end.

Section run.
Context {S : Type} `{KvStore S} `{FieldsCodec} (st : EdgeStore).

Definition run_edge_op (op : edge_op) : M S edge_reply :=
  match op with
  | ERelate edge => _ ← EdgeStores.relate st edge; mret EUnit
  | EGet s e d => o ← EdgeStores.get st s e d; mret (EEdge o)
  | EDelete s e d => b ← EdgeStores.delete st s e d; mret (EBool b)
  | EUpdate s e d props => _ ← EdgeStores.update_properties st s e d props; mret EUnit
  end.

Fixpoint run_edge_ops (ops : list edge_op) (s : S) : list (result edge_reply) * S :=
  match ops with
  | [] => ([], s)
  | op :: ops' =>
      let '(r, s1) := run_edge_op op s in
      let '(rs, s2) := run_edge_ops ops' s1 in (r :: rs, s2)
  end.

(** The specification: a partial map from triples to properties. *)
Abbreviation edge_map := (string → string → string → option Fields).
Definition upd (f : edge_map) (s e d : string) (o : option Fields) : edge_map := λ s' e' d',
  if decide ((s', e', d') = (s, e, d)) then o else f s' e' d'.

Definition abs_edge_op (op : edge_op) (f : edge_map) : result edge_reply * edge_map :=
  match op with
  | ERelate (MkEdge s e d props) =>
      match serialize_props props with
      | Ok _ => (Ok EUnit, upd f s e d (Some props))
      | Err er => (Err er, f)
      end
  | EGet s e d => (Ok (EEdge (MkEdge s e d <$> f s e d)), f)
  | EDelete s e d => (Ok (EBool (bool_decide (is_Some (f s e d)))), upd f s e d None)
  | EUpdate s e d props =>
      match f s e d with
      | None => (Err (EdgeStores.edge_not_found s e d), f)
      | Some _ =>
          match serialize_props props with
          | Ok _ => (Ok EUnit, upd f s e d (Some props))
          | Err er => (Err er, f)
          end
      end
  end.
Fixpoint abs_edge_ops (ops : list edge_op) (f : edge_map) : list (result edge_reply) * edge_map :=
  match ops with
  | [] => ([], f)
  | op :: ops' =>
      let '(r, f1) := abs_edge_op op f in
      let '(rs, f2) := abs_edge_ops ops' f1 in (r :: rs, f2)
  end.

Definition represents (c : OMap bytes bytes) (f : edge_map) : Prop :=
  ∀ s e d, triple_ok s e d → edge_at st c s e d = f s e d.
End run.

Section refinement.
Context {S : Type} `{KL : KvLaws S} `{FL : FieldsCodecLaws} (st : EdgeStore).

Lemma contains_edge_run (s : S) a e d :
  edge_inv st (contents s) → triple_ok a e d →
  DllbStorage.contains (EdgeStores.out_key st a e d) s =
  (Ok (bool_decide (is_Some (edge_at st (contents s) a e d))), s).
Proof.
  intros Hinv Ht. unfold DllbStorage.contains. rewrite contains_law. do 2 f_equal.
  pose proof (edge_at_None st _ _ _ _ Hinv Ht) as Hn. unfold ocontains.
  destruct (oget _ _), (edge_at _ _ _ _ _); try done; exfalso; naive_solver.
Qed.

Lemma put_edge c f a e d b p :
  triple_ok a e d → edge_inv st c → represents st c f → deserialize_props b = Ok p →
  let c' := oextend c [(EdgeStores.out_key st a e d, b); (EdgeStores.in_key st d e a, [])] in
  edge_inv st c' ∧ represents st c' (upd f a e d (Some p)).
Proof.
  intros Ht Hinv Hf Hb c'. pose proof Ht as [].
  assert (c' = oinsert (EdgeStores.in_key st d e a) [] (oinsert (EdgeStores.out_key st a e d) b c))
    as Ec by done.
  assert (EdgeStores.out_key st a e d ≠ EdgeStores.in_key st d e a) as Hne by by apply out_in_ne.
  assert (oget (EdgeStores.out_key st a e d) c' = Some b) as Ho.
  { by rewrite Ec, oget_insert_ne, oget_insert_eq by done. }
  assert (oget (EdgeStores.in_key st d e a) c' = Some []) as Hi.
  { by rewrite Ec, oget_insert_eq. }
  destruct (edge_step st c c' a e d) as [Hinv' Hsame]; [done|done| |eauto 10|].
  { intros k Hk1 Hk2. by rewrite Ec, !oget_insert_ne. }
  split; [done|]. intros s' e' d' Ht'. unfold upd. case_decide as E.
  - injection E as -> -> ->. apply edge_at_Some. eauto.
  - rewrite Hsame by done. by apply Hf.
Qed.

Lemma delete_edge c f a e d :
  triple_ok a e d → edge_inv st c → represents st c f →
  let c' := odelete_all c [EdgeStores.out_key st a e d; EdgeStores.in_key st d e a] in
  edge_inv st c' ∧ represents st c' (upd f a e d None).
Proof.
  intros Hok Hinv Hf c'.
  assert (oget (EdgeStores.out_key st a e d) c' = None) as Hn1 by (apply oget_delete_all_in; left).
  destruct (edge_step st c c' a e d) as [Hi Hsame]; [done|done| | |].
  - intros k Hk1 Hk2. apply oget_delete_all_notin.
    rewrite !not_elem_of_cons. split_and!; [done|done|apply not_elem_of_nil].
  - right. split; [done|]. apply oget_delete_all_in. right. left.
  - split; [done|]. intros s2 e2 d2 Ht2. unfold upd. case_decide as E.
    + injection E as -> -> ->. unfold edge_at. by rewrite Hn1.
    + rewrite Hsame by done. by apply Hf.
Qed.
(** Replacing the properties of an edge leaves its inbound key as it is. *)
Lemma replace_edge (s : S) a e d b old :
  triple_ok a e d → edge_inv st (contents s) → edge_at st (contents s) a e d = Some old →
  oinsert (EdgeStores.out_key st a e d) b (contents s) =
  oextend (contents s) [(EdgeStores.out_key st a e d, b); (EdgeStores.in_key st d e a, [])].
Proof.
  intros Hok Hinv Hat. pose proof Hok as [].
  apply osorted_ext; [apply osorted_insert, contents_sorted|apply osorted_extend, contents_sorted|].
  intros k. unfold oextend. cbn [fold_left fst snd]. destruct (decide (k = EdgeStores.in_key st d e a)) as [->|Hne].
  - rewrite oget_insert_eq, oget_insert_ne by (by apply out_in_ne).
    apply edge_at_Some in Hat as (b0 & Hb0 & _).
    destruct (proj1 (ei_mirror _ _ Hinv a e d Hok) (mk_is_Some _ _ Hb0)) as [v Hv]. rewrite Hv.
    destruct (ei_region _ _ Hinv _ _ Hv (in_key_prefix st d e a))
      as (s2 & e2 & d2 & [] & [[Hk _]|[_ ->]]); [|done].
    exfalso. symmetry in Hk. revert Hk. by apply out_in_ne.
  - by rewrite (oget_insert_ne (EdgeStores.in_key st d e a)) by done.
Qed.

Lemma edge_op_refines op (s : S) f :
  edge_op_ok op → edge_inv st (contents s) → represents st (contents s) f →
  ∃ s', run_edge_op st op s = ((abs_edge_op op f).1, s') ∧ edge_inv st (contents s') ∧
        represents st (contents s') (abs_edge_op op f).2.
Proof.
  intros Hok Hinv Hf. destruct op as [[a e d props]|a e d|a e d|a e d props]; simpl in *.
  - unfold EdgeStores.relate. simpl.
    destruct (serialize_props props) as [b|er] eqn:Hs; [|by exists s].
    destruct (put_batch_law [(EdgeStores.out_key st a e d, b); (EdgeStores.in_key st d e a, [])] s)
      as (s' & Hp & Hc).
    exists s'. rewrite (SE_bind_ok _ _ s tt s'). 2:{ unfold lift, mbind at 1, SE_bind. exact Hp. }
    split; [done|]. rewrite Hc. apply put_edge; try done. by apply props_roundtrip.
  - exists s. split; [|done]. rewrite <- (Hf _ _ _ Hok). unfold EdgeStores.get, DllbStorage.get.
    unfold mbind at 1, SE_bind at 1. rewrite (SE_bind_ok _ _ s _ s (get_law _ s)).
    destruct (oget (EdgeStores.out_key st a e d) (contents s)) as [b|] eqn:E.
    + destruct (out_decodes st _ _ _ _ _ Hinv Hok E) as (p & Hp & Hat).
      rewrite (SE_bind_ok _ _ s p s) by (unfold lift; by rewrite Hp). by rewrite Hat.
    + unfold edge_at. by rewrite E.
  - rewrite <- (Hf _ _ _ Hok). unfold EdgeStores.delete.
    unfold mbind at 1, SE_bind at 1. rewrite (SE_bind_ok _ _ s _ s (contains_edge_run s a e d Hinv Hok)).
    case_bool_decide as Hex.
    + destruct (delete_batch_law [EdgeStores.out_key st a e d; EdgeStores.in_key st d e a] s)
        as (s' & Hd & Hc).
      exists s'. unfold DllbStorage.delete_batch. rewrite (SE_bind_ok _ _ s tt s' Hd).
      split; [done|]. rewrite Hc. by apply delete_edge.
    + exists s. split; [done|]. split; [done|]. intros s2 e2 d2 Ht2. unfold upd.
      case_decide as E; [|by apply Hf]. injection E as -> -> ->.
      destruct (edge_at st (contents s) a e d); [by destruct Hex|done].
  - rewrite <- (Hf _ _ _ Hok). unfold EdgeStores.update_properties.
    unfold mbind at 1, SE_bind at 1. rewrite (SE_bind_ok _ _ s _ s (contains_edge_run s a e d Hinv Hok)).
    destruct (edge_at st (contents s) a e d) as [old|] eqn:Hat; simpl; [|by exists s].
    destruct (serialize_props props) as [b|er] eqn:Hs; simpl; [|by exists s].
    destruct (put_law (EdgeStores.out_key st a e d) b s) as (s' & Hp & Hc).
    exists s'. unfold mbind, SE_bind, lift. unfold DllbStorage.put. rewrite Hp. split; [done|].
    rewrite Hc, (replace_edge _ _ _ _ _ old) by done. apply put_edge; try done. by apply props_roundtrip.
Qed.

Lemma edge_ops_refine ops (s : S) f :
  Forall edge_op_ok ops → edge_inv st (contents s) → represents st (contents s) f →
  (run_edge_ops st ops s).1 = (abs_edge_ops ops f).1 ∧
  edge_inv st (contents (run_edge_ops st ops s).2) ∧
  represents st (contents (run_edge_ops st ops s).2) (abs_edge_ops ops f).2.
Proof.
  intros Hok. revert s f; induction Hok as [|op ops Hop Hops IH]; intros s f Hinv Hf; simpl; [done|].
  destruct (edge_op_refines op s f Hop Hinv Hf) as (s1 & -> & Hi & Hr).
  destruct (abs_edge_op op f) as [r f1]. simpl in *. specialize (IH s1 f1 Hi Hr).
  destruct (run_edge_ops st ops s1), (abs_edge_ops ops f1). simpl in *. naive_solver.
Qed.
End refinement.
