(* ===== verification/Traverse.v ===== *)
(** * Graph traversal (crates/graph/src/traverse.rs)

    Single hops and walks as prefix scans over the edge region. *)

From S2P Require Export EdgeStore EdgeSpec.

Inductive Direction := Out | In.
Record HopSpec := MkHopSpec { direction : Direction; hop_edge_type : option string }.

(** [std::str::from_utf8(..).map_err(|e| Error::Storage(e.to_string()))]. *)
Definition utf8_or_storage (b : bytes) : result string :=
  ok_or (from_utf8 b) (Storage "{utf8 error}").

Definition parse_directed_remainder (remainder : bytes) (is_outgoing : bool) :
    result (string * string) :=
  match splitn 3 SEPARATOR remainder with
  | _ :: dir_and_type :: rest =>
      match rest with
      | other :: _ =>
          match dir_and_type with
          | [] => Err (Storage "malformed graph edge key: empty dir+type")
          | _ :: ty =>
              edge_type ← utf8_or_storage ty;
              other_vertex ← utf8_or_storage other;
              Ok (edge_type, other_vertex)
          end
      | [] => Err (Storage "malformed graph edge key: missing other vertex")
      end
  | _ => Err (Storage "malformed graph edge key: missing edge_type")
  end.

Definition parse_other_vertex (remainder : bytes) : result string :=
  match splitn 3 SEPARATOR remainder with
  | _ :: _ :: other :: _ => utf8_or_storage other
  | _ => Err (Storage "malformed graph edge key: missing other vertex")
  end.

(** [Traversal] borrows the edge store; its methods take it as [self]. *)
Module Traversals.
Section ops.
Context {S : Type} `{KvStore S} `{FieldsCodec}.

Definition scan_outgoing (self : EdgeStore) (src : string) (prefix : bytes) : M S (list Edge) :=
  entries ← DllbStorage.prefix_scan prefix;
  lift (traverse (λ kv : bytes * bytes,
    parts ← parse_key kv.1;
    '(edge_type, dst) ← parse_directed_remainder (kp_remainder parts) true;
    properties ← deserialize_props kv.2;
    Ok (MkEdge src edge_type dst properties)) entries).

Definition outgoing (self : EdgeStore) (src : string) : M S (list Edge) :=
  scan_outgoing self src (vertex_outgoing_prefix (es_ns self) (es_db self) (es_table self) src).

Definition outgoing_typed (self : EdgeStore) (src edge_type : string) : M S (list Edge) :=
  scan_outgoing self src
    (vertex_outgoing_typed_prefix (es_ns self) (es_db self) (es_table self) src edge_type).

Definition outgoing_filtered (self : EdgeStore) (src : string) (f : Edge → bool) : M S (list Edge) :=
  edges ← outgoing self src; mret (List.filter f edges).

(** Incoming entries are empty: the properties come from a point read of the
    outgoing entry. *)
Definition scan_incoming (self : EdgeStore) (dst : string) (prefix : bytes) : M S (list Edge) :=
  entries ← DllbStorage.prefix_scan prefix;
  for_map (λ kv : bytes * bytes,
    parts ← lift (parse_key kv.1);
    '(edge_type, src) ← lift (parse_directed_remainder (kp_remainder parts) false);
    o ← EdgeStores.get self src edge_type dst;
    mret (MkEdge src edge_type dst (match o with Some e => e_properties e | None => [] end))) entries.

Definition incoming (self : EdgeStore) (dst : string) : M S (list Edge) :=
  scan_incoming self dst (vertex_incoming_prefix (es_ns self) (es_db self) (es_table self) dst).

Definition incoming_typed (self : EdgeStore) (dst edge_type : string) : M S (list Edge) :=
  scan_incoming self dst
    (vertex_incoming_typed_prefix (es_ns self) (es_db self) (es_table self) dst edge_type).

Definition scan_neighbors (self : EdgeStore) (prefix : bytes) : M S (list string) :=
  keys ← DllbStorage.scan_prefix_keys prefix;
  lift (traverse (λ k, parts ← parse_key k; parse_other_vertex (kp_remainder parts)) keys).

Definition outgoing_neighbors (self : EdgeStore) (src : string) : M S (list string) :=
  scan_neighbors self (vertex_outgoing_prefix (es_ns self) (es_db self) (es_table self) src).
Definition outgoing_neighbors_typed (self : EdgeStore) (src edge_type : string) : M S (list string) :=
  scan_neighbors self
    (vertex_outgoing_typed_prefix (es_ns self) (es_db self) (es_table self) src edge_type).
Definition incoming_neighbors (self : EdgeStore) (dst : string) : M S (list string) :=
  scan_neighbors self (vertex_incoming_prefix (es_ns self) (es_db self) (es_table self) dst).
Definition incoming_neighbors_typed (self : EdgeStore) (dst edge_type : string) : M S (list string) :=
  scan_neighbors self
    (vertex_incoming_typed_prefix (es_ns self) (es_db self) (es_table self) dst edge_type).

Definition hop_edges (self : EdgeStore) (hop : HopSpec) (current : string) : M S (list Edge) :=
  match direction hop, hop_edge_type hop with
  | Out, Some et => outgoing_typed self current et
  | Out, None => outgoing self current
  | In, Some et => incoming_typed self current et
  | In, None => incoming self current
  end.

Definition next_vertex (hop : HopSpec) (edge : Edge) : string :=
  match direction hop with Out => e_dst edge | In => e_src edge end.

(** The paths of one hop; a path is never empty, so [path.last().unwrap()]
    succeeds. *)
Definition walk_hop (self : EdgeStore) (hop : HopSpec) (paths : list (list string)) :
    M S (list (list string)) :=
  nexts ← for_map (λ path,
    edges ← hop_edges self hop (List.last path ""%string);
    mret (map (λ edge, path ++ [next_vertex hop edge]) edges)) paths;
  mret (concat nexts).

Fixpoint walk_loop (self : EdgeStore) (hops : list HopSpec) (paths : list (list string)) :
    M S (list (list string)) :=
  match hops with
  | [] => mret paths
  | hop :: hops' => next_paths ← walk_hop self hop paths; walk_loop self hops' next_paths
  end.

Definition walk (self : EdgeStore) (start : string) (hops : list HopSpec) : M S (list (list string)) :=
  walk_loop self hops [[start]].
End ops.
End Traversals.

(** ** Decoding an edge region *)
Section regions.
Context `{FieldsCodec} (st : EdgeStore) (Hst : store_wf st).

Definition edge_ok (ed : Edge) : Prop := triple_ok (e_src ed) (e_edge_type ed) (e_dst ed).
Definition edge_stored (c : OMap bytes bytes) (ed : Edge) : Prop :=
  edge_at st c (e_src ed) (e_edge_type ed) (e_dst ed) = Some (e_properties ed).
(** The outgoing ([true]) or incoming entry key of an edge. *)
Definition entry_key (be : bool * Edge) : bytes :=
  if be.1 then EdgeStores.out_key st (e_src be.2) (e_edge_type be.2) (e_dst be.2)
  else EdgeStores.in_key st (e_dst be.2) (e_edge_type be.2) (e_src be.2).

Definition entry_for (c : OMap bytes bytes) (kv : bytes * bytes) (be : bool * Edge) : Prop :=
  kv.1 = entry_key be ∧ edge_ok be.2 ∧ edge_stored c be.2 ∧
  (be.1 = true → deserialize_props kv.2 = Ok (e_properties be.2)).

Lemma entry_key_inj c be1 be2 :
  edge_ok be1.2 → edge_ok be2.2 → edge_stored c be1.2 → edge_stored c be2.2 →
  entry_key be1 = entry_key be2 → be1 = be2.
Proof.
  destruct be1 as [b1 [s1 e1 d1 p1]], be2 as [b2 [s2 e2 d2 p2]]. unfold entry_key, edge_stored. simpl.
  intros [] [] S1 S2. destruct b1, b2.
  - intros (-> & -> & ->)%out_key_inj; [|done..]. congruence.
  - by intros ?%out_in_ne.
  - by intros E; apply eq_sym, out_in_ne in E.
  - intros (-> & -> & ->)%in_key_inj; [|done..]. congruence.
Qed.

Lemma region_entry c k v :
  edge_inv st c → oget k c = Some v → EdgeStores.edge_prefix st `prefix_of` k →
  ∃ be, entry_for c (k, v) be.
Proof.
  intros Hinv Hk Hp. destruct (ei_region _ _ Hinv _ _ Hk Hp) as (s & e & d & Ht & [[-> [p Hd]]|[-> ->]]).
  - exists (true, MkEdge s e d p). split_and!; [done|done| |done].
    unfold edge_stored. simpl. apply edge_at_Some. eauto.
  - destruct (proj2 (ei_mirror _ _ Hinv s e d Ht) (mk_is_Some _ _ Hk)) as [b Hb].
    destruct (out_decodes _ _ _ _ _ _ Hinv Ht Hb) as (p & _ & Hat).
    exists (false, MkEdge s e d p). by split_and!.
Qed.

Lemma region_decode c p :
  osorted c → edge_inv st c → EdgeStores.edge_prefix st `prefix_of` p → prefix_end p ≠ [] →
  ∃ des, Forall2 (entry_for c) (orange p (prefix_end p) c) des ∧ NoDup des ∧
    ∀ be, be ∈ des ↔ edge_ok be.2 ∧ edge_stored c be.2 ∧ p `prefix_of` entry_key be.
Proof.
  intros Hs Hinv Hep Hpe.
  assert (∀ kv, kv ∈ orange p (prefix_end p) c ↔ oget kv.1 c = Some kv.2 ∧ p `prefix_of` kv.1) as Hin.
  { intros [k v]. rewrite orange_elem, <- oget_iff, <- andb_true_iff, prefix_range by done. done. }
  assert (NoDup (map fst (orange p (prefix_end p) c))) as Hnd
    by by apply osorted_NoDup_keys, osorted_filter.
  assert (∃ des, Forall2 (entry_for c) (orange p (prefix_end p) c) des) as [des Hdes].
  { assert (∀ kv, kv ∈ orange p (prefix_end p) c → ∃ be, entry_for c kv be) as Hall.
    { intros [k v] [Hk Hp]%Hin. apply region_entry; [done..|]. by etrans. }
    clear -Hall. induction (orange p (prefix_end p) c) as [|kv l IH]; [by exists []|].
    destruct IH as [des Hdes]; [intros; apply Hall; by right|].
    destruct (Hall kv) as [be Hbe]; [by left|]. exists (be :: des). by constructor. }
  exists des. split; [done|]. split.
  - clear Hin. induction Hdes as [|kv be l des Hbe Hdes IH]; [constructor|].
    simpl in Hnd. inversion Hnd as [|? ? Hn Hnd']; subst. constructor; [|auto].
    intros Hin. apply Hn. apply (Forall2_elem_of_r _ _ _ _ Hdes) in Hin as (kv' & Hkv' & Hf).
    apply list_elem_of_fmap. exists kv'. split; [|done]. destruct Hbe as [-> _], Hf as [-> _]. done.
  - intros be. split.
    + intros Hb. apply (Forall2_elem_of_r _ _ _ _ Hdes) in Hb as (kv & Hkv & Hk & Hok & Hst' & _).
      split_and!; [done..|]. rewrite <- Hk. by apply Hin.
    + intros (Hok & Hst' & Hp).
      assert (∃ v, oget (entry_key be) c = Some v) as [v Hv].
      { unfold edge_stored in Hst'. apply edge_at_Some in Hst' as (b & Hb & _).
        destruct be as [[] ed]; unfold entry_key; simpl; [by exists b|].
        apply (ei_mirror _ _ Hinv _ _ _ Hok). eauto. }
      assert ((entry_key be, v) ∈ orange p (prefix_end p) c) as Hkv by (by apply Hin).
      apply (Forall2_elem_of_l _ _ _ _ Hdes) in Hkv as (be' & Hb' & Hk & Hok' & Hst2 & _).
      simpl in Hk. apply (entry_key_inj c) in Hk; [by subst|done..].
Qed.
End regions.
