(* ===== verification/GraphTheorems.v ===== *)
(** * Traversals return the stored edges

    Every single-hop scan returns exactly the stored edges of its direction,
    vertex and type; the neighbour scans agree with the edge scans; a walk
    returns exactly the paths that follow stored edges. *)

From S2P Require Export Traverse.

(** The scan prefix of a direction, a vertex and an optional type. *)
Definition dir_prefix (st : EdgeStore) (out : bool) (v : string) (et : option string) : bytes :=
  match out, et with
  | true, None => vertex_outgoing_prefix (es_ns st) (es_db st) (es_table st) v
  | true, Some t => vertex_outgoing_typed_prefix (es_ns st) (es_db st) (es_table st) v t
  | false, None => vertex_incoming_prefix (es_ns st) (es_db st) (es_table st) v
  | false, Some t => vertex_incoming_typed_prefix (es_ns st) (es_db st) (es_table st) v t
  end.

(** The end of an edge a scan starts from, and the other one. *)
Definition near (out : bool) (ed : Edge) : string := if out then e_src ed else e_dst ed.
Definition far (out : bool) (ed : Edge) : string := if out then e_dst ed else e_src ed.
Definition type_matches (et : option string) (ed : Edge) : Prop :=
  match et with Some t => e_edge_type ed = t | None => True end.

Definition vertex_ok (v : string) : Prop := seg_ok v ∧ is_str v.
Definition type_ok (et : option string) : Prop :=
  match et with Some t => seg_ok t | None => True end.

Section prefixes.
Context (st : EdgeStore).

Lemma dir_prefix_edge out v et : EdgeStores.edge_prefix st `prefix_of` dir_prefix st out v et.
Proof.
  unfold EdgeStores.edge_prefix. destruct out, et; simpl; autorewrite with dllb_shape;
    apply prefix_app, prefix_cons, prefix_nil.
Qed.

Lemma dir_prefix_end out v et : prefix_end (dir_prefix st out v et) ≠ [].
Proof.
  destruct out, et; simpl; autorewrite with dllb_shape;
    rewrite ?app_comm_cons, ?app_assoc; try (by apply prefix_end_tag);
    change (?x ++ SEPARATOR :: [?y]) with (x ++ [SEPARATOR] ++ [y]); rewrite ?app_assoc;
    by apply prefix_end_tag.
Qed.

Lemma cons_ne_prefix (a b : byte) (x y : bytes) : a ≠ b → ¬ (a :: x) `prefix_of` (b :: y).
Proof. intros Hne Hp. by apply prefix_cons_inv_1 in Hp. Qed.

Lemma dir_prefix_iff out v et be :
  vertex_ok v → type_ok et → edge_ok be.2 →
  dir_prefix st out v et `prefix_of` entry_key st be ↔
  be.1 = out ∧ near out be.2 = v ∧ type_matches et be.2.
Proof.
  intros [Hv _] He []. destruct be as [b ed]. unfold entry_key, EdgeStores.out_key, EdgeStores.in_key.
  simpl in *.
  assert (dir.OUTGOING ≠ dir.INCOMING) by (intros E; by apply (f_equal Byte.to_N) in E).
  destruct out, b, et as [t|]; simpl in *.
  all: first
    [rewrite outgoing_typed_under by done; naive_solver
    |rewrite incoming_typed_under by done; naive_solver
    |autorewrite with dllb_shape; rewrite prefix_head_iff; split;
     [intros Hp%prefix_cons_inv_2; apply prefix_seg_iff in Hp as [-> Hp]; [|done..];
      first [by apply cons_ne_prefix in Hp|by auto]
     |first [by intros [? _]|intros (_ & <- & _); apply prefix_cons, prefix_app, prefix_cons, prefix_cons, prefix_nil]]].
Qed.
End prefixes.

Section scans.
Context {S : Type} `{KL : KvLaws S} `{FL : FieldsCodecLaws} (st : EdgeStore) (Hst : store_wf st).
Implicit Types (s : S).

(** The stored edges a scan of one direction, vertex and type returns. *)
Definition scanned (c : OMap bytes bytes) (out : bool) (v : string) (et : option string)
    (edges : list Edge) : Prop :=
  NoDup edges ∧ ∀ ed, ed ∈ edges ↔
    edge_ok ed ∧ edge_stored st c ed ∧ near out ed = v ∧ type_matches et ed.

Lemma scan_decode s out v et :
  edge_inv st (contents s) → vertex_ok v → type_ok et →
  let p := dir_prefix st out v et in
  ∃ edges, Forall2 (λ kv ed, entry_for st (contents s) kv (out, ed) ∧ near out ed = v)
             (orange p (prefix_end p) (contents s)) edges ∧
           scanned (contents s) out v et edges.
Proof using KL.
  intros Hinv Hv He p.
  destruct (region_decode st (contents s) p) as (des & Hdes & Hnd & Hiff).
  { apply contents_sorted. } { done. } { apply dir_prefix_edge. } { apply dir_prefix_end. }
  assert (∀ be, be ∈ des → be.1 = out ∧ near out be.2 = v) as Hout.
  { intros be (Hok & _ & Hp)%Hiff. by apply dir_prefix_iff in Hp as (? & ? & _). }
  exists (map snd des). split; [|split].
  - clear -Hdes Hout. induction Hdes as [|kv [b ed] l des He Hdes IH]; simpl; constructor.
    + destruct (Hout (b, ed)) as [Hb Hn]; [by left|]. simpl in *. by subst.
    + apply IH. intros be Hbe. apply Hout. by right.
  - clear -Hnd Hout. induction Hnd as [|[b ed] des Hn Hnd IH]; simpl; constructor.
    + intros ([b' ed'] & E & Hin)%list_elem_of_fmap. simpl in E. subst ed'.
      destruct (Hout (b, ed)) as [Eb _]; [by left|]. destruct (Hout (b', ed)) as [Eb' _]; [by right|].
      simpl in *. by subst.
    + apply IH. intros be Hbe. apply Hout. by right.
  - intros ed. rewrite list_elem_of_fmap. split.
    + intros (be & -> & Hin). pose proof (Hout be Hin) as [Hb Hn]. apply Hiff in Hin as (? & ? & Hp).
      apply dir_prefix_iff in Hp as (_ & _ & Ht); [|done..]. done.
    + intros (Hok & Hs & Hn & Ht). exists (out, ed). split; [done|]. apply Hiff.
      split_and!; [done..|]. by apply dir_prefix_iff.
Qed.

Lemma parse_entry c kv out ed b :
  entry_for st c kv (out, ed) →
  ∃ parts, parse_key kv.1 = Ok parts ∧
    parse_directed_remainder (kp_remainder parts) b = Ok (e_edge_type ed, far out ed) ∧
    parse_other_vertex (kp_remainder parts) = Ok (far out ed).
Proof using Hst.
  intros (Hk & [] & _). unfold entry_key in Hk. simpl in *.
  destruct out; rewrite Hk, ?parse_out, ?parse_in by done; eexists; split; [done| |done|];
    unfold parse_directed_remainder, parse_other_vertex; cbn [kp_remainder];
    rewrite splitn_triple by auto with dllb; unfold utf8_or_storage;
    by rewrite !from_utf8_as_bytes.
Qed.

Lemma scan_outgoing_run s v et :
  edge_inv st (contents s) → vertex_ok v → type_ok et →
  ∃ edges, Traversals.scan_outgoing st v (dir_prefix st true v et) s = (Ok edges, s) ∧
           scanned (contents s) true v et edges.
Proof using KL Hst.
  intros Hinv Hv He. destruct (scan_decode s true v et Hinv Hv He) as (edges & Hf & Hsc).
  exists edges. split; [|done]. unfold Traversals.scan_outgoing, DllbStorage.prefix_scan.
  rewrite (SE_bind_ok _ _ s _ s (prefix_scan_law _ s)). unfold lift. f_equal.
  apply traverse_Forall2. eapply Forall2_impl; [exact Hf|]. intros kv ed [Hen Hn].
  destruct (parse_entry _ _ _ _ true Hen) as (parts & -> & Hp & _). cbn [mbind Result_bind].
  rewrite Hp. simpl. destruct Hen as (_ & _ & _ & Hd). simpl in *.
  rewrite Hd by done. simpl. subst v. by destruct ed.
Qed.

Lemma scan_incoming_run s v et :
  edge_inv st (contents s) → vertex_ok v → type_ok et →
  ∃ edges, Traversals.scan_incoming st v (dir_prefix st false v et) s = (Ok edges, s) ∧
           scanned (contents s) false v et edges.
Proof using KL Hst.
  intros Hinv Hv He. destruct (scan_decode s false v et Hinv Hv He) as (edges & Hf & Hsc).
  exists edges. split; [|done]. unfold Traversals.scan_incoming, DllbStorage.prefix_scan.
  rewrite (SE_bind_ok _ _ s _ s (prefix_scan_law _ s)). clear Hsc.
  induction Hf as [|kv ed l edges [Hen Hn] Hf IH]; [done|]. cbn [for_map].
  destruct (parse_entry _ _ _ _ false Hen) as (parts & Hk & Hp & _).
  rewrite (SE_bind_ok _ _ s ed s); [by rewrite (SE_bind_ok _ _ s edges s IH)|].
  rewrite (SE_bind_ok _ _ s parts s) by (unfold lift; by rewrite Hk).
  rewrite (SE_bind_ok _ _ s _ s) by (unfold lift; by rewrite Hp). cbn beta iota.
  destruct Hen as (_ & Hok & Hse & _). simpl in *. subst v.
  rewrite (SE_bind_ok _ _ s (Some ed) s); [by destruct ed|].
  unfold EdgeStores.get, DllbStorage.get. rewrite (SE_bind_ok _ _ s _ s (get_law _ s)).
  apply edge_at_Some in Hse as (b & Hb & Hd). rewrite Hb.
  rewrite (SE_bind_ok _ _ s (e_properties ed) s) by (unfold lift; by rewrite Hd).
  by destruct ed.
Qed.

Lemma scan_neighbors_run s out v et :
  edge_inv st (contents s) → vertex_ok v → type_ok et →
  ∃ edges, Traversals.scan_neighbors st (dir_prefix st out v et) s = (Ok (map (far out) edges), s) ∧
           scanned (contents s) out v et edges.
Proof using KL Hst.
  intros Hinv Hv He. destruct (scan_decode s out v et Hinv Hv He) as (edges & Hf & Hsc).
  exists edges. split; [|done]. unfold Traversals.scan_neighbors, DllbStorage.scan_prefix_keys.
  rewrite (SE_bind_ok _ _ s _ s (scan_prefix_keys_law _ s)). unfold lift. f_equal.
  apply traverse_Forall2, Forall2_fmap_2. eapply Forall2_impl; [exact Hf|]. intros kv ed [Hen Hn].
  by destruct (parse_entry _ _ _ _ true Hen) as (parts & -> & _ & Hp).
Qed.
End scans.

(** * Theorems about the edge store and traversals *)

Definition is_out (hop : HopSpec) : bool := match direction hop with Out => true | In => false end.

(** One hop along a stored edge. *)
Definition hop_step `{FieldsCodec} (st : EdgeStore) (c : OMap bytes bytes) (hop : HopSpec)
    (u w : string) : Prop :=
  ∃ ed, edge_ok ed ∧ edge_stored st c ed ∧ near (is_out hop) ed = u ∧ far (is_out hop) ed = w ∧
        type_matches (hop_edge_type hop) ed.

(** [ws] follows the hops from [u]. *)
Fixpoint follows `{FieldsCodec} (st : EdgeStore) (c : OMap bytes bytes) (hops : list HopSpec)
    (u : string) (ws : list string) : Prop :=
  match hops, ws with
  | [], [] => True
  | hop :: hops', w :: ws' => hop_step st c hop u w ∧ follows st c hops' w ws'
  | _, _ => False
  end.

Section walks.
Context {S : Type} `{KL : KvLaws S} `{FL : FieldsCodecLaws} (st : EdgeStore) (Hst : store_wf st).

Lemma hop_edges_run s hop v :
  edge_inv st (contents s) → vertex_ok v → type_ok (hop_edge_type hop) →
  ∃ edges, Traversals.hop_edges st hop v s = (Ok edges, s) ∧
           scanned st (contents s) (is_out hop) v (hop_edge_type hop) edges.
Proof using KL Hst.
  intros Hinv Hv He. unfold Traversals.hop_edges, is_out.
  destruct hop as [[|] [t|]]; simpl in *.
  - apply (scan_outgoing_run st Hst s v (Some t)); done.
  - apply (scan_outgoing_run st Hst s v None); done.
  - apply (scan_incoming_run st Hst s v (Some t)); done.
  - apply (scan_incoming_run st Hst s v None); done.
Qed.

Lemma last_ok (path : list string) : path ≠ [] → Forall vertex_ok path → vertex_ok (List.last path ""%string).
Proof.
  induction path as [|v path IH]; [done|]. intros _ Hf. inversion Hf; subst.
  destruct path as [|w path]; [done|]. by apply IH.
Qed.

Definition path_ok (path : list string) : Prop := path ≠ [] ∧ Forall vertex_ok path.

Lemma far_ok out ed : edge_ok ed → vertex_ok (far out ed).
Proof. intros []. by destruct out. Qed.

(** One round of the walk extends every path by every matching edge. *)
Lemma walk_hop_run s hop paths :
  edge_inv st (contents s) → type_ok (hop_edge_type hop) → Forall path_ok paths →
  ∃ next, Traversals.walk_hop st hop paths s = (Ok next, s) ∧ Forall path_ok next ∧
    ∀ q, q ∈ next ↔ ∃ p w, p ∈ paths ∧ hop_step st (contents s) hop (List.last p ""%string) w ∧ q = p ++ [w].
Proof using KL Hst.
  intros Hinv He Hp. unfold Traversals.walk_hop.
  assert (∃ nexts, for_map (λ path,
      edges ← Traversals.hop_edges st hop (List.last path ""%string);
      mret (map (λ edge, path ++ [Traversals.next_vertex hop edge]) edges)) paths s = (Ok nexts, s) ∧
      Forall path_ok (concat nexts) ∧
      ∀ q, q ∈ concat nexts ↔ ∃ p w, p ∈ paths ∧ hop_step st (contents s) hop (List.last p ""%string) w ∧
                                     q = p ++ [w]) as (nexts & Hrun & Hok & Hq).
  { induction Hp as [|p paths [Hne Hp] Hps IH].
    { exists []. split; [done|]. split; [constructor|]. intros q. split; [by intros ?%elem_of_nil|].
      by intros (p & w & ?%elem_of_nil & _). }
    destruct IH as (nexts & Hrun & Hok & Hq).
    destruct (hop_edges_run s hop (List.last p ""%string)) as (edges & Hed & _ & Hiff);
      [done|by apply last_ok|done|].
    exists (map (λ edge, p ++ [Traversals.next_vertex hop edge]) edges :: nexts). cbn [for_map].
    assert (∀ ed, Traversals.next_vertex hop ed = far (is_out hop) ed) as Hnv
      by (intros; by destruct hop as [[] ?]).
    split; [|split].
    - rewrite (SE_bind_ok _ _ s (map (λ edge, p ++ [Traversals.next_vertex hop edge]) edges) s)
        by (by rewrite (SE_bind_ok _ _ s edges s Hed)).
      by rewrite (SE_bind_ok _ _ s nexts s Hrun).
    - simpl. apply Forall_app. split; [|done]. apply Forall_forall. intros q.
      intros (ed & -> & Hin)%list_elem_of_fmap. apply Hiff in Hin as (Hok' & _). split.
      + by intros [_ ?]%app_nil.
      + apply Forall_app. split; [done|]. constructor; [|constructor]. rewrite Hnv. by apply far_ok.
    - intros q. simpl. rewrite elem_of_app, Hq, list_elem_of_fmap. split.
      + intros [(ed & -> & (? & ? & ? & ?)%Hiff)|(p' & w & Hin & Hw & ->)].
        * exists p, (Traversals.next_vertex hop ed). split; [left|]. split; [|done].
          exists ed. by rewrite Hnv.
        * exists p', w. split; [by right|done].
      + intros (p' & w & [->|Hin]%elem_of_cons & Hw & ->); [left|right; eauto].
        destruct Hw as (ed & ? & ? & ? & <- & ?). exists ed. rewrite Hnv. split; [done|].
        by apply Hiff. }
  exists (concat nexts). by rewrite (SE_bind_ok _ _ s nexts s Hrun).
Qed.

Lemma last_snoc (p : list string) w : List.last (p ++ [w]) ""%string = w.
Proof. apply last_last. Qed.

Lemma walk_loop_run s hops paths :
  edge_inv st (contents s) → Forall (λ h, type_ok (hop_edge_type h)) hops → Forall path_ok paths →
  ∃ out, Traversals.walk_loop st hops paths s = (Ok out, s) ∧
    ∀ q, q ∈ out ↔ ∃ p ws, p ∈ paths ∧ follows st (contents s) hops (List.last p ""%string) ws ∧
                           q = p ++ ws.
Proof using KL Hst.
  intros Hinv Hh. revert paths. induction Hh as [|hop hops He Hh IH]; intros paths Hp; simpl.
  - exists paths. split; [done|]. intros q. split.
    + intros Hq. exists q, []. by rewrite app_nil_r.
    + intros (p & [|] & Hin & Hf & ->); [by rewrite app_nil_r|done].
  - destruct (walk_hop_run s hop paths Hinv He Hp) as (next & Hrun & Hok & Hnext).
    rewrite (SE_bind_ok _ _ s next s Hrun). destruct (IH next Hok) as (out & Hout & Hq).
    exists out. split; [done|]. intros q. rewrite Hq. split.
    + intros (p & ws & (p' & w & Hin & Hw & ->)%Hnext & Hf & ->). rewrite last_snoc in Hf.
      exists p', (w :: ws). split; [done|]. split; [done|]. by rewrite <- app_assoc.
    + intros (p & [|w ws] & Hin & Hf & ->); [done|]. destruct Hf as [Hw Hf].
      exists (p ++ [w]), ws. rewrite last_snoc, <- app_assoc. split; [|done]. apply Hnext. eauto.
Qed.
End walks.

(** *** Whole-table scans *)
Section tables.
Context {S : Type} `{KL : KvLaws S} `{FL : FieldsCodecLaws} (st : EdgeStore) (Hst : store_wf st).


Definition outgoing_only (be : bool * Edge) : option Edge := if be.1 then Some be.2 else None.

Lemma table_decode s :
  edge_inv st (contents s) →
  let p := EdgeStores.edge_prefix st in
  ∃ des, Forall2 (entry_for st (contents s)) (orange p (prefix_end p) (contents s)) des ∧
    NoDup (omap outgoing_only des) ∧
    ∀ ed, ed ∈ omap outgoing_only des ↔ edge_ok ed ∧ edge_stored st (contents s) ed.
Proof using KL.
  intros Hinv p. destruct (region_decode st (contents s) p) as (des & Hdes & Hnd & Hiff).
  { apply contents_sorted. } { done. } { done. } { apply edge_prefix_end. }
  exists des. split; [done|]. split.
  - clear -Hnd. induction Hnd as [|[b ed] des Hn Hnd IH]; simpl; [constructor|].
    destruct b; simpl; [|done]. constructor; [|done].
    intros ([b ed'] & Hin & E)%list_elem_of_omap. destruct b; [|done]. injection E as ->. done.
  - intros ed. rewrite list_elem_of_omap. split.
    + intros ([b ed'] & (? & ? & _)%Hiff & E). destruct b; [|done]. by injection E as ->.
    + intros [Hok Hse]. exists (true, ed). split; [|done]. apply Hiff. split_and!; [done..|].
      apply out_key_prefix.
Qed.

Lemma segs_entry c kv be :
  entry_for st c kv be →
  EdgeStores.outgoing_segs kv.1 =
  Ok (if be.1 then Some (e_src be.2, as_bytes (e_edge_type be.2), e_dst be.2) else None).
Proof using Hst.
  intros (-> & Hok & _). unfold entry_key. destruct be as [[] ed]; simpl.
  - by apply outgoing_segs_out.
  - by apply outgoing_segs_in.
Qed.

(** A scan that maps each entry by [f] returns [g] of the stored edges. *)
Lemma traverse_opt_entries {A B} (proj : bytes * bytes → A) (f : A → result (option B)) (g : Edge → B)
    c l des :
  Forall2 (entry_for st c) l des →
  (∀ kv be, entry_for st c kv be → f (proj kv) = Ok (if be.1 then Some (g be.2) else None)) →
  traverse_opt f (map proj l) = Ok (map g (omap outgoing_only des)).
Proof.
  intros Hf Hfg. induction Hf as [|kv be l des Hen Hf IH]; [done|]. cbn [map traverse_opt].
  rewrite (Hfg kv be Hen), IH. destruct be as [[] ed]; done.
Qed.

Definition weight_of (props : Fields) : f64 :=
  match oget "weight"%string props with
  | Some (VFloat f) => f
  | Some (VInt n) => f64_of_i64 n
  | _ => f64_one
  end.

Lemma edge_weight_props v p : deserialize_props v = Ok p → EdgeStores.edge_weight v = weight_of p.
Proof.
  unfold deserialize_props, EdgeStores.edge_weight. destruct v as [|b v]; [by intros [= <-]|].
  destruct (rmp_from_slice (b :: v)); [|done]. by intros [= ->].
Qed.

Lemma table_scans_run s :
  edge_inv st (contents s) →
  ∃ edges, EdgeStores.scan_all_outgoing_edges st s = (Ok edges, s) ∧
    EdgeStores.scan_all_edges st s = (Ok (map (λ ed, (e_src ed, e_dst ed)) edges), s) ∧
    EdgeStores.scan_all_outgoing st s =
      (Ok (map (λ ed, (e_src ed, e_dst ed, weight_of (e_properties ed))) edges), s) ∧
    NoDup edges ∧ ∀ ed, ed ∈ edges ↔ edge_ok ed ∧ edge_stored st (contents s) ed.
Proof using KL Hst.
  intros Hinv. destruct (table_decode s Hinv) as (des & Hdes & Hnd & Hiff).
  set (l := orange _ _ _) in Hdes. exists (omap outgoing_only des). split_and!; [| | |done|done].
  - unfold EdgeStores.scan_all_outgoing_edges, DllbStorage.prefix_scan.
    rewrite (SE_bind_ok _ _ s l s (prefix_scan_law _ s)). unfold lift. f_equal.
    rewrite <- (map_id (omap outgoing_only des)), <- (map_id l).
    apply (traverse_opt_entries id _ id (contents s)); [done|]. intros kv be Hen. unfold id.
    rewrite (segs_entry _ _ _ Hen). destruct be as [[] ed]; [|done]. cbn [mbind Result_bind fst snd].
    destruct Hen as (_ & Hok & _ & Hd). rewrite from_utf8_as_bytes by apply Hok.
    simpl in Hd. rewrite Hd by done. simpl. by destruct ed.
  - unfold EdgeStores.scan_all_edges, DllbStorage.scan_prefix_keys.
    rewrite (SE_bind_ok _ _ s (map fst l) s (scan_prefix_keys_law _ s)). unfold lift. f_equal.
    apply (traverse_opt_entries fst _ (λ ed, (e_src ed, e_dst ed)) (contents s)); [done|].
    intros kv be Hen. rewrite (segs_entry _ _ _ Hen). by destruct be as [[] ed].
  - unfold EdgeStores.scan_all_outgoing, DllbStorage.prefix_scan.
    rewrite (SE_bind_ok _ _ s l s (prefix_scan_law _ s)). unfold lift. f_equal.
    rewrite <- (map_id l).
    apply (traverse_opt_entries id _ (λ ed, (e_src ed, e_dst ed, weight_of (e_properties ed))) (contents s));
      [done|].
    intros kv be Hen. unfold id. rewrite (segs_entry _ _ _ Hen). destruct be as [[] ed]; [|done].
    destruct Hen as (_ & _ & _ & Hd). simpl in *. by rewrite (edge_weight_props _ _ (Hd eq_refl)).
Qed.
End tables.

(** ** A concrete graph *)
Definition follow_store : EdgeStore := EdgeStores.new "n" "d" "follows".
Definition edge_ab : Edge := MkEdge "a" "knows" "b" [("weight"%string, VInt 3)].
Definition edge_bc : Edge := MkEdge "b" "likes" "c" [].
Definition graph_ops : list edge_op := [ERelate edge_ab; ERelate edge_bc].
Definition small_graph : MemRedb.db := (run_edge_ops follow_store graph_ops MemRedb.empty).2.

Lemma follow_store_wf : store_wf follow_store.
Proof. split; compute_decide. Qed.
Lemma vertex_a : vertex_ok "a".
Proof. split; [compute_decide|reflexivity]. Qed.
Lemma graph_ops_ok : Forall edge_op_ok graph_ops.
Proof. repeat constructor; first [compute_decide|reflexivity]. Qed.
Lemma represents_empty : represents follow_store [] (λ _ _ _, None).
Proof. done. Qed.
Lemma small_graph_inv : edge_inv follow_store (contents small_graph).
Proof.
  apply (edge_ops_refine follow_store graph_ops MemRedb.empty (λ _ _ _, None));
    [apply graph_ops_ok|apply edge_inv_empty|apply represents_empty].
Qed.

(** C10.  The edge store refines a partial map from (source, type, target) to
    properties: any sequence of relate, get, delete and update-properties calls
    answers, error or not, as the map does and leaves a store that represents
    the resulting map, in which outgoing and incoming entries come in pairs. *)
Theorem edge_store_refines {S} `{KL : KvLaws S} `{FL : FieldsCodecLaws} (st : EdgeStore)
    (ops : list edge_op) (s : S) (f : string → string → string → option Fields) :
  Forall edge_op_ok ops → edge_inv st (contents s) → represents st (contents s) f →
  (run_edge_ops st ops s).1 = (abs_edge_ops ops f).1 ∧
  edge_inv st (contents (run_edge_ops st ops s).2) ∧
  represents st (contents (run_edge_ops st ops s).2) (abs_edge_ops ops f).2.
Proof. apply edge_ops_refine. Qed.

Lemma edge_store_refines_witness :
  (run_edge_ops follow_store
     [ERelate edge_ab; EGet "a" "knows" "b"; EDelete "a" "knows" "b"; EGet "a" "knows" "b"]
     MemRedb.empty).1 = [Ok EUnit; Ok (EEdge (Some edge_ab)); Ok (EBool true); Ok (EEdge None)].
Proof.
  destruct (edge_store_refines follow_store
    [ERelate edge_ab; EGet "a" "knows" "b"; EDelete "a" "knows" "b"; EGet "a" "knows" "b"]
    MemRedb.empty (λ _ _ _, None)) as (-> & _ & _).
  - repeat constructor; first [compute_decide|reflexivity].
  - apply edge_inv_empty.
  - apply represents_empty.
  - vm_compute. reflexivity.
Defined.

(** Whole-table scans: on a mirrored store [scan_all_outgoing_edges]
    returns every stored edge exactly once with its properties; the key-only
    scan returns the endpoints of the same edges in the same order and the
    weighted scan their endpoints and weights, the reverse pointers being
    skipped by all three. *)
Theorem edge_scans_exact {S} `{KL : KvLaws S} `{FL : FieldsCodecLaws} (st : EdgeStore) (s : S) :
  store_wf st → edge_inv st (contents s) →
  ∃ edges, EdgeStores.scan_all_outgoing_edges st s = (Ok edges, s) ∧
    EdgeStores.scan_all_edges st s = (Ok (map (λ ed, (e_src ed, e_dst ed)) edges), s) ∧
    EdgeStores.scan_all_outgoing st s =
      (Ok (map (λ ed, (e_src ed, e_dst ed, weight_of (e_properties ed))) edges), s) ∧
    NoDup edges ∧ ∀ ed, ed ∈ edges ↔ edge_ok ed ∧ edge_stored st (contents s) ed.
Proof. intros Hst. by apply table_scans_run. Qed.

Lemma edge_scans_exact_witness :
  EdgeStores.scan_all_edges follow_store small_graph =
  (Ok [("a"%string, "b"%string); ("b"%string, "c"%string)], small_graph) ∧
  ∃ edges, EdgeStores.scan_all_outgoing_edges follow_store small_graph = (Ok edges, small_graph) ∧
           length edges = 2.
Proof.
  destruct (edge_scans_exact follow_store small_graph follow_store_wf small_graph_inv)
    as (edges & Hr & He & _).
  assert (EdgeStores.scan_all_edges follow_store small_graph =
    (Ok [("a"%string, "b"%string); ("b"%string, "c"%string)], small_graph)) as Hs
    by (vm_compute; reflexivity).
  split; [exact Hs|]. exists edges. split; [exact Hr|].
  rewrite He in Hs. injection Hs as Hm. apply (f_equal length) in Hm. by rewrite length_map in Hm.
Defined.

(** Single hops: on a mirrored store the outgoing (incoming) scan of a
    vertex, with or without an edge type, returns each stored edge out of
    (into) that vertex of that type exactly once and with its properties, the
    neighbour scans return the far ends of those edges without reading values,
    and edges of other vertices, types, directions or tables never appear. *)
Theorem hops_exact {S} `{KL : KvLaws S} `{FL : FieldsCodecLaws} (st : EdgeStore) (s : S)
    (v : string) (et : string) :
  store_wf st → edge_inv st (contents s) → vertex_ok v → seg_ok et →
  let returns m out t := ∃ edges, m s = (Ok edges, s) ∧ scanned st (contents s) out v t edges in
  let neighbors m out t :=
    ∃ edges, m s = (Ok (map (far out) edges), s) ∧ scanned st (contents s) out v t edges in
  returns (Traversals.outgoing st v) true None ∧
  returns (Traversals.outgoing_typed st v et) true (Some et) ∧
  returns (Traversals.incoming st v) false None ∧
  returns (Traversals.incoming_typed st v et) false (Some et) ∧
  neighbors (Traversals.outgoing_neighbors st v) true None ∧
  neighbors (Traversals.outgoing_neighbors_typed st v et) true (Some et) ∧
  neighbors (Traversals.incoming_neighbors st v) false None ∧
  neighbors (Traversals.incoming_neighbors_typed st v et) false (Some et).
Proof.
  intros Hst Hinv Hv He returns neighbors. split_and!.
  - by apply (scan_outgoing_run st Hst s v None).
  - by apply (scan_outgoing_run st Hst s v (Some et)).
  - by apply (scan_incoming_run st Hst s v None).
  - by apply (scan_incoming_run st Hst s v (Some et)).
  - by apply (scan_neighbors_run st Hst s true v None).
  - by apply (scan_neighbors_run st Hst s true v (Some et)).
  - by apply (scan_neighbors_run st Hst s false v None).
  - by apply (scan_neighbors_run st Hst s false v (Some et)).
Qed.

Lemma hops_exact_witness :
  ∃ edges, Traversals.outgoing follow_store "a" small_graph = (Ok edges, small_graph) ∧
           edge_ab ∈ edges.
Proof.
  destruct (hops_exact follow_store small_graph "a" "knows" follow_store_wf small_graph_inv vertex_a)
    as ((edges & Hr & _ & Hin) & _); [compute_decide|].
  exists edges. split; [exact Hr|]. apply Hin. split_and!.
  - split; first [compute_decide|reflexivity].
  - vm_compute. reflexivity.
  - reflexivity.
  - exact I.
Defined.

(** Walks: on a mirrored store [walk] terminates without error and returns
    exactly the vertex paths from the start that follow one stored edge of the
    required direction and type per hop. *)
Theorem walk_exact {S} `{KL : KvLaws S} `{FL : FieldsCodecLaws} (st : EdgeStore) (s : S)
    (start : string) (hops : list HopSpec) :
  store_wf st → edge_inv st (contents s) → vertex_ok start →
  Forall (λ h, type_ok (hop_edge_type h)) hops →
  ∃ paths, Traversals.walk st start hops s = (Ok paths, s) ∧
    ∀ p, p ∈ paths ↔ ∃ ws, p = start :: ws ∧ follows st (contents s) hops start ws.
Proof.
  intros Hst Hinv Hv Hh.
  destruct (walk_loop_run st Hst s hops [[start]] Hinv Hh) as (paths & Hr & Hq).
  { repeat constructor; [done|apply Hv|apply Hv]. }
  exists paths. split; [exact Hr|]. intros p. rewrite Hq. split.
  - intros (p' & ws & ->%list_elem_of_singleton & Hf & ->). exists ws. by split.
  - intros (ws & -> & Hf). exists [start], ws. split_and!; [by left|done|done].
Qed.

Lemma walk_exact_witness :
  ∃ paths, Traversals.walk follow_store "a" [MkHopSpec Out (Some "knows"%string); MkHopSpec Out None]
             small_graph = (Ok paths, small_graph) ∧ ["a"; "b"; "c"]%string ∈ paths.
Proof.
  destruct (walk_exact follow_store small_graph "a"
    [MkHopSpec Out (Some "knows"%string); MkHopSpec Out None] follow_store_wf small_graph_inv vertex_a)
    as (paths & Hr & Hin).
  - repeat constructor; compute_decide.
  - exists paths. split; [exact Hr|]. apply Hin. exists ["b"; "c"]%string. split; [reflexivity|].
    split; [exists edge_ab|split; [exists edge_bc|exact I]]; split_and!;
      try reflexivity; try exact I; try (split; first [compute_decide|reflexivity]).
Defined.
