(* ===== verification/Path.v ===== *)
(** * Shortest paths (crates/graph/src/path.rs)

    Breadth-first search over a directed edge list.  The [while let] loop
    over the queue takes fuel; [None] stands for running out of it, which the
    theorem below excludes. *)

From Stdlib Require Import Sorted.
From stdpp Require Import gmap.
From S2P Require Export Prelude.

Abbreviation edge_list := (list (string * string)).

Section bfs.
Context (edges : edge_list) (src dst : string) (max_depth : option nat).

(** [adj.entry(s).or_default().push(d)] for each edge. *)
Definition build_adj : gmap string (list string) :=
  fold_left (λ adj e, <[e.1 := default [] (adj !! e.1) ++ [e.2]]> adj) edges ∅.

Record bfs_state := MkBfs {
  visited : gset string;
  parent : gmap string string;
  queue : list (string * nat)
}.

(** [reconstruct]: push parents from [dst] until a parentless vertex. *)
Fixpoint parents_loop (fuel : nat) (parent : gmap string string) (cur : string) (path : list string) :
    option (list string) :=
  match fuel with
  | 0 => None
  | S fuel =>
      match parent !! cur with
      | Some p => parents_loop fuel parent p (path ++ [p])
      | None => Some path
      end
  end.
Definition reconstruct (parent : gmap string string) (d : string) : option (list string) :=
  @reverse string <$> parents_loop (S (size parent)) parent d [d].

(** The loop over the neighbours of [node]: [inl] is [return Some(..)]. *)
Fixpoint expand (node : string) (depth : nat) (neighbors : list string) (st : bfs_state) :
    option (list string) + bfs_state :=
  match neighbors with
  | [] => inr st
  | nb :: neighbors' =>
      if decide (nb ∈ visited st) then expand node depth neighbors' st
      else
        let visited' := {[ nb ]} ∪ visited st in
        let parent' := <[nb := node]> (parent st) in
        if decide (nb = dst) then inl (reconstruct parent' dst)
        else expand node depth neighbors' (MkBfs visited' parent' (queue st ++ [(nb, depth + 1)]))
  end.

Definition over_budget (depth : nat) : bool :=
  match max_depth with Some m => m <=? depth | None => false end.

Fixpoint bfs (fuel : nat) (adj : gmap string (list string)) (st : bfs_state) :
    option (option (list string)) :=
  match fuel with
  | 0 => None
  | S fuel =>
      match queue st with
      | [] => Some None
      | (node, depth) :: rest =>
          let st := MkBfs (visited st) (parent st) rest in
          if over_budget depth then bfs fuel adj st
          else match adj !! node with
          | None => bfs fuel adj st
          | Some neighbors =>
              match expand node depth neighbors st with
              | inl (Some path) => Some (Some path)
              | inl None => None
              | inr st' => bfs fuel adj st'
              end
          end
      end
  end.

(** [None] is "out of fuel", [Some r] is the result [r] of the function. *)
Definition shortest_path : option (option (list string)) :=
  if decide (src = dst) then Some (Some [src])
  else bfs (length edges + 2) build_adj (MkBfs {[ src ]} ∅ [(src, 0)]).

(** ** Specification *)

(** [rest] continues a directed path from [u] to [v]. *)
Fixpoint path_from (u : string) (rest : list string) (v : string) : Prop :=
  match rest with
  | [] => u = v
  | w :: rest' => (u, w) ∈ edges ∧ path_from w rest' v
  end.

Definition within (hops : nat) : Prop :=
  match max_depth with Some m => hops ≤ m | None => True end.

Lemma build_adj_spec u w :
  (u, w) ∈ edges ↔ ∃ ns, build_adj !! u = Some ns ∧ w ∈ ns.
Proof.
  unfold build_adj.
  assert (∀ es (adj : gmap string (list string)),
    (∃ ns, fold_left (λ adj e, <[e.1 := default [] (adj !! e.1) ++ [e.2]]> adj) es adj !! u = Some ns
           ∧ w ∈ ns) ↔ (∃ ns, adj !! u = Some ns ∧ w ∈ ns) ∨ (u, w) ∈ es) as Hfold.
  { induction es as [|[a b] es IH]; intros adj; simpl; [set_solver|]. rewrite IH, elem_of_cons.
    destruct (decide (a = u)) as [->|Hne].
    - rewrite lookup_insert_eq. split.
      + intros [(ns & [= <-] & [Hin|Hin%list_elem_of_singleton]%elem_of_app)|Hin]; [|subst|]; auto.
        destruct (adj !! u); simpl in Hin; [eauto|by apply elem_of_nil in Hin].
      + intros [(ns & E & Hin)|[[= ->]|Hin]]; [| |by right].
        * left. rewrite E. eexists. split; [done|]. simpl. set_solver.
        * left. eexists. split; [done|]. set_solver.
    - rewrite lookup_insert_ne by done. naive_solver. }
  rewrite Hfold, lookup_empty. naive_solver.
Qed.

(** ** The search invariant *)

(** [lab] labels every visited vertex with its depth. *)
Record inv (lab : string → nat) (st : bfs_state) : Prop := {
  inv_src : src ∈ visited st ∧ lab src = 0 ∧ parent st !! src = None;
  inv_parent : ∀ v, v ∈ visited st → v ≠ src →
    ∃ u, parent st !! v = Some u ∧ u ∈ visited st ∧ (u, v) ∈ edges ∧ lab v = S (lab u);
  inv_dom : ∀ v u, parent st !! v = Some u → v ∈ visited st;
  inv_queue : ∀ v n, (v, n) ∈ queue st → v ∈ visited st ∧ lab v = n;
  inv_done : ∀ u, u ∈ visited st → u ∉ map fst (queue st) →
    over_budget (lab u) = true ∨ ∀ w, (u, w) ∈ edges → w ∈ visited st ∧ lab w ≤ S (lab u);
  inv_bound : ∀ v n rest, queue st = (v, n) :: rest → ∀ w, w ∈ visited st → lab w ≤ S n;
  inv_mono : StronglySorted (λ x y, x.2 ≤ y.2) (queue st);
  inv_dst : dst ∉ visited st
}.

Lemma over_budget_within n k : over_budget n = true → n ≤ k → ¬ within (S k).
Proof.
  unfold over_budget, within. destruct max_depth as [m|]; [|done].
  intros ?%Nat.leb_le ? ?. lia.
Qed.

(** Any path leaves the visited region through the queue. *)
Lemma path_frontier lab st v rest :
  inv lab st → path_from src rest v → within (length rest) →
  (v ∈ visited st ∧ lab v ≤ length rest) ∨
  ∃ u n, (u, n) ∈ queue st ∧ n < length rest.
Proof.
  intros Hinv. revert v. induction rest as [|w rest IH] using rev_ind; intros v Hp Hw; simpl in *.
  - subst v. left. destruct (inv_src _ _ Hinv) as (? & -> & _). split; [done|lia].
  - assert (∃ u, path_from src rest u ∧ (u, w) ∈ edges ∧ w = v) as (u & Hpu & Huw & ->).
    { clear -Hp. revert Hp. generalize src. induction rest as [|x rest IH]; intros a; simpl.
      - intros [? ->]. eauto.
      - intros [? Hp]. destruct (IH _ Hp) as (u & ? & ? & ?). eauto. }
    rewrite length_app in *. simpl in *.
    destruct (IH u Hpu) as [[Hu Hl]|(u' & n & Hin & Hn)].
    + revert Hw. unfold within. destruct max_depth; [lia|done].
    + destruct (decide (u ∈ map fst (queue st))) as [Hq|Hq].
      * right. apply list_elem_of_fmap in Hq as ([u' n] & -> & Hq). simpl in *.
        pose proof (inv_queue _ _ Hinv _ _ Hq) as [_ E]. exists u', n. split; [done|lia].
      * destruct (inv_done _ _ Hinv u Hu Hq) as [Hob|Hall].
        -- exfalso. eapply over_budget_within; [exact Hob|exact Hl|]. by rewrite <- Nat.add_1_r.
        -- left. destruct (Hall _ Huw). split; [done|lia].
    + right. exists u', n. split; [done|lia].
Qed.

(** Parent chains reach the source and give a path of the labelled length. *)
Lemma parents_loop_run lab st (Hinv : inv lab st) (par : gmap string string) fuel cur acc tail :
  (∀ v, v ∈ visited st → par !! v = parent st !! v) →
  cur ∈ visited st → lab cur < fuel → reverse acc = cur :: tail → path_from cur tail dst →
  ∃ out rest, parents_loop fuel par cur acc = Some out ∧ reverse out = src :: rest ∧
    path_from src rest dst ∧ length rest = lab cur + length tail.
Proof.
  intros Hpar. revert cur acc tail. induction fuel as [|fuel IH]; intros cur acc tail Hc Hl Hr Hp; [lia|].
  simpl. rewrite (Hpar _ Hc). destruct (decide (cur = src)) as [->|Hne].
  - destruct (inv_src _ _ Hinv) as (_ & -> & ->). exists acc, tail. by split_and!.
  - destruct (inv_parent _ _ Hinv cur Hc Hne) as (u & -> & Hu & He & Hlab).
    destruct (IH u (acc ++ [u]) (cur :: tail)) as (out & rest & Hrun & Ho & Hpath & Hlen).
    + done.
    + lia.
    + by rewrite reverse_snoc, Hr.
    + done.
    + exists out, rest. split_and!; [done..|]. simpl in Hlen. lia.
Qed.

(** A label is at most the number of parent pointers. *)
Lemma label_bound lab st v : inv lab st → v ∈ visited st → lab v ≤ size (parent st).
Proof.
  intros Hinv Hv.
  assert (∃ xs, NoDup xs ∧ length xs = lab v ∧
            ∀ x, x ∈ xs → x ∈ dom (parent st) ∧ 1 ≤ lab x ≤ lab v) as (xs & Hnd & <- & Hxs).
  { remember (lab v) as n eqn:Hn. revert v Hv Hn. induction n as [|n IH]; intros v Hv Hn.
    - exists []. split; [constructor|]. split; [done|]. by intros x ?%elem_of_nil.
    - assert (v ≠ src) as Hne by (intros ->; destruct (inv_src _ _ Hinv) as (_ & ? & _); lia).
      destruct (inv_parent _ _ Hinv v Hv Hne) as (u & Hp & Hu & _ & Hl).
      destruct (IH u Hu) as (xs & Hnd & Hlen & Hxs); [lia|].
      exists (v :: xs). split; [|split].
      + constructor; [|done]. intros Hin. apply Hxs in Hin as [_ ?]. lia.
      + simpl. lia.
      + intros x [->|Hin]%elem_of_cons; [|apply Hxs in Hin as [? ?]; split; [done|lia]].
        split; [by eapply elem_of_dom_2|lia]. }
  rewrite <- (size_dom (D := gset string)), <- (size_list_to_set (C := gset string) xs) by done.
  apply subseteq_size. intros x. rewrite elem_of_list_to_set. intros Hx. by apply Hxs.
Qed.

Lemma StronglySorted_snoc {A} (R : A → A → Prop) l y :
  StronglySorted R l → (∀ x, x ∈ l → R x y) → StronglySorted R (l ++ [y]).
Proof.
  induction 1 as [|x l Hs IH Hx]; intros Hy; simpl; [repeat constructor|]. constructor.
  - apply IH. intros z Hz. apply Hy. by right.
  - apply Forall_app. split; [done|]. constructor; [apply Hy; by left|constructor].
Qed.

(** Discovering one new vertex keeps the invariant. *)
Lemma discover_inv lab node l V P Q nb :
  inv lab (MkBfs V P ((node, l) :: Q)) → (node, nb) ∈ edges → nb ∉ V → nb ≠ dst →
  inv (λ v, if decide (v = nb) then S l else lab v)
    (MkBfs ({[ nb ]} ∪ V) (<[nb := node]> P) ((node, l) :: Q ++ [(nb, l + 1)])).
Proof.
  intros Hinv He Hnb Hd.
  assert (∀ v, v ∈ V → (if decide (v = nb) then S l else lab v) = lab v) as Hlab.
  { intros v Hv. rewrite decide_False; [done|]. by intros ->. }
  destruct (inv_queue _ _ Hinv node l) as [Hnode Hl]; [by left|]. simpl in Hnode.
  pose proof (inv_bound _ _ Hinv node l Q eq_refl) as Hbound. simpl in Hbound.
  split; simpl.
  - destruct (inv_src _ _ Hinv) as (Hs & Hs0 & Hsp). simpl in *. rewrite Hlab by done.
    split_and!; [set_solver|done|]. rewrite lookup_insert_ne by (by intros ->). done.
  - intros v Hv Hvs. destruct (decide (v = nb)) as [->|Hne].
    + exists node. rewrite lookup_insert_eq, Hlab by done. split_and!; [done|set_solver|done|lia].
    + assert (v ∈ V) as Hv' by set_solver.
      destruct (inv_parent _ _ Hinv v Hv' Hvs) as (u & Hp & Hu & Hue & Hul). simpl in *.
      exists u. rewrite lookup_insert_ne by done. rewrite Hlab by done. split_and!; [done|set_solver|done|done].
  - intros v u. destruct (decide (v = nb)) as [->|Hne]; [set_solver|].
    rewrite lookup_insert_ne by done. intros Hp%(inv_dom _ _ Hinv). simpl in Hp. set_solver.
  - intros v n. rewrite app_comm_cons, elem_of_app. intros [Hq|[= -> ->]%list_elem_of_singleton].
    + destruct (inv_queue _ _ Hinv v n Hq) as [Hv Hvl]. simpl in Hv. rewrite Hlab by done.
      split; [set_solver|done].
    + rewrite decide_True by done. split; [set_solver|lia].
  - intros u Hu Hnq. rewrite map_app in Hnq. simpl in Hnq.
    assert (u ≠ nb) as Hne by set_solver. assert (u ∈ V) as Hu' by set_solver.
    rewrite Hlab by done. destruct (inv_done _ _ Hinv u Hu') as [Ho|Hall]; [simpl; set_solver|by left|].
    right. intros w Hw. destruct (Hall w Hw) as [Hwv Hwl]. simpl in Hwv. rewrite Hlab by done.
    split; [set_solver|done].
  - intros v n rest [= <- <- <-] w Hw. case_decide; [done|]. apply Hbound. set_solver.
  - rewrite app_comm_cons. apply StronglySorted_snoc; [exact (inv_mono _ _ Hinv)|].
    intros [v n] Hin. destruct (inv_queue _ _ Hinv v n Hin) as [Hv Hvl]. simpl.
    rewrite <- Hvl. pose proof (Hbound v Hv). lia.
  - pose proof (inv_dst _ _ Hinv). simpl in *. set_solver.
Qed.

Definition targets : gset string := list_to_set (map snd edges).
Definition weight (V : gset string) (Q : list (string * nat)) : nat :=
  length Q + size (targets ∖ V).

Lemma weight_discover V Q node nb x :
  (node, nb) ∈ edges → nb ∉ V → weight ({[ nb ]} ∪ V) (Q ++ [x]) = weight V Q.
Proof.
  intros He Hnb. unfold weight. rewrite length_app. simpl.
  assert (nb ∈ targets) as Ht.
  { unfold targets. rewrite elem_of_list_to_set, list_elem_of_fmap. by exists (node, nb). }
  assert (targets ∖ V = {[ nb ]} ∪ targets ∖ ({[ nb ]} ∪ V)) as ->.
  { apply set_eq. intros z. destruct (decide (z = nb)); set_solver. }
  rewrite (size_union {[ nb ]} (targets ∖ ({[ nb ]} ∪ V))) by set_solver. rewrite size_singleton. lia.
Qed.

(** Expanding a vertex either finds [dst] one step further, or keeps the
    invariant with all its neighbours visited. *)
Lemma expand_run node l ns lab V P Q :
  inv lab (MkBfs V P ((node, l) :: Q)) → (∀ w, w ∈ ns → (node, w) ∈ edges) →
  match expand node l ns (MkBfs V P Q) with
  | inl o => ∃ rest, o = Some (src :: rest) ∧ path_from src rest dst ∧ length rest = S l
  | inr (MkBfs V' P' Q') => ∃ lab', inv lab' (MkBfs V' P' ((node, l) :: Q')) ∧
      (∀ v, v ∈ V → v ∈ V' ∧ lab' v = lab v) ∧ (∀ w, w ∈ ns → w ∈ V' ∧ lab' w ≤ S l) ∧
      weight V' Q' = weight V Q
  end.
Proof.
  revert lab V P Q; induction ns as [|nb ns IH]; intros lab V P Q Hinv Hns; cbn [expand visited parent queue].
  { exists lab. split_and!; [done|done| |done]. by intros w ?%elem_of_nil. }
  pose proof (inv_bound _ _ Hinv node l Q eq_refl) as Hbound. simpl in Hbound.
  assert ((node, nb) ∈ edges) as He by (apply Hns; left).
  case_decide as Hnb.
  - specialize (IH lab V P Q Hinv ltac:(intros; apply Hns; by right)).
    destruct (expand node l ns _) as [o|[V' P' Q']]; [done|].
    destruct IH as (lab' & Hi & Hsame & Hall & Hw). exists lab'. split_and!; [done|done| |done].
    intros w [->|Hin]%elem_of_cons; [|by apply Hall].
    destruct (Hsame nb Hnb) as [? ->]. split; [done|by apply Hbound].
  - case_decide as Hd.
    + subst nb. destruct (inv_queue _ _ Hinv node l) as [Hnode Hl]; [by left|]. simpl in Hnode.
      destruct (parents_loop_run lab _ Hinv (<[dst := node]> P) (size (<[dst := node]> P)) node
        [dst; node] [dst]) as (out & rest & Hrun & Ho & Hp & Hlen).
      * intros v Hv. simpl in *. rewrite lookup_insert_ne; [done|]. by intros <-.
      * done.
      * pose proof (label_bound lab _ node Hinv Hnode) as Hb. simpl in Hb.
        rewrite map_size_insert_None; [lia|]. destruct (P !! dst) as [u|] eqn:E; [|done].
        by apply (inv_dom _ _ Hinv) in E.
      * done.
      * by split.
      * exists rest. unfold reconstruct. cbn [parents_loop]. rewrite lookup_insert_eq. cbn [app].
        rewrite Hrun. simpl. rewrite Ho. split_and!; [done|done|]. simpl in Hlen. lia.
    + pose proof (discover_inv lab node l V P Q nb Hinv He Hnb Hd) as Hinv'.
      specialize (IH _ _ _ _ Hinv' ltac:(intros; apply Hns; by right)).
      destruct (expand node l ns _) as [o|[V' P' Q']]; [done|].
      destruct IH as (lab' & Hi & Hsame & Hall & Hw). exists lab'. split_and!; [done| | |].
      * intros v Hv. destruct (Hsame v) as [? E]; [set_solver|]. split; [done|].
        rewrite E, decide_False; [done|]. by intros ->.
      * intros w [->|Hin]%elem_of_cons; [|by apply Hall].
        destruct (Hsame nb) as [? E]; [set_solver|]. rewrite E, decide_True by done. done.
      * rewrite Hw. by eapply weight_discover.
Qed.

(** What the search must return. *)
Definition search_result (r : option (list string)) : Prop :=
  match r with
  | Some p => ∃ rest, p = src :: rest ∧ path_from src rest dst ∧ within (length rest) ∧
      ∀ rest', path_from src rest' dst → length rest ≤ length rest'
  | None => ∀ rest, path_from src rest dst → ¬ within (length rest)
  end.

Lemma pop_inv lab V P node l Q :
  inv lab (MkBfs V P ((node, l) :: Q)) →
  (over_budget l = true ∨ ∀ w, (node, w) ∈ edges → w ∈ V ∧ lab w ≤ S l) →
  inv lab (MkBfs V P Q).
Proof.
  intros Hinv Hdone. destruct (inv_queue _ _ Hinv node l) as [Hnode Hl]; [by left|].
  pose proof (inv_bound _ _ Hinv node l Q eq_refl) as Hbound. simpl in Hbound.
  pose proof (inv_mono _ _ Hinv) as Hm. simpl in Hm. inversion Hm as [|? ? Hm' Hmin]; subst.
  split; simpl; try apply Hinv.
  - intros v n Hin. apply (inv_queue _ _ Hinv). by right.
  - intros u Hu Hnq. destruct (decide (u = node)) as [->|Hne]; [done|].
    apply (inv_done _ _ Hinv); [done|]. simpl. by apply not_elem_of_cons.
  - intros v n rest -> w Hw. inversion Hmin; subst; simpl in *. pose proof (Hbound w Hw). lia.
  - done.
Qed.

Lemma bfs_run fuel lab st :
  inv lab st → weight (visited st) (queue st) < fuel →
  ∃ r, bfs fuel build_adj st = Some r ∧ search_result r.
Proof.
  revert lab st. induction fuel as [|fuel IH]; intros lab [V P Q] Hinv Hf; [lia|].
  cbn [bfs queue visited parent] in *. destruct Q as [|[node l] Q].
  { exists None. split; [done|]. intros rest Hp Hw.
    destruct (path_frontier lab _ dst rest Hinv Hp Hw) as [[Hd _]|(u & n & Hin & _)].
    - by apply (inv_dst _ _ Hinv) in Hd.
    - by apply elem_of_nil in Hin. }
  assert (weight V Q < fuel) as Hf' by (unfold weight in *; simpl in Hf; lia).
  destruct (over_budget l) eqn:Hb.
  { apply (IH lab); [|done]. apply (pop_inv lab V P node l Q Hinv). by left. }
  assert (within (S l)) as Hwl.
  { revert Hb. unfold over_budget, within. destruct max_depth; [|done]. intros ?%Nat.leb_gt. lia. }
  destruct (build_adj !! node) as [ns|] eqn:Ha.
  2:{ apply (IH lab); [|done]. apply (pop_inv lab V P node l Q Hinv). right.
      intros w (ns & E & _)%build_adj_spec. congruence. }
  pose proof (expand_run node l ns lab V P Q Hinv) as Hex.
  destruct (expand node l ns (MkBfs V P Q)) as [o|[V' P' Q']].
  - destruct Hex as (rest & -> & Hp & Hlen).
    { intros w Hw. apply build_adj_spec. eauto. }
    eexists. split; [done|]. exists rest. rewrite Hlen. split_and!; [done..|].
    intros rest' Hp'. destruct (decide (length rest' < S l)) as [Hlt|]; [|lia]. exfalso.
    destruct (path_frontier lab _ dst rest' Hinv Hp') as [[Hd _]|(u & n & Hin & Hn)].
    + revert Hwl. unfold within. destruct max_depth; [lia|done].
    + by apply (inv_dst _ _ Hinv) in Hd.
    + pose proof (inv_mono _ _ Hinv) as Hm. simpl in *. inversion Hm as [|? ? _ Hmin]; subst.
      apply elem_of_cons in Hin as [[= -> ->]|Hin]; [lia|].
      rewrite Forall_forall in Hmin. specialize (Hmin _ Hin). simpl in Hmin. lia.
  - destruct Hex as (lab' & Hinv' & _ & Hall & Hw).
    { intros w Hw. apply build_adj_spec. eauto. }
    apply (IH lab'); [|simpl; lia]. apply (pop_inv lab' V' P' node l Q' Hinv'). right.
    intros w (ns' & E & Hin)%build_adj_spec. apply Hall. congruence.
Qed.

Lemma init_inv : src ≠ dst → inv (λ _, 0) (MkBfs {[ src ]} ∅ [(src, 0)]).
Proof.
  intros Hne. split; simpl.
  - split_and!; [set_solver|done|done].
  - intros v ->%elem_of_singleton Hn. done.
  - intros v u. by rewrite lookup_empty.
  - intros v n [= -> ->]%list_elem_of_singleton. split; [set_solver|done].
  - intros u ->%elem_of_singleton Hn. set_solver.
  - intros v n rest [= <- <- <-] w _. lia.
  - repeat constructor.
  - set_solver.
Qed.

Lemma shortest_path_run : ∃ r, shortest_path = Some r ∧ search_result r.
Proof.
  unfold shortest_path. case_decide as Heq.
  - exists (Some [src]). split; [done|]. exists []. split_and!; [done|done| |simpl; lia].
    unfold within. destruct max_depth; simpl; [lia|done].
  - apply (bfs_run _ (λ _, 0)); [by apply init_inv|]. simpl. unfold weight. simpl.
    assert (size (targets ∖ {[ src ]}) ≤ length edges); [|lia].
    etrans; [by apply (subseteq_size _ targets); set_solver|].
    unfold targets. rewrite <- (length_map snd edges).
    clear. induction (map snd edges) as [|x l IH]; simpl; [done|].
    rewrite (size_union_alt {[ x ]} (list_to_set l : gset string)), size_singleton.
    assert (size (list_to_set l ∖ {[x]} : gset string) ≤ size (list_to_set l : gset string)); [|lia].
    apply subseteq_size. set_solver.
Qed.

(** Shortest path: the search terminates within [|edges| + 2] queue pops;
    if it returns a path, the path runs from [src] to [dst] along directed
    edges, uses at most [max_depth] of them, and no path uses fewer; if it
    returns none, every path from [src] to [dst] exceeds the depth bound. *)
Theorem shortest_path_exact : ∃ r, shortest_path = Some r ∧ search_result r.
Proof. exact shortest_path_run. Qed.
End bfs.
