(* ===== verification/Components.v ===== *)
(** * Connected components (crates/graph/src/components.rs)

    Union-find with path halving and union by rank.  Indexing out of bounds,
    the overflow of a [u8] rank and running out of fuel are [None]. *)

From stdpp Require Import gmap.
From S2P Require Export Prelude OrdMap Bytes.

Record Components := MkComponents { groups : gmap string (list string) }.

Definition comp_len (self : Components) : nat := size (groups self).
Definition comp_is_empty (self : Components) : bool := bool_decide (groups self = ∅).

(** ** Union-find helpers *)
Definition intern (id : string) (st : gmap string nat * list string) : gmap string nat * list string :=
  let '(index, labels) := st in
  if decide (is_Some (index !! id)) then st
  else (<[id := length labels]> index, labels ++ [id]).

(** The [while] loop of [find]: each round halves the path at [x]. *)
Fixpoint find (fuel : nat) (parent : list nat) (x : nat) : option (list nat * nat) :=
  match fuel with
  | 0 => None
  | S fuel =>
      px ← parent !! x;
      if px =? x then Some (parent, x)
      else
        ppx ← parent !! px;
        find fuel (<[x := ppx]> parent) ppx
  end.

(** [find(&mut parent, x)]; a path is shorter than the number of nodes. *)
Definition find_root (parent : list nat) (x : nat) : option (list nat * nat) :=
  find (length parent) parent x.

(** [rank[ra] += 1] on [u8]s. *)
Definition incr_u8 (r : Z) : option Z := if (r =? 255)%Z then None else Some (r + 1)%Z.

Definition union (parent : list nat) (rank : list Z) (a b : nat) : option (list nat * list Z) :=
  '(parent, ra) ← find_root parent a;
  '(parent, rb) ← find_root parent b;
  if ra =? rb then Some (parent, rank)
  else
    ka ← rank !! ra;
    kb ← rank !! rb;
    match Z.compare ka kb with
    | Lt => Some (<[ra := rb]> parent, rank)
    | Gt => Some (<[rb := ra]> parent, rank)
    | Eq => ka' ← incr_u8 ka; Some (<[rb := ra]> parent, <[ra := ka']> rank)
    end.

(** ** The loops of [connected_components] *)
Fixpoint intern_all (edges : list (string * string)) (st : gmap string nat * list string) :
    gmap string nat * list string :=
  match edges with
  | [] => st
  | (src, dst) :: edges' => intern_all edges' (intern dst (intern src st))
  end.

Fixpoint union_all (index : gmap string nat) (edges : list (string * string)) (parent : list nat)
    (rank : list Z) : option (list nat * list Z) :=
  match edges with
  | [] => Some (parent, rank)
  | (src, dst) :: edges' =>
      a ← index !! src;
      b ← index !! dst;
      '(parent, rank) ← union parent rank a b;
      union_all index edges' parent rank
  end.

(** [for i in 0..n]: push each label on the group of its root's label. *)
Fixpoint group_all (labels : list string) (ids : list nat) (parent : list nat)
    (groups : gmap string (list string)) : option (gmap string (list string)) :=
  match ids with
  | [] => Some groups
  | i :: ids' =>
      '(parent, root) ← find_root parent i;
      root_label ← labels !! root;
      label ← labels !! i;
      group_all labels ids' parent
        (<[root_label := default [] (groups !! root_label) ++ [label]]> groups)
  end.

Definition connected_components (edges : list (string * string)) : option Components :=
  let '(index, labels) := intern_all edges (∅, []) in
  let n := length labels in
  if n =? 0 then Some (MkComponents ∅)
  else
    '(parent, _) ← union_all index edges (seq 0 n) (replicate n 0%Z);
    groups ← group_all labels (seq 0 n) parent ∅;
    Some (MkComponents (sort_by ord_cmp <$> groups)).

Example components_ex :
  (c ← connected_components [("a", "b"); ("c", "d"); ("d", "b"); ("z", "z")]%string; Some (map_to_list (groups c))) =
  Some [("c", ["a"; "b"; "c"; "d"]); ("z", ["z"])]%string.
Proof. vm_compute. reflexivity. Qed.
