(* ===== verification/ComponentsSpec.v ===== *)
(** * Union-find is correct (crates/graph/src/components.rs)

    The invariant of the parent and rank arrays, the specifications of [find]
    and [union] against the root relation, and the theorem that
    [connected_components] computes the connected components of the edges read
    as undirected. *)

From stdpp Require Import gmap relations.
From Stdlib Require Import Sorted.
From S2P Require Export Prelude OrdMap Bytes Components.
Open Scope Z_scope.

(** ** Sums over the indices below [n] *)
Fixpoint sum_to (f : nat → Z) (n : nat) : Z :=
  match n with 0%nat => 0 | S n => sum_to f n + f n end.

Lemma sum_to_ext f g n : (∀ x, (x < n)%nat → f x = g x) → sum_to f n = sum_to g n.
Proof. induction n as [|n IH]; simpl; intros E; [done|]. rewrite IH, E; auto with lia. Qed.

Lemma sum_to_update f g a n :
  (a < n)%nat → (∀ x, x ≠ a → f x = g x) → sum_to g n = sum_to f n - f a + g a.
Proof.
  intros Ha E. induction n as [|n IH]; simpl; [lia|]. destruct (decide (a = n)) as [->|].
  - rewrite (sum_to_ext f g n); [lia|]. intros x ?. apply E. lia.
  - rewrite IH, (E n) by lia. lia.
Qed.

Lemma sum_to_nonneg f n : (∀ x, 0 ≤ f x) → 0 ≤ sum_to f n.
Proof. intros Hf. induction n; simpl; [lia|]. specialize (Hf n). lia. Qed.

Lemma sum_to_two f a b n :
  (∀ x, 0 ≤ f x) → (a < n)%nat → (b < n)%nat → a ≠ b → f a + f b ≤ sum_to f n.
Proof.
  intros Hf Ha Hb Hab.
  pose (g := λ x, if decide (x = a) then 0 else f x).
  pose (h := λ x, if decide (x = b) then 0 else g x).
  assert (sum_to g n = sum_to f n - f a) as E1.
  { rewrite (sum_to_update f g a) by (unfold g; intros; rewrite ?decide_False; auto).
    unfold g at 1. rewrite decide_True by done. lia. }
  assert (sum_to h n = sum_to g n - f b) as E2.
  { rewrite (sum_to_update g h b) by (unfold h; intros; rewrite ?decide_False; auto).
    unfold h at 1. rewrite decide_True by done. unfold g at 2. rewrite decide_False by done. lia. }
  assert (0 ≤ sum_to h n); [|lia].
  apply sum_to_nonneg. intros x. unfold h, g. specialize (Hf x). repeat case_decide; lia.
Qed.

Lemma sum_to_one f a n : (∀ x, 0 ≤ f x) → (a < n)%nat → f a ≤ sum_to f n.
Proof.
  intros Hf Ha. induction n as [|n IH]; simpl; [lia|]. destruct (decide (a = n)) as [->|].
  - pose proof (sum_to_nonneg f n Hf). lia.
  - specialize (IH ltac:(lia)). specialize (Hf n). lia.
Qed.

(** ** The root relation *)
Inductive root_of (p : list nat) : nat → nat → Prop :=
  | root_here r : p !! r = Some r → root_of p r r
  | root_step x y r : p !! x = Some y → y ≠ x → root_of p y r → root_of p x r.
#[export] Hint Constructors root_of : core.

Lemma root_of_fun p x r r' : root_of p x r → root_of p x r' → r = r'.
Proof.
  intros Hr. revert r'. induction Hr as [r Hr|x y r Hx Hne Hr IH]; intros r' Hr';
    inversion Hr'; subst; simplify_eq; auto.
Qed.
Lemma root_of_root p x r : root_of p x r → p !! r = Some r.
Proof. by induction 1. Qed.

(** Two indices with the same root. *)
Definition same_set (p : list nat) (x y : nat) : Prop := ∃ r, root_of p x r ∧ root_of p y r.

Lemma same_set_sym p x y : same_set p x y → same_set p y x.
Proof. intros (r & ? & ?). by exists r. Qed.
Lemma same_set_trans p x y z : same_set p x y → same_set p y z → same_set p x z.
Proof.
  intros (r & Hx & Hy) (r' & Hy' & Hz). rewrite (root_of_fun _ _ _ _ Hy Hy') in *. by exists r'.
Qed.

(** ** The invariant *)
Definition rk (rank : list Z) (x : nat) : Z := default 0 (rank !! x).
(** What a root weighs: a lower bound of the size of its tree. *)
Definition weight (p : list nat) (rank : list Z) (x : nat) : Z :=
  if decide (p !! x = Some x) then 2 ^ rk rank x else 0.

Record uf (n : nat) (p : list nat) (rank : list Z) : Prop := {
  uf_len : length p = n;
  uf_rank_len : length rank = n;
  uf_par : ∀ x y, p !! x = Some y → (y < n)%nat;
  uf_mono : ∀ x y, p !! x = Some y → y ≠ x → rk rank x < rk rank y;
  uf_pos : ∀ x, 0 ≤ rk rank x;
  uf_sum : sum_to (weight p rank) n ≤ Z.of_nat n
}.

Lemma weight_nonneg p rank x : 0 ≤ weight p rank x.
Proof. unfold weight. case_decide; [apply Z.pow_nonneg; lia|lia]. Qed.
Lemma weight_root p rank x : p !! x = Some x → weight p rank x = 2 ^ rk rank x.
Proof. intros E. unfold weight. by rewrite decide_True. Qed.
Lemma rk_bound rank : ∃ M, ∀ x, rk rank x ≤ M.
Proof.
  unfold rk. induction rank as [|k rank (M & HM)]; [by exists 0|].
  exists (Z.max k M). intros [|x]; simpl; [lia|]. specialize (HM x). lia.
Qed.

Section uf.
Context {n : nat} {p : list nat} {rank : list Z} (Hu : uf n p rank).

Lemma root_total x : (x < n)%nat → ∃ r, root_of p x r ∧ (r < n)%nat ∧ rk rank x ≤ rk rank r.
Proof using Hu.
  destruct (rk_bound rank) as (M & HM).
  remember (Z.to_nat (M - rk rank x)) as m eqn:Em. revert x Em.
  induction m as [m IH] using lt_wf_ind. intros x -> Hx.
  destruct (lookup_lt_is_Some_2 p x) as (y & Hy); [by rewrite (uf_len _ _ _ Hu)|].
  destruct (decide (y = x)) as [->|Hne]; [eexists; split_and!; eauto; lia|].
  pose proof (uf_mono _ _ _ Hu x y Hy Hne). pose proof (HM x). pose proof (HM y).
  destruct (IH (Z.to_nat (M - rk rank y)) ltac:(lia) y eq_refl (uf_par _ _ _ Hu _ _ Hy)) as (r & ? & ? & ?).
  exists r. split_and!; eauto. lia.
Qed.

Lemma root_below x r : root_of p x r → (x < n)%nat ∧ (r < n)%nat.
Proof using Hu.
  rewrite <- (uf_len _ _ _ Hu).
  induction 1 as [r Hr|x y r Hx]; split; eauto using lookup_lt_Some; naive_solver.
Qed.

Lemma root_rank x r : root_of p x r → rk rank x ≤ rk rank r.
Proof using Hu.
  induction 1 as [|x y r Hx Hne _ IH]; [lia|]. pose proof (uf_mono _ _ _ Hu x y Hx Hne). lia.
Qed.

Lemma rank_lt r : p !! r = Some r → rk rank r < Z.of_nat n.
Proof using Hu.
  intros Hr. pose proof (sum_to_one (weight p rank) r n (weight_nonneg _ _)) as Hs.
  rewrite weight_root in Hs by done. specialize (Hs (uf_par _ _ _ Hu _ _ Hr)).
  pose proof (uf_sum _ _ _ Hu). pose proof (Z.pow_gt_lin_r 2 (rk rank r) ltac:(lia)).
  pose proof (uf_pos _ _ _ Hu r). lia.
Qed.

(** One round of [find]. *)
Lemma halve_root x px ppx z r :
  p !! x = Some px → px ≠ x → p !! px = Some ppx → root_of p z r → root_of (<[x := ppx]> p) z r.
Proof using Hu.
  intros Hx Hne Hp. pose proof (lookup_lt_Some _ _ _ Hx) as Hlt.
  assert (ppx ≠ x) as Hc.
  { pose proof (uf_mono _ _ _ Hu x px Hx Hne). destruct (decide (ppx = px)) as [->|Hne']; [done|].
    pose proof (uf_mono _ _ _ Hu px ppx Hp Hne'). intros ->. lia. }
  induction 1 as [r Hr|z y r Hz Hzy Hr IH].
  - apply root_here. rewrite list_lookup_insert_ne; [done|]. intros ->. congruence.
  - destruct (decide (z = x)) as [->|].
    + simplify_eq. apply (root_step _ x ppx); [by apply list_lookup_insert_eq|done|].
      inversion IH as [? E|? ppx' ? E ? Hr']; subst; rewrite list_lookup_insert_ne in E by done; by simplify_eq.
    + apply (root_step _ z y); [by rewrite list_lookup_insert_ne|done|done].
Qed.

Lemma halve_uf x px ppx :
  p !! x = Some px → px ≠ x → p !! px = Some ppx → uf n (<[x := ppx]> p) rank.
Proof using Hu.
  intros Hx Hne Hp. pose proof (uf_mono _ _ _ Hu x px Hx Hne) as Hm.
  assert (rk rank px ≤ rk rank ppx) as Hm'.
  { destruct (decide (ppx = px)) as [->|Hne']; [lia|]. pose proof (uf_mono _ _ _ Hu px ppx Hp Hne'). lia. }
  split.
  - rewrite length_insert. apply Hu.
  - apply Hu.
  - intros z y [(-> & <- & _)|(? & Hz)]%list_lookup_insert_Some; by eapply uf_par.
  - intros z y [(-> & <- & _)|(? & Hz)]%list_lookup_insert_Some; [lia|by eapply uf_mono].
  - apply Hu.
  - rewrite (sum_to_ext _ (weight p rank)); [apply Hu|]. intros z Hz. unfold weight.
    destruct (decide (z = x)) as [->|]; [|by rewrite list_lookup_insert_ne].
    rewrite list_lookup_insert_eq by (by eapply lookup_lt_Some).
    rewrite !decide_False; [done|naive_solver|]. intros [= ->]. lia.
Qed.
End uf.

(** ** [find] *)

(** A parent array that answers every root query the same way. *)
Definition same_roots (p p' : list nat) : Prop := ∀ z r, root_of p z r ↔ root_of p' z r.
#[export] Instance same_roots_equiv : Equivalence same_roots.
Proof.
  unfold same_roots. split.
  - intros p z r. done.
  - intros p q E z r. by rewrite E.
  - intros p q t Hp Hq z s. by rewrite Hp.
Qed.
#[export] Instance same_set_proper : Proper (same_roots ==> (=) ==> (=) ==> iff) same_set.
Proof.
  intros p q E x _ <- y _ <-. unfold same_set. split; intros (r & Hx & Hy); exists r; split; by apply E.
Qed.

Lemma halve_same_roots n p rank x px ppx :
  uf n p rank → p !! x = Some px → px ≠ x → p !! px = Some ppx → same_roots p (<[x := ppx]> p).
Proof.
  intros Hu Hx Hne Hp z r. split; [by eapply halve_root|]. intros Hr.
  assert (z < n)%nat as Hz by exact (proj1 (root_below (halve_uf Hu x px ppx Hx Hne Hp) _ _ Hr)).
  destruct (root_total Hu z Hz) as (r' & Hr' & _).
  rewrite (root_of_fun _ _ _ _ Hr (halve_root Hu _ _ _ _ _ Hx Hne Hp Hr')). done.
Qed.

Lemma find_run n rank fuel p x r :
  uf n p rank → root_of p x r → rk rank r - rk rank x < Z.of_nat fuel →
  ∃ p', find fuel p x = Some (p', r) ∧ uf n p' rank ∧ same_roots p p'.
Proof.
  revert p x. induction fuel as [|fuel IH]; intros p x Hu Hr Hf.
  { pose proof (root_rank Hu x r Hr). lia. }
  simpl. inversion Hr as [? Hx|? y ? Hx Hne Hr']; subst; rewrite Hx; simpl.
  - rewrite Nat.eqb_refl. by exists p.
  - rewrite (proj2 (Nat.eqb_neq y x)) by done.
    destruct (lookup_lt_is_Some_2 p y) as (z & Hz).
    { rewrite (uf_len _ _ _ Hu). by eapply uf_par. }
    rewrite Hz. simpl. pose proof (halve_uf Hu x y z Hx Hne Hz) as Hu'.
    pose proof (halve_same_roots n p rank x y z Hu Hx Hne Hz) as Hs.
    assert (root_of p z r) as Hzr.
    { inversion Hr'; subst; by simplify_eq; eauto. }
    pose proof (uf_mono _ _ _ Hu x y Hx Hne).
    assert (rk rank y ≤ rk rank z).
    { destruct (decide (z = y)) as [->|Hne']; [lia|]. pose proof (uf_mono _ _ _ Hu y z Hz Hne'). lia. }
    destruct (IH _ z Hu' (proj1 (Hs z r) Hzr)) as (p' & -> & Hu'' & Hs'); [lia|].
    exists p'. split_and!; [done|done|]. by etransitivity.
Qed.

(** [find] returns the root, and only shortens paths. *)
Lemma find_root_run n rank p x r :
  uf n p rank → root_of p x r →
  ∃ p', find_root p x = Some (p', r) ∧ uf n p' rank ∧ same_roots p p'.
Proof.
  intros Hu Hr. apply find_run; [done|done|]. rewrite (uf_len _ _ _ Hu).
  pose proof (rank_lt Hu r (root_of_root _ _ _ Hr)). pose proof (uf_pos _ _ _ Hu x). lia.
Qed.

(** ** [union] *)
Section link.
Context {n : nat} {p : list nat} {rank : list Z} (Hu : uf n p rank).
Context (child top : nat) (Hc : p !! child = Some child) (Ht : p !! top = Some top) (Hne : child ≠ top).
Abbreviation p' := (<[child := top]> p).

Lemma link_root z r : root_of p z r → root_of p' z (if decide (r = child) then top else r).
Proof using Hc Ht Hne.
  pose proof (lookup_lt_Some _ _ _ Hc) as Hlt.
  assert (root_of p' top top) as Htop by (apply root_here; by rewrite list_lookup_insert_ne).
  induction 1 as [r Hr|z y r Hz Hzy Hr IH].
  - case_decide as E; [subst r|].
    + apply (root_step _ child top); [by apply list_lookup_insert_eq|done|done].
    + apply root_here. by rewrite list_lookup_insert_ne.
  - apply (root_step _ z y); [|done|done]. rewrite list_lookup_insert_ne; [done|].
    intros ->. congruence.
Qed.

(** Linking needs the new rank of [top] to exceed that of [child], and the
    weights of the two roots to be given to one. *)
Lemma link_uf rank' :
  length rank' = n → (∀ x, x ≠ top → rk rank' x = rk rank x) →
  rk rank child < rk rank' top → rk rank top ≤ rk rank' top →
  2 ^ rk rank' top ≤ 2 ^ rk rank child + 2 ^ rk rank top →
  uf n p' rank'.
Proof using Hu Hc Ht Hne.
  intros Hlen Hrk Hlt Hle Hw. pose proof (lookup_lt_Some _ _ _ Hc) as Hcl. pose proof (lookup_lt_Some _ _ _ Ht) as Htl.
  rewrite (uf_len _ _ _ Hu) in Hcl, Htl. split.
  - rewrite length_insert. apply Hu.
  - done.
  - intros z y [(<- & <- & _)|(? & Hz)]%list_lookup_insert_Some; [done|by eapply uf_par].
  - intros z y [(<- & <- & _)|(Hzc & Hz)]%list_lookup_insert_Some Hyz; [by rewrite (Hrk child)|].
    pose proof (uf_mono _ _ _ Hu z y Hz Hyz) as Hm. rewrite (Hrk z) by (intros ->; congruence).
    destruct (decide (y = top)) as [->|Hy]; [lia|]. by rewrite Hrk.
  - intros z. pose proof (uf_pos _ _ _ Hu z). destruct (decide (z = top)) as [->|Hz]; [lia|]. by rewrite Hrk.
  - pose (g := λ x, if decide (x = child) then 0 else weight p rank x).
    assert (sum_to g n = sum_to (weight p rank) n - 2 ^ rk rank child) as E1.
    { rewrite (sum_to_update (weight p rank) g child) by (unfold g; intros; rewrite ?decide_False; auto).
      unfold g. rewrite decide_True, (weight_root p rank child) by done. lia. }
    assert (∀ x, x ≠ top → g x = weight p' rank' x) as Hg.
    { intros x Hx. unfold g, weight. destruct (decide (x = child)) as [->|].
      - rewrite list_lookup_insert_eq by (by rewrite (uf_len _ _ _ Hu)). rewrite decide_False; [done|]. congruence.
      - by rewrite list_lookup_insert_ne, Hrk. }
    rewrite (sum_to_update g (weight p' rank') top n Htl Hg), E1. unfold g. rewrite decide_False by done.
    rewrite !weight_root by (rewrite ?list_lookup_insert_ne; auto).
    pose proof (uf_sum _ _ _ Hu). lia.
Qed.

(** The two sets become one, and no other sets merge. *)
Lemma link_same rank' x y :
  uf n p' rank' →
  same_set p' x y ↔ same_set p x y ∨ (same_set p x child ∧ same_set p y top) ∨ (same_set p x top ∧ same_set p y child).
Proof using Hu Hc Ht Hne.
  intros Hu'. assert (root_of p child child ∧ root_of p top top) as (Hcc & Htt) by auto. split.
  - intros (r & Hx & Hy).
    destruct (root_total Hu x (proj1 (root_below Hu' _ _ Hx))) as (rx & Hrx & _).
    destruct (root_total Hu y (proj1 (root_below Hu' _ _ Hy))) as (ry & Hry & _).
    pose proof (root_of_fun _ _ _ _ Hx (link_root _ _ Hrx)) as Ex.
    pose proof (root_of_fun _ _ _ _ Hy (link_root _ _ Hry)) as Ey.
    unfold same_set. repeat case_decide; subst; naive_solver.
  - intros [(r & Hx & Hy)|[((r & Hx & Hr) & (r' & Hy & Hr'))|((r & Hx & Hr) & (r' & Hy & Hr'))]].
    + eexists. split; by apply link_root.
    + rewrite (root_of_fun _ _ _ _ Hr Hcc) in Hx. rewrite (root_of_fun _ _ _ _ Hr' Htt) in Hy.
      apply link_root in Hx, Hy. rewrite decide_True in Hx by done. rewrite decide_False in Hy by done. by exists top.
    + rewrite (root_of_fun _ _ _ _ Hr Htt) in Hx. rewrite (root_of_fun _ _ _ _ Hr' Hcc) in Hy.
      apply link_root in Hx, Hy. rewrite decide_False in Hx by done. rewrite decide_True in Hy by done. by exists top.
Qed.
End link.

Lemma rk_insert rank x k : (x < length rank)%nat → rk (<[x := k]> rank) x = k.
Proof. intros Hx. unfold rk. by rewrite list_lookup_insert_eq. Qed.
Lemma rk_insert_ne rank x y k : y ≠ x → rk (<[x := k]> rank) y = rk rank y.
Proof. intros Hx. unfold rk. by rewrite list_lookup_insert_ne. Qed.

Lemma union_run n p rank a b :
  uf n p rank → (a < n)%nat → (b < n)%nat → Z.of_nat n < 2 ^ 255 →
  ∃ p' rank', union p rank a b = Some (p', rank') ∧ uf n p' rank' ∧
    ∀ x y, same_set p' x y ↔
      same_set p x y ∨ (same_set p x a ∧ same_set p y b) ∨ (same_set p x b ∧ same_set p y a).
Proof.
  intros Hu Ha Hb Hn. destruct (root_total Hu a Ha) as (ra & Hra & _). destruct (root_total Hu b Hb) as (rb & Hrb & _).
  unfold union. destruct (find_root_run n rank p a ra Hu Hra) as (p1 & -> & Hu1 & Hs1). simpl.
  destruct (find_root_run n rank p1 b rb Hu1) as (p2 & -> & Hu2 & Hs2); [by apply Hs1|]. simpl.
  assert (same_roots p p2) as Hs by (by etransitivity). clear Hs1 Hs2 Hu1 p1.
  apply Hs in Hra, Hrb. setoid_rewrite Hs. clear Hu p Hs.
  pose proof (root_of_root _ _ _ Hra) as Eb. pose proof (root_of_root _ _ _ Hrb) as Ea.
  assert (∀ x z r, root_of p2 z r → same_set p2 x r ↔ same_set p2 x z) as Hroot.
  { intros x z r Hr. pose proof (root_of_root _ _ _ Hr). split; intros Hx.
    - eapply same_set_trans; [done|]. exists r. auto.
    - eapply same_set_trans; [done|]. exists r. auto. }
  assert (∀ x, (x < n)%nat → rank !! x = Some (rk rank x)) as Hlook.
  { intros x Hx. destruct (lookup_lt_is_Some_2 rank x) as (k & Hk); [by rewrite (uf_rank_len _ _ _ Hu2)|].
    unfold rk. by rewrite Hk. }
  pose proof (root_below Hu2 _ _ Hra) as (_ & Hran). pose proof (root_below Hu2 _ _ Hrb) as (_ & Hrbn).
  destruct (Nat.eqb_spec ra rb) as [<-|Hne].
  { exists p2, rank. split_and!; [done|done|]. intros x y. split; [auto|].
    intros [?|[(Hx & Hy)|(Hx & Hy)]]; [done|..].
    - rewrite <- (Hroot x a ra Hra) in Hx. rewrite <- (Hroot y b ra Hrb) in Hy. eauto using same_set_trans, same_set_sym.
    - rewrite <- (Hroot x b ra Hrb) in Hx. rewrite <- (Hroot y a ra Hra) in Hy. eauto using same_set_trans, same_set_sym. }
  rewrite !Hlook by done. simpl. setoid_rewrite <- (λ x, Hroot x a ra Hra). setoid_rewrite <- (λ x, Hroot x b rb Hrb).
  pose proof (uf_pos _ _ _ Hu2 ra). pose proof (uf_pos _ _ _ Hu2 rb).
  destruct (Z.compare_spec (rk rank ra) (rk rank rb)) as [E|E|E].
  - assert (2 ^ rk rank ra + 2 ^ rk rank rb ≤ Z.of_nat n) as Hw.
    { etransitivity; [|apply (uf_sum _ _ _ Hu2)]. rewrite <- !(weight_root p2) by done.
      by apply sum_to_two; [apply weight_nonneg|..]. }
    assert (rk rank ra < 255) as Hk.
    { apply (Z.pow_lt_mono_r_iff 2); [lia|lia|]. pose proof (Z.pow_pos_nonneg 2 (rk rank rb)). lia. }
    unfold incr_u8. destruct (Z.eqb_spec (rk rank ra) 255); [lia|]. simpl.
    assert (uf n (<[rb := ra]> p2) (<[ra := rk rank ra + 1]> rank)) as Hu'.
    { assert (ra < length rank)%nat by (by rewrite (uf_rank_len _ _ _ Hu2)).
      apply (link_uf Hu2); [done|done|done|rewrite length_insert; apply Hu2|intros; by apply rk_insert_ne|..];
        rewrite rk_insert, <- ?E, ?Z.pow_add_r by (done || lia); lia. }
    eexists _, _. split_and!; [done|done|]. intros x y. rewrite (link_same Hu2 rb ra) by done. naive_solver.
  - assert (uf n (<[ra := rb]> p2) rank) as Hu'.
    { apply (link_uf Hu2); [done|done|done|apply Hu2|done|done|lia|]. pose proof (Z.pow_pos_nonneg 2 (rk rank ra)). lia. }
    eexists _, _. split_and!; [done|done|]. intros x y. rewrite (link_same Hu2 ra rb) by done. naive_solver.
  - assert (uf n (<[rb := ra]> p2) rank) as Hu'.
    { apply (link_uf Hu2); [done|done|done|apply Hu2|done|lia|lia|]. pose proof (Z.pow_pos_nonneg 2 (rk rank rb)). lia. }
    eexists _, _. split_and!; [done|done|]. intros x y. rewrite (link_same Hu2 rb ra) by done. naive_solver.
Qed.

(** ** Interning *)
Definition nodes (edges : list (string * string)) : list string := flat_map (λ e, [e.1; e.2]) edges.

(** The index and the labels are inverse to each other. *)
Record interned (seen : list string) (st : gmap string nat * list string) : Prop := {
  in_nodup : NoDup st.2;
  in_inv : ∀ s i, st.1 !! s = Some i ↔ st.2 !! i = Some s;
  in_seen : ∀ s, s ∈ st.2 ↔ s ∈ seen;
  in_len : (length st.2 ≤ length seen)%nat
}.

Lemma intern_step seen st id : interned seen st → interned (seen ++ [id]) (intern id st).
Proof.
  destruct st as [index labels]. intros [Hnd Hinv Hseen Hlen]. simpl in *. unfold intern. case_decide as E.
  - destruct E as (i & Hi). split; simpl; [done|done| |rewrite length_app; simpl; lia].
    intros s. rewrite elem_of_app, list_elem_of_singleton, <- Hseen. split; [auto|].
    intros [| ->]; [done|]. apply Hinv in Hi. by eapply list_elem_of_lookup_2.
  - assert (id ∉ labels) as Hid.
    { intros (i & Hi)%list_elem_of_lookup_1. apply E. exists i. by apply Hinv. }
    split; simpl.
    + apply NoDup_app. split_and!; [done| |apply NoDup_singleton]. intros s Hs ->%list_elem_of_singleton. done.
    + intros s i. rewrite lookup_insert_Some, lookup_snoc_Some, Hinv. split.
      * intros [(-> & ->)|(Hs & Hi)]; [auto|]. left. split; [by eapply lookup_lt_Some|done].
      * intros [(Hi & Hs)|(-> & ->)]; [|auto]. right. split; [|done]. intros ->.
        apply Hid. by eapply list_elem_of_lookup_2.
    + intros s. rewrite !elem_of_app, Hseen. done.
    + rewrite !length_app. simpl. lia.
Qed.

Lemma intern_all_run edges seen st :
  interned seen st → interned (seen ++ nodes edges) (intern_all edges st).
Proof.
  revert seen st. induction edges as [|[a b] edges IH]; intros seen st Hst; simpl.
  - by rewrite app_nil_r.
  - change (a :: b :: nodes edges) with ([a] ++ [b] ++ nodes edges). rewrite !(assoc_L (++)).
    apply IH. by apply intern_step, intern_step.
Qed.

Lemma length_nodes edges : length (nodes edges) = (2 * length edges)%nat.
Proof. induction edges; simpl; lia. Qed.
Lemma elem_of_nodes edges u v : (u, v) ∈ edges → u ∈ nodes edges ∧ v ∈ nodes edges.
Proof.
  intros He. unfold nodes. rewrite !list_elem_of_In, !in_flat_map.
  split; exists (u, v); rewrite <- list_elem_of_In; simpl; auto.
Qed.

(** ** The union loop *)

(** Connected in the graph whose edges are read in both directions. *)
Definition linked (edges : list (string * string)) : relation string := rtsc (λ u v, (u, v) ∈ edges).

Lemma linked_sym edges u v : linked edges u v → linked edges v u.
Proof. unfold linked. intros. by symmetry. Qed.
Lemma linked_trans edges u v w : linked edges u v → linked edges v w → linked edges u w.
Proof. unfold linked. intros. by etransitivity. Qed.

Section unions.
Context (all : list (string * string)) (index : gmap string nat) (labels : list string).
Context (Hin : interned (nodes all) (index, labels)) (Hsmall : Z.of_nat (length labels) < 2 ^ 255).

(** Indices in one set carry linked labels. *)
Definition sound (p : list nat) : Prop := ∀ x y u v,
  same_set p x y → labels !! x = Some u → labels !! y = Some v → linked all u v.

Lemma index_lookup u : u ∈ nodes all → ∃ i, index !! u = Some i ∧ labels !! i = Some u ∧ (i < length labels)%nat.
Proof using Hin.
  intros Hu. apply (in_seen _ _ Hin) in Hu. apply list_elem_of_lookup_1 in Hu as (i & Hi). exists i.
  split_and!; [by apply (in_inv _ _ Hin)|done|by eapply lookup_lt_Some].
Qed.

Lemma union_all_run edges p rank :
  (∀ e, e ∈ edges → e ∈ all) → uf (length labels) p rank → sound p →
  ∃ p' rank', union_all index edges p rank = Some (p', rank') ∧ uf (length labels) p' rank' ∧ sound p' ∧
    (∀ x y, same_set p x y → same_set p' x y) ∧
    (∀ u v x y, (u, v) ∈ edges → labels !! x = Some u → labels !! y = Some v → same_set p' x y).
Proof using Hin Hsmall.
  revert p rank. induction edges as [|[u v] edges IH]; intros p rank Hsub Hu Hs; simpl.
  { exists p, rank. split_and!; [done..|]. by intros ???? ?%not_elem_of_nil. }
  assert ((u, v) ∈ all) as He by (apply Hsub; left). apply elem_of_nodes in He as Hn.
  destruct (index_lookup u (proj1 Hn)) as (a & -> & Ha & Hal).
  destruct (index_lookup v (proj2 Hn)) as (b & -> & Hb & Hbl). simpl.
  destruct (union_run _ p rank a b Hu Hal Hbl Hsmall) as (p1 & rank1 & -> & Hu1 & Hsame). simpl.
  assert (sound p1) as Hs1.
  { assert (linked all u v) as Hl by (apply rtsc_lr; done).
    intros x y s t Hxy Hx Hy. apply Hsame in Hxy as [?|[(Hxa & Hyb)|(Hxb & Hya)]]; [by eapply Hs|..].
    - eapply linked_trans; [exact (Hs _ _ _ _ Hxa Hx Ha)|].
      eapply linked_trans; [done|]. apply linked_sym. exact (Hs _ _ _ _ Hyb Hy Hb).
    - eapply linked_trans; [exact (Hs _ _ _ _ Hxb Hx Hb)|].
      eapply linked_trans; [by apply linked_sym|]. apply linked_sym. exact (Hs _ _ _ _ Hya Hy Ha). }
  destruct (IH p1 rank1) as (p' & rank' & -> & Hu' & Hs' & Hmono & Hall); [|done|done|].
  { intros e ?. apply Hsub. by right. }
  exists p', rank'. split_and!; [done|done|done| |].
  - intros x y ?. apply Hmono, Hsame. auto.
  - intros s t x y [[= -> ->]|Hst]%elem_of_cons Hx Hy; [|eauto].
    assert (x = a) as -> by (eapply NoDup_lookup; [apply (in_nodup _ _ Hin)|..]; done).
    assert (y = b) as -> by (eapply NoDup_lookup; [apply (in_nodup _ _ Hin)|..]; done).
    apply Hmono, Hsame. right. left.
    destruct (root_total Hu a Hal) as (r & Hr & _), (root_total Hu b Hbl) as (r' & Hr' & _).
    split; [by exists r|by exists r'].
Qed.

(** After all edges: one set exactly when linked. *)
Lemma same_set_linked p rank x y u v :
  uf (length labels) p rank → sound p →
  (∀ u v x y, (u, v) ∈ all → labels !! x = Some u → labels !! y = Some v → same_set p x y) →
  labels !! x = Some u → labels !! y = Some v → same_set p x y ↔ linked all u v.
Proof using Hin.
  intros Hu Hs Hall Hx Hy. split; [intros; by eapply Hs|]. intros Hl. revert x Hx.
  induction Hl as [u|u w v Huw Hwv IH]; intros x Hx.
  - assert (x = y) as -> by (eapply NoDup_lookup; [apply (in_nodup _ _ Hin)|..]; done).
    destruct (root_total Hu y) as (r & Hr & _); [by eapply lookup_lt_Some|]. by exists r.
  - assert (w ∈ nodes all) as Hw by (destruct Huw as [He|He]; apply elem_of_nodes in He; naive_solver).
    destruct (index_lookup w Hw) as (k & _ & Hk & _). eapply same_set_trans; [|by apply IH].
    destruct Huw; [by eapply Hall|]. apply same_set_sym. by eapply Hall.
Qed.
End unions.

(** ** The grouping loop *)
Section grouping.
Context (labels : list string) (Hnd : NoDup labels) (rank : list Z).

(** The label at index [i], whose root is labelled [L]. *)
Definition in_group (p : list nat) (done : list nat) (L v : string) : Prop :=
  ∃ i r, i ∈ done ∧ labels !! i = Some v ∧ root_of p i r ∧ labels !! r = Some L.

Record grouped (p : list nat) (done : list nat) (gs : gmap string (list string)) : Prop := {
  gr_nodup : ∀ L ms, gs !! L = Some ms → NoDup ms ∧ ms ≠ [];
  gr_mem : ∀ L v, (∃ ms, gs !! L = Some ms ∧ v ∈ ms) ↔ in_group p done L v
}.

Lemma in_group_roots p p' done L v : same_roots p p' → in_group p done L v ↔ in_group p' done L v.
Proof.
  intros E. split; intros (i & r & ? & ? & ? & ?); exists i, r; split_and!; try done; by apply E.
Qed.

Lemma in_group_snoc p done i r u l L v :
  root_of p i r → labels !! i = Some u → labels !! r = Some l →
  in_group p (done ++ [i]) L v ↔ in_group p done L v ∨ (L = l ∧ v = u).
Proof.
  intros Hr Hu Hl. split.
  - intros (j & s & [Hj| ->%list_elem_of_singleton]%elem_of_app & Hv & Hs & HL).
    + left. by exists j, s.
    + right. rewrite (root_of_fun _ _ _ _ Hs Hr) in HL. by simplify_eq.
  - intros [(j & s & Hj & ?)|(-> & ->)].
    + exists j, s. rewrite elem_of_app. auto.
    + exists i, r. rewrite elem_of_app, list_elem_of_singleton. auto.
Qed.

Lemma grouped_step p done i r u l gs :
  i ∉ done → root_of p i r → labels !! i = Some u → labels !! r = Some l → grouped p done gs →
  grouped p (done ++ [i]) (<[l := default [] (gs !! l) ++ [u]]> gs).
Proof using Hnd.
  intros Hi Hr Hu Hl [Hno Hmem].
  assert (∀ v, v ∈ default [] (gs !! l) ↔ in_group p done l v) as Hd.
  { intros v. rewrite <- Hmem. destruct (gs !! l) as [ms|]; simpl; [naive_solver|].
    split; [by intros ?%not_elem_of_nil|naive_solver]. }
  split.
  - intros L ms [(<- & <-)|(Hne & HL)]%lookup_insert_Some; [|eauto].
    split; [|by destruct (default [] (gs !! l))]. apply NoDup_app. split_and!; [|  |apply NoDup_singleton].
    + destruct (gs !! l) as [ms|] eqn:E; simpl; [by eapply Hno|constructor].
    + intros v Hv ->%list_elem_of_singleton. apply Hd in Hv as (j & s & Hj & Hv & _).
      by rewrite (NoDup_lookup _ _ _ _ Hnd Hu Hv) in Hi.
  - intros L v. rewrite (in_group_snoc p done i r u l) by done. destruct (decide (L = l)) as [->|HL].
    + rewrite <- Hd. split.
      * intros (ms & [(_ & <-)|(? & _)]%lookup_insert_Some & Hv); [|done].
        apply elem_of_app in Hv as [?| ->%list_elem_of_singleton]; auto.
      * intros Hv. eexists. rewrite lookup_insert_eq. split; [done|].
        rewrite elem_of_app, list_elem_of_singleton. naive_solver.
    + rewrite <- Hmem. setoid_rewrite (lookup_insert_ne gs l L); [|done]. naive_solver.
Qed.

Lemma group_all_run ids done p gs :
  NoDup (done ++ ids) → (∀ i, i ∈ ids → (i < length labels)%nat) → uf (length labels) p rank →
  grouped p done gs →
  ∃ gs', group_all labels ids p gs = Some gs' ∧ grouped p (done ++ ids) gs'.
Proof using Hnd.
  revert done p gs. induction ids as [|i ids IH]; intros done p gs Hids Hlt Hu Hg; simpl.
  { rewrite app_nil_r. by exists gs. }
  assert (i < length labels)%nat as Hi by (apply Hlt; left).
  destruct (root_total Hu i Hi) as (r & Hr & Hrn & _).
  destruct (find_root_run _ rank p i r Hu Hr) as (p' & -> & Hu' & Hs). simpl.
  destruct (lookup_lt_is_Some_2 labels r Hrn) as (l & Hl), (lookup_lt_is_Some_2 labels i Hi) as (u & Hui).
  rewrite Hl, Hui. simpl.
  destruct (IH (done ++ [i]) p' (<[l := default [] (gs !! l) ++ [u]]> gs)) as (gs' & -> & Hg').
  - by rewrite <- (assoc_L (++)).
  - intros j ?. apply Hlt. by right.
  - done.
  - apply (grouped_step p' done i r u l); [|by apply Hs|done|done|].
    + apply NoDup_app in Hids as (_ & Hdis & _). intros Hd. apply (Hdis i Hd). left.
    + split; [apply Hg|]. intros L v. rewrite (gr_mem _ _ _ Hg). by apply in_group_roots.
  - exists gs'. split; [done|]. rewrite <- (assoc_L (++)) in Hg'.
    split; [apply Hg'|]. intros L v. rewrite (gr_mem _ _ _ Hg'). symmetry. by apply in_group_roots.
Qed.
End grouping.

(** ** The theorem *)

(** [gs] lists the connected components of the graph of [edges]: each under
    the label of one of its members, ascending and without duplicates, and
    each endpoint in exactly one group. *)
Record components_of (edges : list (string * string)) (gs : gmap string (list string)) : Prop := {
  co_rep : ∀ rep ms, gs !! rep = Some ms → rep ∈ ms;
  co_sorted : ∀ rep ms, gs !! rep = Some ms → NoDup ms ∧ StronglySorted (λ a b, leb a b = true) ms;
  co_mem : ∀ rep ms v, gs !! rep = Some ms → v ∈ ms ↔ v ∈ nodes edges ∧ linked edges rep v;
  co_cover : ∀ v, v ∈ nodes edges → ∃ rep ms, gs !! rep = Some ms ∧ v ∈ ms ∧
    ∀ rep' ms', gs !! rep' = Some ms' → v ∈ ms' → rep' = rep
}.

Lemma singletons_uf n : uf n (seq 0 n) (replicate n 0).
Proof.
  assert (∀ x, rk (replicate n 0) x = 0) as Hrk.
  { intros x. unfold rk. destruct (replicate n 0 !! x) eqn:E; [|done]. by apply lookup_replicate in E as (-> & _). }
  split.
  - apply length_seq.
  - apply length_replicate.
  - intros x y Hx. apply lookup_seq in Hx. lia.
  - intros x y Hx. apply lookup_seq in Hx. lia.
  - intros x. rewrite Hrk. lia.
  - rewrite (sum_to_ext _ (λ _, 1)).
    + clear. induction n as [|n IH]; simpl; lia.
    + intros x Hx. rewrite weight_root; [by rewrite Hrk|]. apply lookup_seq. lia.
Qed.

Lemma singletons_same n x y : same_set (seq 0 n) x y → x = y.
Proof.
  assert (∀ z r, root_of (seq 0 n) z r → z = r) as Hz.
  { intros z r. by inversion 1 as [|? ? ? (? & ?)%lookup_seq]. }
  intros (r & Hx%Hz & Hy%Hz). congruence.
Qed.

(** Groups by root are groups by connection. *)
Lemma grouped_components edges index labels p rank gs :
  interned (nodes edges) (index, labels) → uf (length labels) p rank →
  (∀ x y u v, labels !! x = Some u → labels !! y = Some v → same_set p x y ↔ linked edges u v) →
  grouped labels p (seq 0 (length labels)) gs → components_of edges (sort_by ord_cmp <$> gs).
Proof.
  intros Hin Hu Hiff [Hno Hmem].
  assert (∀ L v, in_group labels p (seq 0 (length labels)) L v →
    v ∈ nodes edges ∧ linked edges L v ∧ ∃ r, p !! r = Some r ∧ labels !! r = Some L) as Hto.
  { intros L v (i & r & Hi & Hv & Hr & HL). split_and!.
    - apply (in_seen _ _ Hin). by eapply list_elem_of_lookup_2.
    - apply (Hiff r i); [done..|]. exists r. split; [|done]. apply root_here. by eapply root_of_root.
    - exists r. split; [by eapply root_of_root|done]. }
  assert (∀ L v, (∃ r, p !! r = Some r ∧ labels !! r = Some L) → v ∈ nodes edges → linked edges L v →
    in_group labels p (seq 0 (length labels)) L v) as Hof.
  { intros L v (r & Hr & HL) Hv Hl. apply (in_seen _ _ Hin) in Hv. simpl in Hv.
    apply list_elem_of_lookup_1 in Hv as (i & Hi). apply (Hiff r i) in Hl as (s & Hs & His); [|done..].
    assert (s = r) as -> by exact (root_of_fun p r s r Hs (root_here p r Hr)).
    exists i, r. split_and!; [|done..]. apply elem_of_seq. pose proof (lookup_lt_Some _ _ _ Hi). lia. }
  assert (∀ L ms, gs !! L = Some ms → ∃ r, p !! r = Some r ∧ labels !! r = Some L) as Hroot.
  { intros L ms HL. destruct (Hno L ms HL) as (_ & Hne). destruct ms as [|v ms]; [done|].
    apply (Hto L v), Hmem. exists (v :: ms). split; [done|left]. }
  assert (∀ rep ms v, gs !! rep = Some ms → v ∈ ms ↔ v ∈ nodes edges ∧ linked edges rep v) as Hms.
  { intros rep ms v Hrep. split.
    - intros Hv. destruct (Hto rep v) as (? & ? & _); [|done]. apply Hmem. by exists ms.
    - intros (Hv & Hl). apply (Hof rep v (Hroot _ _ Hrep)) in Hv as Hg; [|done].
      apply Hmem in Hg as (ms' & ? & ?). by simplify_eq. }
  assert (∀ L ms, gs !! L = Some ms → L ∈ nodes edges) as Hnode.
  { intros L ms (r & _ & Hr)%Hroot. apply (in_seen _ _ Hin). by eapply list_elem_of_lookup_2. }
  split.
  - intros rep ? (ms & <- & Hrep)%lookup_fmap_Some. rewrite sort_by_perm.
    apply (Hms rep ms); [done|]. split; [by eapply Hnode|]. unfold linked. done.
  - intros rep ? (ms & <- & Hrep)%lookup_fmap_Some. split; [rewrite sort_by_perm; by eapply Hno|apply sort_by_sorted].
  - intros rep ? v (ms & <- & Hrep)%lookup_fmap_Some. rewrite sort_by_perm. by apply Hms.
  - intros v Hv. apply (in_seen _ _ Hin) in Hv as Hl. simpl in Hl. apply list_elem_of_lookup_1 in Hl as (i & Hi).
    pose proof (lookup_lt_Some _ _ _ Hi) as Hlt. destruct (root_total Hu i Hlt) as (r & Hr & Hrn & _).
    destruct (lookup_lt_is_Some_2 labels r Hrn) as (L & HL).
    destruct (proj2 (Hmem L v)) as (ms & Hgs & Hvm).
    { exists i, r. split_and!; [apply elem_of_seq; lia|done..]. }
    exists L, (sort_by ord_cmp ms). split_and!; [rewrite lookup_fmap, Hgs; done|by rewrite sort_by_perm|].
    intros L' ? (ms' & <- & Hgs')%lookup_fmap_Some. rewrite sort_by_perm. intros Hv'.
    destruct (Hroot _ _ Hgs') as (r' & Hr' & HL').
    apply (Hms _ _ _ Hgs') in Hv' as (_ & Hl). destruct (proj2 (Hiff r' i L' v HL' Hi) Hl) as (s & Hs & Hs').
    rewrite (root_of_fun _ _ _ _ Hs' Hr) in Hs. pose proof (root_of_fun p r' r r' Hs (root_here p r' Hr')). congruence.
Qed.

Lemma connected_components_run (edges : list (string * string)) :
  Z.of_nat (length edges) < 2 ^ 63 →
  ∃ c, connected_components edges = Some c ∧ components_of edges (groups c).
Proof.
  intros Hlen. unfold connected_components.
  assert (interned (nodes edges) (intern_all edges (∅, []))) as Hin.
  { apply (intern_all_run edges []). split; simpl; [constructor|..]; [|naive_solver|lia].
    intros s i. rewrite lookup_empty, lookup_nil. done. }
  destruct (intern_all edges (∅, [])) as [index labels].
  assert (Z.of_nat (length labels) < 2 ^ 255) as Hsmall.
  { pose proof (in_len _ _ Hin) as Hl. rewrite length_nodes in Hl. simpl in Hl. lia. }
  destruct (Nat.eqb_spec (length labels) 0) as [E|_].
  { eexists. split; [done|]. apply nil_length_inv in E as ->. split; simpl.
    - by intros ?? ?%lookup_empty_Some.
    - by intros ?? ?%lookup_empty_Some.
    - by intros ??? ?%lookup_empty_Some.
    - intros v Hv. by apply (in_seen _ _ Hin), not_elem_of_nil in Hv. }
  destruct (union_all_run edges index labels Hin Hsmall edges (seq 0 (length labels)) (replicate (length labels) 0))
    as (p & rank & -> & Hu & Hs & _ & Hall); [done|apply singletons_uf| |].
  { intros x y u v ->%singletons_same Hx Hy. simplify_eq. unfold linked. done. }
  simpl. pose proof (in_nodup _ _ Hin) as Hnd. simpl in Hnd.
  destruct (group_all_run labels Hnd rank (seq 0 (length labels)) [] p ∅) as (gs & -> & Hg); [..|done| |].
  - apply NoDup_ListNoDup, seq_NoDup.
  - intros i Hi%elem_of_seq. lia.
  - split; [by intros ?? ?%lookup_empty_Some|]. intros L v. split.
    + intros (ms & ?%lookup_empty_Some & _). done.
    + intros (i & r & Hi & _). by apply not_elem_of_nil in Hi.
  - simpl. eexists. split; [done|]. eapply grouped_components; [done|done| |done].
    intros. eapply same_set_linked; eauto.
Qed.

(** C28. For every edge list that fits in memory, [connected_components]
    terminates without an index out of bounds or an overflow of a [u8] rank,
    and returns the connected components of the graph of the edges read in
    both directions: every endpoint is in exactly one group, and the group of
    [rep] is the sorted list of the nodes connected to [rep]. *)
Theorem connected_components_exact (edges : list (string * string)) :
  Z.of_nat (length edges) < 2 ^ 63 →
  ∃ c, connected_components edges = Some c ∧ components_of edges (groups c).
Proof. apply connected_components_run. Qed.

Lemma connected_components_exact_witness :
  Z.of_nat (length [("a", "b"); ("c", "d"); ("d", "b"); ("z", "z")]%string) < 2 ^ 63 ∧
  ∃ c, connected_components [("a", "b"); ("c", "d"); ("d", "b"); ("z", "z")]%string = Some c ∧
    components_of [("a", "b"); ("c", "d"); ("d", "b"); ("z", "z")]%string (groups c).
Proof. split; [done|]. apply connected_components_exact. done. Defined.
