(* ===== verification/Community.v ===== *)
(** * Community detection (crates/graph/src/community.rs)

    Louvain local moves and label propagation.  The iteration order of a hash
    map is a parameter [order], chosen anew for every map that is iterated:
    [order pass node m] lists the entries of [m] in the pass [pass] at the
    node [node].  Indexing a missing key is a panic, [None]. *)

From stdpp Require Import gmap.
From S2P Require Export Prelude OrdMap Bytes Float64.

Inductive Algorithm := ALouvain | ALabelPropagation.

Record Options := MkOptions {
  algorithm : Algorithm;
  max_iterations : nat;
  resolution : f64;
  min_improvement : f64
}.
(** [Options::default()]: resolution 1.0 and improvement 1e-4. *)
Definition Options_default : Options := MkOptions ALouvain 10 f64_one (F64 0x3F1A36E2EB1C432D).

Record Communities := MkCommunities { comm_groups : gmap string (list string) }.
Definition comm_len (self : Communities) : nat := size (comm_groups self).
Definition comm_is_empty (self : Communities) : bool := bool_decide (comm_groups self = ∅).

Abbreviation weighted_edges := (list (string * string * f64)).

(** [*map.entry(k).or_insert(0.0) += w]. *)
Definition add_at (k : string) (w : f64) (m : gmap string f64) : gmap string f64 :=
  <[k := f64_add (default f64_zero (m !! k)) w]> m.
(** [map.entry(k).or_default().push(x)]. *)
Definition push_at {A} (k : string) (x : A) (m : gmap string (list A)) : gmap string (list A) :=
  <[k := default [] (m !! k) ++ [x]]> m.

(** [for (node, comm) in node_to_comm { groups.entry(comm).or_default().push(node) }],
    then [members.sort()]. *)
Definition group_nodes (assignment : list (string * string)) : gmap string (list string) :=
  fold_left (λ groups '(node, comm), push_at comm node groups) assignment ∅.
Definition communities_from_assignment (node_to_comm : gmap string string) : Communities :=
  MkCommunities (sort_by ord_cmp <$> group_nodes (map_to_list node_to_comm)).

(** The endpoints, sorted. *)
Definition all_nodes (edges : weighted_edges) : list string :=
  sort_by ord_cmp (elements (list_to_set (flat_map (λ e, [e.1.1; e.1.2]) edges) : gset string)).
Definition singletons (nodes : list string) : gmap string string :=
  list_to_map (map (λ n, (n, n)) nodes).

(** ** Louvain *)
Record louvain_graph := MkLGraph {
  adj : gmap string (list (string * f64));
  degree : gmap string f64
}.
Definition louvain_edge (g : louvain_graph) (e : string * string * f64) : louvain_graph :=
  let '(src, dst, weight) := e in
  if decide (src = dst) then g
  else MkLGraph (push_at dst (src, weight) (push_at src (dst, weight) (adj g)))
                (add_at dst weight (add_at src weight (degree g))).
Definition build_louvain (edges : weighted_edges) : louvain_graph :=
  fold_left louvain_edge edges (MkLGraph ∅ ∅).

Record louvain_state := MkLState {
  node_to_comm : gmap string string;
  sigma_tot : gmap string f64
}.

(** [iter().sum::<f64>()], which starts from negative zero. *)
Definition f64_sum (l : list f64) : f64 := fold_left f64_add l (F64 0x8000000000000000).
Definition f64_two : f64 := F64 0x4000000000000000.

Section louvain.
Context (order : nat → string → gmap string f64 → list (string * f64)).
Context (opts : Options) (g : louvain_graph) (m : f64).

(** The affinity of a node to the communities of its neighbours. *)
Fixpoint affinity (neighbors : list (string * f64)) (st : louvain_state) (acc : gmap string f64) :
    option (gmap string f64) :=
  match neighbors with
  | [] => Some acc
  | (nb, w) :: neighbors' =>
      nb_comm ← node_to_comm st !! nb;
      affinity neighbors' st (add_at nb_comm w acc)
  end.

(** [k_in - resolution * sigma * k_i / (2.0 * m)]. *)
Definition gain (k_in sigma k_i : f64) : f64 :=
  f64_sub k_in (f64_div (f64_mul (f64_mul (resolution opts) sigma) k_i) (f64_mul f64_two m)).

(** The candidate loop. *)
Fixpoint best_community (candidates : list (string * f64)) (current : string) (baseline k_i : f64)
    (sigma : gmap string f64) (best : f64 * option string) : f64 * option string :=
  match candidates with
  | [] => best
  | (cand, k_in) :: candidates' =>
      if decide (cand = current) then best_community candidates' current baseline k_i sigma best
      else
        let net := f64_sub (gain k_in (default f64_zero (sigma !! cand)) k_i) baseline in
        best_community candidates' current baseline k_i sigma
          (if f64_gtb net best.1 then (net, Some cand) else best)
  end.

(** One node of a pass: the state and whether the node moved. *)
Definition visit (pass : nat) (node : string) (st : louvain_state) : option (louvain_state * bool) :=
  let k_i := default f64_zero (degree g !! node) in
  if f64_eqb k_i f64_zero then Some (st, false)
  else
    current ← node_to_comm st !! node;
    k_in_per_comm ← affinity (default [] (adj g !! node)) st ∅;
    let k_i_in_current := default f64_zero (k_in_per_comm !! current) in
    let sigma_without_i := f64_sub (default f64_zero (sigma_tot st !! current)) k_i in
    let baseline := gain k_i_in_current sigma_without_i k_i in
    match (best_community (order pass node k_in_per_comm) current baseline k_i (sigma_tot st)
             (f64_zero, None)).2 with
    | Some target =>
        let sigma := <[current := f64_sub (default f64_zero (sigma_tot st !! current)) k_i]> (sigma_tot st) in
        Some (MkLState (<[node := target]> (node_to_comm st)) (add_at target k_i sigma), true)
    | None => Some (st, false)
    end.

Fixpoint louvain_pass (pass : nat) (nodes : list string) (st : louvain_state) (moved : bool) :
    option (louvain_state * bool) :=
  match nodes with
  | [] => Some (st, moved)
  | node :: nodes' =>
      '(st', b) ← visit pass node st;
      louvain_pass pass nodes' st' (moved || b)
  end.

(** At most [n] more passes; [pass] counts those done. *)
Fixpoint louvain_loop (n pass : nat) (nodes : list string) (st : louvain_state) : option louvain_state :=
  match n with
  | O => Some st
  | S n =>
      '(st', moved) ← louvain_pass pass nodes st false;
      if moved : bool then louvain_loop n (S pass) nodes st' else Some st'
  end.
End louvain.

Definition louvain (order : nat → string → gmap string f64 → list (string * f64))
    (edges : weighted_edges) (opts : Options) : option Communities :=
  let g := build_louvain edges in
  let nodes := all_nodes edges in
  if bool_decide (nodes = []) then Some (MkCommunities ∅)
  else
    let m := f64_div (f64_sum (map snd (order 0 ""%string (degree g)))) f64_two in
    if f64_eqb m f64_zero then
      Some (MkCommunities (list_to_map (map (λ n, (n, [n])) nodes)))
    else
      let sigma := list_to_map (map (λ n, (n, default f64_zero (degree g !! n))) nodes) in
      st ← louvain_loop order opts g m (max_iterations opts) 1 nodes (MkLState (singletons nodes) sigma);
      Some (communities_from_assignment (node_to_comm st)).

(** ** Label propagation *)
Definition lp_edge (adj : gmap string (list string)) (e : string * string * f64) : gmap string (list string) :=
  let '(src, dst, _) := e in
  if decide (src = dst) then adj else push_at dst src (push_at src dst adj).
Definition build_lp (edges : weighted_edges) : gmap string (list string) := fold_left lp_edge edges ∅.

(** The frequency of each label among the neighbours. *)
Definition label_of (labels : gmap string string) (nb : string) : string := default nb (labels !! nb).
Definition frequencies (labels : gmap string string) (neighbors : list string) : gmap string nat :=
  fold_left (λ freq nb, let lbl := label_of labels nb in <[lbl := S (default 0 (freq !! lbl))]> freq) neighbors ∅.
(** [freq.values().copied().max().unwrap_or(0)]. *)
Definition max_value (freq : gmap string nat) : nat := foldr Nat.max 0 (map snd (map_to_list freq)).
(** [.filter(|(_, cnt)| cnt == max).map(|(lbl, _)| lbl).min()]. *)
Definition min_string (l : list string) : option string := head (sort_by ord_cmp l).
Definition winners (freq : gmap string nat) : list string :=
  map fst (List.filter (λ kv : string * nat, kv.2 =? max_value freq) (map_to_list freq)).

Definition propagate (adj : gmap string (list string)) (node : string) (labels : gmap string string) :
    option (gmap string string * bool) :=
  match adj !! node with
  | None | Some [] => Some (labels, false)
  | Some neighbors =>
      let freq := frequencies labels neighbors in
      current ← labels !! node;
      if default 0 (freq !! current) <? max_value freq then
        let winner := default current (min_string (winners freq)) in
        if decide (winner = current) then Some (labels, false)
        else Some (<[node := winner]> labels, true)
      else Some (labels, false)
  end.

Fixpoint lp_round (adj : gmap string (list string)) (nodes : list string) (labels : gmap string string)
    (changed : bool) : option (gmap string string * bool) :=
  match nodes with
  | [] => Some (labels, changed)
  | node :: nodes' =>
      '(labels', b) ← propagate adj node labels;
      lp_round adj nodes' labels' (changed || b)
  end.

(** The labels after at most [n] rounds, and whether the last one changed
    nothing. *)
Fixpoint lp_loop (n : nat) (adj : gmap string (list string)) (nodes : list string) (labels : gmap string string) :
    option (gmap string string * bool) :=
  match n with
  | O => Some (labels, false)
  | S n =>
      '(labels', changed) ← lp_round adj nodes labels false;
      if changed : bool then lp_loop n adj nodes labels' else Some (labels', true)
  end.

Definition label_propagation (edges : weighted_edges) (opts : Options) : option Communities :=
  let adj := build_lp edges in
  let nodes := all_nodes edges in
  if bool_decide (nodes = []) then Some (MkCommunities ∅)
  else
    '(labels, _) ← lp_loop (max_iterations opts) adj nodes (singletons nodes);
    Some (communities_from_assignment labels).

(** ** Entry points *)
Definition detect_weighted (order : nat → string → gmap string f64 → list (string * f64))
    (edges : weighted_edges) (opts : Options) : option Communities :=
  match edges with
  | [] => Some (MkCommunities ∅)
  | _ => match algorithm opts with
         | ALouvain => louvain order edges opts
         | ALabelPropagation => label_propagation edges opts
         end
  end.

Definition detect (order : nat → string → gmap string f64 → list (string * f64))
    (edges : list (string * string)) (opts : Options) : option Communities :=
  detect_weighted order (map (λ e, (e.1, e.2, f64_one)) edges) opts.

(** One iteration order: that of the model's maps. *)
Definition some_order (_ : nat) (_ : string) (m : gmap string f64) : list (string * f64) := map_to_list m.

Example two_triangles :
  let e := [("a", "b"); ("b", "c"); ("c", "a"); ("x", "y"); ("y", "z"); ("z", "x"); ("c", "x")]%string in
  (λ c, map_to_list (comm_groups c)) <$> detect some_order e Options_default =
  Some [("z", ["x"; "y"; "z"]); ("b", ["a"; "b"; "c"])]%string.
Proof. vm_compute. reflexivity. Qed.
