(* ===== verification/CommunitySpec.v ===== *)
(** * Communities partition the nodes (crates/graph/src/community.rs)

    Both algorithms terminate without a panic and assign every endpoint to
    exactly one community, whatever the iteration order of the hash maps and
    the rounding of the weights; label propagation that stops early has
    reached a stable labelling. *)

From stdpp Require Import gmap.
From Stdlib Require Import Sorted.
From S2P Require Export Community.

(** ** Grouping *)
Lemma group_nodes_spec (l : list (string * string)) :
  NoDup (map fst l) →
  (∀ c ms, group_nodes l !! c = Some ms → ms ≠ [] ∧ NoDup ms) ∧
  ∀ c v, (∃ ms, group_nodes l !! c = Some ms ∧ v ∈ ms) ↔ (v, c) ∈ l.
Proof.
  unfold group_nodes. induction l as [|[n d] l IH] using rev_ind; intros Hnd.
  { simpl. split; [by intros ?? ?%lookup_empty_Some|]. intros c v. rewrite elem_of_nil.
    split; [|done]. by intros (? & ?%lookup_empty_Some & _). }
  rewrite map_app in Hnd. apply NoDup_app in Hnd as (Hnd & Hdis & _).
  rewrite fold_left_app. simpl. destruct (IH Hnd) as (Hne & Hmem). clear IH.
  set (gs := fold_left _ l ∅) in *. unfold push_at.
  assert (∀ v, v ∈ default [] (gs !! d) ↔ (v, d) ∈ l) as Hd.
  { intros v. rewrite <- Hmem. destruct (gs !! d) as [ms|]; simpl; [naive_solver|].
    split; [by intros ?%not_elem_of_nil|naive_solver]. }
  split.
  - intros c ms [(<- & <-)|(_ & Hc)]%lookup_insert_Some; [|eauto].
    split; [by destruct (default [] (gs !! d))|]. apply NoDup_app. split_and!; [| |apply NoDup_singleton].
    + destruct (gs !! d) as [ms|] eqn:E; simpl; [by eapply Hne|constructor].
    + intros v Hv ->%list_elem_of_singleton. apply Hd in Hv. apply (Hdis n); [|left].
      apply list_elem_of_fmap. by exists (n, d).
  - intros c v. rewrite elem_of_app, list_elem_of_singleton. destruct (decide (c = d)) as [->|Hc].
    + rewrite <- Hd. split.
      * intros (ms & [(_ & <-)|(? & _)]%lookup_insert_Some & Hv); [|done].
        apply elem_of_app in Hv as [?| ->%list_elem_of_singleton]; auto.
      * intros Hv. eexists. rewrite lookup_insert_eq. split; [done|].
        rewrite elem_of_app, list_elem_of_singleton. naive_solver.
    + rewrite <- Hmem. setoid_rewrite (lookup_insert_ne gs d c); [|done]. naive_solver.
Qed.

(** ** Partitions *)
Definition endpoints (edges : weighted_edges) : list string := flat_map (λ e, [e.1.1; e.1.2]) edges.

Record partition_of (nodes : list string) (gs : gmap string (list string)) : Prop := {
  pa_key : ∀ key ms, gs !! key = Some ms → key ∈ nodes ∧ ms ≠ [];
  pa_sorted : ∀ key ms, gs !! key = Some ms → NoDup ms ∧ StronglySorted (λ a b, leb a b = true) ms;
  pa_mem : ∀ key ms v, gs !! key = Some ms → v ∈ ms → v ∈ nodes;
  pa_cover : ∀ v, v ∈ nodes → ∃ key ms, gs !! key = Some ms ∧ v ∈ ms ∧
    ∀ key' ms', gs !! key' = Some ms' → v ∈ ms' → key' = key
}.

(** A total assignment of nodes to nodes gives a partition. *)
Record assignment_ok (nodes : list string) (m : gmap string string) : Prop := {
  ao_dom : ∀ v, is_Some (m !! v) ↔ v ∈ nodes;
  ao_img : ∀ v c, m !! v = Some c → c ∈ nodes
}.

Lemma assignment_partition nodes m :
  assignment_ok nodes m → partition_of nodes (comm_groups (communities_from_assignment m)).
Proof.
  intros [Hdom Himg]. unfold communities_from_assignment. simpl.
  destruct (group_nodes_spec (map_to_list m)) as (Hne & Hmem); [apply NoDup_fst_map_to_list|].
  assert (∀ c v, (∃ ms, group_nodes (map_to_list m) !! c = Some ms ∧ v ∈ ms) ↔ m !! v = Some c) as Hg.
  { intros c v. by rewrite Hmem, elem_of_map_to_list. }
  split.
  - intros key ? (ms & <- & Hk)%lookup_fmap_Some. destruct (Hne _ _ Hk) as (Hms & _). split.
    + destruct ms as [|v ms]; [done|]. apply (Himg v), Hg. exists (v :: ms). split; [done|left].
    + intros E. apply (f_equal length) in E. rewrite sort_by_perm in E. by destruct ms.
  - intros key ? (ms & <- & Hk)%lookup_fmap_Some. split; [|apply sort_by_sorted].
    rewrite sort_by_perm. by eapply Hne.
  - intros key ? v (ms & <- & Hk)%lookup_fmap_Some. rewrite sort_by_perm. intros Hv.
    apply Hdom. exists key. apply Hg. by exists ms.
  - intros v [c Hc]%Hdom. apply Hg in Hc as Hx. destruct Hx as (ms & Hk & Hv).
    exists c, (sort_by ord_cmp ms). split_and!; [by rewrite lookup_fmap, Hk|by rewrite sort_by_perm|].
    intros key' ? (ms' & <- & Hk')%lookup_fmap_Some. rewrite sort_by_perm. intros Hv'.
    assert (m !! v = Some key'); [|congruence]. apply Hg. by exists ms'.
Qed.

Lemma elem_of_all_nodes edges v : v ∈ all_nodes edges ↔ v ∈ endpoints edges.
Proof. unfold all_nodes, endpoints. by rewrite sort_by_perm, elem_of_elements, elem_of_list_to_set. Qed.

Lemma NoDup_all_nodes edges : NoDup (all_nodes edges).
Proof. unfold all_nodes. rewrite sort_by_perm. apply NoDup_elements. Qed.

Lemma lookup_keyed {A} (f : string → A) (nodes : list string) v x :
  NoDup nodes → (list_to_map (map (λ n, (n, f n)) nodes) : gmap string A) !! v = Some x ↔ v ∈ nodes ∧ x = f v.
Proof.
  intros Hnd. rewrite <- elem_of_list_to_map.
  - rewrite list_elem_of_fmap. naive_solver.
  - change (list_fmap _ _ _ _) with (map fst (map (λ n, (n, f n)) nodes)). by rewrite map_map, map_id.
Qed.

Lemma singletons_ok nodes : NoDup nodes → assignment_ok nodes (singletons nodes).
Proof.
  intros Hnd. unfold singletons. split.
  - intros v. split.
    + intros [x Hx]. by apply (lookup_keyed (λ n, n)) in Hx as [? _].
    + intros Hv. exists v. by apply (lookup_keyed (λ n, n)).
  - intros v c Hc. by apply (lookup_keyed (λ n, n)) in Hc as [? ->].
Qed.

Lemma assignment_insert nodes m v c :
  assignment_ok nodes m → v ∈ nodes → c ∈ nodes → assignment_ok nodes (<[v := c]> m).
Proof.
  intros [Hdom Himg] Hv Hc. split.
  - intros w. rewrite lookup_insert_is_Some, Hdom. destruct (decide (v = w)) as [->|]; naive_solver.
  - intros w d [(<- & <-)|(_ & Hd)]%lookup_insert_Some; [done|by eapply Himg].
Qed.

(** ** Adjacency lists hold endpoints *)
Lemma push_at_elem {A} k (x : A) m k' ys y :
  push_at k x m !! k' = Some ys → y ∈ ys → y = x ∨ ∃ zs, m !! k' = Some zs ∧ y ∈ zs.
Proof.
  unfold push_at. intros [(<- & <-)|(_ & Hk)]%lookup_insert_Some Hy; [|eauto].
  apply elem_of_app in Hy as [Hy| ->%list_elem_of_singleton]; [|auto].
  destruct (m !! k) as [zs|]; simpl in Hy; [eauto|by apply not_elem_of_nil in Hy].
Qed.

Lemma build_louvain_nodes edges v nbs nb w :
  adj (build_louvain edges) !! v = Some nbs → (nb, w) ∈ nbs → nb ∈ endpoints edges.
Proof.
  unfold build_louvain, endpoints. revert v nbs. induction edges as [|[[s d] x] edges IH] using rev_ind;
    intros v nbs; [simpl; by intros ?%lookup_empty_Some|].
  rewrite fold_left_app, flat_map_app, elem_of_app. simpl. unfold louvain_edge at 1.
  case_decide; simpl; intros Hv Hn; [left; eauto|].
  apply (push_at_elem _ _ _ _ _ _ Hv) in Hn as [[= -> ->]|(zs & Hz & Hn)]; [set_solver|].
  apply (push_at_elem _ _ _ _ _ _ Hz) in Hn as [[= -> ->]|(zs' & Hz' & Hn)]; [set_solver|left; eauto].
Qed.

Lemma build_lp_nodes edges v nbs nb :
  build_lp edges !! v = Some nbs → nb ∈ nbs → nb ∈ endpoints edges.
Proof.
  unfold build_lp, endpoints. revert v nbs. induction edges as [|[[s d] x] edges IH] using rev_ind;
    intros v nbs; [simpl; by intros ?%lookup_empty_Some|].
  rewrite fold_left_app, flat_map_app, elem_of_app. simpl. unfold lp_edge at 1.
  case_decide; simpl; intros Hv Hn; [left; eauto|].
  apply (push_at_elem _ _ _ _ _ _ Hv) in Hn as [->|(zs & Hz & Hn)]; [set_solver|].
  apply (push_at_elem _ _ _ _ _ _ Hz) in Hn as [->|(zs' & Hz' & Hn)]; [set_solver|left; eauto].
Qed.

(** ** Louvain *)
Section louvain.
Context (order : nat → string → gmap string f64 → list (string * f64)).
Context (Hord : ∀ pass node m, order pass node m ≡ₚ map_to_list m).
Context (edges : weighted_edges) (opts : Options) (m : f64).
Abbreviation nodes := (all_nodes edges).
Abbreviation g := (build_louvain edges).

Lemma affinity_run nbs st acc :
  assignment_ok nodes (node_to_comm st) → (∀ nb w, (nb, w) ∈ nbs → nb ∈ nodes) →
  (∀ c, is_Some (acc !! c) → c ∈ nodes) →
  ∃ acc', affinity nbs st acc = Some acc' ∧ ∀ c, is_Some (acc' !! c) → c ∈ nodes.
Proof.
  intros Hok. revert acc. induction nbs as [|[nb w] nbs IH]; intros acc Hnbs Hacc; simpl; [by exists acc|].
  destruct (proj2 (ao_dom _ _ Hok nb)) as [c Hc]; [by eapply Hnbs; left|]. rewrite Hc. simpl.
  apply IH; [intros; eapply Hnbs; by right|]. intros d. unfold add_at.
  rewrite lookup_insert_is_Some. intros [<-|[_ Hd]]; [by eapply ao_img|by apply Hacc].
Qed.

Lemma best_community_from cands current baseline k_i sigma best c :
  (best_community opts m cands current baseline k_i sigma best).2 = Some c →
  best.2 = Some c ∨ c ∈ map fst cands.
Proof.
  revert best. induction cands as [|[cand k] cands IH]; intros best; simpl; [auto|].
  case_decide.
  - intros [?|?]%IH; [auto|]. right. by right.
  - intros [Hb|?]%IH; [|right; by right]. destruct (f64_gtb _ _); simpl in Hb; [|auto].
    injection Hb as ->. right. left.
Qed.

Lemma visit_run pass node st :
  assignment_ok nodes (node_to_comm st) → node ∈ nodes →
  ∃ st' b, visit order opts g m pass node st = Some (st', b) ∧ assignment_ok nodes (node_to_comm st').
Proof using Hord.
  intros Hok Hn. unfold visit. destruct (f64_eqb _ _); [by eexists _, _|].
  destruct (proj2 (ao_dom _ _ Hok node) Hn) as [cur Hcur]. rewrite Hcur. simpl.
  destruct (affinity_run (default [] (adj g !! node)) st ∅ Hok) as (kin & -> & Hkin).
  - intros nb w Hnb. apply elem_of_all_nodes. destruct (adj g !! node) as [nbs|] eqn:E; simpl in Hnb.
    + by eapply build_louvain_nodes.
    + by apply not_elem_of_nil in Hnb.
  - intros c [? ?%lookup_empty_Some]. done.
  - simpl. destruct (best_community _ _ _ _ _ _ _ _) as [bg bc] eqn:E. simpl.
    destruct bc as [c|]; [|by eexists _, _]. eexists _, _. split; [done|]. simpl.
    apply assignment_insert; [done|done|]. apply Hkin.
    assert (c ∈ map fst (order pass node kin)) as Hc.
    { apply (f_equal snd) in E. simpl in E. by apply best_community_from in E as [?|?]. }
    apply list_elem_of_fmap in Hc as ([c' k] & -> & Hc). rewrite Hord in Hc.
    apply elem_of_map_to_list in Hc. by exists k.
Qed.

Lemma louvain_pass_run pass ns st b :
  assignment_ok nodes (node_to_comm st) → (∀ n, n ∈ ns → n ∈ nodes) →
  ∃ st' b', louvain_pass order opts g m pass ns st b = Some (st', b') ∧ assignment_ok nodes (node_to_comm st').
Proof using Hord.
  revert st b. induction ns as [|n ns IH]; intros st b Hok Hns; simpl; [by eexists _, _|].
  destruct (visit_run pass n st Hok) as (st1 & b1 & -> & Hok1); [apply Hns; left|]. simpl.
  apply IH; [done|]. intros k ?. apply Hns. by right.
Qed.

Lemma louvain_loop_run n pass st :
  assignment_ok nodes (node_to_comm st) →
  ∃ st', louvain_loop order opts g m n pass nodes st = Some st' ∧ assignment_ok nodes (node_to_comm st').
Proof using Hord.
  revert pass st. induction n as [|n IH]; intros pass st Hok; simpl; [by eexists|].
  destruct (louvain_pass_run pass nodes st false Hok) as (st1 & b1 & -> & Hok1); [done|]. simpl.
  destruct b1; [by apply IH|by eexists].
Qed.
End louvain.

(** ** Label propagation *)
Section lp.
Context (edges : weighted_edges).
Abbreviation nodes := (all_nodes edges).
Abbreviation adj := (build_lp edges).

(** The occurrences of a label among the neighbours of a node. *)
Definition occurrences (labels : gmap string string) (nbs : list string) (l : string) : nat :=
  length (filter (λ nb, label_of labels nb = l) nbs).

Lemma frequencies_spec labels nbs l :
  default 0 (frequencies labels nbs !! l) = occurrences labels nbs l ∧
  (is_Some (frequencies labels nbs !! l) → ∃ nb, nb ∈ nbs ∧ label_of labels nb = l).
Proof.
  unfold frequencies, occurrences. induction nbs as [|nb nbs [IH1 IH2]] using rev_ind; simpl.
  { split; [done|]. by intros [? ?%lookup_empty_Some]. }
  rewrite fold_left_app, filter_app, length_app. simpl. rewrite filter_cons, filter_nil.
  destruct (decide (label_of labels nb = l)) as [E|Hne].
  - rewrite E, lookup_insert_eq. simpl. split; [lia|]. intros _. exists nb. split; [set_solver|done].
  - rewrite lookup_insert_ne by done. simpl. split; [lia|]. intros Hs.
    destruct (IH2 Hs) as (nb' & ? & ?). exists nb'. split; [set_solver|done].
Qed.

Lemma max_value_spec freq : (∀ l k, freq !! l = Some k → k ≤ max_value freq) ∧
  (max_value freq = 0 ∨ ∃ l, freq !! l = Some (max_value freq)).
Proof.
  assert (∀ xs : list nat, (∀ k, k ∈ xs → k ≤ foldr Nat.max 0 xs) ∧
            (foldr Nat.max 0 xs = 0 ∨ foldr Nat.max 0 xs ∈ xs)) as Hm.
  { induction xs as [|x xs [IH1 IH2]]; simpl; [split; [by intros ? ?%not_elem_of_nil|auto]|]. split.
    - intros k [->|Hk]%elem_of_cons; [lia|]. specialize (IH1 _ Hk). lia.
    - destruct (Nat.max_spec x (foldr Nat.max 0 xs)) as [(_ & ->)|(_ & ->)].
      + destruct IH2 as [->|?]; [auto|]. right. by right.
      + right. left. }
  unfold max_value. destruct (Hm (map snd (map_to_list freq))) as (H1 & H2). split.
  - intros l k Hl. apply H1. apply list_elem_of_fmap. exists (l, k). split; [done|]. by apply elem_of_map_to_list.
  - destruct H2 as [?|([l k] & Hk & Hl)%list_elem_of_fmap]; [auto|]. right. exists l.
    simpl in Hk. rewrite Hk at 1. by apply elem_of_map_to_list.
Qed.

Lemma winner_spec freq l : min_string (winners freq) = Some l → freq !! l = Some (max_value freq).
Proof.
  unfold min_string. intros Hl%head_Some_elem_of. rewrite sort_by_perm in Hl. unfold winners in Hl.
  apply list_elem_of_fmap in Hl as ([l' k] & -> & Hk). apply elem_filter_bool in Hk as (Hk & Hin).
  apply elem_of_map_to_list in Hin. simpl in *. apply Nat.eqb_eq in Hk. by rewrite <- Hk.
Qed.

(** The label of [node] is a most frequent one among its neighbours. *)
Definition settled (labels : gmap string string) (node : string) : Prop :=
  ∀ cur, labels !! node = Some cur →
    ∀ l, occurrences labels (default [] (adj !! node)) l ≤ occurrences labels (default [] (adj !! node)) cur.

Lemma propagate_run node labels :
  assignment_ok nodes labels → node ∈ nodes →
  ∃ labels' b, propagate adj node labels = Some (labels', b) ∧ assignment_ok nodes labels' ∧
    (b = false → labels' = labels ∧ settled labels node).
Proof.
  intros Hok Hn. unfold propagate, settled. destruct (adj !! node) as [[|nb nbs]|] eqn:Ha; simpl.
  1,3: exists labels, false; split_and!; [done|done|]; intros _; split; [done|]; by intros.
  set (freq := frequencies labels (nb :: nbs)).
  destruct (proj2 (ao_dom _ _ Hok node) Hn) as [cur Hcur]. rewrite Hcur. simpl.
  destruct (max_value_spec freq) as (Hmax & Hex).
  assert (max_value freq ≤ default 0 (freq !! cur) →
    ∀ c, Some cur = Some c → ∀ l, occurrences labels (nb :: nbs) l ≤ occurrences labels (nb :: nbs) c) as Hset.
  { intros Hle c [= <-] l. destruct (frequencies_spec labels (nb :: nbs) cur) as [<- _].
    destruct (frequencies_spec labels (nb :: nbs) l) as [<- _]. fold freq.
    destruct (freq !! l) as [k|] eqn:E; simpl; [|lia]. specialize (Hmax _ _ E). lia. }
  destruct (Nat.ltb_spec (default 0 (freq !! cur)) (max_value freq)) as [Hlt|Hge].
  2:{ exists labels, false. split_and!; [done|done|]. intros _. split; [done|]. by apply Hset. }
  destruct (min_string (winners freq)) as [w|] eqn:Hw; simpl.
  - apply winner_spec in Hw. case_decide as E.
    + subst w. rewrite Hw in Hlt. simpl in Hlt. lia.
    + eexists _, _. split_and!; [done| |done]. apply assignment_insert; [done|done|].
      destruct (frequencies_spec labels (nb :: nbs) w) as [_ (nb' & Hnb & <-)]; [by eexists|].
      assert (nb' ∈ nodes) as Hn' by (apply elem_of_all_nodes; by eapply build_lp_nodes).
      unfold label_of. destruct (proj2 (ao_dom _ _ Hok nb') Hn') as [c Hc]. rewrite Hc. simpl. by eapply ao_img.
  - exfalso. destruct Hex as [E|(l & Hl)]; [lia|].
    assert (l ∈ winners freq) as Hin.
    { apply list_elem_of_fmap. exists (l, max_value freq). split; [done|]. apply elem_filter_bool.
      split; [simpl; by apply Nat.eqb_eq|by apply elem_of_map_to_list]. }
    rewrite <- (sort_by_perm ord_cmp) in Hin. unfold min_string in Hw.
    destruct (sort_by ord_cmp (winners freq)); [by apply not_elem_of_nil in Hin|done].
Qed.

Lemma lp_round_run ns labels b :
  assignment_ok nodes labels → (∀ n, n ∈ ns → n ∈ nodes) →
  ∃ labels' b', lp_round adj ns labels b = Some (labels', b') ∧ assignment_ok nodes labels' ∧
    (b' = false → b = false ∧ labels' = labels ∧ ∀ n, n ∈ ns → settled labels n).
Proof.
  revert labels b. induction ns as [|n ns IH]; intros labels b Hok Hns; simpl.
  { exists labels, b. split_and!; [done|done|]. intros ->. split_and!; [done|done|]. by intros ? ?%not_elem_of_nil. }
  destruct (propagate_run n labels Hok) as (l1 & b1 & -> & Hok1 & Hs1); [apply Hns; left|]. simpl.
  destruct (IH l1 (b || b1) Hok1) as (l2 & b2 & -> & Hok2 & Hs2); [intros; apply Hns; by right|].
  exists l2, b2. split_and!; [done|done|]. intros ->. destruct (Hs2 eq_refl) as (Hb & -> & Hset).
  apply orb_false_iff in Hb as (-> & ->). destruct (Hs1 eq_refl) as (-> & Hn). split_and!; [done|done|].
  intros k [->|Hk]%elem_of_cons; auto.
Qed.

Lemma lp_loop_run k labels :
  assignment_ok nodes labels →
  ∃ labels' b, lp_loop k adj nodes labels = Some (labels', b) ∧ assignment_ok nodes labels' ∧
    (b = true → ∀ n, n ∈ nodes → settled labels' n).
Proof.
  revert labels. induction k as [|k IH]; intros labels Hok; simpl; [by exists labels, false|].
  destruct (lp_round_run nodes labels false Hok) as (l1 & b1 & -> & Hok1 & Hs1); [done|]. simpl.
  destruct b1; [by apply IH|]. exists l1, true. split_and!; [done|done|]. intros _.
  by destruct (Hs1 eq_refl) as (_ & -> & ?).
Qed.
End lp.

(** ** Theorems *)
Lemma empty_partition : partition_of [] ∅.
Proof.
  split; [by intros ?? ?%lookup_empty_Some..|by intros ??? ?%lookup_empty_Some|by intros ? ?%not_elem_of_nil].
Qed.

Lemma partition_ext nodes nodes' gs : (∀ v, v ∈ nodes ↔ v ∈ nodes') → partition_of nodes gs → partition_of nodes' gs.
Proof.
  intros E [Hk Hs Hm Hc]. split.
  - intros key ms Hg. rewrite <- E. by apply Hk.
  - done.
  - intros key ms v Hg Hv. rewrite <- E. by eapply Hm.
  - intros v. rewrite <- E. apply Hc.
Qed.

(** Community detection terminates without a panic, by either algorithm,
    and partitions the nodes: every endpoint of an edge is in exactly one
    community, communities are non-empty, sorted, and named after a node, for
    every iteration order of the hash maps, every weight (NaN included) and
    every number of passes. *)
Lemma communities_partition_run (order : nat → string → gmap string f64 → list (string * f64))
    (edges : weighted_edges) (opts : Options) :
  (∀ pass node m, order pass node m ≡ₚ map_to_list m) →
  ∃ c, detect_weighted order edges opts = Some c ∧ partition_of (endpoints edges) (comm_groups c).
Proof.
  intros Hord. unfold detect_weighted. destruct edges as [|e edges]; [eexists; split; [done|apply empty_partition]|].
  set (es := e :: edges). pose proof (NoDup_all_nodes es) as Hnd.
  destruct (algorithm opts).
  - unfold louvain. rewrite bool_decide_eq_false_2.
    2:{ intros E. assert (e.1.1 ∈ all_nodes es) as Hin by (apply elem_of_all_nodes; left).
        rewrite E in Hin. by apply not_elem_of_nil in Hin. }
    set (m := f64_div _ _). destruct (f64_eqb m f64_zero).
    + eexists. split; [done|]. apply (partition_ext (all_nodes es)); [apply elem_of_all_nodes|]. simpl.
      assert (∀ k ms, (list_to_map (map (λ n, (n, [n])) (all_nodes es)) : gmap string (list string)) !! k = Some ms ↔
                k ∈ all_nodes es ∧ ms = [k]) as Hl by (intros; by apply (lookup_keyed (λ n, [n]))).
      split.
      * intros k ms (? & ->)%Hl. done.
      * intros k ms (? & ->)%Hl. split; [apply NoDup_singleton|by repeat constructor].
      * intros k ms v (? & ->)%Hl. by intros ->%list_elem_of_singleton.
      * intros v Hv. exists v, [v]. split_and!; [by apply Hl|left|].
        intros k ms (? & ->)%Hl. by intros ->%list_elem_of_singleton.
    + destruct (louvain_loop_run order Hord es opts m (max_iterations opts) 1
        (MkLState (singletons (all_nodes es))
           (list_to_map (map (λ n, (n, default f64_zero (degree (build_louvain es) !! n))) (all_nodes es)))))
        as (st & -> & Hok); [by apply singletons_ok|].
      simpl. eexists. split; [done|]. apply (partition_ext (all_nodes es)); [apply elem_of_all_nodes|].
      by apply assignment_partition.
  - unfold label_propagation. rewrite bool_decide_eq_false_2.
    2:{ intros E. assert (e.1.1 ∈ all_nodes es) as Hin by (apply elem_of_all_nodes; left).
        rewrite E in Hin. by apply not_elem_of_nil in Hin. }
    destruct (lp_loop_run es (max_iterations opts) _ (singletons_ok _ Hnd)) as (labels & b & -> & Hok & _).
    simpl. eexists. split; [done|]. apply (partition_ext (all_nodes es)); [apply elem_of_all_nodes|].
    by apply assignment_partition.
Qed.

(** Label propagation that stops before its last round has reached a
    stable labelling: the label of every node is a most frequent one among the
    labels of its neighbours, self-loops left out. *)
Theorem label_propagation_stable (edges : weighted_edges) (rounds : nat) (labels : gmap string string) :
  lp_loop rounds (build_lp edges) (all_nodes edges) (singletons (all_nodes edges)) = Some (labels, true) →
  ∀ n, n ∈ endpoints edges → ∃ cur, labels !! n = Some cur ∧
    ∀ l, occurrences labels (default [] (build_lp edges !! n)) l ≤
         occurrences labels (default [] (build_lp edges !! n)) cur.
Proof.
  intros Hl n Hn. pose proof (singletons_ok _ (NoDup_all_nodes edges)) as H0.
  destruct (lp_loop_run edges rounds _ H0) as (labels' & b & E & Hok & Hs).
  rewrite Hl in E. injection E as <- <-. apply elem_of_all_nodes in Hn.
  destruct (proj2 (ao_dom _ _ Hok n) Hn) as [cur Hc]. exists cur. split; [done|]. by apply (Hs eq_refl n Hn).
Qed.

Lemma label_propagation_stable_witness :
  ∃ labels cur, lp_loop 10 (build_lp [("a", "b", f64_one); ("b", "c", f64_one)]%string)
      ["a"; "b"; "c"]%string (singletons ["a"; "b"; "c"]%string) = Some (labels, true) ∧
    labels !! "c"%string = Some cur ∧ occurrences labels ["b"%string] cur = 1.
Proof.
  destruct (lp_loop 10 (build_lp [("a", "b", f64_one); ("b", "c", f64_one)]%string)
      ["a"; "b"; "c"]%string (singletons ["a"; "b"; "c"]%string)) as [[labels b]|] eqn:E;
    [|vm_compute in E; discriminate].
  destruct b; [|vm_compute in E; discriminate].
  destruct (label_propagation_stable [("a", "b", f64_one); ("b", "c", f64_one)]%string 10 labels E "c"%string)
    as (cur & Hc & Hmax); [right; right; right; left|].
  exists labels, cur. split; [reflexivity|]. split; [exact Hc|].
  vm_compute in E. injection E as <-. vm_compute in Hc. injection Hc as <-. vm_compute. reflexivity.
Defined.

(** The name of a community need not be one of its members: a node can move
    on after others adopted its label. *)
Example representative_not_member :
  (λ c, map_to_list (comm_groups c)) <$>
    detect some_order [("a", "d"); ("a", "e"); ("b", "c"); ("b", "d"); ("c", "d")]%string
      (MkOptions ALabelPropagation 10 f64_one f64_zero) =
  Some [("c", ["b"; "c"; "d"]); ("d", ["a"; "e"])]%string.
Proof. vm_compute. reflexivity. Qed.
