(* ===== verification/Ranking.v ===== *)
(** * Degree centrality and PageRank (crates/graph: centrality.rs, pagerank.rs)

    Scores are [f64]s computed with IEEE arithmetic in the order of the code. *)

From stdpp Require Import gmap.
From S2P Require Export Community Components.

(** [b.1.partial_cmp(&a.1).unwrap_or(Equal).then_with(|| a.0.cmp(&b.0))]. *)
Definition rank_cmp (a b : string * f64) : comparison :=
  match f64_partial_cmp b.2 a.2 with
  | Some Lt => Lt
  | Some Gt => Gt
  | _ => ord_cmp a.1 b.1
  end.

(** ** Degree centrality *)
Inductive CentralityKind := CDegree | CInDegree | COutDegree.

(** [indeg], [outdeg] and the nodes after the edge loop. *)
Definition count_edge (acc : gmap string f64 * gmap string f64 * gset string) (e : string * string) :
    gmap string f64 * gmap string f64 * gset string :=
  let '(indeg, outdeg, nodes) := acc in
  (add_at e.2 f64_one indeg, add_at e.1 f64_one outdeg, {[ e.2 ]} ∪ ({[ e.1 ]} ∪ nodes)).

Definition score_of (kind : CentralityKind) (indeg outdeg : gmap string f64) (n : string) : f64 :=
  match kind with
  | CInDegree => default f64_zero (indeg !! n)
  | COutDegree => default f64_zero (outdeg !! n)
  | CDegree => f64_add (default f64_zero (indeg !! n)) (default f64_zero (outdeg !! n))
  end.

(** [order] lists the hash set of nodes. *)
Definition degree_centrality (sort : Sorter) (order : gset string → list string) (edges : list (string * string))
    (kind : CentralityKind) : option (list (string * f64)) :=
  let '(indeg, outdeg, nodes) := fold_left count_edge edges (∅, ∅, ∅) in
  sort (string * f64)%type rank_cmp (map (λ n, (n, score_of kind indeg outdeg n)) (order nodes)).

(** ** PageRank *)
Record PageRankOptions := MkPageRankOptions {
  damping : f64;
  pr_max_iterations : nat;
  tolerance : f64
}.
(** [PageRankOptions::default()]: 0.85, 100 iterations, 1e-6. *)
Definition PageRankOptions_default : PageRankOptions :=
  MkPageRankOptions (F64 0x3FEB333333333333) 100 (F64 0x3EB0C6F7A0B5ED8D).

Fixpoint intern_weighted (edges : weighted_edges) (st : gmap string nat * list string) :
    gmap string nat * list string :=
  match edges with
  | [] => st
  | (src, dst, _) :: edges' => intern_weighted edges' (intern dst (intern src st))
  end.

(** [v[i] = f(v[i])]; [None] is an index out of bounds. *)
Definition update_at {A} (i : nat) (f : A → A) (v : list A) : option (list A) :=
  x ← v !! i; Some (<[i := f x]> v).

Fixpoint link_edges (index : gmap string nat) (edges : weighted_edges)
    (out_links : list (list (nat * f64))) (out_strength : list f64) :
    option (list (list (nat * f64)) * list f64) :=
  match edges with
  | [] => Some (out_links, out_strength)
  | (src, dst, weight) :: edges' =>
      let w := if f64_gtb weight f64_zero then weight else f64_zero in
      if f64_eqb w f64_zero then link_edges index edges' out_links out_strength
      else
        si ← index !! src;
        di ← index !! dst;
        out_links ← update_at si (λ l, l ++ [(di, w)]) out_links;
        out_strength ← update_at si (λ s, f64_add s w) out_strength;
        link_edges index edges' out_links out_strength
  end.

(** [next[di] += share * w] over the links of a node. *)
Fixpoint spread (share : f64) (links : list (nat * f64)) (next : list f64) : option (list f64) :=
  match links with
  | [] => Some next
  | (di, w) :: links' =>
      next ← update_at di (λ x, f64_add x (f64_mul share w)) next;
      spread share links' next
  end.

Section iteration.
Context (opts : PageRankOptions) (n_f teleport : f64).
Context (out_links : list (list (nat * f64))) (out_strength : list f64).

(** The loop over [out_links.iter().enumerate()]. *)
Fixpoint spread_all (i : nat) (links : list (list (nat * f64))) (rank next : list f64) : option (list f64) :=
  match links with
  | [] => Some next
  | l :: links' =>
      s ← out_strength !! i;
      if f64_eqb s f64_zero then spread_all (S i) links' rank next
      else
        r ← rank !! i;
        next ← spread (f64_div (f64_mul (damping opts) r) s) l next;
        spread_all (S i) links' rank next
  end.

Definition power_step (rank : list f64) : option (list f64) :=
  let dangling_sum := f64_sum (map fst (List.filter (λ rs : f64 * f64, f64_eqb rs.2 f64_zero) (zip rank out_strength))) in
  let base := f64_add teleport (f64_div (f64_mul (damping opts) dangling_sum) n_f) in
  spread_all 0 out_links rank (replicate (length rank) base).

Fixpoint power_loop (k : nat) (rank : list f64) : option (list f64) :=
  match k with
  | O => Some rank
  | S k =>
      next ← power_step rank;
      let diff := f64_sum (zip_with (λ a b, f64_abs (f64_sub a b)) next rank) in
      if f64_ltb diff (tolerance opts) then Some next else power_loop k next
  end.
End iteration.

(** [node_index] is the interning of the component search. *)
Definition pagerank (sort : Sorter) (edges : weighted_edges) (opts : PageRankOptions) : option (list (string * f64)) :=
  let '(index, labels) := intern_weighted edges (∅, []) in
  let n := length labels in
  if n =? 0 then Some []
  else
    '(out_links, out_strength) ← link_edges index edges (replicate n []) (replicate n f64_zero);
    let n_f := f64_of_i64 (Z.of_nat n) in
    let teleport := f64_div (f64_sub f64_one (damping opts)) n_f in
    rank ← power_loop opts n_f teleport out_links out_strength (pr_max_iterations opts)
             (replicate n (f64_div f64_one n_f));
    sort (string * f64)%type rank_cmp (zip labels rank).

Example centrality_ex :
  degree_centrality lenient_sort elements [("a", "b"); ("c", "b"); ("b", "d")]%string CDegree =
  Some [("b", f64_of_i64 3); ("a", f64_one); ("c", f64_one); ("d", f64_one)]%string.
Proof. vm_compute. reflexivity. Qed.
Example pagerank_cycle :
  pagerank lenient_sort [("a", "b", f64_one); ("b", "a", f64_one)]%string PageRankOptions_default =
  Some [("a", F64 0x3FE0000000000000); ("b", F64 0x3FE0000000000000)]%string.
Proof. vm_compute. reflexivity. Qed.
