(* ===== verification/RankingSpec.v ===== *)
(** * Degrees are counted exactly (crates/graph: centrality.rs, pagerank.rs)

    Below [2^52] edges the floating-point counters are exact, so the ranking
    is that of the integer degrees, whatever the iteration order of the node
    set.  PageRank terminates without a panic and scores every endpoint of an
    edge once. *)

From stdpp Require Import gmap.
From Stdlib Require Import Sorted.
From S2P Require Export Ranking FloatInt ComponentsSpec.

(** ** Sorting through a map *)
Section sort_map.
Context {A B : Type} (cmpA : A → A → comparison) (cmpB : B → B → comparison) (f : A → B).

Lemma sort_insert_map x l :
  (∀ y, y ∈ l → cmpB (f x) (f y) = cmpA x y) →
  sort_insert cmpB (f x) (map f l) = map f (sort_insert cmpA x l).
Proof.
  induction l as [|y l IH]; intros Hc; [done|]. simpl. rewrite (Hc y) by left.
  destruct (cmpA x y); [done..|]. simpl. f_equal. apply IH. intros z ?. apply Hc. by right.
Qed.
Lemma sort_by_map l :
  (∀ x y, x ∈ l → y ∈ l → cmpB (f x) (f y) = cmpA x y) →
  sort_by cmpB (map f l) = map f (sort_by cmpA l).
Proof.
  induction l as [|x l IH]; intros Hc; [done|]. simpl.
  fold (sort_by cmpB (map f l)). fold (sort_by cmpA l).
  rewrite IH by (intros; apply Hc; by right). apply sort_insert_map.
  intros y Hy. rewrite sort_by_perm in Hy. apply Hc; [left|by right].
Qed.
End sort_map.

Lemma StronglySorted_map {A B} (R : B → B → Prop) (f : A → B) l :
  StronglySorted R (map f l) → StronglySorted (λ a b, R (f a) (f b)) l.
Proof.
  induction l as [|x l IH]; [constructor|]. intros [Hl Hx]%StronglySorted_inv. constructor; [by apply IH|].
  by apply (Forall_fmap f) in Hx.
Qed.
Lemma StronglySorted_strict {A} (R R' : A → A → Prop) l :
  (∀ a b, R a b → a ≠ b → R' a b) → NoDup l → StronglySorted R l → StronglySorted R' l.
Proof.
  intros HR Hnd. induction 1 as [|x l Hl IH Hx]; [constructor|]. apply NoDup_cons in Hnd as [Hn Hnd].
  constructor; [by apply IH|]. rewrite Forall_forall in Hx |- *. intros y Hy. apply HR; [auto|]. by intros ->.
Qed.

(** ** The order of the ranking *)
Definition rank_key_cmp (a b : Z * string) : comparison :=
  match (b.1 ?= a.1)%Z with Eq => ord_cmp a.2 b.2 | c => c end.
#[local] Instance rank_Ord : Ord (Z * string) := rank_key_cmp.
#[local] Instance rank_OrdLaws : OrdLaws (Z * string).
Proof.
  split; [intros [a s] [b t]|intros [a s] [b t]|intros [a s] [b t] [c u]];
    change (@ord_cmp _ rank_Ord) with rank_key_cmp; unfold rank_key_cmp; simpl.
  - destruct (Z.compare_spec b a) as [->| |]; [rewrite (ord_eq_iff s t); naive_solver|naive_solver lia..].
  - rewrite (Z.compare_antisym b a). destruct (b ?= a)%Z; simpl; [apply ord_opp|done..].
  - destruct (Z.compare_spec b a) as [<-|?|?], (Z.compare_spec c b) as [<-|?|?]; intros G1 G2; try done.
    1: by eapply ord_lt_trans.
    all: by rewrite (proj2 (Z.compare_lt_iff c _)) by lia.
Qed.

(** ** Degrees *)
Definition in_degree (edges : list (string * string)) (n : string) : nat := length (filter (λ e, e.2 = n) edges).
Definition out_degree (edges : list (string * string)) (n : string) : nat := length (filter (λ e, e.1 = n) edges).
Definition degree_of (kind : CentralityKind) (edges : list (string * string)) (n : string) : Z :=
  match kind with
  | CDegree => Z.of_nat (in_degree edges n + out_degree edges n)
  | CInDegree => Z.of_nat (in_degree edges n)
  | COutDegree => Z.of_nat (out_degree edges n)
  end.

Lemma add_at_one (m : gmap string f64) k n c :
  (Z.of_nat c < 2 ^ 52)%Z →
  default f64_zero (m !! n) = f64_of_i64 (Z.of_nat c) →
  default f64_zero (add_at k f64_one m !! n) = f64_of_i64 (Z.of_nat (if decide (k = n) then S c else c)).
Proof.
  intros Hc Hm. unfold add_at. destruct (decide (k = n)) as [->|Hne].
  - rewrite lookup_insert_eq. simpl. rewrite Hm. change f64_one with (f64_of_i64 1).
    rewrite f64_add_int by lia. f_equal. lia.
  - by rewrite lookup_insert_ne.
Qed.

Lemma count_edges_run edges :
  (Z.of_nat (length edges) < 2 ^ 52)%Z →
  ∃ indeg outdeg, fold_left count_edge edges (∅, ∅, ∅) = (indeg, outdeg, list_to_set (nodes edges)) ∧
    ∀ n, default f64_zero (indeg !! n) = f64_of_i64 (Z.of_nat (in_degree edges n)) ∧
         default f64_zero (outdeg !! n) = f64_of_i64 (Z.of_nat (out_degree edges n)).
Proof.
  induction edges as [|[a b] edges IH] using rev_ind; intros Hlen.
  { exists ∅, ∅. split; [done|]. intros n. by rewrite lookup_empty. }
  rewrite length_app in Hlen. simpl in Hlen. destruct IH as (indeg & outdeg & E & Hd); [lia|].
  rewrite fold_left_app, E. simpl. eexists _, _. split.
  - f_equal. unfold nodes. rewrite flat_map_app. simpl. apply set_eq. intros x. set_solver.
  - intros n. unfold in_degree, out_degree. rewrite !filter_app, !length_app, !filter_cons, !filter_nil. simpl.
    destruct (Hd n) as [Hi Ho].
    assert (in_degree edges n ≤ length edges ∧ out_degree edges n ≤ length edges)%nat as [? ?]
      by (split; apply length_filter).
    split; (erewrite add_at_one; [|..|eassumption]; [|lia]); do 2 f_equal; case_decide; simpl;
      unfold in_degree, out_degree; lia.
Qed.

Lemma score_of_int edges indeg outdeg kind n :
  (Z.of_nat (length edges) < 2 ^ 52)%Z →
  default f64_zero (indeg !! n) = f64_of_i64 (Z.of_nat (in_degree edges n)) →
  default f64_zero (outdeg !! n) = f64_of_i64 (Z.of_nat (out_degree edges n)) →
  score_of kind indeg outdeg n = f64_of_i64 (degree_of kind edges n) ∧ (0 ≤ degree_of kind edges n < 2 ^ 53)%Z.
Proof.
  intros Hlen Hi Ho.
  assert (in_degree edges n ≤ length edges ∧ out_degree edges n ≤ length edges)%nat as [? ?]
    by (split; apply length_filter).
  unfold score_of, degree_of. destruct kind; rewrite ?Hi, ?Ho; [|split; [done|lia]..].
  split; [|lia]. rewrite f64_add_int by lia. f_equal. lia.
Qed.

Lemma rank_cmp_int x y m n :
  (0 ≤ m < 2 ^ 53)%Z → (0 ≤ n < 2 ^ 53)%Z →
  rank_cmp (x, f64_of_i64 m) (y, f64_of_i64 n) = ord_cmp (m, x) (n, y).
Proof.
  intros Hm Hn. unfold rank_cmp. simpl. rewrite f64_cmp_int by done.
  change (ord_cmp (m, x) (n, y)) with (rank_key_cmp (m, x) (n, y)). unfold rank_key_cmp. simpl.
  by destruct (n ?= m)%Z.
Qed.

(** Degree centrality is exact: below [2^52] edges the result lists every
    endpoint of an edge once, with the number of its incident edges in the
    chosen direction as its score (parallel edges counted, a self-loop twice
    in the total), by falling degree and, among equals, by rising id; so it
    does not depend on the iteration order of the node set. *)
Lemma degree_centrality_run (sort : Sorter) (order : gset string → list string) (edges : list (string * string))
    (kind : CentralityKind) :
  sorter_ok sort → (∀ s, order s ≡ₚ elements s) →
  (Z.of_nat (length edges) < 2 ^ 52)%Z →
  ∃ ns, degree_centrality sort order edges kind = Some (map (λ n, (n, f64_of_i64 (degree_of kind edges n))) ns) ∧
    NoDup ns ∧ (∀ n, n ∈ ns ↔ n ∈ nodes edges) ∧
    StronglySorted (λ a b, (degree_of kind edges b < degree_of kind edges a)%Z ∨
                           degree_of kind edges a = degree_of kind edges b ∧ ltb a b = true) ns.
Proof.
  intros Hsort Hord Hlen. unfold degree_centrality. destruct (count_edges_run edges Hlen) as (indeg & outdeg & -> & Hd).
  set (ns0 := order _).
  assert (NoDup ns0) as Hnd by (unfold ns0; rewrite Hord; apply NoDup_elements).
  assert (∀ n, n ∈ ns0 ↔ n ∈ nodes edges) as Hns.
  { intros n. unfold ns0. by rewrite Hord, elem_of_elements, elem_of_list_to_set. }
  set (f := λ n, (n, f64_of_i64 (degree_of kind edges n))).
  rewrite (map_ext_in _ f).
  2:{ intros n _. unfold f. f_equal. by eapply score_of_int; [|apply Hd..]. }
  set (deg := λ n, degree_of kind edges n).
  assert (∀ n, (0 ≤ deg n < 2 ^ 53)%Z) as Hb by (intros n; by eapply score_of_int; [|apply Hd..]).
  set (key := λ n, (deg n, n)). set (cmp := λ a b, ord_cmp (key a) (key b)).
  rewrite (so_total _ Hsort); cycle 1.
  { apply (total_on_ord _ (λ ns, (degree_of kind edges ns.1, ns.1))). intros x y (a & -> & _)%list_elem_of_fmap (b & -> & _)%list_elem_of_fmap.
    unfold f. by apply rank_cmp_int. }
  rewrite (sort_by_map cmp) by (intros; unfold f; by apply rank_cmp_int).
  exists (sort_by cmp ns0). pose proof (sort_by_perm cmp ns0) as Hp.
  split_and!; [done|by rewrite Hp|intros n; by rewrite Hp|].
  pose proof (sort_by_sorted (map key ns0)) as Hs. rewrite (sort_by_map cmp) in Hs by done.
  apply StronglySorted_map in Hs. revert Hs. apply StronglySorted_strict; [|by rewrite Hp].
  intros a b. unfold leb, key. change (ord_cmp (deg a, a) (deg b, b)) with (rank_key_cmp (deg a, a) (deg b, b)).
  unfold rank_key_cmp. simpl. fold (deg a) (deg b).
  destruct (Z.compare_spec (deg b) (deg a)) as [->| |]; [|auto|done]. intros Hab Hne. right. split; [done|].
  unfold ltb. destruct (ord_cmp a b) eqn:E; [by apply ord_eq_iff in E|done..].
Qed.

(** ** PageRank *)
Definition plain (edges : weighted_edges) : list (string * string) := map fst edges.

Lemma intern_weighted_plain edges st : intern_weighted edges st = intern_all (plain edges) st.
Proof. revert st. induction edges as [|[[a b] w] edges IH]; intros st; [done|]. apply IH. Qed.

Lemma update_at_run {A} i (f : A → A) v :
  (i < length v)%nat → ∃ v', update_at i f v = Some v' ∧ length v' = length v ∧
    ∀ P : A → Prop, (∀ x, P x → P (f x)) → Forall P v → Forall P v'.
Proof.
  intros Hi. unfold update_at. destruct (lookup_lt_is_Some_2 v i Hi) as [x Hx]. rewrite Hx. simpl.
  eexists. split_and!; [done|by rewrite length_insert|]. intros P Hf Hv. apply Forall_insert; [done|].
  apply Hf. by eapply Forall_lookup_1.
Qed.

(** Every link points at a node. *)
Definition links_ok (n : nat) (links : list (nat * f64)) : Prop := Forall (λ dw : nat * f64, (dw.1 < n)%nat) links.

Lemma link_edges_run index n edges links strength :
  (∀ x, x ∈ nodes (plain edges) → ∃ i, index !! x = Some i ∧ (i < n)%nat) →
  length links = n → length strength = n → Forall (links_ok n) links →
  ∃ links' strength', link_edges index edges links strength = Some (links', strength') ∧
    length links' = n ∧ length strength' = n ∧ Forall (links_ok n) links'.
Proof.
  revert links strength. induction edges as [|[[a b] w] edges IH]; intros links strength Hix Hl Hs Hok; cbn [link_edges].
  { by eexists _, _. }
  assert (∀ x, x ∈ nodes (plain edges) → ∃ i, index !! x = Some i ∧ (i < n)%nat) as Hix'.
  { intros x Hx. apply Hix. by do 2 right. }
  cbv zeta. destruct (f64_eqb _ _); [by apply IH|].
  destruct (Hix a) as (si & -> & Hsi); [left|]. destruct (Hix b) as (di & -> & Hdi); [right; left|]. simpl.
  destruct (update_at_run si (λ l, l ++ [(di, if f64_gtb w f64_zero then w else f64_zero)]) links) as (l1 & -> & Hl1 & Hf1);
    [congruence|]. simpl.
  destruct (update_at_run si (λ s, f64_add s (if f64_gtb w f64_zero then w else f64_zero)) strength) as (s1 & -> & Hs1 & _);
    [congruence|]. simpl.
  apply IH; [done|congruence..|]. apply Hf1; [|done]. intros l ?. apply Forall_app. split; [done|]. by constructor.
Qed.

Lemma spread_run share links next :
  links_ok (length next) links → ∃ next', spread share links next = Some next' ∧ length next' = length next.
Proof.
  revert next. induction links as [|[di w] links IH]; intros next Hok; simpl; [by eexists|].
  apply Forall_cons in Hok as [Hd Hok]. simpl in Hd.
  destruct (update_at_run di (λ x, f64_add x (f64_mul share w)) next Hd) as (n1 & -> & Hn1 & _). simpl.
  destruct (IH n1) as (n2 & -> & ?); [by rewrite Hn1|]. exists n2. split; [done|congruence].
Qed.

Lemma spread_all_run opts strength i links rank next :
  (i + length links ≤ length strength)%nat → length strength = length rank →
  Forall (links_ok (length next)) links →
  ∃ next', spread_all opts strength i links rank next = Some next' ∧ length next' = length next.
Proof.
  revert i next. induction links as [|l links IH]; intros i next Hi Hr Hok; simpl in *; [by eexists|].
  apply Forall_cons in Hok as [Hl Hok].
  destruct (lookup_lt_is_Some_2 strength i) as [s Hs]; [lia|]. rewrite Hs. simpl.
  destruct (f64_eqb _ _); [apply IH; [lia|done..]|].
  destruct (lookup_lt_is_Some_2 rank i) as [r Hr']; [lia|]. rewrite Hr'. simpl.
  destruct (spread_run (f64_div (f64_mul (damping opts) r) s) l next Hl) as (n1 & -> & Hn1). simpl.
  rewrite <- Hn1 in Hok |- *. apply IH; [lia|done..].
Qed.

Lemma power_loop_run opts n_f teleport links strength k rank :
  length links = length rank → length strength = length rank → Forall (links_ok (length rank)) links →
  ∃ rank', power_loop opts n_f teleport links strength k rank = Some rank' ∧ length rank' = length rank.
Proof.
  revert rank. induction k as [|k IH]; intros rank Hl Hs Hok; simpl; [by eexists|]. unfold power_step.
  set (base := f64_add teleport _).
  destruct (spread_all_run opts strength 0 links rank (replicate (length rank) base)) as (next & -> & Hn);
    [lia|done|by rewrite length_replicate|].
  rewrite length_replicate in Hn. simpl. destruct (f64_ltb _ _); [by eexists|].
  rewrite <- Hn in Hl, Hs, Hok |- *. by apply IH.
Qed.

(** The loops of PageRank terminate with every index in bounds, and the
    result scores every endpoint of an edge exactly once, whatever the weights
    (negative and NaN included) and the options - unless the final sort
    panics, which it may only when the scores are not totally ordered. *)
Theorem pagerank_total (sort : Sorter) (edges : weighted_edges) (opts : PageRankOptions) : sorter_ok sort →
  match pagerank sort edges opts with
  | Some r => NoDup (map fst r) ∧ ∀ n, n ∈ map fst r ↔ n ∈ nodes (plain edges)
  | None => ∃ scored, map fst scored ≡ₚ elements (list_to_set (nodes (plain edges)) : gset string) ∧ ¬ total_on rank_cmp scored
  end.
Proof.
  intros Hsort. unfold pagerank. rewrite intern_weighted_plain.
  assert (interned (nodes (plain edges)) (intern_all (plain edges) (∅, []))) as Hin.
  { apply (intern_all_run (plain edges) []). split; simpl; [constructor|..]; [|naive_solver|lia].
    intros s i. rewrite lookup_empty, lookup_nil. done. }
  destruct (intern_all (plain edges) (∅, [])) as [index labels]. destruct Hin as [Hnd Hinv Hseen _]. simpl in *.
  set (n := length labels). destruct (Nat.eqb_spec n 0) as [E|Hn].
  { apply nil_length_inv in E as ->. split; [constructor|done]. }
  assert (∀ x, x ∈ nodes (plain edges) → ∃ i, index !! x = Some i ∧ (i < n)%nat) as Hix.
  { intros x (i & Hi)%Hseen%list_elem_of_lookup_1. exists i. split; [by apply Hinv|]. by eapply lookup_lt_Some. }
  destruct (link_edges_run index n edges (replicate n []) (replicate n f64_zero) Hix)
    as (links & strength & -> & Hl & Hs & Hok); [apply length_replicate..| |].
  { apply Forall_replicate. constructor. }
  simpl. set (rank := replicate n (f64_div f64_one _)).
  assert (length rank = n) as Hr by apply length_replicate.
  destruct (power_loop_run opts (f64_of_i64 (Z.of_nat n)) (f64_div (f64_sub f64_one (damping opts)) (f64_of_i64 (Z.of_nat n)))
      links strength (pr_max_iterations opts) rank) as (rank' & -> & Hr'); [congruence..|by rewrite Hr|].
  simpl. assert (map fst (zip labels rank') = labels) as Hp.
  { change (map fst) with (fmap (M:=list) (@fst string f64)). by rewrite fst_zip by lia. }
  pose proof (sorter_cases rank_cmp sort (zip labels rank') Hsort) as Hc. destruct (sort _ _ _) as [r|].
  - destruct Hc as [Hpr _]. rewrite Hpr, Hp. split; [done|]. intros x. rewrite Hpr, Hp. apply Hseen.
  - exists (zip labels rank'). split; [|done]. rewrite Hp. apply NoDup_Permutation; [done|apply NoDup_elements|].
    intros x. rewrite elem_of_elements, elem_of_list_to_set. apply Hseen.
Qed.
