(* ===== verification/Ast.v ===== *)
(** * Query syntax trees (crates/query/src/ast.rs) *)

From S2P Require Export Core.

Inductive OutcomeFormat := Json | Toon | Csv.
Definition OutcomeFormat_default : OutcomeFormat := Json.

Inductive CommunityAlgorithm := Louvain | LabelPropagation.
Definition CommunityAlgorithm_default : CommunityAlgorithm := Louvain.

Inductive CentralityMode := Degree | InDegree | OutDegree.

Inductive Literal :=
  | LString (s : string)
  | LInt (n : Z)
  | LFloat (f : f64)
  | LBool (b : bool)
  | LNone
  | LArray (items : list Literal).

Fixpoint to_value (l : Literal) : Value :=
  match l with
  | LString s => VString s
  | LInt n => VInt n
  | LFloat f => VFloat f
  | LBool b => VBool b
  | LNone => VNone
  | LArray items => VArray (map to_value items)
  end.

Inductive SelectItem :=
  | SField (name : string)
  | SLiteral (lit : Literal)
  | SFunctionCall (name : string) (args : list SelectItem).

Inductive TraversalDirection := TOut | TIn.

Record TraversalHop := MkTraversalHop {
  th_direction : TraversalDirection;
  th_edge_type : string;
  th_dest_table : string
}.

Record TraversalChain := MkTraversalChain {
  tc_hops : list TraversalHop;
  tc_projection : option string
}.

Inductive SelectFields :=
  | SAll
  | SNamed (items : list SelectItem)
  | STraversal (chain : TraversalChain).

Record RecordRef := MkRecordRef { rr_table : string; rr_id : string }.

Inductive FromTarget :=
  | FromTable (table : string)
  | FromRecord (r : RecordRef).

Inductive CmpOp := OpEq | OpNe | OpGt | OpLt | OpGte | OpLte.

Inductive WhereClause :=
  | WCmp (field : SelectItem) (op : CmpOp) (value : Literal)
  | WAnd (l r : WhereClause)
  | WIsNull (field : string) (negated : bool).

Record OrderKey := MkOrderKey { ok_field : string; ok_descending : bool }.

Inductive OnConflict :=
  | OnUpdate
  | OnUpdateSet (fields : list (string * Literal)).

(** [u64] and [usize] fields are integers. *)
Inductive Statement :=
  | Create (table : string) (id : option string) (fields : list (string * Literal))
      (on_conflict : option OnConflict)
  | Select (fields : SelectFields) (from : FromTarget) (filter : option WhereClause)
      (order_by : list OrderKey) (limit : option Z)
  | Delete (table id : string)
  | DeleteWhere (table : string) (filter : option WhereClause)
  | Relate (src : RecordRef) (edge_type : string) (dst : RecordRef) (fields : list (string * Literal))
  | GraphCommunities (table : string) (algorithm : CommunityAlgorithm) (max_iterations : Z)
      (resolution : f64)
  | Update (target : FromTarget) (fields : list (string * Literal)) (filter : option WhereClause)
  | Count (table : string) (filter : option WhereClause) (group_by : option string)
  | GraphComponents (table : string)
  | DefineIndex (name table : string) (fields : list string) (unique : bool)
  | RemoveIndex (name table : string)
  | Compact
  | DefineFulltextIndex (name table field : string) (analyzer : option string)
  | DefineVectorIndex (name table field : string) (dim : Z) (metric : option string)
  | Search (table field query : string) (filter : option WhereClause) (limit : option Z)
  | VectorSearch (table field : string) (vector : list f64) (filter : option WhereClause) (k : option Z)
  | HybridSearch (table text_field query vector_field : string) (vector : list f64)
      (alpha : option f64) (filter : option WhereClause) (limit : option Z)
  | GraphPagerank (table : string) (damping : f64) (max_iterations : Z) (limit : option Z)
  | GraphCentrality (table : string) (mode : CentralityMode) (limit : option Z)
  | GraphPath (src dst table : string) (max_depth : option Z)
  | GraphEdges (table : string) (filter : option WhereClause).

Record Query := MkQuery { q_statement : Statement; q_outcome : OutcomeFormat }.

(** Induction over nested literals and select items. *)
Section literal_ind.
Context (P : Literal → Prop).
Context (Hs : ∀ s, P (LString s)) (Hi : ∀ n, P (LInt n)) (Hf : ∀ f, P (LFloat f)) (Hb : ∀ b, P (LBool b))
  (Hn : P LNone) (Ha : ∀ items, Forall P items → P (LArray items)).
Fixpoint Literal_nested_ind (l : Literal) : P l :=
  match l with
  | LString s => Hs s | LInt n => Hi n | LFloat f => Hf f | LBool b => Hb b | LNone => Hn
  | LArray items =>
      Ha items ((fix go (l : list Literal) : Forall P l :=
        match l with
        | [] => List.Forall_nil P
        | x :: l' => @List.Forall_cons _ P x l' (Literal_nested_ind x) (go l')
        end) items)
  end.
End literal_ind.

Section item_ind.
Context (P : SelectItem → Prop).
Context (Hf : ∀ n, P (SField n)) (Hl : ∀ l, P (SLiteral l))
  (Hc : ∀ n args, Forall P args → P (SFunctionCall n args)).
Fixpoint SelectItem_nested_ind (i : SelectItem) : P i :=
  match i with
  | SField n => Hf n | SLiteral l => Hl l
  | SFunctionCall n args =>
      Hc n args ((fix go (l : list SelectItem) : Forall P l :=
        match l with
        | [] => List.Forall_nil P
        | x :: l' => @List.Forall_cons _ P x l' (SelectItem_nested_ind x) (go l')
        end) args)
  end.
End item_ind.
