(* ===== verification/Display.v ===== *)
(** * Text of numbers and debug text

    [Display] of integers and floats as Rust prints them: a float prints the
    shortest decimal digits that read back as it, without an exponent.
    [Debug] output is a parameter. *)

From Stdlib Require Import SpecFloat.
From S2P Require Export Prelude Bytes Float64 Core Ast.
Local Open Scope Z_scope.

(** ** Integers *)
Definition digit (d : Z) : ascii := ascii_of_N (Z.to_N (48 + d)).
Fixpoint digits (fuel : nat) (n : Z) (acc : string) : string :=
  match fuel with
  | O => acc
  | S fuel =>
      if n <? 10 then String (digit n) acc
      else digits fuel (n / 10) (String (digit (n mod 10)) acc)
  end.
(** [n.to_string()]; the fuel exceeds the number of decimal digits. *)
Definition show_nonneg (n : Z) : string := digits (S (Z.to_nat (Z.log2 n))) n "".
Definition show_Z (n : Z) : string :=
  if n <? 0 then ("-" ++ show_nonneg (- n))%string else show_nonneg n.
Definition show_nat (n : nat) : string := show_Z (Z.of_nat n).
Definition show_bool (b : bool) : string := if b then "true" else "false".

(** ** Floats *)
Section float.
Context (prec emax : Z).

(** The float nearest to [m * 10^e]. *)
Definition nearest (m : positive) (e : Z) : spec_float :=
  if 0 <=? e then binary_normalize prec emax (Zpos m * 10 ^ e) 0 false
  else
    let '(mz, ez, lz) := SFdiv_core_binary prec emax (Zpos m) 0 (10 ^ (- e)) 0 in
    binary_round_aux prec emax false mz ez lz.

(** [d * 10^e] reads back as [m * 2^ex]. *)
Definition reads_back (m : positive) (ex : Z) (d e : Z) : bool :=
  match d with
  | Zpos p => match nearest p e with
              | S754_finite false m' ex' => (m =? m')%positive && (ex =? ex')
              | _ => false
              end
  | _ => false
  end.

(** The numerator and denominator of [m * 2^ex / 10^k]. *)
Definition scaled (m : positive) (ex k : Z) : Z * Z :=
  (Zpos m * 2 ^ Z.max ex 0 * 10 ^ Z.max (- k) 0, 2 ^ Z.max (- ex) 0 * 10 ^ Z.max k 0).

(** [k] with [10^(k-1) <= m * 2^ex < 10^k], from an estimate. *)
Fixpoint find_scale (fuel : nat) (m : positive) (ex k : Z) : Z :=
  match fuel with
  | O => k
  | S fuel =>
      let '(n, d) := scaled m ex k in
      if d <=? n then find_scale fuel m ex (k + 1)
      else let '(n1, d1) := scaled m ex (k - 1) in
           if n1 <? d1 then find_scale fuel m ex (k - 1) else k
  end.

(** The shortest digits [d] and the exponent [e], the closer candidate first. *)
Fixpoint shortest (fuel : nat) (m : positive) (ex k n : Z) : Z * Z :=
  let e := k - n in
  let '(num, den) := scaled m ex e in
  let lo := num / den in
  let '(first, second) := if 2 * (num mod den) <? den then (lo, lo + 1) else (lo + 1, lo) in
  if reads_back m ex first e then (first, e)
  else if reads_back m ex second e then (second, e)
  else match fuel with
       | O => (first, e)
       | S fuel => shortest fuel m ex k (n + 1)
       end.

Definition shortest_digits (m : positive) (ex : Z) : Z * Z :=
  let k := find_scale 700 m ex ((Z.log2 (Zpos m) + ex) * 30103 / 100000) in
  shortest 800 m ex k 1.
End float.

Fixpoint zeros (n : nat) : string := match n with O => "" | S n => String "0" (zeros n) end.
Fixpoint trim_zeros (fuel : nat) (d e : Z) : Z * Z :=
  match fuel with
  | O => (d, e)
  | S fuel => if d mod 10 =? 0 then trim_zeros fuel (d / 10) (e + 1) else (d, e)
  end.

(** [d * 10^e] in positional notation. *)
Definition positional (d e : Z) : string :=
  let s := show_Z d in
  if 0 <=? e then (s ++ zeros (Z.to_nat e))%string
  else
    let len := Z.of_nat (String.length s) in
    if len + e <=? 0 then ("0." ++ zeros (Z.to_nat (- (len + e))) ++ s)%string
    else (substring 0 (Z.to_nat (len + e)) s ++ "." ++
          substring (Z.to_nat (len + e)) (Z.to_nat (- e)) s)%string.

Definition display_spec (prec emax : Z) (x : spec_float) : string :=
  let sign (s : bool) (t : string) := if s then ("-" ++ t)%string else t in
  match x with
  | S754_zero s => sign s "0"%string
  | S754_infinity s => sign s "inf"%string
  | S754_nan => "NaN"
  | S754_finite s m ex =>
      let '(d, e) := shortest_digits prec emax m ex in
      let '(d, e) := trim_zeros 20 d e in sign s (positional d e)
  end.
Definition display_f64 (f : f64) : string := display_spec 53 1024 (to_spec f).
Definition display_f32 (f : f32) : string := display_spec 24 128 (to_spec32 f).

Example display_f64_ex :
  map display_f64 [F64 0x3FB999999999999A; F64 0x3FF0000000000000; F64 0x4415AF1D78B58C40; F64 1;
    F64 0x8000000000000000; F64 0x405EDD2F1A9FBE77; F64 0x7FF8000000000000] =
  ["0.1"; "1"; "100000000000000000000"; "0." ++ zeros 323 ++ "5"; "-0"; "123.456"; "NaN"]%string.
Proof. vm_compute. reflexivity. Qed.
Example display_f32_ex : map display_f32 [F32 0x3DCCCCCD; F32 0x4B800000] = ["0.1"; "16777216"]%string.
Proof. vm_compute. reflexivity. Qed.

(** [s.replace(c, by)] for a one-character pattern. *)
Fixpoint replace (c : ascii) (by_ s : string) : string :=
  match s with
  | EmptyString => EmptyString
  | String d s' => if decide (d = c) then (by_ ++ replace c by_ s')%string else String d (replace c by_ s')
  end.
Fixpoint contains_char (c : ascii) (s : string) : bool :=
  match s with
  | EmptyString => false
  | String d s' => if decide (d = c) then true else contains_char c s'
  end.

(** ** Joining *)
Fixpoint join_with (sep : string) (l : list string) : string :=
  match l with
  | [] => ""
  | [x] => x
  | x :: l' => (x ++ sep ++ join_with sep l')%string
  end.

(** [{:?}] of literal arrays and of values. *)
Class DebugFmt := {
  debug_literals : list Literal → string;
  debug_value : Value → string
}.

(** ** Column names

    [SelectItem::column_name]; [Literal::None] prints as in the language. *)
Section column_name.
Context `{DebugFmt}.

Definition literal_column (lit : Literal) : string :=
  match lit with
  | LString s => ("'" ++ s ++ "'")%string
  | LInt n => show_Z n
  | LFloat f => display_f64 f
  | LBool b => show_bool b
  | LNone => "NONE"
  | LArray arr => debug_literals arr
  end.
Fixpoint column_name (item : SelectItem) : string :=
  match item with
  | SField name => name
  | SLiteral lit => literal_column lit
  | SFunctionCall name args => (name ++ "(" ++ join_with ", " (map column_name args) ++ ")")%string
  end.
End column_name.
