(* ===== verification/Tokenizer.v ===== *)
(** * The tokenizer (crates/query/src/tokenizer.rs)

    The [while i < chars.len()] loop runs on the list of remaining characters;
    each round consumes at least one, so the length is enough fuel. *)

From Stdlib Require Import SpecFloat.
From S2P Require Export Core Ast.

(** ** Characters: Unicode scalar values *)
Abbreviation char := N.

(** The character classes and case mapping beyond ASCII are tables of the
    language's library. *)
Class Unicode := {
  is_alphanumeric : char → bool;
  to_lowercase : string → string
}.

(** [str::chars]: UTF-8 decoding of a (valid) string. *)
Fixpoint decode_utf8 (l : bytes) : list char :=
  let v (b : byte) := Z.to_N (b2z b) in
  let c (b : byte) := N.modulo (v b) 64 in
  match l with
  | [] => []
  | b1 :: l1 =>
      if N.ltb (v b1) 0x80 then v b1 :: decode_utf8 l1
      else match l1 with
      | [] => []
      | b2 :: l2 =>
          if N.ltb (v b1) 0xE0 then (N.modulo (v b1) 32 * 64 + c b2)%N :: decode_utf8 l2
          else match l2 with
          | [] => []
          | b3 :: l3 =>
              if N.ltb (v b1) 0xF0 then
                (N.modulo (v b1) 16 * 4096 + c b2 * 64 + c b3)%N :: decode_utf8 l3
              else match l3 with
              | [] => []
              | b4 :: l4 =>
                  (N.modulo (v b1) 8 * 262144 + c b2 * 4096 + c b3 * 64 + c b4)%N :: decode_utf8 l4
              end
          end
      end
  end.
Definition chars (s : string) : list char := decode_utf8 (as_bytes s).

(** Encoding one character, and [String] from an iterator of characters. *)
Definition encode_char (c : char) : bytes :=
  let b (n : N) := z2b (Z.of_N n) in
  (if c <? 0x80 then [b c]
   else if c <? 0x800 then [b (0xC0 + c / 64); b (0x80 + c mod 64)]
   else if c <? 0x10000 then [b (0xE0 + c / 4096); b (0x80 + c / 64 mod 64); b (0x80 + c mod 64)]
   else [b (0xF0 + c / 262144); b (0x80 + c / 4096 mod 64); b (0x80 + c / 64 mod 64);
         b (0x80 + c mod 64)])%N.
Definition string_of_chars (cs : list char) : string := str_of_bytes (concat (map encode_char cs)).

Section classes.
Local Open Scope N_scope.
(** [char::is_whitespace]: the Unicode property [White_Space]. *)
Definition is_whitespace (c : char) : bool :=
  (9 <=? c) && (c <=? 13) || (c =? 32) || (c =? 0x85) || (c =? 0xA0) || (c =? 0x1680) ||
  (0x2000 <=? c) && (c <=? 0x200A) || (c =? 0x2028) || (c =? 0x2029) || (c =? 0x202F) ||
  (c =? 0x205F) || (c =? 0x3000).
Definition is_ascii_digit (c : char) : bool := (48 <=? c) && (c <=? 57).
Definition is_ascii_alphabetic (c : char) : bool :=
  (65 <=? c) && (c <=? 90) || (97 <=? c) && (c <=? 122).
Definition is_ascii_alphanumeric (c : char) : bool := is_ascii_alphabetic c || is_ascii_digit c.
Definition is_word_char (c : char) : bool := is_ascii_alphanumeric c || (c =? 95).
End classes.

(** ** Tokens *)
Module Token.
Inductive t :=
  | Create | Select | Delete | Relate | From | Where | Set_ | And | On | Conflict | Update | Limit
  | Outcome | Graph | Communities | Components | Count | Is | Not
  | Ident (s : string) | StringLit (s : string) | IntLit (n : Z) | FloatLit (f : f64)
  | True_ | False_ | None_
  | Star | Comma | Semicolon | Colon | Eq | Ne | Gt | Lt | Gte | Lte | Arrow | BackArrow | Dot
  | LBracket | RBracket | LParen | RParen.
#[global] Instance eq_dec : EqDecision t.
Proof. solve_decision. Defined.
End Token.
Abbreviation Token := Token.t.

(** ** Numbers: [str::parse] for [i64] and [f64] *)

(** The longest prefix of characters satisfying [p], and the rest. *)
Fixpoint span {A} (p : A → bool) (l : list A) : list A * list A :=
  match l with
  | [] => ([], [])
  | x :: l' => if p x then let '(a, b) := span p l' in (x :: a, b) else ([], l)
  end.

Definition digit_val (c : char) : Z := (Z.of_N c - 48)%Z.
Definition digits_val (ds : list char) : Z := fold_left (λ acc d, acc * 10 + digit_val d)%Z ds 0%Z.

Definition split_sign (s : list char) : bool * list char :=
  match s with
  | c :: r => if (c =? 45)%N then (true, r) else if (c =? 43)%N then (false, r) else (false, s)
  | [] => (false, s)
  end.

(** [s.parse::<i64>()]: decimal digits with an optional sign, in range. *)
Definition parse_i64 (s : list char) : option Z :=
  let '(neg, ds) := split_sign s in
  if bool_decide (ds = []) || negb (forallb is_ascii_digit ds) then None
  else
    let n := (if neg then - digits_val ds else digits_val ds)%Z in
    if bool_decide (- 2 ^ 63 ≤ n < 2 ^ 63)%Z then Some n else None.

(** The [f64] nearest to [(-1)^neg * m * 10^e], ties to even. *)
Definition decimal_to_f64 (neg : bool) (m e : Z) : f64 :=
  of_spec
    match m with
    | Zpos p =>
        if (0 <=? e)%Z then
          binary_normalize 53 1024 ((if neg then Zneg p else Zpos p) * 10 ^ e) 0 neg
        else
          let '(mz, ez, lz) := SFdiv_core_binary 53 1024 (Zpos p) 0 (10 ^ (- e)) 0 in
          binary_round_aux 53 1024 neg mz ez lz
    | _ => S754_zero neg
    end.

(** [s.parse::<f64>()] on texts of digits, signs, a point and an exponent. *)
Definition parse_f64 (s : list char) : option f64 :=
  let '(neg, l0) := split_sign s in
  let '(ip, l1) := span is_ascii_digit l0 in
  let '(fp, l2) := match l1 with
                   | c :: r => if (c =? 46)%N then span is_ascii_digit r else ([], l1)
                   | [] => ([], l1)
                   end in
  if bool_decide (ip ++ fp = []) then None
  else
    let value e := Some (decimal_to_f64 neg (digits_val (ip ++ fp)) (e - Z.of_nat (length fp))) in
    match l2 with
    | [] => value 0%Z
    | c :: r =>
        if (c =? 101)%N || (c =? 69)%N then
          let '(eneg, ds) := split_sign r in
          if bool_decide (ds = []) || negb (forallb is_ascii_digit ds) then None
          else value (if eneg then - digits_val ds else digits_val ds)%Z
        else None
    end.

(** [Err(Error::Query(msg))]. *)
Definition query_error {A} (msg : string) : result A := Err (Core.Query msg).

(** ** Tokenizing *)
Definition upper_ascii (a : ascii) : ascii :=
  let n := N_of_ascii a in
  if ((97 <=? n) && (n <=? 122))%N then ascii_of_N (n - 32) else a.
Fixpoint to_uppercase (s : string) : string :=
  match s with
  | EmptyString => EmptyString
  | String a s' => String (upper_ascii a) (to_uppercase s')
  end.

(** The arms of the keyword [match], on the upper-cased word. *)
Definition keywords : list (string * Token) :=
  [("CREATE"%string, Token.Create);
   ("SELECT"%string, Token.Select);
   ("DELETE"%string, Token.Delete);
   ("RELATE"%string, Token.Relate);
   ("FROM"%string, Token.From);
   ("WHERE"%string, Token.Where);
   ("SET"%string, Token.Set_);
   ("AND"%string, Token.And);
   ("ON"%string, Token.On);
   ("CONFLICT"%string, Token.Conflict);
   ("UPDATE"%string, Token.Update);
   ("LIMIT"%string, Token.Limit);
   ("OUTCOME"%string, Token.Outcome);
   ("GRAPH"%string, Token.Graph);
   ("COMMUNITIES"%string, Token.Communities);
   ("COMPONENTS"%string, Token.Components);
   ("COUNT"%string, Token.Count);
   ("IS"%string, Token.Is);
   ("NOT"%string, Token.Not);
   ("TRUE"%string, Token.True_);
   ("FALSE"%string, Token.False_);
   ("NONE"%string, Token.None_);
   ("NULL"%string, Token.None_)].

Definition keyword (word : string) : Token :=
  match find (λ kt : string * Token, String.eqb kt.1 (to_uppercase word)) keywords with
  | Some (_, t) => t
  | None => Token.Ident word
  end.

Section lexer.
Local Open Scope N_scope.

(** The single-character symbols. *)
Definition symbol (c : char) : option Token :=
  if c =? 42 then Some Token.Star
  else if c =? 44 then Some Token.Comma
  else if c =? 59 then Some Token.Semicolon
  else if c =? 58 then Some Token.Colon
  else if c =? 61 then Some Token.Eq
  else if c =? 46 then Some Token.Dot
  else if c =? 62 then Some Token.Gt
  else if c =? 60 then Some Token.Lt
  else if c =? 91 then Some Token.LBracket
  else if c =? 93 then Some Token.RBracket
  else if c =? 40 then Some Token.LParen
  else if c =? 41 then Some Token.RParen
  else None.

(** [chars[i + 1] == x] within bounds. *)
Definition next_is (x : char) (rest : list char) : bool :=
  match rest with y :: _ => y =? x | [] => false end.

(** The two-character operators, longest match first. *)
Definition operator (c : char) (rest : list char) : option Token :=
  if (c =? 60) && next_is 45 rest then Some Token.BackArrow
  else if (c =? 60) && next_is 61 rest then Some Token.Lte
  else if (c =? 62) && next_is 61 rest then Some Token.Gte
  else if (c =? 33) && next_is 61 rest then Some Token.Ne
  else if (c =? 45) && next_is 62 rest then Some Token.Arrow
  else None.

Definition starts_comment (c : char) (rest : list char) : bool :=
  (c =? 45) && next_is 45 rest && negb (next_is 62 (tail rest)).

(** A well-formed exponent at the head of the input: its text and the rest. *)
Definition exponent (l : list char) : option (list char * list char) :=
  match l with
  | c :: r =>
      if (c =? 101) || (c =? 69) then
        let '(sign, r1) := match r with
                           | s :: r' => if (s =? 43) || (s =? 45) then ([s], r') else ([], r)
                           | [] => ([], r)
                           end in
        let '(ds, r2) := span is_ascii_digit r1 in
        match ds with
        | [] => None
        | _ => Some (c :: sign ++ ds, r2)
        end
      else None
  | [] => None
  end.

(** The number at the head of the input: its token and the rest. *)
Definition lex_number (cs : list char) : result (Token * list char) :=
  let '(sign, l0) := match cs with
                     | c :: r => if c =? 45 then ([c], r) else ([], cs)
                     | [] => ([], cs)
                     end in
  let '(ds, l1) := span is_ascii_digit l0 in
  let '(is_float, frac, l2) :=
    match l1 with
    | c :: r => if c =? 46 then let '(fs, r') := span is_ascii_digit r in (true, c :: fs, r')
                else (false, [], l1)
    | [] => (false, [], l1)
    end in
  let '(is_float, ex, l3) := match exponent l2 with
                             | Some (e, r) => (true, e, r)
                             | None => (is_float, [], l2)
                             end in
  let s := sign ++ ds ++ frac ++ ex in
  if is_float : bool then
    match parse_f64 s with
    | Some f => Ok (Token.FloatLit f, l3)
    | None => query_error ("invalid float: " ++ string_of_chars s)%string
    end
  else
    match parse_i64 s with
    | Some n => Ok (Token.IntLit n, l3)
    | None => query_error ("invalid integer: " ++ string_of_chars s)%string
    end.

(** One round of the loop on the input [c :: rest]: the token it pushes, if
    any, and the input left. *)
Definition lex_step (c : char) (rest : list char) : result (option Token * list char) :=
  if is_whitespace c then Ok (None, rest)
  else if starts_comment c rest then Ok (None, (span (λ x, negb (x =? 10)) (c :: rest)).2)
  else match operator c rest with
  | Some t => Ok (Some t, tail rest)
  | None =>
  match symbol c with
  | Some t => Ok (Some t, rest)
  | None =>
  if (c =? 39) || (c =? 34) then
    let '(s, r) := span (λ x, negb (x =? c)) rest in
    match r with
    | [] => query_error "unterminated string literal"
    | _ :: r' => Ok (Some (Token.StringLit (string_of_chars s)), r')
    end
  else if is_ascii_digit c || ((c =? 45) && match rest with d :: _ => is_ascii_digit d | [] => false end)
  then
    '(t, r) ← lex_number (c :: rest); Ok (Some t, r)
  else if is_ascii_alphabetic c || (c =? 95) then
    let '(w, r) := span is_word_char (c :: rest) in
    Ok (Some (keyword (string_of_chars w)), r)
  else query_error ("unexpected character: '" ++ string_of_chars [c] ++ "'")%string
  end end.
End lexer.

(** The loop; [None] is running out of fuel. *)
Fixpoint tokenize_loop (fuel : nat) (cs : list char) : option (result (list Token)) :=
  match cs with
  | [] => Some (Ok [])
  | c :: rest =>
      match fuel with
      | 0 => None
      | S fuel =>
          match lex_step c rest with
          | Err e => Some (Err e)
          | Ok (o, r) =>
              match tokenize_loop fuel r with
              | Some (Ok ts) => Some (Ok (match o with Some t => t :: ts | None => ts end))
              | other => other
              end
          end
      end
  end.

Definition tokenize_chars (cs : list char) : option (result (list Token)) :=
  tokenize_loop (length cs) cs.
Definition tokenize (input : string) : option (result (list Token)) := tokenize_chars (chars input).

Example tokenize_ex1 :
  tokenize "SELECT * FROM user WHERE age >= -30 -- all" =
  Some (Ok [Token.Select; Token.Star; Token.From; Token.Ident "user"; Token.Where; Token.Ident "age";
            Token.Gte; Token.IntLit (-30)]).
Proof. vm_compute. reflexivity. Qed.
Example tokenize_ex2 :
  tokenize "x = 2.5e-1, 'it''s'" =
  Some (Ok [Token.Ident "x"; Token.Eq; Token.FloatLit (F64 0x3FD0000000000000); Token.Comma;
            Token.StringLit "it"; Token.StringLit "s"]).
Proof. vm_compute. reflexivity. Qed.
