(* ===== verification/Parser.v ===== *)
(** * The parser (crates/query/src/parser.rs)

    Recursive descent over the token list with a mutable position.  Loops and
    recursive calls take fuel; [OutOfFuel] is excluded by the totality
    theorem.  Messages keep an argument printed with [{:?}] as the literal
    [{:?}]. *)

From S2P Require Export Ast Tokenizer.

Inductive Fault :=
  | Failed (e : Error)
  | OutOfFuel.

(** A parsing function: [&mut usize] is the state. *)
Abbreviation P := (SE nat Fault).

Definition fail {A} (msg : string) : P A := throw (Failed (Core.Query msg)).
Definition out_of_fuel {A} : P A := throw OutOfFuel.

(** [std::mem::discriminant(a) == std::mem::discriminant(b)]. *)
Definition same_discriminant (a b : Token) : bool :=
  match a, b with
  | Token.Ident _, Token.Ident _ | Token.StringLit _, Token.StringLit _
  | Token.IntLit _, Token.IntLit _ | Token.FloatLit _, Token.FloatLit _ => true
  | _, _ => bool_decide (a = b)
  end.

(** [a.eq_ignore_ascii_case(kw)] for an upper-case [kw]. *)
Definition is_kw (kw s : string) : bool := String.eqb (to_uppercase s) kw.

Section parser.
Context (tokens : list Token).

(** [tokens.get(pos)] and [pos += 1]. *)
Definition peek : P (option Token) := λ pos, (Ok (tokens !! pos), pos).
Definition advance : P unit := λ pos, (Ok tt, S pos).

(** [matches!(tokens.get(pos), Some(t))], for a token without payload. *)
Definition at_token (t : Token) : P bool := o ← peek; mret (bool_decide (o = Some t)).

(** ** Helpers *)
Definition expect (expected : Token) : P unit :=
  o ← peek;
  match o with
  | Some t => if same_discriminant t expected then advance else fail "expected {:?}, got {:?}"
  | None => fail "unexpected end of input, expected {:?}"
  end.

Definition expect_ident : P string :=
  o ← peek;
  match o with
  | Some (Token.Ident s) => _ ← advance; mret s
  | Some _ => fail "expected identifier, got {:?}"
  | None => fail "unexpected end of input, expected identifier"
  end.

Definition expect_keyword (kw : string) : P unit :=
  o ← peek;
  match o with
  | Some (Token.Ident s) =>
      if is_kw kw s then advance else fail ("expected keyword " ++ kw ++ ", got {:?}")
  | Some _ => fail ("expected keyword " ++ kw ++ ", got {:?}")
  | None => fail ("unexpected end of input, expected keyword " ++ kw)
  end.

Definition consume_keyword (kw : string) : P bool :=
  o ← peek;
  match o with
  | Some (Token.Ident s) => if is_kw kw s then _ ← advance; mret true else mret false
  | _ => mret false
  end.

Definition expect_string : P string :=
  o ← peek;
  match o with
  | Some (Token.StringLit s) => _ ← advance; mret s
  | Some _ => fail "expected string literal, got {:?}"
  | None => fail "unexpected end of input, expected string literal"
  end.

Definition expect_positive_int (what : string) : P Z :=
  o ← peek;
  match o with
  | Some (Token.IntLit n) =>
      if (0 <? n)%Z then _ ← advance; mret n
      else fail (what ++ " must be a positive integer, got {}")
  | Some _ => fail ("expected positive integer for " ++ what ++ ", got {:?}")
  | None => fail ("unexpected end of input, expected integer for " ++ what)
  end.

Definition expect_number (what : string) : P f64 :=
  o ← peek;
  match o with
  | Some (Token.FloatLit f) => _ ← advance; mret f
  | Some (Token.IntLit n) => _ ← advance; mret (f64_of_i64 n)
  | Some _ => fail (what ++ " requires a numeric value, got {:?}")
  | None => fail ("unexpected end of input, expected number for " ++ what)
  end.

(** [while let Comma { pos += 1; out.push(item()?) }]. *)
Fixpoint comma_list {A} (fuel : nat) (item : P A) : P (list A) :=
  match fuel with
  | 0 => out_of_fuel
  | S fuel =>
      c ← at_token Token.Comma;
      if c : bool then
        _ ← advance; x ← item; xs ← comma_list fuel item; mret (x :: xs)
      else mret []
  end.

(** A first item and the comma-separated rest. *)
Definition comma_list1 {A} (fuel : nat) (item : P A) : P (list A) :=
  x ← item; xs ← comma_list fuel item; mret (x :: xs).

(** [if consume_keyword(kw) { Some(p()?) } else { None }]. *)
Definition optional_keyword {A} (kw : string) (p : P A) : P (option A) :=
  c ← consume_keyword kw;
  if c : bool then x ← p; mret (Some x) else mret None.

(** ** Literals *)

(** The loop of [parse_array_literal]. *)
Fixpoint array_loop (fuel : nat) (item : P Literal) : P (list Literal) :=
  match fuel with
  | 0 => out_of_fuel
  | S fuel =>
      x ← item;
      o ← peek;
      match o with
      | Some Token.Comma => _ ← advance; xs ← array_loop fuel item; mret (x :: xs)
      | Some Token.RBracket => _ ← advance; mret [x]
      | Some _ => fail "expected ',' or ']' in array literal, got {:?}"
      | None => fail "unterminated array literal"
      end
  end.

Definition parse_array_literal (fuel : nat) (item : P Literal) : P Literal :=
  _ ← expect Token.LBracket;
  e ← at_token Token.RBracket;
  if e : bool then _ ← advance; mret (LArray [])
  else items ← array_loop fuel item; mret (LArray items).

Fixpoint parse_literal (fuel : nat) : P Literal :=
  match fuel with
  | 0 => out_of_fuel
  | S fuel =>
      o ← peek;
      match o with
      | Some (Token.StringLit s) => _ ← advance; mret (LString s)
      | Some (Token.IntLit n) => _ ← advance; mret (LInt n)
      | Some (Token.FloatLit f) => _ ← advance; mret (LFloat f)
      | Some Token.True_ => _ ← advance; mret (LBool true)
      | Some Token.False_ => _ ← advance; mret (LBool false)
      | Some Token.None_ => _ ← advance; mret LNone
      | Some Token.LBracket => parse_array_literal fuel (parse_literal fuel)
      | Some _ => fail "expected literal, got {:?}"
      | None => fail "unexpected end of input, expected literal"
      end
  end.

(** The elements of a vector literal. *)
Definition vector_elements (items : list Literal) : result (list f64) :=
  traverse (λ it, match it with
                  | LFloat f => Ok f
                  | LInt n => Ok (f64_of_i64 n)
                  | _ => Err (Core.Query "vector elements must be numbers, got {:?}")
                  end) items.

Definition parse_vector_literal (fuel : nat) : P (list f64) :=
  l ← parse_literal fuel;
  match l with
  | LArray items =>
      match vector_elements items with Ok out => mret out | Err e => throw (Failed e) end
  | _ => fail "expected a vector literal [..], got {:?}"
  end.

(** ** Select items and WHERE *)
Fixpoint name_loop (fuel : nat) (name : string) : P string :=
  match fuel with
  | 0 => out_of_fuel
  | S fuel =>
      c ← at_token Token.Colon;
      if c : bool then
        _ ← advance; _ ← expect Token.Colon; part ← expect_ident;
        name_loop fuel (name ++ "::" ++ part)
      else mret name
  end.

Definition starts_literal (o : option Token) : bool :=
  match o with
  | Some (Token.StringLit _ | Token.IntLit _ | Token.FloatLit _ | Token.True_ | Token.False_
         | Token.None_ | Token.LBracket) => true
  | _ => false
  end.

Fixpoint parse_select_item (fuel : nat) : P SelectItem :=
  match fuel with
  | 0 => out_of_fuel
  | S fuel =>
      o ← peek;
      if starts_literal o then lit ← parse_literal (S fuel); mret (SLiteral lit)
      else
        name0 ← expect_ident;
        name ← name_loop fuel name0;
        paren ← at_token Token.LParen;
        if paren : bool then
          _ ← advance;
          empty ← at_token Token.RParen;
          args ← (if empty : bool then mret [] else comma_list1 fuel (parse_select_item fuel));
          _ ← expect Token.RParen;
          mret (SFunctionCall name args)
        else mret (SField name)
  end.

Definition parse_cmp_op : P CmpOp :=
  o ← peek;
  match o with
  | Some Token.Eq => _ ← advance; mret OpEq
  | Some Token.Ne => _ ← advance; mret OpNe
  | Some Token.Gt => _ ← advance; mret OpGt
  | Some Token.Lt => _ ← advance; mret OpLt
  | Some Token.Gte => _ ← advance; mret OpGte
  | Some Token.Lte => _ ← advance; mret OpLte
  | Some _ => fail "expected comparison operator (=, !=, >, <, >=, <=), got {:?}"
  | None => fail "unexpected end of input, expected comparison operator"
  end.

Definition parse_comparison (fuel : nat) : P WhereClause :=
  select_item ← parse_select_item fuel;
  is_ ← at_token Token.Is;
  if is_ : bool then
    _ ← advance;
    not_ ← at_token Token.Not;
    negated ← (if not_ : bool then _ ← advance; mret true else mret false);
    _ ← expect Token.None_;
    match select_item with
    | SField f => mret (WIsNull f negated)
    | _ => fail "expected field name before IS NONE, got {:?}"
    end
  else
    op ← parse_cmp_op;
    value ← parse_literal fuel;
    mret (WCmp select_item op value).

Fixpoint parse_where_expr (fuel : nat) : P WhereClause :=
  match fuel with
  | 0 => out_of_fuel
  | S fuel =>
      left_ ← parse_comparison (S fuel);
      and_ ← at_token Token.And;
      if and_ : bool then
        _ ← advance; right_ ← parse_where_expr fuel; mret (WAnd left_ right_)
      else mret left_
  end.

(** Enough for every loop and recursion from any position. *)
Definition fuel : nat := S (length tokens).

Definition parse_where_clause : P (option WhereClause) :=
  w ← at_token Token.Where;
  if w : bool then _ ← advance; e ← parse_where_expr fuel; mret (Some e) else mret None.

(** ** Clauses *)
Definition parse_limit : P (option Z) :=
  l ← at_token Token.Limit;
  if negb l then mret None
  else
    _ ← advance;
    o ← peek;
    match o with
    | Some (Token.IntLit n) =>
        if (0 <? n)%Z then _ ← advance; mret (Some n)
        else fail "LIMIT must be a positive integer, got {}"
    | Some _ => fail "expected positive integer after LIMIT, got {:?}"
    | None => fail "unexpected end of input after LIMIT"
    end.

Definition parse_order_key : P OrderKey :=
  field ← expect_ident;
  desc ← consume_keyword "DESC";
  if desc : bool then mret (MkOrderKey field true)
  else _ ← consume_keyword "ASC"; mret (MkOrderKey field false).

Definition parse_order_by : P (list OrderKey) :=
  c ← consume_keyword "ORDER";
  if negb c then mret []
  else _ ← expect_keyword "BY"; comma_list1 fuel parse_order_key.

Definition parse_group_by : P (option string) :=
  c ← consume_keyword "GROUP";
  if negb c then mret None
  else _ ← expect_keyword "BY"; f ← expect_ident; mret (Some f).

Definition parse_field_assignment : P (string * Literal) :=
  name ← expect_ident;
  _ ← expect Token.Eq;
  value ← parse_literal fuel;
  mret (name, value).

Definition parse_set_clause : P (list (string * Literal)) := comma_list1 fuel parse_field_assignment.

Definition parse_record_ref : P RecordRef :=
  table ← expect_ident;
  _ ← expect Token.Colon;
  id ← expect_ident;
  mret (MkRecordRef table id).

Definition parse_on_conflict : P (option OnConflict) :=
  on ← at_token Token.On;
  if negb on then mret None
  else
    _ ← advance;
    _ ← expect Token.Conflict;
    _ ← expect Token.Update;
    set ← at_token Token.Set_;
    if set : bool then
      _ ← advance; fields ← parse_set_clause; mret (Some (OnUpdateSet fields))
    else mret (Some OnUpdate).

Definition parse_on_table : P string :=
  _ ← expect Token.On;
  _ ← consume_keyword "TABLE";
  expect_ident.

Definition parse_outcome : P OutcomeFormat :=
  out ← at_token Token.Outcome;
  if negb out then mret OutcomeFormat_default
  else
    _ ← advance;
    o ← peek;
    match o with
    | Some (Token.Ident s) =>
        let up := to_uppercase s in
        if String.eqb up "JSON" then _ ← advance; mret Json
        else if String.eqb up "TOON" then _ ← advance; mret Toon
        else if String.eqb up "CSV" then _ ← advance; mret Csv
        else fail ("unknown outcome format '" ++ up ++ "', expected JSON, TOON, or CSV")
    | Some _ => fail "expected outcome format (JSON, TOON, CSV), got {:?}"
    | None => fail "unexpected end of input after OUTCOME, expected JSON, TOON, or CSV"
    end.

(** ** Statements *)
Definition parse_compact : P Statement := _ ← expect_keyword "COMPACT"; mret Compact.

Definition parse_define_btree : P Statement :=
  name ← expect_ident;
  table ← parse_on_table;
  _ ← expect_keyword "FIELDS";
  fields ← comma_list1 fuel expect_ident;
  unique ← consume_keyword "UNIQUE";
  mret (DefineIndex name table fields unique).

Definition parse_define_fulltext : P Statement :=
  name ← expect_ident;
  table ← parse_on_table;
  _ ← expect_keyword "FIELDS";
  field ← expect_ident;
  analyzer ← optional_keyword "ANALYZER" expect_ident;
  mret (DefineFulltextIndex name table field analyzer).

Definition parse_define_vector : P Statement :=
  name ← expect_ident;
  table ← parse_on_table;
  _ ← expect_keyword "FIELDS";
  field ← expect_ident;
  _ ← expect_keyword "DIMENSION";
  dim ← expect_positive_int "DIMENSION";
  metric ← optional_keyword "METRIC" expect_ident;
  mret (DefineVectorIndex name table field dim metric).

Definition parse_define : P Statement :=
  _ ← expect_keyword "DEFINE";
  ft ← consume_keyword "FULLTEXT";
  if ft : bool then _ ← expect_keyword "INDEX"; parse_define_fulltext
  else
    vec ← consume_keyword "VECTOR";
    if vec : bool then _ ← expect_keyword "INDEX"; parse_define_vector
    else _ ← expect_keyword "INDEX"; parse_define_btree.

Definition parse_remove_index : P Statement :=
  _ ← expect_keyword "REMOVE";
  _ ← expect_keyword "INDEX";
  name ← expect_ident;
  _ ← expect Token.On;
  _ ← consume_keyword "TABLE";
  table ← expect_ident;
  mret (RemoveIndex name table).

Definition parse_search : P Statement :=
  _ ← expect_keyword "SEARCH";
  table ← expect_ident;
  field ← expect_ident;
  query ← expect_string;
  filter ← parse_where_clause;
  limit ← parse_limit;
  mret (Search table field query filter limit).

Definition parse_vector_search : P Statement :=
  _ ← expect_keyword "VECTOR";
  _ ← expect_keyword "SEARCH";
  table ← expect_ident;
  field ← expect_ident;
  vector ← parse_vector_literal fuel;
  filter ← parse_where_clause;
  k ← optional_keyword "K" (expect_positive_int "K");
  mret (VectorSearch table field vector filter k).

Definition parse_hybrid : P Statement :=
  _ ← expect_keyword "HYBRID";
  _ ← expect_keyword "SEARCH";
  table ← expect_ident;
  _ ← expect_keyword "TEXT";
  text_field ← expect_ident;
  query ← expect_string;
  _ ← expect_keyword "VECTOR";
  vector_field ← expect_ident;
  vector ← parse_vector_literal fuel;
  alpha ← optional_keyword "ALPHA" (expect_number "ALPHA");
  filter ← parse_where_clause;
  limit ← parse_limit;
  mret (HybridSearch table text_field query vector_field vector alpha filter limit).

Definition parse_create : P Statement :=
  _ ← expect Token.Create;
  table ← expect_ident;
  colon ← at_token Token.Colon;
  id ← (if colon : bool then _ ← advance; i ← expect_ident; mret (Some i) else mret None);
  _ ← expect Token.Set_;
  fields ← parse_set_clause;
  on_conflict ← parse_on_conflict;
  mret (Create table id fields on_conflict).

(** The loop of [parse_traversal_chain]. *)
Fixpoint hops_loop (fuel : nat) : P (list TraversalHop) :=
  match fuel with
  | 0 => out_of_fuel
  | S fuel =>
      o ← peek;
      match (match o with
             | Some Token.Arrow => Some TOut
             | Some Token.BackArrow => Some TIn
             | _ => None
             end) with
      | None => mret []
      | Some dir =>
          _ ← advance;
          edge_type ← expect_ident;
          closing ← peek;
          _ ← (match dir, closing with
               | TOut, Some Token.Arrow | TIn, Some Token.BackArrow => advance
               | _, Some _ => fail "traversal: expected matching arrow after edge type, got {:?}"
               | _, None => fail "traversal: unexpected end after edge type"
               end);
          dest_table ← expect_ident;
          next ← peek;
          match next with
          | Some Token.Arrow | Some Token.BackArrow =>
              hops ← hops_loop fuel; mret (MkTraversalHop dir edge_type dest_table :: hops)
          | _ => mret [MkTraversalHop dir edge_type dest_table]
          end
      end
  end.

Definition parse_traversal_chain : P TraversalChain :=
  hops ← hops_loop fuel;
  match hops with
  | [] => fail "empty traversal chain"
  | _ =>
      dot ← at_token Token.Dot;
      projection ← (if dot : bool then _ ← advance; f ← expect_ident; mret (Some f) else mret None);
      mret (MkTraversalChain hops projection)
  end.

Definition parse_select_fields : P SelectFields :=
  o ← peek;
  match o with
  | Some Token.Star => _ ← advance; mret SAll
  | Some Token.Arrow | Some Token.BackArrow => c ← parse_traversal_chain; mret (STraversal c)
  | _ => items ← comma_list1 fuel (parse_select_item fuel); mret (SNamed items)
  end.

(** [table] or [table:id]. *)
Definition parse_target (table : string) : P FromTarget :=
  colon ← at_token Token.Colon;
  if colon : bool then _ ← advance; id ← expect_ident; mret (FromRecord (MkRecordRef table id))
  else mret (FromTable table).

Definition parse_select : P Statement :=
  _ ← expect Token.Select;
  fields ← parse_select_fields;
  _ ← expect Token.From;
  table ← expect_ident;
  from ← parse_target table;
  filter ← parse_where_clause;
  order_by ← parse_order_by;
  limit ← parse_limit;
  mret (Select fields from filter order_by limit).

Definition parse_delete : P Statement :=
  _ ← expect Token.Delete;
  table ← expect_ident;
  colon ← at_token Token.Colon;
  if colon : bool then _ ← advance; id ← expect_ident; mret (Delete table id)
  else filter ← parse_where_clause; mret (DeleteWhere table filter).

Definition parse_update : P Statement :=
  _ ← expect Token.Update;
  table ← expect_ident;
  target ← parse_target table;
  _ ← expect Token.Set_;
  fields ← parse_set_clause;
  filter ← parse_where_clause;
  mret (Update target fields filter).

Definition parse_count : P Statement :=
  _ ← expect Token.Count;
  table ← expect_ident;
  filter ← parse_where_clause;
  group_by ← parse_group_by;
  mret (Count table filter group_by).

Definition parse_relate : P Statement :=
  _ ← expect Token.Relate;
  src ← parse_record_ref;
  _ ← expect Token.Arrow;
  edge_type ← expect_ident;
  _ ← expect Token.Arrow;
  dst ← parse_record_ref;
  set ← at_token Token.Set_;
  fields ← (if set : bool then _ ← advance; parse_set_clause else mret []);
  mret (Relate src edge_type dst fields).

(** *** GRAPH statements *)

(** The option loop of [parse_graph_pagerank]. *)
Fixpoint pagerank_loop (fuel : nat) (damping : f64) (max_iterations : Z) : P (f64 * Z) :=
  match fuel with
  | 0 => out_of_fuel
  | S fuel =>
      d ← consume_keyword "DAMPING";
      if d : bool then
        damping ← expect_number "DAMPING"; pagerank_loop fuel damping max_iterations
      else
        m ← consume_keyword "MAX_ITER";
        if m : bool then
          max_iterations ← expect_positive_int "MAX_ITER"; pagerank_loop fuel damping max_iterations
        else mret (damping, max_iterations)
  end.

(** [0.85], the default damping. *)
Definition default_damping : f64 := decimal_to_f64 false 85 (-2).

Definition parse_graph_pagerank : P Statement :=
  _ ← expect_keyword "PAGERANK";
  table ← expect_ident;
  '(damping, max_iterations) ← pagerank_loop fuel default_damping 100;
  limit ← parse_limit;
  mret (GraphPagerank table damping max_iterations limit).

Definition parse_graph_centrality : P Statement :=
  _ ← expect_keyword "CENTRALITY";
  table ← expect_ident;
  ind ← consume_keyword "INDEGREE";
  mode ← (if ind : bool then mret InDegree
          else
            outd ← consume_keyword "OUTDEGREE";
            if outd : bool then mret OutDegree
            else _ ← consume_keyword "DEGREE"; mret Degree);
  limit ← parse_limit;
  mret (GraphCentrality table mode limit).

Definition parse_graph_path : P Statement :=
  _ ← expect_keyword "PATH";
  src ← expect_ident;
  _ ← expect Token.Arrow;
  dst ← expect_ident;
  _ ← expect Token.On;
  table ← expect_ident;
  max_depth ← optional_keyword "MAX_DEPTH" (expect_positive_int "MAX_DEPTH");
  mret (GraphPath src dst table max_depth).

Definition parse_graph_edges : P Statement :=
  _ ← expect_keyword "EDGES";
  table ← expect_ident;
  filter ← parse_where_clause;
  mret (GraphEdges table filter).

Definition parse_graph_components : P Statement :=
  _ ← expect Token.Components;
  table ← expect_ident;
  mret (GraphComponents table).

Definition parse_algorithm (name : string) : P CommunityAlgorithm :=
  let up := to_uppercase name in
  if String.eqb up "LOUVAIN" then mret Louvain
  else if String.eqb up "LP" || String.eqb up "LABELPROPAGATION" || String.eqb up "LABEL_PROPAGATION"
  then mret LabelPropagation
  else fail ("unknown community algorithm '" ++ up ++ "'; expected louvain or lp").

(** The option loop of [parse_graph_communities]. *)
Fixpoint communities_loop (fuel : nat) (algorithm : CommunityAlgorithm) (max_iterations : Z)
    (resolution : f64) : P (CommunityAlgorithm * Z * f64) :=
  match fuel with
  | 0 => out_of_fuel
  | S fuel =>
      o ← peek;
      match o with
      | Some (Token.Ident kw) =>
          if is_kw "ALGORITHM" kw then
            _ ← advance;
            name ← expect_ident;
            algorithm ← parse_algorithm name;
            communities_loop fuel algorithm max_iterations resolution
          else if is_kw "MAX_ITER" kw then
            _ ← advance;
            v ← peek;
            match v with
            | Some (Token.IntLit n) =>
                if (0 <? n)%Z then _ ← advance; communities_loop fuel algorithm n resolution
                else fail "MAX_ITER requires a positive integer, got {:?}"
            | Some _ => fail "MAX_ITER requires a positive integer, got {:?}"
            | None => fail "unexpected end of input after MAX_ITER"
            end
          else if is_kw "RESOLUTION" kw then
            _ ← advance;
            v ← peek;
            match v with
            | Some (Token.FloatLit f) => _ ← advance; communities_loop fuel algorithm max_iterations f
            | Some (Token.IntLit n) =>
                _ ← advance; communities_loop fuel algorithm max_iterations (f64_of_i64 n)
            | Some _ => fail "RESOLUTION requires a numeric value, got {:?}"
            | None => fail "unexpected end of input after RESOLUTION"
            end
          else mret (algorithm, max_iterations, resolution)
      | _ => mret (algorithm, max_iterations, resolution)
      end
  end.

Definition parse_graph_communities : P Statement :=
  _ ← expect Token.Communities;
  table ← expect_ident;
  '(algorithm, max_iterations, resolution) ←
    communities_loop fuel CommunityAlgorithm_default 10 f64_one;
  mret (GraphCommunities table algorithm max_iterations resolution).

Definition parse_graph : P Statement :=
  _ ← expect Token.Graph;
  o ← peek;
  match o with
  | Some Token.Communities => parse_graph_communities
  | Some Token.Components => parse_graph_components
  | Some (Token.Ident kw) =>
      if is_kw "PAGERANK" kw then parse_graph_pagerank
      else if is_kw "CENTRALITY" kw then parse_graph_centrality
      else if is_kw "PATH" kw then parse_graph_path
      else if is_kw "EDGES" kw then parse_graph_edges
      else fail "expected COMMUNITIES, COMPONENTS, PAGERANK, CENTRALITY, PATH, or EDGES after GRAPH, got {:?}"
  | Some _ =>
      fail "expected COMMUNITIES, COMPONENTS, PAGERANK, CENTRALITY, PATH, or EDGES after GRAPH, got {:?}"
  | None => fail "unexpected end of input after GRAPH"
  end.

Definition parse_statement : P Statement :=
  o ← peek;
  match o with
  | Some Token.Create => parse_create
  | Some Token.Select => parse_select
  | Some Token.Delete => parse_delete
  | Some Token.Relate => parse_relate
  | Some Token.Update => parse_update
  | Some Token.Count => parse_count
  | Some Token.Graph => parse_graph
  | Some (Token.Ident kw) =>
      if is_kw "DEFINE" kw then parse_define
      else if is_kw "REMOVE" kw then parse_remove_index
      else if is_kw "SEARCH" kw then parse_search
      else if is_kw "VECTOR" kw then parse_vector_search
      else if is_kw "HYBRID" kw then parse_hybrid
      else if is_kw "COMPACT" kw then parse_compact
      else fail "expected statement, got {:?}"
  | Some _ => fail "expected statement, got {:?}"
  | None => fail "empty input"
  end.

(** The body of [parse], on the tokens. *)
Definition parse_query : P Query :=
  statement ← parse_statement;
  outcome ← parse_outcome;
  semi ← at_token Token.Semicolon;
  _ ← (if semi : bool then advance else mret tt);
  o ← peek;
  match o with
  | Some _ => fail "unexpected token after statement: {:?}"
  | None => mret (MkQuery statement outcome)
  end.
End parser.

(** [parse(input)]; [None] is running out of fuel. *)
Definition parse_tokens (tokens : list Token) : option (result Query) :=
  match (parse_query tokens 0).1 with
  | Ok q => Some (Ok q)
  | Err (Failed e) => Some (Err e)
  | Err OutOfFuel => None
  end.

Definition parse (input : string) : option (result Query) :=
  r ← tokenize input;
  match r with
  | Ok tokens => parse_tokens tokens
  | Err e => Some (Err e)
  end.

Example parse_ex1 :
  parse "SELECT name, count(age) FROM user WHERE age >= 30 AND x IS NOT NONE ORDER BY age DESC LIMIT 5;" =
  Some (Err (Core.Query "expected identifier, got {:?}")).
Proof. vm_compute. reflexivity. Qed.
Example parse_ex2 :
  parse "SELECT name, len(age) FROM user WHERE age >= 30 AND x IS NOT NONE ORDER BY age DESC LIMIT 5;" =
  Some (Ok (MkQuery
    (Select (SNamed [SField "name"; SFunctionCall "len" [SField "age"]]) (FromTable "user")
       (Some (WAnd (WCmp (SField "age") OpGte (LInt 30)) (WIsNull "x" true)))
       [MkOrderKey "age" true] (Some 5%Z)) Json)).
Proof. vm_compute. reflexivity. Qed.
Example default_damping_ex : to_bits default_damping = 0x3FEB333333333333%Z.
Proof. vm_compute. reflexivity. Qed.
