(* ===== verification/ParserTotal.v ===== *)
(** * The tokenizer and the parser always return

    A triple-like predicate on parsing functions tracks the position against
    the fuel: [T k j d m] says that from any position with at least [j] tokens
    left and fewer than [k], [m] does not run out of fuel and, when it
    succeeds, has moved at least [d] tokens without passing the end. *)

From S2P Require Export Parser.

Section total.
Context (tokens : list Token).
Local Abbreviation N := (length tokens).

Definition T {A} (k j d : nat) (m : P A) : Prop :=
  ∀ pos, pos + j ≤ N → N < pos + k →
    let '(r, p') := m pos in
    match r with
    | Ok _ => pos + d ≤ p' ∧ p' ≤ N
    | Err OutOfFuel => False
    | Err (Failed _) => True
    end.

Lemma T_weaken {A} k j d k' j' d' (m : P A) :
  T k j d m → k' ≤ k → j ≤ j' → d' ≤ d → T k' j' d' m.
Proof.
  intros H ??? pos Hj Hk. specialize (H pos ltac:(lia) ltac:(lia)).
  destruct (m pos) as [[a|[e|]] p']; [lia|done|done].
Qed.
Lemma T_drop {A} k j d d' (m : P A) : T k j d m → d' ≤ d → T k j d' m.
Proof. intros H ?. by eapply T_weaken. Qed.
Lemma T_ret {A} k j (a : A) : T k j 0 (mret a).
Proof. intros pos ??. cbn. lia. Qed.
Lemma T_fail {A} k j d s : T k j d (fail (A := A) s).
Proof. by intros pos ??. Qed.
Lemma T_fail_bind {A B} k j d s (f : A → P B) : T k j d (fail (A := A) s ≫= f).
Proof. by intros pos ??. Qed.
Lemma T_throw {A} k j d e : T k j d (throw (S := nat) (A := A) (Failed e)).
Proof. by intros pos ??. Qed.
Lemma T_fuel0 {A} j d (m : P A) : T 0 j d m.
Proof. intros pos ??. lia. Qed.

Lemma T_bind {A B} k j d1 d2 (m : P A) (f : A → P B) :
  T k j d1 m → (∀ a, T (k - d1) 0 d2 (f a)) → T k j (d1 + d2) (m ≫= f).
Proof.
  intros Hm Hf pos Hj Hk. specialize (Hm pos Hj Hk). unfold mbind, SE_bind.
  destruct (m pos) as [[a|[e|]] p1]; [|done|done].
  specialize (Hf a p1 ltac:(lia) ltac:(lia)).
  destruct (f a p1) as [[b|[e|]] p2]; [lia|done|done].
Qed.
Lemma T_bind1 {A B} k j d (m : P A) (f : A → P B) :
  T k j 1 m → (∀ a, T (k - 1) 0 (d - 1) (f a)) → T k j d (m ≫= f).
Proof. intros Hm Hf. eapply T_weaken; [by eapply T_bind| lia..]. Qed.
Lemma T_bind0 {A B} k j d (m : P A) (f : A → P B) :
  T k j 0 m → (∀ a, T k 0 d (f a)) → T k j d (m ≫= f).
Proof.
  intros Hm Hf. apply (T_bind k j 0 d); [done|]. intros a. by rewrite Nat.sub_0_r.
Qed.
Lemma T_peek {B} k j d (f : option Token → P B) :
  T k j d (f None) → (∀ t, T k (max j 1) d (f (Some t))) → T k j d (peek tokens ≫= f).
Proof.
  intros Hn Hs pos Hj Hk. unfold mbind, SE_bind, peek.
  destruct (tokens !! pos) as [t|] eqn:E; [|by apply Hn].
  apply lookup_lt_Some in E. apply Hs; lia.
Qed.
Lemma T_at {B} k j d t (f : bool → P B) :
  T k (max j 1) d (f true) → T k j d (f false) → T k j d (at_token tokens t ≫= f).
Proof.
  intros Ht Hf pos Hj Hk.
  assert ((at_token tokens t ≫= f) pos = f (bool_decide (tokens !! pos = Some t)) pos) as -> by done.
  case_bool_decide as E; [|by apply Hf]. apply lookup_lt_Some in E. apply Ht; lia.
Qed.
Lemma T_advance k j : 1 ≤ j → T k j 1 advance.
Proof. intros Hj pos ??. cbn. lia. Qed.

(** Close a leaf: a known lemma up to weakening. *)
Create HintDb total.
Ltac T_leaf := first
  [ apply T_ret | apply T_fail | apply T_throw | apply T_advance; lia
  | eapply T_drop; [solve [eauto 2 with total]|lia]
  | eapply T_weaken; [solve [eauto 2 with total]|lia..] ].
(** Decompose a body: peeks and tests first, then binds by their progress. *)
Ltac T_step :=
  match goal with
  | |- ∀ _, _ => intros ?
  | |- T _ _ _ (if negb _ then _ else _) => progress cbn [negb]
  | |- T _ _ _ (peek _ ≫= _) => apply T_peek
  | |- T _ _ _ (at_token _ _ ≫= _) => apply T_at
  | |- T _ _ _ (advance ≫= _) => apply T_bind1; [apply T_advance; lia|]
  | |- T _ _ _ (_ ≫= _) =>
      first [apply T_bind1; [solve [T_leaf]|] | apply T_bind0; [solve [T_leaf]|]]
  | |- T _ _ _ (match ?x with _ => _ end) => destruct x
  | |- T _ _ _ (if ?x then _ else _) => destruct x
  | |- _ => T_leaf
  end.
Ltac T_solve := repeat T_step.

Lemma expect_T t k j : T k j 1 (expect tokens t).
Proof. unfold expect. T_solve. Qed.
Lemma expect_ident_T k j : T k j 1 (expect_ident tokens).
Proof. unfold expect_ident. T_solve. Qed.
Lemma expect_keyword_T kw k j : T k j 1 (expect_keyword tokens kw).
Proof. unfold expect_keyword. T_solve. Qed.
Lemma consume_keyword_T kw k j : T k j 0 (consume_keyword tokens kw).
Proof. unfold consume_keyword. T_solve. Qed.
Lemma expect_string_T k j : T k j 1 (expect_string tokens).
Proof. unfold expect_string. T_solve. Qed.
Lemma expect_positive_int_T w k j : T k j 1 (expect_positive_int tokens w).
Proof. unfold expect_positive_int. T_solve. Qed.
Lemma expect_number_T w k j : T k j 1 (expect_number tokens w).
Proof. unfold expect_number. T_solve. Qed.
#[local] Hint Resolve expect_T expect_ident_T expect_keyword_T consume_keyword_T expect_string_T
  expect_positive_int_T expect_number_T : total.

(** After a keyword is consumed at least one token is gone. *)
Lemma T_consume {B} k j d kw (f : bool → P B) :
  T (k - 1) 0 (d - 1) (f true) → T k j d (f false) → T k j d (consume_keyword tokens kw ≫= f).
Proof.
  intros Ht Hf pos Hj Hk.
  assert ((consume_keyword tokens kw ≫= f) pos =
    match tokens !! pos with
    | Some (Token.Ident s) => if is_kw kw s then f true (S pos) else f false pos
    | _ => f false pos
    end) as ->.
  { unfold consume_keyword, mbind, SE_bind, peek. destruct (tokens !! pos) as [[]|]; try done.
    by destruct (is_kw kw s). }
  destruct (tokens !! pos) as [t|] eqn:E; [|by apply Hf].
  apply lookup_lt_Some in E. destruct t; try by apply Hf.
  destruct (is_kw kw s); [|by apply Hf].
  specialize (Ht (S pos) ltac:(lia) ltac:(lia)).
  destruct (f true (S pos)) as [[b|[e|]] p2]; [lia|done|done].
Qed.

Lemma comma_list_T {A} f j (item : P A) : T f 0 0 item → T f j 0 (comma_list tokens f item).
Proof.
  revert j; induction f as [|f IH]; intros j Hi; [apply T_fuel0|]. cbn [comma_list].
  apply T_at; [|T_leaf]. apply T_bind1; [apply T_advance; lia|]. intros _.
  replace (S f - 1) with f by lia. assert (T f 0 0 item) by (eapply T_weaken; [done|lia..]).
  apply T_bind0; [done|]. intros x. apply T_bind0; [by apply IH|]. intros xs. apply T_ret.
Qed.
Lemma comma_list1_T {A} f j (item : P A) : T f j 1 item → T f 0 0 item → T f j 1 (comma_list1 tokens f item).
Proof.
  intros H1 H0. unfold comma_list1. apply T_bind1; [done|]. intros x.
  apply T_bind0; [eapply T_weaken; [by apply (comma_list_T f 0)|lia..]|]. intros xs. apply T_ret.
Qed.
Lemma optional_keyword_T {A} kw k j (p : P A) : T (k - 1) 0 0 p → T k j 0 (optional_keyword tokens kw p).
Proof.
  intros Hp. unfold optional_keyword. apply T_consume; [|T_leaf].
  apply T_bind0; [done|]. intros x. apply T_ret.
Qed.

Lemma array_loop_T f j item : T f 0 1 item → T f j 1 (array_loop tokens f item).
Proof.
  revert j; induction f as [|f IH]; intros j Hi; [apply T_fuel0|]. cbn [array_loop].
  apply T_bind1; [eapply T_weaken; [done|lia..]|]. intros x. replace (S f - 1) with f by lia.
  assert (T f 0 1 item) by (eapply T_weaken; [done|lia..]).
  apply T_peek; [T_leaf|]. intros t. destruct t; try T_leaf.
  - apply T_bind1; [apply T_advance; lia|]. intros _.
    apply T_bind0; [eapply T_weaken; [by apply (IH 0)|lia..]|]. intros xs. apply T_ret.
  - apply T_bind1; [apply T_advance; lia|]. intros _. apply T_ret.
Qed.

Lemma parse_literal_T f j : T f j 1 (parse_literal tokens f).
Proof.
  revert j; induction f as [|f IH]; intros j; [apply T_fuel0|]. cbn [parse_literal].
  unfold parse_array_literal.
  apply T_peek; [T_leaf|]. intros t. destruct t; try (by T_solve).
  apply T_bind1; [T_leaf|]. intros _. replace (S f - 1) with f by lia. apply T_at.
  - apply T_bind1; [apply T_advance; lia|]. intros _. apply T_ret.
  - apply T_bind0; [|intros; T_leaf]. eapply T_weaken; [by apply (array_loop_T f 0), IH|lia..].
Qed.
Lemma parse_literal_leaf f : T f 0 1 (parse_literal tokens f).
Proof. apply parse_literal_T. Qed.
#[local] Hint Resolve parse_literal_leaf : total.

Lemma parse_vector_literal_T f : T f 0 1 (parse_vector_literal tokens f).
Proof. unfold parse_vector_literal. T_solve. Qed.

Lemma name_loop_T f j name : T f j 0 (name_loop tokens f name).
Proof.
  revert j name; induction f as [|f IH]; intros j name; [apply T_fuel0|]. cbn [name_loop].
  apply T_at; [|T_leaf]. apply T_bind1; [apply T_advance; lia|]. intros _.
  replace (S f - 1) with f by lia.
  apply T_bind0; [T_leaf|]. intros _. apply T_bind0; [T_leaf|]. intros part.
  eapply T_weaken; [apply (IH 0)|lia..].
Qed.

Lemma parse_select_item_T f j : T f j 1 (parse_select_item tokens f).
Proof.
  revert j; induction f as [|f IH]; intros j; [apply T_fuel0|]. cbn [parse_select_item].
  apply T_bind0; [apply (T_weaken (S f) j 0 (S f) j 0);
    [unfold peek; intros pos ??; simpl; lia|lia..]|].
  intros o. destruct (starts_literal o).
  { apply T_bind1; [T_leaf|]. intros l. T_leaf. }
  apply T_bind1; [T_leaf|]. intros name0. replace (S f - 1) with f by lia.
  apply T_bind0; [apply name_loop_T|]. intros name.
  apply T_at; [|T_leaf]. apply T_bind1; [apply T_advance; lia|]. intros _.
  apply T_at.
  - apply T_bind0; [T_leaf|]. intros args. apply T_bind0; [T_leaf|]. intros _. T_leaf.
  - apply T_bind0; [|intros args; apply T_bind0; [T_leaf|]; intros _; T_leaf].
    eapply T_weaken; [apply (comma_list1_T f 0); [by apply IH|eapply T_weaken; [apply (IH 0)|lia..]]|lia..].
Qed.
Lemma parse_select_item_leaf f : T f 0 1 (parse_select_item tokens f).
Proof. apply parse_select_item_T. Qed.
#[local] Hint Resolve parse_select_item_leaf parse_vector_literal_T : total.

Lemma parse_cmp_op_T k j : T k j 1 (parse_cmp_op tokens).
Proof. unfold parse_cmp_op. T_solve. Qed.
#[local] Hint Resolve parse_cmp_op_T : total.

Lemma parse_comparison_T f : T f 0 1 (parse_comparison tokens f).
Proof.
  unfold parse_comparison. apply T_bind1; [T_leaf|]. intros it. apply T_at.
  - apply T_bind1; [apply T_advance; lia|]. intros _. apply T_at; T_solve.
  - T_solve.
Qed.
#[local] Hint Resolve parse_comparison_T : total.

Lemma parse_where_expr_T f : T f 0 1 (parse_where_expr tokens f).
Proof.
  induction f as [|f IH]; [apply T_fuel0|]. cbn [parse_where_expr].
  apply T_bind1; [T_leaf|]. intros l. apply T_at; [|T_leaf].
  apply T_bind1; [apply T_advance; lia|]. intros _.
  apply T_bind0; [eapply T_weaken; [exact IH|lia..]|]. intros r. T_leaf.
Qed.
#[local] Hint Resolve parse_where_expr_T : total.

(** *** Statements, with the fuel the parser uses *)
Local Abbreviation F := (fuel tokens).

(** A body reached with the full fuel: binds consume from any [k ≤ F]. *)
Lemma where_T k j : k ≤ F → T k j 0 (parse_where_clause tokens).
Proof.
  intros Hk. unfold parse_where_clause. apply T_at; [|T_leaf].
  apply T_bind1; [apply T_advance; lia|]. intros _.
  apply T_bind0; [eapply T_weaken; [apply (parse_where_expr_T F)|lia..]|]. intros e. T_leaf.
Qed.
Lemma limit_T k j : T k j 0 (parse_limit tokens).
Proof. unfold parse_limit. T_solve. Qed.
Lemma order_key_T k j : T k j 1 (parse_order_key tokens).
Proof. unfold parse_order_key. T_solve. Qed.
#[local] Hint Resolve limit_T order_key_T : total.
Lemma comma1_leaf {A} k j (item : P A) :
  k ≤ F → (∀ k j, k ≤ F → T k j 1 item) → T k j 1 (comma_list1 tokens F item).
Proof.
  intros Hk Hi. eapply T_weaken; [apply (comma_list1_T F j)|lia..].
  - by apply Hi.
  - eapply T_drop; [by apply Hi|lia].
Qed.
Lemma order_by_T k j : k ≤ F → T k j 0 (parse_order_by tokens).
Proof.
  intros Hk. unfold parse_order_by. apply T_consume; [|T_leaf]. apply T_bind0; [T_leaf|]. intros _.
  eapply T_drop; [apply comma1_leaf; [lia|intros; T_leaf]|lia].
Qed.
Lemma group_by_T k j : T k j 0 (parse_group_by tokens).
Proof. unfold parse_group_by. T_solve. Qed.
Lemma assignment_T k j : k ≤ F → T k j 1 (parse_field_assignment tokens).
Proof.
  intros Hk. unfold parse_field_assignment. apply T_bind1; [T_leaf|]. intros n.
  apply T_bind0; [T_leaf|]. intros _.
  apply T_bind0; [eapply T_weaken; [apply (parse_literal_T F 0)|lia..]|]. intros v. T_leaf.
Qed.
Lemma set_clause_T k j : k ≤ F → T k j 1 (parse_set_clause tokens).
Proof. intros Hk. apply comma1_leaf; [done|]. intros. by apply assignment_T. Qed.
Lemma record_ref_T k j : T k j 1 (parse_record_ref tokens).
Proof. unfold parse_record_ref. T_solve. Qed.
Lemma on_conflict_T k j : k ≤ F → T k j 0 (parse_on_conflict tokens).
Proof.
  intros Hk. unfold parse_on_conflict. apply T_at; [|T_leaf]. simpl negb. cbv iota.
  apply T_bind1; [apply T_advance; lia|]. intros _. do 2 (apply T_bind0; [T_leaf|]; intros _).
  apply T_at; [|T_leaf]. apply T_bind1; [apply T_advance; lia|]. intros _.
  apply T_bind0; [eapply T_drop; [apply set_clause_T; lia|lia]|]. intros fs. T_leaf.
Qed.
Lemma on_table_T k j : T k j 1 (parse_on_table tokens).
Proof. unfold parse_on_table. T_solve. Qed.
Lemma outcome_T k j : T k j 0 (parse_outcome tokens).
Proof.
  unfold parse_outcome. apply T_at; [|T_leaf]. apply T_bind1; [apply T_advance; lia|]. intros _.
  apply T_peek; [T_leaf|]. intros t. destruct t; try T_leaf. cbv zeta.
  repeat match goal with |- T _ _ _ (if ?b then _ else _) => destruct b end; by T_solve.
Qed.
Lemma select_item_T k j : k ≤ F → T k j 1 (parse_select_item tokens F).
Proof. intros Hk. eapply T_weaken; [apply (parse_select_item_T F j)|lia..]. Qed.
Lemma vector_T k j : k ≤ F → T k j 1 (parse_vector_literal tokens F).
Proof. intros Hk. eapply T_weaken; [apply (parse_vector_literal_T F)|lia..]. Qed.
Lemma idents_T k j : k ≤ F → T k j 1 (comma_list1 tokens F (expect_ident tokens)).
Proof. intros Hk. apply comma1_leaf; [done|]. intros. T_leaf. Qed.
Lemma items_T k j : k ≤ F → T k j 1 (comma_list1 tokens F (parse_select_item tokens F)).
Proof. intros Hk. apply comma1_leaf; [done|]. intros. by apply select_item_T. Qed.

Lemma hops_loop_T f j : T f j 0 (hops_loop tokens f).
Proof.
  revert j; induction f as [|f IH]; intros j; [apply T_fuel0|]. cbn [hops_loop].
  apply T_peek; [T_leaf|]. intros t.
  assert (∀ dir, T (S f) (max j 1) 0
    (_ ← advance; edge_type ← expect_ident tokens; closing ← peek tokens;
     _ ← (match dir, closing with
          | TOut, Some Token.Arrow | TIn, Some Token.BackArrow => advance
          | _, Some _ => fail "traversal: expected matching arrow after edge type, got {:?}"
          | _, None => fail "traversal: unexpected end after edge type"
          end);
     dest_table ← expect_ident tokens; next ← peek tokens;
     match next with
     | Some Token.Arrow | Some Token.BackArrow =>
         hops ← hops_loop tokens f; mret (MkTraversalHop dir edge_type dest_table :: hops)
     | _ => mret [MkTraversalHop dir edge_type dest_table]
     end)) as Hhop.
  { intros dir. apply T_bind1; [apply T_advance; lia|]. intros _. replace (S f - 1) with f by lia.
    apply T_bind0; [T_leaf|]. intros e. apply T_peek.
    - destruct dir; apply T_fail_bind.
    - intros c. apply T_bind1; [by destruct dir, c; T_leaf|]. intros _.
      apply T_bind0; [T_leaf|]. intros d. apply T_peek; [T_leaf|]. intros n.
      assert (T (f - 1) (max 0 1) 0 (hops ← hops_loop tokens f; mret (MkTraversalHop dir e d :: hops))).
      { apply T_bind0; [eapply T_weaken; [apply (IH 0)|lia..]|]. intros hs. T_leaf. }
      destruct n; first [T_leaf|done]. }
  destruct t; first [exact (Hhop TOut)|exact (Hhop TIn)|T_leaf].
Qed.
Lemma chain_T k j : k ≤ F → T k j 0 (parse_traversal_chain tokens).
Proof.
  intros Hk. unfold parse_traversal_chain.
  apply T_bind0; [eapply T_weaken; [apply (hops_loop_T F j)|lia..]|]. intros hs.
  destruct hs; [T_leaf|]. apply T_at; (apply T_bind0; [by T_solve|]; intros p; T_leaf).
Qed.
Lemma select_fields_T k j : k ≤ F → T k j 0 (parse_select_fields tokens).
Proof.
  intros Hk. unfold parse_select_fields.
  assert (∀ j', T k j' 0 (items ← comma_list1 tokens F (parse_select_item tokens F); mret (SNamed items)))
    as Hi.
  { intros j'. apply T_bind1; [by apply items_T|]. intros its. T_leaf. }
  assert (∀ j', T k j' 0 (c ← parse_traversal_chain tokens; mret (STraversal c))) as Hc.
  { intros j'. apply T_bind0; [by apply chain_T|]. intros c. T_leaf. }
  apply T_peek; [apply Hi|]. intros t. destruct t; first [apply Hi|apply Hc|by T_solve].
Qed.
Lemma target_T k j t : T k j 0 (parse_target tokens t).
Proof. unfold parse_target. T_solve. Qed.
Lemma pagerank_loop_T f j d m : T f j 0 (pagerank_loop tokens f d m).
Proof.
  revert j d m; induction f as [|f IH]; intros j d m; [apply T_fuel0|]. cbn [pagerank_loop].
  apply T_consume; replace (S f - 1) with f by lia.
  - apply T_bind0; [T_leaf|]. intros x. apply IH.
  - apply T_consume; replace (S f - 1) with f by lia; [|T_leaf].
    apply T_bind0; [T_leaf|]. intros x. apply IH.
Qed.
Lemma algorithm_T k n : T k 0 0 (parse_algorithm n).
Proof.
  unfold parse_algorithm. cbv zeta.
  repeat match goal with |- T _ _ _ (if ?b then _ else _) => destruct b end; T_leaf.
Qed.
Lemma communities_loop_T f j a m r : T f j 0 (communities_loop tokens f a m r).
Proof.
  revert j a m r; induction f as [|f IH]; intros j a m r; [apply T_fuel0|]. cbn [communities_loop].
  apply T_peek; [T_leaf|]. intros t. destruct t; try T_leaf.
  assert (∀ j a m r, T (f - 1) j 0 (communities_loop tokens f a m r)) as IH'
    by (intros; eapply T_weaken; [apply (IH 0)|lia..]).
  repeat match goal with |- T _ _ _ (if ?b then _ else _) => destruct b end; [| | |T_leaf].
  all: apply T_bind1; [apply T_advance; lia|]; intros _; replace (S f - 1) with f by lia.
  - apply T_bind1; [T_leaf|]. intros n. apply T_bind0; [apply algorithm_T|]. intros a'. apply IH'.
  - apply T_peek; [T_leaf|]. intros v. destruct v; try T_leaf.
    destruct (0 <? n)%Z; [|T_leaf]. apply T_bind1; [apply T_advance; lia|]. intros _. apply IH'.
  - apply T_peek; [T_leaf|]. intros v. destruct v; try T_leaf;
      (apply T_bind1; [apply T_advance; lia|]; intros _; apply IH').
Qed.
End total.

(** Statements: binds whose bounds follow from the fuel. *)
Ltac T_known := first
  [ by apply where_T; lia | by apply set_clause_T; lia | by apply on_conflict_T; lia
  | by apply order_by_T; lia | by apply vector_T; lia | by apply idents_T; lia
  | by apply select_fields_T; lia | apply limit_T | apply group_by_T | apply record_ref_T
  | apply on_table_T | apply target_T | apply expect_T | apply expect_ident_T
  | apply expect_keyword_T | apply consume_keyword_T | apply expect_string_T
  | apply expect_positive_int_T | apply expect_number_T ].
Ltac T_stmt :=
  repeat match goal with
  | |- ∀ _, _ => intros ?
  | |- T _ _ _ _ (peek _ ≫= _) => apply T_peek
  | |- T _ _ _ _ (at_token _ _ ≫= _) => apply T_at
  | |- T _ _ _ _ (consume_keyword _ _ ≫= _) => apply T_consume
  | |- T _ _ _ _ (advance ≫= _) => apply T_bind1; [apply T_advance; lia|]
  | |- T _ _ _ _ (optional_keyword _ _ _ ≫= _) =>
      apply T_bind0; [apply optional_keyword_T; eapply T_drop; [T_known|lia]|]
  | |- T _ _ _ _ (_ ≫= _) => first [apply T_bind1; [T_known|]|apply T_bind0; [T_known|]]
  | |- T _ _ _ _ (mret _) => apply T_ret
  | |- T _ _ _ _ (fail _) => apply T_fail
  | |- T _ _ _ _ (if ?b then _ else _) => destruct b
  end.

Section statements.
Context (tokens : list Token).
Local Abbreviation F := (fuel tokens).

Lemma opt_id_T k j (b : bool) :
  T tokens k (if b then max j 1 else j) 0
    (if b then _ ← advance; i ← expect_ident tokens; mret (Some i) else mret None).
Proof. destruct b; T_stmt. Qed.
Lemma opt_set_T k j (b : bool) :
  k ≤ F → T tokens k (if b then max j 1 else j) 0
    (if b then _ ← advance; parse_set_clause tokens else mret []).
Proof.
  intros Hk. destruct b; [|apply T_ret]. apply T_bind1; [apply T_advance; lia|]. intros _.
  eapply T_drop; [apply set_clause_T; lia|lia].
Qed.

(** From the full fuel every statement parser returns. *)
Lemma statement_T : T tokens F 0 0 (parse_statement tokens).
Proof.
  unfold parse_statement. apply T_peek; [apply T_fail|]. intros t.
  assert (∀ j, T tokens F j 0 (parse_create tokens)) as Hcreate.
  { intros j. unfold parse_create. T_stmt.
    - apply T_bind0; [apply (opt_id_T _ 0 true)|]. T_stmt.
    - apply T_bind0; [apply (opt_id_T _ 0 false)|]. T_stmt. }
  assert (∀ j, T tokens F j 0 (parse_relate tokens)) as Hrelate.
  { intros j. unfold parse_relate. T_stmt.
    - apply T_bind0; [by apply (opt_set_T _ 0 true); lia|]. T_stmt.
    - apply T_bind0; [by apply (opt_set_T _ 0 false); lia|]. T_stmt. }
  assert (∀ j, T tokens F j 0 (parse_graph tokens)) as Hgraph.
  { intros j. unfold parse_graph. T_stmt. destruct t0; try apply T_fail; T_stmt;
      unfold parse_graph_communities, parse_graph_components, parse_graph_pagerank,
        parse_graph_centrality, parse_graph_path, parse_graph_edges; T_stmt.
    - apply T_bind0; [eapply T_weaken; [apply (communities_loop_T tokens F 0)|lia..]|].
      intros [[? ?] ?]. apply T_ret.
    - apply T_bind0; [eapply T_weaken; [apply (pagerank_loop_T tokens F 0)|lia..]|].
      intros [? ?]. T_stmt.
    - apply T_bind0; [apply T_ret|]. T_stmt.
    - apply T_bind0; [T_stmt|]. T_stmt. }
  destruct t; try apply T_fail; try apply Hcreate; try apply Hrelate; try apply Hgraph.
  - unfold parse_select. T_stmt.
  - unfold parse_delete. T_stmt.
  - unfold parse_update. T_stmt.
  - unfold parse_count. T_stmt.
  - T_stmt; unfold parse_define, parse_remove_index, parse_search, parse_vector_search, parse_hybrid,
      parse_compact; T_stmt.
    + unfold parse_define_fulltext. T_stmt.
    + unfold parse_define_vector. T_stmt.
    + unfold parse_define_btree. T_stmt.
Qed.

Lemma query_T : T tokens F 0 0 (parse_query tokens).
Proof.
  unfold parse_query. apply T_bind0; [apply statement_T|]. intros st.
  apply T_bind0; [apply outcome_T|]. intros out.
  apply T_at; (apply T_bind0; [T_stmt; first [eapply T_drop; [apply T_advance; lia|lia]|apply T_ret]|]);
    T_stmt.
Qed.
End statements.

(** Every round of the tokenizer consumes at least one character. *)
Lemma span_length {A} (p : A → bool) l : length (span p l).1 + length (span p l).2 = length l.
Proof. induction l as [|x l IH]; simpl; [done|]. destruct (p x); [|done]. destruct (span p l). simpl in *. lia. Qed.

Lemma exponent_length l e r : exponent l = Some (e, r) → length r < length l.
Proof.
  unfold exponent. destruct l as [|c l]; [done|]. destruct ((c =? 101) || (c =? 69))%N; [|done].
  assert (∀ s l', length l' ≤ length l →
    (let '(ds, r2) := span is_ascii_digit l' in
     match ds with [] => None | _ => Some (c :: s ++ ds, r2) end) = Some (e, r) → length r < length (c :: l))
    as Hs.
  { intros s l' Hl. pose proof (span_length is_ascii_digit l') as Hsp.
    destruct (span is_ascii_digit l') as [[|d ds] r2]; [done|]. intros [= _ <-]. simpl in *. lia. }
  destruct l as [|s l]; [by apply (Hs [])|].
  destruct ((s =? 43) || (s =? 45))%N; [apply (Hs [s]); simpl; lia|by apply (Hs [])].
Qed.

Lemma lex_number_length c rest t r :
  is_ascii_digit c = true ∨ (c =? 45)%N = true → lex_number (c :: rest) = Ok (t, r) →
  length r ≤ length rest.
Proof.
  unfold lex_number. intros Hc.
  assert (∀ l0 : list char, length l0 ≤ length rest ∨ (is_ascii_digit c = true ∧ l0 = c :: rest) →
    ∀ l1, l1 = (span is_ascii_digit l0).2 → length l1 ≤ length rest) as H1.
  { intros l0 Hl l1 ->. pose proof (span_length is_ascii_digit l0) as Hsp.
    destruct Hl as [Hl|[Hd ->]]; [lia|]. simpl in *. rewrite Hd in *.
    destruct (span is_ascii_digit rest). simpl in *. lia. }
  set (p0 := if (c =? 45)%N then ([c], rest) else ([], c :: rest)).
  assert (length (span is_ascii_digit p0.2).2 ≤ length rest) as H2.
  { eapply (H1 p0.2); [|done]. unfold p0. destruct (c =? 45)%N eqn:E; [by left|right].
    destruct Hc as [Hc|Hc]; [done|congruence]. }
  destruct p0 as [sign l0]. simpl in H2. destruct (span is_ascii_digit l0) as [ds l1]. simpl in H2.
  assert (∀ b (frac l2 : list char), length l2 ≤ length rest →
    (let '(is_float, ex, l3) := match exponent l2 with
                             | Some (e, r) => (true, e, r)
                             | None => (b, [], l2)
                             end in
     let s := sign ++ ds ++ frac ++ ex in
     if is_float : bool then
       match parse_f64 s with
       | Some f => Ok (Token.FloatLit f, l3)
       | None => query_error ("invalid float: " ++ string_of_chars s)%string
       end
     else
       match parse_i64 s with
       | Some n => Ok (Token.IntLit n, l3)
       | None => query_error ("invalid integer: " ++ string_of_chars s)%string
       end) = Ok (t, r) → length r ≤ length rest) as H3.
  { intros b frac l2 Hl. destruct (exponent l2) as [[e r']|] eqn:Ee; cbv zeta.
    - apply exponent_length in Ee. destruct (parse_f64 _); [|done]. intros [= _ <-]. lia.
    - destruct b; [destruct (parse_f64 _)|destruct (parse_i64 _)]; try done; by intros [= _ <-]. }
  destruct l1 as [|c1 l1]; [by apply (H3 false [])|].
  destruct (c1 =? 46)%N; [|by apply (H3 false [])].
  pose proof (span_length is_ascii_digit l1) as Hsp. destruct (span is_ascii_digit l1) as [fs l2].
  apply (H3 true (c1 :: fs)). simpl in *. lia.
Qed.

Lemma lex_step_length c rest o r : lex_step c rest = Ok (o, r) → length r ≤ length rest.
Proof.
  unfold lex_step. destruct (is_whitespace c); [by intros [= _ <-]|].
  destruct (starts_comment c rest) eqn:Hsc.
  { intros [= _ <-]. unfold starts_comment in Hsc. apply andb_true_iff in Hsc as [[Hc _]%andb_true_iff _].
    apply N.eqb_eq in Hc as ->. simpl. pose proof (span_length (λ x, negb (x =? 10)%N) rest).
    destruct (span _ rest). simpl in *. lia. }
  destruct (operator c rest) as [t|].
  { intros [= _ <-]. destruct rest; simpl; lia. }
  destruct (symbol c); [by intros [= _ <-]|].
  destruct ((c =? 39) || (c =? 34))%N.
  { pose proof (span_length (λ x, negb (x =? c)%N) rest) as Hsp.
    destruct (span _ rest) as [s [|q r']]; [done|]. intros [= _ <-]. simpl in *. lia. }
  destruct (is_ascii_digit c || _) eqn:Hd.
  { intros ([t r'] & Hl & [= _ <-])%bind_Ok_inv. eapply lex_number_length; [|exact Hl].
    apply orb_true_iff in Hd as [?|[? _]%andb_true_iff]; auto. }
  destruct (is_ascii_alphabetic c || (c =? 95)%N) eqn:Hw; [|done].
  assert (is_word_char c = true) as Hwc.
  { unfold is_word_char, is_ascii_alphanumeric. apply orb_true_iff in Hw as [->| ->]; [done|].
    by rewrite orb_true_r. }
  simpl. rewrite Hwc. pose proof (span_length is_word_char rest) as Hsp.
  destruct (span is_word_char rest). intros [= _ <-]. simpl in *. lia.
Qed.

Lemma tokenize_loop_total fuel cs : length cs ≤ fuel → ∃ r, tokenize_loop fuel cs = Some r.
Proof.
  revert cs; induction fuel as [|fuel IH]; intros [|c cs] Hf; simpl in *; try lia; eauto.
  destruct (lex_step c cs) as [[o r]|e] eqn:E; [|eauto].
  apply lex_step_length in E. destruct (IH r) as [[ts|e] ->]; [lia|eauto..].
Qed.

Lemma parse_tokens_total tokens : ∃ r, parse_tokens tokens = Some r.
Proof.
  unfold parse_tokens. pose proof (query_T tokens 0) as Hq. unfold fuel in Hq.
  specialize (Hq ltac:(lia) ltac:(lia)). destruct (parse_query tokens 0) as [[q|[e|]] p]; simpl; eauto.
  done.
Qed.

Lemma parse_Some (input : string) : ∃ r, parse input = Some r.
Proof.
  unfold parse, tokenize, tokenize_chars.
  destruct (tokenize_loop_total (length (chars input)) (chars input)) as [[ts|e] ->]; [done| |]; simpl.
  - apply parse_tokens_total.
  - eauto.
Qed.

(** C24.  Termination of the front end: on every input the tokenizer's loop ends
    within one round per character and the parser's loops and recursion within
    one step per token, so parsing always returns a query or an error. *)
Theorem parse_total (input : string) : ∃ r, parse input = Some r.
Proof. apply parse_Some. Qed.
