(* ===== verification/TokenizerRender.v ===== *)
(** * UTF-8

    Decoding and encoding of characters are inverse to each other on the
    strings and characters of Rust: the tokenizer's [Vec<char>] is a faithful
    view of the input. *)

From S2P Require Export Tokenizer.

Local Open Scope N_scope.

Lemma to_N_z2b n : n < 256 → Byte.to_N (z2b (Z.of_N n)) = n.
Proof.
  intros Hn. pose proof (b2z_z2b (Z.of_N n)) as H. unfold b2z in H. rewrite Z.mod_small in H by lia. lia.
Qed.
Lemma b2z_to_N b : Z.to_N (b2z b) = Byte.to_N b.
Proof. unfold b2z. lia. Qed.
Lemma z2b_to_N b n : n = Byte.to_N b → z2b (Z.of_N n) = b.
Proof. intros ->. apply (z2b_b2z b). Qed.

Ltac ncases :=
  repeat match goal with
  | |- context [N.ltb ?a ?b] =>
      first [rewrite (proj2 (N.ltb_lt a b)) by lia | rewrite (proj2 (N.ltb_ge a b)) by lia]
  end.
Ltac nlia := zify; Z.to_euclidean_division_equations; lia.

(** Decoding by the number of bytes the first one announces. *)
Abbreviation v := Byte.to_N.
Lemma decode1 b1 l : v b1 < 0x80 → decode_utf8 (b1 :: l) = v b1 :: decode_utf8 l.
Proof. intros H. simpl. rewrite !b2z_to_N. by ncases. Qed.
Lemma decode2 b1 b2 l :
  0x80 <= v b1 → v b1 < 0xE0 →
  decode_utf8 (b1 :: b2 :: l) = (v b1 mod 32 * 64 + v b2 mod 64) :: decode_utf8 l.
Proof. intros H H'. cbn [decode_utf8]. rewrite !b2z_to_N. by ncases. Qed.
Lemma decode3 b1 b2 b3 l :
  0xE0 <= v b1 → v b1 < 0xF0 →
  decode_utf8 (b1 :: b2 :: b3 :: l) =
  (v b1 mod 16 * 4096 + v b2 mod 64 * 64 + v b3 mod 64) :: decode_utf8 l.
Proof. intros H H'. cbn [decode_utf8]. rewrite !b2z_to_N. by ncases. Qed.
Lemma decode4 b1 b2 b3 b4 l :
  0xF0 <= v b1 →
  decode_utf8 (b1 :: b2 :: b3 :: b4 :: l) =
  (v b1 mod 8 * 262144 + v b2 mod 64 * 4096 + v b3 mod 64 * 64 + v b4 mod 64) :: decode_utf8 l.
Proof. intros H. cbn [decode_utf8]. rewrite !b2z_to_N. by ncases. Qed.

Lemma decode_encode_char c l : c < 0x200000 → decode_utf8 (encode_char c ++ l) = c :: decode_utf8 l.
Proof.
  intros Hc. unfold encode_char.
  destruct (N.ltb_spec c 0x80) as [H1|H1]; [|destruct (N.ltb_spec c 0x800) as [H2|H2];
    [|destruct (N.ltb_spec c 0x10000) as [H3|H3]]]; cbn [app].
  - rewrite decode1; rewrite !to_N_z2b by nlia; [done|nlia].
  - rewrite decode2; rewrite !to_N_z2b by nlia; [f_equal|..]; nlia.
  - rewrite decode3; rewrite !to_N_z2b by nlia; [f_equal|..]; nlia.
  - rewrite decode4; rewrite !to_N_z2b by nlia; [f_equal|..]; nlia.
Qed.
Lemma chars_string_of_chars cs : Forall (λ c, c < 0x200000) cs → chars (string_of_chars cs) = cs.
Proof.
  intros H. unfold chars, string_of_chars. rewrite as_bytes_str.
  induction H as [|c cs Hc _ IH]; [done|]. cbn [map concat]. by rewrite decode_encode_char, IH.
Qed.

Lemma in_range_spec lo hi b : in_range lo hi b = true ↔ lo <= Byte.to_N b /\ Byte.to_N b <= hi.
Proof. unfold in_range. by rewrite andb_true_iff, !N.leb_le. Qed.

Ltac utf8_hyps :=
  repeat match goal with
  | H : _ && _ = true |- _ => apply andb_true_iff in H as [? ?]
  | H : _ || _ = true |- _ => apply orb_true_iff in H as [H|H]
  | H : cont _ = true |- _ => unfold cont in H
  | H : in_range _ _ _ = true |- _ => apply in_range_spec in H as [? ?]
  end.

(** Encoding what a well-formed sequence decodes to. *)
Lemma encode2 b1 b2 :
  0xC2 <= v b1 → v b1 <= 0xDF → 0x80 <= v b2 → v b2 <= 0xBF →
  let c := v b1 mod 32 * 64 + v b2 mod 64 in encode_char c = [b1; b2] ∧ c < 0x200000.
Proof.
  intros H1 H2 H3 H4 c. assert (c = (v b1 - 0xC0) * 64 + (v b2 - 0x80)) as E by (unfold c; nlia).
  clearbody c. split; [|nlia]. unfold encode_char. ncases. repeat f_equal; apply z2b_to_N; nlia.
Qed.
Lemma encode3 b1 b2 b3 :
  0xE0 <= v b1 → v b1 <= 0xEF → 0x80 <= v b2 → v b2 <= 0xBF → 0x80 <= v b3 → v b3 <= 0xBF →
  0xE1 <= v b1 ∨ 0xA0 <= v b2 →
  let c := v b1 mod 16 * 4096 + v b2 mod 64 * 64 + v b3 mod 64 in
  encode_char c = [b1; b2; b3] ∧ c < 0x200000.
Proof.
  intros H1 H2 H3 H4 H5 H6 H7 c.
  assert (c = (v b1 - 0xE0) * 4096 + (v b2 - 0x80) * 64 + (v b3 - 0x80)) as E by (unfold c; nlia).
  clearbody c. split; [|nlia]. unfold encode_char. ncases. repeat f_equal; apply z2b_to_N; nlia.
Qed.
Lemma encode4 b1 b2 b3 b4 :
  0xF0 <= v b1 → v b1 <= 0xF4 → 0x80 <= v b2 → v b2 <= 0xBF → 0x80 <= v b3 → v b3 <= 0xBF →
  0x80 <= v b4 → v b4 <= 0xBF → 0xF1 <= v b1 ∨ 0x90 <= v b2 →
  let c := v b1 mod 8 * 262144 + v b2 mod 64 * 4096 + v b3 mod 64 * 64 + v b4 mod 64 in
  encode_char c = [b1; b2; b3; b4] ∧ c < 0x200000.
Proof.
  intros H1 H2 H3 H4 H5 H6 H7 H8 H9 c.
  assert (c = (v b1 - 0xF0) * 262144 + (v b2 - 0x80) * 4096 + (v b3 - 0x80) * 64 + (v b4 - 0x80)) as E
    by (unfold c; nlia).
  clearbody c. split; [|nlia]. unfold encode_char. ncases. repeat f_equal; apply z2b_to_N; nlia.
Qed.

Abbreviation faithful l :=
  (concat (map encode_char (decode_utf8 l)) = l%list ∧ Forall (λ c, c < 0x200000) (decode_utf8 l)).
Lemma faithful_cons c bs l l' :
  decode_utf8 (bs ++ l) = c :: decode_utf8 l → encode_char c = bs ∧ c < 0x200000 → l' = bs ++ l →
  faithful l → faithful l'.
Proof.
  intros Hd [He Hc] -> [H1 H2]. rewrite Hd. cbn [map concat]. rewrite He, H1. split; [done|by constructor].
Qed.

Lemma encode_decode l : utf8_valid l = true → faithful l.
Proof.
  remember (length l) as n eqn:Hn. revert l Hn.
  induction (lt_wf n) as [n _ IH]; intros l -> Hv. destruct l as [|b1 l]; [done|].
  assert (∀ l', (length l' <= length l)%nat → utf8_valid l' = true → faithful l') as IH'
    by (intros; eapply IH; [|done|done]; simpl; lia).
  clear IH. cbn [utf8_valid] in Hv.
  destruct (in_range 0 127 b1) eqn:E1.
  { utf8_hyps. eapply (faithful_cons (v b1) [b1] l); [cbn [app]; apply decode1; lia| |done|by apply IH'].
    split; [|nlia]. unfold encode_char. ncases. f_equal. by apply z2b_to_N. }
  destruct l as [|b2 l]; [done|]. destruct (in_range 194 223 b1) eqn:E2.
  { utf8_hyps. eapply (faithful_cons _ [b1; b2] l); [apply decode2; lia|by apply encode2|done|].
    apply IH'; [simpl; lia|done]. }
  destruct l as [|b3 l]; [done|]. cbv zeta in Hv.
  assert (0xE0 <= v b1 → v b1 <= 0xEF → cont b2 = true → 0xE1 <= v b1 ∨ 0xA0 <= v b2 →
    cont b3 && utf8_valid l = true → faithful (b1 :: b2 :: b3 :: l)) as H3.
  { intros. utf8_hyps. eapply (faithful_cons _ [b1; b2; b3] l); [apply decode3; lia|by apply encode3|done|].
    apply IH'; [simpl; lia|done]. }
  assert (∀ b4 l', l = b4 :: l' → 0xF0 <= v b1 → v b1 <= 0xF4 → cont b2 = true →
    0xF1 <= v b1 ∨ 0x90 <= v b2 →
    cont b3 && cont b4 && utf8_valid l' = true → faithful (b1 :: b2 :: b3 :: l)) as H4.
  { intros b4 l' -> ?????. utf8_hyps.
    eapply (faithful_cons _ [b1; b2; b3; b4] l'); [apply decode4; lia|by apply encode4|done|].
    apply IH'; [simpl; lia|done]. }
  clear IH' E1 E2.
  repeat match type of Hv with
  | (if ?c then _ else _) = true => destruct c eqn:?
  | match ?k with _ => _ end = true => destruct k as [|b4 l']; [done|]
  end; try done; apply andb_true_iff in Hv as [Hb2 Hv].
  all: first [eapply H4; [reflexivity|..] | apply H3]; try done; clear Hv H3 H4; utf8_hyps;
    unfold cont; rewrite ?in_range_spec; lia.
Qed.

(** A Rust [String] is the encoding of its characters. *)
Lemma string_of_chars_chars s : is_str s → string_of_chars (chars s) = s.
Proof.
  intros H. unfold string_of_chars, chars. rewrite (proj1 (encode_decode _ H)). apply str_as_bytes.
Qed.
Lemma chars_bound s : is_str s → Forall (λ c, c < 0x200000) (chars s).
Proof. intros H. apply (encode_decode _ H). Qed.

Lemma as_bytes_app (a b : string) : as_bytes (a ++ b)%string = as_bytes a ++ as_bytes b.
Proof.
  unfold as_bytes, list_byte_of_string. rewrite <- map_app. f_equal. induction a as [|c a IH]; [done|].
  change (String c a ++ b)%string with (String c (a ++ b)). simpl. by f_equal.
Qed.

(** * Tokenizing inverts rendering

    [render] writes tokens as text, one space after each; tokenizing the text
    gives the tokens back. *)

Local Open Scope N_scope.

(** ** Rendering *)
Definition digit_char (d : Z) : char := Z.to_N (48 + d).
Fixpoint dec (fuel : nat) (n : Z) (acc : list char) : list char :=
  match fuel with
  | O => acc
  | S fuel =>
      if (n <? 10)%Z then digit_char n :: acc
      else dec fuel (n / 10) (digit_char (n mod 10) :: acc)
  end.
Definition show_int (n : Z) : list char :=
  (if (n <? 0)%Z then [45] else []) ++ dec 20 (Z.abs n) [].
Definition quote_for (s : string) : char := if existsb (N.eqb 39) (chars s) then 34 else 39.

Definition render_token (t : Token) : list char :=
  match t with
  | Token.Ident s => chars s
  | Token.StringLit s => quote_for s :: chars s ++ [quote_for s]
  | Token.IntLit n => show_int n
  | Token.FloatLit _ => []
  | Token.Star => [42] | Token.Comma => [44] | Token.Semicolon => [59] | Token.Colon => [58]
  | Token.Eq => [61] | Token.Ne => [33; 61] | Token.Gt => [62] | Token.Lt => [60]
  | Token.Gte => [62; 61] | Token.Lte => [60; 61] | Token.Arrow => [45; 62] | Token.BackArrow => [60; 45]
  | Token.Dot => [46] | Token.LBracket => [91] | Token.RBracket => [93]
  | Token.LParen => [40] | Token.RParen => [41]
  | t => match find (λ kt : string * Token, bool_decide (kt.2 = t)) keywords with
         | Some (s, _) => chars s
         | None => []
         end
  end.
Definition render (ts : list Token) : list char := flat_map (λ t, render_token t ++ [32]) ts.
Definition render_text (ts : list Token) : string := string_of_chars (render ts).

(** Tokens with a text: identifiers are words that are no keywords, strings
    avoid one of the two quotes, integers are [i64]s; floats are left out. *)
Definition renderable (t : Token) : Prop :=
  match t with
  | Token.Ident s =>
      is_str s ∧ keyword s = Token.Ident s ∧ forallb is_word_char (chars s) = true ∧
      match chars s with c :: _ => is_ascii_digit c = false | [] => False end
  | Token.StringLit s => is_str s ∧ quote_for s ∉ chars s
  | Token.IntLit n => (- 2 ^ 63 ≤ n < 2 ^ 63)%Z
  | Token.FloatLit _ => False
  | _ => True
  end.

(** ** Characters *)
Ltac char_tests :=
  repeat match goal with
  | |- context [N.eqb ?a ?b] =>
      first [rewrite (proj2 (N.eqb_neq a b)) by lia | rewrite (proj2 (N.eqb_eq a b)) by lia]
  | |- context [N.leb ?a ?b] =>
      first [rewrite (proj2 (N.leb_gt a b)) by lia | rewrite (proj2 (N.leb_le a b)) by lia]
  end.
Ltac char_hyp H :=
  unfold is_word_char, is_ascii_alphanumeric, is_ascii_alphabetic, is_ascii_digit in H;
  rewrite ?orb_true_iff, ?andb_true_iff, ?orb_false_iff, ?andb_false_iff,
    ?N.leb_le, ?N.leb_gt, ?N.eqb_eq, ?N.eqb_neq in H.

Lemma span_app {A} (p : A → bool) l x rest :
  forallb p l = true → p x = false → span p (l ++ x :: rest) = (l, x :: rest).
Proof.
  intros Hl Hx. induction l as [|y l IH]; simpl in *; [by rewrite Hx|].
  apply andb_true_iff in Hl as [-> Hl]. by rewrite IH.
Qed.

(** ** Numbers *)
Lemma digit_char_digit d : (0 ≤ d < 10)%Z → is_ascii_digit (digit_char d) = true.
Proof. intros H. unfold is_ascii_digit, digit_char. by char_tests. Qed.
Lemma dec_digits f : ∀ n acc,
  (0 ≤ n)%Z → forallb is_ascii_digit acc = true → forallb is_ascii_digit (dec f n acc) = true.
Proof.
  induction f as [|f IH]; intros n acc Hn Ha; cbn [dec]; [done|].
  destruct (Z.ltb_spec n 10) as [H|H]; cbn [forallb].
  - by rewrite digit_char_digit, Ha by lia.
  - apply IH; [apply Z.div_pos; lia|]. cbn [forallb].
    by rewrite digit_char_digit, Ha by (apply Z.mod_pos_bound; lia).
Qed.
Lemma dec_value f : ∀ n acc,
  (0 ≤ n < 10 ^ Z.of_nat (S f))%Z →
  digits_val (dec (S f) n acc) = fold_left (λ a d, a * 10 + digit_val d)%Z acc n.
Proof.
  assert (∀ d, (0 ≤ d)%Z → digit_val (digit_char d) = d) as Hd
    by (intros; unfold digit_val, digit_char; lia).
  unfold digits_val. induction f as [|f IH]; intros n acc Hn; cbn [dec];
    (destruct (Z.ltb_spec n 10) as [H|H]; [cbn [fold_left]; rewrite Hd by lia; f_equal; lia|]).
  - simpl in Hn. lia.
  - change (if (n / 10 <? 10)%Z then digit_char (n / 10) :: digit_char (n mod 10) :: acc
            else dec f (n / 10 / 10) (digit_char (n / 10 mod 10) :: digit_char (n mod 10) :: acc))
      with (dec (S f) (n / 10) (digit_char (n mod 10) :: acc)).
    rewrite IH.
    + cbn [fold_left]. rewrite Hd by (apply Z.mod_pos_bound; lia). f_equal.
      pose proof (Z.div_mod n 10). lia.
    + split; [apply Z.div_pos; lia|]. apply Z.div_lt_upper_bound; [lia|].
      rewrite <- Z.pow_succ_r by lia. rewrite <- Nat2Z.inj_succ. lia.
Qed.
Lemma dec_cons f n acc : ∃ d ds, dec (S f) n acc = d :: ds.
Proof.
  revert n acc; induction f as [|f IH]; intros n acc; cbn [dec]; destruct (n <? 10)%Z; eauto.
Qed.

(** The texts [i64] and [lex_number] read. *)
Lemma parse_show_int n :
  (- 2 ^ 63 ≤ n < 2 ^ 63)%Z → parse_i64 (show_int n) = Some n.
Proof.
  intros Hn. unfold parse_i64, show_int. destruct (dec_cons 19 (Z.abs n) []) as (d & ds & E).
  pose proof (dec_digits 20 (Z.abs n) [] ltac:(lia) eq_refl) as Hd. rewrite E in Hd.
  assert (digits_val (dec 20 (Z.abs n) []) = Z.abs n) as Hv
    by (rewrite dec_value by (change (10 ^ Z.of_nat 20)%Z with 100000000000000000000%Z; lia); done).
  assert (is_ascii_digit d = true) as Hdig by (cbn [forallb] in Hd; by apply andb_true_iff in Hd as [? _]).
  char_hyp Hdig.
  assert (split_sign ((if (n <? 0)%Z then [45] else []) ++ d :: ds) = ((n <? 0)%Z, d :: ds)) as Hs.
  { destruct (n <? 0)%Z; [done|]. cbn [app split_sign]. by char_tests. }
  rewrite E, Hs, Hd. rewrite bool_decide_eq_false_2 by done. cbn [orb negb]. rewrite <- E, Hv.
  destruct (Z.ltb_spec n 0) as [H|H]; rewrite bool_decide_eq_true_2 by lia; f_equal; lia.
Qed.

Lemma lex_show_int n rest :
  (- 2 ^ 63 ≤ n < 2 ^ 63)%Z →
  lex_number (show_int n ++ 32 :: rest) = Ok (Token.IntLit n, 32 :: rest).
Proof.
  intros Hn. pose proof (parse_show_int n Hn) as Hp. unfold show_int in *.
  destruct (dec_cons 19 (Z.abs n) []) as (d & ds & E).
  pose proof (dec_digits 20 (Z.abs n) [] ltac:(lia) eq_refl) as Hd. rewrite E in *.
  assert (is_ascii_digit d = true) as Hdig by (cbn [forallb] in Hd; by apply andb_true_iff in Hd as [? _]).
  char_hyp Hdig. unfold lex_number. rewrite <- app_assoc.
  assert (match ((if (n <? 0)%Z then [45] else []) ++ (d :: ds) ++ 32 :: rest) with
    | c :: r => if c =? 45 then ([c], r) else ([], (if (n <? 0)%Z then [45] else []) ++ (d :: ds) ++ 32 :: rest)
    | [] => ([], (if (n <? 0)%Z then [45] else []) ++ (d :: ds) ++ 32 :: rest) end
    = (if (n <? 0)%Z then [45] else [], (d :: ds) ++ 32 :: rest)) as ->.
  { destruct (n <? 0)%Z; [done|]. cbn [app]. by char_tests. }
  rewrite span_app by done. cbn -[parse_i64 app]. rewrite !app_nil_r, Hp. done.
Qed.

(** ** One token *)
Lemma lex_ident s rest :
  renderable (Token.Ident s) → ∃ c cs, chars s = c :: cs ∧
    lex_step c (cs ++ 32 :: rest) = Ok (Some (Token.Ident s), 32 :: rest).
Proof.
  intros (Hs & Hk & Hw & Hc). destruct (chars s) as [|c cs] eqn:E; [done|]. exists c, cs. split; [done|].
  assert (is_word_char c = true) as Hwc by (cbn [forallb] in Hw; by apply andb_true_iff in Hw as [? _]).
  assert (is_ascii_alphabetic c || (c =? 95) = true) as Ha.
  { unfold is_word_char, is_ascii_alphanumeric in Hwc. rewrite Hc, orb_false_r in Hwc. done. }
  pose proof Ha as Hr. char_hyp Hr.
  assert (is_whitespace c = false) as Hws by (unfold is_whitespace; by char_tests).
  assert (starts_comment c (cs ++ 32 :: rest) = false) as Hcm
    by (unfold starts_comment; by char_tests).
  assert (operator c (cs ++ 32 :: rest) = None) as Hop by (unfold operator; by char_tests).
  assert (symbol c = None) as Hsy by (unfold symbol; by char_tests).
  assert (is_ascii_digit c || (c =? 45) && match cs ++ 32 :: rest with d :: _ => is_ascii_digit d | [] => false end
    = false) as Hnum by (rewrite Hc; by char_tests).
  assert ((c =? 39) || (c =? 34) = false) as Hq by (by char_tests).
  unfold lex_step. rewrite Hws, Hcm, Hop, Hsy, Hq, Hnum, Ha.
  change (c :: cs ++ 32 :: rest) with ((c :: cs) ++ 32 :: rest).
  rewrite span_app by done. rewrite <- E, string_of_chars_chars by done. by rewrite Hk.
Qed.
Lemma lex_string s rest :
  renderable (Token.StringLit s) →
  lex_step (quote_for s) ((chars s ++ [quote_for s]) ++ 32 :: rest) =
  Ok (Some (Token.StringLit s), 32 :: rest).
Proof.
  intros [Hs Hq]. rewrite <- app_assoc. cbn [app].
  assert (quote_for s = 39 ∨ quote_for s = 34) as Hc by (unfold quote_for; destruct existsb; auto).
  assert (span (λ x, negb (x =? quote_for s)) (chars s ++ quote_for s :: 32 :: rest) =
    (chars s, quote_for s :: 32 :: rest)) as Hsp.
  { apply span_app; [|by rewrite N.eqb_refl]. apply forallb_forall. intros x Hx.
    apply list_elem_of_In in Hx. apply negb_true_iff, N.eqb_neq. by intros ->. }
  revert Hsp. generalize (chars s ++ quote_for s :: 32 :: rest). intros l Hsp.
  assert (string_of_chars (chars s) = s) as Hsc by (by apply string_of_chars_chars).
  unfold lex_step. destruct Hc as [Hc|Hc]; rewrite Hc in *; cbn -[span string_of_chars];
    rewrite Hsp, Hsc; done.
Qed.
Lemma lex_int n rest :
  renderable (Token.IntLit n) → ∃ c cs, show_int n = c :: cs ∧
    lex_step c (cs ++ 32 :: rest) = Ok (Some (Token.IntLit n), 32 :: rest).
Proof.
  intros Hn. pose proof (lex_show_int n rest Hn) as Hl. unfold show_int in *.
  destruct (dec_cons 19 (Z.abs n) []) as (d & ds & E).
  pose proof (dec_digits 20 (Z.abs n) [] ltac:(lia) eq_refl) as Hd. rewrite E in *.
  assert (is_ascii_digit d = true) as Hdig by (cbn [forallb] in Hd; by apply andb_true_iff in Hd as [? _]).
  pose proof Hdig as Hr. char_hyp Hr.
  destruct (n <? 0)%Z; eexists _, _; (split; [reflexivity|]); cbn [app] in *; unfold lex_step.
  - assert (starts_comment 45 (d :: ds ++ 32 :: rest) = false) as ->
      by (unfold starts_comment; cbn [next_is]; by char_tests).
    assert (operator 45 (d :: ds ++ 32 :: rest) = None) as ->
      by (unfold operator; cbn [next_is]; by char_tests).
    rewrite Hdig. cbn -[lex_number]. by rewrite Hl.
  - assert (is_whitespace d = false) as -> by (unfold is_whitespace; by char_tests).
    assert (starts_comment d (ds ++ 32 :: rest) = false) as -> by (unfold starts_comment; by char_tests).
    assert (operator d (ds ++ 32 :: rest) = None) as -> by (unfold operator; by char_tests).
    assert (symbol d = None) as -> by (unfold symbol; by char_tests).
    assert ((d =? 39) || (d =? 34) = false) as -> by (by char_tests).
    rewrite Hdig. cbn -[lex_number]. by rewrite Hl.
Qed.
Lemma lex_token t rest :
  renderable t → ∃ c cs, render_token t = c :: cs ∧
    lex_step c (cs ++ 32 :: rest) = Ok (Some t, 32 :: rest).
Proof.
  intros Hr. destruct t; try done; try (eexists _, _; split; [reflexivity|]; reflexivity).
  - by apply lex_ident.
  - eexists _, _. split; [reflexivity|]. by apply lex_string.
  - by apply lex_int.
Qed.

(** ** Whole texts *)
Lemma lex_space r : lex_step 32 r = Ok (None, r).
Proof. done. Qed.
Lemma tokenize_loop_render ts : ∀ fuel,
  Forall renderable ts → (length (render ts) ≤ fuel)%nat → tokenize_loop fuel (render ts) = Some (Ok ts).
Proof.
  induction ts as [|t ts IH]; intros fuel Hr Hf; [by destruct fuel|].
  inversion Hr as [|? ? Ht Hts]; subst. destruct (lex_token t (render ts) Ht) as (c & cs & E & Hl).
  unfold render in *. cbn [flat_map] in *. rewrite E, <- app_assoc in *. cbn [app length] in *.
  rewrite length_app in Hf. cbn [length] in Hf.
  destruct fuel as [|[|fuel]]; [lia..|]. cbn [tokenize_loop]. rewrite Hl.
  rewrite lex_space. cbn iota beta.
  rewrite (IH fuel Hts) by lia. done.
Qed.
Lemma ascii_char_bound c : is_word_char c = true → c < 0x200000.
Proof. intros H. char_hyp H. lia. Qed.
Lemma render_token_bound t : renderable t → Forall (λ c, c < 0x200000) (render_token t).
Proof.
  intros Hr. destruct t as [| | | | | | | | | | | | | | | | | | | s|s|n| | | | | | | | | | | | | | | | | | | | |].
  all: try match goal with |- Forall _ (render_token ?t) =>
    lazymatch t with
    | Token.Ident _ => fail | Token.StringLit _ => fail | Token.IntLit _ => fail | Token.FloatLit _ => done
    | _ => compute_decide
    end end.
  - by apply chars_bound, Hr.
  - destruct Hr as [Hs _]. cbn [render_token]. assert (quote_for s < 0x200000)
      by (unfold quote_for; destruct existsb; lia).
    constructor; [done|]. apply Forall_app. split; [by apply chars_bound|by constructor].
  - cbn [render_token]. unfold show_int. apply Forall_app. split.
    { destruct (n <? 0)%Z; by repeat constructor. }
    pose proof (dec_digits 20 (Z.abs n) [] ltac:(lia) eq_refl) as Hd.
    rewrite forallb_forall in Hd. apply Forall_forall. intros c Hc%list_elem_of_In. specialize (Hd c Hc).
    char_hyp Hd. lia.
Qed.
Lemma chars_render_text ts : Forall renderable ts → chars (render_text ts) = render ts.
Proof.
  intros Hr. apply chars_string_of_chars. unfold render. induction Hr as [|t ts Ht _ IH]; [constructor|].
  cbn [flat_map]. apply Forall_app. split; [|done]. apply Forall_app.
  split; [by apply render_token_bound|]. by repeat constructor.
Qed.

(** C23.  The tokenizer inverts rendering: any sequence of keywords, symbols,
    operators, identifiers that are no keywords, strings (of any well-formed
    UTF-8 text that avoids one of the two quotes) and [i64] literals,
    negative ones included, is read back from its text exactly. *)
Theorem tokenize_render ts :
  Forall renderable ts → tokenize (render_text ts) = Some (Ok ts).
Proof.
  intros Hr. unfold tokenize, tokenize_chars. rewrite chars_render_text by done.
  by apply tokenize_loop_render.
Qed.

Definition example_tokens : list Token :=
  [Token.Update; Token.Ident "user"; Token.Set_; Token.Ident "name"; Token.Eq; Token.StringLit "it's";
   Token.Comma; Token.Ident "_n"; Token.Eq; Token.IntLit (-9223372036854775808); Token.Arrow; Token.Lt;
   Token.BackArrow; Token.None_].
Lemma tokenize_render_witness : tokenize (render_text example_tokens) = Some (Ok example_tokens).
Proof.
  apply (tokenize_render example_tokens). repeat constructor; try done; try (by vm_compute).
  - apply (bool_decide_unpack _). by vm_compute.
Defined.
