(* ===== verification/Cache.v ===== *)
(** * The compute cache (crates/query/src/cache.rs)

    Write-version counters and the cache of formatted results.  The [lru]
    crate is an interface with the laws its documentation gives; an overflow
    of [usize] arithmetic and running out of fuel are [None]. *)

From stdpp Require Import gmap.
From S2P Require Export Ast Tokenizer.
Local Open Scope Z_scope.

#[export] Instance OutcomeFormat_eq_dec : EqDecision OutcomeFormat.
Proof. solve_decision. Defined.

(** ** [WriteVersions] *)
Abbreviation TableKey := (string * string * string)%type.
Abbreviation WriteVersions := (gmap TableKey Z).

Module Versions.
Definition default : WriteVersions := ∅.
Definition table_key (ns db table : string) : TableKey := (ns, db, table).
Definition current (self : WriteVersions) (ns db table : string) : Z :=
  match self !! table_key ns db table with Some c => c | None => 0 end.
(** Both paths of [bump]: [fetch_add] on the counter, 0 when it is new. *)
Definition bump (self : WriteVersions) (ns db table : string) : WriteVersions :=
  <[table_key ns db table := as_u64 (current self ns db table + 1)]> self.
End Versions.

(** ** Keys *)
Inductive CacheKind :=
  | KCommunities (algorithm : string) (max_iterations : Z) (resolution_bits : Z)
  | KComponents
  | KPageRank (damping_bits : Z) (max_iterations : Z) (limit : option Z)
  | KCentrality (mode : string) (limit : option Z).
#[export] Instance CacheKind_eq_dec : EqDecision CacheKind.
Proof. solve_decision. Defined.

Definition kind_communities (algorithm : string) (max_iterations : Z) (resolution : f64) : CacheKind :=
  KCommunities algorithm max_iterations (to_bits resolution).
Definition kind_pagerank (damping : f64) (max_iterations : Z) (limit : option Z) : CacheKind :=
  KPageRank (to_bits damping) max_iterations limit.
Definition kind_centrality (mode : string) (limit : option Z) : CacheKind := KCentrality mode limit.

Record CacheKey := MkCacheKey {
  ck_ns : string;
  ck_db : string;
  ck_table : string;
  ck_kind : CacheKind;
  ck_outcome : OutcomeFormat
}.
#[export] Instance CacheKey_eq_dec : EqDecision CacheKey.
Proof. solve_decision. Defined.

Record CacheEntry := MkCacheEntry {
  ce_payload : string;
  ce_version : Z;
  ce_bytes : Z
}.

Definition DEFAULT_CACHE_CAPACITY : Z := 5000.
Definition DEFAULT_CACHE_MAX_BYTES : Z := 1024 * 1024 * 1024.

(** ** The [lru] crate *)
Class Lru (L K V : Type) := {
  lru_new : Z → L;
  lru_cap : L → Z;
  lru_len : L → Z;
  lru_is_empty : L → bool;
  lru_get : K → L → option V * L;
  lru_pop : K → L → option V * L;
  lru_pop_lru : L → option (K * V) * L;
  lru_put : K → V → L → option V * L
}.

(** Association lists, the most recently used entry first. *)
Section entries.
Context {K V : Type} `{EqDecision K}.
Fixpoint alookup (k : K) (l : list (K * V)) : option V :=
  match l with
  | [] => None
  | (k', v) :: l' => if decide (k' = k) then Some v else alookup k l'
  end.
Fixpoint aremove (k : K) (l : list (K * V)) : list (K * V) :=
  match l with
  | [] => []
  | (k', v) :: l' => if decide (k' = k) then aremove k l' else (k', v) :: aremove k l'
  end.
End entries.

Class LruView (L K V : Type) := lru_items : L → list (K * V).
Class LruLaws (L K V : Type) `{EqDecision K, Lru L K V, LruView L K V} : Prop := {
  new_law : ∀ n : Z, 0 < n → lru_items (lru_new n : L) = [] ∧ lru_cap (lru_new n : L) = n;
  len_law : ∀ l : L, lru_len l = Z.of_nat (length (lru_items l));
  is_empty_law : ∀ l : L, lru_is_empty l = true ↔ lru_items l = [];
  get_cap : ∀ k (l : L), lru_cap (lru_get k l).2 = lru_cap l;
  get_items : ∀ k (l : L), (lru_get k l).1 = alookup k (lru_items l) ∧
    lru_items (lru_get k l).2 =
      match alookup k (lru_items l) with
      | Some v => (k, v) :: aremove k (lru_items l)
      | None => lru_items l
      end;
  pop_cap : ∀ k (l : L), lru_cap (lru_pop k l).2 = lru_cap l;
  pop_items : ∀ k (l : L), (lru_pop k l).1 = alookup k (lru_items l) ∧
    lru_items (lru_pop k l).2 = aremove k (lru_items l);
  pop_lru_cap : ∀ l : L, lru_cap (lru_pop_lru l).2 = lru_cap l;
  pop_lru_items : ∀ l : L, (lru_pop_lru l).1 = last (lru_items l) ∧
    lru_items (lru_pop_lru l).2 = removelast (lru_items l);
  put_cap : ∀ k v (l : L), lru_cap (lru_put k v l).2 = lru_cap l;
  put_items : ∀ k v (l : L), lru_items (lru_put k v l).2 =
    (k, v) :: match alookup k (lru_items l) with
              | Some _ => aremove k (lru_items l)
              | None => if lru_cap l <=? Z.of_nat (length (lru_items l)) then removelast (lru_items l)
                        else lru_items l
              end
}.

(** ** [ComputeCache] *)
Definition checked_usize (n : Z) : option Z := if n <? 2 ^ 64 then Some n else None.
Definition saturating_sub (a b : Z) : Z := Z.max 0 (a - b).

Section cache.
Context {L : Type} `{Lru L CacheKey CacheEntry}.

Record ComputeCache := MkCache {
  cc_lru : L;
  cc_current_bytes : Z;
  cc_max_bytes : Z
}.

Definition with_bounds (capacity max_bytes : Z) : ComputeCache :=
  MkCache (lru_new (Z.max capacity 1)) 0 max_bytes.
Definition cache_new (capacity : Z) : ComputeCache := with_bounds capacity DEFAULT_CACHE_MAX_BYTES.

Definition cache_get (self : ComputeCache) (key : CacheKey) (current_version : Z) :
    option string * ComputeCache :=
  let '(o, lru) := lru_get key (cc_lru self) in
  let self' := MkCache lru (cc_current_bytes self) (cc_max_bytes self) in
  match o with
  | Some entry => if ce_version entry =? current_version then (Some (ce_payload entry), self') else (None, self')
  | None => (None, self')
  end.

(** The item capacity or the byte limit is exceeded. *)
Definition exceeded (entry_bytes : Z) (self : ComputeCache) : option bool :=
  if lru_cap (cc_lru self) <=? lru_len (cc_lru self) then Some true
  else total ← checked_usize (cc_current_bytes self + entry_bytes);
       Some (cc_max_bytes self <? total).

(** The eviction loop; each round shortens the cache. *)
Fixpoint evict (fuel : nat) (entry_bytes : Z) (self : ComputeCache) : option ComputeCache :=
  if lru_is_empty (cc_lru self) then Some self
  else
    full ← exceeded entry_bytes self;
    if full : bool then
      match fuel with
      | O => None
      | S fuel =>
          match lru_pop_lru (cc_lru self) with
          | (Some (_, popped), lru) =>
              evict fuel entry_bytes
                (MkCache lru (saturating_sub (cc_current_bytes self) (ce_bytes popped)) (cc_max_bytes self))
          | (None, lru) => Some (MkCache lru (cc_current_bytes self) (cc_max_bytes self))
          end
      end
    else Some self.

Definition cache_insert (self : ComputeCache) (key : CacheKey) (payload : string) (version : Z) :
    option ComputeCache :=
  entry_bytes ← checked_usize (Z.of_nat (String.length payload) + 128);
  let '(old, lru) := lru_pop key (cc_lru self) in
  let current := match old with
                 | Some old => saturating_sub (cc_current_bytes self) (ce_bytes old)
                 | None => cc_current_bytes self
                 end in
  self ← evict (Z.to_nat (lru_len lru)) entry_bytes (MkCache lru current (cc_max_bytes self));
  current ← checked_usize (cc_current_bytes self + entry_bytes);
  let '(_, lru) := lru_put key (MkCacheEntry payload version entry_bytes) (cc_lru self) in
  Some (MkCache lru current (cc_max_bytes self)).

Definition cache_len (self : ComputeCache) : Z := lru_len (cc_lru self).
Definition cache_is_empty (self : ComputeCache) : bool := lru_is_empty (cc_lru self).
Definition current_bytes (self : ComputeCache) : Z := cc_current_bytes self.
End cache.
#[global] Arguments ComputeCache : clear implicits.

(** ** Size texts *)
Fixpoint trim_start (s : list char) : list char :=
  match s with
  | c :: s' => if is_whitespace c then trim_start s' else s
  | [] => []
  end.
Definition trim (s : list char) : list char := reverse (trim_start (reverse (trim_start s))).

(** [s.parse::<usize>()]: decimal digits with an optional plus sign, in range. *)
Definition parse_usize (s : list char) : option Z :=
  let ds := match s with c :: r => if (c =? 43)%N then r else s | [] => s end in
  if bool_decide (ds = []) || negb (forallb is_ascii_digit ds) then None
  else if digits_val ds <? 2 ^ 64 then Some (digits_val ds) else None.

(** [None] is a panic of [split_at] inside a character or an overflow. *)
Definition parse_bytes_str (s : list char) : option (option Z) :=
  let trimmed := trim s in
  if bool_decide (trimmed = []) then Some None
  else
    match parse_usize trimmed with
    | Some raw => Some (Some raw)
    | None =>
        unit ← last trimmed;
        if (0x80 <=? unit)%N then None
        else
          match parse_usize (trim (removelast trimmed)) with
          | None => Some None
          | Some num =>
              let scaled k := n ← checked_usize (num * k); Some (Some n) in
              if (unit =? 71)%N || (unit =? 103)%N then scaled (1024 * 1024 * 1024)
              else if (unit =? 77)%N || (unit =? 109)%N then scaled (1024 * 1024)
              else if (unit =? 75)%N || (unit =? 107)%N then scaled 1024
              else Some None
          end
    end.

(** [from_env] on the values of the two variables. *)
Definition from_env {L} `{Lru L CacheKey CacheEntry} (capacity max_bytes : option string) : option (ComputeCache L) :=
  let cap := match capacity with Some s => parse_usize (chars s) | None => None end in
  mb ← match max_bytes with Some s => parse_bytes_str (chars s) | None => Some None end;
  Some (with_bounds (default DEFAULT_CACHE_CAPACITY cap) (default DEFAULT_CACHE_MAX_BYTES mb)).

(** ** A list as an [lru] cache *)
Record list_lru (K V : Type) := MkListLru { ll_cap : Z; ll_items : list (K * V) }.
#[global] Arguments MkListLru {_ _} _ _.
#[global] Arguments ll_cap {_ _} _.
#[global] Arguments ll_items {_ _} _.

Section list_lru.
Context {K V : Type} `{EqDecision K}.
#[export] Instance list_lru_view : LruView (list_lru K V) K V := ll_items.
#[export] Instance list_lru_lru : Lru (list_lru K V) K V := {|
  lru_new n := MkListLru n [];
  lru_cap := ll_cap;
  lru_len l := Z.of_nat (length (ll_items l));
  lru_is_empty l := match ll_items l with [] => true | _ => false end;
  lru_get k l := match alookup k (ll_items l) with
                 | Some v => (Some v, MkListLru (ll_cap l) ((k, v) :: aremove k (ll_items l)))
                 | None => (None, l)
                 end;
  lru_pop k l := (alookup k (ll_items l), MkListLru (ll_cap l) (aremove k (ll_items l)));
  lru_pop_lru l := (last (ll_items l), MkListLru (ll_cap l) (removelast (ll_items l)));
  lru_put k v l := (alookup k (ll_items l), MkListLru (ll_cap l) ((k, v) ::
    match alookup k (ll_items l) with
    | Some _ => aremove k (ll_items l)
    | None => if ll_cap l <=? Z.of_nat (length (ll_items l)) then removelast (ll_items l) else ll_items l
    end))
|}.
#[export] Instance list_lru_laws : LruLaws (list_lru K V) K V.
Proof.
  split; unfold lru_items, list_lru_view; simpl; try done.
  - intros l. by destruct (ll_items l).
  - intros k l. by destruct (alookup k (ll_items l)).
  - intros k l. by destruct (alookup k (ll_items l)).
Qed.
End list_lru.

Example parse_bytes_ex :
  map (parse_bytes_str ∘ chars) ["512M"; " 2 k "; "77"; "G"; "17179869184G"]%string =
  [Some (Some 536870912); Some (Some 2048); Some (Some 77); Some None; None].
Proof. vm_compute. reflexivity. Qed.
