(* ===== verification/CacheSpec.v ===== *)
(** * The cache keeps the most recent results that fit (crates/query/src/cache.rs)

    The entry count and the byte total stay within their bounds, no [usize]
    operation overflows, and an insertion keeps the longest run of recently
    used entries that fits beside the new one. *)

From stdpp Require Import gmap.
From S2P Require Export Cache.
Local Open Scope Z_scope.

(** ** Association lists *)
Section alist.
Context {K V : Type} `{EqDecision K}.
Implicit Types (l : list (K * V)).

Lemma aremove_sublist k l : sublist (aremove k l) l.
Proof.
  induction l as [|[k' v] l IH]; simpl; [constructor|]. case_decide; [by constructor|by constructor].
Qed.
Lemma elem_of_aremove k l k' v : (k', v) ∈ aremove k l ↔ k' ≠ k ∧ (k', v) ∈ l.
Proof.
  induction l as [|[k1 v1] l IH]; simpl; [by rewrite !elem_of_nil; naive_solver|].
  case_decide; rewrite !elem_of_cons, IH; naive_solver.
Qed.
Lemma aremove_keys k l : k ∉ map fst (aremove k l).
Proof. intros ([k' v] & -> & (Hne & _)%elem_of_aremove)%list_elem_of_fmap. done. Qed.
Lemma alookup_elem k v l : alookup k l = Some v → (k, v) ∈ l.
Proof.
  induction l as [|[k1 v1] l IH]; simpl; [done|]. case_decide; [intros [= ->]; subst; left|right; auto].
Qed.
Lemma alookup_none k l : alookup k l = None → aremove k l = l.
Proof. induction l as [|[k1 v1] l IH]; simpl; [done|]. case_decide; [done|]. intros ?. f_equal. auto. Qed.
Lemma alookup_aremove k l : alookup k (aremove k l) = None.
Proof. induction l as [|[k1 v1] l IH]; simpl; [done|]. case_decide; [done|]. simpl. by rewrite decide_False. Qed.
Lemma alookup_take k n l : alookup k l = None → alookup k (take n l) = None.
Proof.
  revert n. induction l as [|[k1 v1] l IH]; intros [|n]; simpl; try done. case_decide; [done|auto].
Qed.
Lemma last_removelast {A} (l : list A) x : last l = Some x → l = removelast l ++ [x].
Proof.
  induction l as [|y l IH] using rev_ind; [done|]. rewrite last_snoc, removelast_last. by intros [= ->].
Qed.
Lemma removelast_take {A} (l : list A) : removelast l = take (length l - 1) l.
Proof. by rewrite removelast_firstn_len, Nat.sub_1_r. Qed.
End alist.

(** ** The invariant *)
Definition total_bytes (l : list (CacheKey * CacheEntry)) : Z := foldr (λ kv acc, ce_bytes kv.2 + acc) 0 l.

Lemma total_bytes_app l1 l2 : total_bytes (l1 ++ l2) = total_bytes l1 + total_bytes l2.
Proof. induction l1; simpl; lia. Qed.

Definition entry_ok (kv : CacheKey * CacheEntry) : Prop :=
  ce_bytes kv.2 = Z.of_nat (String.length (ce_payload kv.2)) + 128.
Lemma total_bytes_nonneg l : Forall entry_ok l → 0 ≤ total_bytes l.
Proof. induction 1 as [|kv l Hkv Hl IH]; simpl; [done|]. unfold entry_ok in Hkv. lia. Qed.

Lemma total_aremove k l :
  NoDup (map fst l) →
  total_bytes l = match alookup k l with Some e => ce_bytes e | None => 0 end + total_bytes (aremove k l).
Proof.
  induction l as [|[k' e] l IH]; simpl; [done|]. intros [Hn Hnd]%NoDup_cons. specialize (IH Hnd).
  case_decide as E; simpl; [|lia]. subst k'. rewrite alookup_none; [lia|].
  destruct (alookup k l) eqn:El; [|done]. exfalso. apply Hn. apply alookup_elem in El.
  apply list_elem_of_fmap. by exists (k, c).
Qed.

Lemma aremove_perm {K V} `{EqDecision K} k (v : V) (l : list (K * V)) :
  NoDup (map fst l) → alookup k l = Some v → (k, v) :: aremove k l ≡ₚ l.
Proof.
  induction l as [|[k' v'] l IH]; simpl; [done|]. intros [Hn Hnd]%NoDup_cons. case_decide as E.
  - intros [= ->]. subst k'. rewrite alookup_none; [done|]. destruct (alookup k l) eqn:El; [|done].
    exfalso. apply Hn. apply alookup_elem in El. apply list_elem_of_fmap. by eexists (k, _).
  - intros Hl. etrans; [apply perm_swap|]. constructor. by apply IH.
Qed.
Lemma total_bytes_perm l1 l2 : l1 ≡ₚ l2 → total_bytes l1 = total_bytes l2.
Proof. induction 1; simpl; lia. Qed.

Section spec.
Context {L : Type} `{!Lru L CacheKey CacheEntry, !LruView L CacheKey CacheEntry, LL : !LruLaws L CacheKey CacheEntry}.
Abbreviation cache := (ComputeCache L).
Abbreviation items c := (lru_items (cc_lru c)).

Record cache_ok (c : cache) : Prop := {
  co_nodup : NoDup (map fst (items c));
  co_entries : Forall entry_ok (items c);
  co_bytes : cc_current_bytes c = total_bytes (items c);
  co_cap : 1 ≤ lru_cap (cc_lru c);
  co_len : Z.of_nat (length (items c)) ≤ lru_cap (cc_lru c);
  co_max : total_bytes (items c) ≤ cc_max_bytes c ∨ (length (items c) ≤ 1)%nat
}.

(** [kept] entries of [l] remain beside a new entry of [eb] bytes. *)
Definition fits (c : cache) (eb : Z) (l : list (CacheKey * CacheEntry)) : Prop :=
  Z.of_nat (length l) < lru_cap (cc_lru c) ∧ total_bytes l + eb ≤ cc_max_bytes c.

Lemma checked_usize_ok n : n < 2 ^ 64 → checked_usize n = Some n.
Proof. intros ?. unfold checked_usize. by destruct (Z.ltb_spec n (2 ^ 64)); [|lia]. Qed.

Lemma exceeded_run eb (c : cache) :
  cc_current_bytes c = total_bytes (items c) → total_bytes (items c) + eb < 2 ^ 64 →
  exceeded eb c = Some (bool_decide (¬ fits c eb (items c))).
Proof using LL.
  intros Hb Hs. unfold exceeded, fits. rewrite len_law, Hb, checked_usize_ok by done. simpl.
  destruct (Z.leb_spec (lru_cap (cc_lru c)) (Z.of_nat (length (items c)))).
  - by rewrite bool_decide_eq_true_2 by lia.
  - f_equal. destruct (Z.ltb_spec (cc_max_bytes c) (total_bytes (items c) + eb)); symmetry;
      [apply bool_decide_eq_true_2|apply bool_decide_eq_false_2]; lia.
Qed.

Lemma fits_removelast eb (c : cache) l : Forall entry_ok l → fits c eb l → fits c eb (removelast l).
Proof.
  intros Hok [H1 H2]. rewrite removelast_take. rewrite <- (take_drop (length l - 1) l) in H1, H2, Hok.
  rewrite length_app in H1. rewrite total_bytes_app in H2. apply Forall_app in Hok as [_ Hd].
  pose proof (total_bytes_nonneg _ Hd). split; lia.
Qed.

Lemma evict_run fuel eb (c : cache) :
  (length (items c) ≤ fuel)%nat → Forall entry_ok (items c) → cc_current_bytes c = total_bytes (items c) →
  0 ≤ eb → total_bytes (items c) + eb < 2 ^ 64 →
  ∃ c' n, evict fuel eb c = Some c' ∧ items c' = take n (items c) ∧ (n ≤ length (items c))%nat ∧
    lru_cap (cc_lru c') = lru_cap (cc_lru c) ∧ cc_max_bytes c' = cc_max_bytes c ∧
    cc_current_bytes c' = total_bytes (items c') ∧
    (n = 0%nat ∨ fits c eb (take n (items c))) ∧
    ∀ m, (n < m ≤ length (items c))%nat → ¬ fits c eb (take m (items c)).
Proof using LL.
  revert c. induction fuel as [|fuel IH]; intros c Hf Hok Hb Heb Hsum; cbn [evict].
  - assert (items c = []) as E by (apply nil_length_inv; lia). rewrite (proj2 (is_empty_law (cc_lru c)) E).
    exists c, 0%nat. rewrite E. split_and!; try done; [by rewrite Hb, E|by left|]. simpl. lia.
  - destruct (lru_is_empty (cc_lru c)) eqn:Ee.
    { apply is_empty_law in Ee. exists c, 0%nat. rewrite Ee. split_and!; try done; [by rewrite Hb, Ee|by left|]. simpl. lia. }
    rewrite exceeded_run by done. simpl. case_bool_decide as Hfit.
    2:{ exists c, (length (items c)). rewrite firstn_all. split_and!; try done; [|lia].
        by right. }
    destruct (last (items c)) as [[k e]|] eqn:El.
    2:{ apply last_None in El. apply is_empty_law in El. congruence. }
    destruct (pop_lru_items (cc_lru c)) as [Hp1 Hp2]. pose proof (pop_lru_cap (cc_lru c)) as Hp3.
    destruct (lru_pop_lru (cc_lru c)) as [o lru]. simpl in *. rewrite El in Hp1. subst o.
    pose proof (last_removelast _ _ El) as Hsplit.
    assert (Forall entry_ok (removelast (items c)) ∧ entry_ok (k, e)) as [Hok' Hoke].
    { rewrite Hsplit in Hok at 1. apply Forall_app in Hok as [? [? _]%Forall_cons]. by split. }
    assert (total_bytes (items c) = total_bytes (removelast (items c)) + ce_bytes e) as Ht.
    { rewrite Hsplit at 1. rewrite total_bytes_app. simpl. lia. }
    unfold entry_ok in Hoke. simpl in Hoke. pose proof (total_bytes_nonneg _ Hok') as Hnn.
    set (c1 := MkCache lru _ _). assert (items c1 = removelast (items c)) as Hi by done.
    destruct (IH c1) as (c' & n & -> & Hc' & Hn & Hcap & Hmax & Hcur & Hk & Hm).
    + rewrite Hi, removelast_take, length_take. lia.
    + by rewrite Hi.
    + rewrite Hi. simpl. unfold saturating_sub. rewrite Hb. lia.
    + done.
    + rewrite Hi. lia.
    + rewrite Hi, removelast_take, length_take in Hn. 
      assert (∀ m, (m ≤ length (items c) - 1)%nat → take m (items c1) = take m (items c)) as Htk.
      { intros m ?. rewrite Hi, removelast_take, take_take. f_equal. lia. }
      rewrite Htk in Hc' by lia.
      assert (∀ l, fits c1 eb l ↔ fits c eb l) as Hfe by (intros; unfold fits; simpl; by rewrite Hp3).
      exists c', n. split_and!; try done; [lia|by rewrite Hcap|..].
      * rewrite <- Hfe, <- (Htk n) by lia. done.
      * intros m Hr. destruct (decide (m = length (items c))) as [->|]; [by rewrite firstn_all|].
        rewrite <- Hfe, <- (Htk m) by lia. apply Hm. rewrite Hi, removelast_take, length_take. lia.
Qed.

Lemma cache_insert_run (c : cache) key payload version :
  cache_ok c → let eb := Z.of_nat (String.length payload) + 128 in
  total_bytes (items c) + eb < 2 ^ 64 →
  ∃ c' n, cache_insert c key payload version = Some c' ∧ cache_ok c' ∧
    (n ≤ length (aremove key (items c)))%nat ∧
    items c' = (key, MkCacheEntry payload version eb) :: take n (aremove key (items c)) ∧
    lru_cap (cc_lru c') = lru_cap (cc_lru c) ∧ cc_max_bytes c' = cc_max_bytes c ∧
    (n = 0%nat ∨ fits c eb (take n (aremove key (items c)))) ∧
    ∀ m, (n < m ≤ length (aremove key (items c)))%nat → ¬ fits c eb (take m (aremove key (items c))).
Proof using LL.
  intros [Hnd Hent Hb Hcap Hlen Hmax] eb Hsum. unfold cache_insert. fold eb.
  pose proof (total_bytes_nonneg _ Hent) as Hnn.
  rewrite checked_usize_ok by lia. simpl.
  destruct (pop_items key (cc_lru c)) as [Hp1 Hp2]. pose proof (pop_cap key (cc_lru c)) as Hp3.
  destruct (lru_pop key (cc_lru c)) as [old lru]. simpl in *. subst old.
  set (rest := aremove key (items c)) in *.
  assert (Forall entry_ok rest) as Hrest.
  { rewrite Forall_forall in Hent |- *. intros [k v] [_ Hin]%elem_of_aremove. by apply Hent. }
  pose proof (total_aremove key _ Hnd) as Ht. fold rest in Ht.
  pose proof (total_bytes_nonneg _ Hrest) as Hnr.
  assert (total_bytes rest ≤ total_bytes (items c)) as Hle'.
  { revert Ht. destruct (alookup key (items c)) as [e|] eqn:E; [|lia]. apply alookup_elem in E.
    rewrite Forall_forall in Hent. specialize (Hent _ E). unfold entry_ok in Hent. simpl in Hent. lia. }
  set (c1 := MkCache lru _ _). assert (items c1 = rest) as Hi by done.
  destruct (evict_run (Z.to_nat (lru_len lru)) eb c1) as (c2 & n & -> & Hc2 & Hn & Hcap2 & Hmax2 & Hcur & Hk & Hm).
  - rewrite Hi, len_law, Nat2Z.id, Hp2. lia.
  - by rewrite Hi.
  - rewrite Hi. simpl. unfold saturating_sub. rewrite Hb. revert Ht. destruct (alookup key (items c)); lia.
  - lia.
  - rewrite Hi. lia.
  - rewrite Hi in *. simpl.
    assert (∀ l, fits c1 eb l ↔ fits c eb l) as Hfe by (intros; unfold fits; simpl; by rewrite Hp3).
    assert (total_bytes (take n rest) ≤ total_bytes rest) as Hle.
    { rewrite <- (take_drop n rest) at 2. rewrite total_bytes_app.
      enough (0 ≤ total_bytes (drop n rest)) by lia. apply total_bytes_nonneg. by apply Forall_drop. }
    rewrite Hcur, Hc2, checked_usize_ok by lia. simpl.
    pose proof (put_items key (MkCacheEntry payload version eb) (cc_lru c2)) as Hput.
    pose proof (put_cap key (MkCacheEntry payload version eb) (cc_lru c2)) as Hpc.
    destruct (lru_put key _ _) as [o lru2]. simpl in Hput, Hpc.
    assert (alookup key (take n rest) = None) as Hno by (apply alookup_take, alookup_aremove).
    rewrite Hc2, Hno in Hput.
    assert (Z.of_nat (length (take n rest)) < lru_cap (cc_lru c2)) as Hroom.
    { rewrite Hcap2. simpl. destruct Hk as [->|[Hl _]]; [simpl; lia|done]. }
    destruct (Z.leb_spec (lru_cap (cc_lru c2)) (Z.of_nat (length (take n rest)))); [lia|].
    eexists _, n. split; [done|]. simpl. rewrite Hpc, Hput, Hcap2. simpl. split; [|split_and!; try done].
    + split; simpl; rewrite ?Hput, ?Hpc, ?Hcap2; cbn -[Z.of_nat]; rewrite ?Hp3; rewrite Hcap2 in Hroom; simpl in Hroom; rewrite Hp3 in Hroom.
      * assert (sublist (map fst (take n rest)) (map fst rest)) as Hs1 by apply (fmap_sublist fst), sublist_take.
        assert (sublist (map fst rest) (map fst (items c))) as Hs2 by apply (fmap_sublist fst), aremove_sublist.
        apply NoDup_cons. split; [|eapply sublist_NoDup; [|done]; by eapply sublist_NoDup].
        intros Hin. apply (aremove_keys key (items c)). eapply elem_of_submseteq; [exact Hin|by apply sublist_submseteq].
      * constructor; [done|by apply Forall_take].
      * apply Z.add_comm.
      * lia.
      * lia.
      * rewrite Hmax2. destruct Hk as [->|[_ Hf]]; [right; simpl; lia|left]. rewrite Z.add_comm. exact Hf.
    + destruct Hk as [?|?]; [by left|right; by apply Hfe].
    + intros m Hr. rewrite <- Hfe. by apply Hm.
Qed.

Lemma cache_get_run (c : cache) key version :
  cache_ok c →
  (cache_get c key version).1 =
    match alookup key (items c) with
    | Some e => if ce_version e =? version then Some (ce_payload e) else None
    | None => None
    end ∧
  items (cache_get c key version).2 ≡ₚ items c ∧ cache_ok (cache_get c key version).2 ∧
  lru_cap (cc_lru (cache_get c key version).2) = lru_cap (cc_lru c) ∧
  cc_max_bytes (cache_get c key version).2 = cc_max_bytes c.
Proof using LL.
  intros [Hnd Hent Hb Hcap Hlen Hmax]. unfold cache_get.
  destruct (get_items key (cc_lru c)) as [Hg1 Hg2]. pose proof (get_cap key (cc_lru c)) as Hg3.
  destruct (lru_get key (cc_lru c)) as [o lru]. simpl in *. subst o.
  assert (lru_items lru ≡ₚ items c) as Hp.
  { rewrite Hg2. destruct (alookup key (items c)) as [e|] eqn:E; [by apply aremove_perm|done]. }
  set (c' := MkCache lru (cc_current_bytes c) (cc_max_bytes c)).
  assert (cache_ok c') as Hok'.
  { split; simpl; rewrite ?Hg3.
    - by rewrite Hp.
    - by rewrite Hp.
    - rewrite Hb. symmetry. by apply total_bytes_perm.
    - done.
    - by rewrite Hp.
    - by rewrite (total_bytes_perm _ _ Hp), Hp. }
  destruct (alookup key (items c)) as [e|]; [destruct (_ =? _)|]; done.
Qed.

Lemma with_bounds_ok capacity max_bytes :
  0 ≤ max_bytes →
  cache_ok (with_bounds capacity max_bytes : cache) ∧ items (with_bounds capacity max_bytes : cache) = [] ∧
  lru_cap (cc_lru (with_bounds capacity max_bytes : cache)) = Z.max capacity 1.
Proof using LL.
  intros Hm. destruct (new_law (Z.max capacity 1)) as [Hi Hc]; [lia|].
  split_and!; [|done|done]. split; simpl; rewrite ?Hi, ?Hc; simpl; try done; [constructor|lia|lia|by left].
Qed.
End spec.
#[global] Arguments cache_ok {L _ _} _.

(** ** Runs of operations *)
Inductive CacheOp :=
  | OpGet (key : CacheKey) (version : Z)
  | OpInsert (key : CacheKey) (payload : string) (version : Z).

Definition op_small (op : CacheOp) : Prop :=
  match op with OpGet _ _ => True | OpInsert _ payload _ => Z.of_nat (String.length payload) < 2 ^ 62 end.

Fixpoint cache_run {L} `{Lru L CacheKey CacheEntry} (ops : list CacheOp) (c : ComputeCache L) : option (ComputeCache L) :=
  match ops with
  | [] => Some c
  | OpGet key version :: ops' => cache_run ops' (cache_get c key version).2
  | OpInsert key payload version :: ops' => c' ← cache_insert c key payload version; cache_run ops' c'
  end.

(** C33.  An insertion into a consistent cache, with sizes below [2^64] in sum,
    succeeds, makes the new entry the most recent one, and of the other entries keeps, in order of use, the
    longest run of most recently used ones that fits: with one entry more the
    item capacity or the byte limit would be exceeded.  The entry is served
    exactly at its version. *)
Theorem cache_insert_exact {L} `{!Lru L CacheKey CacheEntry, !LruView L CacheKey CacheEntry, LL : !LruLaws L CacheKey CacheEntry}
    (c : ComputeCache L) (key : CacheKey) (payload : string) (version : Z) :
  cache_ok c →
  let eb := Z.of_nat (String.length payload) + 128 in
  let others := aremove key (lru_items (cc_lru c)) in
  total_bytes (lru_items (cc_lru c)) + eb < 2 ^ 64 →
  ∃ c' n, cache_insert c key payload version = Some c' ∧ cache_ok c' ∧
    lru_items (cc_lru c') = (key, MkCacheEntry payload version eb) :: take n others ∧
    (n = 0%nat ∨ fits c eb (take n others)) ∧
    (∀ m, (n < m ≤ length others)%nat → ¬ fits c eb (take m others)) ∧
    ∀ v, (cache_get c' key v).1 = if version =? v then Some payload else None.
Proof.
  intros Hok eb others Hsum. destruct (cache_insert_run c key payload version Hok Hsum)
    as (c' & n & E & Hok' & _ & Hi & _ & _ & Hk & Hm).
  exists c', n. split_and!; [done..|]. intros v. destruct (cache_get_run c' key v Hok') as (-> & _).
  rewrite Hi. simpl. by rewrite decide_True.
Qed.

Definition sample_key (t : string) : CacheKey := MkCacheKey "ns" "db" t KComponents Json.
Lemma cache_insert_exact_witness :
  ∃ c', cache_insert (with_bounds 2 265 : ComputeCache (list_lru CacheKey CacheEntry))
      (sample_key "a") "payload"%string 3 = Some c' ∧
    (cache_get c' (sample_key "a") 3).1 = Some "payload"%string ∧ (cache_get c' (sample_key "a") 4).1 = None.
Proof.
  destruct (cache_insert_exact (L := list_lru CacheKey CacheEntry) (with_bounds 2 265) (sample_key "a") "payload"%string 3)
    as (c' & n & E & _ & _ & _ & _ & Hg).
  - apply (with_bounds_ok (L := list_lru CacheKey CacheEntry)). lia.
  - vm_compute. reflexivity.
  - exists c'. split; [exact E|]. rewrite !Hg. split; reflexivity.
Defined.

(** Insertions whose entry fits within the byte limit by itself. *)
Definition op_fits (max_bytes : Z) (op : CacheOp) : Prop :=
  match op with OpGet _ _ => True | OpInsert _ payload _ => Z.of_nat (String.length payload) + 128 ≤ max_bytes end.
Definition entry_fits (max_bytes : Z) (kv : CacheKey * CacheEntry) : Prop := ce_bytes kv.2 ≤ max_bytes.
Lemma fitting_total max_bytes l : 0 ≤ max_bytes → Forall (entry_fits max_bytes) l →
  total_bytes l ≤ max_bytes ∨ (length l ≤ 1)%nat → total_bytes l ≤ max_bytes.
Proof.
  intros Hm Hf [?|Hl]; [done|]. destruct l as [|e [|e' l]]; simpl in *; [lia| |lia].
  apply Forall_cons in Hf as [He _]. unfold entry_fits in He. lia.
Qed.

(** A run keeps the cache consistent, its limits, and entries that fit. *)
Lemma cache_runs {L} `{!Lru L CacheKey CacheEntry, !LruView L CacheKey CacheEntry, LL : !LruLaws L CacheKey CacheEntry}
    (max_bytes : Z) (ops : list CacheOp) : max_bytes < 2 ^ 62 → Forall op_small ops →
  ∀ c : ComputeCache L, cache_ok c → cc_max_bytes c = max_bytes → total_bytes (lru_items (cc_lru c)) ≤ 2 ^ 62 + 128 →
  ∃ c', cache_run ops c = Some c' ∧ cache_ok c' ∧ cc_max_bytes c' = max_bytes ∧
    lru_cap (cc_lru c') = lru_cap (cc_lru c) ∧
    (Forall (op_fits max_bytes) ops → Forall (entry_fits max_bytes) (lru_items (cc_lru c)) →
      Forall (entry_fits max_bytes) (lru_items (cc_lru c'))).
Proof.
  intros Hm. induction 1 as [|op ops Hop Hops IH]; intros c Hok Hmx Ht; [by exists c|].
  destruct op as [key v|key payload v]; simpl in *.
  - destruct (cache_get_run c key v Hok) as (_ & Hp & Hok' & Hc' & Hm').
    destruct (IH _ Hok') as (c2 & E & Hok2 & Hmx2 & Hcp2 & Hf2); [congruence|by rewrite (total_bytes_perm _ _ Hp)|].
    exists c2. split_and!; [done..|congruence|]. intros [_ Hf]%Forall_cons He. apply Hf2; [done|]. by rewrite Hp.
  - destruct (cache_insert_run c key payload v Hok) as (c' & n & -> & Hok' & _ & Hit & Hc' & Hm' & _); [lia|]. simpl.
    destruct (IH c' Hok') as (c2 & E & Hok2 & Hmx2 & Hcp2 & Hf2); [congruence| |].
    { destruct (co_max _ Hok') as [?|Hlen]; [lia|]. rewrite Hit in Hlen |- *. simpl in Hlen.
      destruct (take n _); [simpl; lia|simpl in Hlen; lia]. }
    exists c2. split_and!; [done..|congruence|]. intros [Hf1 Hf]%Forall_cons He. apply Hf2; [done|]. rewrite Hit.
    apply Forall_cons. split; [exact Hf1|]. apply Forall_take. rewrite Forall_forall in He |- *. intros [k e] [_ Hin]%elem_of_aremove. by apply He.
Qed.

(** C32.  However the cache is used (payloads and the byte limit below
    [2^62]), no [usize] operation overflows, the eviction loop ends, and the
    bounds hold: at most [max(capacity, 1)] entries under distinct keys,
    [current_bytes] the exact sum of the sizes of the entries, and - if each
    entry inserted fits within the byte limit by itself - that sum never
    above the limit. *)
Theorem cache_bounded {L} `{!Lru L CacheKey CacheEntry, !LruView L CacheKey CacheEntry, LL : !LruLaws L CacheKey CacheEntry}
    (capacity max_bytes : Z) (ops : list CacheOp) :
  0 ≤ max_bytes < 2 ^ 62 → Forall op_small ops →
  ∃ c, cache_run ops (with_bounds capacity max_bytes : ComputeCache L) = Some c ∧ cache_ok c ∧
    NoDup (map fst (lru_items (cc_lru c))) ∧
    cache_len c ≤ Z.max capacity 1 ∧ current_bytes c = total_bytes (lru_items (cc_lru c)) ∧
    (Forall (op_fits max_bytes) ops → current_bytes c ≤ max_bytes).
Proof.
  intros Hm Hops. destruct (with_bounds_ok (L := L) capacity max_bytes) as (H0 & Hi & Hcap); [lia|].
  destruct (cache_runs max_bytes ops ltac:(lia) Hops _ H0) as (c & E & Hok & Hmx & Hcp & Hf); [done|by rewrite Hi|].
  exists c. pose proof Hok as [Hnd Hent Hb Hcap1 Hlen Hmax].
  split_and!; [done..| | |]; unfold cache_len, current_bytes; rewrite ?len_law.
  - by rewrite <- Hcap, <- Hcp.
  - done.
  - intros Hfit. rewrite Hb. apply fitting_total; [lia| |by rewrite <- Hmx]. apply Hf; [done|]. by rewrite Hi.
Qed.

Lemma cache_bounded_witness :
  ∃ c, cache_run [OpInsert (sample_key "a") "payload"%string 0; OpGet (sample_key "a") 0;
      OpInsert (sample_key "b") "other"%string 1; OpInsert (sample_key "a") "new"%string 2]
      (with_bounds 2 265 : ComputeCache (list_lru CacheKey CacheEntry)) = Some c ∧
    cache_len c ≤ 2 ∧ current_bytes c = 264.
Proof.
  edestruct (cache_bounded (L := list_lru CacheKey CacheEntry) 2 265) as (c & E & _ & _ & Hl & _ & _);
    [lia| |exists c; split; [exact E|]; split; [exact Hl|]].
  - repeat constructor.
  - vm_compute in E. injection E as <-. reflexivity.
Defined.
