(* ===== verification/Planner.v ===== *)
(** * WHERE evaluation and index planning (crates/query/src/executor.rs)

    The comparison of values, the evaluation of filters and the choice of a
    secondary index by leftmost-prefix matching. *)

From S2P Require Export Ast Collection.

(** ** Values in filters *)

(** [Value] comparison; [None] for incomparable types. *)
Definition cmp_values (a b : Value) : option comparison :=
  match a, b with
  | VInt x, VInt y => Some (Z.compare x y)
  | VFloat x, VFloat y => f64_partial_cmp x y
  | VInt x, VFloat y => f64_partial_cmp (f64_of_i64 x) y
  | VFloat x, VInt y => f64_partial_cmp x (f64_of_i64 y)
  | VString x, VString y => Some (ord_cmp x y)
  | _, _ => None
  end.

(** [n as i64] of a [usize] or [u64]. *)
Definition wrap_i64 (n : Z) : Z := (if n <? 2 ^ 63 then n else n - 2 ^ 64)%Z.

(** What the executor calls of the code-intelligence crate and of its JSON
    codec ([from_str(..).ok()], [to_string(..).ok()]). *)
Class CodeIntel := {
  MetaNode : Type;
  DiffSummary : Type;
  ClonePair : Type;
  node_from_str : string → option MetaNode;
  nodes_from_str : string → option (list MetaNode);
  complexity_estimate : MetaNode → Z;
  subtree_hash : MetaNode → Z;
  structural_similarity : MetaNode → MetaNode → f64;
  diff_trees : MetaNode → MetaNode → DiffSummary;
  scope_at : MetaNode → Z → list MetaNode;
  find_clones : list MetaNode → f64 → list ClonePair;
  diff_to_string : DiffSummary → option string;
  scope_to_string : list MetaNode → option string;
  clones_to_string : list ClonePair → option string
}.

(** [0.8], the default threshold of [ast::clones]. *)
Definition default_threshold : f64 := F64 0x3FE999999999999A.

Section eval.
Context `{CodeIntel}.

(** The [match name.as_str()] on evaluated arguments. *)
Definition call_function (name : string) (arg_vals : list Value) : option Value :=
  if String.eqb name "ast::complexity" then
    match arg_vals with
    | [VString json] =>
        node ← node_from_str json; Some (VInt (wrap_i64 (complexity_estimate node)))
    | _ => None
    end
  else if String.eqb name "ast::hash" then
    match arg_vals with
    | [VString json] => node ← node_from_str json; Some (VInt (wrap_i64 (subtree_hash node)))
    | _ => None
    end
  else if String.eqb name "ast::similarity" then
    match arg_vals with
    | [VString ast_json; VString query_json] =>
        a ← node_from_str ast_json; b ← node_from_str query_json;
        Some (VFloat (structural_similarity a b))
    | _ => None
    end
  else if String.eqb name "ast::diff" then
    match arg_vals with
    | [VString ast_json_a; VString ast_json_b] =>
        a ← node_from_str ast_json_a; b ← node_from_str ast_json_b;
        json ← diff_to_string (diff_trees a b); Some (VString json)
    | _ => None
    end
  else if String.eqb name "ast::scope" then
    match arg_vals with
    | [VString json; VInt line] =>
        node ← node_from_str json; s ← scope_to_string (scope_at node line); Some (VString s)
    | _ => None
    end
  else if String.eqb name "ast::clones" then
    match arg_vals with
    | [VString json_arr; t] =>
        let threshold := match t with
                         | VFloat f => f
                         | VInt i => f64_of_i64 i
                         | _ => default_threshold
                         end in
        nodes ← nodes_from_str json_arr;
        s ← clones_to_string (find_clones nodes threshold); Some (VString s)
    | _ => None
    end
  else None.

(** [for arg in args { arg_vals.push(f(arg)?) }]. *)
Fixpoint eval_args {A B} (f : A → option B) (args : list A) : option (list B) :=
  match args with
  | [] => Some []
  | a :: args' => v ← f a; vs ← eval_args f args'; Some (v :: vs)
  end.

Fixpoint eval_select_item (doc : Document) (item : SelectItem) : option Value :=
  match item with
  | SField name => oget name (doc_fields doc)
  | SLiteral lit => Some (to_value lit)
  | SFunctionCall name args =>
      arg_vals ← eval_args (eval_select_item doc) args; call_function name arg_vals
  end.

Definition matches_cmp (op : CmpOp) (doc_val target : Value) : bool :=
  match op with
  | OpEq => Values.eqb doc_val target
  | OpNe => negb (Values.eqb doc_val target)
  | OpGt => match cmp_values doc_val target with Some Gt => true | _ => false end
  | OpLt => match cmp_values doc_val target with Some Lt => true | _ => false end
  | OpGte => match cmp_values doc_val target with Some Gt | Some Eq => true | _ => false end
  | OpLte => match cmp_values doc_val target with Some Lt | Some Eq => true | _ => false end
  end.

Fixpoint matches_where (doc : Document) (clause : WhereClause) : bool :=
  match clause with
  | WCmp field op value =>
      match eval_select_item doc field with
      | None => false
      | Some doc_val => matches_cmp op doc_val (to_value value)
      end
  | WAnd l r => matches_where doc l && matches_where doc r
  | WIsNull field negated =>
      let is_set := match oget field (doc_fields doc) with
                    | Some v => negb (Values.is_none v)
                    | None => false
                    end in
      if negated then is_set else negb is_set
  end.
End eval.

(** ** Plans *)
Record IndexPlan := MkIndexPlan {
  ip_index_name : string;
  ip_eq : list Value;
  ip_lower : option RangeBound;
  ip_upper : option RangeBound;
  ip_field_count : nat;
  ip_covers : bool
}.

Inductive AtomKind :=
  | AEq (v : Value)
  | ALower (v : Value) (inclusive : bool)
  | AUpper (v : Value) (inclusive : bool).

(** The conjuncts pushed to [out]. *)
Fixpoint collect_conjuncts (clause : WhereClause) : list WhereClause :=
  match clause with
  | WAnd l r => collect_conjuncts l ++ collect_conjuncts r
  | other => [other]
  end.

Definition atom_of (clause : WhereClause) : option (string * AtomKind) :=
  match clause with
  | WCmp (SField field_name) op value =>
      let v := to_value value in
      match v with
      | VArray _ | VNone => None
      | _ =>
          match op with
          | OpEq => Some (field_name, AEq v)
          | OpGt => Some (field_name, ALower v false)
          | OpGte => Some (field_name, ALower v true)
          | OpLt => Some (field_name, AUpper v false)
          | OpLte => Some (field_name, AUpper v true)
          | OpNe => None
          end
      end
  | _ => None
  end.

Definition make_plan (idx : IndexDefinition) (eq : list Value) (lower upper : option RangeBound) :
    IndexPlan :=
  MkIndexPlan (ix_name idx) eq lower upper (length (ix_fields idx)) false.

(** Step 1 for one field: the first unused equality on it, which is marked. *)
Fixpoint take_eq (field : string) (conjuncts : list WhereClause) (used : list bool) :
    option (Value * list bool) :=
  match conjuncts, used with
  | c :: conjuncts', u :: used' =>
      let next := '(v, us) ← take_eq field conjuncts' used'; Some (v, u :: us) in
      if u : bool then next
      else match atom_of c with
      | Some (f, AEq v) => if String.eqb f field then Some (v, true :: used') else next
      | _ => next
      end
  | _, _ => None
  end.

(** [o.is_none()]. *)
Definition unset {A} (o : option A) : bool := match o with None => true | Some _ => false end.

(** Step 2: the first unused lower and upper bounds on it. *)
Fixpoint take_bounds (field : string) (conjuncts : list WhereClause) (used : list bool)
    (lower upper : option RangeBound) (consumed : nat) :
    option RangeBound * option RangeBound * list bool * nat :=
  match conjuncts, used with
  | c :: conjuncts', u :: used' =>
      let continue u lower upper consumed :=
        let '(lo, up, us, n) := take_bounds field conjuncts' used' lower upper consumed in
        (lo, up, u :: us, n) in
      if u : bool then continue u lower upper consumed
      else match atom_of c with
      | Some (f, ALower v incl) =>
          if String.eqb f field && unset lower
          then continue true (Some (v, incl)) upper (S consumed)
          else continue u lower upper consumed
      | Some (f, AUpper v incl) =>
          if String.eqb f field && unset upper
          then continue true lower (Some (v, incl)) (S consumed)
          else continue u lower upper consumed
      | _ => continue u lower upper consumed
      end
  | _, _ => (lower, upper, used, consumed)
  end.

(** The loop over the index's fields. *)
Fixpoint plan_fields (idx : IndexDefinition) (conjuncts : list WhereClause) (fields : list string)
    (used : list bool) (eq : list Value) (consumed : nat) : option (IndexPlan * nat) :=
  match fields with
  | [] =>
      match eq with
      | [] => None
      | _ => Some (make_plan idx eq None None, consumed)
      end
  | field :: fields' =>
      match take_eq field conjuncts used with
      | Some (v, used') => plan_fields idx conjuncts fields' used' (eq ++ [v]) (S consumed)
      | None =>
          let '(lower, upper, _, consumed') := take_bounds field conjuncts used None None consumed in
          if negb (unset lower) || negb (unset upper) then
            Some (make_plan idx eq lower upper, consumed')
          else match eq with
          | [] => None
          | _ => Some (make_plan idx eq None None, consumed')
          end
      end
  end.

Definition plan_for_index (idx : IndexDefinition) (conjuncts : list WhereClause) :
    option (IndexPlan * nat) :=
  plan_fields idx conjuncts (ix_fields idx) (replicate (length conjuncts) false) [] 0.

(** [(consumed, plan.eq.len()) > (bc, bp.eq.len())]. *)
Definition better (new best : IndexPlan * nat) : bool :=
  (best.2 <? new.2) ||
  ((new.2 =? best.2) && (length (ip_eq best.1) <? length (ip_eq new.1))).

Fixpoint best_plan (indexes : list IndexDefinition) (conjuncts : list WhereClause)
    (best : option (IndexPlan * nat)) : option (IndexPlan * nat) :=
  match indexes with
  | [] => best
  | idx :: indexes' =>
      if negb (IndexDefinitions.is_btree idx) then best_plan indexes' conjuncts best
      else match plan_for_index idx conjuncts with
      | Some p =>
          let is_better := match best with None => true | Some b => better p b end in
          best_plan indexes' conjuncts (if is_better then Some p else best)
      | None => best_plan indexes' conjuncts best
      end
  end.

Definition plan_index_lookup (indexes : list IndexDefinition) (clause : WhereClause) :
    option IndexPlan :=
  match indexes with
  | [] => None
  | _ =>
      let conjuncts := collect_conjuncts clause in
      let total := length conjuncts in
      '(plan, consumed) ← best_plan indexes conjuncts None;
      Some (MkIndexPlan (ip_index_name plan) (ip_eq plan) (ip_lower plan) (ip_upper plan)
              (ip_field_count plan) (consumed =? total))
  end.

Definition run_index_plan {S} `{KvStore S} (coll : Collection) (plan : IndexPlan) : M S (list string) :=
  Collections.find_ids_for_scan coll (ip_index_name plan) (ip_eq plan) (ip_lower plan) (ip_upper plan)
    (ip_field_count plan).

Example plan_ex :
  plan_index_lookup
    [IndexDefinitions.btree "ab" ["a"%string; "b"%string] false]
    (WAnd (WCmp (SField "b") OpGt (LInt 3)) (WCmp (SField "a") OpEq (LInt 1))) =
  Some (MkIndexPlan "ab" [VInt 1] (Some (VInt 3, false)) None 2 true).
Proof. reflexivity. Qed.
