(* ===== verification/Executor.v ===== *)
(** * The statement executor (crates/query/src/executor.rs)

    The handlers of the document statements, of the index definitions and of
    [RELATE], for an executor without search services ([services: None]): the
    steps that maintain full-text and vector indexes do nothing there.  A
    [SELECT] is modelled up to the projection of its rows. *)

From stdpp Require Import gmap.
From S2P Require Export Planner EdgeStore.

Inductive QueryResult :=
  | QOk
  | QCreated (id : RecordId)
  | QUpdated (id : RecordId)
  | QDeleted (existed : bool)
  | QDeletedMany (count : nat)
  | QRows (rows : list Fields)
  | QCommunities (algorithm : string) (groups : list Fields)
  | QCachedResponse (payload : string)
  | QBatch (count created updated : nat)
  | QUpdate (matched : nat)
  | QCount (count : nat)
  | QComponents (count largest nodes : Z).

(** ** ORDER BY *)
Definition order_cmp (a b : option Value) : comparison :=
  let set o := match o with Some v => negb (Values.is_none v) | None => false end in
  match set a, set b with
  | false, false => Eq
  | false, true => Gt
  | true, false => Lt
  | true, true =>
      match a, b with
      | Some x, Some y => match cmp_values x y with Some c => c | None => Eq end
      | _, _ => Eq
      end
  end.

(** The comparison closure of [sort_documents]. *)
Fixpoint doc_cmp (keys : list OrderKey) (a b : Document) : comparison :=
  match keys with
  | [] => Eq
  | key :: keys' =>
      let ord := order_cmp (oget (ok_field key) (doc_fields a)) (oget (ok_field key) (doc_fields b)) in
      let ord := if ok_descending key then CompOpp ord else ord in
      match ord with Eq => doc_cmp keys' a b | _ => ord end
  end.

(** The comparator is not always a total order (values of different types
    compare as equal), so the sort may panic. *)
Definition sort_documents (sort : Sorter) (docs : list Document) (keys : list OrderKey) : option (list Document) :=
  sort Document (doc_cmp keys) docs.

(** ** Handlers *)

(** [fields.iter().map(|(k, v)| (k.clone(), v.to_value())).collect()]. *)
Definition to_fields (fields : list (string * Literal)) : Fields :=
  oextend [] (map (λ kv : string * Literal, (kv.1, to_value kv.2)) fields).

(** [for (name, lit) in fields { doc.set(name, lit.to_value()) }]. *)
Definition set_fields (doc : Document) (fields : list (string * Literal)) : Document :=
  fold_left (λ d kv, Documents.set d kv.1 (to_value kv.2)) fields doc.

Definition keep `{CodeIntel} (filter : option WhereClause) (doc : Document) : bool :=
  match filter with Some clause => matches_where doc clause | None => true end.

(** [filter.and_then(|c| plan_index_lookup(coll.indexes(), c))]. *)
Definition plan_of (coll : Collection) (filter : option WhereClause) : option IndexPlan :=
  clause ← filter; plan_index_lookup (Collections.indexes coll) clause.

Section executor.
Context {S : Type} `{KvStore S} `{FieldsCodec} `{DefCodec} `{CodeIntel} (ns db : string).

(** Index-narrowed candidates, or every document. *)
Definition candidates (coll : Collection) (filter : option WhereClause) : M S (list Document) :=
  match plan_of coll filter with
  | Some plan => ids ← run_index_plan coll plan; Collections.get_many coll ids
  | None => Collections.scan_all coll
  end.

(** [uuid] is the fresh identifier [RecordId::generate] draws. *)
Definition exec_create (uuid table : string) (id : option string) (fields : list (string * Literal))
    (on_conflict : option OnConflict) : M S QueryResult :=
  coll ← Collections.load ns db table;
  let record_id := match id with
                   | Some id => RecordIds.new table id
                   | None => RecordIds.generate uuid table
                   end in
  let doc := set_fields (Documents.new record_id) fields in
  match on_conflict with
  | Some conflict =>
      id_str ← lift (ok_or id (Core.Query "ON CONFLICT UPDATE requires an explicit record ID"));
      let update_fields := match conflict with
                           | OnUpdate => to_fields fields
                           | OnUpdateSet update_set => to_fields update_set
                           end in
      '(result_id, was_created) ← Collections.upsert coll id_str doc update_fields;
      mret (if was_created : bool then QCreated result_id else QUpdated result_id)
  | None =>
      created_id ← match id with
                   | Some id => Collections.create_with_id coll id doc
                   | None => Collections.create coll doc
                   end;
      mret (QCreated created_id)
  end.

(** [exec_select] on a table or record, before the projection of the rows;
    [None] is a panic of the sort. *)
Definition exec_select_docs (sort : Sorter) (from : FromTarget) (filter : option WhereClause)
    (order_by : list OrderKey) (limit : option Z) : M S (option (string * list Document)) :=
  '(table, docs) ← match from with
    | FromTable table =>
        coll ← Collections.load ns db table;
        docs ← candidates coll filter;
        mret (table, docs)
    | FromRecord r =>
        let coll := Collections.new ns db (rr_table r) in
        o ← Collections.get coll (rr_id r);
        mret (rr_table r, match o with Some d => [d] | None => [] end)
    end;
  let filtered := List.filter (keep filter) docs in
  mret (ordered ← match order_by with [] => Some filtered | _ => sort_documents sort filtered order_by end;
        let limited := match limit with Some n => take (Z.to_nat n) ordered | None => ordered end in
        Some (table, limited)).

(** The loop of a table update. *)
Fixpoint update_rows (coll : Collection) (filter : option WhereClause) (update_fields : Fields)
    (docs : list Document) (matched : nat) : M S nat :=
  match docs with
  | [] => mret matched
  | doc :: docs' =>
      if keep filter doc then
        _ ← Collections.merge coll (rid_id (doc_id doc)) update_fields;
        update_rows coll filter update_fields docs' (matched + 1)
      else update_rows coll filter update_fields docs' matched
  end.

Definition exec_update (target : FromTarget) (fields : list (string * Literal))
    (filter : option WhereClause) : M S QueryResult :=
  let update_fields := to_fields fields in
  match target with
  | FromRecord r =>
      coll ← Collections.load ns db (rr_table r);
      o ← Collections.get coll (rr_id r);
      match o with
      | Some _ => _ ← Collections.merge coll (rr_id r) update_fields; mret (QUpdate 1)
      | None => mret (QUpdate 0)
      end
  | FromTable table =>
      coll ← Collections.load ns db table;
      docs ← Collections.scan_all coll;
      matched ← update_rows coll filter update_fields docs 0;
      mret (QUpdate matched)
  end.

(** [exec_count] without [GROUP BY]. *)
Definition exec_count_plain (table : string) (filter : option WhereClause) : M S QueryResult :=
  coll ← Collections.load ns db table;
  count ← match filter with
    | None => Collections.count coll
    | Some clause =>
        match plan_index_lookup (Collections.indexes coll) clause with
        | Some plan =>
            ids ← run_index_plan coll plan;
            if ip_covers plan then mret (length ids)
            else
              docs ← Collections.get_many coll ids;
              mret (length (List.filter (λ d, matches_where d clause) docs))
        | None =>
            docs ← Collections.scan_all coll;
            mret (length (List.filter (λ d, matches_where d clause) docs))
        end
    end;
  mret (QCount count).

Definition exec_delete (table id : string) : M S QueryResult :=
  coll ← Collections.load ns db table;
  existed ← Collections.delete coll id;
  mret (QDeleted existed).

(** The loop of a filtered delete. *)
Fixpoint delete_rows (coll : Collection) (filter : option WhereClause) (docs : list Document)
    (count : nat) : M S nat :=
  match docs with
  | [] => mret count
  | doc :: docs' =>
      if keep filter doc then
        existed ← Collections.delete coll (rid_id (doc_id doc));
        delete_rows coll filter docs' (if existed : bool then count + 1 else count)
      else delete_rows coll filter docs' count
  end.

Definition exec_delete_where (table : string) (filter : option WhereClause) : M S QueryResult :=
  coll ← Collections.load ns db table;
  docs ← candidates coll filter;
  count ← delete_rows coll filter docs 0;
  mret (QDeletedMany count).

(** *** Index definitions *)

(** The backfill loop: the unique check over full tuples and the entries. *)
Fixpoint backfill (name table : string) (def : IndexDefinition) (docs : list Document)
    (seen : list bytes) : result kvs :=
  match docs with
  | [] => Ok []
  | doc :: docs' =>
      seen' ← (if ix_unique def then
                 match collect_index_values doc def with
                 | Some values =>
                     key_part ← encode_composite_key_part values;
                     if bool_decide (key_part ∈ seen) then
                       Err (Schema ("cannot create unique index '" ++ name ++
                                    "': duplicate values for the indexed fields"))
                     else Ok (key_part :: seen)
                 | None => Ok seen
                 end
               else Ok seen);
      entries ← build_index_entries doc ns db table [def];
      rest ← backfill name table def docs' seen';
      Ok (entries ++ rest)
  end.

Definition exec_define_index (name table : string) (fields : list string) (unique : bool) :
    M S QueryResult :=
  if bool_decide (fields = []) then
    throw (Core.Query "DEFINE INDEX requires at least one field")
  else
    let def := IndexDefinitions.btree name fields unique in
    let coll := Collections.new ns db table in
    docs ← Collections.scan_all coll;
    entry_puts ← lift (backfill name table def docs []);
    '(def_key, def_bytes) ← lift (index_definition_kv ns db table def);
    _ ← DllbStorage.write_batch ((def_key, def_bytes) :: entry_puts) [];
    mret QOk.

(** [existing] only serves the external structures of the search services. *)
Definition exec_remove_index (name table : string) : M S QueryResult :=
  defs ← load_index_definitions ns db table;
  let def_key := index_catalog_key ns db table name in
  let entry_prefix := index_prefix ns db table name in
  keys ← DllbStorage.scan_prefix_keys entry_prefix;
  _ ← DllbStorage.write_batch [] (keys ++ [def_key]);
  mret QOk.

(** *** Edges and batches *)
Definition edge_of (src : RecordRef) (edge_type : string) (dst : RecordRef)
    (fields : list (string * Literal)) : Edge :=
  fold_left (λ e kv, Edges.with_property e kv.1 (to_value kv.2)) fields
    (Edges.new (rr_id src) edge_type (rr_id dst)).

Definition exec_relate (src : RecordRef) (edge_type : string) (dst : RecordRef)
    (fields : list (string * Literal)) : M S QueryResult :=
  _ ← EdgeStores.relate (EdgeStores.new ns db edge_type) (edge_of src edge_type dst fields);
  mret QOk.

(** The accumulators of [execute_batch]. *)
Record batch_state := MkBatch {
  all_puts : kvs;
  all_deletes : list bytes;
  b_created : nat;
  b_updated : nat;
  idx_cache : gmap string (list IndexDefinition)
}.

Definition cached_definitions (table : string) (b : batch_state) :
    M S (list IndexDefinition * batch_state) :=
  match idx_cache b !! table with
  | Some defs => mret (defs, b)
  | None =>
      defs ← load_index_definitions ns db table;
      mret (defs, MkBatch (all_puts b) (all_deletes b) (b_created b) (b_updated b)
                    (<[table := defs]> (idx_cache b)))
  end.

Definition batch_step (uuid : string) (stmt : Statement) (b : batch_state) : M S batch_state :=
  match stmt with
  | Create table id fields on_conflict =>
      '(defs, b) ← cached_definitions table b;
      let coll := Collections.with_indexes (Collections.new ns db table) defs in
      let doc := set_fields (Documents.new (RecordIds.generate uuid table)) fields in
      match on_conflict with
      | Some conflict =>
          id_str ← lift (ok_or id (Core.Query "ON CONFLICT UPDATE requires an explicit record ID"));
          let update_fields := match conflict with
                               | OnUpdate => to_fields fields
                               | OnUpdateSet update_set => to_fields update_set
                               end in
          '(_, was_created, puts, deletes) ← Collections.upsert_to_ops coll id_str doc update_fields;
          mret (MkBatch (all_puts b ++ puts) (all_deletes b ++ deletes)
                  (if was_created : bool then b_created b + 1 else b_created b)
                  (if was_created then b_updated b else b_updated b + 1) (idx_cache b))
      | None =>
          let id_str := match id with Some s => s | None => rid_id (doc_id doc) end in
          '(_, puts) ← lift (Collections.create_to_ops coll id_str doc);
          mret (MkBatch (all_puts b ++ puts) (all_deletes b) (b_created b + 1) (b_updated b) (idx_cache b))
      end
  | Relate src edge_type dst fields =>
      puts ← lift (EdgeStores.relate_to_ops (EdgeStores.new ns db edge_type) (edge_of src edge_type dst fields));
      mret (MkBatch (all_puts b ++ puts) (all_deletes b) (b_created b) (b_updated b) (idx_cache b))
  | _ => throw (Core.Query "only CREATE and RELATE statements are supported inside BEGIN BATCH")
  end.

(** The statements in order, each with the identifier it may draw. *)
Fixpoint batch_loop (stmts : list (string * Statement)) (b : batch_state) : M S batch_state :=
  match stmts with
  | [] => mret b
  | (uuid, stmt) :: stmts' => b' ← batch_step uuid stmt b; batch_loop stmts' b'
  end.

(** [execute_batch] up to the version counters of the edge types. *)
Definition execute_batch (stmts : list (string * Statement)) : M S QueryResult :=
  b ← batch_loop stmts (MkBatch [] [] 0 0 ∅);
  _ ← DllbStorage.write_batch (all_puts b) (all_deletes b);
  mret (QBatch (length stmts) (b_created b) (b_updated b)).
End executor.
