(* ===== verification/PlannerSpec.v ===== *)
(** * What a plan promises

    A chosen plan is built from conjuncts of the filter: its equality values
    and bounds are atoms on the index's fields in order, and when it claims to
    cover the filter every conjunct is one of those atoms. *)

From S2P Require Export Planner.

(** Conjunct [c] is enforced by the index access of [plan]. *)
Inductive answers (idx : IndexDefinition) (plan : IndexPlan) (c : WhereClause) : Prop :=
  | ans_eq i f v : atom_of c = Some (f, AEq v) → ix_fields idx !! i = Some f →
      ip_eq plan !! i = Some v → answers idx plan c
  | ans_lower f v b : atom_of c = Some (f, ALower v b) →
      ix_fields idx !! length (ip_eq plan) = Some f → ip_lower plan = Some (v, b) →
      answers idx plan c
  | ans_upper f v b : atom_of c = Some (f, AUpper v b) →
      ix_fields idx !! length (ip_eq plan) = Some f → ip_upper plan = Some (v, b) →
      answers idx plan c.

(** The parts of [plan] come from the conjuncts. *)
Record plan_ok (idx : IndexDefinition) (conjuncts : list WhereClause) (plan : IndexPlan) : Prop := {
  po_name : ip_index_name plan = ix_name idx;
  po_count : ip_field_count plan = length (ix_fields idx);
  po_fields : ix_fields idx ≠ [];
  po_len : length (ip_eq plan) ≤ length (ix_fields idx);
  po_bounds : ip_lower plan ≠ None ∨ ip_upper plan ≠ None →
    length (ip_eq plan) < length (ix_fields idx);
  po_eq : ∀ i v, ip_eq plan !! i = Some v →
    ∃ c f, c ∈ conjuncts ∧ atom_of c = Some (f, AEq v) ∧ ix_fields idx !! i = Some f;
  po_lower : ∀ v b, ip_lower plan = Some (v, b) →
    ∃ c f, c ∈ conjuncts ∧ atom_of c = Some (f, ALower v b) ∧
      ix_fields idx !! length (ip_eq plan) = Some f;
  po_upper : ∀ v b, ip_upper plan = Some (v, b) →
    ∃ c f, c ∈ conjuncts ∧ atom_of c = Some (f, AUpper v b) ∧
      ix_fields idx !! length (ip_eq plan) = Some f
}.

(** ** The used flags *)
Definition count_true (l : list bool) : nat := length (List.filter (λ b, b) l).
Lemma count_true_cons b l : count_true (b :: l) = (if b then 1 else 0) + count_true l.
Proof. unfold count_true. simpl. by destruct b. Qed.
Lemma count_true_le l : count_true l ≤ length l.
Proof. induction l as [|b l IH]; [done|]. rewrite count_true_cons. simpl. destruct b; lia. Qed.
Lemma count_true_full l j b : count_true l = length l → l !! j = Some b → b = true.
Proof.
  revert j; induction l as [|x l IH]; intros [|j] Hc Hj; simplify_eq/=; rewrite count_true_cons in Hc;
    pose proof (count_true_le l); destruct b; try done; try (simpl in Hc; lia);
    destruct x; simpl in Hc; try lia; eapply (IH j); eauto; lia.
Qed.
Lemma count_true_replicate n : count_true (replicate n false) = 0.
Proof. by induction n. Qed.

(** ** One field *)
Lemma take_eq_spec field conjs : ∀ used v us,
  take_eq field conjs used = Some (v, us) → length used = length conjs →
  length us = length conjs ∧ count_true us = S (count_true used) ∧
  (∃ c, c ∈ conjs ∧ atom_of c = Some (field, AEq v)) ∧
  ∀ j c, us !! j = Some true → conjs !! j = Some c →
    used !! j = Some true ∨ atom_of c = Some (field, AEq v).
Proof.
  induction conjs as [|c conjs IH]; intros [|u used] v us; simpl; try done.
  intros Ht Hlen. injection Hlen as Hlen.
  assert ((∃ us', take_eq field conjs used = Some (v, us') ∧ us = u :: us') ∨
          (u = false ∧ atom_of c = Some (field, AEq v) ∧ us = true :: used)) as [(us' & E & ->)|(-> & Ha & ->)].
  { destruct (take_eq field conjs used) as [[v' us']|] eqn:E; simpl in Ht.
    - destruct u; [by simplify_eq; eauto|]. destruct (atom_of c) as [[f []]|]; try by simplify_eq; eauto.
      destruct (String.eqb_spec f field); simplify_eq; eauto.
    - destruct u; [done|]. destruct (atom_of c) as [[f []]|]; try done.
      destruct (String.eqb_spec f field); simplify_eq; eauto. }
  - destruct (IH used v us' E Hlen) as (L & Hc & (c' & Hin & Ha) & Hj).
    rewrite !count_true_cons, Hc. simpl. split_and!; [lia|destruct u; lia|exists c'; split; [by right|done]|].
    intros [|j] c0 Hu Hcj; simplify_eq/=; [by left|by apply Hj].
  - rewrite !count_true_cons. simpl. split_and!; [lia|done|exists c; split; [by left|done]|].
    intros [|j] c0 Hu Hcj; simplify_eq/=; [by right|by left].
Qed.

(** A bound is kept or taken from a conjunct. *)
Definition bound_from (kind : Value → bool → AtomKind) (field : string) (conjs : list WhereClause)
    (old new : option RangeBound) : Prop :=
  new = old ∨
  old = None ∧ ∃ v b c, new = Some (v, b) ∧ c ∈ conjs ∧ atom_of c = Some (field, kind v b).

Lemma bound_from_cons kind field c conjs old new :
  bound_from kind field conjs old new → bound_from kind field (c :: conjs) old new.
Proof.
  intros [->|(-> & v & b & c' & -> & Hin & Ha)]; [by left|]. right. split; [done|].
  exists v, b, c'. split_and!; [done|by right|done].
Qed.
Lemma bound_from_take kind field c conjs v b new :
  atom_of c = Some (field, kind v b) →
  bound_from kind field conjs (Some (v, b)) new → new = Some (v, b) ∧ bound_from kind field (c :: conjs) None new.
Proof.
  intros Ha [->|(? & _)]; [|done]. split; [done|]. right. split; [done|].
  exists v, b, c. split_and!; [done|by left|done].
Qed.

Lemma take_bounds_spec field conjs : ∀ used lo up n lo' up' us n',
  take_bounds field conjs used lo up n = (lo', up', us, n') → length used = length conjs →
  length us = length conjs ∧ count_true us + n = count_true used + n' ∧
  bound_from ALower field conjs lo lo' ∧ bound_from AUpper field conjs up up' ∧
  ∀ j c, us !! j = Some true → conjs !! j = Some c →
    used !! j = Some true ∨
    (∃ v b, lo' = Some (v, b) ∧ atom_of c = Some (field, ALower v b)) ∨
    (∃ v b, up' = Some (v, b) ∧ atom_of c = Some (field, AUpper v b)).
Proof.
  induction conjs as [|c conjs IH]; intros [|u used] lo up n lo' up' us n'; cbn [take_bounds length]; try done.
  { intros [= -> -> <- ->] _. split_and!; [done|done|by left|by left|]. by intros [|]. }
  intros Ht Hlen. injection Hlen as Hlen.
  (* one recursive call, and how it extends *)
  assert (∀ u1 lo1 up1 n1,
    (let '(lo0, up0, us0, n0) := take_bounds field conjs used lo1 up1 n1 in (lo0, up0, u1 :: us0, n0))
      = (lo', up', us, n') →
    ∃ us0, us = u1 :: us0 ∧ take_bounds field conjs used lo1 up1 n1 = (lo', up', us0, n')) as Hrec.
  { intros u1 lo1 up1 n1. destruct (take_bounds field conjs used lo1 up1 n1) as [[[lo0 up0] us0] n0].
    intros [= -> -> <- ->]. eauto. }
  assert ((∃ us0, us = u :: us0 ∧ take_bounds field conjs used lo up n = (lo', up', us0, n')) ∨
    (u = false ∧ ∃ v b us0, us = true :: us0 ∧
      ((lo = None ∧ atom_of c = Some (field, ALower v b) ∧
        take_bounds field conjs used (Some (v, b)) up (S n) = (lo', up', us0, n')) ∨
       (up = None ∧ atom_of c = Some (field, AUpper v b) ∧
        take_bounds field conjs used lo (Some (v, b)) (S n) = (lo', up', us0, n'))))) as Hcases.
  { destruct u; [left; by apply Hrec in Ht|].
    destruct (atom_of c) as [[f [v|v b|v b]]|] eqn:Ha; try (left; by apply Hrec in Ht).
    - destruct (String.eqb_spec f field) as [->|]; [|left; by apply Hrec in Ht].
      destruct lo as [r|]; [left; by apply Hrec in Ht|]. right. split; [done|].
      apply Hrec in Ht as (us0 & -> & Ht). exists v, b, us0. eauto.
    - destruct (String.eqb_spec f field) as [->|]; [|left; by apply Hrec in Ht].
      destruct up as [r|]; [left; by apply Hrec in Ht|]. right. split; [done|].
      apply Hrec in Ht as (us0 & -> & Ht). exists v, b, us0. eauto 10. }
  destruct Hcases as [(us0 & -> & E)|(-> & v & b & us0 & -> & [(-> & Ha & E)|(-> & Ha & E)])];
    destruct (IH _ _ _ _ _ _ _ _ E Hlen) as (L & Hc & Hlo & Hup & Hj); rewrite !count_true_cons; simpl.
  - split_and!; [lia|destruct u; lia|by apply bound_from_cons|by apply bound_from_cons|].
    intros [|j] c0 Hu Hcj; simplify_eq/=; [by left|by apply Hj].
  - apply (bound_from_take ALower field c) in Hlo as [-> Hlo]; [|done].
    split_and!; [lia|lia|done|by apply bound_from_cons|].
    intros [|j] c0 Hu Hcj; simplify_eq/=; [right; left; eauto|by apply Hj].
  - apply (bound_from_take AUpper field c) in Hup as [-> Hup]; [|done].
    split_and!; [lia|lia|by apply bound_from_cons|done|].
    intros [|j] c0 Hu Hcj; simplify_eq/=; [right; right; eauto|by apply Hj].
Qed.

(** ** One index *)
Section index_plan.
Context (idx : IndexDefinition) (conjs : list WhereClause).

(** The state of the loop after matching the fields [pre] by equality. *)
Record eq_state (pre : list string) (used : list bool) (eq : list Value) (n : nat) : Prop := {
  es_len : length used = length conjs;
  es_count : count_true used = n;
  es_eq_len : length eq = length pre;
  es_eq : ∀ i v, eq !! i = Some v →
    ∃ c f, c ∈ conjs ∧ atom_of c = Some (f, AEq v) ∧ pre !! i = Some f;
  es_used : ∀ j c, used !! j = Some true → conjs !! j = Some c →
    ∃ i f v, atom_of c = Some (f, AEq v) ∧ pre !! i = Some f ∧ eq !! i = Some v
}.

Lemma eq_state_snoc pre used eq n field v used' :
  eq_state pre used eq n → take_eq field conjs used = Some (v, used') →
  eq_state (pre ++ [field]) used' (eq ++ [v]) (S n).
Proof.
  intros [H1 H2 H3 H4 H5] Ht.
  destruct (take_eq_spec field conjs used v used' Ht H1) as (L & Hc & (c & Hin & Ha) & Hj). split.
  - done.
  - lia.
  - rewrite !length_app, H3. done.
  - intros i w [Hi|[Hi Hw]]%lookup_app_Some.
    + destruct (H4 i w Hi) as (c' & f & ? & ? & ?). exists c', f. split_and!; [done..|].
      by apply lookup_app_l_Some.
    + apply list_lookup_singleton_Some in Hw as [Hw ->]. exists c, field. split_and!; [done..|].
      replace i with (length pre) by lia. by apply list_lookup_middle.
  - intros j c' Hu Hcj. destruct (Hj j c' Hu Hcj) as [Hu'|Ha'].
    + destruct (H5 j c' Hu' Hcj) as (i & f & w & ? & ? & ?). exists i, f, w.
      split_and!; [done|by apply lookup_app_l_Some..].
    + exists (length pre), field, v. split_and!; [done|by apply list_lookup_middle|].
      rewrite <- H3. by apply list_lookup_middle.
Qed.

(** A plan built from the state and the bounds of the next field. *)
Lemma eq_state_plan pre rest used eq n lower upper us n' :
  ix_fields idx = pre ++ rest → eq_state pre used eq n → eq ≠ [] ∨ rest ≠ [] →
  (lower = None ∧ upper = None ∧ us = used ∧ n' = n) ∨
  (∃ field rest', rest = field :: rest' ∧
    take_bounds field conjs used None None n = (lower, upper, us, n')) →
  plan_ok idx conjs (make_plan idx eq lower upper) ∧
  (n' = length conjs → ∀ c, c ∈ conjs → answers idx (make_plan idx eq lower upper) c).
Proof.
  intros Hf [H1 H2 H3 H4 H5] Hne Hb.
  assert (ix_fields idx ≠ []) as Hfne.
  { rewrite Hf. intros [-> ->]%app_eq_nil. apply nil_length_inv in H3 as ->. naive_solver. }
  assert (∀ i f, pre !! i = Some f → ix_fields idx !! i = Some f) as Hpre
    by (intros; rewrite Hf; by apply lookup_app_l_Some).
  destruct Hb as [(-> & -> & -> & ->)|(field & rest' & -> & Ht)].
  - split.
    + split; simpl; [done|done|done|rewrite Hf, length_app; lia|by intros []| |done|done].
      intros i v Hi. destruct (H4 i v Hi) as (c & f & ? & ? & ?). eauto 8.
    + intros Hn c [j Hj]%list_elem_of_lookup.
      destruct (lookup_lt_is_Some_2 used j) as [b Hb]; [rewrite H1; by eapply lookup_lt_Some|].
      assert (b = true) as -> by (eapply count_true_full; [|exact Hb]; congruence).
      destruct (H5 j c Hb Hj) as (i & f & v & ? & ? & ?). eapply ans_eq; eauto.
  - destruct (take_bounds_spec field conjs used None None n _ _ _ _ Ht H1) as (L & Hc & Hlo & Hup & Hj).
    assert (ix_fields idx !! length eq = Some field) as Hfield.
    { rewrite Hf, H3. by apply list_lookup_middle. }
    split.
    + split; simpl; try done.
      * rewrite Hf, length_app. simpl. lia.
      * intros _. by apply lookup_lt_Some in Hfield.
      * intros i v Hi. destruct (H4 i v Hi) as (c & f & ? & ? & ?). eauto 8.
      * intros v b ->. destruct Hlo as [|(_ & v' & b' & c & [= -> ->] & ? & ?)]; [done|eauto 8].
      * intros v b ->. destruct Hup as [|(_ & v' & b' & c & [= -> ->] & ? & ?)]; [done|eauto 8].
    + intros Hn c [j Hjc]%list_elem_of_lookup.
      destruct (lookup_lt_is_Some_2 us j) as [b Hb]; [rewrite L; by eapply lookup_lt_Some|].
      assert (b = true) as -> by (eapply count_true_full; [|exact Hb]; lia).
      destruct (Hj j c Hb Hjc) as [Hu|[(v & b & -> & Ha)|(v & b & -> & Ha)]].
      * destruct (H5 j c Hu Hjc) as (i & f & v & ? & ? & ?). eapply ans_eq; eauto.
      * by eapply ans_lower.
      * by eapply ans_upper.
Qed.

Lemma plan_fields_spec fields : ∀ pre used eq n plan consumed,
  ix_fields idx = pre ++ fields → eq_state pre used eq n →
  plan_fields idx conjs fields used eq n = Some (plan, consumed) →
  plan_ok idx conjs plan ∧ (consumed = length conjs → ∀ c, c ∈ conjs → answers idx plan c).
Proof.
  induction fields as [|field fields IH]; intros pre used eq n plan consumed Hf Hs Hp; cbn [plan_fields] in Hp.
  - assert (Some (make_plan idx eq None None, n) = Some (plan, consumed)) as [= <- <-] by (by destruct eq).
    eapply eq_state_plan; eauto. left. by intros ->.
  - destruct (take_eq field conjs used) as [[v used']|] eqn:Et.
    + eapply (IH (pre ++ [field])); [by rewrite <- app_assoc|by eapply eq_state_snoc|done].
    + destruct (take_bounds field conjs used None None n) as [[[lo up] us] n'] eqn:Eb.
      assert (Some (make_plan idx eq lo up, n') = Some (plan, consumed)) as [= <- <-].
      { destruct lo, up; simpl in Hp; try done. by destruct eq. }
      eapply eq_state_plan; eauto 6.
Qed.

Lemma plan_for_index_spec plan consumed :
  plan_for_index idx conjs = Some (plan, consumed) →
  plan_ok idx conjs plan ∧ (consumed = length conjs → ∀ c, c ∈ conjs → answers idx plan c).
Proof.
  intros Hp. eapply (plan_fields_spec _ []); [done| |exact Hp]. split; simpl.
  - by rewrite length_replicate.
  - apply count_true_replicate.
  - done.
  - done.
  - intros j c Hu. apply lookup_replicate in Hu as [? _]. done.
Qed.
End index_plan.

(** ** The chosen plan *)
Lemma best_plan_spec conjs indexes : ∀ best r,
  best_plan indexes conjs best = Some r →
  best = Some r ∨ ∃ idx, idx ∈ indexes ∧ IndexDefinitions.is_btree idx = true ∧
    plan_for_index idx conjs = Some r.
Proof.
  induction indexes as [|idx indexes IH]; intros best r; cbn [best_plan]; [by left|].
  destruct (IndexDefinitions.is_btree idx) eqn:Hb; simpl.
  2:{ intros [|(i & ? & ? & ?)]%IH; [by left|right; exists i; split_and!; [by right|done..]]. }
  destruct (plan_for_index idx conjs) as [p|] eqn:Ep.
  2:{ intros [|(i & ? & ? & ?)]%IH; [by left|right; exists i; split_and!; [by right|done..]]. }
  intros [E|(i & ? & ? & ?)]%IH; [|right; exists i; split_and!; [by right|done..]].
  destruct (match best with None => true | Some b => better p b end); [|by left].
  injection E as ->. right. exists idx. split_and!; [by left|done..].
Qed.

(** A plan is sound for one of the BTree indexes, and complete for the filter
    when it covers it. *)
Lemma plan_index_lookup_spec indexes clause plan :
  plan_index_lookup indexes clause = Some plan →
  ∃ idx, idx ∈ indexes ∧ IndexDefinitions.is_btree idx = true ∧
    plan_ok idx (collect_conjuncts clause) plan ∧
    (ip_covers plan = true → ∀ c, c ∈ collect_conjuncts clause → answers idx plan c).
Proof.
  unfold plan_index_lookup. destruct indexes as [|i0 indexes]; [done|].
  destruct (best_plan _ _ None) as [[p n]|] eqn:E; simpl; [|done]. intros [= <-].
  apply best_plan_spec in E as [|(idx & Hin & Hb & Hp)]; [done|].
  apply plan_for_index_spec in Hp as [Hok Hc]. exists idx. split_and!; [done..| |].
  - by destruct Hok.
  - intros Hcov%Nat.eqb_eq c Hin'. destruct (Hc Hcov c Hin') as [i f v|f v b|f v b];
      [by eapply ans_eq|by eapply ans_lower|by eapply ans_upper].
Qed.

Lemma matches_conjuncts `{CodeIntel} doc clause :
  matches_where doc clause = true ↔ ∀ c, c ∈ collect_conjuncts clause → matches_where doc c = true.
Proof.
  induction clause as [f op v|l IHl r IHr|f n].
  2:{ simpl. rewrite andb_true_iff, IHl, IHr. set_solver. }
  all: split; [by intros Hm c ->%list_elem_of_singleton|intros Hm; by apply Hm; left].
Qed.
