(* ===== verification/PlanExact.v ===== *)
(** * When an index answers a filter

    Index entries compare encodings, filters compare values.  The two agree
    on documents whose constrained fields have the literal's type; there an
    index access returns the rows a scan would. *)

From S2P Require Export PlannerSpec CollectionSpec Executor.

(** ** Values and encodings *)

(** A stored value and a literal whose index order is the filter's order: the
    same scalar type, no NaN, and zeros of one sign. *)
Definition agrees (v t : Value) : Prop :=
  match v, t with
  | VString _, VString _ | VBool _, VBool _ => True
  | VInt x, VInt y => i64_range x ∧ i64_range y
  | VFloat x, VFloat y =>
      f64_wf x ∧ f64_wf y ∧ is_nan x = false ∧ is_nan y = false ∧
      (magnitude x = 0%Z → magnitude y = 0%Z → x = y)
  | _, _ => False
  end.

Lemma f64_key_rank_cmp x y :
  f64_wf x → f64_wf y → (magnitude x = 0%Z → magnitude y = 0%Z → x = y) →
  Z.compare (f64_key x) (f64_key y) = Z.compare (f64_rank x) (f64_rank y).
Proof.
  intros Hx Hy Hz. destruct (Z.compare_spec (f64_rank x) (f64_rank y)) as [E|E|E].
  - assert (x = y) as ->; [|apply Z.compare_refl]. unfold f64_rank in E.
    pose proof (magnitude_range x). pose proof (magnitude_range y).
    pose proof (f64_split x Hx) as Sx. pose proof (f64_split y Hy) as Sy. destruct x as [x], y as [y].
    destruct (is_sign_negative _) eqn:Ex, (is_sign_negative (F64 y)) eqn:Ey; try (apply Hz; lia);
      f_equal; cbn [to_bits] in *; lia.
  - apply f64_key_rank in E. by apply Z.compare_lt_iff.
  - apply f64_key_rank in E. by apply Z.compare_gt_iff.
Qed.

Lemma agrees_encode v t :
  agrees v t → ∃ x y, encode_index_value v = Ok x ∧ encode_index_value t = Ok y ∧
    Values.eqb v t = bool_decide (x = y) ∧
    (cmp_values v t = Some (ord_cmp x y) ∨ (∃ b, t = VBool b) ∧ cmp_values v t = None).
Proof.
  assert (∀ c x y, ord_cmp x y = c → match c with Eq => true | _ => false end = bool_decide (x = y :> bytes))
    as Hd.
  { intros c x y <-. destruct (ord_cmp x y) eqn:E.
    - apply ord_eq_iff in E as ->. by rewrite bool_decide_eq_true_2.
    - rewrite bool_decide_eq_false_2; [done|]. intros ->. by rewrite ord_refl in E.
    - rewrite bool_decide_eq_false_2; [done|]. intros ->. by rewrite ord_refl in E. }
  destruct v, t; try done; simpl.
  - intros _. eexists _, _. do 2 (split; [reflexivity|]). split; [|eauto]. by destruct b, b0.
  - intros [Hx Hy]. eexists _, _. do 2 (split; [reflexivity|]). rewrite encode_i64_cmp by done.
    split; [|by left]. rewrite <- (Hd _ _ _ (encode_i64_cmp _ _ Hx Hy)). by rewrite Z.eqb_compare.
  - intros (Hx & Hy & Nx & Ny & Hz). eexists _, _. do 2 (split; [reflexivity|]).
    assert (ord_cmp (encode_f64 f) (encode_f64 f0) = Z.compare (f64_rank f) (f64_rank f0)) as E
      by (by rewrite encode_f64_cmp, f64_key_rank_cmp).
    unfold f64_eqb, f64_partial_cmp. rewrite Nx, Ny, E. simpl. split; [|by left].
    by apply Hd in E.
  - intros _. eexists _, _. do 2 (split; [reflexivity|]). rewrite string_cmp. split; [|by left].
    destruct (String.eqb_spec s s0) as [->|Hn]; [by rewrite bool_decide_eq_true_2|].
    rewrite bool_decide_eq_false_2; [done|]. intros E%(inj as_bytes). done.
Qed.

(** A comparison with a bound, on values and on encodings. *)
Lemma agrees_lower v t incl x y :
  agrees v t → encode_index_value v = Ok x → encode_index_value t = Ok y →
  (matches_cmp (if incl : bool then OpGte else OpGt) v t = true → above (Some (y, incl)) x = true) ∧
  ((∀ b, t ≠ VBool b) → above (Some (y, incl)) x = true →
   matches_cmp (if incl then OpGte else OpGt) v t = true).
Proof.
  intros Ha Hx Hy. destruct (agrees_encode v t Ha) as (x' & y' & Hx' & Hy' & _ & Hc).
  rewrite Hx in Hx'. rewrite Hy in Hy'. simplify_eq.
  assert (∀ c, ord_cmp x' y' = c → leb y' x' = (match c with Lt => false | _ => true end) ∧
            ltb y' x' = (match c with Gt => true | _ => false end)) as Hl.
  { intros c <-. unfold leb, ltb. rewrite (ord_opp x' y'). by destruct (ord_cmp x' y'). }
  destruct (Hl _ eq_refl) as [L1 L2].
  destruct Hc as [Hc|[[b ->] Hc]].
  - destruct incl; cbn [matches_cmp above]; rewrite Hc, ?L1, ?L2; by destruct (ord_cmp x' y').
  - destruct incl; cbn [matches_cmp above]; rewrite Hc; (split; [done|intros Hn; by destruct (Hn b)]).
Qed.
Lemma agrees_upper v t incl x y :
  agrees v t → encode_index_value v = Ok x → encode_index_value t = Ok y →
  (matches_cmp (if incl : bool then OpLte else OpLt) v t = true → below (Some (y, incl)) x = true) ∧
  ((∀ b, t ≠ VBool b) → below (Some (y, incl)) x = true →
   matches_cmp (if incl then OpLte else OpLt) v t = true).
Proof.
  intros Ha Hx Hy. destruct (agrees_encode v t Ha) as (x' & y' & Hx' & Hy' & _ & Hc).
  rewrite Hx in Hx'. rewrite Hy in Hy'. simplify_eq.
  destruct Hc as [Hc|[[b ->] Hc]].
  - destruct incl; cbn [matches_cmp below]; rewrite Hc; unfold leb, ltb; by destruct (ord_cmp x' y').
  - destruct incl; cbn [matches_cmp below]; rewrite Hc; (split; [done|intros Hn; by destruct (Hn b)]).
Qed.

(** ** Atoms *)
Definition atom_value (k : AtomKind) : Value :=
  match k with AEq v | ALower v _ | AUpper v _ => v end.
Definition atom_op (k : AtomKind) : CmpOp :=
  match k with
  | AEq _ => OpEq
  | ALower _ true => OpGte | ALower _ false => OpGt
  | AUpper _ true => OpLte | AUpper _ false => OpLt
  end.

Lemma atom_inv c f k :
  atom_of c = Some (f, k) → ∃ lit, c = WCmp (SField f) (atom_op k) lit ∧ atom_value k = to_value lit ∧
    ∃ r, encode_index_value (to_value lit) = Ok r.
Proof.
  destruct c as [[name| |] op lit| |]; try done. cbn [atom_of]. intros Ha. exists lit.
  destruct lit, op; simplify_eq/=; eauto 10.
Qed.
Lemma atom_encodes c f k : atom_of c = Some (f, k) → ∃ r, encode_index_value (atom_value k) = Ok r.
Proof. intros (lit & _ & -> & ?)%atom_inv. done. Qed.
Lemma atom_matches `{CodeIntel} c f k doc :
  atom_of c = Some (f, k) →
  matches_where doc c = match oget f (doc_fields doc) with
                        | Some dv => matches_cmp (atom_op k) dv (atom_value k)
                        | None => false
                        end.
Proof. by intros (lit & -> & -> & _)%atom_inv. Qed.

Lemma collect_values_lookup doc fs vs i f :
  collect_values doc fs = Some vs → fs !! i = Some f →
  ∃ v, vs !! i = Some v ∧ oget f (doc_fields doc) = Some v.
Proof.
  revert vs i; induction fs as [|g fs IH]; intros vs [|i]; simpl; try done.
  all: destruct (oget g (doc_fields doc)) as [v|] eqn:E; [|done]; destruct (Values.is_none v); [done|];
    destruct (collect_values doc fs) as [vs'|] eqn:Ec; [|done]; intros [= <-].
  - intros [= ->]. eauto.
  - intros Hi. by apply (IH vs' i).
Qed.
Lemma tuple_lookup doc idx raws i f :
  tuple_of doc idx = Some raws → ix_fields idx !! i = Some f →
  ∃ dv r, oget f (doc_fields doc) = Some dv ∧ raws !! i = Some r ∧ encode_index_value dv = Ok r.
Proof.
  intros (vs & Hc & Ht)%tuple_of_Some Hi. unfold collect_index_values in Hc.
  destruct (ix_fields idx) as [|g fs] eqn:Ef; [done|].
  destruct (collect_values_lookup _ _ _ _ _ Hc Hi) as (v & Hv & Hg).
  apply traverse_Forall2 in Ht. destruct (Forall2_lookup_l _ _ _ _ _ Ht Hv) as (r & Hr & He).
  exists v, r. done.
Qed.

(** ** Documents an index answers for *)

(** [doc] has an entry in [idx], and its values on the constrained fields
    compare with the literals as their encodings do. *)
Record fits (idx : IndexDefinition) (clause : WhereClause) (doc : Document) : Prop := {
  fit_tuple : is_Some (tuple_of doc idx);
  fit_agrees : ∀ c f k dv, c ∈ collect_conjuncts clause → atom_of c = Some (f, k) →
    f ∈ ix_fields idx → oget f (doc_fields doc) = Some dv → agrees dv (atom_value k)
}.

(** Bounds on booleans are never satisfied by values but select entries. *)
Definition ordered_bounds (plan : IndexPlan) : Prop :=
  (∀ b i, ip_lower plan ≠ Some (VBool b, i)) ∧ (∀ b i, ip_upper plan ≠ Some (VBool b, i)).

Section exact.
Context (idx : IndexDefinition) (clause : WhereClause) (plan : IndexPlan).
Hypothesis Hok : plan_ok idx (collect_conjuncts clause) plan.

Lemma plan_encodes : ∃ eqs rl ru,
  traverse encode_index_value (ip_eq plan) = Ok eqs ∧
  raw_bound_of (ip_lower plan) rl ∧ raw_bound_of (ip_upper plan) ru.
Proof using Hok.
  destruct Hok as [_ _ _ _ _ Heq Hlo Hup].
  assert (∃ eqs, traverse encode_index_value (ip_eq plan) = Ok eqs) as [eqs He].
  { assert (∀ v, v ∈ ip_eq plan → ∃ r, encode_index_value v = Ok r) as Hv.
    { intros v [i Hi]%list_elem_of_lookup. destruct (Heq i v Hi) as (c & f & _ & Ha & _).
      by apply atom_encodes in Ha. }
    clear -Hv. induction (ip_eq plan) as [|v l IH]; [by exists []|]. simpl.
    destruct (Hv v) as [r ->]; [by left|]. destruct IH as [rs ->]; [intros; apply Hv; by right|]. by eexists. }
  assert (∃ rl, raw_bound_of (ip_lower plan) rl) as [rl Hrl].
  { destruct (ip_lower plan) as [[v b]|]; [|by exists None].
    destruct (Hlo v b eq_refl) as (c & f & _ & Ha & _). apply atom_encodes in Ha as [r Hr]. by exists (Some (r, b)). }
  assert (∃ ru, raw_bound_of (ip_upper plan) ru) as [ru Hru].
  { destruct (ip_upper plan) as [[v b]|]; [|by exists None].
    destruct (Hup v b eq_refl) as (c & f & _ & Ha & _). apply atom_encodes in Ha as [r Hr]. by exists (Some (r, b)). }
  by exists eqs, rl, ru.
Qed.

(** The value and the encoding of an atom's field in a document that fits. *)
Lemma fits_field `{CodeIntel} doc raws c f k i :
  fits idx clause doc → tuple_of doc idx = Some raws → c ∈ collect_conjuncts clause →
  atom_of c = Some (f, k) → ix_fields idx !! i = Some f →
  ∃ dv r, raws !! i = Some r ∧ encode_index_value dv = Ok r ∧ agrees dv (atom_value k) ∧
    matches_where doc c = matches_cmp (atom_op k) dv (atom_value k).
Proof.
  intros [_ Hag] Ht Hin Ha Hi. destruct (tuple_lookup _ _ _ _ _ Ht Hi) as (dv & r & Hdv & Hr & He).
  exists dv, r. split_and!; [done|done| |].
  - eapply Hag; [done..|by eapply list_elem_of_lookup_2|done].
  - by rewrite (atom_matches c f k doc Ha), Hdv.
Qed.

Context (eqs : list bytes) (rl ru : raw_bound).
Hypothesis He : traverse encode_index_value (ip_eq plan) = Ok eqs.
Hypothesis Hrl : raw_bound_of (ip_lower plan) rl.
Hypothesis Hru : raw_bound_of (ip_upper plan) ru.

(** A matching document that fits is selected. *)
Lemma plan_complete `{CodeIntel} doc raws :
  fits idx clause doc → tuple_of doc idx = Some raws → matches_where doc clause = true →
  tuple_matches eqs rl ru raws.
Proof using Hok He Hrl Hru.
  intros Hfit Ht Hm. rewrite matches_conjuncts in Hm. pose proof (traverse_length _ _ _ He) as Hlen.
  pose proof He as Hf2. apply traverse_Forall2 in Hf2. split.
  - assert (eqs = take (length eqs) raws) as Hp; [|rewrite Hp; by apply prefix_take].
    apply list_eq. intros i. destruct (decide (i < length eqs)) as [Hi|Hi].
    2:{ rewrite lookup_take_ge by lia. by apply lookup_ge_None_2; lia. }
    rewrite lookup_take_lt by done. destruct (lookup_lt_is_Some_2 eqs i Hi) as [e Hei]. rewrite Hei.
    destruct (Forall2_lookup_r _ _ _ _ _ Hf2 Hei) as (v & Hv & Hev).
    destruct (po_eq _ _ _ Hok i v Hv) as (c & f & Hin & Ha & Hfi).
    destruct (fits_field doc raws c f _ i Hfit Ht Hin Ha Hfi) as (dv & r & Hr & Hdv & Hag & Hmc).
    rewrite (Hm c Hin) in Hmc. simpl in Hmc.
    destruct (agrees_encode _ _ Hag) as (x & y & Hx & Hy & Heqb & _). simpl in *.
    rewrite Heqb in Hmc. symmetry in Hmc. apply bool_decide_eq_true_1 in Hmc. congruence.
  - destruct (raws !! length eqs) as [w|] eqn:Hw; [|done]. split.
    + unfold raw_bound_of in Hrl. destruct (ip_lower plan) as [[v b]|] eqn:El, rl as [[r j]|]; try done.
      destruct Hrl as [Hev <-]. destruct (po_lower _ _ _ Hok v b El) as (c & f & Hin & Ha & Hfi).
      rewrite <- Hlen in Hfi.
      destruct (fits_field doc raws c f _ _ Hfit Ht Hin Ha Hfi) as (dv & r' & Hr & Hdv & Hag & Hmc).
      rewrite (Hm c Hin) in Hmc. simplify_eq. eapply (agrees_lower dv v b); done.
    + unfold raw_bound_of in Hru. destruct (ip_upper plan) as [[v b]|] eqn:El, ru as [[r j]|]; try done.
      destruct Hru as [Hev <-]. destruct (po_upper _ _ _ Hok v b El) as (c & f & Hin & Ha & Hfi).
      rewrite <- Hlen in Hfi.
      destruct (fits_field doc raws c f _ _ Hfit Ht Hin Ha Hfi) as (dv & r' & Hr & Hdv & Hag & Hmc).
      rewrite (Hm c Hin) in Hmc. simplify_eq. eapply (agrees_upper dv v b); done.
Qed.

(** A selected document that fits matches, when the plan covers the filter. *)
Lemma plan_sound `{CodeIntel} doc raws :
  (∀ c, c ∈ collect_conjuncts clause → answers idx plan c) → ordered_bounds plan →
  fits idx clause doc → tuple_of doc idx = Some raws → tuple_matches eqs rl ru raws →
  matches_where doc clause = true.
Proof using Hok He Hrl Hru.
  intros Hans [Hbl Hbu] Hfit Ht [Hp Hb]. apply matches_conjuncts. intros c Hin.
  pose proof (traverse_length _ _ _ He) as Hlen. pose proof He as Hf2. apply traverse_Forall2 in Hf2.
  destruct (Hans c Hin) as [i f v Ha Hfi Hv|f v b Ha Hfi Hv|f v b Ha Hfi Hv].
  - destruct (fits_field doc raws c f _ i Hfit Ht Hin Ha Hfi) as (dv & r & Hr & Hdv & Hag & ->).
    destruct (Forall2_lookup_l _ _ _ _ _ Hf2 Hv) as (e & Hei & Hev).
    destruct (agrees_encode _ _ Hag) as (x & y & Hx & Hy & Heqb & _). simpl in *. rewrite Heqb.
    apply bool_decide_eq_true_2. destruct Hp as [rest ->].
    rewrite lookup_app_l in Hr by (by eapply lookup_lt_Some). congruence.
  - rewrite <- Hlen in Hfi.
    destruct (fits_field doc raws c f _ _ Hfit Ht Hin Ha Hfi) as (dv & r & Hr & Hdv & Hag & ->).
    rewrite Hr in Hb. destruct Hb as [Hb _]. unfold raw_bound_of in Hrl. rewrite Hv in Hrl.
    destruct rl as [[r' j]|]; [|done]. destruct Hrl as [Hev <-].
    assert (∀ b0, v ≠ VBool b0) as Hnb by (intros b0 ->; by destruct (Hbl b0 b)).
    pose proof (proj2 (agrees_lower dv v b r r' Hag Hdv Hev) Hnb Hb) as Hm. by destruct b.
  - rewrite <- Hlen in Hfi.
    destruct (fits_field doc raws c f _ _ Hfit Ht Hin Ha Hfi) as (dv & r & Hr & Hdv & Hag & ->).
    rewrite Hr in Hb. destruct Hb as [_ Hb]. unfold raw_bound_of in Hru. rewrite Hv in Hru.
    destruct ru as [[r' j]|]; [|done]. destruct Hru as [Hev <-].
    assert (∀ b0, v ≠ VBool b0) as Hnb by (intros b0 ->; by destruct (Hbu b0 b)).
    pose proof (proj2 (agrees_upper dv v b r r' Hag Hdv Hev) Hnb Hb) as Hm. by destruct b.
Qed.
End exact.

(** ** Running a plan *)
Section run.
Context {S : Type} `{KL : KvLaws S} `{FL : FieldsCodecLaws} `{CodeIntel} (coll : Collection)
  (Hwf : coll_wf coll).

Implicit Types (s : S) (clause : WhereClause).

(** Every matching document fits the index of the plan. *)
Definition matching_fit (c : OMap bytes bytes) clause : Prop :=
  ∀ plan idx id doc, plan_index_lookup (co_indexes coll) clause = Some plan →
    idx ∈ co_indexes coll → ix_name idx = ip_index_name plan →
    stored c coll id = Some doc → matches_where doc clause = true → fits idx clause doc.

(** The plan's ids: all that match, and only those when it covers the filter
    and the stored documents with an entry fit. *)
Lemma run_plan_spec s clause plan :
  coll_inv (contents s) coll → plan_index_lookup (co_indexes coll) clause = Some plan →
  ∃ ids, run_index_plan coll plan s = (Ok ids, s) ∧ NoDup ids ∧
    (∀ id, id ∈ ids → is_Some (stored (contents s) coll id)) ∧
    (matching_fit (contents s) clause → ∀ id doc, stored (contents s) coll id = Some doc →
       matches_where doc clause = true → id ∈ ids) ∧
    (ip_covers plan = true → ordered_bounds plan →
     (∀ idx id doc, idx ∈ co_indexes coll → ix_name idx = ip_index_name plan →
        stored (contents s) coll id = Some doc → is_Some (tuple_of doc idx) → fits idx clause doc) →
     ∀ id doc, id ∈ ids → stored (contents s) coll id = Some doc → matches_where doc clause = true).
Proof using Hwf KL.
  intros Hinv Hp. destruct (plan_index_lookup_spec _ _ _ Hp) as (idx & Hin & Hb & Hok & Hcov).
  destruct (plan_encodes idx clause plan Hok) as (eqs & rl & ru & He & Hrl & Hru).
  pose proof (traverse_length _ _ _ He) as Hlen.
  destruct (lookup_run coll Hwf s idx (ip_eq plan) (ip_lower plan) (ip_upper plan) eqs rl ru)
    as (ids & Hrun & Hnd & Hids); try done.
  { by destruct Hok. }
  { rewrite Hlen. by destruct Hok. }
  { intros Hne. rewrite Hlen. apply (po_bounds _ _ _ Hok).
    destruct (ip_lower plan) as [[]|], rl as [[]|], (ip_upper plan) as [[]|], ru as [[]|]; try done;
      destruct Hne; (by left) || by right. }
  exists ids. split_and!; [|done|..].
  - unfold run_index_plan, Collections.find_ids_for_scan.
    by rewrite (po_name _ _ _ Hok), (po_count _ _ _ Hok).
  - intros id (doc & raws & Hst & _)%Hids. eauto.
  - intros Hfit id doc Hst Hm.
    assert (fits idx clause doc) as Hf by (eapply Hfit; eauto; by rewrite (po_name _ _ _ Hok)).
    destruct (fit_tuple _ _ _ Hf) as [raws Ht]. apply Hids. exists doc, raws. split_and!; [done..|].
    by eapply plan_complete.
  - intros Hc Hob Hfit id doc (doc' & raws & Hst' & Ht & Hm)%Hids Hst. simplify_eq.
    eapply (plan_sound idx clause plan Hok eqs rl ru); eauto.
    eapply Hfit; eauto. by rewrite (po_name _ _ _ Hok).
Qed.

(** What [scan_all] returns, as a description of the stored documents. *)
Definition all_docs (c : OMap bytes bytes) (docs : list Document) : Prop :=
  NoDup (map (λ d, rid_id (doc_id d)) docs) ∧
  ∀ id doc, stored c coll id = Some doc ↔ doc ∈ docs ∧ rid_id (doc_id doc) = id.

Lemma scan_all_run s :
  coll_inv (contents s) coll →
  ∃ docs, Collections.scan_all coll s = (Ok docs, s) ∧ all_docs (contents s) docs ∧
    Collections.count coll s = (Ok (length docs), s).
Proof using Hwf KL.
  intros Hinv. destruct (scans_run coll Hwf s Hinv) as (docs & R1 & _ & R3 & R4 & R5). by exists docs.
Qed.

(** Documents fetched by distinct stored ids. *)
Lemma omap_stored_ids c ids :
  (∀ id, id ∈ ids → is_Some (stored c coll id)) →
  map (λ d, rid_id (doc_id d)) (omap (stored c coll) ids) = ids.
Proof.
  induction ids as [|id ids IH]; intros Hs; [done|]. destruct (Hs id) as [d Hd]; [by left|].
  cbn [omap list_omap]. rewrite Hd. cbn [map]. f_equal; [by eapply stored_id|].
  apply IH. intros; apply Hs. by right.
Qed.

Lemma filter_perm (p : Document → bool) c docs all :
  NoDup (map (λ d, rid_id (doc_id d)) docs) → all_docs c all →
  (∀ doc, doc ∈ docs → stored c coll (rid_id (doc_id doc)) = Some doc) →
  (∀ id doc, stored c coll id = Some doc → p doc = true → doc ∈ docs) →
  List.filter p docs ≡ₚ List.filter p all.
Proof.
  intros Hnd [Hna Hall] Hst Hin.
  assert (∀ l : list Document, NoDup (map (λ d, rid_id (doc_id d)) l) → NoDup l) as Hmap
    by (intros; by eapply NoDup_fmap_1).
  apply NoDup_Permutation; [by apply NoDup_filter_bool, Hmap..|].
  intros d. rewrite !elem_filter_bool. split; intros [Hp Hd]; (split; [done|]).
  - by apply (Hall (rid_id (doc_id d))), Hst.
  - eapply Hin; [|done]. by apply Hall.
Qed.

(** The candidates are stored documents, each once, and include those that
    match and fit the index of the plan. *)
Lemma candidates_run s filter :
  coll_inv (contents s) coll →
  ∃ docs all, candidates coll filter s = (Ok docs, s) ∧ Collections.scan_all coll s = (Ok all, s) ∧
    all_docs (contents s) all ∧ NoDup (map (λ d, rid_id (doc_id d)) docs) ∧
    (∀ doc, doc ∈ docs → stored (contents s) coll (rid_id (doc_id doc)) = Some doc) ∧
    ((∀ clause, filter = Some clause → matching_fit (contents s) clause) →
      List.filter (keep filter) docs ≡ₚ List.filter (keep filter) all).
Proof using Hwf KL.
  intros Hinv. destruct (scan_all_run s Hinv) as (all & Hscan & Hall & _).
  unfold candidates, plan_of. destruct filter as [clause|]; cbn [mbind option_bind].
  2:{ exists all, all. split_and!; [done|done|done|by destruct Hall| |done].
      intros doc Hd. by apply Hall. }
  destruct (plan_index_lookup (Collections.indexes coll) clause) as [plan|] eqn:Hp.
  2:{ exists all, all. split_and!; [done|done|done|by destruct Hall| |done].
      intros doc Hd. by apply Hall. }
  destruct (run_plan_spec s clause plan Hinv Hp) as (ids & Hrun & Hnd & Hst & Hcomp & _).
  rewrite (SE_bind_ok _ _ s ids s Hrun), get_many_run by done.
  exists (omap (stored (contents s) coll) ids), all.
  assert (map (λ d, rid_id (doc_id d)) (omap (stored (contents s) coll) ids) = ids) as Hm
    by (by apply omap_stored_ids).
  assert (∀ doc, doc ∈ omap (stored (contents s) coll) ids →
    stored (contents s) coll (rid_id (doc_id doc)) = Some doc) as Hdocs.
  { intros doc (id & _ & Hd)%list_elem_of_omap. by rewrite (stored_id _ _ _ _ Hd). }
  split_and!; [done|done|done|by rewrite Hm|done|].
  intros Hfit. apply (filter_perm _ (contents s)); [by rewrite Hm|done|done|].
  intros id doc Hd Hk. apply list_elem_of_omap. exists id. split; [|done].
  eapply Hcomp; eauto.
Qed.
End run.
