(* ===== verification/ExecutorRows.v ===== *)
(** * Row-wise statements

    The loops of filtered deletes and updates, run against the stored
    documents they were given. *)

From S2P Require Export PlanExact IndexTheorems.

Section rows.
Context {S : Type} `{KL : KvLaws S} `{FL : FieldsCodecLaws} `{CodeIntel} (coll : Collection)
  (Hwf : coll_wf coll).

Implicit Types (s : S) (doc : Document).

Abbreviation id_of doc := (rid_id (doc_id doc)).

(** Keys of other tables, and of other documents of this one. *)
Definition outside (docs : list Document) (k : bytes) : Prop :=
  ¬ index_region coll k ∧ ∀ doc, doc ∈ docs → k ≠ Collections.doc_key coll (id_of doc).

(** The effect [f] of a loop on the documents it has passed: [None] removes,
    [Some d] replaces. *)
Record rows_changed (f : Document → option Document) (c : OMap bytes bytes) (docs : list Document)
    (c' : OMap bytes bytes) : Prop := {
  rc_in : ∀ doc, doc ∈ docs → stored c' coll (id_of doc) = f doc;
  rc_out : ∀ id, (∀ doc, doc ∈ docs → id_of doc ≠ id) → stored c' coll id = stored c coll id;
  rc_frame : ∀ k, outside docs k → oget k c' = oget k c
}.

Lemma rows_changed_nil f c : rows_changed f c [] c.
Proof. split; [intros ? []%elem_of_nil|done|done]. Qed.

Lemma NoDup_ids_prefix (l k : list Document) :
  NoDup (map (λ d, id_of d) (l ++ k)) → NoDup (map (λ d, id_of d) l).
Proof. rewrite map_app. by intros [? _]%NoDup_app. Qed.

(** A row that the loop leaves alone. *)
Lemma rows_changed_skip f c c' doc docs :
  stored c coll (id_of doc) = f doc → NoDup (map (λ d, id_of d) (doc :: docs)) →
  rows_changed f c docs c' → rows_changed f c (doc :: docs) c'.
Proof.
  intros Hf Hnd [G1 G2 G3]. inversion Hnd as [|? ? Hn _]; subst.
  assert (∀ d, d ∈ docs → id_of d ≠ id_of doc) as Hne.
  { intros d Hd E. apply Hn. apply list_elem_of_fmap. by exists d. }
  split.
  - intros d [->|Hd]%elem_of_cons; [|by apply G1]. rewrite G2; [done|]. done.
  - intros id Hid. apply G2. intros d Hd. apply Hid. by right.
  - intros k [Hk1 Hk2]. apply G3. split; [done|]. intros d Hd. apply Hk2. by right.
Qed.
(** A row written, and then the rest. *)
Lemma rows_changed_cons f c c1 c' doc docs :
  written coll c (id_of doc) (f doc) c1 → NoDup (map (λ d, id_of d) (doc :: docs)) →
  rows_changed f c1 docs c' → rows_changed f c (doc :: docs) c'.
Proof.
  intros Hw Hnd [G1 G2 G3]. inversion Hnd as [|? ? Hn _]; subst.
  assert (∀ d, d ∈ docs → id_of d ≠ id_of doc) as Hne.
  { intros d Hd E. apply Hn. apply list_elem_of_fmap. by exists d. }
  split.
  - intros d [->|Hd]%elem_of_cons; [|by apply G1]. rewrite G2; [by apply (wr_id _ _ _ _ _ Hw)|done].
  - intros id Hid. rewrite G2 by (intros d Hd; apply Hid; by right).
    apply (wr_other _ _ _ _ _ Hw). intros ->. by destruct (Hid doc); [left|].
  - intros k [Hk1 Hk2]. rewrite G3 by (split; [done|intros d Hd; apply Hk2; by right]).
    apply (wr_frame _ _ _ _ _ Hw); [apply Hk2; by left|done].
Qed.

Lemma stored_docs_written c id new c' doc docs :
  written coll c id new c' → id = id_of doc → NoDup (map (λ d, id_of d) (doc :: docs)) →
  (∀ d, d ∈ doc :: docs → stored c coll (id_of d) = Some d) →
  ∀ d, d ∈ docs → stored c' coll (id_of d) = Some d.
Proof.
  intros Hw -> Hnd Hst d Hd. inversion Hnd as [|? ? Hn _]; subst.
  rewrite (wr_other _ _ _ _ _ Hw); [apply Hst; by right|]. intros E. apply Hn.
  apply list_elem_of_fmap. by exists d.
Qed.

(** ** Filtered deletes *)
Definition deleted (filter : option WhereClause) doc : option Document :=
  if keep filter doc then None else Some doc.

Lemma delete_rows_run filter docs : ∀ s n,
  coll_inv (contents s) coll → NoDup (map (λ d, id_of d) docs) →
  (∀ d, d ∈ docs → stored (contents s) coll (id_of d) = Some d) →
  ∃ s', delete_rows coll filter docs n s = (Ok (n + length (List.filter (keep filter) docs)), s') ∧
    coll_inv (contents s') coll ∧ rows_changed (deleted filter) (contents s) docs (contents s').
Proof using Hwf KL FL.
  induction docs as [|doc docs IH]; intros s n Hinv Hnd Hst; cbn [delete_rows List.filter].
  { exists s. rewrite Nat.add_0_r. split_and!; [done|done|apply rows_changed_nil]. }
  assert (stored (contents s) coll (id_of doc) = Some doc) as Hd by (apply Hst; by left).
  inversion Hnd as [|? ? _ Hnd']; subst. destruct (keep filter doc) eqn:Hk.
  - pose proof (delete_run coll Hwf s (id_of doc) Hinv) as Hr. rewrite Hd in Hr.
    destruct Hr as (s1 & Hr & Hi & Hw). rewrite (SE_bind_ok _ _ s true s1 Hr).
    destruct (IH s1 (n + 1) Hi Hnd') as (s' & Hr' & Hi' & Hc); [by eapply stored_docs_written|].
    exists s'. rewrite Hr'. split_and!; [do 2 f_equal; simpl; lia|done|].
    eapply rows_changed_cons; [|done|exact Hc]. unfold deleted. by rewrite Hk.
  - destruct (IH s n Hinv Hnd') as (s' & Hr' & Hi' & Hc); [intros; apply Hst; by right|].
    exists s'. split_and!; [done|done|]. apply rows_changed_skip; [|done|done].
    unfold deleted. by rewrite Hk.
Qed.

Lemma deleted_stored filter docs c c' id :
  NoDup (map (λ d, id_of d) docs) → (∀ d, d ∈ docs → stored c coll (id_of d) = Some d) →
  rows_changed (deleted filter) c docs c' →
  stored c' coll id =
    if decide (id ∈ map (λ d, id_of d) (List.filter (keep filter) docs)) then None else stored c coll id.
Proof.
  intros Hnd Hst Hch. destruct (decide (id ∈ map (λ d, id_of d) docs)) as [(d & -> & Hd)%list_elem_of_fmap|Hn].
  - rewrite (rc_in _ _ _ _ Hch) by done. unfold deleted. rewrite (Hst d Hd). destruct (keep filter d) eqn:Hk.
    + rewrite decide_True; [done|]. apply list_elem_of_fmap. exists d. by rewrite elem_filter_bool.
    + rewrite decide_False; [done|]. intros (d' & E & [Hk' Hd']%elem_filter_bool)%list_elem_of_fmap.
      pose proof (Hst d Hd) as H1'. rewrite E, (Hst d' Hd') in H1'. congruence.
  - rewrite (rc_out _ _ _ _ Hch), decide_False; [done| |].
    + intros (d & -> & [_ Hd]%elem_filter_bool)%list_elem_of_fmap. apply Hn. apply list_elem_of_fmap. by exists d.
    + intros d Hd <-. apply Hn. apply list_elem_of_fmap. by exists d.
Qed.
Lemma NoDup_map_filter {A B} (f : A → B) (p : A → bool) l : NoDup (map f l) → NoDup (map f (List.filter p l)).
Proof.
  induction l as [|x l IH]; [done|]. simpl. intros [Hx Hl]%NoDup_cons. destruct (p x); [|by apply IH]. simpl.
  apply NoDup_cons. split; [|by apply IH]. intros (y & E & [_ Hy]%elem_filter_bool)%list_elem_of_fmap. apply Hx. rewrite E.
  by apply list_elem_of_fmap_2.
Qed.

(** ** Filtered updates *)
Definition merged (filter : option WhereClause) (fields : Fields) doc : option Document :=
  Some (if keep filter doc then Collections.merge_fields doc fields else doc).

Lemma merge_run s id fields :
  coll_inv (contents s) coll →
  match stored (contents s) coll id with
  | None => Collections.merge coll id fields s = (Err (Collections.not_found id), s)
  | Some old => ∃ r s', Collections.merge coll id fields s = (r, s') ∧
      ((r = Ok tt ∧ replaceable coll (Collections.merge_fields old fields) ∧ coll_inv (contents s') coll ∧
        written coll (contents s) id (Some (Collections.merge_fields old fields)) (contents s')) ∨
       ((∃ e, r = Err e) ∧ s' = s ∧ ¬ replaceable coll (Collections.merge_fields old fields)))
  end.
Proof using Hwf KL FL.
  intros Hinv. by apply (modify_run coll Hwf (λ d, Collections.merge_fields d fields)).
Qed.

(** The loop passes a prefix of the rows; it stops early exactly at a matching
    row whose replacement is refused. *)
Lemma update_rows_run filter fields docs : ∀ s n,
  coll_inv (contents s) coll → NoDup (map (λ d, id_of d) docs) →
  (∀ d, d ∈ docs → stored (contents s) coll (id_of d) = Some d) →
  ∃ r s' passed rest, update_rows coll filter fields docs n s = (r, s') ∧
    docs = passed ++ rest ∧ coll_inv (contents s') coll ∧
    rows_changed (merged filter fields) (contents s) passed (contents s') ∧
    (r = Ok (n + length (List.filter (keep filter) docs)) ∧ rest = [] ∨
     ∃ e d rest', r = Err e ∧ rest = d :: rest' ∧ keep filter d = true ∧
       ¬ replaceable coll (Collections.merge_fields d fields)).
Proof using Hwf KL FL.
  induction docs as [|doc docs IH]; intros s n Hinv Hnd Hst; cbn [update_rows List.filter].
  { exists (Ok n), s, [], []. rewrite Nat.add_0_r. split_and!; [done|done|done|apply rows_changed_nil|by left]. }
  assert (stored (contents s) coll (id_of doc) = Some doc) as Hd by (apply Hst; by left).
  inversion Hnd as [|? ? _ Hnd']; subst. destruct (keep filter doc) eqn:Hk.
  - pose proof (merge_run s (id_of doc) fields Hinv) as Hr. rewrite Hd in Hr.
    destruct Hr as (r & s1 & Hr & [(-> & Hrep & Hi & Hw)|([e ->] & -> & Hn)]).
    + rewrite (SE_bind_ok _ _ s tt s1 Hr).
      destruct (IH s1 (n + 1) Hi Hnd') as (r & s' & passed & rest & Hr' & -> & Hi' & Hc & Hres);
        [by eapply stored_docs_written|].
      exists r, s', (doc :: passed), rest. split_and!; [done|done|done| |].
      * eapply rows_changed_cons; [unfold merged; by rewrite Hk| |exact Hc].
        by apply (NoDup_ids_prefix (doc :: passed) rest).
      * destruct Hres as [[-> ->]|Hres]; [left|by right]. split; [|done]. f_equal. simpl. lia.
    + rewrite (SE_bind_err _ _ s e s Hr). exists (Err e), s, [], (doc :: docs).
      split_and!; [done|done|done|apply rows_changed_nil|]. right. by exists e, doc, docs.
  - destruct (IH s n Hinv Hnd') as (r & s' & passed & rest & Hr' & -> & Hi' & Hc & Hres);
      [intros; apply Hst; by right|].
    exists r, s', (doc :: passed), rest. split_and!; [done|done|done| |done].
    apply rows_changed_skip; [unfold merged; by rewrite Hk| |done].
    by apply (NoDup_ids_prefix (doc :: passed) rest).
Qed.
End rows.

(** * A table with two indexes, built by statements

    The concrete store on which the theorems about statements are applied. *)

(** No code-intelligence documents: every AST parse fails. *)
#[export] Instance no_code_intel : CodeIntel := {|
  MetaNode := unit; DiffSummary := unit; ClonePair := unit;
  node_from_str _ := None; nodes_from_str _ := None;
  complexity_estimate _ := 1%Z; subtree_hash _ := 0%Z;
  structural_similarity _ _ := f64_one; diff_trees _ _ := tt;
  scope_at _ _ := []; find_clones _ _ := [];
  diff_to_string _ := None; scope_to_string _ := None; clones_to_string _ := None
|}.

(** A store that holds catalog entries of the table only. *)
Lemma coll_inv_catalog_only `{FieldsCodec} c coll :
  (∀ k v, oget k c = Some v →
     ∃ n, k = index_catalog_key (co_ns coll) (co_db coll) (co_table coll) n) →
  coll_inv c coll.
Proof.
  intros Hc. assert (∀ id, oget (Collections.doc_key coll id) c = None) as Hdoc.
  { intros id. destruct (oget _ c) as [v|] eqn:E; [|done]. destruct (Hc _ _ E) as [n En].
    unfold Collections.doc_key in En. rewrite document_key_shape, index_catalog_key_shape in En.
    apply app_inv_head in En. injection En as En _. by apply (f_equal Byte.to_N) in En. }
  split.
  - intros id b. by rewrite Hdoc.
  - intros k v Hk [r E]. destruct (Hc _ _ Hk) as [n ->].
    rewrite index_catalog_key_shape, table_prefix_shape, <- !app_assoc in E.
    apply app_inv_head in E. simpl in E. injection E as E _. by apply (f_equal Byte.to_N) in E.
  - intros k (idx & _ & _ & r & ->). split.
    + intros [v Hv]. destruct (Hc _ _ Hv) as [n E].
      rewrite index_prefix_shape, index_catalog_key_shape, <- app_assoc in E.
      apply app_inv_head in E. simpl in E. injection E as E _. by apply (f_equal Byte.to_N) in E.
    + intros (id & doc & es & Hst & _). unfold stored in Hst. by rewrite Hdoc in Hst.
Qed.

(** [DEFINE INDEX by_age ON people FIELDS age;
     DEFINE INDEX by_email ON people FIELDS email UNIQUE]. *)
Definition indexed_store : MemRedb.db :=
  (exec_define_index "n" "d" "by_email" "people" ["email"%string] true
     (exec_define_index "n" "d" "by_age" "people" ["age"%string] false MemRedb.empty).2).2.

Lemma indexed_store_inv : coll_inv (contents indexed_store) people.
Proof.
  apply coll_inv_catalog_only. intros k v Hk.
  assert (k ∈ map fst (contents indexed_store)) as Hin.
  { apply oget_elem in Hk. apply list_elem_of_fmap. by exists (k, v). }
  apply list_elem_of_In in Hin. vm_compute in Hin. destruct Hin as [<-|[<-|[]]].
  - exists "by_age"%string. vm_compute. reflexivity.
  - exists "by_email"%string. vm_compute. reflexivity.
Qed.

(** Two rows. *)
Definition indexed_people : MemRedb.db :=
  run_ops people [OpCreateWithId "a" (person "a" 30 "a@x"); OpCreateWithId "b" (person "b" 40 "b@x")]
    indexed_store.
Lemma indexed_people_inv : coll_inv (contents indexed_people) people.
Proof.
  apply (run_ops_inv people people_wf); [apply people_unique|by repeat constructor|].
  exact indexed_store_inv.
Qed.
Lemma indexed_people_load : Collections.load "n" "d" "people" indexed_people = (Ok people, indexed_people).
Proof. vm_compute. reflexivity. Qed.

Lemma indexed_people_docs id doc :
  stored (contents indexed_people) people id = Some doc →
  doc = person "a" 30 "a@x" ∨ doc = person "b" 40 "b@x".
Proof.
  intros Hst. destruct (scan_all_run people people_wf indexed_people indexed_people_inv)
    as (docs & Hs & [_ Hall] & _).
  assert ((Collections.scan_all people indexed_people).1 = Ok [person "a" 30 "a@x"; person "b" 40 "b@x"]) as Hd
    by (vm_compute; reflexivity).
  rewrite Hs in Hd. injection Hd as ->. apply Hall in Hst as [Hin _].
  apply list_elem_of_In in Hin. destruct Hin as [<-|[<-|[]]]; auto.
Qed.

(** [age >= n] fits the age index on these rows. *)
Definition age_from (n : Z) : WhereClause := WCmp (SField "age") OpGte (LInt n).
Lemma age_from_fits n id doc :
  i64_range n → stored (contents indexed_people) people id = Some doc →
  fits (IndexDefinitions.btree "by_age" ["age"%string] false) (age_from n) doc.
Proof.
  intros Hn Hst. apply indexed_people_docs in Hst as [-> | ->]; (split; [vm_compute; eauto|]).
  all: intros c f k dv ->%list_elem_of_singleton [= <- <-] _ [= <-]; split; [|exact Hn];
    apply (bool_decide_unpack _); vm_compute; exact I.
Qed.
Lemma age_from_matching_fit n :
  i64_range n → matching_fit people (contents indexed_people) (age_from n).
Proof.
  intros Hn plan idx id doc Hp Hin Hname Hst _.
  assert (plan_index_lookup (co_indexes people) (age_from n) =
    Some (MkIndexPlan "by_age" [] (Some (VInt n, true)) None 1 true)) as Hp' by reflexivity.
  rewrite Hp' in Hp. injection Hp as <-. apply list_elem_of_In in Hin.
  destruct Hin as [<-|[<-|[]]]; [by eapply age_from_fits|done].
Qed.
