(* ===== verification/ExecutorTheorems.v ===== *)
(** * Theorems about statements

    What [SELECT], [COUNT], [DELETE ... WHERE] and [UPDATE] do to the stored
    documents, with and without an index, and where an index changes the
    answer. *)

From S2P Require Export ExecutorRows.

(** ** ORDER BY *)
(** Documents whose values of a key can be ordered: where the field is set, it
    is an integer everywhere, or a string everywhere. *)
Definition uniform (docs : list Document) (key : OrderKey) : Prop :=
  let value d := oget (ok_field key) (doc_fields d) in
  Forall (λ d, match value d with Some (VInt _) | Some VNone | None => True | _ => False end) docs ∨
  Forall (λ d, match value d with Some (VString _) | Some VNone | None => True | _ => False end) docs.
#[export] Instance uniform_dec docs key : Decision (uniform docs key).
Proof.
  unfold uniform. apply or_dec; apply Forall_dec; intros d; destruct (oget _ _) as [[]|]; apply _.
Defined.
Lemma order_cmp_total docs key : uniform docs key →
  total_on (λ a b, order_cmp (oget (ok_field key) (doc_fields a)) (oget (ok_field key) (doc_fields b))) docs.
Proof.
  set (value d := oget (ok_field key) (doc_fields d)).
  set (unset d := match value d with Some VNone | None => 1%Z | _ => 0%Z end).
  assert (total_on (λ a b, (unset a ?= unset b)%Z) docs) as Hun by (by apply (total_on_measure _ unset)).
  intros [Hu|Hu]; rewrite Forall_forall in Hu.
  - set (int d := match value d with Some (VInt n) => n | _ => 0%Z end).
    eapply total_on_ext; [|exact (total_on_lex _ _ _ Hun (total_on_measure _ int _ (λ x y _ _, eq_refl)))].
    intros x y Hx%Hu Hy%Hu. unfold unset, int, value. destruct (oget _ (doc_fields x)) as [[]|], (oget _ (doc_fields y)) as [[]|]; done.
  - set (str d := match value d with Some (VString v) => v | _ => ""%string end).
    eapply total_on_ext; [|exact (total_on_lex _ _ _ Hun (total_on_ord _ str _ (λ x y _ _, eq_refl)))].
    intros x y Hx%Hu Hy%Hu. unfold unset, str, value. destruct (oget _ (doc_fields x)) as [[]|], (oget _ (doc_fields y)) as [[]|]; done.
Qed.
Lemma doc_cmp_total docs keys : Forall (uniform docs) keys → total_on (doc_cmp keys) docs.
Proof.
  induction 1 as [|key keys Hk _ IH]; [by apply (total_on_measure _ (λ _, 0%Z))|].
  apply order_cmp_total in Hk. set (cmp a b := order_cmp (oget (ok_field key) (doc_fields a)) (oget (ok_field key) (doc_fields b))) in Hk.
  set (dir a b := if ok_descending key then CompOpp (cmp a b) else cmp a b).
  assert (total_on dir docs) as Hd by (unfold dir; destruct (ok_descending key); [by apply total_on_opp|done]).
  apply (total_on_ext (λ a b, match dir a b with Eq => doc_cmp keys a b | c => c end)); [|by apply total_on_lex].
  intros a b _ _. unfold dir, cmp. cbn [doc_cmp]. by destruct (if ok_descending key then _ else _).
Qed.

(** The rows of a [LIMIT]. *)
Definition cut {A} (limit : option Z) (l : list A) : list A :=
  match limit with Some n => take (Z.to_nat n) l | None => l end.

(** C17.  A table [SELECT]: the rows found are stored documents that match the
    filter, each once, and they are all that match - those a scan would keep -
    if no index is used or every matching document fits the index the planner
    chooses.  The answer is those rows in some order, cut to the limit.  When
    the comparator of [ORDER BY] is a total order on them - in particular when
    each key is an integer wherever it is set, or a string wherever it is set
    - the rows are in that order; otherwise the sort may panic or leave any
    order, and a panic happens in no other case. *)
Theorem select_exact {S} `{KL : KvLaws S} `{FL : FieldsCodecLaws} `{DefCodec} `{CodeIntel}
    (ns db table : string) (coll : Collection) (sort : Sorter) (filter : option WhereClause)
    (order_by : list OrderKey) (limit : option Z) (s : S) :
  Collections.load ns db table s = (Ok coll, s) → coll_wf coll → coll_inv (contents s) coll → sorter_ok sort →
  ∃ r found all,
    exec_select_docs ns db sort (FromTable table) filter order_by limit s = (Ok r, s) ∧
    Collections.scan_all coll s = (Ok all, s) ∧ all_docs coll (contents s) all ∧
    NoDup (map (λ d, rid_id (doc_id d)) found) ∧
    (∀ d, d ∈ found → d ∈ all ∧ keep filter d = true) ∧
    ((∀ clause, filter = Some clause → matching_fit coll (contents s) clause) →
      found ≡ₚ List.filter (keep filter) all) ∧
    match r with
    | Some (t, rows) => t = table ∧ ∃ ordered, ordered ≡ₚ found ∧ rows = cut limit ordered ∧
        (total_on (doc_cmp order_by) found → StronglySorted (λ a b, doc_cmp order_by a b ≠ Gt) ordered)
    | None => ¬ total_on (doc_cmp order_by) found
    end ∧
    (Forall (uniform found) order_by → total_on (doc_cmp order_by) found).
Proof.
  intros Hload Hwf Hinv Hsort. destruct (candidates_run coll Hwf s filter Hinv) as (docs & all & Hc & Hs & Ha & Hnd & Hst & Hp).
  set (found := List.filter (keep filter) docs).
  set (r := ordered ← match order_by with [] => Some found | _ => sort_documents sort found order_by end;
            Some (table, cut limit ordered)).
  exists r, found, all. split_and!; [|done|done|by apply NoDup_map_filter| |done| |apply doc_cmp_total].
  - unfold exec_select_docs. rewrite (SE_bind_ok _ _ s (table, docs) s); [done|].
    rewrite (SE_bind_ok _ _ s coll s Hload), (SE_bind_ok _ _ s docs s Hc). done.
  - intros d [Hk Hd]%elem_filter_bool. split; [|done]. by apply (proj2 Ha (rid_id (doc_id d))), Hst.
  - unfold r. pose proof (sorter_cases (doc_cmp order_by) sort found Hsort) as Hcases. unfold sort_documents.
    destruct order_by as [|key keys].
    + split; [done|]. exists found. split_and!; [done|done|]. intros _. clear. induction found; constructor; [done|].
      by apply Forall_true.
    + destruct (sort _ _ found) as [ordered|]; [|done]. split; [done|]. exists ordered. naive_solver.
Qed.

Lemma select_exact_witness :
  ∃ rows, (exec_select_docs "n" "d" strict_sort (FromTable "people") (Some (age_from 20))
      [MkOrderKey "age" true] (Some 5%Z) indexed_people).1 = Ok (Some ("people"%string, rows)) ∧
    rows ≡ₚ [person "a" 30 "a@x"; person "b" 40 "b@x"] ∧
    StronglySorted (λ a b, doc_cmp [MkOrderKey "age" true] a b ≠ Gt) rows.
Proof.
  destruct (select_exact "n" "d" "people" people strict_sort (Some (age_from 20)) [MkOrderKey "age" true] (Some 5%Z) indexed_people
    indexed_people_load people_wf indexed_people_inv strict_sort_ok) as (r & found & all & Hr & Hs & _ & _ & _ & Hp & Hc & Ht).
  assert ((Collections.scan_all people indexed_people).1 = Ok [person "a" 30 "a@x"; person "b" 40 "b@x"]) as Hd
    by (vm_compute; reflexivity).
  rewrite Hs in Hd. injection Hd as ->.
  assert (found ≡ₚ [person "a" 30 "a@x"; person "b" 40 "b@x"]) as Hf.
  { apply Hp. intros clause [= <-]. apply age_from_matching_fit. by split. }
  assert (total_on (doc_cmp [MkOrderKey "age" true]) found) as Htot.
  { apply (total_on_sub _ [person "a" 30 "a@x"; person "b" 40 "b@x"]); [intros x; by rewrite Hf|]. compute_decide. }
  destruct r as [[t rows]|]; [|by destruct Hc]. destruct Hc as (-> & ordered & Ho & -> & Hsort). rewrite Hf in Ho.
  exists ordered. rewrite Hr. unfold cut. rewrite take_ge by (rewrite Ho; simpl; lia). split; [done|]. split; [done|]. by apply Hsort.
Defined.
(** Integers and strings are not totally ordered: a sort that panics where it
    may does. *)
Example mixed_order_panics :
  let docs := [person "a" 1 "x"; MkDocument (RecordIds.new "people" "b") [("age"%string, VString "old")]; person "c" 0 "y"] in
  sort_documents strict_sort docs [MkOrderKey "age" false] = None.
Proof. vm_compute. reflexivity. Qed.

(** C25.  [COUNT] under the conditions that make an index exact: without a
    filter it is the number of stored documents; with one it is the number
    that match, provided the matching documents fit the index the planner
    chooses and - when that index answers alone - its bounds are not booleans
    and every document with an entry in it fits.  Without these conditions it
    can differ from the scan ([index_changes_answers]). *)
Theorem count_exact {S} `{KL : KvLaws S} `{FL : FieldsCodecLaws} `{DefCodec} `{CodeIntel}
    (ns db table : string) (coll : Collection) (filter : option WhereClause) (s : S) :
  Collections.load ns db table s = (Ok coll, s) → coll_wf coll → coll_inv (contents s) coll →
  (∀ clause, filter = Some clause → matching_fit coll (contents s) clause) →
  (∀ clause plan, filter = Some clause → plan_index_lookup (co_indexes coll) clause = Some plan →
     ip_covers plan = true → ordered_bounds plan ∧
     ∀ idx id doc, idx ∈ co_indexes coll → ix_name idx = ip_index_name plan →
       stored (contents s) coll id = Some doc → is_Some (tuple_of doc idx) → fits idx clause doc) →
  ∃ all, exec_count_plain ns db table filter s =
           (Ok (QCount (length (List.filter (keep filter) all))), s) ∧
    Collections.scan_all coll s = (Ok all, s) ∧ all_docs coll (contents s) all.
Proof.
  intros Hload Hwf Hinv Hfit Hcov. destruct (scan_all_run coll Hwf s Hinv) as (all & Hscan & Hall & Hcount).
  exists all. split_and!; [|done|done]. unfold exec_count_plain.
  rewrite (SE_bind_ok _ _ s coll s Hload). destruct filter as [clause|].
  2:{ rewrite (SE_bind_ok _ _ s (length all) s Hcount).
      assert (List.filter (keep None) all = all) as ->; [|done].
      clear. induction all as [|d all IH]; [done|]. simpl. by rewrite IH. }
  destruct (plan_index_lookup (Collections.indexes coll) clause) as [plan|] eqn:Hp.
  2:{ rewrite (SE_bind_ok _ _ s (length (List.filter (λ d, matches_where d clause) all)) s); [done|].
      rewrite (SE_bind_ok _ _ s all s Hscan). done. }
  destruct (run_plan_spec coll Hwf s clause plan Hinv Hp) as (ids & Hrun & Hnd & Hst & Hcomp & Hsound).
  specialize (Hcomp (Hfit clause eq_refl)).
  assert (map (λ d, rid_id (doc_id d)) (omap (stored (contents s) coll) ids) = ids) as Hm
    by (by apply omap_stored_ids).
  assert (List.filter (keep (Some clause)) (omap (stored (contents s) coll) ids) ≡ₚ
    List.filter (keep (Some clause)) all) as Hperm.
  { apply (filter_perm coll _ (contents s)); [by rewrite Hm|done| |].
    - intros doc (id & _ & Hd)%list_elem_of_omap. by rewrite (stored_id _ _ _ _ Hd).
    - intros id doc Hd Hk. apply list_elem_of_omap. exists id. split; [|done]. by eapply Hcomp. }
  rewrite <- Hperm.
  assert (length (List.filter (keep (Some clause)) (omap (stored (contents s) coll) ids)) = length ids ∨
    ip_covers plan = false) as Hlen.
  { destruct (ip_covers plan) eqn:Hc; [left|by right].
    destruct (Hcov clause plan eq_refl Hp Hc) as [Hob Hall'].
    rewrite <- Hm at 2. rewrite length_map. f_equal.
    assert (∀ l : list Document, (∀ d, d ∈ l → keep (Some clause) d = true) →
      List.filter (keep (Some clause)) l = l) as ->; [|done|].
    { induction l as [|d l IH]; intros Hk; [done|]. cbn [List.filter].
      rewrite (Hk d) by (by left). f_equal. apply IH. intros; apply Hk. by right. }
    intros d (id & Hid & Hd)%list_elem_of_omap. by eapply Hsound. }
  rewrite (SE_bind_ok _ _ s (length (List.filter (keep (Some clause)) (omap (stored (contents s) coll) ids))) s);
    [done|].
  rewrite (SE_bind_ok _ _ s ids s Hrun). destruct (ip_covers plan) eqn:Hc.
  - destruct Hlen as [->|]; done.
  - rewrite (SE_bind_ok _ _ s _ s (get_many_run coll s ids Hinv)). done.
Qed.

Lemma count_exact_witness :
  (exec_count_plain "n" "d" "people" (Some (age_from 35)) indexed_people).1 = Ok (QCount 1).
Proof.
  destruct (count_exact "n" "d" "people" people (Some (age_from 35)) indexed_people
    indexed_people_load people_wf indexed_people_inv) as (all & Hr & Hs & _).
  - intros clause [= <-]. apply age_from_matching_fit. by split.
  - intros clause plan [= <-] Hp _.
    assert (plan_index_lookup (co_indexes people) (age_from 35) =
      Some (MkIndexPlan "by_age" [] (Some (VInt 35, true)) None 1 true)) as Hp' by reflexivity.
    rewrite Hp' in Hp. injection Hp as <-. split; [done|]. intros idx id doc Hin Hname Hst _.
    apply list_elem_of_In in Hin. destruct Hin as [<-|[<-|[]]]; [|done].
    eapply age_from_fits; [by split|done].
  - rewrite Hr.
    assert ((Collections.scan_all people indexed_people).1 = Ok [person "a" 30 "a@x"; person "b" 40 "b@x"]) as Hd
      by (vm_compute; reflexivity).
    rewrite Hs in Hd. injection Hd as ->. reflexivity.
Defined.

(** C18.  [DELETE ... WHERE] removes stored documents that match, with their
    index entries, reports how many there were, and leaves every other
    document and key alone.  It removes all that match if no index narrows
    the candidates or every matching document fits the index the planner
    chooses (documents outside that index are missed,
    [index_changes_answers]). *)
Theorem delete_where_exact {S} `{KL : KvLaws S} `{FL : FieldsCodecLaws} `{DefCodec} `{CodeIntel}
    (ns db table : string) (coll : Collection) (filter : option WhereClause) (s : S) :
  Collections.load ns db table s = (Ok coll, s) → coll_wf coll → coll_inv (contents s) coll →
  ∃ s' gone all,
    exec_delete_where ns db table filter s = (Ok (QDeletedMany (length gone)), s') ∧
    all_docs coll (contents s) all ∧ NoDup (map (λ d, rid_id (doc_id d)) gone) ∧
    (∀ d, d ∈ gone → d ∈ all ∧ keep filter d = true) ∧
    ((∀ clause, filter = Some clause → matching_fit coll (contents s) clause) →
      gone ≡ₚ List.filter (keep filter) all) ∧
    coll_inv (contents s') coll ∧
    (∀ id, stored (contents s') coll id =
       if decide (id ∈ map (λ d, rid_id (doc_id d)) gone) then None else stored (contents s) coll id) ∧
    (∀ k, ¬ index_region coll k → (∀ id, k ≠ Collections.doc_key coll id) →
       oget k (contents s') = oget k (contents s)).
Proof.
  intros Hload Hwf Hinv. destruct (candidates_run coll Hwf s filter Hinv) as (docs & all & Hc & Hs & Ha & Hnd & Hst & Hp).
  destruct (delete_rows_run coll Hwf filter docs s 0 Hinv Hnd Hst) as (s' & Hr & Hi & Hch).
  set (gone := List.filter (keep filter) docs).
  assert (∀ d, d ∈ gone ↔ d ∈ docs ∧ keep filter d = true) as Hgone by (intros; unfold gone; rewrite elem_filter_bool; tauto).
  exists s', gone, all. split_and!; [|done|by apply NoDup_map_filter| |done|done| |].
  - unfold exec_delete_where. rewrite (SE_bind_ok _ _ s coll s Hload), (SE_bind_ok _ _ s docs s Hc).
    by rewrite (SE_bind_ok _ _ s _ s' Hr).
  - intros d [Hd Hk]%Hgone. split; [|done]. by apply (proj2 Ha (rid_id (doc_id d))), Hst.
  - intros id. by apply deleted_stored.
  - intros k Hk1 Hk2. apply (rc_frame _ _ _ _ _ Hch). split; [done|]. intros; apply Hk2.
Qed.

Lemma delete_where_exact_witness :
  ∃ s', (exec_delete_where "n" "d" "people" (Some (age_from 35)) indexed_people).2 = s' ∧
    coll_inv (contents s') people ∧ stored (contents s') people "a" = Some (person "a" 30 "a@x") ∧
    stored (contents s') people "b" = None.
Proof.
  destruct (delete_where_exact "n" "d" "people" people (Some (age_from 35)) indexed_people
    indexed_people_load people_wf indexed_people_inv) as (s' & gone & all & Hr & Ha & _ & Hg & Hp & Hi & Hst & _).
  assert (stored (contents indexed_people) people "a" = Some (person "a" 30 "a@x")) as Ea by (vm_compute; reflexivity).
  assert (stored (contents indexed_people) people "b" = Some (person "b" 40 "b@x")) as Eb by (vm_compute; reflexivity).
  exists s'. rewrite Hr. split; [done|]. split; [done|]. rewrite !Hst, Ea, Eb. split.
  - rewrite decide_False; [done|]. intros (d & E & Hd)%list_elem_of_fmap. destruct (Hg d Hd) as [Hd' Hk].
    assert (stored (contents indexed_people) people (rid_id (doc_id d)) = Some d) as Hsd
      by exact (proj2 (proj2 Ha (rid_id (doc_id d)) d) (conj Hd' eq_refl)).
    rewrite <- E, Ea in Hsd. injection Hsd as <-. discriminate Hk.
  - rewrite decide_True; [done|]. apply list_elem_of_fmap. exists (person "b" 40 "b@x"). split; [done|].
    rewrite Hp; [|intros clause [= <-]; apply age_from_matching_fit; by split].
    apply elem_filter_bool. split; [done|]. by apply (proj2 Ha "b"%string).
Defined.

(** A table [UPDATE] merges the fields into the matching rows in scan order:
    it succeeds with their number exactly when every replacement is accepted;
    otherwise it reports an error at the first one refused, with the rows
    before it already updated.  Every other document keeps its value. *)
Theorem update_where_contract {S} `{KL : KvLaws S} `{FL : FieldsCodecLaws} `{DefCodec} `{CodeIntel}
    (ns db table : string) (coll : Collection) (fields : list (string * Literal))
    (filter : option WhereClause) (s : S) :
  Collections.load ns db table s = (Ok coll, s) → coll_wf coll → coll_inv (contents s) coll →
  ∃ r s' passed rest,
    exec_update ns db (FromTable table) fields filter s = (r, s') ∧
    Collections.scan_all coll s = (Ok (passed ++ rest), s) ∧ coll_inv (contents s') coll ∧
    (∀ doc, doc ∈ passed → stored (contents s') coll (rid_id (doc_id doc)) =
       Some (if keep filter doc then Collections.merge_fields doc (to_fields fields) else doc)) ∧
    (∀ id, (∀ doc, doc ∈ passed → rid_id (doc_id doc) ≠ id) →
       stored (contents s') coll id = stored (contents s) coll id) ∧
    (r = Ok (QUpdate (length (List.filter (keep filter) passed))) ∧ rest = [] ∨
     ∃ e d rest', r = Err e ∧ rest = d :: rest' ∧ keep filter d = true ∧
       ¬ replaceable coll (Collections.merge_fields d (to_fields fields))).
Proof.
  intros Hload Hwf Hinv. destruct (scan_all_run coll Hwf s Hinv) as (all & Hscan & [Hnd Hall] & _).
  destruct (update_rows_run coll Hwf filter (to_fields fields) all s 0 Hinv Hnd)
    as (r & s' & passed & rest & Hr & -> & Hi & [R1 R2 R3] & Hres); [intros d Hd; by apply Hall|].
  unfold exec_update. cbv zeta.
  destruct Hres as [[-> ->]|(e & d & rest' & -> & -> & Hk & Hn)].
  - exists (Ok (QUpdate (length (List.filter (keep filter) passed)))), s', passed, [].
    rewrite app_nil_r in *. split_and!; [|done|done|done|done|by left].
    rewrite (SE_bind_ok _ _ s coll s Hload), (SE_bind_ok _ _ s passed s Hscan).
    by rewrite (SE_bind_ok _ _ s _ s' Hr).
  - exists (Err e), s', passed, (d :: rest'). split_and!; [|done|done|done|done|right; eauto 10].
    rewrite (SE_bind_ok _ _ s coll s Hload), (SE_bind_ok _ _ s _ s Hscan).
    by rewrite (SE_bind_err _ _ s e s' Hr).
Qed.

Lemma update_where_contract_witness :
  ∃ s', exec_update "n" "d" (FromTable "people") [("age"%string, LInt 50)] (Some (age_from 35)) indexed_people
          = (Ok (QUpdate 1), s') ∧ coll_inv (contents s') people.
Proof.
  destruct (update_where_contract "n" "d" "people" people [("age"%string, LInt 50)] (Some (age_from 35))
    indexed_people indexed_people_load people_wf indexed_people_inv)
    as (r & s' & passed & rest & Hr & _ & Hi & _).
  exists s'. split; [|exact Hi]. rewrite Hr. f_equal.
  assert ((exec_update "n" "d" (FromTable "people") [("age"%string, LInt 50)] (Some (age_from 35)) indexed_people).1
    = Ok (QUpdate 1)) as Hq by (vm_compute; reflexivity).
  rewrite Hr in Hq. exact Hq.
Defined.

(** ** Where an index changes the answer *)

(** A table of one row, before and after [DEFINE INDEX]. *)
Definition with_row (fields : Fields) : MemRedb.db :=
  (Collections.create_with_id (Collections.new "n" "d" "t") "r" (MkDocument (RecordIds.new "t" "r") fields)
     MemRedb.empty).2.
Definition indexed (fields : list string) (s : MemRedb.db) : MemRedb.db :=
  (exec_define_index "n" "d" "i" "t" fields false s).2.
Definition row_ids (clause : WhereClause) (s : MemRedb.db) : result (list string) :=
  r ← (exec_select_docs "n" "d" lenient_sort (FromTable "t") (Some clause) [] None s).1;
  Ok (match r with Some (_, docs) => map (λ d, rid_id (doc_id d)) docs | None => [] end).

(** The conditions of the two theorems above are needed.  Defining an index
    loses rows: a row without the last field of a composite index, and a
    floating-point value compared with an integer literal, are found by a scan
    and missed through the index.  And a bound on a boolean selects no row but
    is counted when the index answers alone. *)
Theorem index_changes_answers :
  (let s := with_row [("a"%string, VInt 1)] in
   let q := WCmp (SField "a") OpEq (LInt 1) in
   row_ids q s = Ok ["r"%string] ∧ row_ids q (indexed ["a"%string; "b"%string] s) = Ok []) ∧
  (let s := with_row [("x"%string, VFloat (F64 0x4012000000000000))] in
   let q := WCmp (SField "x") OpLt (LInt 5) in
   row_ids q s = Ok ["r"%string] ∧ row_ids q (indexed ["x"%string] s) = Ok []) ∧
  (let s := with_row [("ok"%string, VBool true)] in
   let q := WCmp (SField "ok") OpGt (LBool false) in
   row_ids q (indexed ["ok"%string] s) = Ok [] ∧
   (exec_count_plain "n" "d" "t" (Some q) s).1 = Ok (QCount 0) ∧
   (exec_count_plain "n" "d" "t" (Some q) (indexed ["ok"%string] s)).1 = Ok (QCount 1)).
Proof. cbv zeta. split_and!; vm_compute; reflexivity. Qed.

(** A batch can corrupt an index: two upserts of one record in the same
    batch are both planned against the state before it, so the entry of the
    first version survives.  From a consistent table the batch succeeds and
    leaves a table that is not: the index still finds the record under a value
    it no longer has. *)
Theorem batch_breaks_index :
  let upsert_age n := Create "people" (Some "c"%string) [("age"%string, LInt n)] (Some OnUpdate) in
  let run := execute_batch "n" "d" [("u1"%string, upsert_age 1%Z); ("u2"%string, upsert_age 2%Z)] indexed_people in
  coll_inv (contents indexed_people) people ∧
  run.1 = Ok (QBatch 2 2 0) ∧
  stored (contents run.2) people "c" =
    Some (MkDocument (RecordIds.new "people" "c") [("age"%string, VInt 2)]) ∧
  (Collections.find_ids_by_index people "by_age" (VInt 1) run.2).1 = Ok ["c"%string] ∧
  ¬ coll_inv (contents run.2) people.
Proof.
  intros upsert_age run. split; [exact indexed_people_inv|].
  split; [vm_compute; reflexivity|]. split; [vm_compute; reflexivity|]. split; [vm_compute; reflexivity|].
  intros Hinv.
  destruct (proj1 (region_iff people people_wf (contents run.2)
    (IndexDefinitions.btree "by_age" ["age"%string] false) [encode_i64 1] "c" Hinv
    ltac:(left) eq_refl eq_refl)) as (doc & Hst & Ht).
  - vm_compute. eauto.
  - assert (Some doc = Some (MkDocument (RecordIds.new "people" "c") [("age"%string, VInt 2)])) as [= ->]
      by (rewrite <- Hst; vm_compute; reflexivity).
    vm_compute in Ht. discriminate Ht.
Qed.
