(* ===== verification/Format.v ===== *)
(** * Output formats (crates/query/src/format.rs)

    The JSON, TOON and CSV texts of results and errors.  The JSON text of rows
    is produced by serde_json, a parameter. *)

From stdpp Require Import gmap.
From S2P Require Export Display Executor.

(** [serde_json::to_string] of rows; [None] is its error. *)
Class JsonRows := { rows_to_json : list Fields → option string }.

(** ** Strings *)
Definition quote : ascii := "034"%char.
Definition quote_s : string := String quote "".
Definition newline : string := String "010" "".

(** A text whose double quotes are written as single quotes. *)
Fixpoint dq (s : string) : string :=
  match s with
  | EmptyString => EmptyString
  | String c s' => String (if decide (c = "'"%char) then quote else c) (dq s')
  end.

(** [impl Display for Error] (crates/core/src/error.rs). *)
Definition display_error (err : Error) : string :=
  match err with
  | Storage msg => "storage error: " ++ msg
  | Serialization msg => "serialization error: " ++ msg
  | NotFound msg => "record not found: " ++ msg
  | Schema msg => "schema violation: " ++ msg
  | Conflict msg => "transaction conflict: " ++ msg
  | Core.Query msg => "query error: " ++ msg
  | Core.Index msg => "index error: " ++ msg
  | DimensionMismatch expected actual =>
      "dimension mismatch: expected " ++ show_nat expected ++ ", got " ++ show_nat actual
  | Other msg => msg
  end.

(** ** Values as text *)
Section values.
Local Open Scope string_scope.

(** [toon_value]: a value as a TOML literal. *)
Fixpoint toon_value (v : Value) : string :=
  match v with
  | VNone => dq "'none'"
  | VBool b => show_bool b
  | VInt n => show_Z n
  | VFloat f => display_f64 f
  | VString s => quote_s ++ replace quote ("\" ++ quote_s) (replace "\"%char "\\" s) ++ quote_s
  | VBytes b => quote_s ++ "<" ++ show_nat (length b) ++ " bytes>" ++ quote_s
  | VArray arr => "[" ++ join_with ", " (map toon_value arr) ++ "]"
  | VObject m => "{ " ++ join_with ", " (map (λ kv : string * Value, kv.1 ++ " = " ++ toon_value kv.2) m) ++ " }"
  | VRecordId rid => quote_s ++ RecordIds.display rid ++ quote_s
  | VVector vec => "[" ++ join_with ", " (map display_f32 vec) ++ "]"
  end.

Fixpoint csv_value (v : Value) : string :=
  match v with
  | VNone => ""
  | VBool b => show_bool b
  | VInt n => show_Z n
  | VFloat f => display_f64 f
  | VString s => s
  | VBytes b => "<" ++ show_nat (length b) ++ " bytes>"
  | VArray arr => "[" ++ join_with ";" (map csv_value arr) ++ "]"
  | VObject _ => "<object>"
  | VRecordId rid => RecordIds.display rid
  | VVector vec => "[" ++ join_with ";" (map display_f32 vec) ++ "]"
  end.

Definition csv_escape (s : string) : string :=
  if contains_char ","%char s || contains_char quote s || contains_char "010"%char s
  then quote_s ++ replace quote (quote_s ++ quote_s) s ++ quote_s
  else s.

(** ** Rows *)

(** The column loop: the keys of all rows, each once, in order of appearance. *)
Fixpoint add_keys (keys : list string) (columns : list string) : list string :=
  match keys with
  | [] => columns
  | k :: keys' => add_keys keys' (if bool_decide (k ∈ columns) then columns else columns ++ [k])
  end.
Definition csv_columns (rows : list Fields) : list string :=
  fold_left (λ columns (row : Fields), add_keys (map fst row) columns) rows [].

Definition csv_cells (columns : list string) (row : Fields) : list string :=
  map (λ col, match oget col row with Some v => csv_escape (csv_value v) | None => "" end) columns.

Definition format_rows_csv (rows : list Fields) : string :=
  match rows with
  | [] => "status,count" ++ newline ++ "rows,0"
  | _ =>
      let columns := csv_columns rows in
      fold_left (λ out row, out ++ newline ++ join_with "," (csv_cells columns row)) rows (join_with "," columns)
  end.

(** The loop of the TOON formats over [[[data]]] tables. *)
Definition toon_rows (rows : list Fields) (out : string) : string :=
  fold_left (λ out (row : Fields),
    fold_left (λ out (kv : string * Value), out ++ newline ++ kv.1 ++ " = " ++ toon_value kv.2) row
      (out ++ newline ++ newline ++ "[[data]]")) rows out.
End values.

(** ** Results *)
Section results.
Context `{JsonRows}.
Local Open Scope string_scope.

Definition json_rows (rows : list Fields) : string := default "[]" (rows_to_json rows).

Definition format_result_json (result : QueryResult) : string :=
  match result with
  | QCachedResponse s => s
  | QOk => dq "{'status':'ok'}"
  | QCreated id => dq "{'status':'created','id':'" ++ RecordIds.display id ++ dq "'}"
  | QUpdated id => dq "{'status':'updated','id':'" ++ RecordIds.display id ++ dq "'}"
  | QDeleted existed => dq "{'status':'deleted','existed':" ++ show_bool existed ++ "}"
  | QDeletedMany count => dq "{'status':'deleted_many','count':" ++ show_nat count ++ "}"
  | QBatch count created updated =>
      dq "{'status':'batch','count':" ++ show_nat count ++ dq ",'created':" ++ show_nat created ++
      dq ",'updated':" ++ show_nat updated ++ "}"
  | QRows rows =>
      dq "{'status':'rows','count':" ++ show_nat (length rows) ++ dq ",'data':" ++ json_rows rows ++ "}"
  | QCommunities algorithm groups =>
      dq "{'status':'communities','algorithm':'" ++ algorithm ++ dq "','community_count':" ++
      show_nat (length groups) ++ dq ",'data':" ++ json_rows groups ++ "}"
  | QUpdate matched => dq "{'status':'update','matched':" ++ show_nat matched ++ "}"
  | QCount count => dq "{'status':'count','count':" ++ show_nat count ++ "}"
  | QComponents count largest nodes =>
      dq "{'status':'components','component_count':" ++ show_Z count ++ dq ",'largest':" ++
      show_Z largest ++ dq ",'nodes':" ++ show_Z nodes ++ "}"
  end.

Definition format_error_json (err : Error) : string :=
  let msg := replace quote ("\" ++ quote_s) (display_error err) in
  dq "{'status':'error','message':'" ++ msg ++ dq "'}".

Definition format_result_toon (result : QueryResult) : string :=
  let line k v := newline ++ k ++ " = " ++ v in
  let status s := "status = " ++ quote_s ++ s ++ quote_s in
  match result with
  | QCachedResponse s => s
  | QOk => status "ok"
  | QCreated id => status "created" ++ line "id" (quote_s ++ RecordIds.display id ++ quote_s)
  | QUpdated id => status "updated" ++ line "id" (quote_s ++ RecordIds.display id ++ quote_s)
  | QDeleted existed => status "deleted" ++ line "existed" (show_bool existed)
  | QDeletedMany count => status "deleted_many" ++ line "count" (show_nat count)
  | QBatch count created updated =>
      status "batch" ++ line "count" (show_nat count) ++ line "created" (show_nat created) ++
      line "updated" (show_nat updated)
  | QRows rows => toon_rows rows (status "rows" ++ line "count" (show_nat (length rows)))
  | QCommunities algorithm groups =>
      toon_rows groups (status "communities" ++ line "algorithm" (quote_s ++ algorithm ++ quote_s) ++
                        line "community_count" (show_nat (length groups)))
  | QUpdate matched => status "update" ++ line "matched" (show_nat matched)
  | QCount count => status "count" ++ line "count" (show_nat count)
  | QComponents count largest nodes =>
      status "components" ++ line "component_count" (show_Z count) ++ line "largest" (show_Z largest) ++
      line "nodes" (show_Z nodes)
  end.

Definition format_error_toon (err : Error) : string :=
  let msg := replace quote ("\" ++ quote_s) (display_error err) in
  dq "status = 'error'" ++ newline ++ dq "message = '" ++ msg ++ quote_s.

Definition format_result_csv (result : QueryResult) : string :=
  match result with
  | QCachedResponse s => s
  | QOk => "status" ++ newline ++ "ok"
  | QCreated id => "status,id" ++ newline ++ "created," ++ csv_escape (RecordIds.display id)
  | QUpdated id => "status,id" ++ newline ++ "updated," ++ csv_escape (RecordIds.display id)
  | QDeleted existed => "status,existed" ++ newline ++ "deleted," ++ show_bool existed
  | QDeletedMany count => "status,count" ++ newline ++ "deleted_many," ++ show_nat count
  | QBatch count created updated =>
      "status,count,created,updated" ++ newline ++ "batch," ++ show_nat count ++ "," ++
      show_nat created ++ "," ++ show_nat updated
  | QRows rows => format_rows_csv rows
  | QCommunities _ groups => format_rows_csv groups
  | QUpdate matched => "status,matched" ++ newline ++ "update," ++ show_nat matched
  | QCount count => "status,count" ++ newline ++ "count," ++ show_nat count
  | QComponents count largest nodes =>
      "status,component_count,largest,nodes" ++ newline ++ "components," ++ show_Z count ++ "," ++
      show_Z largest ++ "," ++ show_Z nodes
  end.

Definition format_error_csv (err : Error) : string :=
  "status,message" ++ newline ++ "error," ++ csv_escape (display_error err).

Definition format_result (result : QueryResult) (outcome : OutcomeFormat) : string :=
  match outcome with
  | Json => format_result_json result
  | Toon => format_result_toon result
  | Csv => format_result_csv result
  end.

Definition format_error (err : Error) (outcome : OutcomeFormat) : string :=
  match outcome with
  | Json => format_error_json err
  | Toon => format_error_toon err
  | Csv => format_error_csv err
  end.
End results.

Example format_ex :
  format_rows_csv [[("a", VInt (-12)); ("b", VString "x,y")]; [("b", VBool true); ("c", VNone)]]%string =
  ("a,b,c" ++ newline ++ "-12," ++ dq "'x,y'" ++ "," ++ newline ++ ",true,")%string.
Proof. vm_compute. reflexivity. Qed.

(** * CSV output reads back

    A reader for comma-separated text with quoted fields, and the theorem that
    it recovers the table that [format_rows_csv] wrote. *)

Local Open Scope string_scope.

(** ** The reader *)
Inductive csv_state := FieldStart | Unquoted | Quoted | QuoteSeen.

Definition snoc (s : string) (c : ascii) : string := s ++ String c "".
Definition comma : ascii := ","%char.
Definition nl : ascii := "010"%char.

Fixpoint csv_read (st : csv_state) (cur : string) (row : list string) (s : string) : option (list (list string)) :=
  match s with
  | EmptyString => match st with Quoted => None | _ => Some [(row ++ [cur])%list] end
  | String c s' =>
      match st with
      | Quoted => if decide (c = quote) then csv_read QuoteSeen cur row s' else csv_read Quoted (snoc cur c) row s'
      | _ =>
          if decide (c = quote) then
            match st with
            | FieldStart => csv_read Quoted cur row s'
            | QuoteSeen => csv_read Quoted (snoc cur c) row s'
            | _ => None
            end
          else if decide (c = comma) then csv_read FieldStart "" (row ++ [cur])%list s'
          else if decide (c = nl) then
            rows ← csv_read FieldStart "" [] s'; Some ((row ++ [cur])%list :: rows)
          else match st with QuoteSeen => None | _ => csv_read Unquoted (snoc cur c) row s' end
      end
  end.
Definition csv_parse (s : string) : option (list (list string)) := csv_read FieldStart "" [] s.

(** ** Fields *)
Definition plain (s : string) : Prop :=
  contains_char comma s = false ∧ contains_char quote s = false ∧ contains_char nl s = false.

Lemma app_cons_l c (a b : string) : String c a ++ b = String c (a ++ b).
Proof. done. Qed.
Lemma app_empty_l (a : string) : "" ++ a = a.
Proof. done. Qed.
Lemma string_app_assoc (a b c : string) : (a ++ b) ++ c = a ++ (b ++ c).
Proof. induction a; rewrite ?app_cons_l; [done|congruence]. Qed.
Lemma string_app_nil (a : string) : a ++ "" = a.
Proof. induction a; rewrite ?app_cons_l; [done|congruence]. Qed.
Lemma quote_s_app (a : string) : quote_s ++ a = String quote a.
Proof. done. Qed.
Lemma snoc_app cur c s : snoc cur c ++ s = cur ++ String c s.
Proof. unfold snoc. by rewrite string_app_assoc. Qed.

Lemma plain_cons c s : plain (String c s) ↔ c ≠ comma ∧ c ≠ quote ∧ c ≠ nl ∧ plain s.
Proof. unfold plain. simpl. repeat case_decide; naive_solver. Qed.

Lemma read_plain s rest st cur row :
  plain s → st = FieldStart ∨ st = Unquoted →
  csv_read st cur row (s ++ rest) =
  csv_read (match s with EmptyString => st | _ => Unquoted end) (cur ++ s) row rest.
Proof.
  revert st cur. induction s as [|c s IH]; intros st cur Hs Hst; rewrite ?app_cons_l.
  { by rewrite string_app_nil. }
  apply plain_cons in Hs as (Hc & Hq & Hn & Hs). cbn [csv_read].
  rewrite !(decide_False (P := c = _)) by done.
  destruct Hst as [-> | ->]; rewrite IH, snoc_app by auto; by destruct s.
Qed.

Lemma read_quoted s rest cur row :
  csv_read Quoted cur row (replace quote (quote_s ++ quote_s) s ++ quote_s ++ rest) =
  csv_read QuoteSeen (cur ++ s) row rest.
Proof.
  revert cur. induction s as [|c s IH]; intros cur; cbn [replace]; rewrite ?app_cons_l.
  { rewrite app_empty_l, quote_s_app. cbn [csv_read]. rewrite decide_True by done. by rewrite string_app_nil. }
  destruct (decide (c = quote)) as [->|Hc].
  - rewrite !string_app_assoc, !quote_s_app. cbn [csv_read]. rewrite !(decide_True (P := quote = quote)) by done.
    rewrite IH. by rewrite snoc_app.
  - rewrite app_cons_l. cbn [csv_read]. rewrite decide_False by done. rewrite IH. by rewrite snoc_app.
Qed.

(** What follows a field. *)
Inductive field_end : string → Prop :=
  | end_text : field_end ""
  | end_comma s : field_end (String comma s)
  | end_line s : field_end (String nl s).

Lemma field_end_state st cur row rest :
  field_end rest → st ≠ Quoted → csv_read st cur row rest = csv_read Unquoted cur row rest.
Proof. intros Hr Hst. by destruct st; try done; destruct Hr. Qed.

Lemma escape_cases s :
  (plain s ∧ csv_escape s = s) ∨ csv_escape s = quote_s ++ replace quote (quote_s ++ quote_s) s ++ quote_s.
Proof.
  unfold csv_escape, plain. change ","%char with comma. change "010"%char with nl.
  destruct (contains_char comma s), (contains_char quote s), (contains_char nl s); simpl; auto.
Qed.

(** Reading an escaped field gives the field. *)
Lemma read_field s rest row :
  field_end rest → csv_read FieldStart "" row (csv_escape s ++ rest) = csv_read Unquoted s row rest.
Proof.
  intros Hr. destruct (escape_cases s) as [(Hp & ->)| ->].
  - rewrite read_plain by auto. apply field_end_state; [done|]. by destruct s.
  - rewrite string_app_assoc, quote_s_app. cbn [csv_read]. rewrite decide_True by done.
    rewrite string_app_assoc, read_quoted. by apply field_end_state.
Qed.

(** ** Lines *)
Definition line_end (rest : string) : Prop := rest = "" ∨ ∃ s, rest = String nl s.

(** What reading a complete line leaves. *)
Definition finish (row : list string) (rest : string) : option (list (list string)) :=
  match rest with
  | EmptyString => Some [row]
  | String _ s => rows ← csv_parse s; Some (row :: rows)
  end.

Lemma read_line (f : string → string) cells row rest :
  (∀ c rest row, c ∈ cells → field_end rest →
     csv_read FieldStart "" row (f c ++ rest) = csv_read Unquoted c row rest) →
  cells ≠ [] → line_end rest →
  csv_read FieldStart "" row (join_with "," (map f cells) ++ rest) = finish (row ++ cells)%list rest.
Proof.
  intros Hf Hne Hr. revert row. induction cells as [|c cells IH]; intros row; [done|].
  destruct cells as [|c' cells].
  - cbn [map join_with]. rewrite Hf; [|left|].
    + destruct Hr as [->|(s & ->)]; simpl; [done|]. unfold csv_parse. by destruct (csv_read _ _ _ s).
    + destruct Hr as [->|(s & ->)]; constructor.
  - cbn [map join_with]. rewrite !string_app_assoc. rewrite Hf; [|left|constructor].
    change ("," ++ ?x) with (String comma x). rewrite app_cons_l. cbn [csv_read].
    rewrite (decide_False (P := comma = quote)), (decide_True (P := comma = comma)) by done.
    etransitivity; [apply (IH ltac:(intros; apply Hf; [by right|done]) ltac:(done))|].
    by rewrite <- (assoc_L (++)%list).
Qed.

Lemma read_plain_field c rest row :
  plain c → field_end rest → csv_read FieldStart "" row (c ++ rest) = csv_read Unquoted c row rest.
Proof. intros Hp Hr. rewrite read_plain by auto. apply field_end_state; [done|]. by destruct c. Qed.

(** The text of a cell before escaping. *)
Definition cell_text (row : Fields) (col : string) : string :=
  match oget col row with Some v => csv_value v | None => "" end.

Lemma csv_cells_text columns row : csv_cells columns row = map csv_escape (map (cell_text row) columns).
Proof.
  unfold csv_cells. rewrite map_map. apply map_ext. intros col. unfold cell_text. by destruct (oget col row).
Qed.

(** The lines after the header. *)
Definition body (columns : list string) (rows : list Fields) : string :=
  foldr (λ row s, String nl (join_with "," (csv_cells columns row) ++ s)) "" rows.
Lemma rows_text columns rows out :
  fold_left (λ out row, out ++ newline ++ join_with "," (csv_cells columns row)) rows out = out ++ body columns rows.
Proof.
  revert out. induction rows as [|row rows IH]; intros out; simpl; [by rewrite string_app_nil|].
  rewrite IH, !string_app_assoc. done.
Qed.

Lemma body_line_end columns rows : line_end (body columns rows).
Proof. destruct rows as [|row rows]; [by left|]. right. by eexists. Qed.

Lemma read_body columns rows header :
  columns ≠ [] → finish header (body columns rows) = Some (header :: map (λ row, map (cell_text row) columns) rows).
Proof.
  intros Hne. revert header. induction rows as [|row rows IH]; intros header; [done|].
  cbn [body foldr finish map]. fold (body columns rows). unfold csv_parse.
  rewrite csv_cells_text, read_line; [|intros; by apply read_field|by destruct columns|apply body_line_end].
  simpl app. by rewrite IH.
Qed.

(** The columns are the keys of the rows, each once. *)
Lemma add_keys_spec keys columns : NoDup columns →
  NoDup (add_keys keys columns) ∧ ∀ c, c ∈ add_keys keys columns ↔ c ∈ columns ∨ c ∈ keys.
Proof.
  revert columns. induction keys as [|k keys IH]; intros columns Hnd; cbn [add_keys].
  { split; [done|]. intros c. rewrite elem_of_nil. tauto. }
  case_bool_decide as Hk.
  - destruct (IH columns Hnd) as [H1 H2]. split; [done|]. intros c. rewrite H2, elem_of_cons. naive_solver.
  - destruct (IH (columns ++ [k])%list) as [H1 H2].
    + apply NoDup_app. split_and!; [done| |apply NoDup_singleton]. by intros c Hc ->%list_elem_of_singleton.
    + split; [done|]. intros c. rewrite H2, elem_of_app, list_elem_of_singleton, elem_of_cons. tauto.
Qed.
Lemma csv_columns_spec (rows : list Fields) :
  NoDup (csv_columns rows) ∧ ∀ c, c ∈ csv_columns rows ↔ ∃ row, row ∈ rows ∧ c ∈ map fst row.
Proof.
  unfold csv_columns.
  assert (∀ columns, NoDup columns → let l := fold_left (λ columns (row : Fields), add_keys (map fst row) columns) rows columns in
    NoDup l ∧ ∀ c, c ∈ l ↔ c ∈ columns ∨ ∃ row, row ∈ rows ∧ c ∈ map fst row) as Hg.
  { induction rows as [|row rows IH]; intros columns Hnd; cbn [fold_left].
    { split; [done|]. intros c. split; [by left|]. by intros [?|(? & ?%elem_of_nil & _)]. }
    destruct (add_keys_spec (map fst row) columns Hnd) as [Hn Hin]. destruct (IH _ Hn) as [H1 H2]. split; [done|].
    intros c. rewrite H2, Hin. setoid_rewrite elem_of_cons. naive_solver. }
  destruct (Hg [] ltac:(constructor)) as [H1 H2]. split; [done|]. intros c. rewrite H2, elem_of_nil. tauto.
Qed.

(** C34.  Rows whose column names hold no comma, quote or line break, printed
    as CSV, read back as the table they are: one header line with the columns
    of all rows, each once, and one line per row, whose cells are the texts of
    the values - empty where the row has no such column - also when these hold
    commas, quotes or line breaks.  (Column names with such characters are not
    covered: the header line is not escaped, [csv_header_splits].) *)
Theorem csv_roundtrip (rows : list Fields) :
  (∃ row, row ∈ rows ∧ row ≠ []) → (∀ row c, row ∈ rows → c ∈ map fst row → plain c) →
  ∃ columns, NoDup columns ∧ (∀ c, c ∈ columns ↔ ∃ row, row ∈ rows ∧ c ∈ map fst row) ∧
    csv_parse (format_rows_csv rows) = Some (columns :: map (λ row, map (cell_text row) columns) rows).
Proof.
  intros (row0 & Hrow0 & Hne0) Hp. destruct (csv_columns_spec rows) as [Hnd Hin].
  exists (csv_columns rows). split_and!; [done..|].
  assert (csv_columns rows ≠ []) as Hne.
  { intros E. destruct row0 as [|[k v] row0]; [done|]. apply (not_elem_of_nil k). rewrite <- E. apply Hin.
    eexists. split; [exact Hrow0|]. left. }
  unfold format_rows_csv. destruct rows as [|row rows]; [done|].
  rewrite rows_text. unfold csv_parse. rewrite <- (map_id (csv_columns (row :: rows))) at 1.
  rewrite read_line; [|intros c rest row' (r & Hr & Hc)%Hin ?; apply read_plain_field; [by eapply Hp|done]|done|apply body_line_end].
  by rewrite read_body.
Qed.

Definition csv_rows : list Fields :=
  [[("id", VString "t:1"); ("note", VString ("a, " ++ quote_s ++ "b" ++ quote_s ++ newline ++ "c"))];
   [("id", VString "t:2"); ("size", VInt 7)]].
Lemma csv_roundtrip_witness :
  csv_parse (format_rows_csv csv_rows) =
  Some [["id"; "note"; "size"]; ["t:1"; "a, " ++ quote_s ++ "b" ++ quote_s ++ newline ++ "c"; ""]; ["t:2"; ""; "7"]].
Proof.
  destruct (csv_roundtrip csv_rows) as (columns & _ & _ & E).
  - eexists. split; [left|done].
  - intros row c [<-|[<-|[]]]%list_elem_of_In Hc; apply list_elem_of_In in Hc; simpl in Hc;
      repeat (destruct Hc as [<-|Hc]; [by repeat split|]); done.
  - assert (csv_parse (format_rows_csv csv_rows) =
      Some [["id"; "note"; "size"]; ["t:1"; "a, " ++ quote_s ++ "b" ++ quote_s ++ newline ++ "c"; ""]; ["t:2"; ""; "7"]]) as E'
      by (vm_compute; reflexivity).
    rewrite E in E' |- *. exact E'.
Defined.

(** The header line is not escaped: a column named by a call with two
    arguments splits into two header fields. *)
Example csv_header_splits :
  csv_parse (format_rows_csv [[("f(a, b)", VInt 1)]]) = Some [["f(a"; " b)"]; ["1"]].
Proof. vm_compute. reflexivity. Qed.
