(* ===== verification/GraphStatements.v ===== *)
(** * Graph statements of the executor (crates/query/src/executor.rs)

    The graph traversal [SELECT] and the [GRAPH COMPONENTS], [GRAPH PATH] and
    [GRAPH EDGES] statements: the edge store, the graph algorithms and the
    collections composed as the handlers compose them.  Casts of lengths to
    [i64] are exact because the length of a vector is below [2^63].  A handler
    that panics or diverges is [Ok None]. *)

From stdpp Require Import gmap.
From S2P Require Export Executor Traverse Path ComponentsSpec.
Open Scope nat_scope.

(** ** Traversals *)

(** [for dest in neighbors { if seen.insert(dest.clone()) { next_ids.push(dest) } }]. *)
Fixpoint push_new (neighbors : list string) (acc : gset string * list string) : gset string * list string :=
  match neighbors with
  | [] => acc
  | dest :: neighbors' =>
      push_new neighbors'
        (if decide (dest ∈ acc.1) then acc else ({[ dest ]} ∪ acc.1, acc.2 ++ [dest]))
  end.

Section statements.
Context {S : Type} `{KvStore S} `{FieldsCodec} `{CodeIntel} (ns db : string).

Definition hop_neighbors (hop : TraversalHop) (id : string) : M S (list string) :=
  let es := EdgeStores.new ns db (th_edge_type hop) in
  match th_direction hop with
  | TOut => Traversals.outgoing_neighbors_typed es id (th_edge_type hop)
  | TIn => Traversals.incoming_neighbors_typed es id (th_edge_type hop)
  end.

(** The loop over the current vertices of one hop. *)
Fixpoint hop_loop (hop : TraversalHop) (current_ids : list string) (acc : gset string * list string) :
    M S (gset string * list string) :=
  match current_ids with
  | [] => mret acc
  | id :: current_ids' =>
      neighbors ← hop_neighbors hop id;
      hop_loop hop current_ids' (push_new neighbors acc)
  end.

Fixpoint follow_hops (hops : list TraversalHop) (current_ids : list string) : M S (list string) :=
  match hops with
  | [] => mret current_ids
  | hop :: hops' =>
      acc ← hop_loop hop current_ids (∅, []);
      follow_hops hops' acc.2
  end.

Definition source_ids (from : FromTarget) : M S (list string) :=
  match from with
  | FromRecord r => mret [rr_id r]
  | FromTable t => Collections.scan_ids (Collections.new ns db t)
  end.

Definition traversal_row (final_table : string) (projection : option string) (doc : Document) : Fields :=
  let row := match projection with
             | None => doc_fields doc
             | Some field =>
                 match oget field (doc_fields doc) with
                 | Some v => oinsert field v []
                 | None => []
                 end
             end in
  oinsert "id"%string (VString (final_table ++ ":" ++ rid_id (doc_id doc))) row.

Definition exec_traversal_select (chain : TraversalChain) (from : FromTarget)
    (filter : option WhereClause) (limit : option Z) : M S QueryResult :=
  start ← source_ids from;
  current_ids ← follow_hops (tc_hops chain) start;
  match last (tc_hops chain) with
  | None => mret (QRows [])
  | Some h =>
      let final_table := th_dest_table h in
      docs ← Collections.get_many (Collections.new ns db final_table) current_ids;
      let rows := map (traversal_row final_table (tc_projection chain)) (List.filter (keep filter) docs) in
      mret (QRows (match limit with Some n => take (Z.to_nat n) rows | None => rows end))
  end.

(** ** Graph analytics *)

(** The counters of the loop over [comps.groups.values()]. *)
Definition component_counts (groups : list (list string)) : Z * Z :=
  fold_left (λ '(largest, nodes) members,
    let size := Z.of_nat (length members) in
    ((if largest <? size then size else largest)%Z, (nodes + size)%Z)) groups (0%Z, 0%Z).

(** [values] lists the groups in the iteration order of the map. *)
Definition components_result (values : list (list string)) (comps : Components) : QueryResult :=
  let '(largest, nodes) := component_counts values in
  QComponents (Z.of_nat (comp_len comps)) largest nodes.

Definition exec_graph_components (table : string) : M S (option QueryResult) :=
  edges ← EdgeStores.scan_all_edges (EdgeStores.new ns db table);
  mret (comps ← connected_components edges;
        Some (components_result (map snd (map_to_list (groups comps))) comps)).

Definition path_row (found : option (list string)) : Fields :=
  match found with
  | Some nodes =>
      oextend [] [("found", VBool true); ("length", VInt (Z.of_nat (length nodes - 1)));
                  ("path", VArray (map VString nodes))]
  | None => oextend [] [("found", VBool false); ("length", VInt (-1)); ("path", VArray [])]
  end%string.

Definition exec_graph_path (src dst table : string) (max_depth : option nat) : M S (option QueryResult) :=
  edges ← EdgeStores.scan_all_edges (EdgeStores.new ns db table);
  mret (found ← shortest_path edges src dst max_depth; Some (QRows [path_row found])).

(** The synthetic row of an edge. *)
Definition edge_row (edge : Edge) : Fields :=
  let fields := e_properties edge in
  let weight := match oget "weight"%string fields with
                | Some (VFloat f) => f
                | Some (VInt n) => f64_of_i64 n
                | _ => f64_one
                end in
  oextend fields [("src", VString (e_src edge)); ("dst", VString (e_dst edge));
                  ("edge_type", VString (e_edge_type edge)); ("weight", VFloat weight)]%string.

(** [uuids] are the identifiers drawn for the rows tested by the filter. *)
Definition edge_passes (table : string) (filter : option WhereClause) (uuid : string) (fields : Fields) : bool :=
  match filter with
  | Some clause => matches_where (MkDocument (RecordIds.generate uuid table) fields) clause
  | None => true
  end.

Definition exec_graph_edges (uuid : nat → string) (table : string) (filter : option WhereClause) :
    M S QueryResult :=
  edges ← EdgeStores.scan_all_outgoing_edges (EdgeStores.new ns db table);
  mret (QRows (omap (λ '(i, edge),
    let fields := edge_row edge in
    if edge_passes table filter (uuid i) fields then Some fields else None)
    (imap pair edges))).
End statements.
