(* ===== verification/GraphStatementsSpec.v ===== *)
(** * Graph statements answer about the stored edges

    The traversal [SELECT] returns the documents reached through the chain of
    hops; [GRAPH COMPONENTS] counts the connected components of the stored
    edges and [GRAPH PATH] returns a shortest path over them. *)

From stdpp Require Import gmap.
From S2P Require Export GraphStatements GraphTheorems PlanExact ExecutorRows.
Open Scope nat_scope.

(** ** Deduplication *)
Lemma push_new_spec neighbors acc :
  (∀ v, v ∈ acc.1 ↔ v ∈ acc.2) → NoDup acc.2 →
  (∀ v, v ∈ (push_new neighbors acc).1 ↔ v ∈ (push_new neighbors acc).2) ∧
  NoDup (push_new neighbors acc).2 ∧
  ∀ v, v ∈ (push_new neighbors acc).2 ↔ v ∈ acc.2 ∨ v ∈ neighbors.
Proof.
  revert acc. induction neighbors as [|d ns IH]; intros acc Heq Hnd; simpl.
  { split_and!; [done|done|]. intros v. rewrite elem_of_nil. naive_solver. }
  case_decide as Hd.
  - destruct (IH acc Heq Hnd) as (H1 & H2 & H3). split_and!; [done|done|].
    intros v. rewrite H3, elem_of_cons. rewrite Heq in Hd. naive_solver.
  - destruct (IH ({[ d ]} ∪ acc.1, acc.2 ++ [d])) as (H1 & H2 & H3); simpl.
    + intros v. rewrite elem_of_union, elem_of_singleton, elem_of_app, list_elem_of_singleton, Heq. naive_solver.
    + apply NoDup_app. split_and!; [done| |apply NoDup_singleton].
      intros v Hv ->%list_elem_of_singleton. by rewrite Heq in Hd.
    + split_and!; [done|done|]. intros v. rewrite H3. simpl.
      rewrite elem_of_app, list_elem_of_singleton, elem_of_cons. naive_solver.
Qed.

(** ** Traversals *)
Section traversal.
Context {S : Type} `{KL : KvLaws S} `{FL : FieldsCodecLaws} `{CI : CodeIntel} (ns db : string).
Implicit Types (s : S).

Definition hop_store (hop : TraversalHop) : EdgeStore := EdgeStores.new ns db (th_edge_type hop).
Definition hop_out (hop : TraversalHop) : bool := match th_direction hop with TOut => true | TIn => false end.

(** A stored edge of the hop's type leads from [u] to [w]. *)
Definition hop_edge (c : OMap bytes bytes) (hop : TraversalHop) (u w : string) : Prop :=
  ∃ ed, edge_ok ed ∧ edge_stored (hop_store hop) c ed ∧ e_edge_type ed = th_edge_type hop ∧
    near (hop_out hop) ed = u ∧ far (hop_out hop) ed = w.

Fixpoint reaches (c : OMap bytes bytes) (hops : list TraversalHop) (u w : string) : Prop :=
  match hops with
  | [] => u = w
  | hop :: hops' => ∃ v, hop_edge c hop u v ∧ reaches c hops' v w
  end.

Record hop_ok (c : OMap bytes bytes) (hop : TraversalHop) : Prop := {
  hk_wf : store_wf (hop_store hop);
  hk_type : seg_ok (th_edge_type hop);
  hk_inv : edge_inv (hop_store hop) c
}.

Lemma hop_neighbors_run s hop v :
  hop_ok (contents s) hop → vertex_ok v →
  ∃ ws, hop_neighbors ns db hop v s = (Ok ws, s) ∧ ∀ w, w ∈ ws ↔ hop_edge (contents s) hop v w.
Proof using KL FL.
  intros [Hwf Ht Hinv] Hv.
  destruct (scan_neighbors_run (hop_store hop) Hwf s (hop_out hop) v (Some (th_edge_type hop)) Hinv Hv Ht)
    as (edges & Hr & _ & Hin).
  exists (map (far (hop_out hop)) edges). split.
  - revert Hr. unfold hop_neighbors, hop_out. by destruct (th_direction hop).
  - intros w. unfold hop_edge. rewrite list_elem_of_fmap. split.
    + intros (ed & -> & (? & ? & ? & ?)%Hin). exists ed. auto.
    + intros (ed & ? & ? & ? & ? & <-). exists ed. split; [done|]. apply Hin. auto.
Qed.

Lemma hop_edge_ok c hop u w : hop_edge c hop u w → vertex_ok w.
Proof. intros (ed & Hok & _ & _ & _ & <-). by apply far_ok. Qed.

Lemma hop_loop_run s hop ids acc :
  hop_ok (contents s) hop → Forall vertex_ok ids →
  (∀ v, v ∈ acc.1 ↔ v ∈ acc.2) → NoDup acc.2 →
  ∃ acc', hop_loop ns db hop ids acc s = (Ok acc', s) ∧ NoDup acc'.2 ∧
    ∀ w, w ∈ acc'.2 ↔ w ∈ acc.2 ∨ ∃ v, v ∈ ids ∧ hop_edge (contents s) hop v w.
Proof using KL FL.
  intros Hok Hids. revert acc. induction Hids as [|v ids Hv Hids IH]; intros acc Heq Hnd; simpl.
  { exists acc. split_and!; [done|done|]. intros w. split; [auto|]. intros [?|(v & ?%not_elem_of_nil & _)]; done. }
  destruct (hop_neighbors_run s hop v Hok Hv) as (ws & Hr & Hws).
  rewrite (SE_bind_ok _ _ s ws s Hr).
  destruct (push_new_spec ws acc Heq Hnd) as (Heq' & Hnd' & Hin').
  destruct (IH (push_new ws acc) Heq' Hnd') as (acc' & -> & Hnd'' & Hin). exists acc'. split_and!; [done|done|].
  intros w. rewrite Hin, Hin', Hws. setoid_rewrite elem_of_cons. naive_solver.
Qed.

Lemma follow_hops_run s hops ids :
  Forall (hop_ok (contents s)) hops → Forall vertex_ok ids → NoDup ids →
  ∃ ids', follow_hops ns db hops ids s = (Ok ids', s) ∧ NoDup ids' ∧
    ∀ w, w ∈ ids' ↔ ∃ v, v ∈ ids ∧ reaches (contents s) hops v w.
Proof using KL FL.
  intros Hhops. revert ids. induction Hhops as [|hop hops Hok Hhops IH]; intros ids Hids Hnd; simpl.
  { exists ids. split_and!; [done|done|]. naive_solver. }
  destruct (hop_loop_run s hop ids (∅, []) Hok Hids) as (acc & Hr & Hnd' & Hin); [set_solver|constructor|].
  rewrite (SE_bind_ok _ _ s acc s Hr).
  destruct (IH acc.2) as (ids' & -> & Hnd'' & Hin'); [|done|].
  { apply Forall_forall. intros w [?%elem_of_nil|(v & _ & He)]%Hin; [done|by eapply hop_edge_ok]. }
  exists ids'. split_and!; [done|done|]. intros w. rewrite Hin'. setoid_rewrite Hin.
  split.
  - intros (v & [?%not_elem_of_nil|(u & Hu & He)] & Hrs); [done|]. exists u. split; [done|]. by exists v.
  - intros (u & Hu & v & He & Hrs). exists v. split; [|done]. right. by exists u.
Qed.

(** The vertices a [SELECT] starts from. *)
Definition source (c : OMap bytes bytes) (from : FromTarget) (v : string) : Prop :=
  match from with
  | FromRecord r => v = rr_id r
  | FromTable t => ∃ doc, stored c (Collections.new ns db t) v = Some doc
  end.

Record source_ok (c : OMap bytes bytes) (from : FromTarget) : Prop := {
  so_table : match from with
    | FromTable t => coll_wf (Collections.new ns db t) ∧ coll_inv c (Collections.new ns db t)
    | FromRecord _ => True
    end;
  so_ids : ∀ v, source c from v → vertex_ok v
}.

Lemma source_ids_run s from :
  source_ok (contents s) from →
  ∃ ids, source_ids ns db from s = (Ok ids, s) ∧ NoDup ids ∧ ∀ v, v ∈ ids ↔ source (contents s) from v.
Proof using KL FL.
  intros [Ht _]. destruct from as [t|r]; simpl in *.
  - destruct Ht as [Hwf Hinv]. destruct (scans_run _ Hwf s Hinv) as (docs & _ & Hs & _ & Hnd & Hst).
    exists (map (λ d, rid_id (doc_id d)) docs). split_and!; [done|done|].
    intros v. rewrite list_elem_of_fmap. split.
    + intros (d & -> & Hd). exists d. by apply Hst.
    + intros (d & (Hd & <-)%Hst). by exists d.
  - exists [rr_id r]. split_and!; [done|apply NoDup_singleton|]. intros v. by rewrite list_elem_of_singleton.
Qed.
End traversal.

(** C29.  A traversal [SELECT] on consistent tables returns, up to its limit,
    the rows of the documents of the last hop's table that match the filter
    and whose record is reached from a source vertex by one stored edge of the
    required type and direction per hop; each reached document gives one row,
    however many paths lead to it, and a chain of no hops returns no rows. *)
Theorem traversal_select_exact {S} `{KL : KvLaws S} `{FL : FieldsCodecLaws} `{CI : CodeIntel}
    (ns db : string) (chain : TraversalChain) (from : FromTarget) (filter : option WhereClause)
    (limit : option Z) (s : S) :
  source_ok ns db (contents s) from →
  Forall (hop_ok ns db (contents s)) (tc_hops chain) →
  (∀ h, last (tc_hops chain) = Some h →
     coll_inv (contents s) (Collections.new ns db (th_dest_table h))) →
  ∃ rows, exec_traversal_select ns db chain from filter limit s = (Ok (QRows rows), s) ∧
    match last (tc_hops chain) with
    | None => rows = []
    | Some h => ∃ docs, NoDup (map (λ d, rid_id (doc_id d)) docs) ∧
        (∀ doc, doc ∈ docs ↔ keep filter doc = true ∧
           stored (contents s) (Collections.new ns db (th_dest_table h)) (rid_id (doc_id doc)) = Some doc ∧
           ∃ v, source ns db (contents s) from v ∧
             reaches ns db (contents s) (tc_hops chain) v (rid_id (doc_id doc))) ∧
        rows = (λ all, match limit with Some n => take (Z.to_nat n) all | None => all end)
                 (map (traversal_row (th_dest_table h) (tc_projection chain)) docs)
    end.
Proof.
  intros Hsrc Hhops Hlast. unfold exec_traversal_select.
  destruct (source_ids_run ns db s from Hsrc) as (start & Hr & Hnd & Hst).
  rewrite (SE_bind_ok _ _ s start s Hr).
  destruct (follow_hops_run ns db s (tc_hops chain) start Hhops) as (ids & Hr' & Hnd' & Hin); [|done|].
  { apply Forall_forall. intros v Hv. apply (so_ids _ _ _ _ Hsrc). by apply Hst. }
  rewrite (SE_bind_ok _ _ s ids s Hr').
  destruct (last (tc_hops chain)) as [h|]; [|by exists []].
  set (coll := Collections.new ns db (th_dest_table h)). specialize (Hlast h eq_refl). fold coll in Hlast.
  rewrite (SE_bind_ok _ _ s _ s (get_many_run coll s ids Hlast)).
  set (docs := omap (stored (contents s) coll) ids).
  assert (map (λ d, rid_id (doc_id d)) docs `sublist_of` ids) as Hsub.
  { clear. unfold docs. induction ids as [|id ids IH]; simpl; [done|].
    destruct (stored _ _ id) as [d|] eqn:E; simpl; [|by apply sublist_cons].
    rewrite (stored_id _ _ _ _ E). by apply sublist_skip. }
  eexists. split; [done|]. exists (List.filter (keep filter) docs). split_and!; [| |done].
  - assert (NoDup (map (λ d, rid_id (doc_id d)) docs)) as Hd by (by eapply sublist_NoDup).
    clear -Hd. induction docs as [|d docs IH]; simpl; [constructor|]. inversion Hd as [|? ? Hn Hd']; subst.
    destruct (keep filter d); [|auto]. constructor; [|auto].
    intros (d' & E & Hd'')%list_elem_of_fmap. apply Hn. rewrite E. apply list_elem_of_fmap. exists d'.
    split; [done|]. by apply elem_filter_bool in Hd'' as [_ ?].
  - intros doc. rewrite elem_filter_bool. unfold docs. rewrite list_elem_of_omap. split.
    + intros (Hk & id & Hid & Hd). split; [done|]. rewrite (stored_id _ _ _ _ Hd). split; [done|].
      apply Hin in Hid as (v & Hv & Hrs). exists v. split; [by apply Hst|done].
    + intros (Hk & Hd & v & Hv & Hrs). split; [done|]. eexists. split; [|done].
      apply Hin. exists v. split; [by apply Hst|done].
Qed.

(** ** Components *)
Section counts.
Open Scope Z_scope.

Lemma component_counts_run groups largest nodes :
  fold_left (λ '(largest, nodes) (members : list string),
    let size := Z.of_nat (length members) in
    (if largest <? size then size else largest, nodes + size)) groups (largest, nodes) =
  (foldr (λ m acc, Z.max (Z.of_nat (length m)) acc) largest groups,
   nodes + Z.of_nat (length (concat groups))).
Proof.
  revert largest nodes. induction groups as [|m groups IH]; intros largest nodes; simpl.
  { f_equal. lia. }
  rewrite IH, length_app. f_equal; [|lia].
  assert ((if largest <? Z.of_nat (length m) then Z.of_nat (length m) else largest) =
          Z.max (Z.of_nat (length m)) largest) as -> by (destruct (Z.ltb_spec largest (Z.of_nat (length m))); lia).
  clear. induction groups as [|g groups IH]; simpl; [lia|]. rewrite IH. lia.
Qed.

Lemma max_size_spec (gs : list (list string)) :
  let M := foldr (λ m acc, Z.max (Z.of_nat (length m)) acc) 0 gs in
  (∀ m, m ∈ gs → Z.of_nat (length m) ≤ M) ∧ (M = 0 ∨ ∃ m, m ∈ gs ∧ M = Z.of_nat (length m)).
Proof.
  induction gs as [|g gs (IH1 & IH2)]; simpl; [split; [by intros ? ?%not_elem_of_nil|auto]|]. split.
  - intros m [->|Hm]%elem_of_cons; [lia|]. specialize (IH1 m Hm). lia.
  - destruct (Z.max_spec (Z.of_nat (length g)) (foldr (λ m acc, Z.max (Z.of_nat (length m)) acc) 0 gs))
      as [(_ & ->)|(_ & ->)].
    + destruct IH2 as [->|(m & Hm & ->)]; [auto|]. right. exists m. split; [by right|done].
    + right. exists g. split; [by left|done].
Qed.
End counts.

(** The members of all groups are the endpoints, each once. *)
Lemma components_members edges gs :
  components_of edges gs →
  NoDup (concat (map snd (map_to_list gs))) ∧
  ∀ v, v ∈ concat (map snd (map_to_list gs)) ↔ v ∈ nodes edges.
Proof.
  intros Hc. split.
  - assert (∀ l, NoDup (map fst l) → (∀ r ms, (r, ms) ∈ l → gs !! r = Some ms) → NoDup (concat (map snd l))) as Hl.
    { induction l as [|[r ms] l IH]; simpl; intros Hnd Hin; [constructor|].
      inversion Hnd as [|? ? Hn Hnd']; subst. apply NoDup_app. split_and!.
      - eapply co_sorted; [done|]. apply Hin. left.
      - intros v Hv Hv'. apply list_elem_of_In, in_concat in Hv' as (ms' & Hms' & Hv').
        apply list_elem_of_In in Hms', Hv'. apply list_elem_of_fmap in Hms' as ([r' ms''] & -> & Hr').
        assert (gs !! r = Some ms) as Hr by (apply Hin; left).
        assert (gs !! r' = Some ms'') as Hr'' by (apply Hin; by right).
        destruct (co_cover _ _ Hc v) as (q & _ & _ & _ & Hu).
        { by eapply (co_mem _ _ Hc r ms). }
        apply Hn. rewrite (Hu r ms Hr Hv), <- (Hu r' ms'' Hr'' Hv').
        apply list_elem_of_fmap. by exists (r', ms'').
      - apply IH; [done|]. intros r' ms' ?. apply Hin. by right. }
    apply Hl; [apply NoDup_fst_map_to_list|]. intros r ms. by rewrite elem_of_map_to_list.
  - intros v. rewrite list_elem_of_In, in_concat. split.
    + intros (ms & Hms & Hv). apply list_elem_of_In in Hms, Hv.
      apply list_elem_of_fmap in Hms as ([r ms'] & -> & Hr). apply elem_of_map_to_list in Hr. by apply (co_mem _ _ Hc r ms' v Hr) in Hv as [? _].
    + intros Hv. destruct (co_cover _ _ Hc v Hv) as (r & ms & Hr & Hm & _). exists ms.
      rewrite <- !list_elem_of_In. split; [|done]. apply list_elem_of_fmap. exists (r, ms).
      split; [done|]. by apply elem_of_map_to_list.
Qed.

Section stored_edges.
Context {S : Type} `{KL : KvLaws S} `{FL : FieldsCodecLaws} (st : EdgeStore) (Hst : store_wf st).
Implicit Types (s : S).

(** The stored edges of a table, as pairs of vertices. *)
Definition stored_pair (c : OMap bytes bytes) (u v : string) : Prop :=
  ∃ ed, edge_ok ed ∧ edge_stored st c ed ∧ e_src ed = u ∧ e_dst ed = v.

(** The edges of the table, each once. *)
Definition edges_listed (c : OMap bytes bytes) (eds : list Edge) : Prop :=
  NoDup eds ∧ ∀ ed, ed ∈ eds ↔ edge_ok ed ∧ edge_stored st c ed.
Definition ends (ed : Edge) : string * string := (e_src ed, e_dst ed).

Lemma stored_edges_run s :
  edge_inv st (contents s) →
  ∃ eds, EdgeStores.scan_all_edges st s = (Ok (map ends eds), s) ∧ length eds ≤ length (contents s) ∧
    edges_listed (contents s) eds.
Proof using KL FL Hst.
  intros Hinv. destruct (table_scans_run st Hst s Hinv) as (edges & _ & Hs & _ & Hnd & Hin).
  exists edges. split_and!; [done| |done].
  - rewrite <- (length_map (λ ed, EdgeStores.out_key st (e_src ed) (e_edge_type ed) (e_dst ed)) edges).
    rewrite <- (length_map fst (contents s)). apply submseteq_length, NoDup_submseteq.
    + apply NoDup_fmap_2_strong; [|done]. intros e1 e2 [Hok1 G1]%Hin [Hok2 G2]%Hin E.
      pose proof Hok1 as []; pose proof Hok2 as [].
      apply out_key_inj in E as (E1 & E2 & E3); [|done..].
      unfold edge_stored in G1, G2. rewrite E1, E2, E3, G2 in G1. injection G1 as E4.
      destruct e1, e2; simpl in *; congruence.
    + intros k (ed & -> & [_ Hed]%Hin)%list_elem_of_fmap. apply edge_at_Some in Hed as (b & Hb & _).
      apply oget_elem in Hb. apply list_elem_of_fmap. by eexists (_, b).
Qed.
Lemma listed_pairs c eds u v : edges_listed c eds → (u, v) ∈ map ends eds ↔ stored_pair c u v.
Proof.
  intros [_ Hin]. rewrite list_elem_of_fmap. split.
  - intros (ed & [= -> ->] & [? ?]%Hin). by exists ed.
  - intros (ed & ? & ? & <- & <-). exists ed. split; [done|]. by apply Hin.
Qed.
Lemma stored_pairs_run s :
  edge_inv st (contents s) →
  ∃ pairs, EdgeStores.scan_all_edges st s = (Ok pairs, s) ∧ length pairs ≤ length (contents s) ∧
    ∀ u v, (u, v) ∈ pairs ↔ stored_pair (contents s) u v.
Proof using KL FL Hst.
  intros (eds & Hs & Hl & He)%stored_edges_run. exists (map ends eds). rewrite length_map. split_and!; [done..|].
  intros. by apply listed_pairs.
Qed.
End stored_edges.

(** [GRAPH COMPONENTS] on a consistent edge table succeeds and counts the
    connected components of the stored edges read in both directions: the
    number of components, the size of a largest one and the number of distinct
    endpoints, whatever the iteration order of the hash map of groups. *)
Theorem graph_components_exact {S} `{KL : KvLaws S} `{FL : FieldsCodecLaws}
    (ns db table : string) (s : S) :
  let st := EdgeStores.new ns db table in
  store_wf st → edge_inv st (contents s) → (Z.of_nat (length (contents s)) < 2 ^ 63)%Z →
  ∃ edges comps, (∀ u v, (u, v) ∈ edges ↔ stored_pair st (contents s) u v) ∧
    components_of edges (groups comps) ∧
    ∃ largest : Z,
      (∀ rep ms, groups comps !! rep = Some ms → (Z.of_nat (length ms) ≤ largest)%Z) ∧
      (largest = 0%Z ∨ ∃ rep ms, groups comps !! rep = Some ms ∧ largest = Z.of_nat (length ms)) ∧
      let result := QComponents (Z.of_nat (size (groups comps))) largest
                      (Z.of_nat (size (list_to_set (nodes edges) : gset string))) in
      exec_graph_components ns db table s = (Ok (Some result), s) ∧
      ∀ values, values ≡ₚ map snd (map_to_list (groups comps)) → components_result values comps = result.
Proof.
  intros st Hst Hinv Hlen. destruct (stored_pairs_run st Hst s Hinv) as (edges & Hs & Hle & Hin).
  destruct (connected_components_run edges) as (comps & Hr & Hc); [lia|].
  exists edges, comps. split_and!; [done|done|].
  pose proof (max_size_spec (map snd (map_to_list (groups comps)))) as (Hmax & Hex).
  destruct (components_members edges (groups comps) Hc) as (Hnd & Hmem).
  set (largest := foldr (λ m acc, Z.max (Z.of_nat (length m)) acc) 0%Z (map snd (map_to_list (groups comps)))) in *.
  assert (∀ m, m ∈ map snd (map_to_list (groups comps)) ↔ ∃ rep, groups comps !! rep = Some m) as Hvals.
  { intros m. rewrite list_elem_of_fmap. split.
    - intros ([r m'] & -> & Hm). exists r. by apply elem_of_map_to_list.
    - intros (r & Hm). exists (r, m). split; [done|]. by apply elem_of_map_to_list. }
  assert (∀ values, values ≡ₚ map snd (map_to_list (groups comps)) → components_result values comps =
    QComponents (Z.of_nat (size (groups comps))) largest
      (Z.of_nat (size (list_to_set (nodes edges) : gset string)))) as Hres.
  { intros values Hp. unfold components_result, component_counts. rewrite component_counts_run.
    f_equal.
    - subst largest. clear -Hp. induction Hp; simpl; lia.
    - rewrite Z.add_0_l. f_equal.
      assert (concat values ≡ₚ concat (map snd (map_to_list (groups comps)))) as ->.
      { clear -Hp. induction Hp; simpl; [done|by apply Permutation_app_head| |by etrans].
        by rewrite !(assoc_L (++)), (Permutation_app_comm y x). }
      rewrite <- (size_list_to_set (C := gset string)) by done. f_equal.
      apply set_eq. intros v. by rewrite !elem_of_list_to_set. }
  exists largest. split_and!.
  - intros rep ms Hm. apply Hmax, Hvals. by exists rep.
  - destruct Hex as [?|(m & (rep & Hm)%Hvals & ->)]; [by left|right; by exists rep, m].
  - unfold exec_graph_components. fold st. rewrite (SE_bind_ok _ _ s edges s Hs), Hr. simpl.
    by rewrite Hres.
Qed.

(** [GRAPH PATH] on a consistent edge table succeeds with one row: the
    path found by breadth-first search over the stored edges, which is a
    shortest one within the depth bound, with its number of edges as length,
    or [found = false] and length -1 when no path is within the bound. *)
Theorem graph_path_exact {S} `{KL : KvLaws S} `{FL : FieldsCodecLaws}
    (ns db table src dst : string) (max_depth : option nat) (s : S) :
  let st := EdgeStores.new ns db table in
  store_wf st → edge_inv st (contents s) →
  ∃ edges r, (∀ u v, (u, v) ∈ edges ↔ stored_pair st (contents s) u v) ∧
    search_result edges src dst max_depth r ∧
    exec_graph_path ns db src dst table max_depth s = (Ok (Some (QRows [path_row r])), s) ∧
    match r with
    | Some p => oget "length"%string (path_row r) = Some (VInt (Z.of_nat (length p) - 1))
    | None => oget "length"%string (path_row r) = Some (VInt (-1))
    end.
Proof.
  intros st Hst Hinv. destruct (stored_pairs_run st Hst s Hinv) as (edges & Hs & _ & Hin).
  destruct (shortest_path_run edges src dst max_depth) as (r & Hr & Hres).
  exists edges, r. split_and!; [done|done| |].
  - unfold exec_graph_path. fold st. rewrite (SE_bind_ok _ _ s edges s Hs), Hr. done.
  - destruct r as [p|]; [|done]. destruct Hres as (rest & -> & _).
    assert (oget "length"%string (path_row (Some (src :: rest))) =
      Some (VInt (Z.of_nat (length (src :: rest) - 1)))) as -> by reflexivity.
    do 2 f_equal. cbn [length]. lia.
Qed.

(** ** Frames of the invariants *)

(** An un-indexed handle on a consistent table. *)
Lemma coll_inv_plain `{FieldsCodec} c coll :
  coll_inv c coll → coll_inv c (Collections.new (co_ns coll) (co_db coll) (co_table coll)).
Proof.
  intros Hinv. split.
  - intros id b Hb. destruct (inv_docs _ _ Hinv id b Hb) as (doc & es & Hd & _). by exists doc, [].
  - exact (inv_ids _ _ Hinv).
  - intros k (idx & ?%not_elem_of_nil & _). done.
Qed.

Lemma coll_inv_frame `{FieldsCodec} c c' coll :
  (∀ k, table_prefix (co_ns coll) (co_db coll) (co_table coll) tag.DOCUMENT `prefix_of` k ∨ index_region coll k →
     oget k c' = oget k c) →
  coll_inv c coll → coll_inv c' coll.
Proof.
  intros Hf Hinv.
  assert (∀ id, oget (Collections.doc_key coll id) c' = oget (Collections.doc_key coll id) c) as Hdoc.
  { intros id. apply Hf. left. unfold Collections.doc_key. rewrite document_key_shape, table_prefix_shape.
    apply prefix_app, prefix_cons, prefix_nil. }
  assert (∀ id, stored c' coll id = stored c coll id) as Hst by (intros id; unfold stored; by rewrite Hdoc).
  split.
  - intros id b. rewrite Hdoc. apply (inv_docs _ _ Hinv).
  - intros k v Hk Hp. rewrite Hf in Hk by auto. by eapply inv_ids.
  - intros k Hk. rewrite Hf by auto. rewrite (inv_entries _ _ Hinv k Hk). by setoid_rewrite Hst.
Qed.

Lemma edge_inv_no_region `{FieldsCodec} st c :
  (∀ k v, oget k c = Some v → ¬ EdgeStores.edge_prefix st `prefix_of` k) → edge_inv st c.
Proof.
  intros Hn. split.
  - intros k v Hk Hp. by destruct (Hn k v Hk).
  - intros s e d _. assert (∀ k, EdgeStores.edge_prefix st `prefix_of` k → oget k c = None) as Hnone.
    { intros k Hp. destruct (oget k c) eqn:E; [|done]. by destruct (Hn _ _ E). }
    rewrite !Hnone by (apply out_key_prefix || apply in_key_prefix). done.
Qed.

(** ** A concrete graph over the table of people *)
Definition social : MemRedb.db :=
  (run_edge_ops follow_store
     [ERelate (MkEdge "a" "follows" "b" []); ERelate (MkEdge "b" "follows" "a" [])] indexed_people).2.

Lemma social_edges : edge_inv follow_store (contents social).
Proof.
  assert (Forall edge_op_ok
    [ERelate (MkEdge "a" "follows" "b" []); ERelate (MkEdge "b" "follows" "a" [])]) as Hok.
  { repeat constructor; first [compute_decide|reflexivity]. }
  apply (edge_ops_refine follow_store _ indexed_people (λ _ _ _, None)); [exact Hok|..].
  - apply edge_inv_no_region. intros k v Hk%oget_elem.
    assert (Forall (λ kv : bytes * bytes, ¬ EdgeStores.edge_prefix follow_store `prefix_of` kv.1)
      (contents indexed_people)) as Hf by compute_decide.
    rewrite Forall_forall in Hf. by apply (Hf (k, v)).
  - intros u e v _. unfold edge_at.
    assert (oget (EdgeStores.out_key follow_store u e v) (contents indexed_people) = None) as ->; [|done].
    destruct (oget _ _) as [b|] eqn:E; [|done]. apply oget_elem in E.
    assert (Forall (λ kv : bytes * bytes, ¬ EdgeStores.edge_prefix follow_store `prefix_of` kv.1)
      (contents indexed_people)) as Hf by compute_decide.
    rewrite Forall_forall in Hf. destruct (Hf _ E). apply out_key_prefix.
Qed.

Lemma social_people : coll_inv (contents social) (Collections.new "n" "d" "people").
Proof.
  apply (coll_inv_plain _ people). apply (coll_inv_frame (contents indexed_people)); [|apply indexed_people_inv].
  intros k Hk.
  assert (contents social = oextend (contents indexed_people)
    (contents (run_edge_ops follow_store
       [ERelate (MkEdge "a" "follows" "b" []); ERelate (MkEdge "b" "follows" "a" [])] MemRedb.empty).2)) as ->
    by (vm_compute; reflexivity).
  apply oget_extend_notin. intros Hin.
  assert (Forall (λ q, ¬ table_prefix "n" "d" "people" tag.DOCUMENT `prefix_of` q ∧
                       ¬ index_prefix "n" "d" "people" "by_age" `prefix_of` q ∧
                       ¬ index_prefix "n" "d" "people" "by_email" `prefix_of` q)
    (map fst (contents (run_edge_ops follow_store
       [ERelate (MkEdge "a" "follows" "b" []); ERelate (MkEdge "b" "follows" "a" [])] MemRedb.empty).2))) as Hf
    by compute_decide.
  rewrite Forall_forall in Hf. destruct (Hf k Hin) as (H1 & H2 & H3).
  destruct Hk as [Hk|(idx & Hidx & _ & r & ->)]; [done|]. apply list_elem_of_In in Hidx.
  destruct Hidx as [<-|[<-|[]]]; [apply H2|apply H3]; by eexists.
Qed.

Lemma follows_ok : hop_ok "n" "d" (contents social) (MkTraversalHop TOut "follows" "people").
Proof. split; [exact follow_store_wf|compute_decide|exact social_edges]. Qed.

Lemma traversal_select_exact_witness :
  ∃ row, exec_traversal_select "n" "d"
    (MkTraversalChain [MkTraversalHop TOut "follows" "people"] (Some "age"%string))
    (FromRecord (MkRecordRef "people" "a")) None None social = (Ok (QRows [row]), social) ∧
  oget "age"%string row = Some (VInt 40).
Proof.
  destruct (traversal_select_exact "n" "d"
    (MkTraversalChain [MkTraversalHop TOut "follows" "people"] (Some "age"%string))
    (FromRecord (MkRecordRef "people" "a")) None None social) as (rows & Hr & _).
  - split; [exact I|]. intros v ->. split; [compute_decide|reflexivity].
  - constructor; [exact follows_ok|constructor].
  - intros h [= <-]. exact social_people.
  - assert ((exec_traversal_select "n" "d"
      (MkTraversalChain [MkTraversalHop TOut "follows" "people"] (Some "age"%string))
      (FromRecord (MkRecordRef "people" "a")) None None social).1 =
      Ok (QRows [[("age", VInt 40); ("id", VString "people:b")]]%string)) as E by (vm_compute; reflexivity).
    rewrite Hr in E. injection E as E. eexists. rewrite Hr, E. split; reflexivity.
Defined.

Lemma graph_components_exact_witness :
  exec_graph_components "n" "d" "follows" social = (Ok (Some (QComponents 1 2 2)), social) ∧
  ∃ edges comps, components_of edges (groups comps) ∧
    (∀ u v, (u, v) ∈ edges ↔ stored_pair follow_store (contents social) u v).
Proof.
  destruct (graph_components_exact "n" "d" "follows" social follow_store_wf social_edges)
    as (edges & comps & Hin & Hc & _); [vm_compute; reflexivity|].
  split; [vm_compute; reflexivity|]. by exists edges, comps.
Defined.

Lemma graph_path_exact_witness :
  ∃ row, exec_graph_path "n" "d" "a" "b" "follows" None social = (Ok (Some (QRows [row])), social) ∧
    oget "length"%string row = Some (VInt 1).
Proof.
  destruct (graph_path_exact "n" "d" "follows" "a" "b" None social follow_store_wf social_edges)
    as (edges & r & _ & _ & Hr & _).
  exists (path_row r). split; [exact Hr|].
  assert ((exec_graph_path "n" "d" "a" "b" "follows" None social).1 =
    Ok (Some (QRows [path_row (Some ["a"; "b"]%string)]))) as E by (vm_compute; reflexivity).
  rewrite Hr in E. injection E as ->. reflexivity.
Defined.
