(* ===== verification/Statements.v ===== *)
(** * Every statement (crates/query/src/executor.rs)

    The projection of [SELECT], [COUNT] with [GROUP BY], PageRank, centrality
    and community statements, and [execute], the dispatch over all of them,
    for an executor without search services.  What a run draws from its
    environment (fresh identifiers, iteration orders of hash maps) is an
    [Oracle].  A handler that panics is [Ok None]. *)

From stdpp Require Import gmap.
From S2P Require Export GraphStatements Ranking Community Display.
Open Scope nat_scope.

(** [DllbStorage::compact]. *)
Class KvCompact (S : Type) := kv_compact : M S bool.

(** ** What a run draws from its environment *)
Record Oracle := MkOracle {
  o_uuid : nat → string;
  (** The order a hash map of affinities is iterated in. *)
  o_affinity_order : nat → string → gmap string f64 → list (string * f64);
  (** The order the communities are listed in. *)
  o_group_order : gmap string (list string) → list (string * list string);
  (** The order a set of nodes is listed in. *)
  o_node_order : gset string → list string;
  (** What [slice::sort_by] does with a comparator that is no total order. *)
  o_sort : Sorter
}.
Record oracle_ok (o : Oracle) : Prop := {
  oo_affinity : ∀ pass node m, o_affinity_order o pass node m ≡ₚ map_to_list m;
  oo_groups : ∀ m, o_group_order o m ≡ₚ map_to_list m;
  oo_nodes : ∀ s, o_node_order o s ≡ₚ elements s;
  oo_sort : sorter_ok (o_sort o)
}.

(** ** SELECT *)
Section select.
Context `{CodeIntel} `{DebugFmt}.

(** One row; a traversal has its own path ([unreachable!] here). *)
Definition project_row (select_fields : SelectFields) (table : string) (doc : Document) : option Fields :=
  row ← match select_fields with
        | SAll => Some (doc_fields doc)
        | SNamed items =>
            Some (fold_left (λ m item, match eval_select_item doc item with
                                       | Some v => oinsert (column_name item) v m
                                       | None => m
                                       end) items [])
        | STraversal _ => None
        end;
  Some (oinsert "id"%string (VString (table ++ ":" ++ rid_id (doc_id doc))) row).

Fixpoint project_rows (select_fields : SelectFields) (table : string) (docs : list Document) : option (list Fields) :=
  match docs with
  | [] => Some []
  | doc :: docs' =>
      row ← project_row select_fields table doc;
      rows ← project_rows select_fields table docs';
      Some (row :: rows)
  end.
End select.

(** ** COUNT ... GROUP BY *)
Definition group_key `{DebugFmt} (v : Value) : string :=
  match v with
  | VNone => String "000" "none"
  | VBool b => "b:" ++ show_bool b
  | VInt n => "i:" ++ show_Z n
  | VFloat f => "f:" ++ show_Z (to_bits f)
  | VString s => "s:" ++ s
  | other => "o:" ++ debug_value other
  end.

Definition group_value (doc : Document) (field : string) : Value :=
  match oget field (doc_fields doc) with
  | Some v => if Values.is_none v then VNone else v
  | None => VNone
  end.

(** [order] and [buckets] after one document. *)
Definition count_doc `{DebugFmt} (field : string) (st : list string * gmap string (Value * nat)) (doc : Document) :
    list string * gmap string (Value * nat) :=
  let '(order, buckets) := st in
  let value := group_value doc field in
  let key := group_key value in
  match buckets !! key with
  | Some (v, n) => (order, <[key := (v, n + 1)]> buckets)
  | None => (order ++ [key], <[key := (value, 1)]> buckets)
  end.

(** The rows, each bucket removed as it is read; [None] is a panic of [unwrap]. *)
Fixpoint group_rows (field : string) (order : list string) (buckets : gmap string (Value * nat)) :
    option (list Fields) :=
  match order with
  | [] => Some []
  | k :: order' =>
      '(value, count) ← buckets !! k;
      rows ← group_rows field order' (delete k buckets);
      Some (oinsert "count"%string (VInt (Z.of_nat count)) (oinsert field value []) :: rows)
  end.

Definition int_field (name : string) (row : Fields) : Z :=
  match oget name row with Some (VInt n) => n | _ => 0%Z end.
Definition group_row_cmp (field : string) (a b : Fields) : comparison :=
  match Z.compare (int_field "count" b) (int_field "count" a) with
  | Eq => order_cmp (oget field a) (oget field b)
  | c => c
  end.

(** ** Rankings and communities *)
Definition algo_str (algo : CommunityAlgorithm) : string :=
  match algo with Louvain => "louvain" | LabelPropagation => "lp" end.
Definition centrality_mode_str (mode : CentralityMode) : string :=
  match mode with Degree => "degree" | InDegree => "indegree" | OutDegree => "outdegree" end.

Definition rank_rows (ranked : list (string * f64)) (limit : option Z) : list Fields :=
  let cap := match limit with Some n => Z.to_nat n | None => length ranked end in
  map (λ ns, oextend [] [("id", VString ns.1); ("score", VFloat ns.2)])%string (take cap ranked).

Definition community_row (group : string * list string) : Fields :=
  oextend [] [("id", VString group.1); ("size", VInt (Z.of_nat (length group.2)));
              ("members", VArray (map VString group.2))]%string.
Definition size_cmp (a b : Fields) : comparison := Z.compare (int_field "size" b) (int_field "size" a).

Definition detect_algorithm (algorithm : CommunityAlgorithm) : Algorithm :=
  match algorithm with Louvain => ALouvain | LabelPropagation => ALabelPropagation end.
Definition centrality_kind (mode : CentralityMode) : CentralityKind :=
  match mode with Degree => CDegree | InDegree => CInDegree | OutDegree => COutDegree end.

(** ** Handlers *)
Section handlers.
Context {S : Type} `{KvStore S} `{FieldsCodec} `{DefCodec} `{CodeIntel} `{DebugFmt} `{KvCompact S}.
Context (ns db : string) (o : Oracle).

Definition exec_select (select_fields : SelectFields) (from : FromTarget) (filter : option WhereClause)
    (order_by : list OrderKey) (limit : option Z) : M S (option QueryResult) :=
  match select_fields with
  | STraversal chain => r ← exec_traversal_select ns db chain from filter limit; mret (Some r)
  | _ =>
      selected ← exec_select_docs ns db (o_sort o) from filter order_by limit;
      mret ('(table, docs) ← selected; rows ← project_rows select_fields table docs; Some (QRows rows))
  end.

Definition exec_count_grouped (coll : Collection) (filter : option WhereClause) (field : string) :
    M S (option QueryResult) :=
  docs ← candidates coll filter;
  let '(order, buckets) := fold_left (count_doc field) (List.filter (keep filter) docs) ([], ∅) in
  mret (rows ← group_rows field order buckets; sorted ← o_sort o Fields (group_row_cmp field) rows; Some (QRows sorted)).

Definition exec_count (table : string) (filter : option WhereClause) (group_by : option string) :
    M S (option QueryResult) :=
  match group_by with
  | Some field => coll ← Collections.load ns db table; exec_count_grouped coll filter field
  | None => r ← exec_count_plain ns db table filter; mret (Some r)
  end.

Definition exec_graph_pagerank (table : string) (damping : f64) (max_iterations : Z) (limit : option Z) :
    M S (option QueryResult) :=
  edges ← EdgeStores.scan_all_outgoing (EdgeStores.new ns db table);
  let opts := MkPageRankOptions damping (Z.to_nat max_iterations) (tolerance PageRankOptions_default) in
  mret (ranked ← pagerank (o_sort o) edges opts; Some (QRows (rank_rows ranked limit))).

Definition exec_graph_centrality (table : string) (mode : CentralityMode) (limit : option Z) :
    M S (option QueryResult) :=
  edges ← EdgeStores.scan_all_edges (EdgeStores.new ns db table);
  mret (ranked ← degree_centrality (o_sort o) (o_node_order o) edges (centrality_kind mode);
        Some (QRows (rank_rows ranked limit))).

Definition exec_graph_communities (table : string) (algorithm : CommunityAlgorithm) (max_iterations : Z)
    (resolution : f64) : M S (option QueryResult) :=
  edges ← EdgeStores.scan_all_outgoing (EdgeStores.new ns db table);
  let opts := MkOptions (detect_algorithm algorithm) (Z.to_nat max_iterations) resolution
                (min_improvement Options_default) in
  mret (result ← detect_weighted (o_affinity_order o) edges opts;
        let groups := map community_row (o_group_order o (comm_groups result)) in
        Some (QCommunities (algo_str algorithm) (sort_by size_cmp groups))).

(** [services] is [None]. *)
Definition require_services {A} : M S A :=
  throw (Core.Query "full-text and vector index features are not enabled on this server").

Definition execute (stmt : Statement) : M S (option QueryResult) :=
  let some (m : M S QueryResult) : M S (option QueryResult) := r ← m; mret (Some r) in
  match stmt with
  | Create table id fields on_conflict => some (exec_create ns db (o_uuid o 0) table id fields on_conflict)
  | Select fields from filter order_by limit => exec_select fields from filter order_by limit
  | Delete table id => some (exec_delete ns db table id)
  | DeleteWhere table filter => some (exec_delete_where ns db table filter)
  | Relate src edge_type dst fields => some (exec_relate ns db src edge_type dst fields)
  | GraphCommunities table algorithm max_iterations resolution =>
      exec_graph_communities table algorithm max_iterations resolution
  | Update target fields filter => some (exec_update ns db target fields filter)
  | Count table filter group_by => exec_count table filter group_by
  | GraphComponents table => exec_graph_components ns db table
  | DefineIndex name table fields unique => some (exec_define_index ns db name table fields unique)
  | RemoveIndex name table => some (exec_remove_index ns db name table)
  | Compact => _ ← kv_compact; mret (Some QOk)
  | DefineFulltextIndex _ _ _ _ | DefineVectorIndex _ _ _ _ _ | Search _ _ _ _ _
  | VectorSearch _ _ _ _ _ | HybridSearch _ _ _ _ _ _ _ _ => require_services
  | GraphPagerank table damping max_iterations limit => exec_graph_pagerank table damping max_iterations limit
  | GraphCentrality table mode limit => exec_graph_centrality table mode limit
  | GraphPath src dst table max_depth => exec_graph_path ns db src dst table (Z.to_nat <$> max_depth)
  | GraphEdges table filter => some (exec_graph_edges ns db (o_uuid o) table filter)
  end.
End handlers.

(** An environment without surprises. *)
Definition plain_oracle : Oracle :=
  MkOracle (λ _, "fresh"%string) some_order (λ m, map_to_list m) elements lenient_sort.
Lemma plain_oracle_ok : oracle_ok plain_oracle.
Proof. split; intros; (reflexivity || apply lenient_sort_ok). Qed.
