(* ===== verification/StatementsSpec.v ===== *)
(** * COUNT ... GROUP BY, rankings and communities over the stored data

    Grouped counts partition the matching documents; the rank and community
    statements apply the graph algorithms to exactly the stored edges. *)

From stdpp Require Import gmap.
From Stdlib Require Import Sorted.
From S2P Require Export Statements GraphStatementsSpec CommunitySpec RankingSpec.
Open Scope nat_scope.

(** ** Grouping *)
Section grouping.
Context `{DebugFmt} (field : string).
Abbreviation key_of d := (group_key (group_value d field)).

Record grouped_docs (docs : list Document) (st : list string * gmap string (Value * nat)) : Prop := {
  gd_nodup : NoDup st.1;
  gd_order : ∀ k, k ∈ st.1 ↔ is_Some (st.2 !! k);
  gd_bucket : ∀ k v n, st.2 !! k = Some (v, n) →
    group_key v = k ∧ n = length (filter (λ d, key_of d = k) docs) ∧ 0 < n;
  gd_all : ∀ d, d ∈ docs → key_of d ∈ st.1
}.

Lemma count_doc_step docs st doc :
  grouped_docs docs st → grouped_docs (docs ++ [doc]) (count_doc field st doc).
Proof.
  destruct st as [order buckets]. intros [Hnd Ho Hb Ha]. simpl in *. unfold count_doc.
  destruct (buckets !! key_of doc) as [[v n]|] eqn:E.
  - split; simpl; [done| | |].
    + intros k. rewrite Ho. destruct (decide (k = key_of doc)) as [->|].
      * rewrite lookup_insert_eq, E. naive_solver.
      * by rewrite lookup_insert_ne.
    + intros k v' n'. rewrite filter_app, length_app, filter_cons, filter_nil.
      destruct (decide (k = key_of doc)) as [->|Hne].
      * rewrite lookup_insert_eq. intros [= <- <-]. destruct (Hb _ _ _ E) as (? & ? & ?).
        rewrite decide_True by done. simpl. split_and!; [done|lia|lia].
      * rewrite lookup_insert_ne by done. intros (? & ? & ?)%Hb. rewrite decide_False by done. simpl.
        split_and!; [done|lia|lia].
    + intros d [Hd| ->%list_elem_of_singleton]%elem_of_app; [auto|]. apply Ho. by rewrite E.
  - assert (key_of doc ∉ order) as Hn by (rewrite Ho, E; by intros [? ?]).
    split; simpl.
    + apply NoDup_app. split_and!; [done| |apply NoDup_singleton]. intros k Hk ->%list_elem_of_singleton. done.
    + intros k. rewrite elem_of_app, list_elem_of_singleton, Ho.
      destruct (decide (k = key_of doc)) as [->|]; [rewrite lookup_insert_eq; naive_solver|].
      rewrite lookup_insert_ne by done. naive_solver.
    + intros k v n. rewrite filter_app, length_app, filter_cons, filter_nil.
      destruct (decide (k = key_of doc)) as [->|Hne].
      * rewrite lookup_insert_eq. intros [= <- <-]. rewrite decide_True by done. simpl.
        assert (filter (λ d, key_of d = key_of doc) docs = []) as ->.
        { destruct (filter _ docs) as [|d l] eqn:Ef; [done|]. exfalso. apply Hn.
          assert (d ∈ d :: l) as Hd by left. rewrite <- Ef, list_elem_of_filter in Hd. destruct Hd as [<- Hd]. auto. }
        by split_and!; [|simpl; lia|lia].
      * rewrite lookup_insert_ne by done. intros (? & ? & ?)%Hb. rewrite decide_False by done. simpl.
        split_and!; [done|lia|lia].
    + intros d [Hd| ->%list_elem_of_singleton]%elem_of_app; apply elem_of_app; [left; auto|right; left].
Qed.

Lemma count_docs_run docs : grouped_docs docs (fold_left (count_doc field) docs ([], ∅)).
Proof.
  induction docs as [|d docs IH] using rev_ind.
  - split; simpl; [constructor|..].
    + intros k. rewrite lookup_empty. split; [by intros ?%not_elem_of_nil|by intros [? ?]].
    + by intros ??? ?%lookup_empty_Some.
    + by intros ? ?%not_elem_of_nil.
  - rewrite fold_left_app. by apply count_doc_step.
Qed.

Definition count_row (g : Value * nat) : Fields :=
  oinsert "count"%string (VInt (Z.of_nat g.2)) (oinsert field g.1 []).

Lemma group_rows_run order buckets :
  NoDup order → (∀ k, k ∈ order → is_Some (buckets !! k)) →
  group_rows field order buckets = Some (map count_row (omap (buckets !!.) order)).
Proof.
  revert buckets. induction order as [|k order IH]; intros buckets Hnd Hs; simpl; [done|].
  apply NoDup_cons in Hnd as [Hn Hnd]. destruct (Hs k) as [[v n] E]; [left|]. rewrite E. simpl.
  rewrite IH; [|done|].
  - simpl. do 3 f_equal. apply list_omap_ext. apply Forall2_same_length_lookup. split; [done|].
    intros i x y Hx Hy. rewrite Hx in Hy. injection Hy as <-. rewrite lookup_delete_ne; [done|].
    intros ->. by apply list_elem_of_lookup_2 in Hx.
  - intros k' Hk'. rewrite lookup_delete_ne by (by intros ->). apply Hs. by right.
Qed.
End grouping.

(** [COUNT ... GROUP BY] partitions the matching documents by the value of
    the field: one row per distinct key (a missing field counts as [NONE]),
    with the number of matching documents that have it, each of them in
    exactly one group - with or without an index, if the matching documents
    fit the index the planner chooses.  The rows are by falling count and then
    by value when that is a total order on them; otherwise the sort may panic. *)
Theorem count_group_exact {S} `{KL : KvLaws S} `{FL : FieldsCodecLaws} `{DefCodec} `{CodeIntel} `{DF : DebugFmt}
    (ns db table field : string) (coll : Collection) (filter : option WhereClause) (o : Oracle) (s : S) :
  Collections.load ns db table s = (Ok coll, s) → coll_wf coll → coll_inv (contents s) coll →
  (∀ clause, filter = Some clause → matching_fit coll (contents s) clause) → oracle_ok o →
  ∃ r groups all, exec_count ns db o table filter (Some field) s = (Ok (QRows <$> r), s) ∧
    match r with
    | Some rows => rows ≡ₚ map (count_row field) groups ∧ (total_on (group_row_cmp field) (map (count_row field) groups) →
        StronglySorted (λ a b, group_row_cmp field a b ≠ Gt) rows)
    | None => ¬ total_on (group_row_cmp field) (map (count_row field) groups)
    end ∧
    all_docs coll (contents s) all ∧
    NoDup (map (λ g : Value * nat, group_key g.1) groups) ∧
    (∀ v n, (v, n) ∈ groups → 0 < n ∧
       n = length (base.filter (λ d, group_key (group_value d field) = group_key v) (List.filter (keep filter) all))) ∧
    ∀ doc, doc ∈ List.filter (keep filter) all →
      ∃ v n, (v, n) ∈ groups ∧ group_key (group_value doc field) = group_key v.
Proof.
  intros Hload Hwf Hinv Hfit Hor.
  destruct (candidates_run coll Hwf s filter Hinv) as (docs & all & Hc & _ & Ha & _ & _ & Hp). specialize (Hp Hfit).
  pose proof (count_docs_run field (List.filter (keep filter) docs)) as Hg.
  destruct (fold_left (count_doc field) (List.filter (keep filter) docs) ([], ∅)) as [order buckets] eqn:Ef.
  destruct Hg as [Hnd Ho Hb Hall]. simpl in *. set (groups := omap (buckets !!.) order).
  assert (∀ k, k ∈ order → is_Some (buckets !! k)) as Hs by (intros; by apply Ho).
  exists (o_sort o Fields (group_row_cmp field) (map (count_row field) groups)), groups, all. split_and!.
  - unfold exec_count. rewrite (SE_bind_ok _ _ s coll s Hload). unfold exec_count_grouped.
    rewrite (SE_bind_ok _ _ s docs s Hc), Ef, group_rows_run by done. done.
  - apply (sorter_cases (group_row_cmp field) (o_sort o)), Hor.
  - done.
  - assert (map (λ g : Value * nat, group_key g.1) groups = order) as ->; [|done].
    unfold groups. clear -Hb Hs. induction order as [|k order IH]; [done|]. simpl.
    destruct (Hs k) as [[v n] E]; [left|]. rewrite E. simpl. f_equal; [by eapply Hb|]. apply IH. intros; apply Hs; by right.
  - intros v n (k & Hk & E)%list_elem_of_omap. destruct (Hb _ _ _ E) as (<- & -> & ?). split; [done|].
    by rewrite Hp.
  - intros doc Hd. rewrite <- Hp in Hd. pose proof (Hall _ Hd) as Hk. destruct (Hs _ Hk) as [[v n] E].
    exists v, n. split; [apply list_elem_of_omap; eauto|]. by destruct (Hb _ _ _ E) as (-> & _).
Qed.

#[local] Instance sample_debug : DebugFmt := {| debug_literals _ := ""%string; debug_value _ := ""%string |}.
Lemma count_group_exact_witness :
  ∃ rows, (exec_count "n" "d" plain_oracle "people" (Some (age_from 35)) (Some "age"%string) indexed_people).1
            = Ok (Some (QRows rows)) ∧ length rows = 1.
Proof.
  destruct (count_group_exact "n" "d" "people" "age" people (Some (age_from 35)) plain_oracle indexed_people
    indexed_people_load people_wf indexed_people_inv) as (r & groups & all & Hr & Hc & _).
  - intros clause [= <-]. apply age_from_matching_fit. by split.
  - apply plain_oracle_ok.
  - rewrite Hr. destruct r as [rows|]; [|revert Hr; vm_compute; discriminate]. exists rows. split; [done|].
    revert Hr. vm_compute. intros [= <-]. reflexivity.
Defined.

(** ** Rankings and communities of the stored edges *)
Definition rank_row (n : string) (score : f64) : Fields :=
  oextend [] [("id", VString n); ("score", VFloat score)]%string.
Definition limited {A} (limit : option Z) (l : list A) : list A :=
  match limit with Some n => take (Z.to_nat n) l | None => l end.

Lemma rank_rows_eq ranked limit :
  rank_rows ranked limit = limited limit (map (λ ns : string * f64, rank_row ns.1 ns.2) ranked).
Proof.
  unfold rank_rows, limited. destruct limit as [n|]; [|by rewrite firstn_all].
  by rewrite <- firstn_map.
Qed.

(** C30.  [GRAPH CENTRALITY] on a consistent edge table ranks exactly the
    endpoints of its stored edges, each once and with its exact degree in the
    chosen direction as score - the number of stored edges, each counted once,
    that leave it, reach it, or both - by falling degree and among equals by
    rising id, cut to the limit, whatever the iteration order of the node set
    (below [2^52] stored entries, where the floating-point counters are
    exact). *)
Theorem graph_centrality_exact {S} `{KL : KvLaws S} `{FL : FieldsCodecLaws}
    (ns db : string) (o : Oracle) (table : string) (mode : CentralityMode) (limit : option Z) (s : S) :
  let st := EdgeStores.new ns db table in
  let kind := centrality_kind mode in
  store_wf st → edge_inv st (contents s) → oracle_ok o → (Z.of_nat (length (contents s)) < 2 ^ 52)%Z →
  ∃ eds vs, edges_listed st (contents s) eds ∧
    let edges := map ends eds in
    exec_graph_centrality ns db o table mode limit s =
      (Ok (Some (QRows (limited limit (map (λ v, rank_row v (f64_of_i64 (degree_of kind edges v))) vs)))), s) ∧
    NoDup vs ∧ (∀ v, v ∈ vs ↔ v ∈ nodes edges) ∧
    StronglySorted (λ a b, (degree_of kind edges b < degree_of kind edges a)%Z ∨
                           degree_of kind edges a = degree_of kind edges b ∧ ltb a b = true) vs.
Proof.
  intros st kind Hst Hinv Ho Hlen. destruct (stored_edges_run st Hst s Hinv) as (eds & Hs & Hle & Hl).
  destruct (degree_centrality_run (o_sort o) (o_node_order o) (map ends eds) kind) as (vs & Hr & Hnd & Hv & Hsort);
    [apply Ho..|rewrite length_map; lia|].
  exists eds, vs. split; [done|]. split_and!; [|done..].
  unfold exec_graph_centrality. fold st. rewrite (SE_bind_ok _ _ s (map ends eds) s Hs). fold kind. rewrite Hr. cbn [mbind option_bind].
  by rewrite rank_rows_eq, map_map.
Qed.

Lemma graph_centrality_exact_witness :
  ∃ eds vs, edges_listed follow_store (contents small_graph) eds ∧
    (exec_graph_centrality "n" "d" plain_oracle "follows" InDegree (Some 2%Z) small_graph).1 =
      Ok (Some (QRows (limited (Some 2%Z) (map (λ v, rank_row v (f64_of_i64 (degree_of CInDegree (map ends eds) v))) vs)))) ∧
    NoDup vs.
Proof.
  destruct (graph_centrality_exact "n" "d" plain_oracle "follows" InDegree (Some 2%Z) small_graph)
    as (eds & vs & Hl & E & Hnd & _).
  - apply follow_store_wf.
  - apply small_graph_inv.
  - apply plain_oracle_ok.
  - vm_compute. reflexivity.
  - exists eds, vs. split; [exact Hl|]. split; [by rewrite E|done].
Defined.

(** C31.  [GRAPH COMMUNITIES] on a consistent edge table succeeds, for either
    algorithm, any parameters, weights and iteration orders of the hash maps:
    it runs the algorithm on exactly the stored edges, each once with its
    weight, and its rows are the groups found, largest first.  They partition
    the endpoints of the edges: each vertex is a member of exactly one row,
    members are sorted and without repetition, and [size] is their number. *)
Theorem graph_communities_exact {S} `{KL : KvLaws S} `{FL : FieldsCodecLaws}
    (ns db : string) (o : Oracle) (table : string) (algorithm : CommunityAlgorithm) (max_iterations : Z)
    (resolution : f64) (s : S) :
  let st := EdgeStores.new ns db table in
  store_wf st → edge_inv st (contents s) → oracle_ok o →
  ∃ eds found rows, edges_listed st (contents s) eds ∧
    let edges := map (λ ed, (e_src ed, e_dst ed, weight_of (e_properties ed))) eds in
    detect_weighted (o_affinity_order o) edges (MkOptions (detect_algorithm algorithm) (Z.to_nat max_iterations) resolution
      (min_improvement Options_default)) = Some found ∧
    exec_graph_communities ns db o table algorithm max_iterations resolution s =
      (Ok (Some (QCommunities (algo_str algorithm) rows)), s) ∧
    partition_of (endpoints edges) (comm_groups found) ∧
    rows ≡ₚ map community_row (map_to_list (comm_groups found)) ∧
    StronglySorted (λ a b, (int_field "size" b ≤ int_field "size" a)%Z) rows.
Proof.
  intros st Hst Hinv Ho. destruct (table_scans_run st Hst s Hinv) as (eds & _ & _ & Hs & Hnd & Hin).
  set (edges := map (λ ed, (e_src ed, e_dst ed, weight_of (e_properties ed))) eds) in *.
  set (opts := MkOptions (detect_algorithm algorithm) (Z.to_nat max_iterations) resolution (min_improvement Options_default)).
  destruct (communities_partition_run (o_affinity_order o) edges opts (oo_affinity _ Ho)) as (c & Hc & Hp).
  eexists eds, c, _. split; [done|]. split; [exact Hc|]. split_and!; [|done| |].
  - unfold exec_graph_communities. fold st. rewrite (SE_bind_ok _ _ s edges s Hs). fold opts. rewrite Hc. done.
  - rewrite sort_by_perm. by rewrite (oo_groups _ Ho).
  - eapply sorted_weaken; [|apply (sort_by_measure size_cmp (λ r, (- int_field "size" r)%Z))]; [simpl; lia|].
    intros a b _ _. unfold size_cmp. by rewrite Z.compare_opp.
Qed.

Lemma graph_communities_exact_witness :
  ∃ found rows, (exec_graph_communities "n" "d" plain_oracle "follows" Louvain 10 f64_one small_graph).1 =
      Ok (Some (QCommunities "louvain" rows)) ∧ rows ≡ₚ map community_row (map_to_list (comm_groups found)).
Proof.
  destruct (graph_communities_exact "n" "d" plain_oracle "follows" Louvain 10 f64_one small_graph)
    as (eds & found & rows & _ & _ & E & _ & Hr & _).
  - apply follow_store_wf.
  - apply small_graph_inv.
  - apply plain_oracle_ok.
  - exists found, rows. split; [by rewrite E|exact Hr].
Defined.
