(* ===== verification/Footprint.v ===== *)
(** * What a statement can change

    A small Hoare logic for the keys an operation may write and the values it
    may return, and the footprint of every statement: the document, index and
    catalog regions of its table, or the edge region of its edge type. *)

From stdpp Require Import gmap.
From S2P Require Export Statements GraphStatementsSpec.
Open Scope nat_scope.

(** ** Footprints *)
Section footprint.
Context {S : Type} `{KL : KvLaws S}.

(** Whatever [m] does, keys outside [R] keep their values, and a result
    satisfies [Q]. *)
Definition footprint {A} (R : bytes → Prop) (m : M S A) (Q : A → Prop) : Prop :=
  ∀ s r s', m s = (r, s') →
    (∀ k, ¬ R k → oget k (contents s') = oget k (contents s)) ∧ (∀ a, r = Ok a → Q a).

Implicit Types (R : bytes → Prop).

Lemma fp_ret {A} R (a : A) (Q : A → Prop) : Q a → footprint R (mret a) Q.
Proof. intros Hq s r s' [= <- <-]. split; [done|]. by intros ? [= <-]. Qed.
Lemma fp_throw {A} R e (Q : A → Prop) : footprint R (throw e) Q.
Proof. intros s r s' [= <- <-]. by split. Qed.
Lemma fp_lift {A} R (x : result A) (Q : A → Prop) : (∀ a, x = Ok a → Q a) → footprint R (lift x) Q.
Proof. intros Hq s r s' [= <- <-]. by split. Qed.
Lemma fp_bind {A B} R (m : M S A) (f : A → M S B) (P : A → Prop) (Q : B → Prop) :
  footprint R m P → (∀ a, P a → footprint R (f a) Q) → footprint R (m ≫= f) Q.
Proof.
  intros Hm Hf s r s' E. unfold mbind, SE_bind in E. destruct (m s) as [[a|e] s1] eqn:Em.
  - destruct (Hm _ _ _ Em) as [H1 H2]. destruct (Hf a (H2 _ eq_refl) _ _ _ E) as [H3 H4].
    split; [|done]. intros k Hk. by rewrite H3, H1.
  - destruct (Hm _ _ _ Em) as [H1 _]. injection E as <- <-. by split.
Qed.
Lemma fp_mono {A} R R' (m : M S A) (P Q : A → Prop) :
  footprint R m P → (∀ k, R k → R' k) → (∀ a, P a → Q a) → footprint R' m Q.
Proof. intros Hm HR HQ s r s' E. destruct (Hm _ _ _ E) as [H1 H2]. split; [eauto|]. eauto. Qed.

(** An operation that never writes. *)
Lemma fp_read {A} R (m : M S A) (x : S → A) : (∀ s, m s = (Ok (x s), s)) → footprint R m (λ _, True).
Proof. intros Hm s r s' E. rewrite Hm in E. injection E as <- <-. by split. Qed.
Lemma fp_effect {A} R (m : M S A) (a : A) (c : OMap bytes bytes → OMap bytes bytes) (Q : A → Prop) :
  (∀ s, effect m s a (c (contents s))) → (∀ x k, ¬ R k → oget k (c x) = oget k x) → Q a → footprint R m Q.
Proof.
  intros Hm Hc Hq s r s' E. destruct (Hm s) as (s1 & E1 & Hs1). rewrite E1 in E. injection E as <- <-.
  split; [|by intros ? [= <-]]. intros k Hk. rewrite Hs1. by apply Hc.
Qed.

Definition keys_in R (l : kvs) : Prop := ∀ kv, kv ∈ l → R kv.1.

Lemma fp_write_batch R puts dels :
  keys_in R puts → (∀ k, k ∈ dels → R k) → footprint R (DllbStorage.write_batch puts dels) (λ _, True).
Proof using KL.
  intros Hp Hd. apply (fp_effect _ _ tt (λ c, oextend (odelete_all c dels) puts)); [intros s; apply write_batch_law|..|done]. intros x k Hk. simpl.
  rewrite oget_extend_notin, oget_delete_all_notin; [done|..].
  - intros Hin. by apply Hk, Hd.
  - intros (kv & -> & Hin)%list_elem_of_fmap. by apply Hk, Hp.
Qed.
Lemma fp_put_batch R puts : keys_in R puts → footprint R (DllbStorage.put_batch puts) (λ _, True).
Proof using KL.
  intros Hp. apply (fp_effect _ _ tt (λ c, oextend c puts)); [intros s; apply put_batch_law|..|done]. intros x k Hk. simpl.
  rewrite oget_extend_notin; [done|]. intros (kv & -> & Hin)%list_elem_of_fmap. by apply Hk, Hp.
Qed.
Lemma fp_delete_batch R dels : (∀ k, k ∈ dels → R k) → footprint R (DllbStorage.delete_batch dels) (λ _, True).
Proof using KL.
  intros Hd. apply (fp_effect _ _ tt (λ c, odelete_all c dels)); [intros s; apply delete_batch_law|..|done]. intros x k Hk. simpl.
  rewrite oget_delete_all_notin; [done|]. intros Hin. by apply Hk, Hd.
Qed.
Lemma fp_get R k : footprint R (DllbStorage.get k) (λ _, True).
Proof using KL. apply (fp_read _ _ (λ s, oget k (contents s))); intros s; apply get_law. Qed.
Lemma fp_contains R k : footprint R (DllbStorage.contains k) (λ _, True).
Proof using KL. apply (fp_read _ _ (λ s, ocontains k (contents s))); intros s; apply contains_law. Qed.
Lemma fp_scan R lo hi : footprint R (DllbStorage.scan lo hi) (λ _, True).
Proof using KL. apply (fp_read _ _ (λ s, orange lo hi (contents s))); intros s; apply scan_law. Qed.
Lemma fp_prefix_scan R p : footprint R (DllbStorage.prefix_scan p) (λ _, True).
Proof using KL. apply (fp_read _ _ (λ s, orange p (prefix_end p) (contents s))); intros s; apply prefix_scan_law. Qed.
Lemma fp_count_prefix R p : footprint R (DllbStorage.count_prefix p) (λ _, True).
Proof using KL. apply (fp_read _ _ (λ s, length (orange p (prefix_end p) (contents s)))); intros s; apply count_prefix_law. Qed.
Lemma fp_multi_get R ks : footprint R (DllbStorage.multi_get ks) (λ _, True).
Proof using KL. apply (fp_read _ _ (λ s, map (λ k, oget k (contents s)) ks)); intros s; apply multi_get_law. Qed.
Lemma fp_scan_prefix_keys R p :
  footprint R (DllbStorage.scan_prefix_keys p) (λ ks, prefix_end p ≠ [] → ∀ k, k ∈ ks → p `prefix_of` k).
Proof using KL.
  intros s r s' E. unfold DllbStorage.scan_prefix_keys in E. rewrite scan_prefix_keys_law in E. injection E as <- <-.
  split; [done|]. intros ? [= <-] Hp k (kv & -> & (_ & Hl & Hu)%orange_elem)%list_elem_of_fmap.
  apply prefix_range; [done|]. by rewrite Hl, Hu.
Qed.

Lemma fp_for_each {A} R (f : A → M S unit) l :
  (∀ x, footprint R (f x) (λ _, True)) → footprint R (for_each f l) (λ _, True).
Proof.
  intros Hf. induction l as [|x l IH]; simpl; [by apply fp_ret|].
  eapply fp_bind; [apply Hf|]. intros _ _. apply IH.
Qed.
End footprint.

Create HintDb footprint discriminated.
#[export] Hint Constants Opaque : footprint.
#[export] Hint Resolve fp_ret fp_throw fp_get fp_contains fp_scan fp_prefix_scan fp_count_prefix fp_multi_get : footprint.

(** Steps through the reads of an operation. *)
Ltac fp_step :=
  match goal with
  | |- footprint _ (mbind _ (lift _)) _ => eapply fp_bind; [apply fp_lift; intros ? ?; exact I|intros ? _]
  | |- footprint _ (lift _) _ => apply fp_lift; by intros
  | |- footprint _ (mret _) _ => by apply fp_ret
  | |- footprint _ (throw _) _ => apply fp_throw
  | |- footprint _ (mbind _ _) _ => eapply fp_bind; [solve [eauto 2 with footprint nocore]|intros ? _]
  | |- footprint _ (match ?x with _ => _ end) _ => destruct x
  | |- footprint _ _ _ => solve [eauto 2 with footprint nocore]
  end.

(** ** Regions *)
Definition doc_region (ns db table : string) (k : bytes) : Prop :=
  table_prefix ns db table tag.DOCUMENT `prefix_of` k ∨
  table_prefix ns db table tag.INDEX `prefix_of` k ∨
  table_prefix ns db table tag.METADATA `prefix_of` k.
Definition edge_region (ns db table : string) (k : bytes) : Prop :=
  table_prefix ns db table tag.GRAPH_EDGE `prefix_of` k.

Lemma doc_region_doc ns db t id : doc_region ns db t (document_key ns db t id).
Proof. left. rewrite document_key_shape, table_prefix_shape. apply prefix_app, prefix_cons, prefix_nil. Qed.
Lemma doc_region_catalog ns db t n : doc_region ns db t (index_catalog_key ns db t n).
Proof. right; right. rewrite index_catalog_key_shape, table_prefix_shape. apply prefix_app, prefix_cons, prefix_nil. Qed.
Lemma doc_region_index ns db t n k : index_prefix ns db t n `prefix_of` k → doc_region ns db t k.
Proof.
  intros Hp. right; left. etrans; [|done]. rewrite index_prefix_shape, table_prefix_shape.
  apply prefix_app, prefix_cons, prefix_nil.
Qed.
Lemma edge_region_out ns db t src ty dst : edge_region ns db t (graph_outgoing_key ns db t src ty dst).
Proof. unfold edge_region. rewrite graph_outgoing_key_shape, table_prefix_shape. apply prefix_app, prefix_cons, prefix_nil. Qed.
Lemma edge_region_in ns db t dst ty src : edge_region ns db t (graph_incoming_key ns db t dst ty src).
Proof. unfold edge_region. rewrite graph_incoming_key_shape, table_prefix_shape. apply prefix_app, prefix_cons, prefix_nil. Qed.

Lemma entries_in_region doc ns db t indexes es :
  build_index_entries doc ns db t indexes = Ok es → keys_in (doc_region ns db t) es.
Proof.
  revert es. induction indexes as [|idx indexes IH]; intros es; cbn [build_index_entries].
  { intros [= <-] kv ?%not_elem_of_nil. done. }
  destruct (negb _); [apply IH|]. case_bool_decide; [done|].
  destruct (collect_index_values doc idx) as [vs|]; [|apply IH].
  destruct (encode_composite_key_part vs) as [p|]; [|done]. simpl.
  destruct (build_index_entries doc ns db t indexes) as [es'|]; [|done]. intros [= <-].
  intros kv [->|Hkv]%elem_of_cons; [|by eapply IH]. simpl. rewrite index_entry_key_shape.
  eapply doc_region_index. apply prefix_app_r. done.
Qed.

(** ** Handlers *)
Section handlers.
Context {S : Type} `{KL : KvLaws S} `{FieldsCodec} `{DefCodec} `{CodeIntel} `{DebugFmt} `{KvCompact S} (ns db : string).
Implicit Types (R : bytes → Prop).

Lemma fp_load R t : footprint R (load_index_definitions ns db t) (λ _ : list IndexDefinition, True).
Proof using KL. unfold load_index_definitions. repeat fp_step. Qed.
Hint Resolve fp_load : footprint.

(** A handle on [table]. *)
Definition on_table (table : string) (coll : Collection) : Prop :=
  co_ns coll = ns ∧ co_db coll = db ∧ co_table coll = table.

Lemma fp_coll_load R t : footprint R (Collections.load ns db t : M S Collection) (on_table t).
Proof using KL. unfold Collections.load. fp_step. by apply fp_ret. Qed.

Lemma fp_coll_get R coll id : footprint R (Collections.get coll id : M S (option Document)) (λ _, True).
Proof using KL. unfold Collections.get. repeat fp_step. Qed.
Lemma fp_scan_all R coll : footprint R (Collections.scan_all coll : M S (list Document)) (λ _, True).
Proof using KL. unfold Collections.scan_all. repeat fp_step. Qed.
Lemma fp_get_many R coll ids : footprint R (Collections.get_many coll ids : M S (list Document)) (λ _, True).
Proof using KL. unfold Collections.get_many. repeat fp_step. Qed.
Lemma fp_find_ids R ns' db' t n eq lower upper fc : footprint R (find_ids ns' db' t n eq lower upper fc : M S (list string)) (λ _, True).
Proof using KL. unfold find_ids. repeat fp_step. Qed.
Hint Resolve fp_find_ids : footprint.
Lemma fp_run_plan R coll plan : footprint R (run_index_plan coll plan : M S (list string)) (λ _, True).
Proof using KL. unfold run_index_plan, Collections.find_ids_for_scan, find_ids. repeat fp_step. Qed.
Hint Resolve fp_coll_get fp_scan_all fp_get_many fp_run_plan : footprint.

Lemma fp_candidates R coll filter : footprint R (candidates coll filter : M S (list Document)) (λ _, True).
Proof using KL. unfold candidates. repeat fp_step. Qed.

Hint Resolve fp_candidates : footprint.

(** *** Collections *)
Section collection.
Context (coll : Collection).
Abbreviation region := (doc_region (co_ns coll) (co_db coll) (co_table coll)).

Lemma fp_check_unique R doc id : footprint R (Collections.check_unique_all coll doc id : M S unit) (λ _, True).
Proof using KL.
  unfold Collections.check_unique_all. apply fp_for_each. intros idx.
  unfold check_unique_constraint. repeat fp_step.
Qed.
Hint Resolve fp_check_unique : footprint.

Lemma doc_and_entries id b doc es :
  Collections.entries coll doc = Ok es → keys_in region ((Collections.doc_key coll id, b) :: es).
Proof.
  intros He kv [->|Hkv]%elem_of_cons; [apply doc_region_doc|by eapply entries_in_region].
Qed.
Lemma doc_and_entry_keys id doc es :
  Collections.entries coll doc = Ok es → ∀ k, k ∈ Collections.doc_key coll id :: map fst es → region k.
Proof.
  intros He k [->|(kv & -> & Hkv)%list_elem_of_fmap]%elem_of_cons; [apply doc_region_doc|by eapply entries_in_region].
Qed.

Lemma fp_create_inner id doc : footprint region (Collections.create_inner coll id doc : M S RecordId) (λ _, True).
Proof using KL.
  unfold Collections.create_inner. do 2 fp_step. fp_step; [fp_step|]. do 2 fp_step.
  eapply fp_bind; [apply fp_lift; intros es He; exact He|]. intros es He; cbv beta in He.
  eapply fp_bind; [apply fp_put_batch; by eapply doc_and_entries|]. intros _ _. fp_step.
Qed.

Lemma fp_replace id old new :
  footprint region (Collections.replace_with_indexes coll id old new : M S unit) (λ _, True).
Proof using KL.
  unfold Collections.replace_with_indexes. fp_step.
  eapply fp_bind; [apply fp_lift; intros es He; exact He|]. intros es He; cbv beta in He.
  eapply fp_bind; [apply fp_lift; intros es' He'; exact He'|]. intros es' He'; cbv beta in He'.
  apply fp_write_batch; [by eapply doc_and_entries|].
  intros k Hk. eapply doc_and_entry_keys; [exact He|]. by right.
  Unshelve. exact id.
Qed.
Lemma fp_merge id fields : footprint region (Collections.merge coll id fields : M S unit) (λ _, True).
Proof using KL. unfold Collections.merge. do 3 fp_step. apply fp_replace. Qed.
Lemma fp_upsert id doc fields : footprint region (Collections.upsert coll id doc fields : M S (RecordId * bool)) (λ _, True).
Proof using KL.
  unfold Collections.upsert. fp_step. fp_step; (eapply fp_bind; [apply fp_merge || apply fp_create_inner|]; intros ? _; fp_step).
Qed.
Lemma fp_delete id : footprint region (Collections.delete coll id : M S bool) (λ _, True).
Proof using KL.
  unfold Collections.delete. fp_step. fp_step; [|fp_step].
  eapply fp_bind; [apply fp_lift; intros es He; exact He|]. intros es He; cbv beta in He.
  eapply fp_bind; [apply fp_delete_batch; by eapply doc_and_entry_keys|]. intros _ _. fp_step.
Qed.
Lemma fp_upsert_to_ops R id doc fields :
  footprint R (Collections.upsert_to_ops coll id doc fields : M S (RecordId * bool * kvs * list bytes))
    (λ r, keys_in region r.1.2 ∧ ∀ k, k ∈ r.2 → region k).
Proof using KL.
  unfold Collections.upsert_to_ops. fp_step. fp_step.
  - do 4 fp_step.
    eapply fp_bind; [apply fp_lift; intros es He; exact He|]. intros es He; cbv beta in He.
    eapply fp_bind; [apply fp_lift; intros es' He'; exact He'|]. intros es' He'; cbv beta in He'.
    apply fp_ret. simpl. split; [by eapply doc_and_entries|].
    intros k Hk. eapply doc_and_entry_keys; [exact He|]. by right.
  - eapply fp_bind; [apply fp_lift; intros r Hr; exact Hr|]. intros [rid puts] Hr. cbv beta in Hr. apply fp_ret. simpl.
    split; [|by intros ? ?%not_elem_of_nil]. unfold Collections.create_to_ops in Hr.
    destruct (Collections.validate _ _); [|done]. simpl in Hr. destruct (serialize _); [|done]. simpl in Hr.
    destruct (Collections.entries _ _) eqn:He; [|done]. simpl in Hr. injection Hr as <- <-. by eapply doc_and_entries.
  Unshelve. exact id.
Qed.

Lemma fp_update_rows filter fields docs n :
  footprint region (update_rows coll filter fields docs n : M S nat) (λ _, True).
Proof using KL.
  revert n. induction docs as [|doc docs IH]; intros n; simpl; [fp_step|].
  destruct (keep filter doc); [|apply IH]. eapply fp_bind; [apply fp_merge|]. intros _ _. apply IH.
Qed.
Lemma fp_delete_rows filter docs n :
  footprint region (delete_rows coll filter docs n : M S nat) (λ _, True).
Proof using KL.
  revert n. induction docs as [|doc docs IH]; intros n; simpl; [fp_step|].
  destruct (keep filter doc); [|apply IH]. eapply fp_bind; [apply fp_delete|]. intros b _. apply IH.
Qed.
End collection.

(** *** Statements *)
Lemma fp_on_table {A} table coll (m : M S A) Q :
  on_table table coll → footprint (doc_region (co_ns coll) (co_db coll) (co_table coll)) m Q →
  footprint (doc_region ns db table) m Q.
Proof. by intros (-> & -> & ->). Qed.

Lemma fp_exec_create uuid table id fields conflict :
  footprint (doc_region ns db table) (exec_create ns db uuid table id fields conflict : M S QueryResult) (λ _, True).
Proof using KL.
  unfold exec_create. eapply fp_bind; [apply fp_coll_load|]. intros coll Hc. cbv zeta.
  destruct conflict as [c|].
  - fp_step. eapply fp_bind; [eapply fp_on_table; [done|apply fp_upsert]|]. intros [? ?] _. fp_step.
  - eapply fp_bind; [|intros ? _; fp_step]. destruct id; (eapply fp_on_table; [done|apply fp_create_inner]).
Qed.

Lemma fp_exec_update target fields filter :
  let table := match target with FromTable t => t | FromRecord r => rr_table r end in
  footprint (doc_region ns db table) (exec_update ns db target fields filter : M S QueryResult) (λ _, True).
Proof using KL.
  unfold exec_update. destruct target as [t|r]; (eapply fp_bind; [apply fp_coll_load|]); intros coll Hc; fp_step.
  - eapply fp_bind; [eapply fp_on_table; [done|apply fp_update_rows]|]. intros ? _. fp_step.
  - fp_step; [|fp_step]. eapply fp_bind; [eapply fp_on_table; [done|apply fp_merge]|]. intros ? _. fp_step.
Qed.

Lemma fp_exec_delete table id :
  footprint (doc_region ns db table) (exec_delete ns db table id : M S QueryResult) (λ _, True).
Proof using KL.
  unfold exec_delete. eapply fp_bind; [apply fp_coll_load|]. intros coll Hc.
  eapply fp_bind; [eapply fp_on_table; [done|apply fp_delete]|]. intros ? _. fp_step.
Qed.
Lemma fp_exec_delete_where table filter :
  footprint (doc_region ns db table) (exec_delete_where ns db table filter : M S QueryResult) (λ _, True).
Proof using KL.
  unfold exec_delete_where. eapply fp_bind; [apply fp_coll_load|]. intros coll Hc. fp_step.
  eapply fp_bind; [eapply fp_on_table; [done|apply fp_delete_rows]|]. intros ? _. fp_step.
Qed.

Lemma backfill_in_region name table def docs seen es :
  backfill ns db name table def docs seen = Ok es → keys_in (doc_region ns db table) es.
Proof.
  revert seen es. induction docs as [|doc docs IH]; intros seen es; cbn [backfill].
  { intros [= <-] kv ?%not_elem_of_nil. done. }
  intros (seen' & _ & (es1 & E1 & (es2 & E2 & [= <-])%bind_Ok_inv)%bind_Ok_inv)%bind_Ok_inv.
  intros kv [Hkv|Hkv]%elem_of_app; [by eapply entries_in_region|by eapply IH].
Qed.
Lemma fp_exec_define_index name table fields unique :
  footprint (doc_region ns db table) (exec_define_index ns db name table fields unique : M S QueryResult) (λ _, True).
Proof using KL.
  unfold exec_define_index. fp_step; [fp_step|]. cbv zeta. fp_step.
  eapply fp_bind; [apply fp_lift; intros es He; exact He|]. intros es He; cbv beta in He.
  eapply fp_bind; [apply fp_lift; intros r Hr; exact Hr|]. intros [k b] Hr; cbv beta in Hr.
  eapply fp_bind; [apply fp_write_batch|]; [|by intros ? ?%not_elem_of_nil|intros _ _; fp_step].
  unfold index_definition_kv in Hr. destruct (ser_err _); [|done]. injection Hr as <- <-.
  intros kv [->|Hkv]%elem_of_cons; [apply doc_region_catalog|by eapply backfill_in_region].
Qed.
Lemma fp_exec_remove_index name table :
  footprint (doc_region ns db table) (exec_remove_index ns db name table : M S QueryResult) (λ _, True).
Proof using KL.
  unfold exec_remove_index. fp_step. cbv zeta. eapply fp_bind; [apply fp_scan_prefix_keys|]. intros ks Hks.
  eapply fp_bind; [apply fp_write_batch|]; [by intros ? ?%not_elem_of_nil| |intros _ _; fp_step].
  intros k [Hk| ->%list_elem_of_singleton]%elem_of_app; [|apply doc_region_catalog].
  eapply doc_region_index, Hks; [|done]. pose proof (index_base_end ns db table name []) as Hb.
  by rewrite app_nil_r in Hb.
Qed.
Lemma fp_exec_relate src ty dst fields :
  footprint (edge_region ns db ty) (exec_relate ns db src ty dst fields : M S QueryResult) (λ _, True).
Proof using KL.
  unfold exec_relate, EdgeStores.relate. eapply fp_bind; [|intros ? _; fp_step].
  fp_step. apply fp_put_batch.
  intros kv [->|[->|?%not_elem_of_nil]%elem_of_cons]%elem_of_cons; [apply edge_region_out|apply edge_region_in|done].
Qed.

Lemma fp_scan_keys R p : footprint R (DllbStorage.scan_prefix_keys p : M S (list bytes)) (λ _, True).
Proof using KL. eapply fp_mono; [apply fp_scan_prefix_keys|done|done]. Qed.
Hint Resolve fp_scan_keys : footprint.
Lemma fp_edge_scans R st :
  footprint R (EdgeStores.scan_all_outgoing st : M S _) (λ _, True) ∧
  footprint R (EdgeStores.scan_all_edges st : M S _) (λ _, True) ∧
  footprint R (EdgeStores.scan_all_outgoing_edges st : M S _) (λ _, True).
Proof using KL.
  unfold EdgeStores.scan_all_outgoing, EdgeStores.scan_all_edges, EdgeStores.scan_all_outgoing_edges.
  split_and!; repeat fp_step.
Qed.
Lemma fp_some {A B} R (m : M S A) (f : A → B) : footprint R m (λ _, True) → footprint R (r ← m; mret (f r)) (λ _, True).
Proof. intros Hm. eapply fp_bind; [exact Hm|]. intros ? _. by apply fp_ret. Qed.

Lemma fp_hop_loop R hop ids acc : footprint R (hop_loop ns db hop ids acc : M S _) (λ _, True).
Proof using KL.
  revert acc. induction ids as [|id ids IH]; intros acc; simpl; [by apply fp_ret|].
  eapply fp_bind with (P := λ _, True); [|intros ? _; apply IH]. unfold hop_neighbors. destruct (th_direction hop);
    unfold Traversals.outgoing_neighbors_typed, Traversals.incoming_neighbors_typed, Traversals.scan_neighbors;
    repeat fp_step.
Qed.
Lemma fp_follow_hops R hops ids : footprint R (follow_hops ns db hops ids : M S _) (λ _, True).
Proof using KL.
  revert ids. induction hops as [|hop hops IH]; intros ids; simpl; [by apply fp_ret|].
  eapply fp_bind; [apply fp_hop_loop|]. intros ? _. apply IH.
Qed.
Hint Resolve fp_follow_hops : footprint.
Lemma fp_traversal R chain from filter limit :
  footprint R (exec_traversal_select ns db chain from filter limit : M S QueryResult) (λ _, True).
Proof using KL.
  unfold exec_traversal_select, source_ids. eapply fp_bind with (P := λ _, True).
  - destruct from; [unfold Collections.scan_ids|]; repeat fp_step.
  - intros start _. repeat fp_step.
Qed.
Lemma fp_select_docs R sort from filter order_by limit :
  footprint R (exec_select_docs ns db sort from filter order_by limit : M S _) (λ _, True).
Proof using KL.
  unfold exec_select_docs. eapply fp_bind with (P := λ _, True).
  - destruct from; [eapply fp_bind; [apply fp_coll_load|]; intros coll _|]; cbv zeta; repeat fp_step.
  - intros [table docs] _. repeat fp_step.
Qed.
Lemma fp_exec_select R o fields from filter order_by limit :
  footprint R (exec_select ns db o fields from filter order_by limit : M S _) (λ _, True).
Proof using KL.
  assert (∀ sf, footprint R (selected ← exec_select_docs ns db (o_sort o) from filter order_by limit;
    mret ('(table, docs) ← selected; rows ← project_rows sf table docs; Some (QRows rows))) (λ _, True)) as Hd.
  { intros sf. eapply fp_bind; [apply fp_select_docs|]. intros selected _. by apply fp_ret. }
  unfold exec_select. destruct fields; [apply Hd..|]. apply fp_some, fp_traversal.
Qed.
Lemma fp_exec_count R o table filter group_by :
  footprint R (exec_count ns db o table filter group_by : M S _) (λ _, True).
Proof using KL.
  unfold exec_count. destruct group_by as [field|].
  - eapply fp_bind; [apply fp_coll_load|]. intros coll _. unfold exec_count_grouped. fp_step.
    destruct (fold_left _ _ _). by apply fp_ret.
  - apply fp_some. unfold exec_count_plain. eapply fp_bind; [apply fp_coll_load|]. intros coll _.
    eapply fp_bind with (P := λ _, True); [|intros ? _; by apply fp_ret].
    unfold Collections.count. repeat fp_step.
Qed.

(** The keys a statement may write. *)
Definition stmt_region (stmt : Statement) : bytes → Prop :=
  match stmt with
  | Ast.Create table _ _ _ | Ast.Delete table _ | DeleteWhere table _
  | DefineIndex _ table _ _ | RemoveIndex _ table => doc_region ns db table
  | Ast.Update (FromTable table) _ _ => doc_region ns db table
  | Ast.Update (FromRecord r) _ _ => doc_region ns db (rr_table r)
  | Relate _ edge_type _ _ => edge_region ns db edge_type
  | _ => λ _, False
  end.

(** Compaction leaves the contents alone. *)
Definition compact_law : Prop := ∀ s : S, contents (kv_compact s).2 = contents s.

Lemma execute_footprint o stmt :
  compact_law → footprint (stmt_region stmt) (execute ns db o stmt) (λ _, True).
Proof using KL.
  intros Hcompact. destruct stmt; cbn [execute stmt_region];
    try (by apply fp_throw).
  - apply fp_some, fp_exec_create.
  - apply fp_exec_select.
  - apply fp_some, fp_exec_delete.
  - apply fp_some, fp_exec_delete_where.
  - apply fp_some, fp_exec_relate.
  - apply fp_some, fp_edge_scans.
  - destruct target; apply fp_some; apply (fp_exec_update (FromTable _)) || apply (fp_exec_update (FromRecord _)).
  - apply fp_exec_count.
  - apply fp_some, fp_edge_scans.
  - apply fp_some, fp_exec_define_index.
  - apply fp_some, fp_exec_remove_index.
  - eapply fp_bind with (P := λ _, True); [|intros ? _; by apply fp_ret].
    intros s r s' E. split; [|done]. intros k _. pose proof (Hcompact s) as Hc. rewrite E in Hc. simpl in Hc. by rewrite Hc.
  - apply fp_some, fp_edge_scans.
  - apply fp_some, fp_edge_scans.
  - apply fp_some, fp_edge_scans.
  - apply fp_some, fp_some, fp_edge_scans.
Qed.
End handlers.
