(* ===== verification/Session.v ===== *)
(** * Running query texts (crates/query/src/executor.rs: [run], [execute_batch])

    Parsing, the cache read-through, execution, and the steps after it: a
    successful [RELATE] bumps the version of its edge table, a cacheable
    result is stored under the version read after the computation.  The state
    is the store with the shared cache and version counters.  [None] is a
    panic: an overflow of the cache's byte counters, or a handler's. *)

From stdpp Require Import gmap.
From S2P Require Export Statements Cache Format Parser.
Local Open Scope Z_scope.

Record Session (S L : Type) := MkSession {
  se_store : S;
  se_versions : WriteVersions;
  se_cache : ComputeCache L
}.
#[global] Arguments MkSession {_ _} _ _ _.
#[global] Arguments se_store {_ _} _.
#[global] Arguments se_versions {_ _} _.
#[global] Arguments se_cache {_ _} _.

(** The table and kind of the cacheable statements, as both [match]es of
    [try_cache_hit] and [post_execute] build them. *)
Definition cache_kind_of (stmt : Statement) : option (string * CacheKind) :=
  match stmt with
  | GraphCommunities table algorithm max_iterations resolution =>
      Some (table, kind_communities (algo_str algorithm) max_iterations resolution)
  | GraphComponents table => Some (table, KComponents)
  | GraphPagerank table damping max_iterations limit => Some (table, kind_pagerank damping max_iterations limit)
  | GraphCentrality table mode limit => Some (table, kind_centrality (centrality_mode_str mode) limit)
  | _ => None
  end.

(** The result has the shape [post_execute] stores. *)
Definition storable (stmt : Statement) (result : QueryResult) : bool :=
  match stmt, result with
  | GraphCommunities _ _ _ _, QCommunities _ _ => true
  | GraphComponents _, QComponents _ _ _ => true
  | GraphPagerank _ _ _ _, QRows _ => true
  | GraphCentrality _ _ _, QRows _ => true
  | _, _ => false
  end.

Section session.
Context {S L : Type} `{KvStore S} `{FieldsCodec} `{DefCodec} `{CodeIntel} `{DebugFmt} `{KvCompact S}.
Context `{JsonRows} `{!Lru L CacheKey CacheEntry} (ns db : string).

Definition try_cache_hit (stmt : Statement) (outcome : OutcomeFormat) (versions : WriteVersions)
    (cache : ComputeCache L) : option string * ComputeCache L :=
  match cache_kind_of stmt with
  | Some (table, kind) =>
      cache_get cache (MkCacheKey ns db table kind outcome) (Versions.current versions ns db table)
  | None => (None, cache)
  end.

Definition post_execute (stmt : Statement) (result : QueryResult) (outcome : OutcomeFormat)
    (versions : WriteVersions) (cache : ComputeCache L) : option (WriteVersions * ComputeCache L) :=
  match stmt, result with
  | Relate _ edge_type _ _, QOk => Some (Versions.bump versions ns db edge_type, cache)
  | _, _ =>
      match cache_kind_of stmt with
      | Some (table, kind) =>
          if storable stmt result then
            cache ← cache_insert cache (MkCacheKey ns db table kind outcome) (format_result result outcome)
                      (Versions.current versions ns db table);
            Some (versions, cache)
          else Some (versions, cache)
      | None => Some (versions, cache)
      end
  end.

(** [run] after parsing. *)
Definition run_statement (o : Oracle) (stmt : Statement) (outcome : OutcomeFormat) (se : Session S L) :
    option (result (QueryResult * OutcomeFormat) * Session S L) :=
  match try_cache_hit stmt outcome (se_versions se) (se_cache se) with
  | (Some payload, cache) =>
      Some (Ok (QCachedResponse payload, outcome), MkSession (se_store se) (se_versions se) cache)
  | (None, cache) =>
      match execute ns db o stmt (se_store se) with
      | (Err e, s') => Some (Err e, MkSession s' (se_versions se) cache)
      | (Ok None, _) => None
      | (Ok (Some r), s') =>
          '(versions, cache) ← post_execute stmt r outcome (se_versions se) cache;
          Some (Ok (r, outcome), MkSession s' versions cache)
      end
  end.

Definition run (o : Oracle) (query : string) (se : Session S L) :
    option (result (QueryResult * OutcomeFormat) * Session S L) :=
  q ← parse query;
  match q with
  | Err e => Some (Err e, se)
  | Ok q => run_statement o (q_statement q) (q_outcome q) se
  end.

(** [execute_batch] with its last step, the bumps of the edge types touched. *)
Definition bump_relates (stmts : list Statement) (versions : WriteVersions) : WriteVersions :=
  fold_left (λ v stmt, match stmt with
                       | Relate _ edge_type _ _ => Versions.bump v ns db edge_type
                       | _ => v
                       end) stmts versions.
Definition run_batch (stmts : list (string * Statement)) (se : Session S L) :
    result QueryResult * Session S L :=
  match execute_batch ns db stmts (se_store se) with
  | (Err e, s') => (Err e, MkSession s' (se_versions se) (se_cache se))
  | (Ok r, s') => (Ok r, MkSession s' (bump_relates (map snd stmts) (se_versions se)) (se_cache se))
  end.
End session.
