(* ===== verification/SessionSpec.v ===== *)
(** * The cache is transparent for clients one after the other

    When statements and batches run one at a time, a payload served from the
    cache is the text of a result the statement has on the store as it is now,
    whatever was written in between.  When they interleave, it need not be. *)

From stdpp Require Import gmap.
From S2P Require Export Session CacheSpec Footprint.
Local Open Scope Z_scope.

(** ** The cache under insertion *)
Section incl.
Context {L : Type} `{!Lru L CacheKey CacheEntry, !LruView L CacheKey CacheEntry, LL : !LruLaws L CacheKey CacheEntry}.
Abbreviation items c := (lru_items (cc_lru c)).

Lemma removelast_elem {A} (x : A) l : x ∈ removelast l → x ∈ l.
Proof. rewrite removelast_take. intros (i & Hi & _)%elem_of_take. by eapply list_elem_of_lookup_2. Qed.

Lemma evict_incl fuel eb (c c' : ComputeCache L) : evict fuel eb c = Some c' → ∀ kv, kv ∈ items c' → kv ∈ items c.
Proof using LL.
  revert c. induction fuel as [|fuel IH]; intros c; cbn [evict]; destruct (lru_is_empty (cc_lru c));
    try (by intros [= <-]); destruct (exceeded eb c) as [[]|]; simpl; try done; try (by intros [= <-]).
  destruct (pop_lru_items (cc_lru c)) as [_ Hp]. destruct (lru_pop_lru (cc_lru c)) as [[[k e]|] lru]; simpl in *.
  - intros E kv Hkv. specialize (IH _ E kv Hkv). simpl in IH. rewrite Hp in IH. by apply removelast_elem.
  - intros [= <-] kv Hkv. simpl in Hkv. rewrite Hp in Hkv. by apply removelast_elem.
Qed.

Lemma cache_insert_incl (c c' : ComputeCache L) key payload version :
  cache_insert c key payload version = Some c' →
  ∀ k e, (k, e) ∈ items c' → (k = key ∧ ce_payload e = payload ∧ ce_version e = version) ∨ (k, e) ∈ items c.
Proof using LL.
  unfold cache_insert. destruct (checked_usize _) as [eb|]; [|done]. simpl.
  destruct (pop_items key (cc_lru c)) as [_ Hp]. destruct (lru_pop key (cc_lru c)) as [old lru]. simpl in Hp.
  destruct (evict _ _ _) as [c1|] eqn:E1; [|done]. simpl. destruct (checked_usize _) as [cur|]; [|done]. simpl.
  pose proof (put_items key (MkCacheEntry payload version eb) (cc_lru c1)) as Hput.
  destruct (lru_put _ _ _) as [o lru2]. simpl in Hput. intros [= <-] k e. simpl. rewrite Hput.
  assert (∀ kv, kv ∈ items c1 → kv ∈ items c) as Hin.
  { intros kv Hkv. apply (evict_incl _ _ _ _ E1) in Hkv. simpl in Hkv. rewrite Hp in Hkv. destruct kv.
    by apply elem_of_aremove in Hkv as [_ ?]. }
  intros [[= -> ->]|Hkv]%elem_of_cons; [by left|]. right. apply Hin.
  destruct (alookup key (items c1)).
  - by apply elem_of_aremove in Hkv as [_ ?].
  - destruct (_ <=? _); [by apply removelast_elem|done].
Qed.

Lemma cache_get_incl (c : ComputeCache L) key version :
  (∀ kv, kv ∈ items (cache_get c key version).2 → kv ∈ items c) ∧
  ∀ payload, (cache_get c key version).1 = Some payload →
    ∃ e, (key, e) ∈ items c ∧ ce_version e = version ∧ ce_payload e = payload.
Proof using LL.
  unfold cache_get. destruct (get_items key (cc_lru c)) as [Hg1 Hg2].
  destruct (lru_get key (cc_lru c)) as [o lru]. simpl in *. subst o.
  destruct (alookup key (items c)) as [e|] eqn:E; simpl; [|split; [by rewrite Hg2|done]]. apply alookup_elem in E.
  assert (∀ kv, kv ∈ lru_items lru → kv ∈ items c) as Hin.
  { rewrite Hg2. intros [k' e'] [[= -> ->]|Hkv]%elem_of_cons; [done|]. by apply elem_of_aremove in Hkv as [_ ?]. }
  destruct (Z.eqb_spec (ce_version e) version); simpl; split; try done. intros payload [= <-]. by exists e.
Qed.
End incl.

(** ** Cacheable statements read one edge region *)
Lemma cache_kind_inj stmt stmt' x :
  cache_kind_of stmt = Some x → cache_kind_of stmt' = Some x → stmt = stmt'.
Proof.
  destruct stmt, stmt'; simpl; try done; intros [= <-] [=]; subst; try done.
  - assert (algorithm = algorithm0) as -> by (by destruct algorithm, algorithm0).
    destruct resolution, resolution0; simpl in *; congruence.
  - destruct damping, damping0; simpl in *; congruence.
  - f_equal. by destruct mode, mode0.
Qed.

Section coherence.
Context {S L : Type} `{KL : KvLaws S} `{FieldsCodec} `{DefCodec} `{CodeIntel} `{DebugFmt} `{KvCompact S} `{JsonRows}.
Context `{!Lru L CacheKey CacheEntry, !LruView L CacheKey CacheEntry, LL : !LruLaws L CacheKey CacheEntry}.
Context (ns db : string).
Implicit Types (se : Session S L) (s : S).

Lemma scan_reads {A B} p (dec : kvs → result A) (f : A → B) :
  ∃ F, ∀ s, (x ← (es ← DllbStorage.prefix_scan p; lift (dec es)); mret (f x)) s =
    (F (orange p (prefix_end p) (contents s)), s).
Proof using KL.
  exists (λ es, match dec es with Ok x => Ok (f x) | Err e => Err e end). intros s.
  unfold mbind, SE_bind, DllbStorage.prefix_scan. rewrite prefix_scan_law. unfold lift.
  by destruct (dec _).
Qed.
Lemma scan_keys_reads {A B} p (dec : list bytes → result A) (f : A → B) :
  ∃ F, ∀ s, (x ← (ks ← DllbStorage.scan_prefix_keys p; lift (dec ks)); mret (f x)) s =
    (F (orange p (prefix_end p) (contents s)), s).
Proof using KL.
  exists (λ es, match dec (map fst es) with Ok x => Ok (f x) | Err e => Err e end). intros s.
  unfold mbind, SE_bind, DllbStorage.scan_prefix_keys. rewrite scan_prefix_keys_law. unfold lift.
  by destruct (dec _).
Qed.

Lemma cacheable_reads o stmt table kind :
  cache_kind_of stmt = Some (table, kind) →
  ∃ F, ∀ s : S, let p := table_prefix ns db table tag.GRAPH_EDGE in
    execute ns db o stmt s = (F (orange p (prefix_end p) (contents s)), s).
Proof using KL.
  destruct stmt; simpl; try done; intros [= -> <-].
  - apply (scan_reads (table_prefix ns db table tag.GRAPH_EDGE)).
  - apply (scan_keys_reads (table_prefix ns db table tag.GRAPH_EDGE)).
  - apply (scan_reads (table_prefix ns db table tag.GRAPH_EDGE)).
  - apply (scan_keys_reads (table_prefix ns db table tag.GRAPH_EDGE)).
Qed.

(** The edge entries of a table. *)
Definition same_edges (table : string) (s s' : S) : Prop :=
  ∀ k, edge_region ns db table k → oget k (contents s') = oget k (contents s).

Lemma same_edges_scan table s s' :
  same_edges table s s' → let p := table_prefix ns db table tag.GRAPH_EDGE in
  orange p (prefix_end p) (contents s') = orange p (prefix_end p) (contents s).
Proof using KL.
  intros Hs p. assert (prefix_end p ≠ []) as Hp.
  { unfold p. rewrite table_prefix_shape. by apply prefix_end_tag. }
  by apply prefix_orange_ext.
Qed.

Lemma same_edges_refl table s : same_edges table s s.
Proof. by intros k _. Qed.

(** Table names free of the key separator. *)
Definition names_ok (stmt : Statement) : Prop :=
  match stmt with
  | Ast.Create table _ _ _ | Ast.Delete table _ | DeleteWhere table _
  | DefineIndex _ table _ _ | RemoveIndex _ table => seg_ok table
  | Ast.Update (FromTable table) _ _ => seg_ok table
  | Ast.Update (FromRecord r) _ _ => seg_ok (rr_table r)
  | Relate _ edge_type _ _ => seg_ok edge_type
  | GraphCommunities table _ _ _ | GraphComponents table | GraphPagerank table _ _ _
  | GraphCentrality table _ _ => seg_ok table
  | _ => True
  end.
Definition relates (table : string) (stmt : Statement) : Prop :=
  match stmt with Relate _ edge_type _ _ => edge_type = table | _ => False end.

Context (Hns : seg_ok ns) (Hdb : seg_ok db).

Lemma doc_not_edge table table' k :
  seg_ok table → seg_ok table' → doc_region ns db table k → ¬ edge_region ns db table' k.
Proof using Hns Hdb.
  intros Ht Ht' [Hd|[Hd|Hd]] He; by destruct (regions_disjoint _ _ _ _ _ _ _ _ _ Hns Hdb Ht Hns Hdb Ht' Hd He) as (_ & _ & _ & ?).
Qed.

Lemma region_not_edge stmt table k :
  names_ok stmt → seg_ok table → ¬ relates table stmt → stmt_region ns db stmt k → ¬ edge_region ns db table k.
Proof using Hns Hdb.
  intros Hok Ht Hr Hk.
  assert (∀ t, seg_ok t → doc_region ns db t k → ¬ edge_region ns db table k) as Hd by (intros; by eapply doc_not_edge).
  destruct stmt; simpl in *; try done; try exact (Hd _ Hok Hk); try (destruct target; exact (Hd _ Hok Hk)).
  intros He. by destruct (regions_disjoint _ _ _ _ _ _ _ _ _ Hns Hdb Hok Hns Hdb Ht Hk He) as (_ & _ & ? & _).
Qed.

Lemma execute_keeps_edges o stmt table s r s' :
  compact_law (S := S) → names_ok stmt → seg_ok table → ¬ relates table stmt →
  execute ns db o stmt s = (r, s') → same_edges table s s'.
Proof using KL Hns Hdb.
  intros Hc Hok Ht Hr E k Hk. destruct (execute_footprint ns db o stmt Hc _ _ _ E) as [Hf _]. apply Hf.
  intros Hk'. by eapply region_not_edge.
Qed.

(** A [RELATE] that fails has written nothing. *)
Lemma relate_cases o src ty dst fields s r s' :
  execute ns db o (Relate src ty dst fields) s = (r, s') → r = Ok (Some QOk) ∨ s' = s.
Proof using KL.
  unfold execute, exec_relate, EdgeStores.relate, DllbStorage.put_batch, mbind, SE_bind, lift.
  destruct (serialize_props _) as [b|e]; [|by intros [= <- <-]; right].
  match goal with |- context [kv_put_batch ?ops s] => destruct (put_batch_law ops s) as (s1 & -> & _) end.
  intros [= <- <-]. by left.
Qed.

(** *** Batches *)
Definition batch_region (stmts : list Statement) (k : bytes) : Prop := ∃ stmt, stmt ∈ stmts ∧ stmt_region ns db stmt k.
Definition batch_keys (stmts : list Statement) (b : batch_state) : Prop :=
  keys_in (batch_region stmts) (all_puts b) ∧ ∀ k, k ∈ all_deletes b → batch_region stmts k.

Lemma keys_in_app R l1 l2 : keys_in R l1 → keys_in R l2 → keys_in R (l1 ++ l2).
Proof. intros G1 G2 kv [?|?]%elem_of_app; auto. Qed.

Lemma fp_batch_step R stmts uuid stmt b :
  stmt ∈ stmts → batch_keys stmts b → footprint R (batch_step ns db uuid stmt b : M S batch_state) (batch_keys stmts).
Proof using KL.
  intros Hin [Hp Hd]. destruct stmt; try by apply fp_throw.
  - cbn [batch_step].
    assert (∀ k, doc_region ns db table k → batch_region stmts k) as Hreg by (intros k Hk; eexists; split; [exact Hin|done]).
    eapply fp_bind with (P := λ db' : list IndexDefinition * batch_state, all_puts db'.2 = all_puts b ∧ all_deletes db'.2 = all_deletes b).
    { unfold cached_definitions. destruct (idx_cache b !! table); [by apply fp_ret|].
      eapply fp_bind; [apply fp_load|]. intros defs _. by apply fp_ret. }
    intros [defs b'] [Ep Ed]. cbn [fst snd] in *. cbv zeta. set (coll := Collections.with_indexes _ defs).
    destruct on_conflict as [c|].
    + fp_step. eapply fp_bind; [apply (fp_upsert_to_ops coll)|].
      intros [[[rid created] puts] dels] [Hps Hds]. simpl in Hps, Hds. apply fp_ret. split; simpl; rewrite ?Ep, ?Ed.
      * apply keys_in_app; [done|]. intros kv Hkv. by apply Hreg, Hps.
      * intros k [Hk|Hk]%elem_of_app; [auto|by apply Hreg, Hds].
    + eapply fp_bind; [apply fp_lift; intros r Hr; exact Hr|]. intros [rid puts] Hr; cbv beta in Hr. apply fp_ret.
      split; simpl; rewrite ?Ep, ?Ed; [|done]. apply keys_in_app; [done|].
      unfold Collections.create_to_ops in Hr.
      apply bind_Ok_inv in Hr as (? & _ & (bytes' & _ & (es & He & [= _ <-])%bind_Ok_inv)%bind_Ok_inv).
      intros kv Hkv. apply Hreg. by eapply (doc_and_entries coll).
  - cbn [batch_step]. eapply fp_bind; [apply fp_lift; intros r Hr; exact Hr|]. intros puts Hr; cbv beta in Hr.
    apply fp_ret. split; simpl; [|done]. apply keys_in_app; [done|].
    unfold EdgeStores.relate_to_ops in Hr. apply bind_Ok_inv in Hr as (props & _ & [= <-]).
    intros kv Hkv. eexists. split; [exact Hin|]. simpl.
    revert kv Hkv. intros kv [->|[->|?%not_elem_of_nil]%elem_of_cons]%elem_of_cons; [apply edge_region_out|apply edge_region_in|done].
Qed.

Lemma fp_batch_loop R stmts todo b :
  (∀ us, us ∈ todo → us.2 ∈ stmts) → batch_keys stmts b →
  footprint R (batch_loop ns db todo b : M S batch_state) (batch_keys stmts).
Proof using KL.
  revert b. induction todo as [|[uuid stmt] todo IH]; intros b Hin Hb; simpl; [by apply fp_ret|].
  eapply fp_bind; [apply (fp_batch_step R stmts uuid stmt b); [apply (Hin (uuid, stmt)); left|done]|].
  intros b' Hb'. apply IH; [|done]. intros us ?. apply Hin. by right.
Qed.

Lemma batch_cases stmts s r s' :
  execute_batch ns db stmts s = (r, s') →
  (∀ k, ¬ batch_region (map snd stmts) k → oget k (contents s') = oget k (contents s)) ∧
  ((∃ q, r = Ok q) ∨ contents s' = contents s).
Proof using KL.
  intros E. unfold execute_batch, mbind, SE_bind in E.
  destruct (batch_loop ns db stmts (MkBatch [] [] 0 0 ∅) s) as [[b|e] s1] eqn:Eb.
  - assert (batch_keys (map snd stmts) (MkBatch [] [] 0 0 ∅)) as Hb0.
    { split; [intros ? ?%not_elem_of_nil; done|by intros ? ?%not_elem_of_nil]. }
    destruct (fp_batch_loop (λ _, False) (map snd stmts) stmts _
      ltac:(intros us ?; apply list_elem_of_fmap; by exists us) Hb0 _ _ _ Eb) as [Hsame Hkeys].
    destruct (Hkeys b eq_refl) as [Hp Hd].
    destruct (DllbStorage.write_batch (all_puts b) (all_deletes b) s1) as [r2 s2] eqn:Ew.
    destruct (fp_write_batch (batch_region (map snd stmts)) _ _ Hp Hd _ _ _ Ew) as [Hw _].
    unfold DllbStorage.write_batch in Ew. destruct (write_batch_law (all_puts b) (all_deletes b) s1) as (s3 & E3 & _).
    rewrite E3 in Ew. injection Ew as <- <-. injection E as <- <-. split; [|left; by eexists].
    intros k Hk. rewrite Hw by done. apply Hsame. by intros [].
  - injection E as <- <-.
    assert (contents s1 = contents s) as Hs.
    { assert (batch_keys (map snd stmts) (MkBatch [] [] 0 0 ∅)) as Hb0.
      { split; [intros ? ?%not_elem_of_nil; done|by intros ? ?%not_elem_of_nil]. }
      destruct (fp_batch_loop (λ _, False) (map snd stmts) stmts _
        ltac:(intros us ?; apply list_elem_of_fmap; by exists us) Hb0 _ _ _ Eb) as [Hsame _].
      apply osorted_ext; [apply contents_sorted..|]. intros k. apply Hsame. by intros []. }
    split; [by intros; rewrite Hs|by right].
Qed.

(** *** The invariant *)

(** [payload] is the text of a result of the key's statement on the store [s]. *)
Definition fresh (s : S) (key : CacheKey) (payload : string) : Prop :=
  ∃ o stmt r, oracle_ok o ∧ cache_kind_of stmt = Some (ck_table key, ck_kind key) ∧
    execute ns db o stmt s = (Ok (Some r), s) ∧ payload = format_result r (ck_outcome key).

Abbreviation current se table := (Versions.current (se_versions se) ns db table).

Record coherent (n : Z) se : Prop := {
  ch_keys : ∀ key e, (key, e) ∈ lru_items (cc_lru (se_cache se)) →
    ck_ns key = ns ∧ ck_db key = db ∧ seg_ok (ck_table key);
  ch_versions : ∀ table, 0 ≤ current se table ≤ n;
  ch_entries : ∀ key e, (key, e) ∈ lru_items (cc_lru (se_cache se)) →
    ce_version e ≤ current se (ck_table key) ∧
    (ce_version e = current se (ck_table key) → fresh (se_store se) key (ce_payload e))
}.

Lemma fresh_frame s s' key payload :
  same_edges (ck_table key) s s' → fresh s key payload → fresh s' key payload.
Proof using KL.
  intros Hs (o & stmt & r & Ho & Hk & E & ->). exists o, stmt, r. split_and!; [done|done| |done].
  destruct (cacheable_reads o stmt _ _ Hk) as (F & HF). rewrite HF in E |- *.
  rewrite (same_edges_scan _ _ _ Hs). injection E as E. by rewrite E.
Qed.

Lemma current_bump v table table' :
  Versions.current (Versions.bump v ns db table) ns db table' =
  if decide (table = table') then as_u64 (Versions.current v ns db table + 1) else Versions.current v ns db table'.
Proof.
  unfold Versions.bump. set (new := as_u64 _). unfold Versions.current, Versions.table_key.
  case_decide as E.
  - subst. by rewrite lookup_insert_eq.
  - rewrite lookup_insert_ne by congruence. done.
Qed.

(** Versions after a write: counters only grow, and grow for [touched] tables. *)
Lemma coherent_write n m se s' v' (touched : string → Prop) :
  coherent n se → n ≤ m →
  (∀ table, current se table ≤ Versions.current v' ns db table ≤ m) →
  (∀ table, touched table → current se table < Versions.current v' ns db table) →
  (∀ table, seg_ok table → ¬ touched table → same_edges table (se_store se) s') →
  (∀ table, Decision (touched table)) →
  coherent m (MkSession s' v' (se_cache se)).
Proof using KL.
  intros [Hk Hv He] Hnm Hcur Ht Hs Hdec. split; simpl; [done| |].
  - intros table. specialize (Hv table). specialize (Hcur table). lia.
  - intros key e Hin. destruct (Hk _ _ Hin) as (_ & _ & Hseg). destruct (He _ _ Hin) as [Hle Hf].
    pose proof (Hcur (ck_table key)) as Hc. split; [lia|]. intros E.
    destruct (Hdec (ck_table key)) as [Htt|Htt].
    + specialize (Ht _ Htt). lia.
    + eapply fresh_frame; [by apply Hs|]. apply Hf. lia.
Qed.

Lemma coherent_cache n se cache :
  coherent n se → (∀ kv, kv ∈ lru_items (cc_lru cache) → kv ∈ lru_items (cc_lru (se_cache se))) →
  coherent n (MkSession (se_store se) (se_versions se) cache).
Proof. intros [Hk Hv He] Hin. split; simpl; eauto. Qed.

Lemma coherent_same n m se s' : coherent n se → n ≤ m → (∀ t, seg_ok t → same_edges t (se_store se) s') →
  coherent m (MkSession s' (se_versions se) (se_cache se)).
Proof using KL.
  intros Hco Hnm Hs. apply (coherent_write n m se s' _ (λ _, False)); [done|done| |by intros ? []|by intros; apply Hs|].
  - intros t. pose proof (ch_versions _ _ Hco t). lia.
  - intros t. right. by intros [].
Qed.
Lemma coherent_bump n se s' ty : n + 1 < 2 ^ 64 → coherent n se →
  (∀ t, seg_ok t → t ≠ ty → same_edges t (se_store se) s') →
  coherent (n + 1) (MkSession s' (Versions.bump (se_versions se) ns db ty) (se_cache se)).
Proof using KL.
  intros Hn Hco Hs.
  assert (as_u64 (current se ty + 1) = current se ty + 1) as Hw.
  { pose proof (ch_versions _ _ Hco ty). unfold as_u64. apply Z.mod_small. lia. }
  apply (coherent_write n (n + 1) se s' _ (λ t, t = ty)); [done|lia|..|apply Hs|apply _].
  - intros t. pose proof (ch_versions _ _ Hco t). rewrite current_bump. case_decide; [subst; rewrite Hw; lia|lia].
  - intros t ->. rewrite current_bump, decide_True by done. rewrite Hw. lia.
Qed.
Lemma coherent_insert n se key payload r cache stmt o :
  coherent n se → ck_ns key = ns ∧ ck_db key = db ∧ seg_ok (ck_table key) →
  oracle_ok o → cache_kind_of stmt = Some (ck_table key, ck_kind key) →
  execute ns db o stmt (se_store se) = (Ok (Some r), se_store se) → payload = format_result r (ck_outcome key) →
  cache_insert (se_cache se) key payload (current se (ck_table key)) = Some cache →
  coherent n (MkSession (se_store se) (se_versions se) cache).
Proof using LL.
  intros [Gk Gv Ge] Hkey Ho Hk E -> Ei. pose proof (cache_insert_incl _ _ _ _ _ Ei) as Hins. split; simpl; [|done|].
  - intros key' e [(-> & _)|Hin]%Hins; [done|by eapply Gk].
  - intros key' e [(-> & Hp & Hv)|Hin]%Hins; [|by eapply Ge]. rewrite Hp, Hv. split; [done|]. intros _.
    by exists o, stmt, r.
Qed.

(** [RELATE]: the version of its edge type is bumped exactly on success. *)
Lemma relate_coherent n o src ty dst fields outcome se res se' :
  compact_law (S := S) → names_ok (Relate src ty dst fields) → n + 1 < 2 ^ 64 → coherent n se →
  run_statement ns db o (Relate src ty dst fields) outcome se = Some (res, se') → coherent (n + 1) se'.
Proof using KL LL Hns Hdb.
  intros Hc Hok Hn Hco. unfold run_statement, try_cache_hit. cbn [cache_kind_of].
  destruct (execute ns db o (Relate src ty dst fields) (se_store se)) as [r s'] eqn:E.
  assert (r = Ok (Some QOk) ∨ (∃ e, r = Err e) ∧ s' = se_store se) as [->|[ [e ->] ->] ].
  { destruct (relate_cases _ _ _ _ _ _ _ _ E) as [-> | ->]; [by left|].
    unfold execute, exec_relate, mbind, SE_bind in E. destruct (EdgeStores.relate _ _ _) as [[?|?] ?];
      cbv [mret SE_ret] in E; injection E as <- _; [by left|right; eauto]. }
  - intros [= <- <-]. apply coherent_bump; [done|done|]. intros t Ht Hne. eapply execute_keeps_edges; [done..| |exact E].
    simpl. congruence.
  - intros [= <- <-]. apply (coherent_same n); [done|lia|]. intros t _. apply same_edges_refl.
Qed.

(** [n] counts the bumps so far. *)
Lemma run_statement_coherent n o stmt outcome se res se' :
  compact_law (S := S) → names_ok stmt → oracle_ok o → n + 1 < 2 ^ 64 → coherent n se →
  run_statement ns db o stmt outcome se = Some (res, se') → coherent (n + 1) se'.
Proof using KL LL Hns Hdb.
  intros Hc Hok Ho Hn Hco.
  destruct (match stmt with Relate _ ty _ _ => Some ty | _ => None end) as [ty|] eqn:Ety.
  { destruct stmt; try done. by apply relate_coherent. }
  assert (∀ t, ¬ relates t stmt) as Hr by (intros t; destruct stmt; simpl; intros ?; done). unfold run_statement.
  assert (∀ c, (try_cache_hit ns db stmt outcome (se_versions se) (se_cache se)).2 = c →
    coherent n (MkSession (se_store se) (se_versions se) c)) as Hhit.
  { intros c <-. apply coherent_cache; [done|]. unfold try_cache_hit.
    destruct (cache_kind_of stmt) as [[table kind]|]; [apply cache_get_incl|done]. }
  destruct (try_cache_hit ns db stmt outcome (se_versions se) (se_cache se)) as [[payload|] c];
    specialize (Hhit _ eq_refl); simpl in Hhit.
  { intros [= <- <-]. apply (coherent_same n _ _ _ Hhit); [lia|]. intros t _. apply same_edges_refl. }
  destruct (execute ns db o stmt (se_store se)) as [r s'] eqn:E.
  assert (coherent (n + 1) (MkSession s' (se_versions se) c)) as Hplain.
  { apply (coherent_same n _ _ _ Hhit); [lia|]. intros t Ht. by eapply execute_keeps_edges. }
  destruct r as [[r|]|e]; [|done|by intros [= <- <-]].
  assert (post_execute ns db stmt r outcome (se_versions se) c =
    match cache_kind_of stmt with
    | Some (table, kind) =>
        if storable stmt r then
          cache ← cache_insert c (MkCacheKey ns db table kind outcome) (format_result r outcome) (current se table);
          Some (se_versions se, cache)
        else Some (se_versions se, c)
    | None => Some (se_versions se, c)
    end) as -> by (by destruct stmt).
  destruct (cache_kind_of stmt) as [[table kind]|] eqn:Hk; [|by intros [= <- <-]].
  destruct (storable stmt r); [|by intros [= <- <-]].
  destruct (cache_insert c _ _ _) as [c'|] eqn:Ei; [|done]. simpl. intros [= <- <-].
  destruct (cacheable_reads o stmt table kind Hk) as (F & HF). pose proof E as E'. rewrite HF in E'. injection E' as _ <-.
  eapply (coherent_insert (n + 1) (MkSession _ _ _) (MkCacheKey ns db table kind outcome)); [exact Hplain| |exact Ho|exact Hk|exact E|reflexivity|exact Ei].
  split_and!; [done..|]. destruct stmt; try done; by injection Hk as <- _.
Qed.

Lemma bump_relates_spec v stmts m :
  (∀ t, 0 ≤ Versions.current v ns db t ≤ m) → m + Z.of_nat (length stmts) < 2 ^ 64 →
  (∀ t, Versions.current v ns db t ≤ Versions.current (bump_relates ns db stmts v) ns db t ≤ m + Z.of_nat (length stmts)) ∧
  ∀ t, (∃ stmt, stmt ∈ stmts ∧ relates t stmt) →
    Versions.current v ns db t < Versions.current (bump_relates ns db stmts v) ns db t.
Proof.
  revert v m. induction stmts as [|stmt stmts IH]; intros v m Hv Hm; simpl.
  { split; [intros t; specialize (Hv t); lia|]. intros t (? & ?%not_elem_of_nil & _). done. }
  simpl in Hm. set (v1 := match stmt with Relate _ ty _ _ => Versions.bump v ns db ty | _ => v end).
  assert (∀ t, Versions.current v ns db t ≤ Versions.current v1 ns db t ≤ m + 1 ∧
            (relates t stmt → Versions.current v ns db t < Versions.current v1 ns db t)) as Hv1.
  { intros t. pose proof (Hv t) as G. destruct stmt; subst v1; simpl; try (split; [lia|done]).
    rewrite current_bump. pose proof (Hv edge_type) as G'.
    assert (as_u64 (Versions.current v ns db edge_type + 1) = Versions.current v ns db edge_type + 1) as ->
      by (unfold as_u64; apply Z.mod_small; lia).
    case_decide as E; [subst; split; [lia|intros _; lia]|split; [lia|done]]. }
  destruct (IH v1 (m + 1)) as [IH1 IH2].
  - intros t. pose proof (Hv t). pose proof (Hv1 t) as [? _]. lia.
  - lia.
  - split.
    + intros t. pose proof (Hv1 t) as [? _]. specialize (IH1 t). unfold bump_relates in IH1 |- *. fold v1. lia.
    + intros t (st & [->|Hin]%elem_of_cons & Hr).
      * pose proof (Hv1 t) as [_ G]. specialize (G Hr). specialize (IH1 t). unfold bump_relates in IH1 |- *. fold v1. lia.
      * pose proof (Hv1 t) as [G _]. assert (∃ stmt, stmt ∈ stmts ∧ relates t stmt) as Hex by eauto.
        specialize (IH2 t Hex). unfold bump_relates in IH2 |- *. fold v1. lia.
Qed.

Lemma run_batch_coherent n stmts se res se' :
  (∀ us, us ∈ stmts → names_ok us.2) → n + Z.of_nat (length stmts) < 2 ^ 64 → coherent n se →
  run_batch ns db stmts se = (res, se') → coherent (n + Z.of_nat (length stmts)) se'.
Proof using KL LL Hns Hdb.
  intros Hok Hn Hco. unfold run_batch. destruct (execute_batch ns db stmts (se_store se)) as [r s'] eqn:E.
  destruct (batch_cases _ _ _ _ E) as [Hf Hr].
  destruct (bump_relates_spec (se_versions se) (map snd stmts) n) as [Hle Hlt];
    [apply (ch_versions _ _ Hco)|by rewrite length_map|]. rewrite length_map in Hle.
  destruct r as [q|e]; intros [= <- <-].
  - apply (coherent_write n _ se s' _ (λ t, ∃ stmt, stmt ∈ map snd stmts ∧ relates t stmt)); [done|lia|apply Hle|apply Hlt| |].
    + intros t Ht Hn' k Hk. apply Hf. intros (stmt & Hin & Hreg). 
      assert (names_ok stmt) as Hnm by (apply list_elem_of_fmap in Hin as (us & -> & Hus); by apply Hok).
      eapply region_not_edge; [exact Hnm|exact Ht| |exact Hreg|exact Hk]. intros Hrel. apply Hn'. by exists stmt.
    + intros t. assert (∀ stmt, Decision (relates t stmt)) as Hd by (intros []; simpl; apply _).
      destruct (decide (Exists (relates t) (map snd stmts))) as [Hex|Hex]; rewrite Exists_exists in Hex; [by left|by right].
  - destruct Hr as [[? ?]|Hs]; [done|].
    apply (coherent_write n _ se s' (se_versions se) (λ _, False)); [done|lia| |by intros ? []| |].
    + intros t. pose proof (ch_versions _ _ Hco t) as G. lia.
    + intros t _ _ k _. by rewrite Hs.
    + intros t. right. by intros [].
Qed.

(** *** Sequences of requests *)
Inductive SessionOp :=
  | DoStatement (o : Oracle) (stmt : Statement) (outcome : OutcomeFormat)
  | DoBatch (stmts : list (string * Statement)).
Definition op_ok (op : SessionOp) : Prop :=
  match op with
  | DoStatement o stmt _ => names_ok stmt ∧ oracle_ok o
  | DoBatch stmts => ∀ us, us ∈ stmts → names_ok us.2
  end.
(** Version counters the operation may advance. *)
Definition op_writes (op : SessionOp) : Z :=
  match op with DoStatement _ _ _ => 1 | DoBatch stmts => Z.of_nat (length stmts) end.
Definition writes (ops : list SessionOp) : Z := foldr (λ op n, op_writes op + n) 0 ops.

Fixpoint run_ops (ops : list SessionOp) se : option (Session S L) :=
  match ops with
  | [] => Some se
  | DoStatement o stmt outcome :: ops' => '(_, se) ← run_statement ns db o stmt outcome se; run_ops ops' se
  | DoBatch stmts :: ops' => run_ops ops' (run_batch ns db stmts se).2
  end.

Lemma writes_nonneg ops : 0 ≤ writes ops.
Proof. induction ops as [|op ops IH]; simpl; [done|]. destruct op; simpl; lia. Qed.

Lemma run_ops_coherent n ops se se' :
  compact_law (S := S) → Forall op_ok ops → n + writes ops < 2 ^ 64 → coherent n se →
  run_ops ops se = Some se' → coherent (n + writes ops) se'.
Proof using KL LL Hns Hdb.
  intros Hc Hops. revert n se. induction Hops as [|op ops Hop Hops IH]; intros n se Hn Hco; simpl in *.
  { intros [= <-]. by rewrite Z.add_0_r. }
  pose proof (writes_nonneg ops). destruct op as [o stmt outcome|stmts]; simpl in *.
  - destruct (run_statement _ _ _ _ _ _) as [[res se1]|] eqn:E; [|done]. simpl. rewrite Z.add_assoc. apply IH; [lia|].
    destruct Hop as [Hnm Ho]. eapply run_statement_coherent; [done|done|done|lia|done|exact E].
  - destruct (run_batch ns db stmts se) as [res se1] eqn:E. simpl. rewrite Z.add_assoc. apply IH; [lia|].
    eapply run_batch_coherent; [done|lia|done|exact E].
Qed.

Definition new_session (capacity max_bytes : Z) (s : S) : Session S L :=
  MkSession s Versions.default (with_bounds capacity max_bytes).
Lemma new_session_coherent capacity max_bytes s : coherent 0 (new_session capacity max_bytes s).
Proof using LL.
  assert (lru_items (cc_lru (with_bounds capacity max_bytes : ComputeCache L)) = []) as Hi.
  { apply new_law. lia. }
  split; cbn [se_cache se_versions new_session].
  - intros key e. rewrite Hi. by intros ?%not_elem_of_nil.
  - intros t. done.
  - intros key e. rewrite Hi. by intros ?%not_elem_of_nil.
Qed.
End coherence.
#[global] Arguments fresh {S} {_ _ _ _ _ _ _} _ _ _ _ _.

(** C1.  The cache is transparent to clients served one after the other: after
    any sequence of statements and batches, failing ones included, whatever
    the cache answers for a statement is the text of a result the statement
    has on the store as it is now - no write is missed, whichever tables,
    eviction pattern and hash-map iteration orders are involved (fewer than
    [2^64] writes, names free of the key separator). *)
Theorem cache_transparent {S L} `{KL : KvLaws S} `{FieldsCodec} `{DefCodec} `{CodeIntel} `{DebugFmt}
    `{KvCompact S} `{JsonRows} `{!Lru L CacheKey CacheEntry, !LruView L CacheKey CacheEntry, LL : !LruLaws L CacheKey CacheEntry}
    (ns db : string) (capacity max_bytes : Z) (s0 : S) (ops : list SessionOp) (se : Session S L)
    (stmt : Statement) (outcome : OutcomeFormat) (payload : string) :
  seg_ok ns → seg_ok db → compact_law (S := S) → Forall op_ok ops → writes ops < 2 ^ 64 →
  run_ops ns db ops (new_session capacity max_bytes s0) = Some se →
  (try_cache_hit ns db stmt outcome (se_versions se) (se_cache se)).1 = Some payload →
  ∃ o r, oracle_ok o ∧ execute ns db o stmt (se_store se) = (Ok (Some r), se_store se) ∧
    payload = format_result r outcome.
Proof.
  intros Hns Hdb Hc Hops Hw Hrun Hhit.
  pose proof (run_ops_coherent ns db Hns Hdb 0 ops _ _ Hc Hops Hw (new_session_coherent ns db capacity max_bytes s0) Hrun)
    as [_ _ He].
  unfold try_cache_hit in Hhit. destruct (cache_kind_of stmt) as [[table kind]|] eqn:Hk; [|done].
  apply cache_get_incl in Hhit as (e & Hin & Hv & <-).
  destruct (He _ _ Hin) as [_ Hf]. destruct (Hf Hv) as (o & stmt' & r & Ho & Hk' & E & ->). simpl in *.
  rewrite (cache_kind_inj _ _ _ Hk Hk'). by exists o, r.
Qed.

(** ** Concrete sessions *)
#[local] Instance no_debug : DebugFmt := {| debug_literals _ := ""%string; debug_value _ := ""%string |}.
#[local] Instance no_json : JsonRows := {| rows_to_json _ := None |}.
#[local] Instance no_compact : KvCompact MemRedb.db := λ s, (Ok false, s).

Definition list_session : Type := Session MemRedb.db (list_lru CacheKey CacheEntry).
Definition start_session : list_session := new_session 10 4096 MemRedb.empty.
Definition link (a b : string) : Statement := Relate (MkRecordRef "p" a) "knows" (MkRecordRef "p" b) [].
Definition ask : Statement := GraphComponents "knows".

Definition two_links : list SessionOp :=
  [DoStatement plain_oracle (link "a" "b") Json; DoStatement plain_oracle ask Csv;
   DoBatch [("u"%string, link "c" "d")]; DoStatement plain_oracle ask Csv].
Lemma two_links_ok : Forall op_ok two_links.
Proof.
  apply Forall_cons_2; [split; [compute_decide|apply plain_oracle_ok]|].
  apply Forall_cons_2; [split; [compute_decide|apply plain_oracle_ok]|].
  apply Forall_cons_2; [intros us ->%list_elem_of_singleton; compute_decide|].
  apply Forall_cons_2; [split; [compute_decide|apply plain_oracle_ok]|apply Forall_nil_2].
Qed.
Lemma two_links_hit :
  match run_ops "n" "d" two_links start_session with
  | Some se => (try_cache_hit "n" "d" ask Csv (se_versions se) (se_cache se)).1
  | None => None
  end = Some ("status,component_count,largest,nodes" ++ newline ++ "components,2,2,4")%string.
Proof. vm_compute. reflexivity. Qed.

Lemma cache_transparent_witness :
  ∃ (se : list_session) o r, run_ops "n" "d" two_links start_session = Some se ∧
    oracle_ok o ∧ execute "n" "d" o ask (se_store se) = (Ok (Some r), se_store se) ∧
    format_result r Csv = ("status,component_count,largest,nodes" ++ newline ++ "components,2,2,4")%string.
Proof.
  pose proof two_links_hit as Hhit.
  destruct (run_ops "n" "d" two_links start_session) as [se|] eqn:E; [|discriminate].
  destruct (cache_transparent (L := list_lru CacheKey CacheEntry) "n" "d" 10 4096 MemRedb.empty two_links se ask Csv _
    ltac:(compute_decide) ltac:(compute_decide) (λ _, eq_refl) two_links_ok eq_refl E Hhit) as (o & r & Ho & Hr & Hp).
  exists se, o, r. split; [reflexivity|]. split; [exact Ho|]. split; [exact Hr|]. symmetry. exact Hp.
Defined.
