(* ===== verification/Isolation.v ===== *)
(** * Statements change their own table only

    The footprint of a statement, read off the key layout: a key whose value
    a statement changes belongs to the table the statement names, in the
    executor's namespace and database, and to the model it writes. *)

From stdpp Require Import gmap.
From S2P Require Export SessionSpec.

(** The table a statement writes, and whether it writes edges. *)
Definition target_of (stmt : Statement) : option (string * bool) :=
  match stmt with
  | Ast.Create table _ _ _ | Ast.Delete table _ | DeleteWhere table _
  | DefineIndex _ table _ _ | RemoveIndex _ table | Ast.Update (FromTable table) _ _ => Some (table, false)
  | Ast.Update (FromRecord r) _ _ => Some (rr_table r, false)
  | Relate _ edge_type _ _ => Some (edge_type, true)
  | _ => None
  end.

Section isolation.
Context {S : Type} `{KL : KvLaws S} `{FieldsCodec} `{DefCodec} `{CodeIntel} `{DebugFmt} `{KvCompact S}.
Context (ns db : string) (Hns : seg_ok ns) (Hdb : seg_ok db).

#[local] Instance stmt_region_dec stmt k : Decision (stmt_region ns db stmt k).
Proof.
  unfold stmt_region, doc_region, edge_region.
  destruct stmt; try (destruct target); try apply _; right; tauto.
Defined.

(** A key that a statement changes. *)
Lemma changed_key o stmt s r s' k :
  compact_law (S := S) → execute ns db o stmt s = (r, s') →
  oget k (contents s') ≠ oget k (contents s) → stmt_region ns db stmt k.
Proof using KL.
  intros Hc E Hk. destruct (execute_footprint ns db o stmt Hc _ _ _ E) as [Hf _].
  apply dec_stable. intros Hno. apply Hk, Hf, Hno.
Qed.

(** A key of a table's region that a statement may write. *)
Lemma region_target stmt ns' db' t b k :
  names_ok stmt → seg_ok ns' → seg_ok db' → seg_ok t → table_prefix ns' db' t b `prefix_of` k →
  stmt_region ns db stmt k →
  ns' = ns ∧ db' = db ∧ target_of stmt = Some (t, bool_decide (b = tag.GRAPH_EDGE)).
Proof using Hns Hdb.
  intros Hok Hn' Hd' Ht Hp Hk.
  assert (∀ u b', seg_ok u → table_prefix ns db u b' `prefix_of` k → ns' = ns ∧ db' = db ∧ t = u ∧ b = b') as Hreg.
  { intros u b' Hu Hk'. by eapply regions_disjoint. }
  assert (∀ u, seg_ok u → doc_region ns db u k → ns' = ns ∧ db' = db ∧ Some (u, false) = Some (t, bool_decide (b = tag.GRAPH_EDGE))) as Hdoc.
  { intros u Hu [Hk'|[Hk'|Hk']]; destruct (Hreg _ _ Hu Hk') as (-> & -> & -> & ->); by split_and!. }
  destruct stmt; simpl in *; try done; try exact (Hdoc _ Hok Hk); try (destruct target; exact (Hdoc _ Hok Hk)).
  destruct (Hreg _ _ Hok Hk) as (-> & -> & -> & ->). by split_and!.
Qed.
End isolation.

(** C7.  Statements are isolated from each other's tables, whatever their
    outcome: when executing a statement changes the value of a key that lies
    in the tagged region of some table, then that table is the one the
    statement writes, in the executor's own namespace and database, and the
    region is the edge region for [RELATE] and a document, index or catalog
    region otherwise.  Statements that only read change nothing. *)
Theorem execute_isolated {S} `{KL : KvLaws S} `{FieldsCodec} `{DefCodec} `{CodeIntel} `{DebugFmt} `{KvCompact S}
    (ns db ns' db' t : string) (b : byte) (o : Oracle) (stmt : Statement) (s s' : S) r (k : bytes) :
  seg_ok ns → seg_ok db → names_ok stmt → seg_ok ns' → seg_ok db' → seg_ok t → compact_law (S := S) →
  execute ns db o stmt s = (r, s') →
  table_prefix ns' db' t b `prefix_of` k →
  oget k (contents s') ≠ oget k (contents s) →
  ns' = ns ∧ db' = db ∧ target_of stmt = Some (t, bool_decide (b = tag.GRAPH_EDGE)).
Proof.
  intros Hns Hdb Hok Hn' Hd' Ht Hc E Hp Hk. eapply region_target; [done..|]. by eapply changed_key.
Qed.

#[local] Existing Instances no_debug no_compact.

Lemma relate_changes :
  oget (graph_outgoing_key "n" "d" "knows" "a" "knows" "b")
    (contents (execute "n" "d" plain_oracle (link "a" "b") MemRedb.empty).2) ≠
  oget (graph_outgoing_key "n" "d" "knows" "a" "knows" "b") (contents MemRedb.empty).
Proof. vm_compute. discriminate. Qed.

Lemma execute_isolated_witness : target_of (link "a" "b") = Some ("knows"%string, true).
Proof.
  destruct (execute "n" "d" plain_oracle (link "a" "b") MemRedb.empty) as [r s'] eqn:E.
  pose proof relate_changes as Hk. rewrite E in Hk.
  destruct (execute_isolated "n" "d" "n" "d" "knows" tag.GRAPH_EDGE plain_oracle (link "a" "b") MemRedb.empty s' r
    (graph_outgoing_key "n" "d" "knows" "a" "knows" "b")
    ltac:(compute_decide) ltac:(compute_decide) ltac:(compute_decide) ltac:(compute_decide) ltac:(compute_decide)
    ltac:(compute_decide) (λ _, eq_refl) E (edge_region_out _ _ _ _ _ _) Hk) as (_ & _ & Ht).
  exact Ht.
Defined.

(** * Requests that interleave

    The server runs the requests of its connections concurrently.  A request
    that misses the cache executes its statement and later, as a separate
    step, bumps a version or stores its result; other requests may come in
    between.  A run of one statement is such a pair of steps, so the serial
    model is a special case - but a result computed before a write and stored
    after it is kept under the new version and served although it is outdated. *)

Open Scope nat_scope.

(** A request between [execute] and [post_execute]. *)
Record Pending := MkPending { pd_stmt : Statement; pd_outcome : OutcomeFormat; pd_result : QueryResult }.

Section steps.
Context {S L : Type} `{KvStore S} `{FieldsCodec} `{DefCodec} `{CodeIntel} `{DebugFmt} `{KvCompact S} `{JsonRows}.
Context `{!Lru L CacheKey CacheEntry} (ns db : string).

Record Config := MkConfig { cf_session : Session S L; cf_pending : list Pending }.

Inductive step : Config → Config → Prop :=
  | step_hit stmt outcome se ps payload cache :
      try_cache_hit ns db stmt outcome (se_versions se) (se_cache se) = (Some payload, cache) →
      step (MkConfig se ps) (MkConfig (MkSession (se_store se) (se_versions se) cache) ps)
  | step_execute o stmt outcome se ps cache r s' :
      oracle_ok o →
      try_cache_hit ns db stmt outcome (se_versions se) (se_cache se) = (None, cache) →
      execute ns db o stmt (se_store se) = (Ok (Some r), s') →
      step (MkConfig se ps) (MkConfig (MkSession s' (se_versions se) cache) (ps ++ [MkPending stmt outcome r]))
  | step_fail o stmt outcome se ps cache e s' :
      oracle_ok o →
      try_cache_hit ns db stmt outcome (se_versions se) (se_cache se) = (None, cache) →
      execute ns db o stmt (se_store se) = (Err e, s') →
      step (MkConfig se ps) (MkConfig (MkSession s' (se_versions se) cache) ps)
  | step_post se ps1 p ps2 versions cache :
      post_execute ns db (pd_stmt p) (pd_result p) (pd_outcome p) (se_versions se) (se_cache se) =
        Some (versions, cache) →
      step (MkConfig se (ps1 ++ p :: ps2)) (MkConfig (MkSession (se_store se) versions cache) (ps1 ++ ps2)).

(** A request served without interruption is a hit, a failure, or two steps. *)
Lemma run_statement_steps o stmt outcome se res se' :
  oracle_ok o → run_statement ns db o stmt outcome se = Some (res, se') →
  ∀ ps, rtc step (MkConfig se ps) (MkConfig se' ps).
Proof.
  intros Ho E ps. unfold run_statement in E.
  destruct (try_cache_hit _ _ _ _ _ _) as [[payload|] cache] eqn:Eh.
  { injection E as <- <-. eapply rtc_once. by eapply step_hit. }
  destruct (execute _ _ _ _ _) as [[[r|]|e] s'] eqn:Ee; [|done|].
  - destruct (post_execute _ _ _ _ _ _ _) as [[versions cache']|] eqn:Ep; [|done]. simpl in E. injection E as <- <-.
    eapply rtc_l; [by eapply step_execute|]. eapply rtc_once.
    pose proof (step_post (MkSession s' (se_versions se) cache) ps (MkPending stmt outcome r) [] versions cache' Ep) as Hp.
    by rewrite app_nil_r in Hp.
  - injection E as <- <-. eapply rtc_once. by eapply step_fail.
Qed.

(** ** Schedules *)
Inductive Sched :=
  | Start (o : Oracle) (stmt : Statement) (outcome : OutcomeFormat)
  | Finish (i : nat).

Definition run_sched1 (a : Sched) (c : Config) : option Config :=
  let se := cf_session c in
  match a with
  | Start o stmt outcome =>
      match try_cache_hit ns db stmt outcome (se_versions se) (se_cache se) with
      | (Some _, _) => None
      | (None, cache) =>
          match execute ns db o stmt (se_store se) with
          | (Ok (Some r), s') =>
              Some (MkConfig (MkSession s' (se_versions se) cache) (cf_pending c ++ [MkPending stmt outcome r]))
          | _ => None
          end
      end
  | Finish i =>
      p ← cf_pending c !! i;
      '(versions, cache) ← post_execute ns db (pd_stmt p) (pd_result p) (pd_outcome p) (se_versions se) (se_cache se);
      Some (MkConfig (MkSession (se_store se) versions cache) (take i (cf_pending c) ++ drop (i + 1) (cf_pending c)))
  end.
Fixpoint run_sched (l : list Sched) (c : Config) : option Config :=
  match l with [] => Some c | a :: l' => c' ← run_sched1 a c; run_sched l' c' end.

Definition sched_ok (a : Sched) : Prop := match a with Start o _ _ => oracle_ok o | Finish _ => True end.

Lemma run_sched_steps l c c' : Forall sched_ok l → run_sched l c = Some c' → rtc step c c'.
Proof.
  intros Hl. revert c. induction Hl as [|a l Ha Hl IH]; intros c; simpl; [by intros [= <-]|].
  destruct (run_sched1 a c) as [c1|] eqn:E; [|done]. simpl. intros Hr. eapply rtc_l; [|by apply IH].
  destruct c as [se ps]. destruct a as [o stmt outcome|i]; simpl in E.
  - destruct (try_cache_hit _ _ _ _ _ _) as [[payload|] cache] eqn:Eh; [done|].
    destruct (execute _ _ _ _ _) as [[[r|]|e] s'] eqn:Ee; try done. injection E as <-. by eapply step_execute.
  - destruct (ps !! i) as [p|] eqn:Ei; [|done]. simpl in E.
    destruct (post_execute _ _ _ _ _ _ _) as [[versions cache']|] eqn:Ep; [|done]. simpl in E. injection E as <-.
    rewrite <- (take_drop_middle ps i p Ei) at 1. rewrite Nat.add_1_r. by apply step_post.
Qed.
End steps.

(** ** An outdated result *)

(** A request for the components executes before a [RELATE] and stores after
    it. *)
Definition stale_schedule : list Sched :=
  [Start plain_oracle (link "a" "b") Json; Finish 0;
   Start plain_oracle ask Csv;
   Start plain_oracle (link "c" "d") Json; Finish 1;
   Finish 0].

Definition components_text (n : string) (nodes : string) : string :=
  ("status,component_count,largest,nodes" ++ newline ++ "components," ++ n ++ ",2," ++ nodes)%string.

#[local] Existing Instances no_debug no_json no_compact.

Lemma stale_run :
  match run_sched "n" "d" stale_schedule (MkConfig start_session []) with
  | Some c =>
      let se := cf_session c in
      (cf_pending c, (try_cache_hit "n" "d" ask Csv (se_versions se) (se_cache se)).1,
       match (exec_graph_components "n" "d" "knows" (se_store se)).1 with
       | Ok (Some r) => Some (format_result r Csv)
       | _ => None
       end) = ([], Some (components_text "1" "2"), Some (components_text "2" "4"))
  | None => False
  end.
Proof. vm_compute. reflexivity. Qed.

(** Interleaved requests can be served outdated results, also when all
    requests are done: a state without unfinished requests is reachable from
    the empty one where the cache answers [GRAPH COMPONENTS] with one
    component of two nodes while every execution of the statement on the
    store finds two components of four - the result was computed before a
    [RELATE] and stored after it, under the version of the new state. *)
Theorem stale_result_served :
  ∃ c, rtc (step "n" "d") (MkConfig start_session []) c ∧ cf_pending c = [] ∧
    let se := cf_session c in
    (try_cache_hit "n" "d" ask Csv (se_versions se) (se_cache se)).1 = Some (components_text "1" "2") ∧
    ∀ o r s', execute "n" "d" o ask (se_store se) = (Ok (Some r), s') → format_result r Csv = components_text "2" "4".
Proof.
  pose proof stale_run as Hrun.
  destruct (run_sched "n" "d" stale_schedule (MkConfig start_session [])) as [c|] eqn:E; [|done].
  exists c. cbv zeta in Hrun. injection Hrun as Hp Hh Hf. split; [|split; [exact Hp|split; [exact Hh|]]].
  - eapply run_sched_steps; [|exact E]. unfold stale_schedule.
    repeat (apply Forall_cons_2; [first [exact I|apply plain_oracle_ok]|]). apply Forall_nil_2.
  - intros o r s' Ex. cbn [execute ask] in Ex. rewrite Ex in Hf. by injection Hf.
Qed.
