(* ===== verification/IndexDdl.v ===== *)
(** * Defining an index

    The backfill of [DEFINE INDEX] builds exactly the entries of the stored
    documents, and with the catalog entry turns a consistent table into a
    consistent table with one more index. *)

From S2P Require Export ExecutorRows.

Section backfill.
Context (ns db table name : string) (def : IndexDefinition) (Hbt : IndexDefinitions.is_btree def = true).

Abbreviation coll1 := (MkCollection ns db table None [def]).
Abbreviation id_of doc := (rid_id (doc_id doc)).

Lemma entries1_elem doc es k :
  Collections.entries coll1 doc = Ok es → k ∈ map fst es ↔ entry_of coll1 doc def k.
Proof using Hbt.
  intros He. rewrite (entries_elem _ _ _ k He). split.
  - intros (idx & ->%list_elem_of_singleton & _ & ?). done.
  - intros ?. exists def. split_and!; [by left|done|done].
Qed.

(** The tuple the unique check looks at, and its failure. *)
Lemma unique_tuple doc values :
  collect_index_values doc def = Some values →
  (∃ raws, encode_composite_key_part values = Ok (tuple_part raws) ∧ tuple_of doc def = Some raws) ∨
  (∃ e e', encode_composite_key_part values = Err e ∧ Collections.entries coll1 doc = Err e').
Proof using Hbt.
  intros Hc. destruct (encode_composite_key_part values) as [p|e] eqn:E.
  - left. pose proof E as (raws & Hr & ->)%encode_composite_Ok. exists raws. split; [done|].
    apply tuple_of_Some. eauto.
  - right. exists e. unfold Collections.entries. cbn [build_index_entries co_indexes co_ns co_db co_table].
    rewrite Hbt. cbn [negb]. case_bool_decide; [by eexists|]. rewrite Hc, E. by exists e.
Qed.

(** Why a backfill is refused. *)
Definition refused (seen : list bytes) (docs : list Document) : Prop :=
  (∃ doc e, doc ∈ docs ∧ Collections.entries coll1 doc = Err e) ∨
  ix_unique def = true ∧ ∃ doc raws, doc ∈ docs ∧ tuple_of doc def = Some raws ∧
    (tuple_part raws ∈ seen ∨ ∃ doc', doc' ∈ docs ∧ id_of doc' ≠ id_of doc ∧ tuple_of doc' def = Some raws).

Record backfilled (seen : list bytes) (docs : list Document) (es : kvs) : Prop := {
  bf_keys : ∀ k, k ∈ map fst es ↔ ∃ doc, doc ∈ docs ∧ entry_of coll1 doc def k;
  bf_entries : ∀ doc, doc ∈ docs → ∃ e, Collections.entries coll1 doc = Ok e;
  bf_seen : ix_unique def = true → ∀ doc raws, doc ∈ docs → tuple_of doc def = Some raws →
    tuple_part raws ∉ seen;
  bf_unique : ix_unique def = true → ∀ d1 d2 raws, d1 ∈ docs → d2 ∈ docs →
    tuple_of d1 def = Some raws → tuple_of d2 def = Some raws → id_of d1 = id_of d2
}.

(** The unique check of one document. *)
Definition check_seen (doc : Document) (seen : list bytes) : result (list bytes) :=
  if ix_unique def then
    match collect_index_values doc def with
    | Some values =>
        key_part ← encode_composite_key_part values;
        if bool_decide (key_part ∈ seen) then
          Err (Schema ("cannot create unique index '" ++ name ++
                       "': duplicate values for the indexed fields"))
        else Ok (key_part :: seen)
    | None => Ok seen
    end
  else Ok seen.

Lemma check_seen_spec doc seen :
  match check_seen doc seen with
  | Ok seen' =>
      ix_unique def = false ∧ seen' = seen ∨
      ix_unique def = true ∧
      (tuple_of doc def = None ∧ seen' = seen ∨
       ∃ raws, tuple_of doc def = Some raws ∧ (tuple_part raws ∉ seen) ∧ seen' = tuple_part raws :: seen)
  | Err _ =>
      (∃ e, Collections.entries coll1 doc = Err e) ∨
      ix_unique def = true ∧ ∃ raws, tuple_of doc def = Some raws ∧ tuple_part raws ∈ seen
  end.
Proof using Hbt.
  unfold check_seen. destruct (ix_unique def); [|by left].
  destruct (collect_index_values doc def) as [values|] eqn:Hc.
  2:{ right. split; [done|]. left. split; [|done]. destruct (tuple_of doc def) as [raws|] eqn:Ht; [|done].
      apply tuple_of_Some in Ht as (? & ? & _). congruence. }
  destruct (unique_tuple doc values Hc) as [(raws & -> & Ht)|(e & e' & -> & He)]; simpl; [|left; eauto].
  case_bool_decide; [right; eauto|]. right. split; [done|]. right. eauto.
Qed.

Lemma backfill_spec docs : ∀ seen,
  NoDup (map (λ d, id_of d) docs) →
  match backfill ns db name table def docs seen with
  | Ok es => backfilled seen docs es
  | Err _ => refused seen docs
  end.
Proof using Hbt.
  induction docs as [|doc docs IH]; intros seen Hnd.
  { split; [|by intros ? ?%elem_of_nil|by intros ??? ?%elem_of_nil|by intros ???? ?%elem_of_nil].
    intros k. split; [by intros ?%elem_of_nil|by intros (? & ?%elem_of_nil & _)]. }
  inversion Hnd as [|? ? Hn Hnd']; subst.
  assert (∀ d, d ∈ docs → id_of d ≠ id_of doc) as Hne.
  { intros d Hd E. apply Hn. apply list_elem_of_fmap. by exists d. }
  change (backfill ns db name table def (doc :: docs) seen) with
    (seen' ← check_seen doc seen; entries ← Collections.entries coll1 doc;
     rest ← backfill ns db name table def docs seen'; Ok (entries ++ rest)).
  pose proof (check_seen_spec doc seen) as Hs. destruct (check_seen doc seen) as [seen'|e]; simpl.
  2:{ destruct Hs as [[e' He]|[Hu (raws & Ht & Hin)]]; [left; exists doc, e'; split; [by left|done]|].
      right. split; [done|]. exists doc, raws. split_and!; [by left|done|by left]. }
  destruct (Collections.entries coll1 doc) as [es1|e1] eqn:He; simpl.
  2:{ left. exists doc, e1. split; [by left|done]. }
  specialize (IH seen' Hnd'). destruct (backfill ns db name table def docs seen') as [es2|e2]; simpl.
  - destruct IH as [K1 K2 K3 K4]. split.
    + intros k. rewrite map_app, elem_of_app, K1, (entries1_elem doc es1 k He). split.
      * intros [Hk|(d & Hd & Hk)]; [exists doc|exists d]; (split; [|done]); [by left|by right].
      * intros (d & [->|Hd]%elem_of_cons & Hk); [by left|right; eauto].
    + intros d [->|Hd]%elem_of_cons; eauto.
    + intros Hu d raws [->|Hd]%elem_of_cons Ht.
      * destruct Hs as [[? _]|[_ [[? _]|(raws' & Ht' & Hn' & _)]]]; congruence.
      * specialize (K3 Hu d raws Hd Ht). destruct Hs as [[? _]|[_ [[_ ->]|(? & _ & _ & ->)]]]; [congruence|done|].
        by apply not_elem_of_cons in K3 as [_ ?].
    + assert (∀ d raws, ix_unique def = true → d ∈ docs → tuple_of doc def = Some raws →
        tuple_of d def = Some raws → False) as Hx.
      { intros d raws Hu Hd Ht Htd. specialize (K3 Hu d raws Hd Htd).
        destruct Hs as [[? _]|[_ [[? _]|(raws' & Ht' & _ & ->)]]]; [congruence..|].
        apply not_elem_of_cons in K3 as [K3 _]. congruence. }
      intros Hu d1 d2 raws [->|Hd1]%elem_of_cons [->|Hd2]%elem_of_cons Ht1 Ht2; [done|exfalso; eauto..|].
      by eapply K4.
  - destruct IH as [(d & e & Hd & Hed)|(Hu & d & raws & Hd & Ht & Hcase)].
    { left. exists d, e. split; [by right|done]. }
    right. split; [done|]. exists d, raws. split; [by right|]. split; [done|].
    destruct Hcase as [Hin|(d' & Hd' & Hne' & Ht')].
    2:{ right. exists d'. split; [by right|done]. }
    destruct Hs as [[? _]|[_ [[_ ->]|(raws' & Ht' & _ & ->)]]]; [congruence|by left|].
    apply elem_of_cons in Hin as [E|Hin]; [|by left]. right. exists doc. split; [by left|].
    split; [intros E'; by eapply (Hne d)|].
    pose proof (tuple_of_length _ _ _ Ht) as [L1 _]. pose proof (tuple_of_length _ _ _ Ht') as [L2 _].
    assert (raws = raws') as ->; [|done].
    apply (tuple_part_inj raws raws' [] []); [congruence|by rewrite !app_nil_r].
Qed.
End backfill.

Section define.
Context {S : Type} `{KL : KvLaws S} `{FL : FieldsCodecLaws} `{DefCodec}
  (ns db table name : string) (schema : option TableDefinition) (ixs : list IndexDefinition)
  (fields : list string) (unique : bool).

Abbreviation coll := (MkCollection ns db table schema ixs).
Abbreviation def := (IndexDefinitions.btree name fields unique).
Abbreviation coll' := (Collections.with_index coll def).
Abbreviation coll1 := (MkCollection ns db table None [def]).

Lemma coll_inv_new c : coll_inv c coll → coll_inv c (Collections.new ns db table).
Proof.
  intros [I1 I2 I3]. split; [|exact I2|].
  - intros id b Hb. destruct (I1 id b Hb) as (doc & es & Hd & _). exists doc, []. split; [exact Hd|done].
  - intros k (idx & Hi%elem_of_nil & _). done.
Qed.
Lemma coll_wf_new : coll_wf coll → coll_wf (Collections.new ns db table).
Proof. intros [W1 W2 W3 _ _]. split; [done..|by intros ? ?%elem_of_nil|by intros ?? ?%elem_of_nil]. Qed.

Lemma build_index_entries_app doc l1 l2 e1 e2 :
  build_index_entries doc ns db table l1 = Ok e1 → build_index_entries doc ns db table l2 = Ok e2 →
  build_index_entries doc ns db table (l1 ++ l2) = Ok (e1 ++ e2).
Proof.
  intros He1 He2. revert e1 He1; induction l1 as [|i l1 IH]; intros e1 He1.
  - simpl in He1. injection He1 as <-. done.
  - cbn [app build_index_entries] in *. destruct (negb _); [by apply IH|]. case_bool_decide; [done|].
    destruct (collect_index_values doc i); [|by apply IH].
    apply bind_Ok_inv in He1 as (p & Hp & (e & He & [= <-])%bind_Ok_inv). rewrite Hp. simpl.
    by rewrite (IH e He).
Qed.

Hypothesis Hwf : coll_wf coll.
Hypothesis Hname : seg_ok name.
Hypothesis Hfresh : ∀ idx, idx ∈ ixs → ix_name idx ≠ name.

Lemma define_wf : coll_wf coll'.
Proof using Hwf Hname Hfresh.
  destruct Hwf as [W1 W2 W3 W4 W5]. split; [done..| |].
  - intros idx [Hi| ->%list_elem_of_singleton]%elem_of_app; [by apply W4|done].
  - intros i1 i2 [H1'| ->%list_elem_of_singleton]%elem_of_app [H2'| ->%list_elem_of_singleton]%elem_of_app E.
    + by apply W5.
    + by destruct (Hfresh i1 H1').
    + by destruct (Hfresh i2 H2').
    + done.
Qed.

(** Keys written by the definition lie in the new region or the catalog. *)
Lemma def_key_not_region k : index_region coll' k → k ≠ index_catalog_key ns db table name.
Proof.
  intros (idx & _ & _ & r & ->) E. rewrite index_prefix_shape, index_catalog_key_shape, <- app_assoc in E.
  apply app_inv_head in E. simpl in E. injection E as E _. by apply (f_equal Byte.to_N) in E.
Qed.
Lemma def_key_not_doc id : index_catalog_key ns db table name ≠ Collections.doc_key coll id.
Proof.
  unfold Collections.doc_key. rewrite document_key_shape, index_catalog_key_shape. intros E.
  apply app_inv_head in E. injection E as E _. by apply (f_equal Byte.to_N) in E.
Qed.
Lemma def_key_not_doc_prefix : ¬ table_prefix ns db table tag.DOCUMENT `prefix_of` index_catalog_key ns db table name.
Proof.
  intros [r E]. rewrite index_catalog_key_shape, table_prefix_shape, <- !app_assoc in E.
  apply app_inv_head in E. simpl in E. injection E as E _. by apply (f_equal Byte.to_N) in E.
Qed.

Context (c : OMap bytes bytes) (docs : list Document) (es : kvs) (b : bytes).
Hypothesis Hinv : coll_inv c coll.
Hypothesis Hempty : ∀ k, index_prefix ns db table name `prefix_of` k → oget k c = None.
Hypothesis Hdocs : ∀ id doc, stored c coll id = Some doc ↔ doc ∈ docs ∧ rid_id (doc_id doc) = id.
Hypothesis Hbf : backfilled ns db table def [] docs es.

Abbreviation c' := (oextend c ((index_catalog_key ns db table name, b) :: es)).

Lemma es_in_region k : k ∈ map fst es → index_region coll1 k.
Proof using Hbf.
  intros (doc & _ & He)%(bf_keys _ _ _ _ _ _ _ Hbf). eapply entry_in_region; [by left|done|exact He].
Qed.

Lemma define_other k :
  k ≠ index_catalog_key ns db table name → ¬ index_region coll1 k → oget k c' = oget k c.
Proof using Hbf.
  intros Hn Hr. apply oget_extend_notin. simpl. apply not_elem_of_cons. split; [done|].
  intros Hin. by apply Hr, es_in_region.
Qed.
Lemma define_stored id : stored c' coll' id = stored c coll id.
Proof using Hbf.
  unfold stored. change (Collections.doc_key coll' id) with (Collections.doc_key coll id).
  rewrite define_other; [done|by intros ?%symmetry%def_key_not_doc|].
  intros Hr. by eapply (region_not_doc coll1).
Qed.

Lemma define_entries doc : doc ∈ docs → ∃ e, Collections.entries coll' doc = Ok e.
Proof using Hinv Hdocs Hbf.
  intros Hd. destruct (bf_entries _ _ _ _ _ _ _ Hbf doc Hd) as [e1 He1].
  assert (stored c coll (rid_id (doc_id doc)) = Some doc) as Hst by (by apply Hdocs).
  destruct (stored_entries coll _ _ _ Hinv Hst) as [e0 He0].
  exists (e0 ++ e1). by apply build_index_entries_app.
Qed.

(** An entry key lies in the region of its own index only. *)
Lemma define_region doc i k : i ∈ ixs ++ [def] → entry_of coll doc i k →
  ∀ j, j ∈ ixs ++ [def] → index_prefix ns db table (ix_name j) `prefix_of` k → i = j.
Proof using Hwf Hname Hfresh Hinv Hempty Hdocs Hbf.
  intros Hi (vs & raws & _ & _ & Ek) j Hj [r Er]. pose proof define_wf as Hwf'.
  rewrite Er in Ek. apply (prefix_name_inj coll) in Ek as [En _]; [|by apply (wf_names _ Hwf')..].
  symmetry. by apply (wf_unique_names _ Hwf').
Qed.
Lemma define_key_iff k :
  (∃ doc i, doc ∈ docs ∧ i ∈ ixs ++ [def] ∧ IndexDefinitions.is_btree i = true ∧ entry_of coll doc i k) ↔
  ∃ id doc e, stored c' coll' id = Some doc ∧ Collections.entries coll' doc = Ok e ∧ k ∈ map fst e.
Proof using Hwf Hname Hfresh Hinv Hempty Hdocs Hbf.
  split.
  - intros (doc & i & Hd & Hi & Hb & He). destruct (define_entries doc Hd) as [e Hee].
    exists (rid_id (doc_id doc)), doc, e. rewrite define_stored. split_and!; [by apply Hdocs|done|].
    apply (entries_elem _ _ _ _ Hee). eauto 10.
  - intros (id & doc & e & Hst & Hee & Hin). rewrite define_stored in Hst. apply Hdocs in Hst as [Hd _].
    apply (entries_elem _ _ _ _ Hee) in Hin as (i & Hi & Hb & He). eauto 10.
Qed.
Lemma define_inv : coll_inv c' coll'.
Proof using Hwf Hname Hfresh Hinv Hempty Hdocs Hbf.
  pose proof define_wf as Hwf'. split.
  - intros id b' Hb'. change (Collections.doc_key coll' id) with (Collections.doc_key coll id) in Hb'.
    rewrite define_other in Hb'; [|by intros ?%symmetry%def_key_not_doc|
      intros Hr; by eapply (region_not_doc coll1)].
    destruct (inv_docs _ _ Hinv id b' Hb') as (doc & e0 & Hd & _).
    assert (stored c coll id = Some doc) as Hst by (unfold stored; rewrite Hb'; cbn [mbind option_bind]; by rewrite Hd).
    apply Hdocs in Hst as [Hin _]. destruct (define_entries doc Hin) as [e He]. by exists doc, e.
  - intros k v Hk Hp. eapply (inv_ids _ _ Hinv); [|exact Hp]. rewrite <- define_other; [exact Hk| |].
    + intros ->. by apply def_key_not_doc_prefix.
    + intros Hr. by eapply (region_not_doc_prefix coll1).
  - intros k Hk. pose proof (def_key_not_region k Hk) as Hnk.
    rewrite <- define_key_iff. destruct Hk as (j & Hj & Hjb & Hp).
    change (co_indexes coll') with (ixs ++ [def]) in Hj.
    pose proof Hj as [Hj'| ->%list_elem_of_singleton]%elem_of_app.
    + assert (index_region coll k) as Hr by (by exists j).
      rewrite define_other; [|done|].
      2:{ intros (? & ->%list_elem_of_singleton & _ & [r' Er']). destruct Hp as [r Er]. rewrite Er in Er'.
          apply (prefix_name_inj coll) in Er' as [En _]; [by destruct (Hfresh j Hj')|by apply (wf_names _ Hwf)|done]. }
      rewrite (inv_entries _ _ Hinv k Hr). split.
      * intros (id & doc & e & Hst & Hee & Hin). apply (entries_elem _ _ _ _ Hee) in Hin as (i & Hi & Hb & He).
        apply Hdocs in Hst as [Hd _]. exists doc, i. split_and!; [done|by apply elem_of_app; left|done..].
      * intros (doc & i & Hd & Hi & Hb & He). assert (i = j) as -> by (by eapply define_region).
        assert (stored c coll (rid_id (doc_id doc)) = Some doc) as Hst by (by apply Hdocs).
        destruct (stored_entries coll _ _ _ Hinv Hst) as [e Hee]. exists (rid_id (doc_id doc)), doc, e.
        split_and!; [done..|]. apply (entries_elem _ _ _ _ Hee). eauto 10.
    + split.
      * intros Hsome. destruct (decide (k ∈ map fst es)) as [Hin|Hn].
        { apply (bf_keys _ _ _ _ _ _ _ Hbf) in Hin as (doc & Hd & He). exists doc, def. split_and!; done. }
        rewrite oget_extend_notin in Hsome by (simpl; by apply not_elem_of_cons).
        rewrite Hempty in Hsome by done. by destruct Hsome.
      * intros (doc & i & Hd & Hi & Hb & He). assert (i = def) as -> by (by eapply define_region).
        apply oget_extend_in. simpl. right. apply (bf_keys _ _ _ _ _ _ _ Hbf). eauto 10.
Qed.
End define.

(** ** Removing an index *)
Section remove.
Context `{FieldsCodec} (ns db table name : string) (schema : option TableDefinition)
  (ixs : list IndexDefinition).

Definition other_indexes : list IndexDefinition :=
  List.filter (λ i, negb (String.eqb (ix_name i) name)) ixs.

Abbreviation coll := (MkCollection ns db table schema ixs).
Abbreviation coll' := (MkCollection ns db table schema other_indexes).

Lemma other_elem i : i ∈ other_indexes ↔ ix_name i ≠ name ∧ i ∈ ixs.
Proof. unfold other_indexes. by rewrite elem_filter_bool, negb_true_iff, String.eqb_neq. Qed.

Lemma build_index_entries_filter (p : IndexDefinition → bool) doc l es :
  build_index_entries doc ns db table l = Ok es →
  ∃ es', build_index_entries doc ns db table (List.filter p l) = Ok es'.
Proof.
  revert es; induction l as [|i l IH]; intros es He; [by exists []|]. cbn [List.filter].
  assert (∀ e', build_index_entries doc ns db table l = Ok e' →
    ∃ es', build_index_entries doc ns db table (if p i then i :: List.filter p l else List.filter p l) = Ok es')
    as Hgo.
  { intros e' Hl. destruct (IH e' Hl) as [es' Hes']. destruct (p i); [|eauto].
    cbn [build_index_entries] in *. destruct (negb _); [eauto|]. case_bool_decide; [done|].
    destruct (collect_index_values doc i); [|eauto].
    apply bind_Ok_inv in He as (q & Hq & _). rewrite Hq, Hes'. simpl. eauto. }
  cbn [build_index_entries] in He. destruct (negb _); [eauto|]. case_bool_decide; [done|].
  destruct (collect_index_values doc i); [|eauto].
  apply bind_Ok_inv in He as (q & _ & (e' & Hl & _)%bind_Ok_inv). eauto.
Qed.

Hypothesis Hwf : coll_wf coll.
Hypothesis Hname : seg_ok name.

Lemma remove_wf : coll_wf coll'.
Proof using Hwf.
  destruct Hwf as [W1 W2 W3 W4 W5]. split; [done..| |].
  - intros idx [_ Hi]%other_elem. by apply W4.
  - intros i1 i2 [_ H1']%other_elem [_ H2']%other_elem. by apply W5.
Qed.

Context (c c' : OMap bytes bytes).
Hypothesis Hinv : coll_inv c coll.
(** The deletion empties the region of the index and its catalog entry. *)
Hypothesis Hin : ∀ k, index_prefix ns db table name `prefix_of` k → oget k c' = None.
Hypothesis Hout : ∀ k, k ≠ index_catalog_key ns db table name →
  ¬ index_prefix ns db table name `prefix_of` k → oget k c' = oget k c.

Lemma doc_not_removed id :
  Collections.doc_key coll id ≠ index_catalog_key ns db table name ∧
  ¬ index_prefix ns db table name `prefix_of` Collections.doc_key coll id.
Proof.
  split; [by intros ?%symmetry%def_key_not_doc|]. intros Hp.
  apply (region_not_doc (MkCollection ns db table schema [IndexDefinitions.btree name [] false])
           (Collections.doc_key coll id) id); [|done].
  exists (IndexDefinitions.btree name [] false). split_and!; [by left|done|done].
Qed.
Lemma remove_stored id : stored c' coll' id = stored c coll id.
Proof using Hout.
  unfold stored. change (Collections.doc_key coll' id) with (Collections.doc_key coll id).
  by rewrite Hout by apply doc_not_removed.
Qed.

Lemma remove_inv : coll_inv c' coll'.
Proof using Hwf Hname Hinv Hin Hout.
  assert (∀ id doc, stored c coll id = Some doc → ∃ e, Collections.entries coll' doc = Ok e) as Hent.
  { intros id doc Hst. destruct (stored_entries coll _ _ _ Hinv Hst) as [e He].
    by eapply build_index_entries_filter. }
  split.
  - intros id b Hb. change (Collections.doc_key coll' id) with (Collections.doc_key coll id) in Hb.
    rewrite Hout in Hb by apply doc_not_removed.
    destruct (inv_docs _ _ Hinv id b Hb) as (doc & e0 & Hd & _).
    destruct (Hent id doc) as [e He]; [unfold stored; rewrite Hb; cbn [mbind option_bind]; by rewrite Hd|].
    by exists doc, e.
  - intros k v Hk Hp. assert (is_Some (oget k c)) as [v' Hv'].
    { destruct (decide (k = index_catalog_key ns db table name)) as [->|Hn].
      { by apply def_key_not_doc_prefix in Hp. }
      rewrite Hout in Hk; [by exists v|done|]. intros Hip. rewrite Hin in Hk; done. }
    by eapply (inv_ids _ _ Hinv).
  - intros k (j & Hj & Hjb & Hp). apply other_elem in Hj as [Hjn Hj].
    assert (index_region coll k) as Hr by (by exists j).
    assert (oget k c' = oget k c) as ->.
    { apply Hout.
      - eapply (def_key_not_region ns db table name schema ixs [] false). exists j.
        split_and!; [by apply elem_of_app; left|done|done].
      - intros [r2 E2]. destruct Hp as [r1 E1]. rewrite E1 in E2.
        apply (prefix_name_inj coll) in E2 as [En _]; [done|by apply (wf_names _ Hwf)|done]. }
    rewrite (inv_entries _ _ Hinv k Hr). split.
    + intros (id & doc & e & Hst & He & Hk). apply (entries_elem _ _ _ _ He) in Hk as (i & Hi & Hb & Hek).
      destruct (Hent id doc Hst) as [e' He']. exists id, doc, e'. rewrite remove_stored. split_and!; [done|done|].
      apply (entries_elem _ _ _ _ He'). exists i. split_and!; [|done|done]. apply other_elem. split; [|done].
      intros En. destruct Hek as (vs & raws & _ & _ & Ek). destruct Hp as [r1 E1]. rewrite E1 in Ek.
      apply (prefix_name_inj coll) in Ek as [En' _]; [congruence|by apply (wf_names _ Hwf)..].
    + intros (id & doc & e & Hst & He & Hk). rewrite remove_stored in Hst.
      apply (entries_elem _ _ _ _ He) in Hk as (i & [_ Hi]%other_elem & Hb & Hek).
      destruct (stored_entries coll _ _ _ Hinv Hst) as [e' He']. exists id, doc, e'. split_and!; [done..|].
      apply (entries_elem _ _ _ _ He'). eauto.
Qed.
End remove.

(** C19.  [DEFINE INDEX] on a table with a fresh name: either the table becomes
    consistent with the new index - every existing document backfilled, the
    definition in the catalog, the documents unchanged, and for a unique index
    no two documents with the same tuple - or nothing is written, because two
    documents share a tuple of the unique index, a document cannot be indexed
    on these fields, or the definition cannot be serialized. *)
Theorem define_index_contract {S} `{KL : KvLaws S} `{FL : FieldsCodecLaws} `{DefCodec}
    (ns db table name : string) (schema : option TableDefinition) (ixs : list IndexDefinition)
    (fields : list string) (unique : bool) (s : S) :
  let coll := MkCollection ns db table schema ixs in
  let def := IndexDefinitions.btree name fields unique in
  coll_wf coll → coll_inv (contents s) coll → seg_ok name → fields ≠ [] →
  (∀ idx, idx ∈ ixs → ix_name idx ≠ name) →
  (∀ k, index_prefix ns db table name `prefix_of` k → oget k (contents s) = None) →
  let shared := ∃ id1 id2 d1 d2 raws, id1 ≠ id2 ∧ stored (contents s) coll id1 = Some d1 ∧
                  stored (contents s) coll id2 = Some d2 ∧ tuple_of d1 def = Some raws ∧
                  tuple_of d2 def = Some raws in
  ∃ r s', exec_define_index ns db name table fields unique s = (r, s') ∧
    ((r = Ok QOk ∧ coll_wf (Collections.with_index coll def) ∧
      coll_inv (contents s') (Collections.with_index coll def) ∧
      (∀ id, stored (contents s') coll id = stored (contents s) coll id) ∧
      (∃ b, def_to_vec def = Ok b ∧ oget (index_catalog_key ns db table name) (contents s') = Some b) ∧
      (unique = true → ¬ shared)) ∨
     ((∃ e, r = Err e) ∧ s' = s ∧
      ((unique = true ∧ shared) ∨
       (∃ id doc e, stored (contents s) coll id = Some doc ∧ build_index_entries doc ns db table [def] = Err e) ∨
       ∃ e, def_to_vec def = Err e))).
Proof.
  intros coll def Hwf Hinv Hname Hf Hfresh Hempty shared.
  destruct (scan_all_run (Collections.new ns db table) (coll_wf_new ns db table schema ixs Hwf) s)
    as (docs & Hscan & [Hnd Hdocs] & _); [by eapply coll_inv_new|].
  change (∀ id doc, stored (contents s) coll id = Some doc ↔ doc ∈ docs ∧ rid_id (doc_id doc) = id) in Hdocs.
  pose proof (backfill_spec ns db table name def eq_refl docs [] Hnd) as Hbf.
  unfold exec_define_index. rewrite bool_decide_eq_false_2 by done. cbv zeta. fold def.
  rewrite (SE_bind_ok _ _ s docs s Hscan).
  destruct (backfill ns db name table def docs []) as [es|e] eqn:Ebf.
  2:{ rewrite (SE_bind_err _ _ s e s) by done. eexists _, s. split; [done|]. right.
      split_and!; [eauto|done|]. destruct Hbf as [(d & e' & Hd & He)|(Hu & d & raws & Hd & Ht & Hc)].
      - right; left. exists (rid_id (doc_id d)), d, e'. split; [by apply Hdocs|done].
      - left. split; [done|]. destruct Hc as [Hn%elem_of_nil|(d' & Hd' & Hne & Ht')]; [done|].
        exists (rid_id (doc_id d')), (rid_id (doc_id d)), d', d, raws.
        split_and!; [done|by apply Hdocs|by apply Hdocs|done|done]. }
  rewrite (SE_bind_ok _ _ s es s) by done. unfold index_definition_kv, ser_err.
  destruct (def_to_vec def) as [b|e] eqn:Ed.
  2:{ rewrite (SE_bind_err _ _ s (Serialization e) s) by done. eexists _, s. split; [done|]. right.
      split_and!; [eauto|done|]. right; right; eauto. }
  rewrite (SE_bind_ok _ _ s (index_catalog_key ns db table name, b) s) by done.
  destruct (write_batch_law ((index_catalog_key ns db table name, b) :: es) [] s) as (s' & Hw & Hc).
  unfold DllbStorage.write_batch. rewrite (SE_bind_ok _ _ s tt s' Hw).
  exists (Ok QOk), s'. split; [done|]. left. rewrite Hc. change (odelete_all (contents s) []) with (contents s).
  split_and!; [done|by apply define_wf|by eapply define_inv|intros id; by eapply (define_stored ns db table name schema ixs)| |].
  - exists b. split; [done|]. apply oget_extend_same; [by left|].
    intros v [E|Hin]%elem_of_cons; [by injection E|]. exfalso.
    assert (index_catalog_key ns db table name ∈ map fst es) as Hk
      by (apply list_elem_of_fmap; by exists (index_catalog_key ns db table name, v)).
    eapply (es_in_region ns db table name fields unique) in Hk; [|exact Hbf].
    eapply (def_key_not_region ns db table name schema ixs fields unique); [|done].
    destruct Hk as (i & Hi & ?). exists i. split; [|done]. apply elem_of_app. by right.
  - intros Hu (id1 & id2 & d1 & d2 & raws & Hne & H1' & H2' & T1 & T2). apply Hne.
    apply Hdocs in H1' as [I1 <-], H2' as [I2 <-].
    exact (bf_unique _ _ _ _ _ _ _ Hbf Hu d1 d2 raws I1 I2 T1 T2).
Qed.

Lemma define_index_contract_witness :
  ∃ s', exec_define_index "n" "d" "by_age" "people" ["age"%string] false MemRedb.empty = (Ok QOk, s') ∧
    coll_inv (contents s') (MkCollection "n" "d" "people" None
      [IndexDefinitions.btree "by_age" ["age"%string] false]).
Proof.
  destruct (define_index_contract "n" "d" "people" "by_age" None [] ["age"%string] false MemRedb.empty)
    as (r & s' & Hr & Hc).
  - exact (coll_wf_new "n" "d" "people" None (co_indexes people) people_wf).
  - apply coll_inv_empty.
  - compute_decide.
  - discriminate.
  - by intros ? ?%elem_of_nil.
  - reflexivity.
  - exists s'. destruct Hc as [(-> & _ & Hi & _)|([e ->] & _)]; [done|].
    exfalso. apply (f_equal fst) in Hr. vm_compute in Hr. discriminate Hr.
Defined.

(** [REMOVE INDEX] makes the table consistent with the remaining indexes:
    the catalog entry and the whole region of the index are gone, so that the
    name may be defined again, and the documents are unchanged. *)
Theorem remove_index_contract {S} `{KL : KvLaws S} `{FL : FieldsCodecLaws} `{DefCodec}
    (ns db table name : string) (ixs : list IndexDefinition) (s : S) :
  let coll := MkCollection ns db table None ixs in
  Collections.load ns db table s = (Ok coll, s) →
  coll_wf coll → coll_inv (contents s) coll → seg_ok name →
  let coll' := MkCollection ns db table None (other_indexes name ixs) in
  ∃ s', exec_remove_index ns db name table s = (Ok QOk, s') ∧
    coll_wf coll' ∧ coll_inv (contents s') coll' ∧
    (∀ id, stored (contents s') coll' id = stored (contents s) coll id) ∧
    oget (index_catalog_key ns db table name) (contents s') = None ∧
    (∀ k, index_prefix ns db table name `prefix_of` k → oget k (contents s') = None).
Proof.
  intros coll Hload Hwf Hinv Hname coll'.
  assert (load_index_definitions ns db table s = (Ok ixs, s)) as Hl.
  { revert Hload. unfold Collections.load, mbind, SE_bind.
    destruct (load_index_definitions ns db table s) as [[d|e] s1]; [|done]. by intros [= -> ->]. }
  unfold exec_remove_index. rewrite (SE_bind_ok _ _ s ixs s Hl). cbv zeta.
  set (p := index_prefix ns db table name). set (dk := index_catalog_key ns db table name).
  set (keys := map fst (orange p (prefix_end p) (contents s))).
  unfold DllbStorage.scan_prefix_keys. rewrite (SE_bind_ok _ _ s keys s (scan_prefix_keys_law p s)).
  destruct (write_batch_law [] (keys ++ [dk]) s) as (s' & Hw & Hc).
  unfold DllbStorage.write_batch. rewrite (SE_bind_ok _ _ s tt s' Hw).
  assert (∀ k, k ∈ keys ↔ is_Some (oget k (contents s)) ∧ p `prefix_of` k) as Hkeys.
  { intros k. unfold keys. rewrite list_elem_of_fmap. split.
    - intros ([k' v] & -> & [Hin Hr]%orange_elem). simpl in *.
      apply oget_iff in Hin; [|apply contents_sorted]. split; [by exists v|].
      apply prefix_range; [|by apply andb_true_iff].
      pose proof (index_base_end ns db table name []) as Hb. simpl in Hb. by rewrite app_nil_r in Hb.
    - intros [[v Hv] Hp]. exists (k, v). split; [done|]. apply orange_elem.
      split; [by apply oget_elem|]. rewrite <- andb_true_iff. apply prefix_range; [|done].
      pose proof (index_base_end ns db table name []) as Hb. simpl in Hb. by rewrite app_nil_r in Hb. }
  assert (∀ k, p `prefix_of` k → oget k (contents s') = None) as Hin.
  { intros k Hp. rewrite Hc. change (oextend ?m []) with m. destruct (oget k (contents s)) eqn:E.
    - apply oget_delete_all_in, elem_of_app. left. apply Hkeys. eauto.
    - by apply oget_delete_all_None. }
  assert (∀ k, k ≠ dk → ¬ p `prefix_of` k → oget k (contents s') = oget k (contents s)) as Hout.
  { intros k Hn Hp. rewrite Hc. change (oextend ?m []) with m. apply oget_delete_all_notin.
    intros [[_ ?]%Hkeys|Ek%list_elem_of_singleton]%elem_of_app; done. }
  exists s'. split_and!; [done|by apply remove_wf|by eapply remove_inv| |
    rewrite Hc; apply oget_delete_all_in, elem_of_app; right; by left|done].
  intros id. by eapply (remove_stored ns db table name None ixs).
Qed.

Lemma remove_index_contract_witness :
  ∃ s', exec_remove_index "n" "d" "by_age" "people" indexed_people = (Ok QOk, s') ∧
    coll_inv (contents s') (MkCollection "n" "d" "people" None
      [IndexDefinitions.btree "by_email" ["email"%string] true]).
Proof.
  destruct (remove_index_contract "n" "d" "people" "by_age" (co_indexes people) indexed_people
    indexed_people_load people_wf indexed_people_inv ltac:(compute_decide)) as (s' & Hr & _ & Hi & _).
  by exists s'.
Defined.
