(* ===== verification/Printer.v ===== *)
(** * A canonical printer and the parser's inverse law

    [print_query] writes a syntax tree as tokens; parsing them gives the tree
    back.  [consumes m l a l'] says that [m], started where the tokens [l]
    remain, returns [a] and leaves [l']. *)

From S2P Require Export Parser.

(** ** Printing *)
Definition comma_tail {A} (pr : A → list Token) (xs : list A) : list Token :=
  flat_map (λ x, Token.Comma :: pr x) xs.
Definition commas {A} (pr : A → list Token) (xs : list A) : list Token :=
  match xs with [] => [] | x :: xs' => pr x ++ comma_tail pr xs' end.

Fixpoint print_literal (l : Literal) : list Token :=
  match l with
  | LString s => [Token.StringLit s]
  | LInt n => [Token.IntLit n]
  | LFloat f => [Token.FloatLit f]
  | LBool b => [if b then Token.True_ else Token.False_]
  | LNone => [Token.None_]
  | LArray items => Token.LBracket :: commas print_literal items ++ [Token.RBracket]
  end.

Fixpoint print_item (i : SelectItem) : list Token :=
  match i with
  | SField name => [Token.Ident name]
  | SLiteral lit => print_literal lit
  | SFunctionCall name args =>
      Token.Ident name :: Token.LParen :: commas print_item args ++ [Token.RParen]
  end.

Definition print_op (op : CmpOp) : Token :=
  match op with
  | OpEq => Token.Eq | OpNe => Token.Ne | OpGt => Token.Gt
  | OpLt => Token.Lt | OpGte => Token.Gte | OpLte => Token.Lte
  end.

Fixpoint print_where (w : WhereClause) : list Token :=
  match w with
  | WCmp field op value => print_item field ++ print_op op :: print_literal value
  | WAnd l r => print_where l ++ Token.And :: print_where r
  | WIsNull field negated =>
      Token.Ident field :: Token.Is :: (if negated then [Token.Not] else []) ++ [Token.None_]
  end.

Abbreviation kw s := (Token.Ident s).

Definition print_filter (o : option WhereClause) : list Token :=
  match o with Some w => Token.Where :: print_where w | None => [] end.
Definition print_limit (o : option Z) : list Token :=
  match o with Some n => [Token.Limit; Token.IntLit n] | None => [] end.
Definition print_key (k : OrderKey) : list Token :=
  [Token.Ident (ok_field k); kw (if ok_descending k then "DESC" else "ASC")%string].
Definition print_order (ks : list OrderKey) : list Token :=
  match ks with [] => [] | _ => kw "ORDER" :: kw "BY" :: commas print_key ks end.
Definition print_assignment (f : string * Literal) : list Token :=
  Token.Ident f.1 :: Token.Eq :: print_literal f.2.
Definition print_set (fs : list (string * Literal)) : list Token :=
  match fs with [] => [] | _ => Token.Set_ :: commas print_assignment fs end.
Definition print_ident (s : string) : list Token := [Token.Ident s].
Definition print_ref (r : RecordRef) : list Token :=
  [Token.Ident (rr_table r); Token.Colon; Token.Ident (rr_id r)].
Definition print_target (t : FromTarget) : list Token :=
  match t with FromTable t => [Token.Ident t] | FromRecord r => print_ref r end.
Definition print_arrow (d : TraversalDirection) : Token :=
  match d with TOut => Token.Arrow | TIn => Token.BackArrow end.
Definition print_hop (h : TraversalHop) : list Token :=
  [print_arrow (th_direction h); Token.Ident (th_edge_type h);
   print_arrow (th_direction h); Token.Ident (th_dest_table h)].
Definition print_chain (c : TraversalChain) : list Token :=
  flat_map print_hop (tc_hops c) ++
  match tc_projection c with Some f => [Token.Dot; Token.Ident f] | None => [] end.
Definition print_fields (f : SelectFields) : list Token :=
  match f with
  | SAll => [Token.Star]
  | SNamed items => commas print_item items
  | STraversal c => print_chain c
  end.
Definition print_conflict (o : option OnConflict) : list Token :=
  match o with
  | None => []
  | Some OnUpdate => [Token.On; Token.Conflict; Token.Update]
  | Some (OnUpdateSet fs) => [Token.On; Token.Conflict; Token.Update] ++ print_set fs
  end.
Definition print_opt (k : string) (o : option string) : list Token :=
  match o with Some s => [kw k; Token.Ident s] | None => [] end.
Definition print_opt_int (k : string) (o : option Z) : list Token :=
  match o with Some n => [kw k; Token.IntLit n] | None => [] end.
Definition print_vector (v : list f64) : list Token := print_literal (LArray (map LFloat v)).
Definition on_table (t : string) : list Token := [Token.On; kw "TABLE"; Token.Ident t].

Definition print_statement (s : Statement) : list Token :=
  match s with
  | Create table id fields on_conflict =>
      Token.Create :: Token.Ident table ::
      match id with Some i => [Token.Colon; Token.Ident i] | None => [] end ++
      print_set fields ++ print_conflict on_conflict
  | Select fields from filter order_by limit =>
      Token.Select :: print_fields fields ++ Token.From :: print_target from ++
      print_filter filter ++ print_order order_by ++ print_limit limit
  | Delete table id => [Token.Delete; Token.Ident table; Token.Colon; Token.Ident id]
  | DeleteWhere table filter => Token.Delete :: Token.Ident table :: print_filter filter
  | Relate src edge_type dst fields =>
      Token.Relate :: print_ref src ++ Token.Arrow :: Token.Ident edge_type :: Token.Arrow ::
      print_ref dst ++ print_set fields
  | GraphCommunities table algorithm max_iterations resolution =>
      [Token.Graph; Token.Communities; Token.Ident table;
       kw "ALGORITHM"; kw (match algorithm with Louvain => "LOUVAIN" | LabelPropagation => "LP" end)%string;
       kw "MAX_ITER"; Token.IntLit max_iterations; kw "RESOLUTION"; Token.FloatLit resolution]
  | Update target fields filter =>
      Token.Update :: print_target target ++ print_set fields ++ print_filter filter
  | Count table filter group_by =>
      Token.Count :: Token.Ident table :: print_filter filter ++
      match group_by with Some f => [kw "GROUP"; kw "BY"; Token.Ident f] | None => [] end
  | GraphComponents table => [Token.Graph; Token.Components; Token.Ident table]
  | DefineIndex name table fields unique =>
      kw "DEFINE" :: kw "INDEX" :: Token.Ident name :: on_table table ++
      kw "FIELDS" :: commas print_ident fields ++ (if unique then [kw "UNIQUE"] else [])
  | RemoveIndex name table => kw "REMOVE" :: kw "INDEX" :: Token.Ident name :: on_table table
  | Compact => [kw "COMPACT"]
  | DefineFulltextIndex name table field analyzer =>
      kw "DEFINE" :: kw "FULLTEXT" :: kw "INDEX" :: Token.Ident name :: on_table table ++
      kw "FIELDS" :: Token.Ident field :: print_opt "ANALYZER" analyzer
  | DefineVectorIndex name table field dim metric =>
      kw "DEFINE" :: kw "VECTOR" :: kw "INDEX" :: Token.Ident name :: on_table table ++
      kw "FIELDS" :: Token.Ident field :: kw "DIMENSION" :: Token.IntLit dim :: print_opt "METRIC" metric
  | Search table field query filter limit =>
      kw "SEARCH" :: Token.Ident table :: Token.Ident field :: Token.StringLit query ::
      print_filter filter ++ print_limit limit
  | VectorSearch table field vector filter k =>
      kw "VECTOR" :: kw "SEARCH" :: Token.Ident table :: Token.Ident field :: print_vector vector ++
      print_filter filter ++ print_opt_int "K" k
  | HybridSearch table text_field query vector_field vector alpha filter limit =>
      kw "HYBRID" :: kw "SEARCH" :: Token.Ident table :: kw "TEXT" :: Token.Ident text_field ::
      Token.StringLit query :: kw "VECTOR" :: Token.Ident vector_field :: print_vector vector ++
      match alpha with Some a => [kw "ALPHA"; Token.FloatLit a] | None => [] end ++
      print_filter filter ++ print_limit limit
  | GraphPagerank table damping max_iterations limit =>
      [Token.Graph; kw "PAGERANK"; Token.Ident table; kw "DAMPING"; Token.FloatLit damping;
       kw "MAX_ITER"; Token.IntLit max_iterations] ++ print_limit limit
  | GraphCentrality table mode limit =>
      [Token.Graph; kw "CENTRALITY"; Token.Ident table;
       kw (match mode with Degree => "DEGREE" | InDegree => "INDEGREE" | OutDegree => "OUTDEGREE" end)%string]
      ++ print_limit limit
  | GraphPath src dst table max_depth =>
      [Token.Graph; kw "PATH"; Token.Ident src; Token.Arrow; Token.Ident dst; Token.On;
       Token.Ident table] ++ print_opt_int "MAX_DEPTH" max_depth
  | GraphEdges table filter => Token.Graph :: kw "EDGES" :: Token.Ident table :: print_filter filter
  end.

Definition print_query (q : Query) : list Token :=
  print_statement (q_statement q) ++
  [Token.Outcome; kw (match q_outcome q with Json => "JSON" | Toon => "TOON" | Csv => "CSV" end)%string].

(** ** What the grammar can express *)
Fixpoint wf_where (w : WhereClause) : Prop :=
  match w with
  | WAnd l r => match l with WAnd _ _ => False | _ => True end ∧ wf_where l ∧ wf_where r
  | _ => True
  end.
Definition wf_filter (o : option WhereClause) : Prop :=
  match o with Some w => wf_where w | None => True end.
Definition opt_positive (o : option Z) : Prop := match o with Some n => (0 < n)%Z | None => True end.

Definition wf_statement (s : Statement) : Prop :=
  match s with
  | Create _ _ fields oc =>
      fields ≠ [] ∧ match oc with Some (OnUpdateSet fs) => fs ≠ [] | _ => True end
  | Select fields _ filter _ limit =>
      match fields with SAll => True | SNamed items => items ≠ [] | STraversal c => tc_hops c ≠ [] end ∧
      wf_filter filter ∧ opt_positive limit
  | DeleteWhere _ filter | Count _ filter _ | GraphEdges _ filter => wf_filter filter
  | GraphCommunities _ _ n _ => (0 < n)%Z
  | Update _ fields filter => fields ≠ [] ∧ wf_filter filter
  | DefineIndex _ _ fields _ => fields ≠ []
  | DefineVectorIndex _ _ _ dim _ => (0 < dim)%Z
  | Search _ _ _ filter limit | HybridSearch _ _ _ _ _ _ filter limit => wf_filter filter ∧ opt_positive limit
  | VectorSearch _ _ _ filter k => wf_filter filter ∧ opt_positive k
  | GraphPagerank _ _ n limit => (0 < n)%Z ∧ opt_positive limit
  | GraphCentrality _ _ limit => opt_positive limit
  | GraphPath _ _ _ d => opt_positive d
  | _ => True
  end.

(** ** Consumption *)
Section consume.
Context (tokens : list Token).

Definition consumes {A} (m : P A) (l : list Token) (a : A) (l' : list Token) : Prop :=
  ∀ pos, drop pos tokens = l → ∃ pos', m pos = (Ok a, pos') ∧ drop pos' tokens = l'.

Lemma c_bind {A B} (m : P A) (f : A → P B) l a l1 b l2 :
  consumes m l a l1 → consumes (f a) l1 b l2 → consumes (m ≫= f) l b l2.
Proof.
  intros Hm Hf pos Hp. destruct (Hm pos Hp) as (p1 & E1 & H1). destruct (Hf p1 H1) as (p2 & E2 & H2).
  exists p2. by rewrite (SE_bind_ok _ _ _ _ _ E1).
Qed.
Lemma c_ret {A} (a : A) l : consumes (mret a) l a l.
Proof. intros pos Hp. by exists pos. Qed.
Lemma c_peek l : consumes (peek tokens) l (head l) l.
Proof.
  intros pos Hp. exists pos. split; [|done]. unfold peek. do 2 f_equal.
  rewrite <- Hp, head_lookup, lookup_drop. by rewrite Nat.add_0_r.
Qed.
Lemma c_advance t l : consumes advance (t :: l) tt l.
Proof.
  intros pos Hp. exists (S pos). split; [done|].
  by rewrite <- Nat.add_1_r, <- drop_drop, Hp.
Qed.
(** The fuel the top level uses exceeds what remains. *)
Lemma c_len {A} (m : P A) l a l' :
  (length l < fuel tokens → consumes m l a l') → consumes m l a l'.
Proof.
  intros H pos Hp. apply H; [|done]. rewrite <- Hp, length_drop. unfold fuel. lia.
Qed.

Lemma c_at_yes t l : consumes (at_token tokens t) (t :: l) true (t :: l).
Proof.
  unfold at_token. eapply c_bind; [apply c_peek|]. simpl. rewrite bool_decide_eq_true_2 by done. apply c_ret.
Qed.
Lemma c_at_no t l : head l ≠ Some t → consumes (at_token tokens t) l false l.
Proof.
  intros Hn. unfold at_token. eapply c_bind; [apply c_peek|].
  rewrite bool_decide_eq_false_2 by done. apply c_ret.
Qed.
Lemma c_expect t l : same_discriminant t t = true → consumes (expect tokens t) (t :: l) tt l.
Proof.
  intros Ht. unfold expect. eapply c_bind; [apply c_peek|]. simpl. rewrite Ht. apply c_advance.
Qed.
Lemma c_ident s l : consumes (expect_ident tokens) (Token.Ident s :: l) s l.
Proof.
  unfold expect_ident. eapply c_bind; [apply c_peek|]. simpl. eapply c_bind; [apply c_advance|]. apply c_ret.
Qed.
Lemma c_string s l : consumes (expect_string tokens) (Token.StringLit s :: l) s l.
Proof.
  unfold expect_string. eapply c_bind; [apply c_peek|]. simpl. eapply c_bind; [apply c_advance|]. apply c_ret.
Qed.
Lemma c_int w n l : (0 < n)%Z → consumes (expect_positive_int tokens w) (Token.IntLit n :: l) n l.
Proof.
  intros Hn. unfold expect_positive_int. eapply c_bind; [apply c_peek|]. simpl.
  rewrite (proj2 (Z.ltb_lt _ _) Hn). eapply c_bind; [apply c_advance|]. apply c_ret.
Qed.
Lemma c_number w f l : consumes (expect_number tokens w) (Token.FloatLit f :: l) f l.
Proof.
  unfold expect_number. eapply c_bind; [apply c_peek|]. simpl. eapply c_bind; [apply c_advance|]. apply c_ret.
Qed.
Lemma c_keyword k s l : is_kw k s = true → consumes (expect_keyword tokens k) (Token.Ident s :: l) tt l.
Proof.
  intros Hk. unfold expect_keyword. eapply c_bind; [apply c_peek|]. simpl. rewrite Hk. apply c_advance.
Qed.
Lemma c_consume_yes k s l :
  is_kw k s = true → consumes (consume_keyword tokens k) (Token.Ident s :: l) true l.
Proof.
  intros Hk. unfold consume_keyword. eapply c_bind; [apply c_peek|]. simpl. rewrite Hk.
  eapply c_bind; [apply c_advance|]. apply c_ret.
Qed.
Definition not_kw (k : string) (l : list Token) : bool :=
  match l with Token.Ident s :: _ => negb (is_kw k s) | _ => true end.
Lemma c_consume_no k l : not_kw k l = true → consumes (consume_keyword tokens k) l false l.
Proof.
  intros Hk. unfold consume_keyword. eapply c_bind; [apply c_peek|]. destruct l as [|[] l]; try apply c_ret.
  simpl in *. apply negb_true_iff in Hk. rewrite Hk. apply c_ret.
Qed.
Lemma c_op op l : consumes (parse_cmp_op tokens) (print_op op :: l) op l.
Proof.
  unfold parse_cmp_op. eapply c_bind; [apply c_peek|]. destruct op; simpl;
    (eapply c_bind; [apply c_advance|]; apply c_ret).
Qed.

(** Comma-separated lists of items that parse back before [Fw] continuations. *)
Lemma c_comma_list {A} f g (item : P A) (pr : A → list Token) (Fw : list Token → Prop) xs rest :
  (∀ x l, x ∈ xs → Fw l → length (pr x ++ l) < g → consumes item (pr x ++ l) x l) →
  (∀ l, Fw (Token.Comma :: l)) → Fw rest → head rest ≠ Some Token.Comma →
  length (comma_tail pr xs ++ rest) < f → length (comma_tail pr xs ++ rest) < S g →
  consumes (comma_list tokens f item) (comma_tail pr xs ++ rest) xs rest.
Proof.
  intros Hitem Hc Hr Hn. revert f g Hitem; induction xs as [|x xs IH]; intros [|f] g Hitem Hf Hg;
    simpl in *; try lia.
  - eapply c_bind; [by apply c_at_no|]. apply c_ret.
  - rewrite <- app_assoc in *. eapply c_bind; [apply c_at_yes|]. eapply c_bind; [apply c_advance|].
    eapply c_bind.
    + apply Hitem; [left|destruct xs; [exact Hr|apply Hc]|lia].
    + eapply c_bind; [|apply c_ret]. eapply (IH f g); [intros; apply Hitem; [by right|done..]| |];
        rewrite ?length_app in *; lia.
Qed.
Lemma c_comma_list1 {A} f g (item : P A) (pr : A → list Token) (Fw : list Token → Prop) xs rest :
  (∀ x l, x ∈ xs → Fw l → length (pr x ++ l) < g → consumes item (pr x ++ l) x l) →
  (∀ l, Fw (Token.Comma :: l)) → Fw rest → head rest ≠ Some Token.Comma → xs ≠ [] →
  length (commas pr xs ++ rest) < f → length (commas pr xs ++ rest) < g →
  consumes (comma_list1 tokens f item) (commas pr xs ++ rest) xs rest.
Proof.
  intros Hitem Hc Hr Hn Hne Hf Hg. destruct xs as [|x xs]; [done|]. simpl in *.
  unfold comma_list1. rewrite <- app_assoc in *. eapply c_bind.
  - apply Hitem; [left|destruct xs; [exact Hr|apply Hc]|lia].
  - eapply c_bind; [|apply c_ret]. rewrite length_app in *.
    eapply (c_comma_list f g); [intros; apply Hitem; [by right|done..]|done|done|done|lia|lia].
Qed.

(** *** Expressions *)
Lemma print_literal_cons l : ∃ t ts, print_literal l = t :: ts ∧ starts_literal (Some t) = true.
Proof. destruct l as [| | |[]| |]; simpl; eauto. Qed.

Lemma c_array f g items rest :
  (∀ x l, x ∈ items → length (print_literal x ++ l) < g →
     consumes (parse_literal tokens g) (print_literal x ++ l) x l) →
  items ≠ [] →
  length (commas print_literal items ++ Token.RBracket :: rest) ≤ f →
  length (commas print_literal items ++ Token.RBracket :: rest) < g →
  consumes (array_loop tokens f (parse_literal tokens g))
    (commas print_literal items ++ Token.RBracket :: rest) items rest.
Proof.
  intros Hitem Hne. destruct items as [|x items]; [done|]. clear Hne. simpl.
  revert x f Hitem; induction items as [|y items IH]; intros x f Hitem Hf Hg; rewrite <- app_assoc in *;
    destruct (print_literal_cons x) as (t & ts & E & _);
    assert (1 ≤ length (print_literal x)) as Hx by (rewrite E; simpl; lia); clear E;
    pose proof Hf as Hf'; rewrite length_app in Hf'; (destruct f as [|f]; [lia|]); cbn [array_loop].
  - eapply c_bind; [apply Hitem; [left|done]|].
    simpl. eapply c_bind; [apply c_peek|]. simpl. eapply c_bind; [apply c_advance|]. apply c_ret.
  - eapply c_bind; [apply Hitem; [left|done]|].
    simpl. eapply c_bind; [apply c_peek|]. simpl. eapply c_bind; [apply c_advance|].
    eapply c_bind; [|apply c_ret]. rewrite length_app in Hg. simpl in Hf', Hg.
    apply IH; [intros; apply Hitem; [by right|done]|lia|lia].
Qed.

Lemma c_literal lit : ∀ f rest, length (print_literal lit ++ rest) < f →
  consumes (parse_literal tokens f) (print_literal lit ++ rest) lit rest.
Proof.
  induction lit as [s|n|fl|b| |items IH] using Literal_nested_ind; intros [|f] rest Hf;
    try (simpl in Hf; lia); cbn [parse_literal print_literal app].
  1-3, 5: eapply c_bind; [apply c_peek|]; simpl; eapply c_bind; [apply c_advance|]; apply c_ret.
  - destruct b; (eapply c_bind; [apply c_peek|]; simpl; eapply c_bind; [apply c_advance|]; apply c_ret).
  - eapply c_bind; [apply c_peek|]. cbn [head]. unfold parse_array_literal.
    eapply c_bind; [by apply c_expect|]. rewrite <- app_assoc. cbn [app].
    simpl in Hf. rewrite <- app_assoc in Hf. simpl in Hf.
    destruct items as [|x items].
    + eapply c_bind; [apply c_at_yes|]. eapply c_bind; [apply c_advance|]. apply c_ret.
    + eapply c_bind; [apply c_at_no|].
      { destruct (print_literal_cons x) as (t & ts & E & Ht). simpl. rewrite E. simpl.
        intros [= ->]. done. }
      cbn iota. eapply c_bind; [|apply c_ret]. apply c_array; [|done|lia|lia].
      intros y l Hy Hl. rewrite Forall_forall in IH. by apply IH.
Qed.

(** What may follow a select item. *)
Definition item_end (l : list Token) : Prop :=
  head l ≠ Some Token.Colon ∧ head l ≠ Some Token.LParen.

Lemma c_item it : ∀ f rest, item_end rest → length (print_item it ++ rest) < f →
  consumes (parse_select_item tokens f) (print_item it ++ rest) it rest.
Proof.
  induction it as [n|l|n args IH] using SelectItem_nested_ind; intros [|f] rest [Hr1 Hr2] Hf;
    try lia; cbn [parse_select_item].
  - cbn [print_item app] in *. eapply c_bind; [apply c_peek|]. cbn [head starts_literal].
    eapply c_bind; [apply c_ident|]. destruct f as [|f]; [simpl in Hf; lia|].
    eapply c_bind; [cbn [name_loop]; eapply c_bind; [by apply c_at_no|apply c_ret]|].
    eapply c_bind; [by apply c_at_no|]. apply c_ret.
  - cbn [print_item] in *. destruct (print_literal_cons l) as (t & ts & E & Ht).
    eapply c_bind; [apply c_peek|]. assert (head (print_literal l ++ rest) = Some t) as -> by (by rewrite E).
    rewrite Ht. eapply c_bind; [by apply c_literal|]. apply c_ret.
  - cbn [print_item app] in *. eapply c_bind; [apply c_peek|]. cbn [head starts_literal].
    eapply c_bind; [apply c_ident|]. destruct f as [|f]; [simpl in Hf; lia|].
    eapply c_bind; [cbn [name_loop]; eapply c_bind; [by apply c_at_no|apply c_ret]|].
    eapply c_bind; [apply c_at_yes|]. eapply c_bind; [apply c_advance|].
    rewrite <- app_assoc. cbn [app]. simpl in Hf. rewrite <- app_assoc in Hf. simpl in Hf.
    destruct args as [|x args].
    + cbn [commas app]. eapply c_bind; [apply c_at_yes|]. eapply c_bind; [apply c_ret|].
      eapply c_bind; [by apply c_expect|]. apply c_ret.
    + eapply c_bind; [apply c_at_no|].
      { destruct x as [m|l|m a]; simpl; try done.
        destruct (print_literal_cons l) as (t & ts & E & Ht). rewrite E. simpl. by intros [= ->]. }
      cbn iota. eapply c_bind.
      { apply (c_comma_list1 (S f) (S f) _ print_item item_end); [|done|done|done|done|lia|lia].
        intros y l Hy Hl Hlen. rewrite Forall_forall in IH. by apply IH. }
      eapply c_bind; [by apply c_expect|]. apply c_ret.
Qed.

Lemma c_comparison w f rest :
  (∀ l r, w ≠ WAnd l r) → length (print_where w ++ rest) < f →
  consumes (parse_comparison tokens f) (print_where w ++ rest) w rest.
Proof.
  intros Hn Hf. unfold parse_comparison. destruct w as [field op value|l r|field negated].
  - cbn [print_where] in *. rewrite <- app_assoc in *. cbn [app] in *.
    eapply c_bind; [apply c_item; [by split; destruct op|done]|].
    eapply c_bind; [apply c_at_no; by destruct op|].
    eapply c_bind; [apply c_op|]. eapply c_bind; [|apply c_ret].
    apply c_literal. rewrite length_app in Hf. simpl in Hf. lia.
  - by destruct (Hn l r).
  - cbn [print_where app] in *. change (Token.Ident field :: ?l) with (print_item (SField field) ++ l) in *.
    eapply c_bind; [apply c_item; [by split|done]|]. eapply c_bind; [apply c_at_yes|].
    eapply c_bind; [apply c_advance|]. destruct negated; cbn [app].
    + eapply c_bind; [apply c_at_yes|].
      eapply c_bind; [eapply c_bind; [apply c_advance|apply c_ret]|].
      eapply c_bind; [by apply c_expect|]. apply c_ret.
    + eapply c_bind; [by apply c_at_no|]. eapply c_bind; [apply c_ret|].
      eapply c_bind; [by apply c_expect|]. apply c_ret.
Qed.

Lemma print_where_length w : 1 ≤ length (print_where w).
Proof.
  destruct w; simpl; rewrite ?length_app; simpl; lia.
Qed.

Lemma c_where w : ∀ f rest, wf_where w → head rest ≠ Some Token.And → length (print_where w ++ rest) < f →
  consumes (parse_where_expr tokens f) (print_where w ++ rest) w rest.
Proof.
  induction w as [field op value|l IHl r IHr|field negated]; intros [|f] rest Hw Hr Hf; try lia;
    cbn [parse_where_expr].
  - eapply c_bind; [by apply c_comparison|]. eapply c_bind; [by apply c_at_no|]. apply c_ret.
  - destruct Hw as (Hl & Hwl & Hwr). cbn [print_where] in *. rewrite <- app_assoc in *.
    eapply c_bind; [apply c_comparison; [intros ?? ->; done|done]|]. cbn [app].
    eapply c_bind; [apply c_at_yes|]. eapply c_bind; [apply c_advance|]. eapply c_bind; [|apply c_ret].
    apply IHr; [done|done|]. rewrite length_app in Hf. simpl in Hf. lia.
  - eapply c_bind; [by apply c_comparison|]. eapply c_bind; [by apply c_at_no|]. apply c_ret.
Qed.
End consume.
