(* ===== verification/ParserRoundtrip.v ===== *)
(** * Parsing inverts printing *)

From S2P Require Export Printer ParserTotal TokenizerRender.

Section clauses.
Context (tokens : list Token).
Local Abbreviation F := (fuel tokens).
Local Abbreviation C := (consumes tokens).

Lemma c_filter o rest :
  wf_filter o → head rest ≠ Some Token.And → head rest ≠ Some Token.Where →
  C (parse_where_clause tokens) (print_filter o ++ rest) o rest.
Proof.
  intros Hw Ha Hn. destruct o as [w|]; unfold parse_where_clause.
  - cbn [print_filter app]. eapply c_bind; [apply c_at_yes|]. eapply c_bind; [apply c_advance|].
    eapply c_bind; [|apply c_ret]. apply c_len. intros. by apply c_where.
  - eapply c_bind; [by apply c_at_no|]. apply c_ret.
Qed.
Lemma c_limit o rest :
  opt_positive o → head rest ≠ Some Token.Limit → C (parse_limit tokens) (print_limit o ++ rest) o rest.
Proof.
  intros Hp Hn. unfold parse_limit. destruct o as [n|]; cbn [print_limit app].
  - eapply c_bind; [apply c_at_yes|]. cbn [negb]. eapply c_bind; [apply c_advance|].
    eapply c_bind; [apply c_peek|]. cbn [head]. rewrite (proj2 (Z.ltb_lt _ _) Hp).
    eapply c_bind; [apply c_advance|]. apply c_ret.
  - eapply c_bind; [by apply c_at_no|]. apply c_ret.
Qed.
Lemma c_key k l : C (parse_order_key tokens) (print_key k ++ l) k l.
Proof.
  destruct k as [f []]; unfold parse_order_key; cbn [print_key app ok_field ok_descending].
  - eapply c_bind; [apply c_ident|]. eapply c_bind; [by apply c_consume_yes|]. apply c_ret.
  - eapply c_bind; [apply c_ident|]. eapply c_bind; [by apply c_consume_no|].
    eapply c_bind; [by apply c_consume_yes|]. apply c_ret.
Qed.
(** A non-empty comma-separated list of items that need no lookahead. *)
Lemma c_list {A} (item : P A) pr xs rest :
  (∀ x l, C item (pr x ++ l) x l) → xs ≠ [] → head rest ≠ Some Token.Comma →
  C (comma_list1 tokens F item) (commas pr xs ++ rest) xs rest.
Proof.
  intros Hi Hne Hr. apply c_len. intros Hl.
  apply (c_comma_list1 tokens F F item pr (λ _, True)); auto.
Qed.
Lemma c_order ks rest :
  not_kw "ORDER" rest = true → head rest ≠ Some Token.Comma →
  C (parse_order_by tokens) (print_order ks ++ rest) ks rest.
Proof.
  intros Hn Hr. unfold parse_order_by. destruct ks as [|k ks]; cbn [print_order app].
  - eapply c_bind; [by apply c_consume_no|]. apply c_ret.
  - eapply c_bind; [by apply c_consume_yes|]. cbn [negb]. eapply c_bind; [by apply c_keyword|].
    apply (c_list _ print_key); [apply c_key|done|done].
Qed.
Lemma c_assignment f l : C (parse_field_assignment tokens) (print_assignment f ++ l) f l.
Proof.
  destruct f as [n v]. unfold parse_field_assignment, print_assignment. cbn [fst snd app].
  eapply c_bind; [apply c_ident|]. eapply c_bind; [by apply c_expect|].
  eapply c_bind; [|apply c_ret]. apply c_len. intros. by apply c_literal.
Qed.
Lemma c_set fs rest :
  fs ≠ [] → head rest ≠ Some Token.Comma →
  C (parse_set_clause tokens) (commas print_assignment fs ++ rest) fs rest.
Proof. apply c_list, c_assignment. Qed.
Lemma c_idents fs rest :
  fs ≠ [] → head rest ≠ Some Token.Comma →
  C (comma_list1 tokens F (expect_ident tokens)) (commas print_ident fs ++ rest) fs rest.
Proof. apply c_list. intros. apply c_ident. Qed.
Lemma c_items its rest :
  its ≠ [] → item_end rest → head rest ≠ Some Token.Comma →
  C (comma_list1 tokens F (parse_select_item tokens F)) (commas print_item its ++ rest) its rest.
Proof.
  intros Hne Hr Hc. apply c_len. intros Hl.
  apply (c_comma_list1 tokens F F _ print_item item_end); try done.
  intros x l _ Hx Hlen. by apply c_item.
Qed.
Lemma c_ref r l : C (parse_record_ref tokens) (print_ref r ++ l) r l.
Proof.
  destruct r as [t i]. unfold parse_record_ref. cbn [print_ref app rr_table rr_id].
  eapply c_bind; [apply c_ident|]. eapply c_bind; [by apply c_expect|].
  eapply c_bind; [apply c_ident|]. apply c_ret.
Qed.
(** The table name and the optional id, as [SELECT] and [UPDATE] read them. *)
Lemma c_target {B} t (k : FromTarget → P B) l b l' :
  head l ≠ Some Token.Colon → C (k t) l b l' →
  C (table ← expect_ident tokens; x ← parse_target tokens table; k x) (print_target t ++ l) b l'.
Proof.
  intros Hc Hk. destruct t as [t|[t i]]; cbn [print_target print_ref rr_table rr_id app];
    (eapply c_bind; [apply c_ident|]); (eapply c_bind; [|exact Hk]); unfold parse_target.
  - eapply c_bind; [by apply c_at_no|]. apply c_ret.
  - eapply c_bind; [apply c_at_yes|]. eapply c_bind; [apply c_advance|].
    eapply c_bind; [apply c_ident|]. apply c_ret.
Qed.
Lemma c_conflict o rest :
  match o with Some (OnUpdateSet fs) => fs ≠ [] | _ => True end →
  head rest ≠ Some Token.On → head rest ≠ Some Token.Set_ → head rest ≠ Some Token.Comma →
  C (parse_on_conflict tokens) (print_conflict o ++ rest) o rest.
Proof.
  intros Hw Ho Hs Hc. unfold parse_on_conflict. destruct o as [[|fs]|].
  2: destruct fs as [|f fs]; [done|].
  1, 2: cbn [print_conflict print_set app]; eapply c_bind; [apply c_at_yes|]; cbn [negb];
    eapply c_bind; [apply c_advance|]; do 2 (eapply c_bind; [by apply c_expect|]).
  - eapply c_bind; [by apply c_at_no|]. apply c_ret.
  - eapply c_bind; [apply c_at_yes|]. eapply c_bind; [apply c_advance|].
    eapply c_bind; [by apply (c_set (f :: fs))|]. apply c_ret.
  - eapply c_bind; [by apply c_at_no|]. apply c_ret.
Qed.
Lemma c_on_table t l : C (parse_on_table tokens) (on_table t ++ l) t l.
Proof.
  unfold parse_on_table, on_table. cbn [app]. eapply c_bind; [by apply c_expect|].
  eapply c_bind; [by apply c_consume_yes|]. apply c_ident.
Qed.
Lemma c_opt k o rest :
  is_kw k k = true → not_kw k rest = true →
  C (optional_keyword tokens k (expect_ident tokens)) (print_opt k o ++ rest) o rest.
Proof.
  intros Hk Hn. unfold optional_keyword. destruct o as [x|]; cbn [print_opt app].
  - eapply c_bind; [by apply c_consume_yes|]. eapply c_bind; [apply c_ident|]. apply c_ret.
  - eapply c_bind; [by apply c_consume_no|]. apply c_ret.
Qed.
Lemma c_opt_int k w o rest :
  is_kw k k = true → opt_positive o → not_kw k rest = true →
  C (optional_keyword tokens k (expect_positive_int tokens w)) (print_opt_int k o ++ rest) o rest.
Proof.
  intros Hk Hp Hn. unfold optional_keyword. destruct o as [x|]; cbn [print_opt_int app].
  - eapply c_bind; [by apply c_consume_yes|]. eapply c_bind; [by apply c_int|]. apply c_ret.
  - eapply c_bind; [by apply c_consume_no|]. apply c_ret.
Qed.
Lemma c_vector v l : C (parse_vector_literal tokens F) (print_vector v ++ l) v l.
Proof.
  unfold parse_vector_literal, print_vector. eapply c_bind.
  - apply c_len. intros. by apply c_literal.
  - cbn iota. assert (vector_elements (map LFloat v) = Ok v) as ->; [|apply c_ret].
    unfold vector_elements. induction v as [|x v IH]; [done|]. simpl. by rewrite IH.
Qed.

Lemma c_hops hops : ∀ f rest,
  hops ≠ [] → head rest ≠ Some Token.Arrow → head rest ≠ Some Token.BackArrow →
  length (flat_map print_hop hops ++ rest) < f →
  C (hops_loop tokens f) (flat_map print_hop hops ++ rest) hops rest.
Proof.
  induction hops as [|[d e t] hops IH]; intros [|f] rest Hne H1 H2 Hf; try done; [simpl in Hf; lia|].
  cbn [hops_loop flat_map print_hop app th_direction th_edge_type th_dest_table] in *.
  simpl in Hf. eapply c_bind; [apply c_peek|]. cbn [head].
  assert (match print_arrow d with Token.Arrow => Some TOut | Token.BackArrow => Some TIn | _ => None end
          = Some d) as -> by (by destruct d).
  eapply c_bind; [apply c_advance|]. eapply c_bind; [apply c_ident|].
  eapply c_bind; [apply c_peek|]. cbn [head].
  eapply c_bind; [destruct d; apply c_advance|]. eapply c_bind; [apply c_ident|].
  eapply c_bind; [apply c_peek|]. destruct hops as [|h hops].
  - cbn [flat_map app] in *.
    destruct (head rest) as [[]|] eqn:E; first [apply c_ret|congruence].
  - assert (C (hs ← hops_loop tokens f; mret (MkTraversalHop d e t :: hs))
      (flat_map print_hop (h :: hops) ++ rest) (MkTraversalHop d e t :: h :: hops) rest) as Hr.
    { eapply c_bind; [apply IH; [done|done|done|simpl in *; lia]|]. apply c_ret. }
    destruct h as [[] ? ?]; exact Hr.
Qed.
Lemma c_chain c rest :
  tc_hops c ≠ [] → head rest ≠ Some Token.Arrow → head rest ≠ Some Token.BackArrow →
  head rest ≠ Some Token.Dot →
  C (parse_traversal_chain tokens) (print_chain c ++ rest) c rest.
Proof.
  destruct c as [hops pr]. cbn [tc_hops]. intros Hne H1 H2 H3. unfold parse_traversal_chain, print_chain.
  cbn [tc_hops tc_projection]. rewrite <- app_assoc.
  eapply c_bind.
  { apply c_len. intros. apply c_hops; [done|by destruct pr|by destruct pr|done]. }
  destruct hops as [|h hops]; [done|]. destruct pr as [p|]; cbn [app].
  - eapply c_bind; [apply c_at_yes|].
    eapply c_bind; [eapply c_bind; [apply c_advance|]; eapply c_bind; [apply c_ident|]; apply c_ret|].
    apply c_ret.
  - eapply c_bind; [by apply c_at_no|]. eapply c_bind; [apply c_ret|]. apply c_ret.
Qed.
Lemma c_fields fs rest :
  match fs with SAll => True | SNamed items => items ≠ [] | STraversal c => tc_hops c ≠ [] end →
  C (parse_select_fields tokens) (print_fields fs ++ Token.From :: rest) fs (Token.From :: rest).
Proof.
  intros Hw. unfold parse_select_fields. destruct fs as [|items|c].
  - eapply c_bind; [apply c_peek|]. cbn. eapply c_bind; [apply c_advance|]. apply c_ret.
  - eapply c_bind; [apply c_peek|]. destruct items as [|it items]; [done|].
    assert (∃ t ts, print_fields (SNamed (it :: items)) = t :: ts ∧
              t ≠ Token.Star ∧ t ≠ Token.Arrow ∧ t ≠ Token.BackArrow) as (t & ts & E & N1 & N2 & N3).
    { destruct it as [n|l|n args]; simpl; eauto 10.
      destruct (print_literal_cons l) as (t & ts & -> & Ht). eexists t, _. split; [done|].
      by split_and!; intros ->. }
    assert (C (its ← comma_list1 tokens F (parse_select_item tokens F); mret (SNamed its))
      (print_fields (SNamed (it :: items)) ++ Token.From :: rest) (SNamed (it :: items)) (Token.From :: rest)) as Hr.
    { eapply c_bind; [|apply c_ret]. by apply c_items. }
    rewrite E in *. cbn [app head]. destruct t; first [exact Hr|done].
  - eapply c_bind; [apply c_peek|]. destruct c as [[|[d e t] hops] pr]; [done|].
    assert (C (c ← parse_traversal_chain tokens; mret (STraversal c))
      (print_chain (MkTraversalChain (MkTraversalHop d e t :: hops) pr) ++ Token.From :: rest)
      (STraversal (MkTraversalChain (MkTraversalHop d e t :: hops) pr)) (Token.From :: rest)) as Hr.
    { eapply c_bind; [|apply c_ret]. by apply c_chain. }
    destruct d; exact Hr.
Qed.
End clauses.

(** ** Statements *)

(** Side conditions on the next token: every optional clause is split. *)
Ltac next_token :=
  repeat match goal with
  | |- context [print_filter ?o] => is_var o; destruct o
  | |- context [print_order ?o] => is_var o; destruct o
  | |- context [print_limit ?o] => is_var o; destruct o
  | |- context [print_set ?o] => is_var o; destruct o
  | |- context [print_conflict ?o] => is_var o; destruct o as [[]|]
  | |- context [print_opt _ ?o] => is_var o; destruct o
  | |- context [print_opt_int _ ?o] => is_var o; destruct o
  end; first [done | split; done].
(** Steps through a parsing function whose input shows what it reads. *)
Ltac consume :=
  cbn [app negb];
  lazymatch goal with
  | |- consumes _ (mret _) _ _ _ => apply c_ret
  | |- consumes _ (mbind _ _) _ _ _ => eapply c_bind; [consume|cbn iota; try consume]
  | |- consumes _ (peek _) _ _ _ => apply c_peek
  | |- consumes _ advance _ _ _ => apply c_advance
  | |- consumes _ (expect_ident _) _ _ _ => apply c_ident
  | |- consumes _ (expect_string _) _ _ _ => apply c_string
  | |- consumes _ (expect_number _ _) _ _ _ => apply c_number
  | |- consumes _ (expect_positive_int _ _) _ _ _ => by apply c_int
  | |- consumes _ (expect _ _) _ _ _ => by apply c_expect
  | |- consumes _ (expect_keyword _ _) _ _ _ => by apply c_keyword
  | |- consumes _ (consume_keyword _ _) _ _ _ =>
      first [by apply c_consume_yes | apply c_consume_no; next_token]
  | |- consumes _ (at_token _ _) _ _ _ => first [apply c_at_yes | apply c_at_no; next_token]
  | |- consumes _ (parse_record_ref _) _ _ _ => apply c_ref
  | |- consumes _ (parse_on_table _) _ _ _ => apply c_on_table
  | |- consumes _ (parse_vector_literal _ _) _ _ _ => apply c_vector
  | |- consumes _ (parse_select_fields _) _ _ _ => by apply c_fields
  | |- consumes _ (parse_where_clause _) _ _ _ => apply c_filter; [done|next_token..]
  | |- consumes _ (parse_order_by _) _ _ _ => apply c_order; next_token
  | |- consumes _ (parse_limit _) _ _ _ => apply c_limit; [done|next_token]
  | |- consumes _ (parse_set_clause _) _ _ _ => apply c_set; [done|next_token]
  | |- consumes _ (parse_on_conflict _) _ _ _ => apply c_conflict; [done|next_token..]
  | |- consumes _ (comma_list1 _ _ (expect_ident _)) _ _ _ => apply c_idents; [done|next_token]
  | |- consumes _ (optional_keyword _ _ (expect_ident _)) _ _ _ => apply c_opt; [done|next_token]
  | |- consumes _ (optional_keyword _ _ (expect_positive_int _ _)) _ _ _ =>
      apply c_opt_int; [done|done|next_token]
  end.

Section statements.
Context (tokens : list Token).
Local Abbreviation F := (fuel tokens).
Local Abbreviation C := (consumes tokens).
Local Notation "'END' r" := (Token.Outcome :: r) (at level 10).

Lemma c_create table id fields oc r :
  wf_statement (Create table id fields oc) →
  C (parse_create tokens) (print_statement (Create table id fields oc) ++ END r)
    (Create table id fields oc) (END r).
Proof.
  intros [Hf Hoc]. unfold parse_create. cbn [print_statement]. destruct fields as [|f fields]; [done|].
  cbn [print_set]. destruct id as [i|]; cbn [app]; rewrite <- ?app_assoc.
  all: consume.
Qed.
Lemma c_select fields from filter order_by limit r :
  wf_statement (Select fields from filter order_by limit) →
  C (parse_select tokens) (print_statement (Select fields from filter order_by limit) ++ END r)
    (Select fields from filter order_by limit) (END r).
Proof.
  intros (Hf & Hw & Hl). unfold parse_select. cbn [print_statement app]. rewrite <- ?app_assoc. cbn [app].
  rewrite <- ?app_assoc. eapply c_bind; [consume|]. eapply c_bind; [consume|]. eapply c_bind; [consume|].
  apply c_target; [next_token|]. consume.
Qed.
Lemma c_delete table id r :
  C (parse_delete tokens) (print_statement (Delete table id) ++ END r) (Delete table id) (END r).
Proof. unfold parse_delete. cbn [print_statement app]. consume. Qed.
Lemma c_delete_where table filter r :
  wf_filter filter →
  C (parse_delete tokens) (print_statement (DeleteWhere table filter) ++ END r)
    (DeleteWhere table filter) (END r).
Proof. intros Hf. unfold parse_delete. cbn [print_statement app]. consume. Qed.
Lemma c_relate src e dst fields r :
  C (parse_relate tokens) (print_statement (Relate src e dst fields) ++ END r)
    (Relate src e dst fields) (END r).
Proof.
  unfold parse_relate. cbn [print_statement app]. rewrite <- ?app_assoc. cbn [app]. rewrite <- ?app_assoc.
  destruct fields as [|f fields]; cbn [print_set]; consume.
Qed.
Lemma c_update target fields filter r :
  wf_statement (Update target fields filter) →
  C (parse_update tokens) (print_statement (Update target fields filter) ++ END r)
    (Update target fields filter) (END r).
Proof.
  intros [Hf Hw]. unfold parse_update. destruct fields as [|f fields]; [done|].
  cbn [print_statement print_set app]. rewrite <- ?app_assoc. cbn [app]. rewrite <- ?app_assoc.
  eapply c_bind; [consume|]. apply c_target; [done|]. consume.
Qed.
Lemma c_count table filter group_by r :
  wf_filter filter →
  C (parse_count tokens) (print_statement (Count table filter group_by) ++ END r)
    (Count table filter group_by) (END r).
Proof.
  intros Hf. unfold parse_count. cbn [print_statement app]. rewrite <- ?app_assoc.
  assert (C (parse_group_by tokens)
    (match group_by with Some f => [kw "GROUP"; kw "BY"; Token.Ident f] | None => [] end ++ END r)
    group_by (END r)) as Hg by (unfold parse_group_by; destruct group_by; consume).
  eapply c_bind; [consume|]. eapply c_bind; [consume|].
  eapply c_bind; [apply c_filter; [done|by destruct group_by..]|].
  eapply c_bind; [exact Hg|]. consume.
Qed.
Lemma c_pagerank table damping n limit r :
  wf_statement (GraphPagerank table damping n limit) →
  C (parse_graph tokens) (print_statement (GraphPagerank table damping n limit) ++ END r)
    (GraphPagerank table damping n limit) (END r).
Proof.
  intros [Hn Hl]. unfold parse_graph. cbn [print_statement app]. do 2 (eapply c_bind; [consume|]).
  cbn [head]. change (is_kw "PAGERANK" "PAGERANK") with true. cbn iota. unfold parse_graph_pagerank.
  do 2 (eapply c_bind; [consume|]).
  eapply (c_bind _ _ _ _ (damping, n) (print_limit limit ++ END r)); [|consume].
  apply c_len. intros Hf. cbn [app length] in Hf.
  destruct F as [|[|[|f]]] eqn:E; try lia. cbn [pagerank_loop]. consume.
Qed.
Lemma c_communities table alg n res r :
  (0 < n)%Z →
  C (parse_graph tokens) (print_statement (GraphCommunities table alg n res) ++ END r)
    (GraphCommunities table alg n res) (END r).
Proof.
  intros Hn. unfold parse_graph. cbn [print_statement app]. do 2 (eapply c_bind; [consume|]).
  cbn [head]. unfold parse_graph_communities.
  do 2 (eapply c_bind; [consume|]).
  eapply (c_bind _ _ _ _ (alg, n, res) (END r)); [|consume].
  apply c_len. intros Hf. cbn [length] in Hf.
  assert (∀ a l, C (parse_algorithm (match a with Louvain => "LOUVAIN" | LabelPropagation => "LP" end)) l a l)
    as Ha by (intros [] l; apply c_ret).
  destruct F as [|[|[|[|f]]]] eqn:E; try lia. cbn [communities_loop].
  eapply c_bind; [consume|]. cbn [head]. change (is_kw "ALGORITHM" "ALGORITHM") with true. cbn iota.
  do 2 (eapply c_bind; [consume|]). eapply c_bind; [apply Ha|]. eapply c_bind; [consume|]. cbn [head].
  change (is_kw "ALGORITHM" "MAX_ITER") with false. change (is_kw "MAX_ITER" "MAX_ITER") with true. cbn iota.
  do 2 (eapply c_bind; [consume|]). cbn [head]. rewrite (proj2 (Z.ltb_lt _ _) Hn). do 2 (eapply c_bind; [consume|]).
  cbn [head]. change (is_kw "ALGORITHM" "RESOLUTION") with false. change (is_kw "MAX_ITER" "RESOLUTION") with false.
  change (is_kw "RESOLUTION" "RESOLUTION") with true. cbn iota.
  consume. cbn [head]. consume. cbn [head]. consume.
Qed.

Lemma c_centrality table mode limit r :
  opt_positive limit →
  C (parse_graph tokens) (print_statement (GraphCentrality table mode limit) ++ END r)
    (GraphCentrality table mode limit) (END r).
Proof.
  intros Hl. unfold parse_graph. cbn [print_statement app]. do 2 (eapply c_bind; [consume|]).
  cbn [head]. change (is_kw "PAGERANK" "CENTRALITY") with false.
  change (is_kw "CENTRALITY" "CENTRALITY") with true. cbn iota. unfold parse_graph_centrality.
  destruct mode; consume.
Qed.
Lemma c_graph_path src dst table depth r :
  opt_positive depth →
  C (parse_graph tokens) (print_statement (GraphPath src dst table depth) ++ END r)
    (GraphPath src dst table depth) (END r).
Proof.
  intros Hl. unfold parse_graph. cbn [print_statement app]. do 2 (eapply c_bind; [consume|]).
  cbn [head]. change (is_kw "PAGERANK" "PATH") with false. change (is_kw "CENTRALITY" "PATH") with false.
  change (is_kw "PATH" "PATH") with true. cbn iota. unfold parse_graph_path. consume.
Qed.
Lemma c_graph_edges table filter r :
  wf_filter filter →
  C (parse_graph tokens) (print_statement (GraphEdges table filter) ++ END r)
    (GraphEdges table filter) (END r).
Proof.
  intros Hl. unfold parse_graph. cbn [print_statement app]. do 2 (eapply c_bind; [consume|]).
  cbn [head]. change (is_kw "PAGERANK" "EDGES") with false. change (is_kw "CENTRALITY" "EDGES") with false.
  change (is_kw "PATH" "EDGES") with false. change (is_kw "EDGES" "EDGES") with true. cbn iota.
  unfold parse_graph_edges. consume.
Qed.
Lemma c_graph_components table r :
  C (parse_graph tokens) (print_statement (GraphComponents table) ++ END r)
    (GraphComponents table) (END r).
Proof.
  unfold parse_graph. cbn [print_statement app]. do 2 (eapply c_bind; [consume|]).
  cbn [head]. unfold parse_graph_components. consume.
Qed.
Lemma c_define_index name table fields unique r :
  fields ≠ [] →
  C (parse_define tokens) (print_statement (DefineIndex name table fields unique) ++ END r)
    (DefineIndex name table fields unique) (END r).
Proof.
  intros Hf. unfold parse_define. cbn [print_statement app]. rewrite <- ?app_assoc. cbn [app].
  rewrite <- ?app_assoc. unfold parse_define_btree. destruct unique; consume.
Qed.
Lemma c_define_fulltext name table field analyzer r :
  C (parse_define tokens) (print_statement (DefineFulltextIndex name table field analyzer) ++ END r)
    (DefineFulltextIndex name table field analyzer) (END r).
Proof.
  unfold parse_define. cbn [print_statement app]. rewrite <- ?app_assoc. cbn [app].
  unfold parse_define_fulltext. consume.
Qed.
Lemma c_define_vector name table field dim metric r :
  (0 < dim)%Z →
  C (parse_define tokens) (print_statement (DefineVectorIndex name table field dim metric) ++ END r)
    (DefineVectorIndex name table field dim metric) (END r).
Proof.
  intros Hd. unfold parse_define. cbn [print_statement app]. rewrite <- ?app_assoc. cbn [app].
  unfold parse_define_vector. consume.
Qed.
Lemma c_remove name table r :
  C (parse_remove_index tokens) (print_statement (RemoveIndex name table) ++ END r)
    (RemoveIndex name table) (END r).
Proof. unfold parse_remove_index. cbn [print_statement on_table app]. consume. Qed.
Lemma c_search table field query filter limit r :
  wf_statement (Search table field query filter limit) →
  C (parse_search tokens) (print_statement (Search table field query filter limit) ++ END r)
    (Search table field query filter limit) (END r).
Proof.
  intros [Hf Hl]. unfold parse_search. cbn [print_statement app]. rewrite <- ?app_assoc. consume.
Qed.
Lemma c_vector_search table field vector filter k r :
  wf_statement (VectorSearch table field vector filter k) →
  C (parse_vector_search tokens) (print_statement (VectorSearch table field vector filter k) ++ END r)
    (VectorSearch table field vector filter k) (END r).
Proof.
  intros [Hf Hl]. unfold parse_vector_search. cbn [print_statement app]. rewrite <- ?app_assoc. consume.
Qed.
Lemma c_hybrid table tf query vf vector alpha filter limit r :
  wf_statement (HybridSearch table tf query vf vector alpha filter limit) →
  C (parse_hybrid tokens) (print_statement (HybridSearch table tf query vf vector alpha filter limit) ++ END r)
    (HybridSearch table tf query vf vector alpha filter limit) (END r).
Proof.
  intros [Hf Hl]. unfold parse_hybrid, optional_keyword. cbn [print_statement app].
  rewrite <- ?app_assoc. destruct alpha; consume.
Qed.

Lemma c_statement s r :
  wf_statement s → C (parse_statement tokens) (print_statement s ++ END r) s (END r).
Proof.
  intros Hw. unfold parse_statement. eapply c_bind; [apply c_peek|].
  destruct s.
  - exact (c_create _ _ _ _ r Hw).
  - exact (c_select _ _ _ _ _ r Hw).
  - exact (c_delete _ _ r).
  - exact (c_delete_where _ _ r Hw).
  - exact (c_relate _ _ _ _ r).
  - exact (c_communities _ _ _ _ r Hw).
  - exact (c_update _ _ _ r Hw).
  - exact (c_count _ _ _ r Hw).
  - exact (c_graph_components _ r).
  - exact (c_define_index _ _ _ _ r Hw).
  - exact (c_remove _ _ r).
  - change (C (parse_compact tokens) (kw "COMPACT" :: END r) Compact (END r)). unfold parse_compact. consume.
  - exact (c_define_fulltext _ _ _ _ r).
  - exact (c_define_vector _ _ _ _ _ r Hw).
  - exact (c_search _ _ _ _ _ r Hw).
  - exact (c_vector_search _ _ _ _ _ r Hw).
  - exact (c_hybrid _ _ _ _ _ _ _ _ r Hw).
  - exact (c_pagerank _ _ _ _ r Hw).
  - exact (c_centrality _ _ _ r Hw).
  - exact (c_graph_path _ _ _ _ r Hw).
  - exact (c_graph_edges _ _ r Hw).
Qed.
Lemma c_query q :
  wf_statement (q_statement q) → C (parse_query tokens) (print_query q) q [].
Proof.
  destruct q as [s o]. cbn [q_statement]. intros Hw. unfold parse_query, print_query. cbn [q_statement q_outcome].
  eapply c_bind; [by apply c_statement|].
  assert (C (parse_outcome tokens)
    [Token.Outcome; kw (match o with Json => "JSON" | Toon => "TOON" | Csv => "CSV" end)] o []) as Ho.
  { unfold parse_outcome. eapply c_bind; [consume|]. cbn iota beta. cbn [negb]. do 2 (eapply c_bind; [consume|]).
    destruct o; (eapply c_bind; [apply c_advance|apply c_ret]). }
  eapply c_bind; [exact Ho|]. eapply c_bind; [by apply c_at_no|]. eapply c_bind; [apply c_ret|].
  eapply c_bind; [apply c_peek|]. apply c_ret.
Qed.
End statements.

(** C22.  The parser inverts the printer: for every query the grammar can
    express - every statement kind, with nested literals, function calls,
    conjunctions, traversal chains and every optional clause - parsing its
    tokens returns the same syntax tree and nothing is left over. *)
Theorem parse_print_roundtrip q :
  wf_statement (q_statement q) → parse_tokens (print_query q) = Some (Ok q).
Proof.
  intros Hw. destruct (c_query (print_query q) q Hw 0 eq_refl) as (pos & E & _).
  unfold parse_tokens. by rewrite E.
Qed.

Definition example_query : Query :=
  MkQuery
    (Select (STraversal (MkTraversalChain [MkTraversalHop TOut "follows" "user"; MkTraversalHop TIn "likes" "post"]
               (Some "title")))
       (FromRecord (MkRecordRef "user" "a"))
       (Some (WAnd (WCmp (SFunctionCall "len" [SField "name"; SLiteral (LInt 2)]) OpGte
                      (LArray [LInt 1; LArray []; LBool false]))
                   (WIsNull "x" true)))
       [MkOrderKey "age" true; MkOrderKey "name" false] (Some 5%Z)) Toon.
Lemma parse_print_roundtrip_witness :
  parse_tokens (print_query example_query) = Some (Ok example_query).
Proof. apply (parse_print_roundtrip example_query). by simpl. Defined.

(** From text to tree: rendering the printed query as text and parsing
    that text - tokenizer and parser together - returns the query, when its
    tokens have a text. *)
Theorem parse_text_roundtrip q :
  wf_statement (q_statement q) → Forall renderable (print_query q) →
  parse (render_text (print_query q)) = Some (Ok q).
Proof.
  intros Hw Hr. destruct (c_query (print_query q) q Hw 0 eq_refl) as (pos & E & _).
  unfold parse, tokenize, tokenize_chars. rewrite chars_render_text by done.
  rewrite tokenize_loop_render by done. simpl. unfold parse_tokens. by rewrite E.
Qed.
Lemma parse_text_roundtrip_witness :
  parse (render_text (print_query example_query)) = Some (Ok example_query).
Proof.
  apply (parse_text_roundtrip example_query); [by simpl|].
  repeat constructor; try done; try (by vm_compute); intros E; vm_compute in E; done.
Defined.
