(* ===== verification/MetaAst.v ===== *)
(** * MetaAST nodes (crates/code-intel/src/meta_ast.rs)

    The node types with their layers and atom names, nodes with metadata and
    children, and the induction over child nodes the tree walks use. *)

From S2P Require Export Core.
Open Scope nat_scope.

Module Layer.
Inductive t := Core | Extended | Structural | Native | Special.
End Layer.

Module NodeType.
Inductive t :=
  | Literal | Variable_ | BinaryOp | UnaryOp | FunctionCall | Conditional | EarlyReturn | Throw | Block | List
  | Map | Pair | Tuple | Assignment | InlineMatch | Range | StringInterpolation | BinSegment | Comment | Loop
  | Lambda | CollectionOp | PatternMatch | MatchArm | ExceptionHandling | AsyncOperation | Yield
  | Comprehension | Generator | Filter | Pipe | Pin | AssertType | Container | FunctionDef | Param
  | AttributeAccess | AugmentedAssignment | Property | Import | TypeAnnotation | Decorator | RecordUpdate
  | ChildSpec | LanguageSpecific | Wildcard.

Definition layer (self : t) : Layer.t :=
  match self with
  | Literal | Variable_ | BinaryOp | UnaryOp | FunctionCall | Conditional | EarlyReturn | Throw | Block | List
  | Map | Pair | Tuple | Assignment | InlineMatch | Range | StringInterpolation | BinSegment | Comment => Layer.Core
  | Loop | Lambda | CollectionOp | PatternMatch | MatchArm | ExceptionHandling | AsyncOperation | Yield
  | Comprehension | Generator | Filter | Pipe | Pin | AssertType => Layer.Extended
  | Container | FunctionDef | Param | AttributeAccess | AugmentedAssignment | Property | Import
  | TypeAnnotation | Decorator | RecordUpdate | ChildSpec => Layer.Structural
  | LanguageSpecific => Layer.Native
  | Wildcard => Layer.Special
  end.

Definition atom_name (self : t) : string :=
  match self with
  | Literal => "literal" | Variable_ => "variable" | BinaryOp => "binary_op" | UnaryOp => "unary_op"
  | FunctionCall => "function_call" | Conditional => "conditional" | EarlyReturn => "early_return"
  | Throw => "throw" | Block => "block" | List => "list" | Map => "map" | Pair => "pair" | Tuple => "tuple"
  | Assignment => "assignment" | InlineMatch => "inline_match" | Range => "range"
  | StringInterpolation => "string_interpolation" | BinSegment => "bin_segment" | Comment => "comment"
  | Loop => "loop" | Lambda => "lambda" | CollectionOp => "collection_op" | PatternMatch => "pattern_match"
  | MatchArm => "match_arm" | ExceptionHandling => "exception_handling" | AsyncOperation => "async_operation"
  | Yield => "yield" | Comprehension => "comprehension" | Generator => "generator" | Filter => "filter"
  | Pipe => "pipe" | Pin => "pin" | AssertType => "assert_type" | Container => "container"
  | FunctionDef => "function_def" | Param => "param" | AttributeAccess => "attribute_access"
  | AugmentedAssignment => "augmented_assignment" | Property => "property" | Import => "import"
  | TypeAnnotation => "type_annotation" | Decorator => "decorator" | RecordUpdate => "record_update"
  | ChildSpec => "child_spec" | LanguageSpecific => "language_specific" | Wildcard => "_"
  end.

Definition from_atom (name : string) : option t :=
  if String.eqb name "literal" then Some Literal
  else if String.eqb name "variable" then Some Variable_
  else if String.eqb name "binary_op" then Some BinaryOp
  else if String.eqb name "unary_op" then Some UnaryOp
  else if String.eqb name "function_call" then Some FunctionCall
  else if String.eqb name "conditional" then Some Conditional
  else if String.eqb name "early_return" then Some EarlyReturn
  else if String.eqb name "throw" then Some Throw
  else if String.eqb name "block" then Some Block
  else if String.eqb name "list" then Some List
  else if String.eqb name "map" then Some Map
  else if String.eqb name "pair" then Some Pair
  else if String.eqb name "tuple" then Some Tuple
  else if String.eqb name "assignment" then Some Assignment
  else if String.eqb name "inline_match" then Some InlineMatch
  else if String.eqb name "range" then Some Range
  else if String.eqb name "string_interpolation" then Some StringInterpolation
  else if String.eqb name "bin_segment" then Some BinSegment
  else if String.eqb name "comment" then Some Comment
  else if String.eqb name "loop" then Some Loop
  else if String.eqb name "lambda" then Some Lambda
  else if String.eqb name "collection_op" then Some CollectionOp
  else if String.eqb name "pattern_match" then Some PatternMatch
  else if String.eqb name "match_arm" then Some MatchArm
  else if String.eqb name "exception_handling" then Some ExceptionHandling
  else if String.eqb name "async_operation" then Some AsyncOperation
  else if String.eqb name "yield" then Some Yield
  else if String.eqb name "comprehension" then Some Comprehension
  else if String.eqb name "generator" then Some Generator
  else if String.eqb name "filter" then Some Filter
  else if String.eqb name "pipe" then Some Pipe
  else if String.eqb name "pin" then Some Pin
  else if String.eqb name "assert_type" then Some AssertType
  else if String.eqb name "container" then Some Container
  else if String.eqb name "function_def" then Some FunctionDef
  else if String.eqb name "param" then Some Param
  else if String.eqb name "attribute_access" then Some AttributeAccess
  else if String.eqb name "augmented_assignment" then Some AugmentedAssignment
  else if String.eqb name "property" then Some Property
  else if String.eqb name "import" then Some Import
  else if String.eqb name "type_annotation" then Some TypeAnnotation
  else if String.eqb name "decorator" then Some Decorator
  else if String.eqb name "record_update" then Some RecordUpdate
  else if String.eqb name "child_spec" then Some ChildSpec
  else if String.eqb name "language_specific" then Some LanguageSpecific
  else if String.eqb name "_" then Some Wildcard
  else None.
End NodeType.

#[export] Instance NodeType_eq_dec : EqDecision NodeType.t.
Proof. solve_decision. Defined.

(** ** Nodes *)
Inductive MetaValue : Type :=
  | MString (s : string) | MInt (n : Z) | MFloat (f : f64) | MBool (b : bool) | MNull
  | MAtom (s : string) | MList (l : list MetaValue) | MNode (n : MetaNode)
with NodeChildren : Type :=
  | CValue (v : MetaValue)
  | CNodes (ns : list MetaNode)
with MetaNode : Type :=
  | MkNode (nt : NodeType.t) (m : list (string * MetaValue)) (c : NodeChildren).

Definition node_type (self : MetaNode) : NodeType.t := match self with MkNode nt _ _ => nt end.
Definition meta (self : MetaNode) : list (string * MetaValue) := match self with MkNode _ m _ => m end.
Definition children (self : MetaNode) : NodeChildren := match self with MkNode _ _ c => c end.

(** [#[derive(PartialEq)]]: structural, with IEEE equality on floats. *)
Fixpoint value_eqb (a b : MetaValue) {struct a} : bool :=
  match a, b with
  | MString x, MString y | MAtom x, MAtom y => String.eqb x y
  | MInt x, MInt y => Z.eqb x y
  | MFloat x, MFloat y => f64_eqb x y
  | MBool x, MBool y => Bool.eqb x y
  | MNull, MNull => true
  | MList x, MList y => Values.list_eqb value_eqb x y
  | MNode x, MNode y => node_eqb x y
  | _, _ => false
  end
with children_eqb (a b : NodeChildren) {struct a} : bool :=
  match a, b with
  | CValue x, CValue y => value_eqb x y
  | CNodes x, CNodes y => Values.list_eqb node_eqb x y
  | _, _ => false
  end
with node_eqb (a b : MetaNode) {struct a} : bool :=
  match a, b with
  | MkNode ta ma ca, MkNode tb mb cb =>
      bool_decide (ta = tb) && Values.list_eqb (λ p q, String.eqb p.1 q.1 && value_eqb p.2 q.2) ma mb &&
      children_eqb ca cb
  end.

Module MetaNodes.
Definition leaf (node_type : NodeType.t) (meta : list (string * MetaValue)) (value : MetaValue) : MetaNode :=
  MkNode node_type meta (CValue value).
Definition composite (node_type : NodeType.t) (meta : list (string * MetaValue)) (children : list MetaNode) : MetaNode :=
  MkNode node_type meta (CNodes children).

Definition get_meta (self : MetaNode) (key : string) : option MetaValue :=
  snd <$> List.find (λ kv, String.eqb kv.1 key) (meta self).
Definition get_meta_str (self : MetaNode) (key : string) : option string :=
  match get_meta self key with
  | Some (MString s) => Some s
  | Some (MAtom s) => Some s
  | _ => None
  end.
Definition child_nodes (self : MetaNode) : list MetaNode :=
  match children self with CNodes nodes => nodes | CValue _ => [] end.
Definition leaf_value (self : MetaNode) : option MetaValue :=
  match children self with CValue v => Some v | CNodes _ => None end.
Definition layer (self : MetaNode) : Layer.t := NodeType.layer (node_type self).
End MetaNodes.
Import MetaNodes.

(** ** Induction over child nodes *)
Fixpoint MetaNode_child_ind (P : MetaNode → Prop)
    (Hstep : ∀ n, Forall P (child_nodes n) → P n) (n : MetaNode) {struct n} : P n :=
  Hstep n
    match n return Forall P (child_nodes n) with
    | MkNode _ _ (CNodes ns) =>
        (fix go (l : list MetaNode) : Forall P l :=
          match l with
          | [] => Forall_nil_2 _
          | c :: l' => Forall_cons_2 _ _ _ (MetaNode_child_ind P Hstep c) (go l')
          end) ns
    | MkNode _ _ (CValue _) => Forall_nil_2 _
    end.

(** The nodes of a tree, each before its children. *)
Fixpoint preorder (n : MetaNode) : list MetaNode :=
  n :: match n with MkNode _ _ (CNodes ns) => concat (map preorder ns) | _ => [] end.
Lemma preorder_eq n : preorder n = n :: concat (map preorder (child_nodes n)).
Proof. by destruct n as [? ? []]. Qed.

(** ** Atom names *)
Lemma from_atom_name t : NodeType.from_atom (NodeType.atom_name t) = Some t.
Proof. by destruct t. Qed.
Lemma from_atom_Some name t : NodeType.from_atom name = Some t → NodeType.atom_name t = name.
Proof.
  unfold NodeType.from_atom.
  repeat match goal with
  | |- context [String.eqb name ?s] => destruct (String.eqb_spec name s) as [->|_]; [by intros [= <-]|]
  end. discriminate.
Qed.

(** Atom names and node types correspond one to one: [from_atom] accepts
    exactly the 46 atom names and returns the type that has the name, so the
    names survive a trip through the interchange format in both directions. *)
Theorem atom_roundtrip (name : string) (t : NodeType.t) :
  NodeType.from_atom name = Some t ↔ NodeType.atom_name t = name.
Proof. split; [apply from_atom_Some|]. intros <-. apply from_atom_name. Qed.
