(* ===== verification/Extract.v ===== *)
(** * Tree walks and extraction (crates/code-intel/src/extract.rs)

    The pre-order walk with its mutable closure as a state, and the
    extractors built on it; their specification is a fold over the pre-order
    list of nodes. *)

From stdpp Require Import gmap.
From S2P Require Export MetaAst.
Import MetaNodes.
Open Scope nat_scope.

Record FunctionInfo := MkFunction {
  fi_name : string; fi_arity : Z; fi_params : list string; fi_visibility : string; fi_line : option Z }.
Record ImportInfo := MkImport { ii_source : string; ii_import_type : string; ii_language : option string }.

(** ** Walking *)
Fixpoint walk {St} (f : St → MetaNode → St) (st : St) (node : MetaNode) {struct node} : St :=
  match node with
  | MkNode _ _ (CNodes ns) => fold_left (walk f) ns (f st node)
  | _ => f st node
  end.

Definition node_count (node : MetaNode) : nat := walk (λ count _, count + 1) 0 node.
Fixpoint depth (node : MetaNode) : nat :=
  1 + match node with MkNode _ _ (CNodes ns) => max_list (map depth ns) | _ => 0 end.

(** ** Extractors *)
Definition or_else (o : option string) (d : string) : string := default d o.
Definition meta_int (node : MetaNode) (key : string) : option Z :=
  match get_meta node key with Some (MInt l) => Some l | _ => None end.
(** [*a as usize]. *)
Definition arity_of (node : MetaNode) : Z :=
  match get_meta node "arity" with Some (MInt a) => as_u64 a | _ => 0 end.
Definition params_of (node : MetaNode) : list string :=
  match get_meta node "params" with
  | Some (MList param_list) => omap (λ p, match p with MString s => Some s | _ => None end) param_list
  | _ => []
  end.
Definition function_info (n : MetaNode) : FunctionInfo :=
  MkFunction (or_else (get_meta_str n "name") "") (arity_of n) (params_of n)
    (or_else (get_meta_str n "visibility") "public") (meta_int n "line").
Definition extract_functions (node : MetaNode) : list FunctionInfo :=
  walk (λ functions n,
    if decide (node_type n = NodeType.FunctionDef) then functions ++ [function_info n] else functions) [] node.

Definition import_info (n : MetaNode) : ImportInfo :=
  MkImport (or_else (get_meta_str n "source") "") (or_else (get_meta_str n "import_type") "import")
    (get_meta_str n "language").
Definition extract_imports (node : MetaNode) : list ImportInfo :=
  walk (λ imports n,
    if decide (node_type n = NodeType.Import) then imports ++ [import_info n] else imports) [] node.

Definition extract_variables (node : MetaNode) : gset string :=
  walk (λ vars n,
    if decide (node_type n = NodeType.Variable_) then
      match leaf_value n with Some (MString name) => {[ name ]} ∪ vars | _ => vars end
    else vars) ∅ node.

Definition extract_calls (node : MetaNode) : list string :=
  walk (λ calls n,
    if decide (node_type n = NodeType.FunctionCall) then
      match get_meta_str n "name" with Some name => calls ++ [name] | None => calls end
    else calls) [] node.

(** ** Walks are folds over the pre-order *)
Lemma walk_eq {St} (f : St → MetaNode → St) st n : walk f st n = fold_left (walk f) (child_nodes n) (f st n).
Proof. by destruct n as [? ? []]. Qed.
Lemma walk_preorder {St} (f : St → MetaNode → St) n : ∀ st, walk f st n = fold_left f (preorder n) st.
Proof.
  induction n as [n IH] using MetaNode_child_ind. intros st. rewrite walk_eq, preorder_eq. simpl.
  generalize (f st n). induction IH as [|c l Hc _ IHl]; intros s; simpl; [done|].
  by rewrite Hc, fold_left_app, IHl.
Qed.

(** A walk that collects what [g] finds. *)
Lemma walk_collect {A} (g : MetaNode → option A) n :
  walk (λ acc n, match g n with Some a => acc ++ [a] | None => acc end) [] n = omap g (preorder n).
Proof.
  rewrite walk_preorder.
  enough (∀ l acc, fold_left (λ acc m, match g m with Some a => acc ++ [a] | None => acc end) l acc = acc ++ omap g l) as -> by done.
  induction l as [|x l IH]; intros acc; simpl; [by rewrite app_nil_r|].
  rewrite IH. destruct (g x); simpl; [by rewrite <- (assoc_L (++))|done].
Qed.
Lemma walk_ext {St} (f g : St → MetaNode → St) n st : (∀ s x, f s x = g s x) → walk f st n = walk g st n.
Proof.
  intros Hfg. rewrite !walk_preorder. revert st. induction (preorder n) as [|x l IH]; intros st; simpl; [done|].
  by rewrite Hfg, IH.
Qed.

Lemma depth_eq n : depth n = 1 + max_list (map depth (child_nodes n)).
Proof. by destruct n as [? ? []]. Qed.

(** The node at the end of a path of child positions. *)
Fixpoint node_at (n : MetaNode) (p : list nat) : option MetaNode :=
  match p with
  | [] => Some n
  | i :: p' => c ← child_nodes n !! i; node_at c p'
  end.
Lemma max_list_ge l x : x ∈ l → x ≤ max_list l.
Proof. induction 1 as [x l|x y l _ IH]; simpl; lia. Qed.
Lemma max_list_in l : l ≠ [] → max_list l ∈ l.
Proof.
  induction l as [|x l IH]; [done|]. intros _. simpl. destruct l as [|y l]; [simpl; rewrite Nat.max_0_r; left|].
  destruct (Nat.max_dec x (max_list (y :: l))) as [-> | ->]; [left|right; by apply IH].
Qed.
Lemma depth_bound n : ∀ p, is_Some (node_at n p) → length p < depth n.
Proof.
  induction n as [n IH] using MetaNode_child_ind. rewrite depth_eq. intros [|i p] [m Hm]; simpl in *; [lia|].
  destruct (child_nodes n !! i) as [c|] eqn:Hi; [|done]. simpl in Hm.
  pose proof (proj1 (Forall_lookup _ _) IH _ _ Hi p ltac:(by eexists)).
  pose proof (max_list_ge (map depth (child_nodes n)) (depth c)
    ltac:(apply list_elem_of_fmap; exists c; split; [done|by eapply list_elem_of_lookup_2])). lia.
Qed.
Lemma depth_reached n : ∃ p, is_Some (node_at n p) ∧ S (length p) = depth n.
Proof.
  induction n as [n IH] using MetaNode_child_ind. rewrite depth_eq.
  destruct (decide (child_nodes n = [])) as [->|Hne]; [by exists []|].
  destruct (list_elem_of_fmap depth (child_nodes n) (max_list (map depth (child_nodes n)))) as [Hm _].
  destruct Hm as (c & Hc & [i Hi]%list_elem_of_lookup).
  { apply max_list_in. by intros ?%fmap_nil_inv. }
  destruct (proj1 (Forall_lookup _ _) IH _ _ Hi) as (p & Hp & Hl).
  exists (i :: p). simpl. rewrite Hi, Hc. simpl. split; [done|lia].
Qed.

(** What each extractor finds in one node. *)
Definition when {A} (nt : NodeType.t) (g : MetaNode → option A) (n : MetaNode) : option A :=
  if decide (node_type n = nt) then g n else None.
Lemma extract_functions_omap n :
  extract_functions n = omap (when NodeType.FunctionDef (Some ∘ function_info)) (preorder n).
Proof.
  rewrite <- walk_collect. unfold extract_functions. apply walk_ext. intros s x. unfold when. by case_decide.
Qed.
Lemma extract_imports_omap n :
  extract_imports n = omap (when NodeType.Import (Some ∘ import_info)) (preorder n).
Proof.
  rewrite <- walk_collect. unfold extract_imports. apply walk_ext. intros s x. unfold when. by case_decide.
Qed.
Lemma extract_calls_omap n :
  extract_calls n = omap (when NodeType.FunctionCall (λ c, get_meta_str c "name")) (preorder n).
Proof.
  rewrite <- walk_collect. unfold extract_calls. apply walk_ext. intros s x. unfold when. by case_decide.
Qed.
Lemma extract_variables_elem n x :
  x ∈ extract_variables n ↔
  ∃ m, m ∈ preorder n ∧ node_type m = NodeType.Variable_ ∧ leaf_value m = Some (MString x).
Proof.
  unfold extract_variables. rewrite walk_preorder.
  set (f := λ vars m, _). enough (∀ l st, x ∈ fold_left f l st ↔
    x ∈ st ∨ ∃ m, m ∈ l ∧ node_type m = NodeType.Variable_ ∧ leaf_value m = Some (MString x)) as ->.
  { split; [intros [?%not_elem_of_empty|?]; done|by right]. }
  induction l as [|m l IH]; intros st; simpl.
  { split; [by left|]. intros [?|(m & Hm & _)]; [done|]. by apply not_elem_of_nil in Hm. }
  rewrite IH. setoid_rewrite elem_of_cons. unfold f at 1.
  case_decide as Ht; [|naive_solver]. destruct (leaf_value m) as [[]|] eqn:Hv; try naive_solver.
  rewrite elem_of_union, elem_of_singleton. naive_solver.
Qed.
Lemma node_count_length n : node_count n = length (preorder n).
Proof.
  unfold node_count. rewrite walk_preorder.
  enough (∀ (l : list MetaNode) k, fold_left (λ count _, count + 1) l k = k + length l) as -> by done.
  induction l as [|x l IH]; intros k; simpl; [lia|]. rewrite IH. lia.
Qed.

(** C39.  The extractors report exactly what the tree holds, in source order:
    one function record per function definition, one import record per
    import and one name per named call, in pre-order; the variable set is the
    set of string-valued variable leaves; the node count counts each node
    once, and the depth is the number of nodes on the longest path. *)
Theorem extract_exact (n : MetaNode) :
  extract_functions n = omap (when NodeType.FunctionDef (Some ∘ function_info)) (preorder n) ∧
  extract_imports n = omap (when NodeType.Import (Some ∘ import_info)) (preorder n) ∧
  extract_calls n = omap (when NodeType.FunctionCall (λ c, get_meta_str c "name")) (preorder n) ∧
  (∀ x, x ∈ extract_variables n ↔
    ∃ m, m ∈ preorder n ∧ node_type m = NodeType.Variable_ ∧ leaf_value m = Some (MString x)) ∧
  node_count n = length (preorder n) ∧
  (∀ p, is_Some (node_at n p) → length p < depth n) ∧
  (∃ p, is_Some (node_at n p) ∧ S (length p) = depth n).
Proof.
  split_and!; [apply extract_functions_omap|apply extract_imports_omap|apply extract_calls_omap|
    apply extract_variables_elem|apply node_count_length|apply depth_bound|apply depth_reached].
Qed.
