(* ===== verification/QueryHelpers.v ===== *)
(** * Queries on trees (crates/code-intel/src/query_helpers.rs)

    Nodes are compared by address in the code.  An address is a tree and the
    positions that lead to the node from the tree's root; a target that lives
    in another tree is an address of another tree. *)

From stdpp Require Import list.
From S2P Require Export Extract.
Import MetaNodes.
Open Scope nat_scope.

(** [&MetaNode] *)
Abbreviation Addr := (nat * list nat)%type.
Record NodeRef := MkRef { ref_addr : Addr; ref_node : MetaNode }.
Definition child_addr (a : Addr) (i : nat) : Addr := (a.1, a.2 ++ [i]).

(** Loops over the children: with an accumulator, with [return Some(..)], and
    with [return true]. *)
Section loops.
Context {St : Type} (f : nat → MetaNode → St → St).
Fixpoint for_children (i : nat) (ns : list MetaNode) (st : St) : St :=
  match ns with [] => st | c :: ns' => for_children (S i) ns' (f i c st) end.
End loops.
Section first.
Context {R : Type} (f : nat → MetaNode → option R).
Fixpoint first_child (i : nat) (ns : list MetaNode) : option R :=
  match ns with
  | [] => None
  | c :: ns' => match f i c with Some r => Some r | None => first_child (S i) ns' end
  end.
End first.
Section search.
Context {St : Type} (f : nat → MetaNode → St → bool * St).
Fixpoint search_children (i : nat) (ns : list MetaNode) (st : St) : bool * St :=
  match ns with
  | [] => (false, st)
  | c :: ns' => let '(found, st') := f i c st in if found : bool then (true, st') else search_children (S i) ns' st'
  end.
End search.

(** ** Parents, siblings, ancestors *)
Fixpoint find_parent_inner (node : MetaNode) (a target : Addr) {struct node} : option NodeRef :=
  match node with
  | MkNode _ _ (CNodes ns) =>
      first_child (λ i child,
        if decide (child_addr a i = target) then Some (MkRef a node)
        else find_parent_inner child (child_addr a i) target) 0 ns
  | _ => None
  end.
Definition find_parent (root : NodeRef) (target : Addr) : option NodeRef :=
  if decide (ref_addr root = target) then None else find_parent_inner (ref_node root) (ref_addr root) target.

Definition child_refs (r : NodeRef) : list NodeRef :=
  imap (λ i c, MkRef (child_addr (ref_addr r) i) c) (child_nodes (ref_node r)).
Definition find_siblings (root : NodeRef) (target : Addr) : list NodeRef :=
  match find_parent root target with
  | Some parent => List.filter (λ child, negb (bool_decide (ref_addr child = target))) (child_refs parent)
  | None => []
  end.

Definition has_child (a target : Addr) (ns : list MetaNode) : bool :=
  existsb (λ i, bool_decide (child_addr a i = target)) (seq 0 (length ns)).
Fixpoint ancestors_inner (node : MetaNode) (a target : Addr) (path : list NodeRef) {struct node} : bool * list NodeRef :=
  match node with
  | MkNode _ _ (CNodes ns) =>
      if has_child a target ns then (true, path ++ [MkRef a node])
      else
        search_children (λ i child path,
          let '(found, path') := ancestors_inner child (child_addr a i) target (path ++ [MkRef a node]) in
          if found : bool then (true, path') else (false, removelast path')) 0 ns path
  | _ => (false, path)
  end.
Definition ancestors (root : NodeRef) (target : Addr) : list NodeRef :=
  if decide (ref_addr root = target) then []
  else
    let '(found, path) := ancestors_inner (ref_node root) (ref_addr root) target [] in
    if found : bool then path else [].

(** ** Searches *)
Definition is_type (nt : NodeType.t) (r : NodeRef) : bool := bool_decide (node_type (ref_node r) = nt).
Fixpoint find_by_type_inner (node : MetaNode) (a : Addr) (nt : NodeType.t) (results : list NodeRef) : list NodeRef :=
  let results := if decide (node_type node = nt) then results ++ [MkRef a node] else results in
  match node with
  | MkNode _ _ (CNodes ns) =>
      for_children (λ i child results, find_by_type_inner child (child_addr a i) nt results) 0 ns results
  | _ => results
  end.
Definition find_by_type (root : NodeRef) (nt : NodeType.t) : list NodeRef :=
  find_by_type_inner (ref_node root) (ref_addr root) nt [].

Fixpoint find_by_name_inner (node : MetaNode) (a : Addr) (name : string) (results : list NodeRef) : list NodeRef :=
  let results := if decide (get_meta_str node "name" = Some name) then results ++ [MkRef a node] else results in
  match node with
  | MkNode _ _ (CNodes ns) =>
      for_children (λ i child results, find_by_name_inner child (child_addr a i) name results) 0 ns results
  | _ => results
  end.
Definition find_by_name (root : NodeRef) (name : string) : list NodeRef :=
  find_by_name_inner (ref_node root) (ref_addr root) name [].

Definition containing_function (root : NodeRef) (target : Addr) : option NodeRef :=
  List.find (is_type NodeType.FunctionDef) (reverse (ancestors root target)).
Definition containing_container (root : NodeRef) (target : Addr) : option NodeRef :=
  List.find (is_type NodeType.Container) (reverse (ancestors root target)).

Definition contains_line (node : MetaNode) (line : Z) : bool :=
  match get_meta node "line_start", get_meta node "line_end" with
  | Some (MInt start), Some (MInt end_) => (start <=? line)%Z && (line <=? end_)%Z
  | _, _ => match get_meta node "line" with Some (MInt l) => (line =? l)%Z | _ => false end
  end.
Fixpoint scope_at_inner (node : MetaNode) (a : Addr) (line : Z) (results : list NodeRef) : list NodeRef :=
  let results := if contains_line node line then results ++ [MkRef a node] else results in
  match node with
  | MkNode _ _ (CNodes ns) =>
      for_children (λ i child results, scope_at_inner child (child_addr a i) line results) 0 ns results
  | _ => results
  end.
Definition scope_at (root : NodeRef) (line : Z) : list NodeRef :=
  scope_at_inner (ref_node root) (ref_addr root) line [].

Fixpoint call_targets_inner (node : MetaNode) (targets : list string) : list string :=
  let targets :=
    if decide (node_type node = NodeType.FunctionCall) then
      match get_meta_str node "name" with Some name => targets ++ [name] | None => targets end
    else targets in
  match node with MkNode _ _ (CNodes ns) => fold_left (λ ts c, call_targets_inner c ts) ns targets | _ => targets end.
Definition call_targets (node : MetaNode) : list string := call_targets_inner node [].

Definition is_branch (nt : NodeType.t) : bool :=
  match nt with
  | NodeType.Conditional | NodeType.Loop | NodeType.PatternMatch | NodeType.MatchArm | NodeType.ExceptionHandling => true
  | _ => false
  end.
Fixpoint count_branches (node : MetaNode) (count : nat) : nat :=
  let count := if is_branch (node_type node) then count + 1 else count in
  match node with MkNode _ _ (CNodes ns) => fold_left (λ k c, count_branches c k) ns count | _ => count end.
Definition complexity_estimate (node : MetaNode) : nat := count_branches node 1.
