(* ===== verification/QueryHelpersSpec.v ===== *)
(** * Tree queries, specified

    Addresses correspond to paths of child positions, so the queries by
    address compute prefixes of the target's path, and the searches are
    filters of the pre-order list of references. *)

From stdpp Require Import list.
From S2P Require Export QueryHelpers.
Import MetaNodes.
Open Scope nat_scope.

Definition at_path (a : Addr) (p : list nat) : Addr := (a.1, a.2 ++ p).
Lemma at_path_nil a : at_path a [] = a.
Proof. destruct a. unfold at_path. simpl. by rewrite app_nil_r. Qed.
Lemma child_at_path a i : child_addr a i = at_path a [i].
Proof. done. Qed.
Lemma at_path_child a i p : at_path (child_addr a i) p = at_path a (i :: p).
Proof. unfold at_path, child_addr. simpl. by rewrite <- (assoc_L (++)). Qed.
#[export] Instance at_path_inj a : Inj (=) (=) (at_path a).
Proof. intros p q [= H]. by apply (inj (app a.2)) in H. Qed.

(** The references on the way to [p], the target excluded. *)
Fixpoint path_refs (a : Addr) (n : MetaNode) (p : list nat) : list NodeRef :=
  match p with
  | [] => []
  | i :: p' =>
      MkRef a n :: match child_nodes n !! i with Some c => path_refs (child_addr a i) c p' | None => [] end
  end.

Lemma path_refs_lookup p : ∀ a n m k r, node_at n p = Some m →
  path_refs a n p !! k = Some r ↔
  k < length p ∧ ref_addr r = at_path a (take k p) ∧ node_at n (take k p) = Some (ref_node r).
Proof.
  induction p as [|i p IH]; intros a n m k r Hm; simpl in *.
  { rewrite lookup_nil. split; [done|lia]. }
  destruct (child_nodes n !! i) as [c|] eqn:Hi; [|done]. simpl in Hm.
  destruct k as [|k]; simpl.
  { rewrite at_path_nil. split; [intros [= <-]; split_and!; [lia|done..]|].
    intros (_ & Ha & Hn). destruct r; simpl in *. congruence. }
  rewrite (IH _ _ _ _ _ Hm), Hi, at_path_child. simpl. split; intros (? & ? & ?); split_and!; (done || lia).
Qed.

(** ** The loops over children *)
Lemma search_miss {St} (f : nat → MetaNode → St → bool * St) ns st : ∀ k,
  (∀ j c, ns !! j = Some c → f (k + j) c st = (false, st)) → search_children f k ns st = (false, st).
Proof.
  induction ns as [|c ns IH]; intros k Hf; simpl; [done|].
  pose proof (Hf 0 c eq_refl) as H0. rewrite Nat.add_0_r in H0. rewrite H0. apply IH.
  intros j c' Hj. replace (S k + j) with (k + S j) by lia. by apply Hf.
Qed.
Lemma search_hit {St} (f : nat → MetaNode → St → bool * St) ns st st' i c : ∀ k,
  ns !! i = Some c → f (k + i) c st = (true, st') →
  (∀ j c', j < i → ns !! j = Some c' → f (k + j) c' st = (false, st)) →
  search_children f k ns st = (true, st').
Proof.
  revert i. induction ns as [|c0 ns IH]; intros i k Hi Hf Hmiss; [done|]. simpl.
  destruct i as [|i]; simpl in Hi.
  - rewrite Nat.add_0_r in Hf. injection Hi as ->. by rewrite Hf.
  - pose proof (Hmiss 0 c0 ltac:(lia) eq_refl) as H0. rewrite Nat.add_0_r in H0. rewrite H0.
    replace (k + S i) with (S k + i) in Hf by lia. apply (IH i (S k) Hi Hf).
    intros j c' Hj Hc. replace (S k + j) with (k + S j) by lia. apply Hmiss; [lia|done].
Qed.
Lemma first_miss {R} (f : nat → MetaNode → option R) ns : ∀ k,
  (∀ j c, ns !! j = Some c → f (k + j) c = None) → first_child f k ns = None.
Proof.
  induction ns as [|c ns IH]; intros k Hf; simpl; [done|].
  pose proof (Hf 0 c eq_refl) as H0. rewrite Nat.add_0_r in H0. rewrite H0. apply IH.
  intros j c' Hj. replace (S k + j) with (k + S j) by lia. by apply Hf.
Qed.
Lemma first_hit {R} (f : nat → MetaNode → option R) ns r i c : ∀ k,
  ns !! i = Some c → f (k + i) c = Some r →
  (∀ j c', j < i → ns !! j = Some c' → f (k + j) c' = None) → first_child f k ns = Some r.
Proof.
  revert i. induction ns as [|c0 ns IH]; intros i k Hi Hf Hmiss; [done|]. simpl.
  destruct i as [|i]; simpl in Hi.
  - rewrite Nat.add_0_r in Hf. injection Hi as ->. by rewrite Hf.
  - pose proof (Hmiss 0 c0 ltac:(lia) eq_refl) as H0. rewrite Nat.add_0_r in H0. rewrite H0.
    replace (k + S i) with (S k + i) in Hf by lia. apply (IH i (S k) Hi Hf).
    intros j c' Hj Hc. replace (S k + j) with (k + S j) by lia. apply Hmiss; [lia|done].
Qed.

Lemma has_child_iff a target ns : has_child a target ns = true ↔ ∃ i, i < length ns ∧ target = at_path a [i].
Proof.
  unfold has_child. rewrite existsb_exists. setoid_rewrite in_seq. setoid_rewrite bool_decide_eq_true.
  split; intros (i & Hi & Ht); exists i; (split; [lia|done]).
Qed.

(** Unfolding at a node. *)
Lemma ancestors_inner_eq n a target path :
  ancestors_inner n a target path =
  if has_child a target (child_nodes n) then (true, path ++ [MkRef a n])
  else search_children (λ i child path,
    let '(found, path') := ancestors_inner child (child_addr a i) target (path ++ [MkRef a n]) in
    if found : bool then (true, path') else (false, removelast path')) 0 (child_nodes n) path.
Proof. by destruct n as [? ? []]. Qed.
Lemma find_parent_inner_eq n a target :
  find_parent_inner n a target =
  first_child (λ i child,
    if decide (child_addr a i = target) then Some (MkRef a n)
    else find_parent_inner child (child_addr a i) target) 0 (child_nodes n).
Proof. by destruct n as [? ? []]. Qed.

(** [target] is not below the node [n] at [a]. *)
Definition not_below (a : Addr) (n : MetaNode) (target : Addr) : Prop :=
  ∀ p, p ≠ [] → is_Some (node_at n p) → target ≠ at_path a p.

Lemma not_below_child a n target i c :
  child_nodes n !! i = Some c → not_below a n target → not_below (child_addr a i) c target ∧ target ≠ at_path a [i].
Proof.
  intros Hi Hb. split.
  - intros p _ Hp. rewrite at_path_child. apply Hb; [done|]. simpl. by rewrite Hi.
  - apply Hb; [done|]. simpl. rewrite Hi. by eexists.
Qed.
Lemma other_child a n i j c p : i ≠ j → child_nodes n !! j = Some c → not_below (child_addr a j) c (at_path a (i :: p)).
Proof. intros Hij _ q _ _. rewrite at_path_child. intros [= Heq]%(inj (at_path a)). congruence. Qed.

Lemma ancestors_miss n : ∀ a target path, not_below a n target → ancestors_inner n a target path = (false, path).
Proof.
  induction n as [n IH] using MetaNode_child_ind. intros a target path Hb. rewrite ancestors_inner_eq.
  destruct (has_child a target (child_nodes n)) eqn:Hc.
  { apply has_child_iff in Hc as (i & [c Hi]%lookup_lt_is_Some & ->).
    by destruct (not_below_child _ _ _ _ _ Hi Hb) as [_ []]. }
  apply search_miss. intros j c Hj. simpl. destruct (not_below_child _ _ _ _ _ Hj Hb) as [Hb' _].
  rewrite (proj1 (Forall_lookup _ _) IH _ _ Hj) by done. by rewrite removelast_last.
Qed.
Lemma ancestors_hit p : ∀ n a path m, p ≠ [] → node_at n p = Some m →
  ancestors_inner n a (at_path a p) path = (true, path ++ path_refs a n p).
Proof.
  induction p as [|i p IH]; intros n a path m Hne Hm; [done|]. simpl in *.
  destruct (child_nodes n !! i) as [c|] eqn:Hi; [|done]. simpl in Hm. rewrite ancestors_inner_eq.
  destruct p as [|j p].
  { rewrite (proj2 (has_child_iff _ _ _)); [done|]. exists i. split; [|done]. by eapply lookup_lt_Some. }
  destruct (has_child a _ (child_nodes n)) eqn:Hc.
  { apply has_child_iff in Hc as (k & _ & Hk). by apply (inj (at_path a)) in Hk. }
  eapply search_hit; [exact Hi| |].
  - simpl. rewrite <- at_path_child, (IH c _ _ m) by done. by rewrite <- (assoc_L (++)).
  - intros k c' Hk Hc'. simpl. rewrite ancestors_miss; [by rewrite removelast_last|].
    eapply other_child; [lia|exact Hc'].
Qed.

Lemma parent_miss n : ∀ a target, not_below a n target → find_parent_inner n a target = None.
Proof.
  induction n as [n IH] using MetaNode_child_ind. intros a target Hb. rewrite find_parent_inner_eq.
  apply first_miss. intros j c Hj. simpl. destruct (not_below_child _ _ _ _ _ Hj Hb) as [Hb' Hne].
  rewrite decide_False by (rewrite child_at_path; congruence). by apply (proj1 (Forall_lookup _ _) IH _ _ Hj).
Qed.
Lemma parent_hit p : ∀ n a m, p ≠ [] → node_at n p = Some m →
  find_parent_inner n a (at_path a p) = last (path_refs a n p).
Proof.
  induction p as [|i p IH]; intros n a m Hne Hm; [done|]. simpl in *.
  destruct (child_nodes n !! i) as [c|] eqn:Hi; [|done]. simpl in Hm. rewrite find_parent_inner_eq.
  assert (∃ r, last (MkRef a n :: path_refs (child_addr a i) c p) = Some r) as [r Hr].
  { rewrite last_cons. destruct (last _); by eexists. }
  rewrite Hr. eapply first_hit; [exact Hi| |].
  - simpl. destruct p as [|j p].
    + destruct (decide _) as [_|Hd]; [by simpl in Hr|by destruct Hd].
    + rewrite decide_False. 2:{ rewrite child_at_path. by intros ?%(inj (at_path a)). }
      rewrite <- at_path_child, (IH c _ m) by done. rewrite last_cons in Hr.
      destruct (last (path_refs (child_addr a i) c (j :: p))) eqn:Hl; [done|]. by apply last_None in Hl.
  - intros k c' Hk Hc'. simpl. rewrite decide_False.
    2:{ rewrite child_at_path. intros [= ? _]%(inj (at_path a)). lia. }
    apply parent_miss. eapply other_child; [lia|exact Hc'].
Qed.

(** ** Searches as filters *)
Section map_children.
Context {A : Type} (f : nat → MetaNode → list A).
Fixpoint map_children (i : nat) (ns : list MetaNode) : list A :=
  match ns with [] => [] | c :: ns' => f i c ++ map_children (S i) ns' end.
End map_children.

(** Every node of a tree with its address, in pre-order. *)
Fixpoint refs (a : Addr) (n : MetaNode) {struct n} : list NodeRef :=
  MkRef a n :: match n with MkNode _ _ (CNodes ns) => map_children (λ i c, refs (child_addr a i) c) 0 ns | _ => [] end.
Lemma refs_eq a n : refs a n = MkRef a n :: map_children (λ i c, refs (child_addr a i) c) 0 (child_nodes n).
Proof. by destruct n as [? ? []]. Qed.

Lemma refs_nodes n : ∀ a, map ref_node (refs a n) = preorder n.
Proof.
  induction n as [n IH] using MetaNode_child_ind. intros a. rewrite refs_eq, preorder_eq. simpl. f_equal.
  generalize 0 as k. induction IH as [|c l Hc _ IHl]; intros k; simpl; [done|]. by rewrite map_app, Hc, IHl.
Qed.

Lemma elem_of_map_children {A} (f : nat → MetaNode → list A) x ns : ∀ k,
  x ∈ map_children f k ns ↔ ∃ i c, ns !! i = Some c ∧ x ∈ f (k + i) c.
Proof.
  induction ns as [|c ns IH]; intros k; simpl.
  { split; [by intros ?%not_elem_of_nil|]. intros (? & ? & ? & _). done. }
  rewrite elem_of_app, IH. split.
  - intros [Hx|(i & c' & Hi & Hx)]; [exists 0, c; by rewrite Nat.add_0_r|].
    exists (S i), c'. split; [done|]. by replace (k + S i) with (S k + i) by lia.
  - intros ([|i] & c' & Hi & Hx); simpl in Hi.
    + injection Hi as ->. rewrite Nat.add_0_r in Hx. by left.
    + right. exists i, c'. split; [done|]. by replace (S k + i) with (k + S i) by lia.
Qed.

(** A reference is a path and the node there. *)
Lemma elem_of_refs n : ∀ a r, r ∈ refs a n ↔ ∃ p, ref_addr r = at_path a p ∧ node_at n p = Some (ref_node r).
Proof.
  induction n as [n IH] using MetaNode_child_ind. intros a r.
  rewrite refs_eq, elem_of_cons, elem_of_map_children. split.
  - intros [->|(i & c & Hi & Hr)]; [exists []; by rewrite at_path_nil|].
    apply (proj1 (Forall_lookup _ _) IH _ _ Hi) in Hr as (p & Ha & Hp).
    exists (i :: p). simpl. rewrite Hi. by rewrite <- at_path_child.
  - intros ([|i p] & Ha & Hp); simpl in Hp.
    + left. destruct r; simpl in *. rewrite at_path_nil in Ha. congruence.
    + destruct (child_nodes n !! i) as [c|] eqn:Hi; [|done]. right. exists i, c. split; [done|].
      apply (proj1 (Forall_lookup _ _) IH _ _ Hi). exists p. by rewrite at_path_child.
Qed.

(** The three searches are one recursion. *)
Lemma search_filter (p : NodeRef → bool) (F : MetaNode → Addr → list NodeRef → list NodeRef) :
  (∀ n a results, F n a results =
    for_children (λ i c results, F c (child_addr a i) results) 0 (child_nodes n)
      (if p (MkRef a n) then results ++ [MkRef a n] else results)) →
  ∀ n a results, F n a results = results ++ List.filter p (refs a n).
Proof.
  intros HF n. induction n as [n IH] using MetaNode_child_ind. intros a results.
  rewrite HF, refs_eq. simpl.
  assert (∀ ns k acc, Forall (λ c, ∀ a results, F c a results = results ++ List.filter p (refs a c)) ns →
    for_children (λ i c results, F c (child_addr a i) results) k ns acc =
    acc ++ List.filter p (map_children (λ i c, refs (child_addr a i) c) k ns)) as Hloop.
  { induction ns as [|c ns IHns]; intros k acc Hns; simpl; [by rewrite app_nil_r|].
    apply Forall_cons in Hns as [Hc Hns]. by rewrite IHns, Hc, List.filter_app, (assoc_L (++)). }
  rewrite (Hloop _ _ _ IH). destruct (p _); [by rewrite <- (assoc_L (++))|done].
Qed.

Lemma find_by_type_filter r nt : find_by_type r nt = List.filter (is_type nt) (refs (ref_addr r) (ref_node r)).
Proof.
  apply (search_filter (is_type nt) (λ n a, find_by_type_inner n a nt)). intros n a res.
  destruct n as [t m []]; simpl; by rewrite decide_bool_decide.
Qed.
Lemma find_by_name_filter r name : find_by_name r name =
  List.filter (λ x, bool_decide (get_meta_str (ref_node x) "name" = Some name)) (refs (ref_addr r) (ref_node r)).
Proof.
  refine (search_filter (λ x, bool_decide (get_meta_str (ref_node x) "name" = Some name))
    (λ n a, find_by_name_inner n a name) _ (ref_node r) (ref_addr r) []). clear. intros n a res.
  destruct n as [t m []]; simpl; by rewrite decide_bool_decide.
Qed.
Lemma scope_at_filter r line :
  scope_at r line = List.filter (λ x, contains_line (ref_node x) line) (refs (ref_addr r) (ref_node r)).
Proof.
  refine (search_filter (λ x, contains_line (ref_node x) line) (λ n a, scope_at_inner n a line)
    _ (ref_node r) (ref_addr r) []). clear. intros n a res. by destruct n as [t m []].
Qed.

Lemma call_targets_omap n :
  call_targets n = omap (when NodeType.FunctionCall (λ c, get_meta_str c "name")) (preorder n).
Proof.
  enough (∀ n acc, call_targets_inner n acc =
    acc ++ omap (when NodeType.FunctionCall (λ c, get_meta_str c "name")) (preorder n)) as Hin by apply Hin.
  clear n. intros n. induction n as [n IH] using MetaNode_child_ind. intros acc.
  assert (∀ ns acc, Forall (λ c, ∀ acc, call_targets_inner c acc =
      acc ++ omap (when NodeType.FunctionCall (λ c, get_meta_str c "name")) (preorder c)) ns →
    fold_left (λ ts c, call_targets_inner c ts) ns acc =
    acc ++ omap (when NodeType.FunctionCall (λ c, get_meta_str c "name")) (concat (map preorder ns))) as Hloop.
  { induction ns as [|c ns IHns]; intros acc' Hns; simpl; [by rewrite app_nil_r|].
    apply Forall_cons in Hns as [Hc Hns]. by rewrite IHns, Hc, omap_app, (assoc_L (++)). }
  rewrite preorder_eq. destruct n as [t m c]. simpl. unfold when at 1. simpl.
  destruct c as [v|ns]; simpl; case_decide; try destruct (get_meta_str _ _); simpl;
    rewrite ?(Hloop _ _ IH), ?app_nil_r, <- ?(assoc_L (++)); done.
Qed.

Lemma complexity_count n : complexity_estimate n = 1 + length (List.filter (λ m, is_branch (node_type m)) (preorder n)).
Proof.
  enough (∀ n k, count_branches n k = k + length (List.filter (λ m, is_branch (node_type m)) (preorder n))) as Hin
    by apply Hin.
  clear n. intros n. induction n as [n IH] using MetaNode_child_ind. intros k.
  assert (∀ ns k, Forall (λ c, ∀ k, count_branches c k =
      k + length (List.filter (λ m, is_branch (node_type m)) (preorder c))) ns →
    fold_left (λ k c, count_branches c k) ns k =
    k + length (List.filter (λ m, is_branch (node_type m)) (concat (map preorder ns)))) as Hloop.
  { induction ns as [|c ns IHns]; intros k' Hns; simpl; [lia|].
    apply Forall_cons in Hns as [Hc Hns]. rewrite IHns, Hc, List.filter_app, length_app by done. lia. }
  rewrite preorder_eq. destruct n as [t m c]. simpl. destruct c as [v|ns]; simpl;
    rewrite ?(Hloop _ _ IH); destruct (is_branch t); simpl; lia.
Qed.

(** ** Queries from the root *)
Lemma at_root t p : at_path (t, []) p = (t, p).
Proof. done. Qed.
Lemma find_reverse {A} (p : A → bool) l : List.find p (reverse l) = last (List.filter p l).
Proof.
  induction l as [|x l IH] using rev_ind; [done|]. rewrite reverse_snoc, List.filter_app. simpl.
  destruct (p x); [by rewrite last_snoc|]. by rewrite app_nil_r.
Qed.
Lemma node_at_snoc q : ∀ n i, node_at n (q ++ [i]) = (m ← node_at n q; child_nodes m !! i).
Proof.
  induction q as [|j q IH]; intros n i; simpl; [by destruct (child_nodes n !! i)|].
  destruct (child_nodes n !! j); simpl; [apply IH|done].
Qed.

Lemma ancestors_path t tree p m :
  node_at tree p = Some m → ancestors (MkRef (t, []) tree) (t, p) = path_refs (t, []) tree p.
Proof.
  intros Hm. unfold ancestors. simpl. destruct p as [|i p]; [by rewrite decide_True|].
  rewrite decide_False by done. rewrite <- (at_root t (i :: p)). by rewrite (ancestors_hit _ _ _ _ m).
Qed.
Lemma find_parent_path t tree p m :
  node_at tree p = Some m → find_parent (MkRef (t, []) tree) (t, p) = last (path_refs (t, []) tree p).
Proof.
  intros Hm. unfold find_parent. simpl. destruct p as [|i p]; [by rewrite decide_True|].
  rewrite decide_False by done. rewrite <- (at_root t (i :: p)). by rewrite (parent_hit _ _ _ m).
Qed.
Lemma path_refs_length p : ∀ a n m, node_at n p = Some m → length (path_refs a n p) = length p.
Proof.
  induction p as [|i p IH]; intros a n m Hm; simpl in *; [done|].
  destruct (child_nodes n !! i) as [c|]; [|done]. f_equal. by eapply IH.
Qed.
Lemma path_refs_snoc a n q i m :
  node_at n (q ++ [i]) = Some m → ∃ r, last (path_refs a n (q ++ [i])) = Some r ∧
    ref_addr r = at_path a q ∧ node_at n q = Some (ref_node r).
Proof.
  intros Hm. rewrite node_at_snoc in Hm. destruct (node_at n q) as [pm|] eqn:Hq; [|done]. simpl in Hm.
  assert (length (path_refs a n (q ++ [i])) = S (length q)) as Hlen.
  { rewrite (path_refs_length _ _ _ m) by (rewrite node_at_snoc, Hq; exact Hm). rewrite length_app. simpl. lia. }
  destruct (last (path_refs a n (q ++ [i]))) as [r|] eqn:Hl.
  - exists r. split; [done|]. rewrite last_lookup, Hlen in Hl. simpl in Hl.
    apply (path_refs_lookup _ _ _ m) in Hl as (_ & Ha & Hn); [|rewrite node_at_snoc, Hq; exact Hm].
    rewrite take_app_length' in Ha, Hn by done. by rewrite Hq in Hn.
  - apply last_None in Hl. by rewrite Hl in Hlen.
Qed.

Lemma elem_of_child_refs r s :
  s ∈ child_refs r ↔ ∃ j, ref_addr s = child_addr (ref_addr r) j ∧ child_nodes (ref_node r) !! j = Some (ref_node s).
Proof.
  unfold child_refs. rewrite elem_of_lookup_imap. split.
  - intros (j & c & -> & Hc). by exists j.
  - intros (j & Ha & Hc). exists j, (ref_node s). split; [|done]. destruct s; simpl in *. congruence.
Qed.
Lemma find_siblings_elem t tree p m s :
  node_at tree p = Some m →
  s ∈ find_siblings (MkRef (t, []) tree) (t, p) ↔
  ∃ q i j, p = q ++ [i] ∧ j ≠ i ∧ ref_addr s = (t, q ++ [j]) ∧ node_at tree (q ++ [j]) = Some (ref_node s).
Proof.
  intros Hm. unfold find_siblings. rewrite (find_parent_path _ _ _ m Hm).
  destruct p as [|i q _] using rev_ind; simpl.
  { split; [by intros ?%not_elem_of_nil|]. intros (q & i & _ & Hq & _). by destruct q. }
  destruct (path_refs_snoc (t, []) tree q i m Hm) as (r & -> & Ha & Hn).
  rewrite elem_filter_bool, elem_of_child_refs, negb_true_iff, bool_decide_eq_false, Ha.
  change (at_path (t, []) q) with (t, q). unfold child_addr. simpl. split.
  - intros (Hne & j & Hs & Hc). exists q, i, j. rewrite Hs in Hne |- *. rewrite node_at_snoc, Hn. simpl.
    split_and!; [done|congruence|done|done].
  - intros (q' & i' & j & [-> ->]%app_inj_2 & Hj & Hs & Hc); [|done].
    rewrite node_at_snoc, Hn in Hc. simpl in Hc. rewrite Hs. split; [|by exists j].
    intros [= Heq%(inj (app q'))]. congruence.
Qed.

(** C38.  Queries by node address.  For a target that sits at path [p] of the
    tree, [ancestors] lists the nodes at the proper prefixes of [p] from the
    root down, [find_parent] is the last of them, [find_siblings] are exactly
    the other children of that parent, and the containing function and
    container are the innermost ancestors of their type; [find_by_type],
    [find_by_name] and [scope_at] list every matching node of the tree with
    its address, parents before children. *)
Theorem tree_queries_exact (t : nat) (tree : MetaNode) (p : list nat) (m : MetaNode) (line : Z) (name : string)
    (nt : NodeType.t) :
  node_at tree p = Some m →
  let root := MkRef (t, []) tree in
  (∀ k r, ancestors root (t, p) !! k = Some r ↔
    k < length p ∧ ref_addr r = (t, take k p) ∧ node_at tree (take k p) = Some (ref_node r)) ∧
  find_parent root (t, p) = last (ancestors root (t, p)) ∧
  (∀ s, s ∈ find_siblings root (t, p) ↔
    ∃ q i j, p = q ++ [i] ∧ j ≠ i ∧ ref_addr s = (t, q ++ [j]) ∧ node_at tree (q ++ [j]) = Some (ref_node s)) ∧
  containing_function root (t, p) = last (List.filter (is_type NodeType.FunctionDef) (ancestors root (t, p))) ∧
  containing_container root (t, p) = last (List.filter (is_type NodeType.Container) (ancestors root (t, p))) ∧
  find_by_type root nt = List.filter (is_type nt) (refs (t, []) tree) ∧
  find_by_name root name = List.filter (λ r, bool_decide (get_meta_str (ref_node r) "name" = Some name)) (refs (t, []) tree) ∧
  scope_at root line = List.filter (λ r, contains_line (ref_node r) line) (refs (t, []) tree) ∧
  (∀ r, r ∈ refs (t, []) tree ↔ ∃ q, ref_addr r = (t, q) ∧ node_at tree q = Some (ref_node r)).
Proof.
  intros Hm root. subst root. rewrite (ancestors_path t tree p m Hm). split_and!.
  - intros k r. by apply (path_refs_lookup p (t, [])) with m.
  - by apply find_parent_path with m.
  - intros s. by apply find_siblings_elem with m.
  - unfold containing_function. by rewrite (ancestors_path t tree p m Hm), find_reverse.
  - unfold containing_container. by rewrite (ancestors_path t tree p m Hm), find_reverse.
  - apply find_by_type_filter.
  - apply find_by_name_filter.
  - apply scope_at_filter.
  - intros r. by apply (elem_of_refs tree (t, [])).
Qed.

(** The module of the unit tests: a function with a loop that calls [step]. *)
Definition sample_tree : MetaNode :=
  composite NodeType.Container [("name", MString "MyModule"); ("line_start", MInt 1); ("line_end", MInt 20)]%string
    [composite NodeType.FunctionDef [("name", MString "process"); ("line_start", MInt 2); ("line_end", MInt 15)]%string
       [composite NodeType.Loop [("line_start", MInt 7); ("line_end", MInt 10)]%string
          [composite NodeType.FunctionCall [("name", MString "step")]%string []]];
     composite NodeType.FunctionDef [("name", MString "helper")]%string []].

Lemma tree_queries_exact_witness :
  find_parent (MkRef (0, []) sample_tree) (0, [0; 0; 0]) = last (ancestors (MkRef (0, []) sample_tree) (0, [0; 0; 0])) ∧
  length (ancestors (MkRef (0, []) sample_tree) (0, [0; 0; 0])) = 3.
Proof.
  split; [|reflexivity].
  exact (proj1 (proj2 (tree_queries_exact 0 sample_tree [0; 0; 0] _ 8 "step" NodeType.FunctionCall eq_refl))).
Defined.

(** A target outside the tree has no parent, no siblings and no ancestors. *)
Lemma foreign_target t tree target :
  (∀ p, is_Some (node_at tree p) → target ≠ (t, p)) →
  ancestors (MkRef (t, []) tree) target = [] ∧ find_parent (MkRef (t, []) tree) target = None ∧
  find_siblings (MkRef (t, []) tree) target = [].
Proof.
  intros Hf. assert (not_below (t, []) tree target) as Hb by (intros p _; apply Hf).
  assert (find_parent (MkRef (t, []) tree) target = None) as Hp.
  { unfold find_parent. simpl. case_decide; [done|]. by apply parent_miss. }
  split_and!; [|done|by unfold find_siblings; rewrite Hp].
  unfold ancestors. simpl. case_decide; [done|]. by rewrite ancestors_miss.
Qed.
