(* ===== verification/CodeTokenizer.v ===== *)
(** * The code tokenizer (crates/code-intel/src/tokenizer.rs)

    Words are split at underscores and at camel-case boundaries, lowercased
    and filtered.  The camel-case split slices the bytes of a word; a slice
    out of bounds or inside a character is a panic, [None]. *)

From S2P Require Export Tokenizer Display TokenizerRender.

Open Scope nat_scope.

Definition NOISE_KEYWORDS : list string :=
  ["self"; "this"; "return"; "def"; "fn"; "func"; "function"; "class"; "let"; "var"; "const"; "mut"; "pub";
   "private"; "protected"; "static"; "void"; "new"; "end"; "do"; "begin"; "if"; "else"; "elsif"; "elif"; "then";
   "for"; "while"; "in"; "of"; "is"; "as"; "and"; "or"; "not"; "true"; "false"; "nil"; "null"; "none"; "import";
   "from"; "require"; "use"; "module"; "defmodule"; "struct"; "enum"; "type"; "trait"; "impl"; "interface";
   "abstract"; "override"; "super"; "yield"; "async"; "await"; "try"; "catch"; "raise"; "throw"; "finally";
   "rescue"; "with"; "match"; "case"; "when"]%string.
Definition is_noise (token : string) : bool := existsb (String.eqb token) NOISE_KEYWORDS.

(** ** Camel case *)
Definition is_ascii_uppercase (b : byte) : bool := in_range 65 90 b.
Definition is_ascii_lowercase (b : byte) : bool := in_range 97 122 b.

(** [&s[a..b]] *)
Definition is_char_boundary (s : bytes) (i : nat) : bool :=
  match s !! i with
  | Some b => (i =? 0) || negb (cont b)
  | None => i =? length s
  end.
Definition slice (s : bytes) (a b : nat) : option bytes :=
  if (a <=? b) && (b <=? length s) && is_char_boundary s a && is_char_boundary s b
  then Some (take (b - a) (drop a s)) else None.

(** One round of the loop on [(parts, start)]. *)
Definition split_step (s : bytes) (st : list bytes * nat) (i : nat) : option (list bytes * nat) :=
  prev ← s !! (i - 1); curr ← s !! i;
  let prev_upper := is_ascii_uppercase prev in
  let curr_upper := is_ascii_uppercase curr in
  let curr_lower := is_ascii_lowercase curr in
  st ← (if negb prev_upper && curr_upper
        then part ← slice s st.2 i; Some (st.1 ++ [part], i) else Some st);
  if prev_upper && curr_lower && (st.2 <? i - 1)
  then part ← slice s st.2 (i - 1); Some (st.1 ++ [part], i - 1) else Some st.
Fixpoint split_loop (s : bytes) (st : list bytes * nat) (is_ : list nat) : option (list bytes * nat) :=
  match is_ with
  | [] => Some st
  | i :: is' => st' ← split_step s st i; split_loop s st' is'
  end.
Definition split_camel_case (s : bytes) : option (list bytes) :=
  '(parts, start) ← split_loop s ([], 0) (seq 1 (length s - 1));
  if start <? length s then part ← slice s start (length s); Some (parts ++ [part]) else Some parts.

(** ** Words *)
(** [split] with a predicate on characters. *)
Fixpoint split_by {A} (p : A → bool) (cs : list A) : list (list A) :=
  match cs with
  | [] => [[]]
  | c :: cs' =>
      if p c then [] :: split_by p cs'
      else match split_by p cs' with w :: ws => (c :: w) :: ws | [] => [[c]] end
  end.

Section tokenize.
Context `{Unicode}.
Definition lower_token (sub : bytes) : list string :=
  let lower := to_lowercase (str_of_bytes sub) in
  if (1 <? String.length lower) && negb (is_noise lower) then [lower] else [].
Definition part_tokens (part : list char) : option (list string) :=
  if bool_decide (part = []) then Some []
  else subs ← split_camel_case (as_bytes (string_of_chars part)); Some (concat (map lower_token subs)).
Definition word_tokens (word : list char) : option (list string) :=
  if bool_decide (word = []) then Some []
  else tss ← mapM part_tokens (split_by (λ c, (c =? 95)%N) word); Some (concat tss).
Definition code_tokenize (text : string) : option (list string) :=
  tss ← mapM word_tokens (split_by (λ c, negb (is_alphanumeric c) && negb (c =? 95)%N) (chars text));
  Some (concat tss).
End tokenize.

(** * The code tokenizer, specified

    The camel-case loop cuts before an uppercase letter that ends a run of
    other characters or starts a capitalised word, never panics and loses
    nothing; tokenizing is idempotent on ASCII text. *)

Open Scope nat_scope.

(** ** Where words are cut *)
Definition upper_at (s : bytes) (i : nat) : bool := match s !! i with Some b => is_ascii_uppercase b | None => false end.
Definition lower_at (s : bytes) (i : nat) : bool := match s !! i with Some b => is_ascii_lowercase b | None => false end.
Definition after_other (s : bytes) (i : nat) : bool :=
  match i with 0 => false | S j => upper_at s i && negb (upper_at s j) end.
Definition cut (s : bytes) (i : nat) : bool :=
  match i with 0 => false | S j => upper_at s i && (negb (upper_at s j) || lower_at s (S i)) end.

Definition sub (s : bytes) (a b : nat) : bytes := take (b - a) (drop a s).
Fixpoint slices (s : bytes) (start : nat) (cuts : list nat) : list bytes :=
  match cuts with [] => [] | c :: cs => sub s start c :: slices s c cs end.
(** The pieces of [s] between its cuts. *)
Definition pieces (s : bytes) : list bytes :=
  if bool_decide (s = []) then [] else slices s 0 (List.filter (cut s) (seq 0 (length s)) ++ [length s]).

Lemma last_cons_eq {A} (x : A) l d : List.last (x :: l) d = List.last l x.
Proof. revert x d. induction l as [|y l IH]; intros x d; [done|]. rewrite (IH y x). apply (IH y d). Qed.
Lemma slices_snoc s c cuts : ∀ start, slices s start (cuts ++ [c]) = slices s start cuts ++ [sub s (List.last cuts start) c].
Proof.
  induction cuts as [|x cuts IH]; intros start; simpl; [done|]. rewrite IH.
  rewrite <- (last_cons_eq x cuts start). done.
Qed.

(** ** The loop *)
Lemma upper_not_cont b : is_ascii_uppercase b = true → cont b = false.
Proof.
  unfold is_ascii_uppercase, cont. intros Hb. apply in_range_spec in Hb.
  apply not_true_is_false. intros Hc%in_range_spec. lia.
Qed.
Lemma boundary_upper s i : upper_at s i = true → is_char_boundary s i = true.
Proof.
  unfold upper_at, is_char_boundary. destruct (s !! i) as [b|]; [|done]. intros Hb%upper_not_cont. rewrite Hb.
  apply orb_true_r.
Qed.
Lemma slice_ok s a b :
  a ≤ b → b ≤ length s → is_char_boundary s a = true → is_char_boundary s b = true → slice s a b = Some (sub s a b).
Proof.
  intros Hab Hb Ha Hb'. unfold slice. by rewrite (proj2 (Nat.leb_le _ _) Hab), (proj2 (Nat.leb_le _ _) Hb), Ha, Hb'.
Qed.
Lemma boundary_zero s : is_char_boundary s 0 = true.
Proof. unfold is_char_boundary. destruct s; done. Qed.
Lemma boundary_end s : is_char_boundary s (length s) = true.
Proof. unfold is_char_boundary. rewrite lookup_ge_None_2 by done. apply Nat.eqb_refl. Qed.

(** The cuts made when the loop has seen the indices up to [i]. *)
Definition cuts_at (s : bytes) (i : nat) : list nat :=
  List.filter (cut s) (seq 0 i) ++ (if after_other s i then [i] else []).
Lemma filter_seq_S p n : List.filter p (seq 0 (S n)) = List.filter p (seq 0 n) ++ (if p n then [n] else []).
Proof. rewrite seq_S, List.filter_app. done. Qed.

Lemma last_filter_lt p n : n = 0 ∨ List.last (List.filter p (seq 0 n)) 0 < n.
Proof.
  induction n as [|n IH]; [by left|]. right. rewrite filter_seq_S.
  destruct (p n); [rewrite last_last; lia|]. rewrite app_nil_r. destruct IH as [->|?]; simpl; lia.
Qed.
Lemma last_cut_boundary s n : is_char_boundary s (List.last (List.filter (cut s) (seq 0 n)) 0) = true.
Proof.
  induction n as [|n IH]; [apply boundary_zero|]. rewrite filter_seq_S.
  destruct (cut s n) eqn:Hc; [|by rewrite app_nil_r]. rewrite last_last. apply boundary_upper.
  destruct n; [done|]. simpl in Hc. by apply andb_true_iff in Hc as [Hc _].
Qed.

Lemma split_step_cuts s i :
  S i < length s →
  split_step s (slices s 0 (cuts_at s i), List.last (cuts_at s i) 0) (S i) =
  Some (slices s 0 (cuts_at s (S i)), List.last (cuts_at s (S i)) 0).
Proof.
  intros Hi. destruct (lookup_lt_is_Some_2 s i ltac:(lia)) as [prev Hp].
  destruct (lookup_lt_is_Some_2 s (S i) Hi) as [curr Hc].
  unfold split_step. replace (S i - 1) with i by lia. rewrite Hp, Hc. cbn [mbind option_bind].
  assert (upper_at s i = is_ascii_uppercase prev) as Hui by (unfold upper_at; by rewrite Hp).
  assert (upper_at s (S i) = is_ascii_uppercase curr) as Huc by (unfold upper_at; by rewrite Hc).
  assert (lower_at s (S i) = is_ascii_lowercase curr) as Hlc by (unfold lower_at; by rewrite Hc).
  rewrite <- Hui, <- Huc, <- Hlc. clear Hui Huc Hlc Hp Hc.
  destruct (upper_at s i) eqn:Hui.
  - (* an uppercase letter before *)
    assert (after_other s (S i) = false) as Hao by (simpl; rewrite Hui; apply andb_false_r).
    assert (cuts_at s (S i) = List.filter (cut s) (seq 0 i) ++ (if cut s i then [i] else [])) as ->
      by (unfold cuts_at; by rewrite Hao, filter_seq_S, app_nil_r).
    cbn [negb andb mbind option_bind fst snd].
    unfold cuts_at. destruct i as [|j].
    { simpl. rewrite andb_false_r. done. }
    assert (cut s (S j) = negb (upper_at s j) || lower_at s (S (S j))) as -> by (simpl; by rewrite Hui).
    assert (after_other s (S j) = negb (upper_at s j)) as -> by (simpl; by rewrite Hui).
    destruct (upper_at s j); simpl negb; cbv iota; cbn [orb].
    + rewrite app_nil_r. destruct (last_filter_lt (cut s) (S j)) as [?|Hlt]; [lia|].
      rewrite (proj2 (Nat.ltb_lt _ _) Hlt), andb_true_r. destruct (lower_at s (S (S j))); [|by rewrite app_nil_r].
      rewrite slice_ok; [|lia|lia|apply last_cut_boundary|by apply boundary_upper].
      cbn [mbind option_bind]. by rewrite slices_snoc, last_last.
    + rewrite last_last, Nat.ltb_irrefl, andb_false_r. done.
  - assert (cut s i = false ∧ after_other s i = false) as [Hci Hai] by (destruct i; simpl; by rewrite ?Hui).
    assert (after_other s (S i) = upper_at s (S i)) as Hao by (simpl; by rewrite Hui, andb_true_r).
    assert (cuts_at s (S i) = List.filter (cut s) (seq 0 i) ++ (if upper_at s (S i) then [S i] else [])) as ->
      by (unfold cuts_at; by rewrite Hao, filter_seq_S, Hci, app_nil_r).
    unfold cuts_at. rewrite Hai, !app_nil_r. cbn [negb andb].
    destruct (upper_at s (S i)) eqn:Huc; [|by rewrite app_nil_r].
    rewrite slice_ok; [|destruct (last_filter_lt (cut s) i) as [->|?]; simpl; lia|lia|apply last_cut_boundary|by apply boundary_upper].
    cbn [mbind option_bind]. by rewrite slices_snoc, last_last.
Qed.

Lemma split_loop_cuts s k : ∀ i, i + k < length s →
  split_loop s (slices s 0 (cuts_at s i), List.last (cuts_at s i) 0) (seq (S i) k) =
  Some (slices s 0 (cuts_at s (i + k)), List.last (cuts_at s (i + k)) 0).
Proof.
  induction k as [|k IH]; intros i Hk; [by rewrite Nat.add_0_r|]. cbn [seq split_loop].
  rewrite split_step_cuts by lia. cbn [mbind option_bind]. rewrite IH by lia. by rewrite Nat.add_succ_r.
Qed.

Lemma split_camel_case_run s : split_camel_case s = Some (pieces s).
Proof.
  unfold split_camel_case, pieces. case_bool_decide as Hs; [by subst|].
  assert (0 < length s) as Hl by (destruct s; simpl; [done|lia]).
  pose proof (split_loop_cuts s (length s - 1) 0 ltac:(lia)) as Hloop. unfold cuts_at at 1 2 in Hloop. simpl in Hloop.
  rewrite Hloop. cbn [mbind option_bind].
  assert (cuts_at s (length s - 1) = List.filter (cut s) (seq 0 (length s))) as ->.
  { replace (length s) with (S (length s - 1)) at 2 by lia. rewrite filter_seq_S. unfold cuts_at. f_equal.
    destruct (length s - 1) as [|j] eqn:Hj; [done|]. unfold cut, after_other, lower_at.
    rewrite (lookup_ge_None_2 s (S (S j))) by lia. by rewrite orb_false_r. }
  destruct (last_filter_lt (cut s) (length s)) as [?|Hlt]; [lia|]. rewrite (proj2 (Nat.ltb_lt _ _) Hlt).
  rewrite slice_ok; [|lia|lia|apply last_cut_boundary|apply boundary_end].
  cbn [mbind option_bind]. by rewrite slices_snoc.
Qed.

(** ** Nothing is lost *)
Fixpoint increasing (start : nat) (cuts : list nat) : Prop :=
  match cuts with [] => True | c :: cs => start < c ∧ increasing c cs end.
Lemma increasing_filter p n : ∀ k start, start < k → increasing start (List.filter p (seq k n)).
Proof.
  induction n as [|n IH]; intros k start Hk; simpl; [done|]. destruct (p k); simpl; [split; [done|]|]; apply IH; lia.
Qed.
Lemma increasing_snoc c cuts : ∀ start, increasing start cuts → List.last cuts start < c → increasing start (cuts ++ [c]).
Proof.
  induction cuts as [|x cuts IH]; intros start; [by simpl|]. rewrite last_cons_eq. simpl.
  intros [Hx Hi] Hl. split; [done|]. by apply IH.
Qed.
Lemma increasing_last cuts : ∀ start, increasing start cuts → start ≤ List.last cuts start.
Proof.
  induction cuts as [|c cuts IH]; intros start; [done|]. rewrite last_cons_eq. simpl. intros [Hc Hi].
  specialize (IH c Hi). lia.
Qed.
Lemma slices_concat s cuts : ∀ start, increasing start cuts → List.last cuts start ≤ length s →
  concat (slices s start cuts) = sub s start (List.last cuts start) ∧ Forall (λ p, p ≠ []) (slices s start cuts).
Proof.
  induction cuts as [|c cuts IH]; intros start Hi Hl.
  { simpl. unfold sub. rewrite Nat.sub_diag. split; [done|constructor]. }
  rewrite last_cons_eq in *. destruct Hi as [Hsc Hi]. pose proof (increasing_last _ _ Hi) as Hc.
  destruct (IH c Hi Hl) as [Hcat Hne]. simpl. split.
  - rewrite Hcat. unfold sub.
    replace (List.last cuts c - start) with ((c - start) + (List.last cuts c - c)) by lia.
    rewrite <- (take_take_drop (drop start s) (c - start)), drop_drop. do 3 f_equal. lia.
  - constructor; [|done]. unfold sub. intros E%(f_equal length). rewrite length_take, length_drop in E. simpl in E. lia.
Qed.
Lemma pieces_concat s : concat (pieces s) = s ∧ Forall (λ p, p ≠ []) (pieces s).
Proof.
  unfold pieces. case_bool_decide as Hs; [subst; split; [done|constructor]|].
  assert (0 < length s) as Hl by (destruct s; simpl; [done|lia]).
  destruct (slices_concat s (List.filter (cut s) (seq 0 (length s)) ++ [length s]) 0) as [Hc Hf].
  - apply increasing_snoc.
    + destruct (length s) as [|n]; [done|]. simpl. apply increasing_filter. lia.
    + destruct (last_filter_lt (cut s) (length s)); lia.
  - by rewrite last_last.
  - rewrite last_last in Hc. split; [|exact Hf]. rewrite Hc. unfold sub. rewrite Nat.sub_0_r. by rewrite drop_0, take_ge.
Qed.

(** The camel-case split never panics, on any bytes: its slices are in
    bounds and end at character boundaries.  It cuts exactly before the
    uppercase letters that follow something else than an uppercase letter or
    precede a lowercase one ([parse|JSON], [HTML|Parser]); the pieces are
    non-empty and give the word back when put together. *)
Theorem split_camel_case_exact (s : bytes) :
  split_camel_case s = Some (pieces s) ∧ concat (pieces s) = s ∧ Forall (λ p, p ≠ []) (pieces s).
Proof. split; [apply split_camel_case_run|apply pieces_concat]. Qed.

Example pieces_ex : map str_of_bytes (pieces (as_bytes "parseHTMLDoc2JSON")) = ["parse"; "HTML"; "Doc2"; "JSON"]%string.
Proof. vm_compute. reflexivity. Qed.

(** ** Tokenizing ASCII text *)
Definition lower_byte (b : byte) : byte := if is_ascii_uppercase b then z2b (b2z b + 32) else b.
Definition ascii_byte (b : byte) : bool := (Byte.to_N b <? 128)%N.
Class UnicodeLaws `{Unicode} : Prop := {
  alphanumeric_ascii b : ascii_byte b = true → is_alphanumeric (Byte.to_N b) = is_ascii_alphanumeric (Byte.to_N b);
  lowercase_ascii bs : forallb ascii_byte bs = true → to_lowercase (str_of_bytes bs) = str_of_bytes (map lower_byte bs)
}.

(** The letters tokens are made of. *)
Definition token_byte (b : byte) : bool := in_range 97 122 b || in_range 48 57 b.
Definition is_token (t : bytes) : bool :=
  forallb token_byte t && (1 <? length t) && negb (is_noise (str_of_bytes t)).
Definition word_sep (b : byte) : bool := negb (is_ascii_alphanumeric (Byte.to_N b)) && negb (Byte.to_N b =? 95)%N.
Definition underscore (b : byte) : bool := (Byte.to_N b =? 95)%N.

Lemma split_by_map {A B} (f : A → B) p l : split_by p (map f l) = map (map f) (split_by (p ∘ f) l).
Proof.
  induction l as [|x l IH]; [done|]. cbn [map split_by]. unfold compose at 1. rewrite IH.
  destruct (p (f x)); [done|]. by destruct (split_by (p ∘ f) l).
Qed.
Lemma split_by_ext {A} (p q : A → bool) l : (∀ x, x ∈ l → p x = q x) → split_by p l = split_by q l.
Proof.
  induction l as [|x l IH]; intros Hpq; [done|]. cbn [split_by]. rewrite Hpq by left.
  rewrite IH by (intros; apply Hpq; by right). done.
Qed.
Lemma split_by_elem {A} (p : A → bool) l w x : w ∈ split_by p l → x ∈ w → x ∈ l ∧ p x = false.
Proof.
  revert w. induction l as [|y l IH]; intros w; cbn [split_by].
  { intros ->%list_elem_of_singleton ?%not_elem_of_nil. done. }
  destruct (p y) eqn:Hy.
  - intros [->|Hw]%elem_of_cons Hx; [by apply not_elem_of_nil in Hx|].
    destruct (IH _ Hw Hx). split; [by right|done].
  - destruct (split_by p l) as [|w0 ws]; intros Hw Hx.
    + apply list_elem_of_singleton in Hw as ->. apply list_elem_of_singleton in Hx as ->. split; [left|done].
    + apply elem_of_cons in Hw as [->|Hw].
      * apply elem_of_cons in Hx as [->|Hx]; [split; [left|done]|].
        destruct (IH w0 ltac:(left) Hx). split; [by right|done].
      * destruct (IH w ltac:(by right) Hx). split; [by right|done].
Qed.
Lemma split_by_none {A} (p : A → bool) l : (∀ x, x ∈ l → p x = false) → split_by p l = [l].
Proof.
  induction l as [|x l IH]; intros Hp; [done|]. cbn [split_by]. rewrite Hp by left.
  rewrite IH by (intros; apply Hp; by right). done.
Qed.
Lemma split_by_app {A} (p : A → bool) l x r :
  (∀ x, x ∈ l → p x = false) → p x = true → split_by p (l ++ x :: r) = l :: split_by p r.
Proof.
  induction l as [|y l IH]; intros Hp Hx; cbn [app split_by]; [by rewrite Hx|]. rewrite Hp by left.
  rewrite IH by (done || intros; apply Hp; by right). done.
Qed.

Lemma byte_forall (p : byte → bool) : (∀ n, (n < 256)%N → p (z2b (Z.of_N n)) = true) → ∀ b, p b = true.
Proof.
  intros Hp b. rewrite <- (z2b_to_N b _ eq_refl). apply Hp. destruct b; done.
Qed.
Lemma token_byte_facts b : token_byte b = true →
  ascii_byte b = true ∧ word_sep b = false ∧ underscore b = false ∧ is_ascii_uppercase b = false ∧ lower_byte b = b.
Proof. destruct b; first [discriminate|intros _; split_and!; reflexivity]. Qed.
Lemma lower_token_byte b : ascii_byte b = true → word_sep b = false → underscore b = false → token_byte (lower_byte b) = true.
Proof. destruct b; first [discriminate|reflexivity]. Qed.

Lemma filter_nil_bool {A} (p : A → bool) l : (∀ x, x ∈ l → p x = false) → List.filter p l = [].
Proof.
  induction l as [|x l IH]; intros Hp; [done|]. simpl. rewrite Hp by left. apply IH. intros y Hy. apply Hp. by right.
Qed.
Lemma length_str_of_bytes bs : String.length (str_of_bytes bs) = length bs.
Proof.
  rewrite <- (as_bytes_str bs) at 2. generalize (str_of_bytes bs). intros s. unfold as_bytes, list_byte_of_string.
  rewrite length_map. induction s; simpl; congruence.
Qed.

Section ascii.
Context `{UL : UnicodeLaws}.

Definition piece_tokens (part : bytes) : list string := concat (map lower_token (pieces part)).
Definition text_tokens (bs : bytes) : list string :=
  concat (map (λ w, concat (map piece_tokens (split_by underscore w))) (split_by word_sep bs)).

Lemma mapM_total {A B} (f : A → option B) g l : (∀ x, x ∈ l → f x = Some (g x)) → mapM f l = Some (map g l).
Proof.
  induction l as [|x l IH]; intros Hf; [done|]. simpl. rewrite Hf by left. simpl. rewrite IH; [done|].
  intros y Hy. apply Hf. by right.
Qed.

Lemma ascii_chars bs : forallb ascii_byte bs = true → chars (str_of_bytes bs) = map Byte.to_N bs.
Proof.
  unfold chars. rewrite as_bytes_str. induction bs as [|b bs IH]; [done|]. cbn [forallb map].
  intros [Hb Hbs]%andb_true_iff. rewrite decode1 by (by apply N.ltb_lt). by rewrite IH.
Qed.
Lemma ascii_encode bs : forallb ascii_byte bs = true → as_bytes (string_of_chars (map Byte.to_N bs)) = bs.
Proof.
  intros Hbs. unfold string_of_chars. rewrite as_bytes_str. induction bs as [|b bs IH]; [done|]. cbn [forallb map concat] in *.
  apply andb_true_iff in Hbs as [Hb Hbs]. rewrite IH by done. unfold encode_char. unfold ascii_byte in Hb. rewrite Hb.
  simpl. by rewrite (z2b_to_N b).
Qed.

Lemma forallb_sub (p : byte → bool) bs w : forallb p bs = true → (∀ x, x ∈ w → x ∈ bs) → forallb p w = true.
Proof.
  rewrite !forallb_forall. intros Hp Hw x Hx. apply Hp, list_elem_of_In, Hw, list_elem_of_In, Hx.
Qed.

Lemma part_tokens_ascii part : forallb ascii_byte part = true → part_tokens (map Byte.to_N part) = Some (piece_tokens part).
Proof.
  intros Ha. unfold part_tokens, piece_tokens. case_bool_decide as Hp.
  - apply map_eq_nil in Hp as ->. done.
  - rewrite ascii_encode, split_camel_case_run by done. done.
Qed.
Lemma code_tokenize_ascii bs :
  forallb ascii_byte bs = true → code_tokenize (str_of_bytes bs) = Some (text_tokens bs).
Proof.
  intros Ha. unfold code_tokenize, text_tokens. rewrite ascii_chars, split_by_map by done.
  rewrite (split_by_ext _ word_sep).
  2:{ intros b Hb. unfold compose, word_sep. rewrite alphanumeric_ascii; [done|].
      rewrite forallb_forall in Ha. by apply Ha, list_elem_of_In. }
  rewrite (mapM_total _ (λ w, concat (map (λ p, concat (map lower_token (pieces p)))
    (split_by underscore (as_bytes (string_of_chars w)))))).
  - cbn [mbind option_bind]. rewrite map_map. do 2 f_equal. apply map_ext_in. intros w Hw%list_elem_of_In.
    rewrite ascii_encode; [done|]. apply (forallb_sub _ bs); [done|]. intros x Hx. by apply (split_by_elem _ _ _ _ Hw).
  - intros w' (w & -> & Hw)%list_elem_of_fmap.
    assert (forallb ascii_byte w = true) as Haw
      by (apply (forallb_sub _ bs); [done|]; intros x Hx; by apply (split_by_elem _ _ _ _ Hw)).
    rewrite ascii_encode by done. unfold word_tokens. case_bool_decide as Hn.
    { apply map_eq_nil in Hn as ->. done. }
    rewrite split_by_map, (mapM_total _ (λ p, piece_tokens (as_bytes (string_of_chars p)))).
    + cbn [mbind option_bind]. rewrite map_map. do 2 f_equal. apply map_ext_in. intros p Hp%list_elem_of_In.
      rewrite ascii_encode; [done|]. apply (forallb_sub _ w); [done|]. intros x Hx. by apply (split_by_elem _ _ _ _ Hp).
    + intros p' (p & -> & Hp)%list_elem_of_fmap.
      assert (forallb ascii_byte p = true) as Hap
        by (apply (forallb_sub _ w); [done|]; intros x Hx; by apply (split_by_elem _ _ _ _ Hp)).
      rewrite ascii_encode by done. by apply part_tokens_ascii.
Qed.

(** Every token is a token. *)
Lemma piece_sub part p x : p ∈ pieces part → x ∈ p → x ∈ part.
Proof.
  intros Hp Hx. rewrite <- (proj1 (pieces_concat part)). apply list_elem_of_In, in_concat.
  exists p. split; by apply list_elem_of_In.
Qed.
Lemma text_tokens_ok bs t : forallb ascii_byte bs = true → t ∈ text_tokens bs → is_token (as_bytes t) = true.
Proof.
  intros Ha Ht. unfold text_tokens in Ht.
  apply list_elem_of_In, in_concat in Ht as (ts & (w & <- & Hw)%in_map_iff & Ht).
  apply in_concat in Ht as (ts & (p & <- & Hp)%in_map_iff & Ht). unfold piece_tokens in Ht.
  apply in_concat in Ht as (ts & (sb & <- & Hsb)%in_map_iff & Ht).
  apply list_elem_of_In in Hw, Hp, Hsb.
  assert (∀ b, b ∈ sb → b ∈ bs ∧ word_sep b = false ∧ underscore b = false) as Hb.
  { intros b Hb. pose proof (piece_sub _ _ _ Hsb Hb) as Hb1. destruct (split_by_elem _ _ _ _ Hp Hb1) as [Hb2 Hu].
    destruct (split_by_elem _ _ _ _ Hw Hb2) as [Hb3 Hs]. done. }
  assert (forallb ascii_byte sb = true) as Hsa by (apply (forallb_sub _ bs); [done|]; intros x Hx; by apply Hb).
  unfold lower_token in Ht. rewrite lowercase_ascii in Ht by done.
  destruct ((1 <? _) && _) eqn:Hc; [|done]. destruct Ht as [<-|[]]. apply andb_true_iff in Hc as [Hl Hn].
  unfold is_token. rewrite str_as_bytes, Hn, as_bytes_str, andb_true_r. apply andb_true_iff. split.
  - apply forallb_forall. intros b' (b & <- & Hin)%in_map_iff. apply list_elem_of_In in Hin. apply lower_token_byte.
    + rewrite forallb_forall in Hsa. by apply Hsa, list_elem_of_In.
    + by apply Hb.
    + by apply Hb.
  - by rewrite length_str_of_bytes in Hl.
Qed.

(** A token is tokenized to itself. *)
Lemma pieces_token t : is_token t = true → pieces t = [t].
Proof.
  intros Ht. unfold is_token in Ht. apply andb_true_iff in Ht as [[Ht Hl]%andb_true_iff _].
  unfold pieces. rewrite bool_decide_eq_false_2 by (by intros ->).
  assert (List.filter (cut t) (seq 0 (length t)) = []) as ->.
  { apply filter_nil_bool. intros i _. unfold cut. destruct i; [done|].
    unfold upper_at at 1. destruct (t !! S i) as [b|] eqn:Hb; [|done].
    rewrite forallb_forall in Ht. specialize (Ht b (proj1 (list_elem_of_In _ _) (list_elem_of_lookup_2 _ _ _ Hb))).
    destruct (token_byte_facts _ Ht) as (_ & _ & _ & -> & _). done. }
  simpl. unfold sub. by rewrite Nat.sub_0_r, drop_0, take_ge.
Qed.
Lemma token_bytes t b : is_token t = true → b ∈ t → token_byte b = true.
Proof.
  unfold is_token. intros [[Ht _]%andb_true_iff _]%andb_true_iff Hb. rewrite forallb_forall in Ht.
  by apply Ht, list_elem_of_In.
Qed.
Lemma word_token t : is_token t = true → concat (map piece_tokens (split_by underscore t)) = [str_of_bytes t].
Proof.
  intros Ht. rewrite split_by_none.
  2:{ intros b Hb. by destruct (token_byte_facts _ (token_bytes _ _ Ht Hb)) as (_ & _ & ? & _). }
  simpl. unfold piece_tokens. rewrite pieces_token by done. simpl. unfold lower_token.
  rewrite lowercase_ascii.
  2:{ apply forallb_forall. intros b Hb%list_elem_of_In. by destruct (token_byte_facts _ (token_bytes _ _ Ht Hb)). }
  assert (map lower_byte t = t) as ->.
  { rewrite <- (map_id t) at 2. apply map_ext_in. intros b Hb%list_elem_of_In.
    by destruct (token_byte_facts _ (token_bytes _ _ Ht Hb)) as (_ & _ & _ & _ & ?). }
  unfold is_token in Ht. apply andb_true_iff in Ht as [[_ Hl]%andb_true_iff Hn].
  rewrite Hn, length_str_of_bytes, Hl. done.
Qed.

Definition joined (ts : list bytes) : bytes := as_bytes (join_with " " (map str_of_bytes ts)).
Lemma joined_cons t t' ts : joined (t :: t' :: ts) = t ++ x20 :: joined (t' :: ts).
Proof. unfold joined. cbn [map join_with]. rewrite !as_bytes_app, as_bytes_str. done. Qed.
Lemma text_tokens_join ts : Forall (λ t, is_token t = true) ts → text_tokens (joined ts) = map str_of_bytes ts.
Proof.
  induction 1 as [|t ts Ht Hts IH]; [done|].
  assert (∀ x, x ∈ t → word_sep x = false) as Hsep.
  { intros b Hb. by destruct (token_byte_facts _ (token_bytes _ _ Ht Hb)) as (_ & ? & _). }
  destruct ts as [|t' ts].
  - unfold joined. simpl. rewrite as_bytes_str. unfold text_tokens. rewrite split_by_none by done.
    simpl. by rewrite word_token, app_nil_r.
  - rewrite joined_cons. unfold text_tokens. rewrite split_by_app by done. cbn [map concat].
    rewrite word_token by done. apply (f_equal (cons (str_of_bytes t))). exact IH.
Qed.
Lemma joined_ascii ts : Forall (λ t, is_token t = true) ts → forallb ascii_byte (joined ts) = true.
Proof.
  induction 1 as [|t ts Ht Hts IH]; [done|].
  assert (forallb ascii_byte t = true) as Ha.
  { apply forallb_forall. intros b Hb%list_elem_of_In. by destruct (token_byte_facts _ (token_bytes _ _ Ht Hb)). }
  destruct ts as [|t' ts]; [unfold joined; simpl; by rewrite as_bytes_str|].
  rewrite joined_cons, forallb_app, Ha. simpl. exact IH.
Qed.

(** Tokenizing ASCII source text always yields a token list: every token
    is at least two lowercase letters or digits and no noise keyword, and the
    tokens are stable - tokenizing them again, joined by spaces as an index or
    a query would, gives the same list. *)
Theorem code_tokenize_stable (bs : bytes) :
  forallb ascii_byte bs = true →
  ∃ ts, code_tokenize (str_of_bytes bs) = Some (map str_of_bytes ts) ∧
    Forall (λ t, is_token t = true) ts ∧
    code_tokenize (join_with " " (map str_of_bytes ts)) = Some (map str_of_bytes ts).
Proof.
  intros Ha. exists (map as_bytes (text_tokens bs)).
  assert (map str_of_bytes (map as_bytes (text_tokens bs)) = text_tokens bs) as Hid.
  { rewrite map_map. rewrite <- (map_id (text_tokens bs)) at 2. apply map_ext. intros x. apply str_as_bytes. }
  assert (Forall (λ t, is_token t = true) (map as_bytes (text_tokens bs))) as Hok.
  { apply Forall_forall. intros t (x & -> & Hx)%list_elem_of_fmap. by apply (text_tokens_ok bs). }
  split_and!; [by rewrite Hid; apply code_tokenize_ascii|exact Hok|].
  rewrite <- (str_as_bytes (join_with _ _)). fold (joined (map as_bytes (text_tokens bs))).
  rewrite code_tokenize_ascii by (by apply joined_ascii). by rewrite text_tokens_join.
Qed.
End ascii.

(** The ASCII part of the tables. *)
#[local] Instance ascii_unicode : Unicode := {|
  is_alphanumeric := is_ascii_alphanumeric;
  to_lowercase s := str_of_bytes (map lower_byte (as_bytes s))
|}.
#[local] Instance ascii_unicode_laws : UnicodeLaws.
Proof. split; [done|]. intros bs _. simpl. by rewrite as_bytes_str. Qed.

Lemma code_tokenize_stable_witness :
  code_tokenize "fn process_user(self, userId: i64) -> HTTPResult" =
    Some ["process"; "user"; "user"; "id"; "i64"; "http"; "result"]%string ∧
  code_tokenize "process user user id i64 http result" =
    Some ["process"; "user"; "user"; "id"; "i64"; "http"; "result"]%string.
Proof.
  assert (Hc : code_tokenize "fn process_user(self, userId: i64) -> HTTPResult" =
    Some ["process"; "user"; "user"; "id"; "i64"; "http"; "result"]%string) by (vm_compute; reflexivity).
  split; [exact Hc|].
  destruct (code_tokenize_stable (as_bytes "fn process_user(self, userId: i64) -> HTTPResult")
    ltac:(vm_compute; reflexivity)) as (ts & E & _ & E2).
  rewrite str_as_bytes in E. rewrite Hc in E. injection E as E. rewrite <- E in E2. exact E2.
Defined.
