(* ===== verification/Similarity.v ===== *)
(** * Structural similarity (crates/code-intel/src/similarity.rs)

    The greedy similarity score with IEEE arithmetic in the order of the code,
    structural hashes over the standard hasher, and clone detection. *)

From S2P Require Export Extract Float64 Prelude.

Import MetaNodes.
Open Scope nat_scope.

(** [n as f64] *)
Definition usize_f64 (n : nat) : f64 := f64_of_i64 (Z.of_nat n).
Definition f64_half : f64 := F64 0x3FE0000000000000.
Definition f64_two : f64 := F64 0x4000000000000000.
Definition f64_0_3 : f64 := F64 0x3FD3333333333333.

Record ClonePair := MkClone { index_a : nat; index_b : nat; similarity : f64 }.

Fixpoint subtree_size (node : MetaNode) : nat :=
  1 + match node with MkNode _ _ (CNodes ns) => sum_list (map subtree_size ns) | _ => 0 end.

(** ** Greedy matching *)
(** The best unused partner: the inner loop. *)
Section best.
Context (sim_with : MetaNode → f64).
Fixpoint best_match (larger : list MetaNode) (used : list bool) (j : nat) (best : f64 * option nat) : f64 * option nat :=
  match larger, used with
  | l :: larger', u :: used' =>
      let best' :=
        if u : bool then best
        else let sim := sim_with l in if f64_gtb sim best.1 then (sim, Some j) else best in
      best_match larger' used' (S j) best'
  | _, _ => best
  end.
End best.
(** The outer loop, on the used flags and the two totals. *)
Section greedy.
Context (sim : MetaNode → MetaNode → f64) (larger : list MetaNode).
Fixpoint greedy_loop (smaller : list MetaNode) (used : list bool) (total_weighted_sim total_weight : f64) :
    list bool * f64 * f64 :=
  match smaller with
  | [] => (used, total_weighted_sim, total_weight)
  | s_child :: smaller' =>
      let '(best_sim, best_j) := best_match (λ l_child, sim s_child l_child) larger used 0 (f64_zero, None) in
      let l_size := match best_j with Some j => nth j (map subtree_size larger) 0 | None => 0 end in
      let weight := f64_div (usize_f64 (subtree_size s_child + l_size)) f64_two in
      greedy_loop smaller'
        (match best_j with Some j => <[j := true]> used | None => used end)
        (f64_add total_weighted_sim (f64_mul best_sim weight)) (f64_add total_weight weight)
  end.
(** The weight of what stays unmatched. *)
Fixpoint unmatched (ls : list MetaNode) (used : list bool) (total_weight : f64) : f64 :=
  match ls, used with
  | l :: ls', u :: used' =>
      unmatched ls' used' (if u : bool then total_weight else f64_add total_weight (usize_f64 (subtree_size l)))
  | _, _ => total_weight
  end.
Definition greedy_match (smaller : list MetaNode) : f64 :=
  let '(used, total_weighted_sim, total_weight) :=
    greedy_loop smaller (replicate (length larger) false) f64_zero f64_zero in
  let total_weight := unmatched larger used total_weight in
  if f64_eqb total_weight f64_zero then f64_zero else f64_div total_weighted_sim total_weight.
End greedy.

(** The score of two composite nodes from the score of their children. *)
Definition composite_score (same_type : bool) (size_a size_b : nat) (children_sim : f64) : f64 :=
  let total_size := f64_div (usize_f64 (size_a + size_b)) f64_two in
  if same_type then
    let root_weight := f64_div f64_one total_size in
    let children_weight := f64_sub f64_one root_weight in
    f64_add (f64_mul root_weight f64_one) (f64_mul children_weight children_sim)
  else
    let children_weight := f64_sub f64_one (f64_div f64_one total_size) in
    f64_mul (f64_mul children_weight children_sim) f64_half.

(** [structural_similarity(a, b)], and of [(b, a)] when [swap] is set: the
    greedy matching recurses with the shorter list first, which may be the
    children of [b]. *)
Fixpoint sim (a b : MetaNode) (swap : bool) {struct a} : f64 :=
  match a, b with
  | MkNode ta _ ca, MkNode tb _ cb =>
      let same_type := bool_decide (ta = tb) in
      match ca, cb with
      | CValue _, CValue _ => if same_type then f64_one else f64_zero
      | CNodes ac, CNodes bc =>
          if bool_decide (ac = []) && bool_decide (bc = []) then if same_type then f64_one else f64_zero
          else
            let children_sim :=
              if bool_decide (ac = []) || bool_decide (bc = []) then f64_zero
              else if (if swap then negb (length bc <=? length ac) else length ac <=? length bc)
              then greedy_match (λ s l, sim s l false) bc ac
              else greedy_match (λ s l, sim l s true) ac bc in
            composite_score same_type (subtree_size a) (subtree_size b) children_sim
      | _, _ => if same_type then f64_0_3 else f64_zero
      end
  end.
Definition structural_similarity (a b : MetaNode) : f64 := sim a b false.
Definition greedy_children_similarity (a_children b_children : list MetaNode) : f64 :=
  if bool_decide (a_children = []) && bool_decide (b_children = []) then f64_one
  else if bool_decide (a_children = []) || bool_decide (b_children = []) then f64_zero
  else if length a_children <=? length b_children then greedy_match structural_similarity b_children a_children
  else greedy_match structural_similarity a_children b_children.

(** ** Hashes *)
(** [DefaultHasher]: the hash of the words written, in order. *)
Class WordHash := { hash_words : list Z → Z }.

Definition discriminant (t : NodeType.t) : Z :=
  match t with
   | NodeType.Literal => 0 | NodeType.Variable_ => 1 | NodeType.BinaryOp => 2 | NodeType.UnaryOp => 3
   | NodeType.FunctionCall => 4 | NodeType.Conditional => 5 | NodeType.EarlyReturn => 6 | NodeType.Throw => 7
   | NodeType.Block => 8 | NodeType.List => 9 | NodeType.Map => 10 | NodeType.Pair => 11 | NodeType.Tuple => 12
   | NodeType.Assignment => 13 | NodeType.InlineMatch => 14 | NodeType.Range => 15
   | NodeType.StringInterpolation => 16 | NodeType.BinSegment => 17 | NodeType.Comment => 18
   | NodeType.Loop => 19 | NodeType.Lambda => 20 | NodeType.CollectionOp => 21 | NodeType.PatternMatch => 22
   | NodeType.MatchArm => 23 | NodeType.ExceptionHandling => 24 | NodeType.AsyncOperation => 25
   | NodeType.Yield => 26 | NodeType.Comprehension => 27 | NodeType.Generator => 28 | NodeType.Filter => 29
   | NodeType.Pipe => 30 | NodeType.Pin => 31 | NodeType.AssertType => 32 | NodeType.Container => 33
   | NodeType.FunctionDef => 34 | NodeType.Param => 35 | NodeType.AttributeAccess => 36
   | NodeType.AugmentedAssignment => 37 | NodeType.Property => 38 | NodeType.Import => 39
   | NodeType.TypeAnnotation => 40 | NodeType.Decorator => 41 | NodeType.RecordUpdate => 42
   | NodeType.ChildSpec => 43 | NodeType.LanguageSpecific => 44 | NodeType.Wildcard => 45
  end%Z.
Definition all_types : list NodeType.t :=
  [NodeType.Literal; NodeType.Variable_; NodeType.BinaryOp; NodeType.UnaryOp; NodeType.FunctionCall;
   NodeType.Conditional; NodeType.EarlyReturn; NodeType.Throw; NodeType.Block; NodeType.List; NodeType.Map;
   NodeType.Pair; NodeType.Tuple; NodeType.Assignment; NodeType.InlineMatch; NodeType.Range;
   NodeType.StringInterpolation; NodeType.BinSegment; NodeType.Comment; NodeType.Loop; NodeType.Lambda;
   NodeType.CollectionOp; NodeType.PatternMatch; NodeType.MatchArm; NodeType.ExceptionHandling;
   NodeType.AsyncOperation; NodeType.Yield; NodeType.Comprehension; NodeType.Generator; NodeType.Filter;
   NodeType.Pipe; NodeType.Pin; NodeType.AssertType; NodeType.Container; NodeType.FunctionDef; NodeType.Param;
   NodeType.AttributeAccess; NodeType.AugmentedAssignment; NodeType.Property; NodeType.Import;
   NodeType.TypeAnnotation; NodeType.Decorator; NodeType.RecordUpdate; NodeType.ChildSpec;
   NodeType.LanguageSpecific; NodeType.Wildcard].

Section hash.
Context `{WordHash}.
Fixpoint node_structural_hash (node : MetaNode) : Z :=
  let child_hashes := match node with MkNode _ _ (CNodes ns) => map node_structural_hash ns | _ => [] end in
  hash_words (discriminant (node_type node) :: Z.of_nat (length (child_nodes node)) :: child_hashes).
Fixpoint collect_fingerprints (node : MetaNode) (out : list Z) : list Z :=
  let out := out ++ [node_structural_hash node] in
  match node with MkNode _ _ (CNodes ns) => fold_left (λ out c, collect_fingerprints c out) ns out | _ => out end.
Definition tree_fingerprint (node : MetaNode) : list Z := collect_fingerprints node [].
Definition subtree_hash (node : MetaNode) : Z := node_structural_hash node.

(** ** Clones *)
(** Whether a pair is worth the full comparison. *)
Definition candidate (fa fb : list Z) : bool :=
  if bool_decide (head fa = head fb) then true
  else
    let '(smaller, larger) := if length fa <=? length fb then (fa, fb) else (fb, fa) in
    if bool_decide (smaller = []) then false
    else
      let overlap := length (List.filter (λ h, existsb (Z.eqb h) larger) smaller) in
      f64_gtb (f64_div (usize_f64 overlap) (usize_f64 (length smaller))) f64_half.
Definition clone_of (nodes : list MetaNode) (threshold : f64) (i j : nat) : list ClonePair :=
  match nodes !! i, nodes !! j with
  | Some a, Some b =>
      if candidate (tree_fingerprint a) (tree_fingerprint b) then
        let sim := structural_similarity a b in
        if f64_leb threshold sim then [MkClone i j sim] else []
      else []
  | _, _ => []
  end.
Definition clone_cmp (a b : ClonePair) : comparison :=
  match f64_partial_cmp (similarity b) (similarity a) with Some o => o | None => Eq end.
Definition find_clones (nodes : list MetaNode) (threshold : f64) : list ClonePair :=
  let n := length nodes in
  sort_by clone_cmp
    (concat (map (λ i, concat (map (clone_of nodes threshold i) (seq (i + 1) (n - (i + 1))))) (seq 0 n))).
End hash.

(** * Structural similarity, specified

    The score satisfies the recursion of the code, structural hashes decide
    equality of shapes when the hasher does not collide, and clone detection
    reports pairs above the threshold, best first, and of those that share the
    root hash every one. *)

Import MetaNodes.
Open Scope nat_scope.

(** ** The recursion of the score *)
Lemma best_match_ext (f g : MetaNode → f64) ls : ∀ used j best, (∀ l, l ∈ ls → f l = g l) →
  best_match f ls used j best = best_match g ls used j best.
Proof.
  induction ls as [|l ls IH]; intros [|u used] j best Hfg; simpl; try done.
  rewrite (Hfg l) by left. apply IH. intros; apply Hfg; by right.
Qed.
Lemma greedy_loop_ext (f g : MetaNode → MetaNode → f64) larger smaller : ∀ used a b,
  (∀ s l, s ∈ smaller → l ∈ larger → f s l = g s l) →
  greedy_loop f larger smaller used a b = greedy_loop g larger smaller used a b.
Proof.
  induction smaller as [|s smaller IH]; intros used a b Hfg; simpl; [done|].
  rewrite (best_match_ext _ (g s)) by (intros; apply Hfg; [left|done]). destruct (best_match _ _ _ _ _).
  apply IH. intros; apply Hfg; [by right|done].
Qed.
Lemma greedy_match_ext (f g : MetaNode → MetaNode → f64) larger smaller :
  (∀ s l, s ∈ smaller → l ∈ larger → f s l = g s l) → greedy_match f larger smaller = greedy_match g larger smaller.
Proof. intros Hfg. unfold greedy_match. by rewrite (greedy_loop_ext _ _ _ _ _ _ _ Hfg). Qed.

Lemma negb_leb a b : negb (b <=? a) = (a <? b).
Proof. rewrite Nat.leb_antisym, negb_involutive. done. Qed.
Lemma same_sym (s t : NodeType.t) : bool_decide (s = t) = bool_decide (t = s).
Proof. apply bool_decide_ext. naive_solver. Qed.

(** The flag exchanges the arguments. *)
Lemma sim_swap a : ∀ b, sim a b true = sim b a false ∧ sim b a true = sim a b false.
Proof.
  induction a as [a IH] using MetaNode_child_ind. intros b.
  destruct a as [ta ma [va|ac]], b as [tb mb [vb|bc]]; cbn [sim];
    try (rewrite (same_sym tb ta); split; reflexivity).
  rewrite !(same_sym tb ta), (andb_comm (bool_decide (bc = []))), (orb_comm (bool_decide (bc = []))).
  rewrite Forall_forall in IH. cbn [child_nodes children] in IH.
  destruct (_ && _); [done|]. unfold composite_score. rewrite (Nat.add_comm (subtree_size (MkNode tb mb (CNodes bc)))).
  destruct (_ || _); [done|]. split.
  - rewrite negb_leb. destruct (Nat.leb_spec (length bc) (length ac)).
    + rewrite (proj2 (Nat.ltb_ge _ _)) by lia. cbn [negb].
      rewrite (greedy_match_ext (λ s l, sim l s true) (λ s l, sim s l false)); [done|].
      intros s l _ Hl. apply (IH l Hl).
    + rewrite (proj2 (Nat.ltb_lt _ _)) by lia.
      rewrite (greedy_match_ext (λ s l, sim s l false) (λ s l, sim l s true)); [done|].
      intros s l Hs _. symmetry. apply (IH s Hs).
  - rewrite negb_leb. destruct (Nat.leb_spec (length ac) (length bc)).
    + rewrite (proj2 (Nat.ltb_ge _ _)) by lia.
      rewrite (greedy_match_ext (λ s l, sim l s true) (λ s l, sim s l false)); [done|].
      intros s l Hs _. apply (IH s Hs).
    + rewrite (proj2 (Nat.ltb_lt _ _)) by lia.
      rewrite (greedy_match_ext (λ s l, sim s l false) (λ s l, sim l s true)); [done|].
      intros s l _ Hl. symmetry. apply (IH l Hl).
Qed.

(** The definition by structural recursion is the function of the code. *)
Lemma structural_similarity_eq a b :
  structural_similarity a b =
  let same_type := bool_decide (node_type a = node_type b) in
  match children a, children b with
  | CValue _, CValue _ => if same_type then f64_one else f64_zero
  | CNodes ac, CNodes bc =>
      if bool_decide (ac = []) && bool_decide (bc = []) then if same_type then f64_one else f64_zero
      else composite_score same_type (subtree_size a) (subtree_size b) (greedy_children_similarity ac bc)
  | _, _ => if same_type then f64_0_3 else f64_zero
  end.
Proof.
  destruct a as [ta ma [va|ac]], b as [tb mb [vb|bc]]; try done.
  unfold structural_similarity. cbn [sim children node_type]. unfold greedy_children_similarity.
  destruct (_ && _); [done|]. destruct (_ || _); [done|]. f_equal.
  destruct (length ac <=? length bc); [done|]. apply greedy_match_ext. intros s l _ _. apply sim_swap.
Qed.

(** ** Shapes and hashes *)
Inductive Shape := MkShape (t : NodeType.t) (l : list Shape).
Fixpoint shape (n : MetaNode) : Shape :=
  MkShape (node_type n) (match n with MkNode _ _ (CNodes ns) => map shape ns | _ => [] end).
Lemma shape_eq n : shape n = MkShape (node_type n) (map shape (child_nodes n)).
Proof. by destruct n as [? ? []]. Qed.

Lemma discriminant_inj s t : discriminant s = discriminant t → s = t.
Proof.
  assert (∀ t, all_types !! Z.to_nat (discriminant t) = Some t) as Hl by (by intros []).
  intros E. pose proof (Hl s) as Hs. rewrite E, Hl in Hs. congruence.
Qed.

Section hash.
Context `{WordHash}.
(** What is hashed at a node. *)
Definition words (n : MetaNode) : list Z :=
  discriminant (node_type n) :: Z.of_nat (length (child_nodes n)) :: map node_structural_hash (child_nodes n).
Lemma hash_eq n : node_structural_hash n = hash_words (words n).
Proof. by destruct n as [? ? []]. Qed.
(** No two different inputs of the hasher in the two trees collide. *)
Definition collision_free (a b : MetaNode) : Prop :=
  ∀ x y, x ∈ MetaAst.preorder a → y ∈ MetaAst.preorder b → hash_words (words x) = hash_words (words y) → words x = words y.

Lemma shape_hash a : ∀ b, shape a = shape b → node_structural_hash a = node_structural_hash b.
Proof.
  induction a as [a IH] using MetaNode_child_ind. intros b. rewrite !shape_eq. intros [= Ht Hl].
  rewrite !hash_eq. unfold words. f_equal. rewrite Ht. f_equal.
  assert (length (child_nodes a) = length (child_nodes b)) as Hlen.
  { rewrite <- (length_map shape), Hl, length_map. done. }
  rewrite Hlen. f_equal. clear Ht Hlen. revert Hl. generalize (child_nodes b).
  induction IH as [|c l Hc _ IHl]; intros [|c' l']; simpl; try done. intros [= Hs Hl].
  by rewrite (Hc _ Hs), (IHl _ Hl).
Qed.
Lemma hash_shape a : ∀ b, collision_free a b → node_structural_hash a = node_structural_hash b → shape a = shape b.
Proof.
  induction a as [a IH] using MetaNode_child_ind. intros b Hcf. rewrite !hash_eq. intros Hh.
  apply Hcf in Hh; [|rewrite MetaAst.preorder_eq; left..]. unfold words in Hh. injection Hh as Ht Hl Hhs.
  apply discriminant_inj in Ht. rewrite !shape_eq, Ht. f_equal.
  assert (∀ x y, x ∈ child_nodes a → y ∈ child_nodes b → collision_free x y) as Hcc.
  { intros x y Hx Hy u w Hu Hw. apply Hcf; rewrite MetaAst.preorder_eq; right; apply list_elem_of_In, in_concat.
    - exists (MetaAst.preorder x). split; apply list_elem_of_In; [by apply list_elem_of_fmap_2|done].
    - exists (MetaAst.preorder y). split; apply list_elem_of_In; [by apply list_elem_of_fmap_2|done]. }
  clear Hcf Ht Hl. revert Hhs Hcc. generalize (child_nodes b).
  induction IH as [|c l Hc _ IHl]; intros [|c' l']; simpl; try done. intros [= Hs Hl] Hcc. f_equal.
  - apply Hc; [|done]. apply Hcc; left.
  - apply IHl; [done|]. intros x y Hx Hy. apply Hcc; by right.
Qed.
Lemma fingerprint_preorder n : tree_fingerprint n = map node_structural_hash (MetaAst.preorder n).
Proof.
  enough (∀ n out, collect_fingerprints n out = out ++ map node_structural_hash (MetaAst.preorder n)) as Hg by apply Hg.
  clear n. intros n. induction n as [n IH] using MetaNode_child_ind. intros out.
  assert (collect_fingerprints n out =
    fold_left (λ out c, collect_fingerprints c out) (child_nodes n) (out ++ [node_structural_hash n])) as ->
    by (by destruct n as [? ? []]).
  assert (out ++ map node_structural_hash (MetaAst.preorder n) =
    (out ++ [node_structural_hash n]) ++ map node_structural_hash (concat (map MetaAst.preorder (child_nodes n)))) as ->
    by (rewrite MetaAst.preorder_eq, <- (assoc_L (++)); done).
  generalize (out ++ [node_structural_hash n]) as acc.
  induction IH as [|c l Hc _ IHl]; intros acc; simpl; [by rewrite app_nil_r|].
  rewrite IHl, Hc, map_app. by rewrite <- (assoc_L (++)).
Qed.

(** Structural hashes: trees of the same shape - node types and arities,
    names, values and metadata aside - have the same hash and the same
    fingerprint, so they always pass the pre-filter of clone detection; where
    the hasher does not collide on the words hashed in the two trees, equal
    hashes mean equal shapes. *)
Theorem subtree_hash_shape (a b : MetaNode) :
  (shape a = shape b →
    subtree_hash a = subtree_hash b ∧ tree_fingerprint a = tree_fingerprint b ∧
    candidate (tree_fingerprint a) (tree_fingerprint b) = true) ∧
  (collision_free a b → subtree_hash a = subtree_hash b → shape a = shape b).
Proof.
  split; [|apply hash_shape]. intros Hs. assert (tree_fingerprint a = tree_fingerprint b) as Hf.
  { rewrite !fingerprint_preorder. revert b Hs. induction a as [a IH] using MetaNode_child_ind. intros b Hs.
    rewrite !MetaAst.preorder_eq. simpl. rewrite (shape_hash _ _ Hs). f_equal. rewrite !shape_eq in Hs. injection Hs as _ Hl.
    revert Hl. generalize (child_nodes b). induction IH as [|c l Hc _ IHl]; intros [|c' l']; simpl; try done.
    intros [= Hs Hl]. by rewrite !map_app, (Hc _ Hs), (IHl _ Hl). }
  split_and!; [by apply shape_hash|done|]. rewrite Hf. unfold candidate. by rewrite bool_decide_eq_true_2.
Qed.

(** ** Clones *)
Definition clone_pairs (nodes : list MetaNode) (threshold : f64) : list ClonePair :=
  concat (map (λ i, concat (map (clone_of nodes threshold i) (seq (i + 1) (length nodes - (i + 1)))))
    (seq 0 (length nodes))).
Lemma elem_of_clone_of nodes threshold i j c :
  c ∈ clone_of nodes threshold i j ↔
  ∃ a b, nodes !! i = Some a ∧ nodes !! j = Some b ∧ candidate (tree_fingerprint a) (tree_fingerprint b) = true ∧
    f64_leb threshold (structural_similarity a b) = true ∧ c = MkClone i j (structural_similarity a b).
Proof.
  unfold clone_of. destruct (nodes !! i) as [a|] eqn:Hi; [|set_solver by naive_solver].
  destruct (nodes !! j) as [b|] eqn:Hj; [|set_solver by naive_solver].
  destruct (candidate _ _) eqn:Hc; [|set_solver by naive_solver congruence].
  destruct (f64_leb _ _) eqn:Hl; [|set_solver by naive_solver congruence].
  rewrite list_elem_of_singleton. naive_solver.
Qed.
Lemma elem_of_clone_pairs nodes threshold c :
  c ∈ clone_pairs nodes threshold ↔
  ∃ a b, index_a c < index_b c ∧ nodes !! index_a c = Some a ∧ nodes !! index_b c = Some b ∧
    candidate (tree_fingerprint a) (tree_fingerprint b) = true ∧ similarity c = structural_similarity a b ∧
    f64_leb threshold (similarity c) = true.
Proof.
  unfold clone_pairs. rewrite list_elem_of_In, in_concat. setoid_rewrite in_map_iff. split.
  - intros (x & (i & <- & Hi%in_seq) & (y & (j & <- & Hj%in_seq)%in_map_iff & Hc)%in_concat).
    apply list_elem_of_In, elem_of_clone_of in Hc as (a & b & Ha & Hb & Hca & Hl & ->). simpl.
    exists a, b. split_and!; (done || lia).
  - intros (a & b & Hij & Ha & Hb & Hca & Hs & Hl). pose proof (lookup_lt_Some _ _ _ Hb) as Hlt.
    eexists. split; [exists (index_a c); split; [done|]; apply in_seq; lia|].
    apply in_concat. eexists. split; [apply in_map_iff; exists (index_b c); split; [done|]; apply in_seq; lia|].
    apply list_elem_of_In, elem_of_clone_of. exists a, b. rewrite <- Hs. split_and!; try done. by destruct c.
Qed.

Lemma NoDup_concat_map {A B} (f : A → list B) (key : B → A) l :
  NoDup l → (∀ x, x ∈ l → NoDup (f x)) → (∀ x y, x ∈ l → y ∈ f x → key y = x) → NoDup (concat (map f l)).
Proof.
  induction 1 as [|x l Hx Hl IH]; intros Hf Hk; simpl; [constructor|]. apply NoDup_app. split_and!.
  - apply Hf. left.
  - intros y Hy (z & Hz & Hy')%list_elem_of_In%in_concat. apply in_map_iff in Hz as (x' & <- & Hx').
    apply list_elem_of_In in Hy', Hx'. rewrite <- (Hk x y) in Hx by (done || left).
    by rewrite (Hk x' y) in Hx by (done || by right).
  - apply IH; intros; [apply Hf|eapply Hk]; by try right.
Qed.
Lemma NoDup_clone_pairs nodes threshold : NoDup (clone_pairs nodes threshold).
Proof.
  apply (NoDup_concat_map _ index_a); [apply NoDup_ListNoDup, List.seq_NoDup| |].
  - intros i _. apply (NoDup_concat_map _ index_b); [apply NoDup_ListNoDup, List.seq_NoDup| |].
    + intros j _. unfold clone_of. repeat case_match; repeat constructor; set_solver.
    + intros j c _ (a & b & _ & _ & _ & _ & ->)%elem_of_clone_of. done.
  - intros i c _ (y & (j & <- & _)%in_map_iff & Hc)%list_elem_of_In%in_concat.
    apply list_elem_of_In, elem_of_clone_of in Hc as (a & b & _ & _ & _ & _ & ->). done.
Qed.

Lemma leb_not_nan t x : f64_leb t x = true → is_nan x = false.
Proof. unfold f64_leb, f64_partial_cmp. destruct (is_nan x); [|done]. by rewrite orb_true_r. Qed.

Lemma clones_sorted nodes threshold :
  StronglySorted (λ c d, (f64_rank (similarity d) ≤ f64_rank (similarity c))%Z) (sort_by clone_cmp (clone_pairs nodes threshold)).
Proof.
  eapply sorted_weaken; [|apply (sort_by_measure clone_cmp (λ c, (- f64_rank (similarity c))%Z))]; [simpl; lia|].
  intros x y Hx Hy. apply elem_of_clone_pairs in Hx, Hy.
  destruct Hx as (? & ? & _ & _ & _ & _ & _ & Hx%leb_not_nan), Hy as (? & ? & _ & _ & _ & _ & _ & Hy%leb_not_nan).
  unfold clone_cmp, f64_partial_cmp. rewrite Hx, Hy. simpl. by rewrite Z.compare_opp.
Qed.
Lemma shared_root a b : subtree_hash a = subtree_hash b → candidate (tree_fingerprint a) (tree_fingerprint b) = true.
Proof.
  intros E. assert (∀ n, head (tree_fingerprint n) = Some (subtree_hash n)) as Hh.
  { intros n. rewrite fingerprint_preorder, MetaAst.preorder_eq. done. }
  unfold candidate. by rewrite bool_decide_eq_true_2 by (rewrite !Hh; congruence).
Qed.

(** C37.  Clone detection: every reported pair is a pair of positions [i < j]
    of the list with the similarity of the two trees, which reaches the
    threshold; each pair is reported at most once, and the list is sorted by
    falling similarity.  Of the pairs with the same root hash, exactly those
    whose similarity reaches the threshold are reported. *)
Theorem find_clones_exact (nodes : list MetaNode) (threshold : f64) :
  (∀ c, c ∈ find_clones nodes threshold →
    ∃ a b, index_a c < index_b c ∧ nodes !! index_a c = Some a ∧ nodes !! index_b c = Some b ∧
      similarity c = structural_similarity a b ∧ f64_leb threshold (similarity c) = true) ∧
  (∀ i j a b, i < j → nodes !! i = Some a → nodes !! j = Some b → subtree_hash a = subtree_hash b →
    MkClone i j (structural_similarity a b) ∈ find_clones nodes threshold ↔
    f64_leb threshold (structural_similarity a b) = true) ∧
  NoDup (map (λ c, (index_a c, index_b c)) (find_clones nodes threshold)) ∧
  StronglySorted (λ c d, (f64_rank (similarity d) ≤ f64_rank (similarity c))%Z) (find_clones nodes threshold).
Proof.
  unfold find_clones. fold (clone_pairs nodes threshold).
  pose proof (sort_by_perm clone_cmp (clone_pairs nodes threshold)) as Hp. split_and!.
  - intros c. rewrite Hp. intros (a & b & ? & ? & ? & _ & ? & ?)%elem_of_clone_pairs. by exists a, b.
  - intros i j a b Hij Ha Hb Hh. rewrite Hp, elem_of_clone_pairs. simpl. split.
    + intros (a' & b' & _ & Ha' & Hb' & _ & _ & Hl). by simplify_eq.
    + intros Hl. exists a, b. split_and!; try done. by apply shared_root.
  - rewrite Hp. apply NoDup_fmap_2_strong; [|apply NoDup_clone_pairs].
    intros c d (a & b & _ & Ha & Hb & _ & Hs & _)%elem_of_clone_pairs (a' & b' & _ & Ha' & Hb' & _ & Hs' & _)%elem_of_clone_pairs [= Ei Ej].
    destruct c as [ci cj cs], d as [di dj ds]. simpl in *. simplify_eq. congruence.
  - apply clones_sorted.
Qed.
End hash.

Definition sample_hash : WordHash :=
  {| hash_words := λ ws, fold_left (λ acc w, (acc * 31 + w + 7) mod 2 ^ 64)%Z ws 0%Z |}.

(** Pairs with different root hashes are compared as well, when more than half
    of the smaller fingerprint occurs in the larger one. *)
Example different_roots_compared :
  let h := sample_hash in
  let x := leaf NodeType.Variable_ [] (MString "x") in
  let two := composite NodeType.Block [] [x; x] in
  let three := composite NodeType.Block [] [x; x; x] in
  @subtree_hash h two ≠ @subtree_hash h three ∧
  map index_b (@find_clones h [two; three] f64_half) = [1].
Proof. cbv zeta. split; [vm_compute; discriminate|vm_compute; reflexivity]. Qed.

Lemma find_clones_exact_witness :
  let x := leaf NodeType.Variable_ [] (MString "x") in
  let node := composite NodeType.Block [] [x; x] in
  MkClone 0 2 (structural_similarity node node) ∈ @find_clones sample_hash [node; x; node] f64_half.
Proof.
  intros x node. refine (proj2 (proj1 (proj2 (@find_clones_exact sample_hash [node; x; node] f64_half)) 0 2 node node _ _ _ _) _);
    [lia|reflexivity..|vm_compute; reflexivity].
Defined.
