(* ===== verification/Diff.v ===== *)
(** * Differences between trees (crates/code-intel/src/diff.rs)

    Changes of named entities between two versions of a file, and the names
    to index again or to remove.  Nodes are compared with the derived
    equality, under which a node holding a NaN differs from itself. *)

From S2P Require Export Extract Display.

Import MetaNodes.
Open Scope nat_scope.

Inductive ChangeKind := Added | Removed | Modified | Renamed.
#[export] Instance ChangeKind_eq_dec : EqDecision ChangeKind.
Proof. solve_decision. Defined.
Record AstChange := MkChange {
  ch_kind : ChangeKind; ch_node_type : NodeType.t; ch_name : string; ch_line : option Z }.
Record DiffSummary := MkSummary {
  changes : list AstChange; added : nat; removed : nat; modified : nat; renamed : nat }.

(** [s.split(pat)] for a non-empty pattern; [skip] characters of a match are
    still to be passed over. *)
Fixpoint split_from (pat : string) (skip : nat) (s : string) : list string :=
  match s with
  | EmptyString => [EmptyString]
  | String c s' =>
      match skip with
      | S k => split_from pat k s'
      | 0 =>
          if String.prefix pat s then EmptyString :: split_from pat (String.length pat - 1) s'
          else match split_from pat 0 s' with w :: ws => String c w :: ws | [] => [String c EmptyString] end
      end
  end.
Definition split (pat s : string) : list string := split_from pat 0 s.
Definition ARROW : string := " -> ".

(** ** Summaries *)
Definition is_kind (k : ChangeKind) (c : AstChange) : bool := bool_decide (ch_kind c = k).
Definition is_empty (self : DiffSummary) : bool := match changes self with [] => true | _ => false end.
Definition is_stale (c : AstChange) : bool :=
  match ch_kind c with Added | Modified | Renamed => true | Removed => false end.
Definition stale_name (c : AstChange) : string :=
  if is_kind Renamed c then default (ch_name c) (split ARROW (ch_name c) !! 1) else ch_name c.
Definition stale_entities (self : DiffSummary) : list string := map stale_name (List.filter is_stale (changes self)).
Definition removed_entities (self : DiffSummary) : list string :=
  map ch_name (List.filter (is_kind Removed) (changes self)).

(** ** Named entities *)
Record NamedEntity := MkEntity { key : string; entity : MetaNode }.

Definition entity_of (node : MetaNode) : option NamedEntity :=
  match node_type node with
  | NodeType.FunctionDef =>
      name ← get_meta_str node "name";
      let arity := match get_meta node "arity" with Some (MInt a) => a | _ => 0%Z end in
      Some (MkEntity ("fn::" ++ name ++ "/" ++ show_Z arity) node)
  | NodeType.Import => source ← get_meta_str node "source"; Some (MkEntity ("import::" ++ source) node)
  | _ => None
  end.
Fixpoint collect_recursive (node : MetaNode) (out : list NamedEntity) : list NamedEntity :=
  let out := match entity_of node with Some e => out ++ [e] | None => out end in
  match node with MkNode _ _ (CNodes ns) => fold_left (λ out c, collect_recursive c out) ns out | _ => out end.
Definition collect_named_entities (root : MetaNode) : list NamedEntity := collect_recursive root [].

Fixpoint children_equal (a b : MetaNode) {struct a} : bool :=
  match a, b with
  | MkNode ta _ ca, MkNode tb _ cb =>
      bool_decide (ta = tb) &&
      match ca, cb with
      | CValue va, CValue vb => value_eqb va vb
      | CNodes la, CNodes lb => Values.list_eqb children_equal la lb
      | _, _ => false
      end
  end.

Definition has_key (entities : list NamedEntity) (k : string) : bool := existsb (λ o, String.eqb (key o) k) entities.
Definition find_key (entities : list NamedEntity) (k : string) : option NamedEntity :=
  List.find (λ n, String.eqb (key n) k) entities.

(** The loop over the new entities. *)
Fixpoint rename_loop (old_ent : NamedEntity) (new_entities old_entities : list NamedEntity) : option string :=
  match new_entities with
  | [] => None
  | new_ent :: rest =>
      if has_key old_entities (key new_ent) then rename_loop old_ent rest old_entities
      else if bool_decide (node_type (entity new_ent) = node_type (entity old_ent)) then
        if children_equal (entity old_ent) (entity new_ent) then Some (key new_ent)
        else rename_loop old_ent rest old_entities
      else rename_loop old_ent rest old_entities
  end.
Definition find_rename (old_ent : NamedEntity) (new_entities old_entities : list NamedEntity) : option string :=
  match node_type (entity old_ent) with
  | NodeType.FunctionDef | NodeType.Container => rename_loop old_ent new_entities old_entities
  | _ => None
  end.

Definition get_line (node : MetaNode) : option Z :=
  match get_meta node "line" with
  | Some (MInt l) => Some l
  | _ => match get_meta node "line_start" with Some (MInt l) => Some l | _ => None end
  end.

(** ** The difference *)
Definition old_change (old_entities new_entities : list NamedEntity) (old_ent : NamedEntity) : list AstChange :=
  match find_key new_entities (key old_ent) with
  | Some new_ent =>
      if node_eqb (entity old_ent) (entity new_ent) then []
      else [MkChange Modified (node_type (entity new_ent)) (key new_ent) (get_line (entity new_ent))]
  | None =>
      match find_rename old_ent new_entities old_entities with
      | Some new_name => [MkChange Renamed (node_type (entity old_ent)) (key old_ent ++ ARROW ++ new_name) None]
      | None => [MkChange Removed (node_type (entity old_ent)) (key old_ent) None]
      end
  end.
Definition rename_targets (changes : list AstChange) : list string :=
  omap (λ c, split ARROW (ch_name c) !! 1) (List.filter (is_kind Renamed) changes).
Definition new_change (old_entities : list NamedEntity) (rename_targets : list string) (new_ent : NamedEntity) :
    list AstChange :=
  if negb (has_key old_entities (key new_ent)) && negb (existsb (λ t, String.eqb t (key new_ent)) rename_targets)
  then [MkChange Added (node_type (entity new_ent)) (key new_ent) (get_line (entity new_ent))] else [].
Definition count_kind (k : ChangeKind) (changes : list AstChange) : nat := length (List.filter (is_kind k) changes).

Definition diff_trees (old new : MetaNode) : DiffSummary :=
  let old_entities := collect_named_entities old in
  let new_entities := collect_named_entities new in
  let changes := concat (map (old_change old_entities new_entities) old_entities) in
  let changes := changes ++ concat (map (new_change old_entities (rename_targets changes)) new_entities) in
  MkSummary changes (count_kind Added changes) (count_kind Removed changes) (count_kind Modified changes)
    (count_kind Renamed changes).

(** * Differences between trees, specified

    When the named entities of each version have distinct keys without spaces,
    the changes are exactly the modified, renamed, removed and added ones, and
    the stale entities the new or changed ones. *)

Import MetaNodes.
Open Scope nat_scope.

(** ** Splitting at arrows *)
Fixpoint no_space (s : string) : bool :=
  match s with EmptyString => true | String c s' => negb (Ascii.eqb c " "%char) && no_space s' end.

Lemma prefix_arrow c s : Ascii.eqb c " "%char = false → String.prefix ARROW (String c s) = false.
Proof.
  intros Hc. unfold ARROW. cbn [String.prefix]. destruct (ascii_dec " " c) as [<-|_]; [|done]. by rewrite Ascii.eqb_refl in Hc.
Qed.
Lemma split_arrow a b : no_space a = true → split ARROW (a ++ ARROW ++ b) = a :: split ARROW b.
Proof.
  induction a as [|c a IH]; [intros _; by destruct b|]. cbn [no_space]. intros [Hc Ha]%andb_true_iff. apply negb_true_iff in Hc.
  change ((String c a ++ ARROW ++ b)%string) with (String c (a ++ ARROW ++ b)). unfold split in *.
  cbn [split_from]. by rewrite (prefix_arrow _ _ Hc), (IH Ha).
Qed.
Lemma split_no_arrow b : no_space b = true → split ARROW b = [b].
Proof.
  induction b as [|c b IH]; [done|]. cbn [no_space]. intros [Hc Hb]%andb_true_iff. apply negb_true_iff in Hc.
  unfold split in *. cbn [split_from]. by rewrite (prefix_arrow _ _ Hc), (IH Hb).
Qed.
Lemma renamed_name a b : no_space a = true → no_space b = true → split ARROW (a ++ ARROW ++ b) !! 1 = Some b.
Proof. intros Ha Hb. by rewrite split_arrow, split_no_arrow. Qed.

(** ** Entities *)
Lemma collect_entities n : collect_named_entities n = omap entity_of (MetaAst.preorder n).
Proof.
  enough (∀ n out, collect_recursive n out = out ++ omap entity_of (MetaAst.preorder n)) as Hg by apply Hg.
  clear n. intros n. induction n as [n IH] using MetaNode_child_ind. intros out.
  assert (collect_recursive n out =
    fold_left (λ out c, collect_recursive c out) (child_nodes n) (match entity_of n with Some e => out ++ [e] | None => out end)) as ->
    by (by destruct n as [? ? []]).
  assert (out ++ omap entity_of (MetaAst.preorder n) = (match entity_of n with Some e => out ++ [e] | None => out end) ++
    omap entity_of (concat (map MetaAst.preorder (child_nodes n)))) as ->.
  { rewrite MetaAst.preorder_eq. simpl. destruct (entity_of n); [by rewrite <- (assoc_L (++))|done]. }
  generalize (match entity_of n with Some e => out ++ [e] | None => out end) as acc.
  induction IH as [|c l Hc _ IHl]; intros acc; simpl; [by rewrite app_nil_r|].
  rewrite IHl, Hc, omap_app. by rewrite <- (assoc_L (++)).
Qed.

Lemma has_key_true l k : has_key l k = true ↔ ∃ e, e ∈ l ∧ key e = k.
Proof.
  unfold has_key. rewrite existsb_exists. setoid_rewrite <- list_elem_of_In. setoid_rewrite String.eqb_eq. naive_solver.
Qed.
Lemma has_key_false l k : has_key l k = false ↔ ∀ e, e ∈ l → key e ≠ k.
Proof. rewrite <- not_true_iff_false, has_key_true. naive_solver. Qed.
Lemma find_key_Some l k e : find_key l k = Some e → e ∈ l ∧ key e = k.
Proof. intros Hf. apply find_some in Hf as [Hi Hk]. split; [by apply list_elem_of_In|by apply String.eqb_eq]. Qed.
Lemma find_key_None l k : find_key l k = None ↔ ∀ e, e ∈ l → key e ≠ k.
Proof.
  unfold find_key. split.
  - intros Hf e He Hk. apply (find_none _ _ Hf) in He || idtac.
    pose proof (find_none _ _ Hf e (proj1 (list_elem_of_In _ _) He)) as Hn. simpl in Hn. by rewrite Hk, String.eqb_refl in Hn.
  - intros Hn. destruct (List.find _ _) as [e|] eqn:Hf; [|done]. apply find_key_Some in Hf as [He Hk]. by destruct (Hn e He).
Qed.
Lemma distinct_keys l x y : NoDup (map key l) → x ∈ l → y ∈ l → key x = key y → x = y.
Proof.
  induction l as [|z l IH]; [by intros _ ?%not_elem_of_nil|]. simpl. intros [Hz Hn]%NoDup_cons.
  rewrite !elem_of_cons. intros [->|Hx] [->|Hy] E; [done|..|by apply IH].
  - destruct Hz. rewrite E. by apply list_elem_of_fmap_2.
  - destruct Hz. rewrite <- E. by apply list_elem_of_fmap_2.
Qed.
Lemma rename_loop_Some o news olds k :
  rename_loop o news olds = Some k → ∃ e, e ∈ news ∧ key e = k ∧ has_key olds k = false.
Proof.
  induction news as [|n news IH]; [done|]. simpl.
  assert (rename_loop o news olds = Some k → ∃ e, e ∈ n :: news ∧ key e = k ∧ has_key olds k = false) as Hrec.
  { intros (e & ? & ? & ?)%IH. exists e. split_and!; [by right|done..]. }
  destruct (has_key olds (key n)) eqn:Hk; [done|]. case_bool_decide; [|done]. destruct (children_equal _ _); [|done].
  intros [= <-]. exists n. split_and!; [left|done..].
Qed.
Lemma find_rename_Some o news olds k :
  find_rename o news olds = Some k → ∃ e, e ∈ news ∧ key e = k ∧ has_key olds k = false.
Proof. unfold find_rename. destruct (node_type _); try done; apply rename_loop_Some. Qed.

(** ** The changes *)
Section diff.
Context (olds news : list NamedEntity).
Definition old_changes : list AstChange := concat (map (old_change olds news) olds).
Definition all_changes : list AstChange :=
  old_changes ++ concat (map (new_change olds (rename_targets old_changes)) news).

Lemma elem_of_old_changes c : c ∈ old_changes ↔ ∃ o, o ∈ olds ∧ c ∈ old_change olds news o.
Proof.
  unfold old_changes. rewrite list_elem_of_In, in_concat. setoid_rewrite in_map_iff. setoid_rewrite list_elem_of_In. naive_solver.
Qed.
Lemma elem_of_all_changes c : c ∈ all_changes ↔
  c ∈ old_changes ∨ ∃ e, e ∈ news ∧ c ∈ new_change olds (rename_targets old_changes) e.
Proof.
  unfold all_changes. rewrite elem_of_app. apply or_iff_compat_l.
  rewrite list_elem_of_In, in_concat. setoid_rewrite in_map_iff. setoid_rewrite list_elem_of_In. naive_solver.
Qed.
(** An old entity is modified, renamed, removed or unchanged. *)
Lemma elem_of_old_change o c : c ∈ old_change olds news o ↔
  (∃ e, find_key news (key o) = Some e ∧ node_eqb (entity o) (entity e) = false ∧
    c = MkChange Modified (node_type (entity e)) (key e) (get_line (entity e))) ∨
  (find_key news (key o) = None ∧ ∃ k, find_rename o news olds = Some k ∧
    c = MkChange Renamed (node_type (entity o)) (key o ++ ARROW ++ k) None) ∨
  (find_key news (key o) = None ∧ find_rename o news olds = None ∧
    c = MkChange Removed (node_type (entity o)) (key o) None).
Proof.
  unfold old_change. destruct (find_key news (key o)) as [e|].
  - destruct (node_eqb _ _) eqn:He; [|rewrite list_elem_of_singleton; naive_solver].
    split; [by intros ?%not_elem_of_nil|]. intros [(e' & [= <-] & Hn & _)|[[? _]|[? _]]]; congruence.
  - destruct (find_rename _ _ _) as [k|]; rewrite list_elem_of_singleton; naive_solver.
Qed.

Context (Hold : NoDup (map key olds)) (Hnew : NoDup (map key news)).
Context (Hos : ∀ o, o ∈ olds → no_space (key o) = true) (Hns : ∀ e, e ∈ news → no_space (key e) = true).

(** A renamed change carries the new name. *)
Lemma renamed_change o k : o ∈ olds → find_rename o news olds = Some k →
  split ARROW (key o ++ ARROW ++ k) !! 1 = Some k.
Proof using Hos Hns.
  intros Ho (e & He & <- & _)%find_rename_Some. apply renamed_name; [by apply Hos|by apply Hns].
Qed.
Lemma elem_of_rename_targets k : k ∈ rename_targets old_changes ↔
  ∃ o, o ∈ olds ∧ find_key news (key o) = None ∧ find_rename o news olds = Some k.
Proof using Hos Hns.
  unfold rename_targets. rewrite list_elem_of_omap. setoid_rewrite elem_filter_bool. setoid_rewrite elem_of_old_changes.
  unfold is_kind. setoid_rewrite bool_decide_eq_true. split.
  - intros (c & (Hk & o & Ho & Hc) & Hs). apply elem_of_old_change in Hc as [(e & _ & _ & ->)|[(Hf & k' & Hr & ->)|(_ & _ & ->)]]; try done.
    simpl in Hs. rewrite (renamed_change o k') in Hs by done. injection Hs as ->. by exists o.
  - intros (o & Ho & Hf & Hr). eexists. split; [split; [|exists o; split; [done|apply elem_of_old_change; right; left; eauto]]|].
    + done.
    + simpl. by apply renamed_change.
Qed.

Definition fresh_or_changed (k : string) : Prop :=
  ∃ e, e ∈ news ∧ key e = k ∧ ∀ o, o ∈ olds → key o = k → node_eqb (entity o) (entity e) = false.

Lemma stale_change c : c ∈ all_changes → is_stale c = true → fresh_or_changed (stale_name c).
Proof using Hold Hos Hns.
  intros [(o & Ho & Hc)%elem_of_old_changes|(e & He & Hc)]%elem_of_all_changes Hs.
  - apply elem_of_old_change in Hc as [(e & Hf & Hne & ->)|[(Hf & k & Hr & ->)|(_ & _ & ->)]]; [..|done].
    + apply find_key_Some in Hf as [He Hk]. unfold stale_name. simpl. exists e. split_and!; [done..|].
      intros o' Ho' Hk'. assert (o' = o) as -> by (apply (distinct_keys olds); [done..|congruence]). done.
    + unfold stale_name. simpl. rewrite (renamed_change o k) by done. simpl.
      apply find_rename_Some in Hr as (e & He & Hk & Hno). exists e. split_and!; [done..|].
      intros o' Ho' Hk'. rewrite has_key_false in Hno. by destruct (Hno o' Ho').
  - unfold new_change in Hc. destruct (_ && _) eqn:Hb; [|by apply not_elem_of_nil in Hc].
    apply list_elem_of_singleton in Hc as ->. apply andb_true_iff in Hb as [Hb _]. apply negb_true_iff in Hb.
    unfold stale_name. simpl. exists e. split_and!; [done..|]. intros o Ho Hk. rewrite has_key_false in Hb. by destruct (Hb o Ho).
Qed.
Lemma change_for k : fresh_or_changed k → ∃ c, c ∈ all_changes ∧ is_stale c = true ∧ stale_name c = k.
Proof using Hnew Hos Hns.
  intros (e & He & <- & Hall). setoid_rewrite elem_of_all_changes.
  destruct (has_key olds (key e)) eqn:Hk.
  { apply has_key_true in Hk as (o & Ho & Hk). destruct (find_key news (key o)) as [e'|] eqn:Hf.
    2:{ rewrite find_key_None in Hf. by destruct (Hf e He). }
    pose proof (find_key_Some _ _ _ Hf) as [He' Hk']. assert (e' = e) as -> by (apply (distinct_keys news); [done..|congruence]).
    eexists. split; [left; apply elem_of_old_changes; exists o; split; [done|]; apply elem_of_old_change; left; exists e;
      split_and!; [exact Hf|by apply Hall|reflexivity]|]. done. }
  destruct (existsb (λ t, String.eqb t (key e)) (rename_targets old_changes)) eqn:Ht.
  - apply existsb_exists in Ht as (t & Ht & ->%String.eqb_eq). apply list_elem_of_In, elem_of_rename_targets in Ht as (o & Ho & Hf & Hr).
    eexists. split; [left; apply elem_of_old_changes; exists o; split; [done|]; apply elem_of_old_change; right; left; eauto|].
    split; [done|]. unfold stale_name. simpl. by rewrite (renamed_change o (key e)).
  - eexists. split; [right; exists e; split; [done|]; unfold new_change; rewrite Hk, Ht; left|]. done.
Qed.
End diff.

Lemma count_kinds l :
  count_kind Added l + count_kind Removed l + count_kind Modified l + count_kind Renamed l = length l.
Proof.
  unfold count_kind, is_kind. induction l as [|c l IH]; [done|]. cbn [List.filter].
  destruct (ch_kind c); rewrite ?bool_decide_eq_true_2 by done;
    rewrite !bool_decide_eq_false_2 by done; simpl; lia.
Qed.

(** ** What the changes are *)
(** A new entity that no old one is matched to and that has the type and the
    body of [o], and the first such entity. *)
Definition rename_candidate (olds : list NamedEntity) (o e : NamedEntity) : Prop :=
  (∀ o', o' ∈ olds → key o' ≠ key e) ∧ node_type (entity e) = node_type (entity o) ∧
  children_equal (entity o) (entity e) = true.
Definition renamed_to (olds news : list NamedEntity) (o : NamedEntity) (k : string) : Prop :=
  node_type (entity o) = NodeType.FunctionDef ∧ ∃ before e after, news = before ++ e :: after ∧ key e = k ∧
    rename_candidate olds o e ∧ ∀ e', e' ∈ before → ¬ rename_candidate olds o e'.

Definition expected (olds news : list NamedEntity) (c : AstChange) : Prop :=
  match ch_kind c with
  | Added => ∃ e, e ∈ news ∧ (∀ o, o ∈ olds → key o ≠ key e) ∧
      (∀ o, o ∈ olds → (∀ e', e' ∈ news → key e' ≠ key o) → ¬ renamed_to olds news o (key e)) ∧
      c = MkChange Added (node_type (entity e)) (key e) (get_line (entity e))
  | Removed => ∃ o, o ∈ olds ∧ (∀ e, e ∈ news → key e ≠ key o) ∧ (∀ k, ¬ renamed_to olds news o k) ∧
      c = MkChange Removed (node_type (entity o)) (key o) None
  | Modified => ∃ o e, o ∈ olds ∧ e ∈ news ∧ key o = key e ∧ node_eqb (entity o) (entity e) = false ∧
      c = MkChange Modified (node_type (entity e)) (key e) (get_line (entity e))
  | Renamed => ∃ o k, o ∈ olds ∧ (∀ e, e ∈ news → key e ≠ key o) ∧ renamed_to olds news o k ∧
      c = MkChange Renamed (node_type (entity o)) (key o ++ ARROW ++ k) None
  end.

Lemma rename_loop_iff o news olds k : rename_loop o news olds = Some k ↔
  ∃ before e after, news = before ++ e :: after ∧ key e = k ∧ rename_candidate olds o e ∧
    ∀ e', e' ∈ before → ¬ rename_candidate olds o e'.
Proof.
  assert (∀ n news, (rename_loop o (n :: news) olds = Some (key n) ∧ rename_candidate olds o n) ∨
    (rename_loop o (n :: news) olds = rename_loop o news olds ∧ ¬ rename_candidate olds o n)) as Hstep.
  { intros n l. unfold rename_candidate. cbn [rename_loop]. rewrite <- has_key_false.
    destruct (has_key olds (key n)); [right; naive_solver|]. case_bool_decide; [|right; naive_solver].
    destruct (children_equal _ _); [left|right]; naive_solver. }
  induction news as [|n news IH].
  { split; [done|]. by intros ([] & ? & ? & ? & _). }
  destruct (Hstep n news) as [[-> Hc]|[-> Hc]].
  - split; [intros [= <-]; exists [], n, news; split_and!; [done..|]; by intros ? ?%not_elem_of_nil|].
    intros ([|n' before] & e & after & [= -> ->] & <- & He & Hb); [done|]. destruct (Hb n'); [left|done].
  - rewrite IH. split.
    + intros (before & e & after & -> & Hk & He & Hb). exists (n :: before), e, after. split_and!; [done..|].
      intros e' [->|?]%elem_of_cons; [done|by apply Hb].
    + intros ([|n' before] & e & after & [= -> ->] & Hk & He & Hb); [done|]. exists before, e, after. split_and!; [done..|].
      intros e' ?. apply Hb. by right.
Qed.

(** Lists that hold at most one change per entity. *)
Definition owner (c : AstChange) : option string := head (split ARROW (ch_name c)).
Lemma owned_NoDup (f : NamedEntity → list AstChange) l : NoDup (map key l) →
  (∀ x c, x ∈ l → c ∈ f x → owner c = Some (key x)) → (∀ x, x ∈ l → length (f x) ≤ 1) → NoDup (concat (map f l)).
Proof.
  induction l as [|x l IH]; cbn [map concat]; [constructor|]. intros [Hx Hnd]%NoDup_cons Ho Hl. apply NoDup_app. split_and!.
  - specialize (Hl x ltac:(left)). destruct (f x) as [|c [|c' cs]]; simpl in Hl; [constructor|apply NoDup_singleton|lia].
  - intros c Hc Hin. apply list_elem_of_In, in_concat in Hin as (cs & Hcs & Hin). apply in_map_iff in Hcs as (y & <- & Hy).
    apply list_elem_of_In in Hy, Hin. apply Hx.
    assert (Some (key x) = Some (key y)) as [= ->] by (rewrite <- (Ho x c), <- (Ho y c); [done|by right|done|left|done]).
    apply list_elem_of_fmap. by exists y.
  - apply IH; [done|..]; intros; [apply Ho; [by right|done]|apply Hl; by right].
Qed.

Section expected.
Context (olds news : list NamedEntity).
Context (Hold : NoDup (map key olds)) (Hnew : NoDup (map key news)).
Context (Hos : ∀ o, o ∈ olds → no_space (key o) = true) (Hns : ∀ e, e ∈ news → no_space (key e) = true).
Context (Hty : ∀ o, o ∈ olds → node_type (entity o) = NodeType.FunctionDef ∨ node_type (entity o) = NodeType.Import).

Lemma find_rename_iff o k : o ∈ olds → find_rename o news olds = Some k ↔ renamed_to olds news o k.
Proof using Hty.
  intros Ho. unfold find_rename, renamed_to. rewrite <- rename_loop_iff.
  destruct (Hty o Ho) as [E|E]; rewrite E; naive_solver.
Qed.
Lemma find_rename_none o : o ∈ olds → find_rename o news olds = None ↔ ∀ k, ¬ renamed_to olds news o k.
Proof using Hty.
  intros Ho. setoid_rewrite <- find_rename_iff; [|done]. destruct (find_rename o news olds) as [k|]; [|naive_solver].
  split; [done|]. intros Hn. by destruct (Hn k).
Qed.
Lemma elem_of_new_change e c : e ∈ news → c ∈ new_change olds (rename_targets (old_changes olds news)) e ↔
  (∀ o, o ∈ olds → key o ≠ key e) ∧
  (∀ o, o ∈ olds → (∀ e', e' ∈ news → key e' ≠ key o) → ¬ renamed_to olds news o (key e)) ∧
  c = MkChange Added (node_type (entity e)) (key e) (get_line (entity e)).
Proof using Hos Hns Hty.
  intros He. unfold new_change. rewrite <- has_key_false.
  assert (existsb (λ t, String.eqb t (key e)) (rename_targets (old_changes olds news)) = false ↔
    ∀ o, o ∈ olds → (∀ e', e' ∈ news → key e' ≠ key o) → ¬ renamed_to olds news o (key e)) as <-.
  { rewrite <- not_true_iff_false, existsb_exists. setoid_rewrite <- list_elem_of_In. setoid_rewrite String.eqb_eq. split.
    - intros Hn o Ho Hf Hr. apply Hn. exists (key e). split; [|done]. apply elem_of_rename_targets; [done..|].
      exists o. split; [done|]. split; [by apply find_key_None|by apply find_rename_iff].
    - intros Hn (t & Ht & ->). apply elem_of_rename_targets in Ht as (o & Ho & Hf & Hr); [|done..].
      eapply Hn; [exact Ho|by apply find_key_None|by apply find_rename_iff]. }
  destruct (has_key olds (key e)), (existsb _ _); simpl; rewrite ?list_elem_of_singleton, ?elem_of_nil; naive_solver.
Qed.

Lemma changes_expected c : c ∈ all_changes olds news ↔ expected olds news c.
Proof using Hnew Hos Hns Hty.
  rewrite elem_of_all_changes, elem_of_old_changes. setoid_rewrite elem_of_old_change. split.
  - intros [(o & Ho & [(e & Hf & Hne & ->)|[(Hf & k & Hr & ->)|(Hf & Hr & ->)]])|(e & He & Hc)]; unfold expected; simpl.
    + apply find_key_Some in Hf as [He Hk]. by exists o, e.
    + exists o, k. split_and!; [done|by apply find_key_None|by apply find_rename_iff|done].
    + exists o. split_and!; [done|by apply find_key_None|by apply find_rename_none|done].
    + apply elem_of_new_change in Hc as (Hk & Hr & ->); [|done]. simpl. by exists e.
  - unfold expected. destruct (ch_kind c).
    + intros (e & He & Hk & Hr & ->). right. exists e. split; [done|]. by apply elem_of_new_change.
    + intros (o & Ho & Hk & Hr & ->). left. exists o. split; [done|]. right; right.
      split_and!; [by apply find_key_None|by apply find_rename_none|done].
    + intros (o & e & Ho & He & Hk & Hne & ->). left. exists o. split; [done|]. left. exists e. split_and!; [|done..].
      destruct (find_key news (key o)) as [e'|] eqn:Hf.
      * apply find_key_Some in Hf as [He' Hk']. f_equal. apply (distinct_keys news); [done..|congruence].
      * apply find_key_None with (e := e) in Hf; [|done]. by destruct Hf.
    + intros (o & k & Ho & Hk & Hr & ->). left. exists o. split; [done|]. right; left.
      split; [by apply find_key_None|]. exists k. split; [by apply find_rename_iff|done].
Qed.
Lemma changes_NoDup : NoDup (all_changes olds news).
Proof using Hold Hnew Hos Hns.
  unfold all_changes. apply NoDup_app. split_and!.
  - apply owned_NoDup; [done| |].
    + intros o c Ho [(e & Hf & _ & ->)|[(_ & k & _ & ->)|(_ & _ & ->)]]%elem_of_old_change; unfold owner; simpl.
      * apply find_key_Some in Hf as [He <-]. by rewrite split_no_arrow by auto.
      * by rewrite split_arrow by auto.
      * by rewrite split_no_arrow by auto.
    + intros o _. unfold old_change. repeat case_match; simpl; lia.
  - intros c (o & _ & Hc)%elem_of_old_changes Hin. apply list_elem_of_In, in_concat in Hin as (cs & Hcs & Hin).
    apply in_map_iff in Hcs as (e & <- & _). apply list_elem_of_In in Hin. unfold new_change in Hin.
    destruct (_ && _); [|by apply not_elem_of_nil in Hin]. apply list_elem_of_singleton in Hin as ->.
    by apply elem_of_old_change in Hc as [(? & _ & _ & [=])|[(_ & ? & _ & [=])|(_ & _ & [=])]].
  - apply owned_NoDup; [done| |].
    + intros e c He Hc. unfold new_change in Hc. destruct (_ && _); [|by apply not_elem_of_nil in Hc].
      apply list_elem_of_singleton in Hc as ->. unfold owner. simpl. by rewrite split_no_arrow by auto.
    + intros e _. unfold new_change. destruct (_ && _); simpl; lia.
Qed.
End expected.

Lemma entity_types n o : o ∈ omap entity_of (MetaAst.preorder n) →
  node_type (entity o) = NodeType.FunctionDef ∨ node_type (entity o) = NodeType.Import.
Proof.
  intros (x & _ & He)%list_elem_of_omap. unfold entity_of in He. destruct (node_type x) eqn:E; try done.
  - destruct (get_meta_str x "name"); [|done]. injection He as <-. by left.
  - destruct (get_meta_str x "source"); [|done]. injection He as <-. by right.
Qed.


(** ** Concrete versions *)
Definition fn_node (name body : string) : MetaNode :=
  composite NodeType.FunctionDef [("name", MString name); ("arity", MInt 1)]%string
    [leaf NodeType.Variable_ [] (MString body)].
Definition module_of (ns : list MetaNode) : MetaNode := composite NodeType.Container [("name", MString "App")]%string ns.

Definition old_version : MetaNode := module_of [fn_node "add" "x"; fn_node "old" "y"].
Definition new_version : MetaNode := module_of [fn_node "add" "z"; fn_node "new" "y"].

(** Clauses of one function share a key, and the difference then goes
    wrong in both directions: a module with two clauses of [f/1] differs from
    itself, and a clause added to [f/1] is not reported at all. *)
Theorem diff_duplicate_clauses :
  let two := module_of [fn_node "f" "x"; fn_node "f" "y"] in
  let one := module_of [fn_node "f" "x"] in
  stale_entities (diff_trees two two) = ["fn::f/1"%string] ∧ changes (diff_trees one two) = [].
Proof. split; vm_compute; reflexivity. Qed.

(** A renamed function is not among the entities to remove: its old entry
    stays in the index. *)
Example renamed_not_removed :
  let d := diff_trees (module_of [fn_node "add" "x"]) (module_of [fn_node "sum" "x"]) in
  stale_entities d = ["fn::sum/1"%string] ∧ removed_entities d = [].
Proof. split; vm_compute; reflexivity. Qed.
