(* ===== verification/Ingest.v ===== *)
(** * Predefined schemas (crates/code-intel/src/schemas.rs) *)

From stdpp Require Import gmap.
From S2P Require Export Core Extract Display.

Definition EDGE_CALLS : string := "calls".
Definition EDGE_CONTAINS : string := "contains".
Definition EDGE_RETURNS : string := "returns".
Definition EDGE_IMPORTS : string := "imports".
Definition EDGE_OVERRIDES : string := "overrides".
Definition EDGE_EXEMPLIFIES : string := "exemplifies".
Definition ALL_EDGE_TYPES : list string :=
  [EDGE_CALLS; EDGE_CONTAINS; EDGE_RETURNS; EDGE_IMPORTS; EDGE_OVERRIDES; EDGE_EXEMPLIFIES].

Definition field (name : string) (field_type : FieldType) (required : bool) : FieldDefinition :=
  {| fd_name := name; fd_field_type := field_type; fd_required := required |}.
Definition ast_node_schema : TableDefinition := {|
  td_name := "ast_node";
  td_schema_mode := Schemafull;
  td_fields :=
    [field "name" TString true; field "kind" TString true; field "language" TString true;
     field "file_path" TString false; field "line_start" TInt false; field "line_end" TInt false;
     field "source_text" TString false; field "signature" TString false; field "docstring" TString false;
     field "source_embedding" (TVector 768) false; field "structure_embedding" (TVector 384) false;
     field "docstring_embedding" (TVector 768) false; field "ast_serialized" TString false]
|}.
Definition DOCUMENT_KINDS : list string :=
  ["function_def"; "container"; "lambda"; "property"; "type_annotation"]%string.

(** * Batch ingestion (crates/code-intel/src/ingest.rs)

    A tree becomes documents and edges, and those become statements of the
    query language.  The serialization of a node as JSON is a parameter. *)

Import MetaNodes.
Open Scope nat_scope.

(** [serde_json::to_string(node)]; [None] is its error. *)
Class NodeJson := { node_to_json : MetaNode → option string }.

Record AstDocument := MkAstDocument {
  ad_id : string; ad_name : string; ad_kind : string; ad_language : string; ad_file_path : string;
  ad_line_start : option Z; ad_line_end : option Z; ad_source_text : option string;
  ad_signature : option string; ad_docstring : option string; ad_ast_serialized : option string }.
Record AstEdge := MkAstEdge { ae_from_id : string; ae_edge_type : string; ae_to_id : string }.
Record IngestStats := MkStats { containers : nat; functions : nat; imports : nat; calls : nat; n_edges : nat }.
Record IngestBatch := MkIngest {
  documents : list AstDocument; ib_edges : list AstEdge; ib_file_path : string; ib_language : string;
  stats : IngestStats }.

(** ** Identifiers *)
Definition container_id (file_path kind name : string) : string := (file_path ++ "::" ++ kind ++ "::" ++ name)%string.
Definition function_id (file_path name : string) (arity : Z) : string :=
  (file_path ++ "::" ++ name ++ "/" ++ show_Z arity)%string.
Definition import_id (source : string) : string := ("import::" ++ source)%string.
Definition call_target_id (target_name : string) : string := ("call_target::" ++ target_name)%string.
Definition escape_str (s : string) : string := replace "'"%char "''" s.

(** ** Preparing a batch *)
(** The vectors and counters the closures fill. *)
Abbreviation Acc := (list AstDocument * list AstEdge * IngestStats)%type.
Definition stats_default : IngestStats := MkStats 0 0 0 0 0.
Definition add_container (s : IngestStats) := MkStats (containers s + 1) (functions s) (imports s) (calls s) (n_edges s).
Definition add_function (s : IngestStats) := MkStats (containers s) (functions s + 1) (imports s) (calls s) (n_edges s).
Definition add_import (s : IngestStats) := MkStats (containers s) (functions s) (imports s + 1) (calls s) (n_edges s).
Definition add_call (s : IngestStats) := MkStats (containers s) (functions s) (imports s) (calls s + 1) (n_edges s).
Definition add_edge (s : IngestStats) := MkStats (containers s) (functions s) (imports s) (calls s) (n_edges s + 1).

(** The names and arities of the functions of the file; a later definition of
    a name replaces an earlier one. *)
Definition local_fns (root : MetaNode) : gmap string Z :=
  walk (λ fns n,
    if decide (node_type n = NodeType.FunctionDef) then
      match get_meta_str n "name" with Some name => <[name := arity_of n]> fns | None => fns end
    else fns) ∅ root.

Definition is_func (func : FunctionInfo) (n : MetaNode) : bool :=
  bool_decide (node_type n = NodeType.FunctionDef) && bool_decide (get_meta_str n "name" = Some (fi_name func)) &&
  (arity_of n =? fi_arity func)%Z.

Section prepare.
Context `{NodeJson} (file_path language : string).

(** The source, documentation and serialization of the last match. *)
Definition func_details (node : MetaNode) (func : FunctionInfo) : option string * option string * option string :=
  walk (λ details n,
    if is_func func n then (get_meta_str n "source", get_meta_str n "doc", node_to_json n) else details)
    (None, None, None) node.
Definition signature_of (func : FunctionInfo) : string :=
  (fi_name func ++ "(" ++ join_with ", " (fi_params func) ++ ") [" ++ fi_visibility func ++ "]")%string.
Definition function_document (node : MetaNode) (func : FunctionInfo) : AstDocument :=
  let '(func_source, func_doc, func_ast_serialized) := func_details node func in
  MkAstDocument (function_id file_path (fi_name func) (fi_arity func)) (fi_name func) "function_def" language file_path
    (fi_line func) None func_source (Some (signature_of func)) func_doc func_ast_serialized.
Definition container_kind (node : MetaNode) : string := or_else (get_meta_str node "container_type") "container".
Definition container_name (node : MetaNode) : string := or_else (get_meta_str node "name") "anonymous".
Definition container_document (node : MetaNode) : AstDocument :=
  MkAstDocument (container_id file_path (container_kind node) (container_name node)) (container_name node)
    (container_kind node) language file_path (meta_int node "line") None (get_meta_str node "source") None
    (get_meta_str node "doc") (node_to_json node).

(** The id a call refers to. *)
Definition call_id (fns : gmap string Z) (call : string) : string :=
  match fns !! call with Some local_arity => function_id file_path call local_arity | None => call_target_id call end.
Definition push_call (fns : gmap string Z) (fid : string) (acc : Acc) (call : string) : Acc :=
  let '(docs, edges, st) := acc in
  (docs, edges ++ [MkAstEdge fid EDGE_CALLS (call_id fns call)], add_edge (add_call st)).

(** The loops over the functions and the imports of a container. *)
Definition push_function (node : MetaNode) (cid : string) (acc : Acc) (func : FunctionInfo) : Acc :=
  let '(docs, edges, st) := acc in
  (docs ++ [function_document node func],
   edges ++ [MkAstEdge cid EDGE_CONTAINS (function_id file_path (fi_name func) (fi_arity func))],
   add_edge (add_function st)).
Definition push_import (cid : string) (acc : Acc) (imp : ImportInfo) : Acc :=
  let '(docs, edges, st) := acc in
  (docs, edges ++ [MkAstEdge cid EDGE_IMPORTS (import_id (ii_source imp))], add_edge (add_import st)).
Definition push_calls (fns : gmap string Z) (node : MetaNode) (acc : Acc) (func : FunctionInfo) : Acc :=
  let fid := function_id file_path (fi_name func) (fi_arity func) in
  walk (λ acc child, if is_func func child then fold_left (push_call fns fid) (extract_calls child) acc else acc) acc node.

Definition push_container (fns : gmap string Z) (acc : Acc) (node : MetaNode) : Acc :=
  if decide (node_type node = NodeType.Container) then
    let '(docs, edges, st) := acc in
    let cid := container_id file_path (container_kind node) (container_name node) in
    let acc := (docs ++ [container_document node], edges, add_container st) in
    let funcs := extract_functions node in
    let acc := fold_left (push_function node cid) funcs acc in
    let acc := fold_left (push_import cid) (extract_imports node) acc in
    fold_left (push_calls fns node) funcs acc
  else acc.

(** A function at the root of the file. *)
Definition push_root_function (fns : gmap string Z) (root : MetaNode) (acc : Acc) (func : FunctionInfo) : Acc :=
  let '(docs, edges, st) := acc in
  let fid := function_id file_path (fi_name func) (fi_arity func) in
  fold_left (push_call fns fid) (extract_calls root) (docs ++ [function_document root func], edges, add_function st).

Definition prepare_batch (root : MetaNode) : IngestBatch :=
  let fns := local_fns root in
  let acc := walk (push_container fns) ([], [], stats_default) root in
  let '(docs, edges, st) :=
    if decide (node_type root = NodeType.FunctionDef)
    then fold_left (push_root_function fns root) (extract_functions root) acc else acc in
  MkIngest docs edges file_path language st.
End prepare.

(** ** Statements *)
Definition quoted_set (name value : string) : string := (name ++ " = '" ++ escape_str value ++ "'")%string.
Definition opt_set {A} (f : A → string) (o : option A) : list string := match o with Some a => [f a] | None => [] end.
Definition sets_of (doc : AstDocument) : list string :=
  [quoted_set "name" (ad_name doc); quoted_set "kind" (ad_kind doc); quoted_set "language" (ad_language doc);
   quoted_set "file_path" (ad_file_path doc)] ++
  opt_set (λ line, "line_start = " ++ show_Z line)%string (ad_line_start doc) ++
  opt_set (λ line, "line_end = " ++ show_Z line)%string (ad_line_end doc) ++
  opt_set (quoted_set "source_text") (ad_source_text doc) ++
  opt_set (quoted_set "signature") (ad_signature doc) ++
  opt_set (quoted_set "docstring") (ad_docstring doc) ++
  opt_set (quoted_set "ast_serialized") (ad_ast_serialized doc).
Definition create_query (doc : AstDocument) : string :=
  ("CREATE ast_node:" ++ escape_str (ad_id doc) ++ " SET " ++ join_with ", " (sets_of doc))%string.
Definition relate_query (edge : AstEdge) : string :=
  ("RELATE ast_node:" ++ escape_str (ae_from_id edge) ++ " -> " ++ ae_edge_type edge ++ " -> ast_node:" ++
   escape_str (ae_to_id edge))%string.
Definition generate_dllb_queries (batch : IngestBatch) : list string :=
  ["BEGIN BATCH"%string] ++ map create_query (documents batch) ++ map relate_query (ib_edges batch) ++ ["END BATCH"%string].

(** ** Merging batches *)
Definition add_stats (a b : IngestStats) : IngestStats :=
  MkStats (containers a + containers b) (functions a + functions b) (imports a + imports b) (calls a + calls b)
    (n_edges a + n_edges b).
Definition merge_step (acc : list AstDocument * list AstEdge * IngestStats * list string * string) (batch : IngestBatch) :=
  let '(docs, edges, st, file_paths, language) := acc in
  (docs ++ documents batch, edges ++ ib_edges batch, add_stats st (stats batch), file_paths ++ [ib_file_path batch],
   if String.eqb language "" then ib_language batch else language).
Definition merge_batches (batches : list IngestBatch) : IngestBatch :=
  let '(docs, edges, st, file_paths, language) := fold_left merge_step batches ([], [], stats_default, [], ""%string) in
  let file_path :=
    match file_paths with [p] => p | _ => ("[" ++ show_nat (length file_paths) ++ " files]")%string end in
  MkIngest docs edges file_path language st.
