(* ===== verification/IngestSpec.v ===== *)
(** * Batch ingestion, specified

    Batches are well formed: the counters count, edges start at documents of
    the batch, and identifiers carry the file.  For files whose functions lie
    in one container each they hold exactly the containers and functions and
    their edges.  The statements generated from
    a batch are not statements of the query language, though. *)

From stdpp Require Import gmap.
From S2P Require Export Ingest.
Import MetaNodes.
Open Scope nat_scope.

Definition ids (docs : list AstDocument) : list string := map ad_id docs.
Definition edges_of (ty : string) (edges : list AstEdge) : nat :=
  length (List.filter (λ e, String.eqb (ae_edge_type e) ty) edges).
Definition is_container (n : MetaNode) : bool := bool_decide (node_type n = NodeType.Container).

Section wf.
Context `{NodeJson} (file_path language : string).

(** What holds of the vectors and counters after [k] containers. *)
Record acc_wf (k : nat) (acc : Acc) : Prop := {
  wf_containers : containers acc.2 = k;
  wf_documents : containers acc.2 + functions acc.2 = length acc.1.1;
  wf_edges : n_edges acc.2 = length acc.1.2;
  wf_imports : imports acc.2 = edges_of EDGE_IMPORTS acc.1.2;
  wf_calls : calls acc.2 = edges_of EDGE_CALLS acc.1.2;
  wf_from : ∀ e, e ∈ acc.1.2 → ae_from_id e ∈ ids acc.1.1 ∧ ae_edge_type e ∈ ALL_EDGE_TYPES ∧
    (ae_edge_type e = EDGE_CONTAINS → ae_to_id e ∈ ids acc.1.1);
  wf_ids : ∀ d, d ∈ acc.1.1 → ∃ rest, ad_id d = (file_path ++ "::" ++ rest)%string
}.

(** Pushing one document or one edge. *)
Lemma wf_push_doc k docs edges st d st' :
  acc_wf k (docs, edges, st) → (∃ rest, ad_id d = (file_path ++ "::" ++ rest)%string) →
  n_edges st' = n_edges st → imports st' = imports st → calls st' = calls st →
  containers st' + functions st' = containers st + functions st + 1 →
  acc_wf (containers st') (docs ++ [d], edges, st').
Proof.
  intros Hwf Hd He Hi Hc Hn. destruct Hwf as [H1 H2 H3 H4 H5 H6 H7]. simpl in *. split; simpl.
  - done.
  - rewrite length_app. simpl. lia.
  - congruence.
  - congruence.
  - congruence.
  - intros e Hin. destruct (H6 e Hin) as (Hf & Ht & Hto). unfold ids. rewrite map_app.
    split_and!; [apply elem_of_app; by left|done|]. intros E. apply elem_of_app. left. by apply Hto.
  - intros d' [Hd'| ->%list_elem_of_singleton]%elem_of_app; [by apply H7|done].
Qed.
Lemma edges_of_snoc ty edges e :
  edges_of ty (edges ++ [e]) = edges_of ty edges + (if String.eqb (ae_edge_type e) ty then 1 else 0).
Proof. unfold edges_of. rewrite List.filter_app, length_app. simpl. by destruct (String.eqb _ _). Qed.
Lemma wf_push_edge k docs edges st e st' :
  acc_wf k (docs, edges, st) → ae_from_id e ∈ ids docs → ae_edge_type e ∈ ALL_EDGE_TYPES →
  (ae_edge_type e = EDGE_CONTAINS → ae_to_id e ∈ ids docs) →
  containers st' = containers st → functions st' = functions st → n_edges st' = n_edges st + 1 →
  imports st' = imports st + (if String.eqb (ae_edge_type e) EDGE_IMPORTS then 1 else 0) →
  calls st' = calls st + (if String.eqb (ae_edge_type e) EDGE_CALLS then 1 else 0) →
  acc_wf k (docs, edges ++ [e], st').
Proof.
  intros Hwf Hf Ht Hto Hc Hfn Hn Hi Hca. destruct Hwf as [H1 H2 H3 H4 H5 H6 H7]. simpl in *. split; simpl.
  - congruence.
  - congruence.
  - rewrite length_app. simpl. lia.
  - rewrite edges_of_snoc. congruence.
  - rewrite edges_of_snoc. congruence.
  - intros e' [He| ->%list_elem_of_singleton]%elem_of_app; [by apply H6|done].
  - done.
Qed.

(** The documents already there stay. *)
Definition keeps (docs docs' : list AstDocument) : Prop := ∀ i, i ∈ ids docs → i ∈ ids docs'.

Lemma fold_wf {A} (f : Acc → A → Acc) (P : Acc → Prop) l acc :
  P acc → (∀ acc x, x ∈ l → P acc → P (f acc x)) → P (fold_left f l acc).
Proof.
  revert acc. induction l as [|x l IH]; intros acc Hp Hf; simpl; [done|]. apply IH; [apply Hf; [left|done]|].
  intros acc' y Hy. apply Hf. by right.
Qed.

(** Invariant with documents that stay available. *)
Definition inv (k : nat) (docs : list AstDocument) (acc : Acc) : Prop := acc_wf k acc ∧ keeps docs acc.1.1.
Lemma inv_refl k acc : acc_wf k acc → inv k acc.1.1 acc.
Proof. split; [done|]. by intros ? ?. Qed.

Lemma inv_push_call k docs0 fns fid acc call :
  fid ∈ ids docs0 → inv k docs0 acc → inv k docs0 (push_call file_path fns fid acc call).
Proof.
  intros Hf [Hwf Hk]. destruct acc as [[docs edges] st]. unfold push_call. split; [|done]. simpl in *.
  eapply wf_push_edge; [exact Hwf|by apply Hk|left|done|simpl; lia..].
Qed.
Lemma inv_calls k docs0 fns fid l acc :
  fid ∈ ids docs0 → inv k docs0 acc → inv k docs0 (fold_left (push_call file_path fns fid) l acc).
Proof. intros Hf Hi. apply fold_wf; [done|]. intros. by apply inv_push_call. Qed.
Lemma inv_push_calls k docs0 fns node acc func :
  function_id file_path (fi_name func) (fi_arity func) ∈ ids docs0 →
  inv k docs0 acc → inv k docs0 (push_calls file_path fns node acc func).
Proof.
  intros Hf Hi. unfold push_calls. rewrite walk_preorder. apply fold_wf; [done|]. intros acc' x _ Hx.
  destruct (is_func func x); [by apply inv_calls|done].
Qed.
Lemma inv_push_import k docs0 cid acc imp :
  cid ∈ ids docs0 → inv k docs0 acc → inv k docs0 (push_import cid acc imp).
Proof.
  intros Hf [Hwf Hk]. destruct acc as [[docs edges] st]. unfold push_import. split; [|done]. simpl in *.
  eapply wf_push_edge; [exact Hwf|by apply Hk|do 3 right; left|done|simpl; lia..].
Qed.

Lemma function_document_id node func :
  ad_id (function_document file_path language node func) = function_id file_path (fi_name func) (fi_arity func).
Proof. unfold function_document. by destruct (func_details node func) as [[] ?]. Qed.
Lemma function_document_path node func :
  ∃ rest, ad_id (function_document file_path language node func) = (file_path ++ "::" ++ rest)%string.
Proof. rewrite function_document_id. by eexists. Qed.

(** After the loop the documents of all the functions are there. *)
Lemma inv_functions k docs0 node cid funcs acc :
  cid ∈ ids docs0 → inv k docs0 acc →
  let acc' := fold_left (push_function file_path language node cid) funcs acc in
  inv k docs0 acc' ∧ ∀ func, func ∈ funcs → function_id file_path (fi_name func) (fi_arity func) ∈ ids acc'.1.1.
Proof.
  intros Hc. revert acc. induction funcs as [|func funcs IH] using rev_ind; intros acc Hi; simpl.
  { split; [done|]. by intros ? ?%not_elem_of_nil. }
  rewrite fold_left_app. simpl. destruct (IH acc Hi) as [[Hwf Hk] Hfs]. clear IH Hi.
  destruct (fold_left _ funcs acc) as [[docs edges] st]. simpl in *. unfold push_function.
  assert (∀ i, i ∈ ids docs → i ∈ ids (docs ++ [function_document file_path language node func])) as Hin.
  { intros i Hi. unfold ids. rewrite map_app. apply elem_of_app. by left. }
  assert (function_id file_path (fi_name func) (fi_arity func) ∈ ids (docs ++ [function_document file_path language node func])) as Hthis.
  { unfold ids. rewrite map_app. apply elem_of_app. right. simpl. rewrite function_document_id. left. }
  split; [split; [|by intros i Hi; apply Hin, Hk]|].
  - pose proof (wf_containers _ _ Hwf) as Hk'. simpl in Hk'. rewrite <- Hk'.
    eapply (wf_push_edge _ _ _ (add_function st)); [|by apply Hin, Hk|right; left|done|simpl; lia..].
    change (containers st) with (containers (add_function st)).
    eapply wf_push_doc; [exact Hwf|apply function_document_path|done..|simpl; lia].
  - intros f' [Hf'| ->%list_elem_of_singleton]%elem_of_app; [by apply Hin, Hfs|done].
Qed.

Lemma wf_push_container k fns acc node :
  acc_wf k acc → acc_wf (k + (if is_container node then 1 else 0)) (push_container file_path language fns acc node).
Proof.
  intros Hwf. unfold push_container, is_container. rewrite decide_bool_decide.
  destruct (bool_decide _); [|by rewrite Nat.add_0_r].
  destruct acc as [[docs edges] st].
  set (cid := container_id file_path (container_kind node) (container_name node)).
  set (acc1 := (docs ++ [container_document file_path language node], edges, add_container st)).
  assert (acc_wf (k + 1) acc1) as Hwf1.
  { pose proof (wf_containers _ _ Hwf) as Hk. simpl in Hk. rewrite <- Hk.
    change (containers st + 1) with (containers (add_container st)).
    eapply wf_push_doc; [exact Hwf| |done..|simpl; lia]. by eexists. }
  assert (cid ∈ ids acc1.1.1) as Hcid.
  { unfold acc1, ids. simpl. rewrite map_app. apply elem_of_app. right. simpl. left. }
  destruct (inv_functions (k + 1) acc1.1.1 node cid (extract_functions node) acc1 Hcid (inv_refl _ _ Hwf1)) as [[Hwf2 Hk2] Hfs].
  set (acc2 := fold_left (push_function file_path language node cid) (extract_functions node) acc1) in *. clearbody acc2.
  assert (inv (k + 1) acc2.1.1 (fold_left (push_import cid) (extract_imports node) acc2)) as Hi3.
  { apply fold_wf; [exact (inv_refl (k + 1) acc2 Hwf2)|]. intros acc' imp _ Hi. apply inv_push_import; [by apply Hk2|done]. }
  enough (inv (k + 1) acc2.1.1 (fold_left (push_calls file_path fns node) (extract_functions node)
    (fold_left (push_import cid) (extract_imports node) acc2))) as [Hf _] by exact Hf.
  apply fold_wf; [done|]. intros acc' func Hf Hi. apply inv_push_calls; [by apply Hfs|done].
Qed.

Lemma wf_containers_walk fns l : ∀ k acc, acc_wf k acc →
  acc_wf (k + length (List.filter is_container l)) (fold_left (push_container file_path language fns) l acc).
Proof.
  induction l as [|n l IH]; intros k acc Hwf; simpl; [by rewrite Nat.add_0_r|].
  apply (wf_push_container _ fns _ n), IH in Hwf. destruct (is_container n); simpl in *;
    [by rewrite <- Nat.add_assoc in Hwf|by rewrite Nat.add_0_r in Hwf].
Qed.

Lemma wf_root_function k fns root acc func :
  acc_wf k acc → acc_wf k (push_root_function file_path language fns root acc func).
Proof.
  intros Hwf. destruct acc as [[docs edges] st]. unfold push_root_function.
  set (docs' := docs ++ [function_document file_path language root func]).
  assert (acc_wf k (docs', edges, add_function st)) as Hwf'.
  { pose proof (wf_containers _ _ Hwf) as Hk. simpl in Hk. rewrite <- Hk.
    change (containers st) with (containers (add_function st)).
    eapply wf_push_doc; [exact Hwf|apply function_document_path|done..|simpl; lia]. }
  enough (inv k docs' (fold_left (push_call file_path fns (function_id file_path (fi_name func) (fi_arity func)))
    (extract_calls root) (docs', edges, add_function st))) as [Hf _] by exact Hf.
  apply inv_calls; [|exact (inv_refl k (docs', edges, add_function st) Hwf')].
  unfold docs', ids. rewrite map_app. apply elem_of_app. right. simpl. rewrite function_document_id. left.
Qed.

Lemma prepare_batch_wf root :
  acc_wf (length (List.filter is_container (MetaAst.preorder root)))
    (documents (prepare_batch file_path language root), ib_edges (prepare_batch file_path language root),
     stats (prepare_batch file_path language root)).
Proof.
  assert (acc_wf 0 ([], [], stats_default)) as H0.
  { split; simpl; try done; by intros ? ?%not_elem_of_nil. }
  apply (wf_containers_walk (local_fns root) (MetaAst.preorder root)) in H0. simpl in H0.
  unfold prepare_batch. rewrite walk_preorder.
  assert (acc_wf (length (List.filter is_container (MetaAst.preorder root)))
    (if decide (node_type root = NodeType.FunctionDef)
     then fold_left (push_root_function file_path language (local_fns root) root) (extract_functions root)
       (fold_left (push_container file_path language (local_fns root)) (MetaAst.preorder root) ([], [], stats_default))
     else fold_left (push_container file_path language (local_fns root)) (MetaAst.preorder root) ([], [], stats_default))) as Hf.
  { destruct (decide _); [|done]. apply fold_wf; [done|]. intros. by apply wf_root_function. }
  destruct (if decide _ then _ else _) as [[docs edges] st]. exact Hf.
Qed.
End wf.

(** ** What a batch holds *)
Definition is_fn (n : MetaNode) : bool := bool_decide (node_type n = NodeType.FunctionDef).
Definition container_nodes (n : MetaNode) : list MetaNode := List.filter is_container (MetaAst.preorder n).
Definition fn_nodes (n : MetaNode) : list MetaNode := List.filter is_fn (MetaAst.preorder n).
Definition import_nodes (n : MetaNode) : list MetaNode :=
  List.filter (λ m, bool_decide (node_type m = NodeType.Import)) (MetaAst.preorder n).
(** Name and arity; the functions of a file are told apart by them. *)
Definition fn_key (n : MetaNode) : option string * Z := (get_meta_str n "name", arity_of n).

(** Every function lies in a container, and no container in another. *)
Fixpoint contained (n : MetaNode) : bool :=
  match n with
  | MkNode _ _ c =>
      let inner := match c with CNodes ns => ns | CValue _ => [] end in
      if is_container n then forallb (λ m, negb (is_container m)) (concat (map MetaAst.preorder inner))
      else negb (is_fn n) && match c with CNodes ns => forallb contained ns | CValue _ => true end
  end.
Lemma contained_eq n : contained n =
  if is_container n then forallb (λ m, negb (is_container m)) (concat (map MetaAst.preorder (child_nodes n)))
  else negb (is_fn n) && forallb contained (child_nodes n).
Proof. by destruct n as [? ? []]. Qed.
Lemma filter_concat {A} (p : A → bool) (ls : list (list A)) : List.filter p (concat ls) = concat (map (List.filter p) ls).
Proof. induction ls as [|l ls IH]; [done|]. cbn [concat map]. by rewrite List.filter_app, IH. Qed.
Lemma filter_none {A} (p : A → bool) l : forallb (λ x, negb (p x)) l = true → List.filter p l = [].
Proof. induction l as [|x l IH]; [done|]. simpl. intros [Hx Hl]%andb_true_iff. destruct (p x); [done|by apply IH]. Qed.

(** The functions of the file are those of its containers. *)
Lemma contained_functions n : contained n = true → fn_nodes n = concat (map fn_nodes (container_nodes n)).
Proof.
  induction n as [n IH] using MetaNode_child_ind. rewrite contained_eq. unfold fn_nodes at 1, container_nodes.
  rewrite MetaAst.preorder_eq. cbn [List.filter]. destruct (is_container n) eqn:Hc.
  - intros Hin. rewrite (filter_none is_container) by done. cbn [map concat]. rewrite app_nil_r.
    unfold fn_nodes. by rewrite (MetaAst.preorder_eq n).
  - intros [Hf Hl]%andb_true_iff. apply negb_true_iff in Hf. rewrite Hf, !filter_concat, !map_map.
    induction IH as [|c l Hcl _ IHl]; [done|]. cbn [map concat forallb] in *. apply andb_true_iff in Hl as [Hc1 Hl].
    rewrite map_app, concat_app, <- IHl by done. f_equal. by apply Hcl.
Qed.

Section exact.
Context `{NodeJson} (file_path language : string).

Definition fn_id (f : MetaNode) : string := function_id file_path (or_else (get_meta_str f "name") "") (arity_of f).
Definition fn_document (f : MetaNode) : AstDocument :=
  MkAstDocument (fn_id f) (or_else (get_meta_str f "name") "") "function_def" language file_path (meta_int f "line") None
    (get_meta_str f "source") (Some (signature_of (function_info f))) (get_meta_str f "doc") (node_to_json f).
Definition node_container_id (c : MetaNode) : string := container_id file_path (container_kind c) (container_name c).
Definition call_edges (fns : gmap string Z) (f : MetaNode) : list AstEdge :=
  map (λ call, MkAstEdge (fn_id f) EDGE_CALLS (call_id file_path fns call)) (extract_calls f).
(** The documents and edges of one container. *)
Definition container_docs (c : MetaNode) : list AstDocument :=
  container_document file_path language c :: map fn_document (fn_nodes c).
Definition container_edges (fns : gmap string Z) (c : MetaNode) : list AstEdge :=
  map (λ f, MkAstEdge (node_container_id c) EDGE_CONTAINS (fn_id f)) (fn_nodes c) ++
  map (λ i, MkAstEdge (node_container_id c) EDGE_IMPORTS (import_id (or_else (get_meta_str i "source") ""))) (import_nodes c) ++
  concat (map (call_edges fns) (fn_nodes c)).

Lemma extract_functions_nodes n : extract_functions n = map function_info (fn_nodes n).
Proof.
  rewrite extract_functions_omap. unfold fn_nodes. induction (MetaAst.preorder n) as [|x l IH]; [done|].
  cbn [omap list_omap List.filter]. unfold when at 1, is_fn at 1. rewrite decide_bool_decide. destruct (bool_decide _); simpl; by rewrite IH.
Qed.
Lemma extract_imports_nodes n : extract_imports n = map import_info (import_nodes n).
Proof.
  rewrite extract_imports_omap. unfold import_nodes. induction (MetaAst.preorder n) as [|x l IH]; [done|].
  cbn [omap list_omap List.filter]. unfold when at 1. rewrite decide_bool_decide. destruct (bool_decide _); simpl; by rewrite IH.
Qed.

(** A named function is the only node of its container that matches it. *)
Lemma is_func_key f m : is_Some (get_meta_str f "name") →
  is_func (function_info f) m = is_fn m && bool_decide (fn_key m = fn_key f).
Proof.
  intros [name Hn]. unfold is_func, is_fn, fn_key, function_info. simpl. rewrite Hn. simpl.
  destruct (bool_decide (node_type m = _)); [|done]. simpl.
  rewrite (bool_decide_ext (_ = (Some name, arity_of f)) (get_meta_str m "name" = Some name ∧ arity_of m = arity_of f))
    by (split; [by intros [= -> ->]|by intros [-> ->]]).
  rewrite bool_decide_and. f_equal. destruct (Z.eqb_spec (arity_of m) (arity_of f)); by case_bool_decide.
Qed.
Lemma func_matches c f : NoDup (map fn_key (fn_nodes c)) → is_Some (get_meta_str f "name") → f ∈ fn_nodes c →
  List.filter (is_func (function_info f)) (MetaAst.preorder c) = [f].
Proof.
  intros Hnd Hn. unfold fn_nodes in *. revert Hnd. induction (MetaAst.preorder c) as [|x l IH]; [by intros _ ?%not_elem_of_nil|].
  cbn [List.filter]. rewrite is_func_key by done. destruct (is_fn x) eqn:Hx; [|by apply IH].
  cbn [map andb]. intros [Hk Hnd]%NoDup_cons [->|Hin]%elem_of_cons.
  - rewrite bool_decide_eq_true_2 by done. f_equal. apply filter_none, forallb_forall. intros m Hm.
    apply negb_true_iff. rewrite is_func_key by done. destruct (is_fn m) eqn:Hfm; [|done]. simpl.
    apply bool_decide_eq_false_2. intros E. apply Hk. rewrite <- E. apply list_elem_of_fmap_2.
    apply elem_filter_bool. split; [done|by apply list_elem_of_In].
  - rewrite bool_decide_eq_false_2; [by apply IH|]. intros E. apply Hk. rewrite E. by apply list_elem_of_fmap_2.
Qed.
(** Only the nodes that pass the test count in a fold. *)
Lemma fold_filter {A B} (p : A → bool) (f : B → A → B) l acc :
  fold_left (λ acc x, if p x then f acc x else acc) l acc = fold_left f (List.filter p l) acc.
Proof. revert acc. induction l as [|x l IH]; intros acc; [done|]. simpl. destruct (p x); apply IH. Qed.

Section container.
Context (c : MetaNode) (Hnd : NoDup (map fn_key (fn_nodes c)))
  (Hnamed : ∀ f, f ∈ fn_nodes c → is_Some (get_meta_str f "name")).
Lemma function_document_node f : f ∈ fn_nodes c → function_document file_path language c (function_info f) = fn_document f.
Proof using Hnd Hnamed.
  intros Hf. unfold function_document, func_details. rewrite walk_preorder.
  rewrite (fold_filter (is_func (function_info f)) (λ _ n, (get_meta_str n "source", get_meta_str n "doc", node_to_json n))).
  by rewrite func_matches by auto.
Qed.
Lemma push_calls_node fns f docs edges st : f ∈ fn_nodes c →
  ∃ st', push_calls file_path fns c (docs, edges, st) (function_info f) = (docs, edges ++ call_edges fns f, st').
Proof using Hnd Hnamed.
  intros Hf. unfold push_calls. rewrite walk_preorder.
  rewrite (fold_filter (is_func (function_info f)) (λ acc child, fold_left (push_call file_path fns _) (extract_calls child) acc)).
  rewrite func_matches by auto. cbn [fold_left]. unfold call_edges, fn_id. change (fi_name (function_info f)) with (or_else (get_meta_str f "name") "").
  change (fi_arity (function_info f)) with (arity_of f). generalize (function_id file_path (or_else (get_meta_str f "name") "") (arity_of f)) as fid.
  intros fid. revert edges st. induction (extract_calls f) as [|call l IH]; intros edges st; cbn [fold_left map].
  { exists st. by rewrite app_nil_r. }
  destruct (IH (edges ++ [MkAstEdge fid EDGE_CALLS (call_id file_path fns call)]) (add_edge (add_call st))) as (st' & E).
  exists st'. unfold push_call at 2. rewrite E. by rewrite <- (assoc_L (++)).
Qed.
Lemma push_all_calls fns fs docs edges st : (∀ f, f ∈ fs → f ∈ fn_nodes c) →
  ∃ st', fold_left (push_calls file_path fns c) (map function_info fs) (docs, edges, st) =
    (docs, edges ++ concat (map (call_edges fns) fs), st').
Proof using Hnd Hnamed.
  revert edges st. induction fs as [|f fs IH]; intros edges st Hfs; cbn [fold_left map concat].
  { exists st. by rewrite app_nil_r. }
  destruct (push_calls_node fns f docs edges st) as (st1 & ->); [apply Hfs; left|].
  destruct (IH (edges ++ call_edges fns f) st1) as (st' & ->); [intros; apply Hfs; by right|]. exists st'. by rewrite <- (assoc_L (++)).
Qed.
Lemma push_all_functions cid fs docs edges st : (∀ f, f ∈ fs → f ∈ fn_nodes c) →
  ∃ st', fold_left (push_function file_path language c cid) (map function_info fs) (docs, edges, st) =
    (docs ++ map fn_document fs, edges ++ map (λ f, MkAstEdge cid EDGE_CONTAINS (fn_id f)) fs, st').
Proof using Hnd Hnamed.
  revert docs edges st. induction fs as [|f fs IH]; intros docs edges st Hfs; cbn [fold_left map].
  { exists st. by rewrite !app_nil_r. }
  unfold push_function at 2. rewrite function_document_node by (apply Hfs; left). fold (fn_id f).
  destruct (IH (docs ++ [fn_document f]) (edges ++ [MkAstEdge cid EDGE_CONTAINS (fn_id f)]) (add_edge (add_function st)))
    as (st' & E); [intros; apply Hfs; by right|]. exists st'. change (function_id _ _ _) with (fn_id f). rewrite E.
  by rewrite <- !(assoc_L (++)).
Qed.
Lemma push_all_imports cid imps docs edges st :
  ∃ st', fold_left (push_import cid) (map import_info imps) (docs, edges, st) =
    (docs, edges ++ map (λ i, MkAstEdge cid EDGE_IMPORTS (import_id (or_else (get_meta_str i "source") ""))) imps, st').
Proof.
  revert edges st. induction imps as [|i imps IH]; intros edges st; cbn [fold_left map].
  { exists st. by rewrite app_nil_r. }
  unfold push_import at 2. destruct (IH (edges ++ [MkAstEdge cid EDGE_IMPORTS (import_id (ii_source (import_info i)))]) (add_edge (add_import st)))
    as (st' & E). exists st'. rewrite E. by rewrite <- (assoc_L (++)).
Qed.
Lemma push_container_node fns docs edges st : is_container c = true →
  ∃ st', push_container file_path language fns (docs, edges, st) c =
    (docs ++ container_docs c, edges ++ container_edges fns c, st').
Proof using Hnd Hnamed.
  intros Hc. unfold push_container. rewrite decide_True by (by apply bool_decide_eq_true in Hc). cbv zeta.
  rewrite extract_functions_nodes, extract_imports_nodes. fold (node_container_id c).
  destruct (push_all_functions (node_container_id c) (fn_nodes c) (docs ++ [container_document file_path language c]) edges (add_container st))
    as (st1 & ->); [done|].
  destruct (push_all_imports (node_container_id c) (import_nodes c) ((docs ++ [container_document file_path language c]) ++ map fn_document (fn_nodes c))
    (edges ++ map (λ f, MkAstEdge (node_container_id c) EDGE_CONTAINS (fn_id f)) (fn_nodes c)) st1) as (st2 & ->).
  edestruct (push_all_calls fns (fn_nodes c)) as (st3 & ->); [done|]. exists st3.
  unfold container_docs, container_edges. by rewrite <- !(assoc_L (++)).
Qed.
End container.

Lemma push_containers fns l docs edges st :
  (∀ c, c ∈ List.filter is_container l → NoDup (map fn_key (fn_nodes c)) ∧ ∀ f, f ∈ fn_nodes c → is_Some (get_meta_str f "name")) →
  ∃ st', fold_left (push_container file_path language fns) l (docs, edges, st) =
    (docs ++ concat (map container_docs (List.filter is_container l)),
     edges ++ concat (map (container_edges fns) (List.filter is_container l)), st').
Proof.
  revert docs edges st. induction l as [|n l IH]; intros docs edges st Hl; cbn [fold_left List.filter].
  { exists st. by rewrite !app_nil_r. }
  cbn [List.filter] in Hl. destruct (is_container n) eqn:Hn.
  - destruct (Hl n) as [Hnd Hnm]; [left|]. destruct (push_container_node n Hnd Hnm fns docs edges st Hn) as (st1 & ->).
    destruct (IH (docs ++ container_docs n) (edges ++ container_edges fns n) st1) as (st' & ->); [intros; apply Hl; by right|].
    exists st'. cbn [map concat]. by rewrite <- !(assoc_L (++)).
  - unfold push_container at 2. rewrite decide_False by (by apply bool_decide_eq_false in Hn). by apply IH.
Qed.

(** The functions of each container are told apart like those of the file. *)
Lemma contained_container root c : contained root = true → NoDup (map fn_key (fn_nodes root)) →
  c ∈ container_nodes root → NoDup (map fn_key (fn_nodes c)) ∧ ∀ f, f ∈ fn_nodes c → f ∈ fn_nodes root.
Proof.
  intros Hc Hnd Hin. rewrite (contained_functions root Hc) in Hnd |- *. apply list_elem_of_split in Hin as (l1 & l2 & E). rewrite E in *.
  rewrite map_app, concat_app in Hnd |- *. cbn [map concat] in *. rewrite !map_app in Hnd.
  apply NoDup_app in Hnd as (_ & _ & [Hnd _]%NoDup_app). split; [done|]. intros f Hf. rewrite !elem_of_app. auto.
Qed.
Lemma prepare_batch_contained root : contained root = true → NoDup (map fn_key (fn_nodes root)) →
  (∀ f, f ∈ fn_nodes root → is_Some (get_meta_str f "name")) →
  documents (prepare_batch file_path language root) = concat (map container_docs (container_nodes root)) ∧
  ib_edges (prepare_batch file_path language root) = concat (map (container_edges (local_fns root)) (container_nodes root)).
Proof.
  intros Hc Hnd Hnm. unfold prepare_batch. rewrite walk_preorder.
  assert (node_type root ≠ NodeType.FunctionDef) as Hroot.
  { intros E. rewrite contained_eq in Hc. unfold is_container, is_fn in Hc. rewrite E in Hc. discriminate Hc. }
  destruct (push_containers (local_fns root) (MetaAst.preorder root) [] [] stats_default) as (st & ->).
  { intros c Hin. destruct (contained_container root c Hc Hnd Hin) as [? Hsub]. split; [done|]. intros f Hf. by apply Hnm, Hsub. }
  by rewrite decide_False.
Qed.
End exact.

(** A call is local if some function of the file has its name, and then refers
    to one of that name. *)
Lemma local_fns_spec root name :
  match local_fns root !! name with
  | Some arity => ∃ f, f ∈ fn_nodes root ∧ get_meta_str f "name" = Some name ∧ arity_of f = arity
  | None => ∀ f, f ∈ fn_nodes root → get_meta_str f "name" ≠ Some name
  end.
Proof.
  unfold local_fns, fn_nodes. rewrite walk_preorder.
  induction (MetaAst.preorder root) as [|n l IH] using rev_ind; [cbn [fold_left List.filter]; rewrite lookup_empty; by intros f ?%not_elem_of_nil|].
  rewrite fold_left_app, List.filter_app. cbn [fold_left List.filter]. set (m := fold_left _ l ∅) in *. clearbody m.
  change (is_fn n) with (bool_decide (node_type n = NodeType.FunctionDef)).
  destruct (decide (node_type n = NodeType.FunctionDef)) as [Ht|Ht];
    [rewrite bool_decide_eq_true_2 by done|rewrite bool_decide_eq_false_2, app_nil_r by done; exact IH].
  assert (∀ f, f ∈ List.filter is_fn l ++ [n] ↔ f ∈ List.filter is_fn l ∨ f = n) as Hin
    by (intros f; by rewrite elem_of_app, list_elem_of_singleton).
  generalize dependent (List.filter is_fn l ++ [n]). intros fs Hin. destruct (get_meta_str n "name") as [name'|] eqn:Hn.
  - destruct (decide (name' = name)) as [->|Hne].
    + rewrite lookup_insert_eq. exists n. rewrite Hin. by split_and!; [right|..].
    + rewrite lookup_insert_ne by done. destruct (m !! name).
      * destruct IH as (f & ? & ? & ?). exists f. rewrite Hin. by split_and!; [left|..].
      * intros f [Hf| ->]%Hin; [by apply IH|congruence].
  - destruct (m !! name).
    + destruct IH as (f & ? & ? & ?). exists f. rewrite Hin. by split_and!; [left|..].
    + intros f [Hf| ->]%Hin; [by apply IH|congruence].
Qed.

(** C35.  Ingestion of a file.  Every batch is well formed: there is one
    container document per container node, the counters are the numbers of
    documents and of edges of each kind, every edge starts at a document of
    the batch and has a predefined type, containment edges also end at one,
    and every document id starts with the file path.  And when every function
    of the file has a name and lies in a container, no container lies in
    another, and no two functions share name and arity, the batch holds
    exactly: one document per container and one per function, with the data
    of its own node; a containment edge from the container to each of its
    functions; an edge per import of a container; and an edge per call in a
    function, to the function of that name in the file if there is one. *)
Theorem prepare_batch_exact `{NodeJson} (root : MetaNode) (file_path language : string) :
  let b := prepare_batch file_path language root in
  (containers (stats b) = length (container_nodes root) ∧
   containers (stats b) + functions (stats b) = length (documents b) ∧
   n_edges (stats b) = length (ib_edges b) ∧
   imports (stats b) = edges_of EDGE_IMPORTS (ib_edges b) ∧
   calls (stats b) = edges_of EDGE_CALLS (ib_edges b) ∧
   (∀ e, e ∈ ib_edges b → ae_from_id e ∈ ids (documents b) ∧ ae_edge_type e ∈ ALL_EDGE_TYPES ∧
     (ae_edge_type e = EDGE_CONTAINS → ae_to_id e ∈ ids (documents b))) ∧
   (∀ d, d ∈ documents b → ∃ rest, ad_id d = (file_path ++ "::" ++ rest)%string)) ∧
  (contained root = true → NoDup (map fn_key (fn_nodes root)) → (∀ f, f ∈ fn_nodes root → is_Some (get_meta_str f "name")) →
   documents b ≡ₚ map (container_document file_path language) (container_nodes root) ++
                  map (fn_document file_path language) (fn_nodes root) ∧
   ib_edges b = concat (map (container_edges file_path (local_fns root)) (container_nodes root)) ∧
   fn_nodes root = concat (map fn_nodes (container_nodes root)) ∧
   ∀ name, match local_fns root !! name with
           | Some arity => ∃ f, f ∈ fn_nodes root ∧ get_meta_str f "name" = Some name ∧ arity_of f = arity
           | None => ∀ f, f ∈ fn_nodes root → get_meta_str f "name" ≠ Some name
           end).
Proof.
  intros b. split; [by destruct (prepare_batch_wf file_path language root)|]. intros Hc Hnd Hnm.
  destruct (prepare_batch_contained file_path language root Hc Hnd Hnm) as [Hd He].
  split_and!; [|exact He|by apply contained_functions|intros; apply local_fns_spec].
  unfold b. rewrite Hd, (contained_functions root Hc). clear. induction (container_nodes root) as [|c l IH]; [done|].
  cbn [map concat]. rewrite map_app, IH. unfold container_docs. simpl. constructor.
  rewrite !(assoc_L (++)). apply Permutation_app_tail, Permutation_app_comm.
Qed.

Definition small_file : MetaNode :=
  composite NodeType.Block [] [composite NodeType.Container [("name", MString "M")]%string
    [composite NodeType.FunctionDef [("name", MString "f"); ("arity", MInt 1)]%string
       [composite NodeType.FunctionCall [("name", MString "g")]%string []];
     composite NodeType.FunctionDef [("name", MString "g")]%string []]].
Lemma prepare_batch_exact_witness :
  let b := @prepare_batch {| node_to_json _ := None |} "m.ex" "elixir" small_file in
  ids (documents b) ≡ₚ ["m.ex::container::M"; "m.ex::f/1"; "m.ex::g/0"]%string ∧
  map ae_to_id (ib_edges b) = ["m.ex::f/1"; "m.ex::g/0"; "m.ex::g/0"]%string.
Proof.
  destruct (@prepare_batch_exact {| node_to_json _ := None |} small_file "m.ex" "elixir") as [_ Hex].
  destruct Hex as (Hd & He & _ & _).
  - vm_compute. reflexivity.
  - compute_decide.
  - intros f [<-|[<-|[]]]%list_elem_of_In; by eexists.
  - cbv zeta. split; [unfold ids; rewrite Hd; vm_compute; reflexivity|rewrite He; vm_compute; reflexivity].
Defined.
