(* ===== verification/IngestQueries.v ===== *)
(** * Ingestion against the query language

    The statements that ingestion generates name records by file path; the
    query language only has identifiers there.  The tokenizer and the parser
    refuse every such statement for an ordinary path, and a quote in a value
    breaks the statement apart, because a doubled quote is two strings. *)

From S2P Require Export IngestSpec Parser ParserTotal TokenizerRender.
Import MetaNodes.
Open Scope N_scope.

(** ** Paths *)
Definition ascii_code (c : ascii) : N := N_of_ascii c.
Fixpoint after_word (s : string) : option ascii :=
  match s with
  | EmptyString => None
  | String c s' => if is_word_char (ascii_code c) then after_word s' else Some c
  end.
(** The path starts with a letter or underscore, and its first word is
    followed by something else than a space or a dash - or by nothing. *)
Definition plain_path (path : string) : bool :=
  match path with
  | String c _ => is_ascii_alphabetic (ascii_code c) || (ascii_code c =? 95)
  | EmptyString => false
  end &&
  match after_word (path ++ "::") with
  | Some d => (ascii_code d <? 128) && negb (is_whitespace (ascii_code d)) && negb (ascii_code d =? 45)
  | None => false
  end.

(** ** Characters of ASCII prefixes *)
Lemma decode_word w l :
  forallb (λ b, (v b <? 128)) w = true → decode_utf8 (w ++ l) = map v w ++ decode_utf8 l.
Proof.
  induction w as [|b w IH]; [done|]. cbn [forallb]. intros [Hb Hw]%andb_true_iff. cbn [app map].
  rewrite decode1 by (by apply N.ltb_lt). by rewrite IH.
Qed.
Lemma chars_prefix a s : forallb (λ b, (v b <? 128)) (as_bytes a) = true → chars (a ++ s)%string = map v (as_bytes a) ++ chars s.
Proof. intros Ha. unfold chars. by rewrite as_bytes_app, decode_word. Qed.

Lemma word_char_ascii c : is_word_char c = true → c < 128.
Proof. intros Hc. char_hyp Hc. lia. Qed.
Lemma byte_code c : v (byte_of_ascii c) = ascii_code c.
Proof. unfold ascii_code. destruct c as [[] [] [] [] [] [] [] []]; reflexivity. Qed.
Lemma as_bytes_cons c s : as_bytes (String c s) = byte_of_ascii c :: as_bytes s.
Proof. done. Qed.

(** A path splits into its first word and the rest. *)
Lemma after_word_split s d : after_word s = Some d →
  ∃ w r, s = (w ++ String d r)%string ∧ forallb is_word_char (map v (as_bytes w)) = true ∧ is_word_char (ascii_code d) = false.
Proof.
  induction s as [|c s IH]; [done|]. simpl. destruct (is_word_char (ascii_code c)) eqn:Hc.
  - intros (w & r & -> & Hw & Hd)%IH. exists (String c w), r. split; [done|]. rewrite as_bytes_cons. cbn [map forallb].
    rewrite byte_code, Hc. done.
  - intros [= ->]. by exists EmptyString, s.
Qed.
Lemma str_app_assoc (a b c : string) : (a ++ b ++ c)%string = ((a ++ b) ++ c)%string.
Proof. apply as_bytes_inj. by rewrite !as_bytes_app, (assoc_L (++)). Qed.
Lemma replace_app c by_ a b : replace c by_ (a ++ b)%string = (replace c by_ a ++ replace c by_ b)%string.
Proof.
  induction a as [|d a IH]; [done|]. change ((String d a ++ b)%string) with (String d (a ++ b)). simpl.
  rewrite IH. destruct (decide (d = c)); [apply str_app_assoc|done].
Qed.
Lemma escape_word w : forallb is_word_char (map v (as_bytes w)) = true → escape_str w = w.
Proof.
  unfold escape_str. induction w as [|c w IH]; [done|]. rewrite as_bytes_cons. cbn [map forallb].
  intros [Hc Hw]%andb_true_iff. simpl. rewrite decide_False; [by rewrite IH|]. intros ->. by rewrite byte_code in Hc.
Qed.
Lemma escape_head d r : ∃ r', escape_str (String d r) = String d r'.
Proof. unfold escape_str. simpl. destruct (decide _) as [->|]; by eexists. Qed.

(** ** Tokens *)
Lemma tokenize_inv fuel c rest o rest' toks :
  lex_step c rest = Ok (o, rest') → tokenize_loop fuel (c :: rest) = Some (Ok toks) →
  ∃ fuel' toks', tokenize_loop fuel' rest' = Some (Ok toks') ∧
    toks = match o with Some t => t :: toks' | None => toks' end.
Proof.
  intros Hs. destruct fuel as [|fuel]; [done|]. cbn [tokenize_loop]. rewrite Hs.
  destruct (tokenize_loop fuel rest') as [[toks'|e]|] eqn:Ht; simpl; [|by destruct o..].
  intros E. exists fuel, toks'. split; [done|]. destruct o; simpl in E; congruence.
Qed.

Lemma lex_word c cs d rest :
  is_ascii_alphabetic c || (c =? 95) = true → forallb is_word_char cs = true → is_word_char d = false →
  lex_step c (cs ++ d :: rest) = Ok (Some (keyword (string_of_chars (c :: cs))), d :: rest).
Proof.
  intros Ha Hcs Hd. pose proof Ha as Hr. char_hyp Hr.
  assert (is_whitespace c = false) as Hws by (unfold is_whitespace; by char_tests).
  assert (starts_comment c (cs ++ d :: rest) = false) as Hcm by (unfold starts_comment; by char_tests).
  assert (operator c (cs ++ d :: rest) = None) as Hop by (unfold operator; by char_tests).
  assert (symbol c = None) as Hsy by (unfold symbol; by char_tests).
  assert (is_ascii_digit c || (c =? 45) && match cs ++ d :: rest with d :: _ => is_ascii_digit d | [] => false end
    = false) as Hnum by (unfold is_ascii_digit; by char_tests).
  assert ((c =? 39) || (c =? 34) = false) as Hq by (by char_tests).
  unfold lex_step. rewrite Hws, Hcm, Hop, Hsy, Hq, Hnum, Ha.
  change (c :: cs ++ d :: rest) with ((c :: cs) ++ d :: rest).
  rewrite span_app; [done| |done]. cbn [forallb]. rewrite Hcs, andb_true_r.
  unfold is_word_char, is_ascii_alphanumeric. apply orb_true_iff in Ha as [-> | ->]; [done|apply orb_true_r].
Qed.

(** What can follow the first word of a path is neither [SET] nor an arrow. *)
Lemma lex_separator d rest o rest' :
  is_word_char d = false → is_whitespace d = false → (d =? 45) = false →
  lex_step d rest = Ok (o, rest') → ∃ t, o = Some t ∧ t ≠ Token.Set_ ∧ t ≠ Token.Arrow.
Proof.
  intros Hw Hs Hd. unfold lex_step. rewrite Hs.
  assert (starts_comment d rest = false) as -> by (unfold starts_comment; by rewrite Hd).
  destruct (operator d rest) as [t|] eqn:Hop.
  { intros [= <- <-]. exists t. split; [done|]. unfold operator in Hop. rewrite Hd in Hop. simpl in Hop.
    repeat (destruct (_ && _) in Hop; [injection Hop as <-; done|]). done. }
  destruct (symbol d) as [t|] eqn:Hsy.
  { intros [= <- <-]. exists t. split; [done|]. unfold symbol in Hsy.
    repeat (destruct (_ =? _) in Hsy; [injection Hsy as <-; done|]). done. }
  destruct (_ || _) eqn:Hq.
  { destruct (span _ rest) as [s [|x r]]; [done|]. intros [= <- <-]. by eexists. }
  assert (is_ascii_alphabetic d = false ∧ is_ascii_digit d = false ∧ (d =? 95) = false) as (Ha & Hdig & Hu).
  { unfold is_word_char, is_ascii_alphanumeric in Hw. apply orb_false_iff in Hw as [Hw ?].
    by apply orb_false_iff in Hw as [? ?]. }
  by rewrite Hdig, Hd, Ha, Hu.
Qed.

(** ** Statements with a path for a record id *)
Definition rejected (query : string) : Prop := ∃ e, parse query = Some (Err e).
Lemma rejected_intro q : (∀ toks, tokenize q = Some (Ok toks) → ∀ x, parse_tokens toks ≠ Some (Ok x)) → rejected q.
Proof.
  intros Hno. unfold rejected, parse.
  destruct (tokenize_loop_total (length (chars q)) (chars q) ltac:(done)) as [r Hr].
  change (tokenize q = Some r) in Hr. rewrite Hr. simpl. destruct r as [toks|e]; [|by eexists].
  destruct (parse_tokens_total toks) as [[x|e] Hp]; [|by eexists]. by destruct (Hno toks Hr x).
Qed.

Lemma path_chars path rest tail : plain_path path = true → ∃ c cs d r,
  chars (escape_str (path ++ "::" ++ rest) ++ tail) = c :: cs ++ d :: r ∧
  is_ascii_alphabetic c || (c =? 95) = true ∧ forallb is_word_char cs = true ∧
  is_word_char d = false ∧ is_whitespace d = false ∧ (d =? 45) = false.
Proof.
  unfold plain_path. intros [Hstart Hafter]%andb_true_iff.
  destruct (after_word (path ++ "::")) as [d|] eqn:Ha; [|done].
  apply andb_true_iff in Hafter as [[H128 Hws]%andb_true_iff Hdash]. apply negb_true_iff in Hws, Hdash.
  destruct (after_word_split _ _ Ha) as (w & r & E & Hw & Hd).
  rewrite (str_app_assoc path), E, <- str_app_assoc. change (String d r ++ rest)%string with (String d (r ++ rest)).
  unfold escape_str. rewrite replace_app. fold (escape_str w) (escape_str (String d (r ++ rest))).
  rewrite (escape_word w Hw). destruct (escape_head d (r ++ rest)) as [r' ->].
  rewrite <- str_app_assoc, chars_prefix.
  2:{ rewrite forallb_forall in Hw |- *. intros b Hb. apply N.ltb_lt, word_char_ascii, Hw. by apply in_map. }
  change (String d r' ++ tail)%string with (String d (r' ++ tail)). unfold chars. rewrite as_bytes_cons, decode1.
  2:{ rewrite byte_code. by apply N.ltb_lt. }
  rewrite byte_code. destruct w as [|c w].
  - destruct path as [|c path]; [done|]. injection E as -> _. exfalso.
    unfold is_word_char, is_ascii_alphanumeric in Hd. destruct (is_ascii_alphabetic _); [done|].
    destruct (ascii_code d =? 95); [by rewrite orb_true_r in Hd|done].
  - rewrite as_bytes_cons in *. cbn [map] in *. rewrite byte_code in *.
    exists (ascii_code c), (map v (as_bytes w)), (ascii_code d). eexists. split; [reflexivity|].
    cbn [forallb] in Hw. apply andb_true_iff in Hw as [_ Hw]. split_and!; try done.
    destruct path as [|c' path]; [by injection E as <- _|]. by injection E as <- _.
Qed.

(** The tokens of a statement that names a record by path. *)
Lemma path_tokens kw t0 path rest tail toks :
  lex_step (hd 0 (map v (as_bytes kw))) (List.tl (map v (as_bytes kw)) ++ 32 :: map v (as_bytes "ast_node:") ++
    chars (escape_str (path ++ "::" ++ rest) ++ tail)) =
    Ok (Some t0, 32 :: map v (as_bytes "ast_node:") ++ chars (escape_str (path ++ "::" ++ rest) ++ tail)) →
  kw ≠ ""%string → forallb (λ b, (v b <? 128)) (as_bytes kw) = true → plain_path path = true →
  tokenize (kw ++ " ast_node:" ++ escape_str (path ++ "::" ++ rest) ++ tail) = Some (Ok toks) →
  ∃ t1 t2 more, toks = t0 :: Token.Ident "ast_node" :: Token.Colon :: t1 :: t2 :: more ∧ t2 ≠ Token.Set_ ∧ t2 ≠ Token.Arrow.
Proof.
  intros Hkw Hne Hascii Hplain. unfold tokenize, tokenize_chars.
  rewrite (chars_prefix kw), (chars_prefix " ast_node:") by done.
  generalize (length (map v (as_bytes kw) ++ map v (as_bytes " ast_node:") ++ chars (escape_str (path ++ "::" ++ rest) ++ tail))).
  intros fuel Ht. destruct (path_chars path rest tail Hplain) as (c & cs & d & r & Hc & Hal & Hcs & Hd & Hws & Hdash).
  destruct kw as [|k kw]; [done|]. rewrite as_bytes_cons in *. cbn [map hd List.tl app] in *.
  rewrite Hc in *.
  apply (tokenize_inv _ _ _ (Some t0) (32 :: map v (as_bytes "ast_node:") ++ c :: cs ++ d :: r)) in Ht as (f1 & ts1 & Ht & ->); [|exact Hkw].
  apply (tokenize_inv _ _ _ None (map v (as_bytes "ast_node:") ++ c :: cs ++ d :: r)) in Ht as (f2 & ts2 & Ht & ->); [|reflexivity].
  apply (tokenize_inv _ _ _ (Some (Token.Ident "ast_node")) (58 :: c :: cs ++ d :: r)) in Ht as (f3 & ts3 & Ht & ->); [|reflexivity].
  apply (tokenize_inv _ _ _ (Some Token.Colon) (c :: cs ++ d :: r)) in Ht as (f4 & ts4 & Ht & ->); [|reflexivity].
  eapply tokenize_inv in Ht as (f5 & ts5 & Ht & ->); [|by apply lex_word].
  destruct (lex_step d r) as [[o r']|e] eqn:Hl.
  - destruct (lex_separator _ _ _ _ Hd Hws Hdash Hl) as (t & -> & Hset & Harrow).
    eapply tokenize_inv in Ht as (f6 & ts6 & Ht & ->); [|exact Hl]. by eexists _, _, _.
  - destruct f5; [done|]. cbn [tokenize_loop] in Ht. by rewrite Hl in Ht.
Qed.

Lemma discriminant_set t : t ≠ Token.Set_ → same_discriminant t Token.Set_ = false.
Proof. destruct t; try done; intros _; reflexivity. Qed.
Lemma discriminant_arrow t : t ≠ Token.Arrow → same_discriminant t Token.Arrow = false.
Proof. destruct t; try done; intros _; reflexivity. Qed.
Lemma bind_step {A B} (m : P A) (f : A → P B) p a p' : m p = (Ok a, p') → (m ≫= f) p = f a p'.
Proof. unfold mbind, SE_bind. by intros ->. Qed.
Lemma bind_fault {A B} (m : P A) (f : A → P B) p e p' : m p = (Err e, p') → (m ≫= f) p = (Err e, p').
Proof. unfold mbind, SE_bind. by intros ->. Qed.
(** An identifier or a failure. *)
Lemma expect_ident_cases tokens p t :
  tokens !! p = Some t →
  (∃ s, expect_ident tokens p = (Ok s, S p)) ∨ (∃ msg, expect_ident tokens p = (Err (Failed (Core.Query msg)), p)).
Proof.
  intros Ht. unfold expect_ident. erewrite bind_step by reflexivity. rewrite Ht.
  destruct t; first [right; eexists; reflexivity|left; eexists; reflexivity].
Qed.
Lemma expect_fails tokens p t expected :
  tokens !! p = Some t → same_discriminant t expected = false →
  expect tokens expected p = (Err (Failed (Core.Query "expected {:?}, got {:?}")), p).
Proof. intros Ht Hd. unfold expect. erewrite bind_step by reflexivity. rewrite Ht. by rewrite Hd. Qed.
Lemma statement_fails tokens msg p :
  parse_statement tokens 0%nat = (Err (Failed (Core.Query msg)), p) → ∀ x, parse_tokens tokens ≠ Some (Ok x).
Proof. intros E x. unfold parse_tokens, parse_query. by rewrite (bind_fault _ _ _ _ _ E). Qed.

Lemma create_needs_set t1 t2 more x :
  t2 ≠ Token.Set_ → parse_tokens (Token.Create :: Token.Ident "ast_node" :: Token.Colon :: t1 :: t2 :: more) ≠ Some (Ok x).
Proof.
  intros Ht2. set (tokens := _ :: _).
  enough (∃ msg p, parse_create tokens 0%nat = (Err (Failed (Core.Query msg)), p)) as (msg & p & E)
    by (eapply statement_fails; unfold parse_statement; erewrite bind_step by reflexivity; exact E).
  unfold parse_create. do 2 (erewrite bind_step by reflexivity).
  rewrite (bind_step (at_token tokens Token.Colon) _ _ true 2%nat) by reflexivity.
  destruct (expect_ident_cases tokens 3%nat t1 eq_refl) as [[s Hs]|[msg Hm]].
  - erewrite bind_step; [|erewrite bind_step by reflexivity; erewrite bind_step by exact Hs; reflexivity].
    erewrite bind_fault; [by eexists _, _|]. apply (expect_fails tokens 4%nat t2); [done|by apply discriminant_set].
  - erewrite bind_fault; [by eexists _, _|]. erewrite bind_step by reflexivity. by erewrite bind_fault by exact Hm.
Qed.
Lemma relate_needs_arrow t1 t2 more x :
  t2 ≠ Token.Arrow → parse_tokens (Token.Relate :: Token.Ident "ast_node" :: Token.Colon :: t1 :: t2 :: more) ≠ Some (Ok x).
Proof.
  intros Ht2. set (tokens := _ :: _).
  enough (∃ msg p, parse_relate tokens 0%nat = (Err (Failed (Core.Query msg)), p)) as (msg & p & E)
    by (eapply statement_fails; unfold parse_statement; erewrite bind_step by reflexivity; exact E).
  unfold parse_relate. erewrite bind_step by reflexivity.
  destruct (expect_ident_cases tokens 3%nat t1 eq_refl) as [[s Hs]|[msg Hm]].
  - erewrite bind_step.
    2:{ unfold parse_record_ref. do 2 (erewrite bind_step by reflexivity). erewrite bind_step by exact Hs. reflexivity. }
    erewrite bind_fault; [by eexists _, _|]. apply (expect_fails tokens 4%nat t2); [done|by apply discriminant_arrow].
  - erewrite bind_fault; [by eexists _, _|]. unfold parse_record_ref. do 2 (erewrite bind_step by reflexivity).
    by erewrite bind_fault by exact Hm.
Qed.

Lemma create_rejected path rest tail :
  plain_path path = true → rejected ("CREATE" ++ " ast_node:" ++ escape_str (path ++ "::" ++ rest) ++ tail).
Proof.
  intros Hp. apply rejected_intro. intros toks Ht x.
  apply (path_tokens "CREATE" Token.Create) in Ht as (t1 & t2 & more & -> & Hset & _); [|reflexivity|done|done|done].
  by apply create_needs_set.
Qed.
Lemma relate_rejected path rest tail :
  plain_path path = true → rejected ("RELATE" ++ " ast_node:" ++ escape_str (path ++ "::" ++ rest) ++ tail).
Proof.
  intros Hp. apply rejected_intro. intros toks Ht x.
  apply (path_tokens "RELATE" Token.Relate) in Ht as (t1 & t2 & more & -> & _ & Harrow); [|reflexivity|done|done|done].
  by apply relate_needs_arrow.
Qed.

(** Nothing that ingestion generates can be executed: for an ordinary
    file path - one whose first word is not followed by a space or a dash,
    like [lib/my_app.ex] - every [CREATE] and every [RELATE] statement of the
    batch is refused by the query language, because record ids contain the
    path and the tokenizer and parser only accept identifiers there. *)
Theorem ingest_queries_rejected `{NodeJson} (root : MetaNode) (file_path language : string) (q : string) :
  plain_path file_path = true →
  q ∈ generate_dllb_queries (prepare_batch file_path language root) →
  q = "BEGIN BATCH"%string ∨ q = "END BATCH"%string ∨ rejected q.
Proof.
  intros Hp. unfold generate_dllb_queries. pose proof (prepare_batch_wf file_path language root) as Hwf.
  rewrite !elem_of_app, !list_elem_of_singleton, !list_elem_of_fmap.
  intros [->|[(d & -> & Hd)|[(e & -> & He)| ->]]]; [by left| | |by right; left]; right; right.
  - destruct (wf_ids _ _ _ Hwf d Hd) as [rest Hid]. unfold create_query. rewrite Hid. by apply create_rejected.
  - destruct (wf_from _ _ _ Hwf e He) as ((d & Hfrom & Hd)%list_elem_of_fmap & _).
    destruct (wf_ids _ _ _ Hwf d Hd) as [rest Hid]. unfold relate_query. rewrite Hfrom, Hid. by apply relate_rejected.
Qed.

(** ** The module of the unit tests *)
#[local] Instance no_node_json : NodeJson := {| node_to_json _ := None |}.
Definition my_app : MetaNode :=
  composite NodeType.Container [("container_type", MAtom "module"); ("name", MString "MyApp")]%string
    [composite NodeType.Import [("source", MAtom "GenServer")]%string [];
     composite NodeType.FunctionDef [("name", MString "greet"); ("arity", MInt 1)]%string
       [composite NodeType.FunctionCall [("name", MString "IO.puts")]%string []]].

Example my_app_queries :
  generate_dllb_queries (prepare_batch "lib/my_app.ex" "elixir" my_app) =
  ["BEGIN BATCH";
   "CREATE ast_node:lib/my_app.ex::module::MyApp SET name = 'MyApp', kind = 'module', language = 'elixir', file_path = 'lib/my_app.ex'";
   "CREATE ast_node:lib/my_app.ex::greet/1 SET name = 'greet', kind = 'function_def', language = 'elixir', file_path = 'lib/my_app.ex', signature = 'greet() [public]'";
   "RELATE ast_node:lib/my_app.ex::module::MyApp -> contains -> ast_node:lib/my_app.ex::greet/1";
   "RELATE ast_node:lib/my_app.ex::module::MyApp -> imports -> ast_node:import::GenServer";
   "RELATE ast_node:lib/my_app.ex::greet/1 -> calls -> ast_node:call_target::IO.puts";
   "END BATCH"]%string.
Proof. vm_compute. reflexivity. Qed.

Lemma ingest_queries_rejected_witness :
  rejected "RELATE ast_node:lib/my_app.ex::module::MyApp -> contains -> ast_node:lib/my_app.ex::greet/1".
Proof.
  destruct (ingest_queries_rejected my_app "lib/my_app.ex" "elixir"
    "RELATE ast_node:lib/my_app.ex::module::MyApp -> contains -> ast_node:lib/my_app.ex::greet/1" eq_refl) as [E|[E|E]];
    [rewrite my_app_queries; do 3 right; left|discriminate E|discriminate E|exact E].
Defined.

(** A quote in a value is doubled, which the query language reads as the end
    of a string and the start of another. *)
Example doubled_quote :
  parse "CREATE t:x SET name = 'O''Reilly'" = Some (Err (Core.Query "unexpected token after statement: {:?}")) ∧
  escape_str "O'Reilly" = "O''Reilly"%string.
Proof. split; vm_compute; reflexivity. Qed.

(** A function in a nested container becomes two documents with one id. *)
Example nested_container_duplicates :
  ids (documents (prepare_batch "a.ex" "elixir" (composite NodeType.Container [("name", MString "Outer")]%string [my_app]))) =
  ["a.ex::container::Outer"; "a.ex::greet/1"; "a.ex::module::MyApp"; "a.ex::greet/1"]%string.
Proof. vm_compute. reflexivity. Qed.
