(* ===== verification/Distance.v ===== *)
(** * Distance metrics (crates/vector/src/distance.rs)

    Single-precision arithmetic in the order of the code: eight accumulators
    over the chunks of eight, their sum, then the remainders one by one.  The
    remainder of the second vector is indexed up to the length of the first
    one's, so a shorter one is a panic, [None]. *)

From Stdlib Require Import SpecFloat.
From S2P Require Export Float64 FloatInt.

Open Scope nat_scope.

Module DistanceMetric.
Inductive t := Cosine | Euclidean | DotProduct.
End DistanceMetric.
#[export] Instance DistanceMetric_eq_dec : EqDecision DistanceMetric.t.
Proof. solve_decision. Defined.

(** [chunks_exact(8)] and its [remainder()]. *)
Fixpoint chunks_of (fuel : nat) (v : list f32) : list (list f32) :=
  match fuel with
  | 0 => []
  | S fuel => if length v <? 8 then [] else take 8 v :: chunks_of fuel (drop 8 v)
  end.
Definition chunks_exact (v : list f32) : list (list f32) := chunks_of (length v) v.
Definition remainder (v : list f32) : list f32 := drop (8 * (length v / 8)) v.

(** [array.iter().sum()] *)
Definition f32_sum (acc : list f32) : f32 := fold_left f32_add acc f32_zero.
Definition zeros8 : list f32 := replicate 8 f32_zero.

(** The accumulation [acc[i] += term(a[i], b[i])] over the chunks, then over
    the remainders. *)
Section accumulate.
Context (term : f32 → f32 → f32).
Definition add_chunk (acc : list f32) (cs : list f32 * list f32) : list f32 :=
  zip_with (λ s p, f32_add s (term p.1 p.2)) acc (zip cs.1 cs.2).
Definition chunk_sum (a b : list f32) : f32 :=
  f32_sum (fold_left add_chunk (zip (chunks_exact a) (chunks_exact b)) zeros8).
Fixpoint add_remainder (total : f32) (ra rb : list f32) : option f32 :=
  match ra, rb with
  | [], _ => Some total
  | x :: ra', y :: rb' => add_remainder (f32_add total (term x y)) ra' rb'
  | _ :: _, [] => None
  end.
Definition accumulate (a b : list f32) : option f32 :=
  add_remainder (chunk_sum a b) (remainder a) (remainder b).
End accumulate.

Definition squared_difference (x y : f32) : f32 := let d := f32_sub x y in f32_mul d d.

Definition cosine_distance (a b : list f32) : option f32 :=
  dot ← accumulate f32_mul a b;
  norm_a_sum ← accumulate (λ x _, f32_mul x x) a b;
  norm_b_sum ← accumulate (λ _ y, f32_mul y y) a b;
  let denom := f32_mul (f32_sqrt norm_a_sum) (f32_sqrt norm_b_sum) in
  if f32_eqb denom f32_zero then Some f32_one else Some (f32_sub f32_one (f32_div dot denom)).
Definition euclidean_distance (a b : list f32) : option f32 :=
  total ← accumulate squared_difference a b; Some (f32_sqrt total).
Definition dot_product (a b : list f32) : option f32 := accumulate f32_mul a b.
Definition dot_product_distance (a b : list f32) : option f32 :=
  dot ← dot_product a b; Some (f32_neg dot).

Definition distance (a b : list f32) (metric : DistanceMetric.t) : option f32 :=
  match metric with
  | DistanceMetric.Cosine => cosine_distance a b
  | DistanceMetric.Euclidean => euclidean_distance a b
  | DistanceMetric.DotProduct => dot_product_distance a b
  end.

(** ** Totality *)
Lemma add_remainder_Some term ra : ∀ rb total,
  is_Some (add_remainder term total ra rb) ↔ length ra ≤ length rb.
Proof.
  induction ra as [|x ra IH]; intros [|y rb] total; simpl; [split; [lia|eauto]|split; [lia|eauto]| |].
  - split; [by intros [? ?]|lia].
  - rewrite IH. lia.
Qed.
Lemma remainder_length v : length (remainder v) = length v mod 8.
Proof.
  unfold remainder. rewrite length_drop. pose proof (Nat.div_mod_eq (length v) 8). lia.
Qed.
Lemma accumulate_Some term a b : is_Some (accumulate term a b) ↔ length a mod 8 ≤ length b mod 8.
Proof. unfold accumulate. by rewrite add_remainder_Some, !remainder_length. Qed.
Lemma accumulate_total term a b : length a mod 8 ≤ length b mod 8 → ∃ x, accumulate term a b = Some x.
Proof. intros Hl. apply (accumulate_Some term) in Hl as [x Hx]. by exists x. Qed.
Lemma distance_Some a b metric : is_Some (distance a b metric) ↔ length a mod 8 ≤ length b mod 8.
Proof.
  split.
  - assert (∀ term, is_Some (accumulate term a b) → length a mod 8 ≤ length b mod 8) as Hacc
      by (intros term; by rewrite accumulate_Some).
    destruct metric; intros [x (t & Ht & _)%bind_Some]; [..|apply bind_Some in Ht as (t' & Ht & _) || idtac];
      eapply Hacc, mk_is_Some, Ht.
  - intros Hl. pose proof (λ term, accumulate_total term a b Hl) as Ht. destruct metric; simpl.
    + unfold cosine_distance. destruct (Ht f32_mul) as [? ->], (Ht (λ x _, f32_mul x x)) as [? ->],
        (Ht (λ _ y, f32_mul y y)) as [? ->]. simpl. destruct (f32_eqb _ _); eauto.
    + unfold euclidean_distance. destruct (Ht squared_difference) as [? ->]. simpl. eauto.
    + unfold dot_product_distance, dot_product. destruct (Ht f32_mul) as [? ->]. simpl. eauto.
Qed.
Lemma distance_same_length a b metric : length a = length b → is_Some (distance a b metric).
Proof. intros Hl. apply distance_Some. by rewrite Hl. Qed.

(** ** Symmetry *)
Lemma f32_mul_comm x y : f32_mul x y = f32_mul y x.
Proof.
  unfold f32_mul, f32_op. f_equal.
  destruct (to_spec32 x) as [[]|[]| |[] m e], (to_spec32 y) as [[]|[]| |[] m' e']; simpl; try done;
    by rewrite (Pos.mul_comm m m'), (Z.add_comm e e').
Qed.
Lemma add_chunk_flip term acc ca cb :
  add_chunk term acc (ca, cb) = add_chunk (λ x y, term y x) acc (cb, ca).
Proof.
  unfold add_chunk. simpl. revert ca cb. induction acc as [|s acc IH]; intros [|x ca] [|y cb]; simpl; try done.
  f_equal. apply IH.
Qed.
Lemma fold_flip term cas : ∀ cbs acc,
  fold_left (add_chunk term) (zip cas cbs) acc = fold_left (add_chunk (λ x y, term y x)) (zip cbs cas) acc.
Proof.
  induction cas as [|ca cas IH]; intros [|cb cbs] acc; simpl; try done. by rewrite add_chunk_flip, IH.
Qed.
Lemma add_remainder_flip term ra : ∀ rb total, length ra = length rb →
  add_remainder term total ra rb = add_remainder (λ x y, term y x) total rb ra.
Proof. induction ra as [|x ra IH]; intros [|y rb] total; simpl; intros [=]; [done|]. by apply IH. Qed.
Lemma accumulate_flip term a b : length a = length b →
  accumulate term a b = accumulate (λ x y, term y x) b a.
Proof.
  intros Hl. unfold accumulate, chunk_sum. rewrite fold_flip. apply add_remainder_flip.
  by rewrite !remainder_length, Hl.
Qed.
Lemma add_remainder_ext f g : (∀ x y, f x y = g x y) → ∀ ra rb total,
  add_remainder f total ra rb = add_remainder g total ra rb.
Proof. intros Hfg ra. induction ra as [|x ra IH]; intros [|y rb] total; simpl; try done. by rewrite Hfg, IH. Qed.
Lemma add_chunk_ext f g acc cs : (∀ x y, f x y = g x y) → add_chunk f acc cs = add_chunk g acc cs.
Proof.
  intros Hfg. unfold add_chunk. generalize (zip cs.1 cs.2). induction acc as [|s acc IH]; intros [|p ps]; simpl; try done.
  by rewrite Hfg, IH.
Qed.
Lemma accumulate_ext f g a b : (∀ x y, f x y = g x y) → accumulate f a b = accumulate g a b.
Proof.
  intros Hfg. unfold accumulate, chunk_sum. rewrite (add_remainder_ext _ _ Hfg). do 2 f_equal.
  generalize zeros8. induction (zip _ _) as [|cs l IH]; intros acc; simpl; [done|]. by rewrite (add_chunk_ext _ _ _ _ Hfg), IH.
Qed.

Lemma dot_comm a b : length a = length b → accumulate f32_mul a b = accumulate f32_mul b a.
Proof. intros Hl. rewrite accumulate_flip by done. apply accumulate_ext. intros. apply f32_mul_comm. Qed.

(** * Distance metrics, specified

    Every metric is symmetric to the last bit, the distance panics exactly
    when the tails have the wrong lengths, and the Euclidean metric is a
    distance: never negative, zero from a vector to itself. *)

Open Scope nat_scope.

(** ** Symmetry *)
Lemma squared_difference_comm x y : squared_difference x y = squared_difference y x.
Proof.
  unfold squared_difference, f32_mul, f32_sub, f32_op. cbv zeta.
  pose proof (sub_valid _ _ (to_spec32_valid x) (to_spec32_valid y)) as Hv.
  pose proof (sub_valid _ _ (to_spec32_valid y) (to_spec32_valid x)) as Hv'.
  rewrite !to_of_spec32 by done. f_equal. destruct (sub_opp (to_spec32 x) (to_spec32 y)) as [E|E]; rewrite E; [done|].
  by rewrite mul_opp.
Qed.
Lemma distance_sym a b metric : length a = length b → distance a b metric = distance b a metric.
Proof.
  intros Hl. destruct metric; simpl.
  - unfold cosine_distance. rewrite (dot_comm a b) by done.
    rewrite (accumulate_flip (λ x _, f32_mul x x) a b), (accumulate_flip (λ _ y, f32_mul y y) a b) by done.
    destruct (accumulate f32_mul b a) as [dot|]; simpl; [|done].
    destruct (accumulate (λ _ y, f32_mul y y) b a) as [nb|], (accumulate (λ x _, f32_mul x x) b a) as [na|]; simpl; try done.
    by rewrite (f32_mul_comm (f32_sqrt nb)).
  - unfold euclidean_distance. rewrite accumulate_flip by done.
    by rewrite (accumulate_ext _ squared_difference) by (intros; apply squared_difference_comm).
  - unfold dot_product_distance, dot_product. by rewrite (dot_comm a b).
Qed.

(** ** The Euclidean metric *)
Definition finite32 (x : f32) : Prop :=
  match to_spec32 x with S754_zero _ | S754_finite _ _ _ => True | _ => False end.
#[export] Instance finite32_dec x : Decision (finite32 x).
Proof. unfold finite32. destruct (to_spec32 x); apply _. Defined.

Lemma sub_self x : finite32 x → squared_difference x x = f32_zero.
Proof.
  unfold finite32, squared_difference, f32_mul, f32_sub, f32_op. cbv zeta.
  rewrite to_of_spec32 by (apply sub_valid; apply to_spec32_valid).
  destruct (to_spec32 x) as [[]|[]| |[] m e]; simpl; try done; intros _; rewrite ?Z.min_id; try rewrite Z.sub_diag; done.
Qed.
Lemma add_chunk_self acc c : Forall (eq f32_zero) acc → Forall finite32 c →
  Forall (eq f32_zero) (add_chunk squared_difference acc (c, c)).
Proof.
  unfold add_chunk. simpl. intros Ha. revert c. induction Ha as [|s acc Hs _ IH]; intros [|x c] Hc; simpl; try constructor.
  - apply Forall_cons in Hc as [Hx _]. rewrite sub_self by done. by subst s.
  - apply IH. by apply Forall_cons in Hc as [_ Hc].
Qed.
Lemma chunks_of_Forall P n : ∀ v, Forall P v → Forall (Forall P) (chunks_of n v).
Proof.
  induction n as [|n IH]; intros v Hv; cbn [chunks_of]; [constructor|]. destruct (_ <? 8); [constructor|].
  constructor; [by apply Forall_take|]. apply IH. by apply Forall_drop.
Qed.
Lemma sum_zeros acc : Forall (eq f32_zero) acc → f32_sum acc = f32_zero.
Proof. unfold f32_sum. induction 1 as [|x l <- _ IH]; [done|]. exact IH. Qed.
Lemma remainder_self ra : Forall finite32 ra → add_remainder squared_difference f32_zero ra ra = Some f32_zero.
Proof. induction 1 as [|x l Hx _ IH]; [done|]. cbn [add_remainder]. rewrite sub_self by done. exact IH. Qed.
Lemma euclidean_self a : Forall finite32 a → euclidean_distance a a = Some f32_zero.
Proof.
  intros Ha. unfold euclidean_distance, accumulate, chunk_sum. rewrite sum_zeros.
  - rewrite remainder_self; [done|]. by apply Forall_drop.
  - assert (Forall (eq f32_zero) zeros8) as Hz by (by apply Forall_replicate).
    pose proof (chunks_of_Forall _ (length a) a Ha) as Hc. fold (chunks_exact a) in Hc. revert Hc Hz.
    generalize zeros8. induction (chunks_exact a) as [|c l IH]; intros acc Hc Hz; [done|].
    apply Forall_cons in Hc as [Hc Hl]. cbn [zip zip_with fold_left]. apply IH; [done|]. by apply add_chunk_self.
Qed.

(** The square root is never negative. *)
Section sqrt.
Local Open Scope Z_scope.
Lemma sqrt_digits n d : 0 < d → 2 ^ (d - 1) ≤ n < 2 ^ d → Zdigits2 (Z.sqrt n) = (d + 1) / 2.
Proof.
  intros Hd Hn. assert (0 < 2 ^ (d - 1)) as Hp by (apply Z.pow_pos_nonneg; lia).
  pose proof (Z.sqrt_spec n ltac:(lia)) as Hs. set (q := Z.sqrt n) in *. set (k := (d + 1) / 2).
  assert (d ≤ 2 * k ≤ d + 1) as Hk by (unfold k; pose proof (Z_div_mod_eq_full (d + 1) 2);
    pose proof (Z.mod_pos_bound (d + 1) 2); lia).
  assert (0 ≤ q) by (apply Z.sqrt_nonneg). apply digits_unique; [lia|]. split.
  - apply Z.lt_succ_r. apply Z.square_lt_simpl_nonneg; [lia|]. eapply Z.le_lt_trans; [|apply Hs].
    rewrite <- Z.pow_add_r by lia. etrans; [|apply Hn]. apply Z.pow_le_mono_r; lia.
  - apply Z.square_lt_simpl_nonneg; [apply Z.pow_nonneg; lia|]. eapply Z.le_lt_trans; [apply Hs|].
    eapply Z.lt_le_trans; [apply Hn|]. rewrite <- Z.pow_add_r by lia. apply Z.pow_le_mono_r; lia.
Qed.
Lemma sqrt_valid x : valid_binary 24 128 (SFsqrt 24 128 x) = true ∧
  (sign_of (SFsqrt 24 128 x) = false ∨ SFsqrt 24 128 x = S754_zero true) ∧
  (signed false x → signed false (SFsqrt 24 128 x)).
Proof.
  destruct x as [[]|[]| |[] m e]; try (by split_and!; [|left|]); [by split_and!; [|right|]|]. cbn [SFsqrt].
  unfold SFsqrt_core_binary. set (d := Zdigits2 (Zpos m)).
  pose proof (digits_bounds (Zpos m) ltac:(lia)) as [Hm Hd]. fold d in Hm, Hd.
  set (e' := Z.min _ _). assert (0 ≤ e - 2 * e') as Hs.
  { pose proof (Z.div2_odd e). destruct (Z.odd e); simpl in *; lia. }
  replace (match e - 2 * e' with Z0 => Zpos m | Zpos _ => Z.shiftl (Zpos m) (e - 2 * e') | Zneg _ => 0 end)
    with (Zpos m * 2 ^ (e - 2 * e')); cycle 1.
  { destruct (e - 2 * e') eqn:E; [by rewrite Z.mul_1_r|by rewrite Z.shiftl_mul_pow2|lia]. }
  pose proof (Z.sqrtrem_sqrt (Zpos m * 2 ^ (e - 2 * e'))) as Hq. destruct (Z.sqrtrem _) as [q r]. simpl in Hq. subst q.
  destruct (round_aux_ok 24 128 ltac:(lia) false (Z.sqrt (Zpos m * 2 ^ (e - 2 * e'))) e'
    (if r =? 0 then loc_Exact else loc_Inexact (if r <=? Z.sqrt (Zpos m * 2 ^ (e - 2 * e')) then Lt else Gt))) as [Hv Hs'].
  - assert (0 < 2 ^ (e - 2 * e')) by (apply Z.pow_pos_nonneg; lia). apply Z.sqrt_pos. nia.
  - assert (Zdigits2 (Z.sqrt (Zpos m * 2 ^ (e - 2 * e'))) = (d + (e - 2 * e') + 1) / 2) as Hdig.
    { apply sqrt_digits; [lia|]. replace (d + (e - 2 * e') - 1) with (d - 1 + (e - 2 * e')) by lia.
      rewrite !Z.pow_add_r by lia. assert (0 < 2 ^ (e - 2 * e')) by (apply Z.pow_pos_nonneg; lia). nia. }
    rewrite Hdig. fold e'. replace ((d + (e - 2 * e') + 1) / 2 + e') with (Z.div2 (d + e + 1)); [lia|].
    rewrite Z.div2_div. replace (d + e + 1) with (d + (e - 2 * e') + 1 + e' * 2) by lia. by rewrite Z.div_add by lia.
  - split_and!; [done| |done]. left. revert Hs'. by destruct (binary_round_aux _ _ _ _ _ _).
Qed.
End sqrt.
Lemma sign_rank x : valid_binary 24 128 x = true → sign_of x = false → (0 ≤ f32_rank (of_spec32 x))%Z.
Proof.
  intros Hv Hs. rewrite of_spec32_bits, Hs. unfold f32_rank. cbn [to_bits32]. destruct (testbit_31 _ (pattern32_range x Hv)) as [-> _].
  apply Z.mod_pos_bound. lia.
Qed.
Lemma sqrt_nonneg x : (0 ≤ f32_rank (f32_sqrt x))%Z.
Proof.
  unfold f32_sqrt. destruct (sqrt_valid (to_spec32 x)) as (Hv & [Hs| ->] & _); [by apply sign_rank|done].
Qed.

(** Between finite vectors it is a number. *)
Definition nonneg32 (x : f32) : Prop := signed false (to_spec32 x).
Lemma add_nonneg32 x y : nonneg32 x → nonneg32 y → nonneg32 (f32_add x y).
Proof.
  unfold nonneg32, f32_add, f32_op. intros Hx Hy.
  destruct (add_nonneg _ _ (to_spec32_valid x) (to_spec32_valid y) Hx Hy). by rewrite to_of_spec32.
Qed.
Lemma squared_nonneg x y : finite32 x → finite32 y → nonneg32 (squared_difference x y).
Proof.
  unfold finite32, nonneg32, squared_difference, f32_mul, f32_sub, f32_op. intros Hx Hy. cbv zeta.
  pose proof (sub_valid _ _ (to_spec32_valid x) (to_spec32_valid y)) as Hv. rewrite (to_of_spec32 _ Hv).
  destruct (sub_signed (to_spec32 x) (to_spec32 y)) as [s Hs]; [by destruct (to_spec32 x)|by destruct (to_spec32 y)|
    by destruct (to_spec32 x)|]. destruct (square_nonneg _ s Hv Hs). by rewrite to_of_spec32.
Qed.
Lemma chunk_nonneg ca : ∀ cb acc, Forall finite32 ca → Forall finite32 cb → Forall nonneg32 acc →
  Forall nonneg32 (add_chunk squared_difference acc (ca, cb)).
Proof.
  unfold add_chunk. simpl. induction ca as [|x ca IH]; intros [|y cb] [|s acc] Ha Hb Hs; simpl; try constructor;
    apply Forall_cons in Ha as [Hx Ha], Hb as [Hy Hb], Hs as [Hs Hacc].
  - apply add_nonneg32; [done|]. by apply squared_nonneg.
  - by apply IH.
Qed.
Lemma chunks_nonneg cas : ∀ cbs acc, Forall (Forall finite32) cas → Forall (Forall finite32) cbs → Forall nonneg32 acc →
  Forall nonneg32 (fold_left (add_chunk squared_difference) (zip cas cbs) acc).
Proof.
  induction cas as [|ca cas IH]; intros [|cb cbs] acc Ha Hb Hs; simpl; try done.
  apply Forall_cons in Ha as [Hx Ha], Hb as [Hy Hb]. apply IH; [done..|]. by apply chunk_nonneg.
Qed.
Lemma sum_nonneg acc : Forall nonneg32 acc → nonneg32 (f32_sum acc).
Proof.
  unfold f32_sum. intros Hacc. assert (nonneg32 f32_zero) as H0 by reflexivity. revert H0. generalize f32_zero.
  induction Hacc as [|x l Hx _ IH]; intros z Hz; simpl; [done|]. by apply IH, add_nonneg32.
Qed.
Lemma remainder_nonneg ra : ∀ rb z t, Forall finite32 ra → Forall finite32 rb → nonneg32 z →
  add_remainder squared_difference z ra rb = Some t → nonneg32 t.
Proof.
  induction ra as [|x ra IH]; intros [|y rb] z t Ha Hb Hz; simpl; try (by intros [= <-]).
  apply Forall_cons in Ha as [Hx Ha], Hb as [Hy Hb]. apply IH; [done..|]. apply add_nonneg32; [done|]. by apply squared_nonneg.
Qed.
Lemma euclidean_number a b d : Forall finite32 a → Forall finite32 b → euclidean_distance a b = Some d → is_nan32 d = false.
Proof.
  unfold euclidean_distance. intros Ha Hb (t & Ht & [= <-])%bind_Some. unfold f32_sqrt.
  destruct (sqrt_valid (to_spec32 t)) as (Hv & _ & Hs). apply (signed_not_nan false); [done|]. apply Hs.
  eapply (remainder_nonneg (remainder a) (remainder b)); [by apply Forall_drop..| |exact Ht].
  apply sum_nonneg, chunks_nonneg; [by apply chunks_of_Forall..|]. by apply Forall_replicate.
Qed.

(** The distance metrics: [distance] panics exactly when the tail of the
    second vector, beyond its last full chunk of eight, is shorter than the
    first one's; vectors of one length have the same distance in both
    directions, bit for bit, under every metric; the Euclidean distance is
    never negative, is zero from a vector of finite components to itself and
    is never a NaN between such vectors, whatever overflows on the way. *)
Theorem distance_metric (a b : list f32) (metric : DistanceMetric.t) :
  (is_Some (distance a b metric) ↔ length a mod 8 ≤ length b mod 8) ∧
  (length a = length b → distance a b metric = distance b a metric) ∧
  (∀ d, distance a b DistanceMetric.Euclidean = Some d → (0 ≤ f32_rank d)%Z) ∧
  (Forall finite32 a → distance a a DistanceMetric.Euclidean = Some f32_zero) ∧
  (∀ d, Forall finite32 a → Forall finite32 b → distance a b DistanceMetric.Euclidean = Some d → is_nan32 d = false).
Proof.
  split_and!; [apply distance_Some|apply distance_sym| |apply euclidean_self|intros; by apply (euclidean_number a b)].
  intros d. simpl. unfold euclidean_distance. intros (t & _ & [= <-])%bind_Some. apply sqrt_nonneg.
Qed.

(** The other metrics can be negative: the dot product by its definition, the
    cosine by rounding. *)
Definition f32s (l : list Z) : list f32 := map f32_of_i64 l.
Example negative_distances :
  distance (f32s [1; 2]%Z) (f32s [3; 4]%Z) DistanceMetric.DotProduct = Some (f32_of_i64 (-11)) ∧
  option_map (λ d, f32_ltb d f32_zero) (distance (f32s [1; 1]%Z) (f32s [1; 1]%Z) DistanceMetric.Cosine) = Some true.
Proof. split; vm_compute; reflexivity. Qed.
