(* ===== verification/Vector.v ===== *)
(** * Vector indexes (crates/vector/src/lib.rs, crates/vector/src/brute_force.rs)

    The interface of vector indexes with its laws, and the exact index by
    linear scan, which satisfies them and answers with the true nearest
    neighbours. *)

From stdpp Require Import gmap.
From S2P Require Export Prelude Distance.

Open Scope nat_scope.

Record VectorHit := MkHit { hit_id : string; hit_distance : f32 }.
#[export] Instance VectorHit_eq_dec : EqDecision VectorHit.
Proof. solve_decision. Defined.

(** The trait.  An insertion may draw a random number; [None] is a panic. *)
Class VectorIndex (I : Type) := {
  insert : nat → string → list f32 → I → option I;
  remove : string → I → option (bool * I);
  search : I → list f32 → nat → option (list VectorHit);
  len : I → nat
}.
Definition is_empty {I} `{VectorIndex I} (self : I) : bool := len self =? 0.

(** Vectors whose mutual distances exist and are comparable. *)
Class Comparable (metric : DistanceMetric.t) := {
  good : list f32 → Prop;
  good_distance a b : good a → good b → ∃ d, distance a b metric = Some d ∧ is_nan32 d = false
}.

(** Finite vectors of one dimension are comparable under the Euclidean
    metric. *)
Definition euclidean_comparable (dim : nat) : Comparable DistanceMetric.Euclidean.
Proof.
  refine {| good v := length v = dim ∧ Forall finite32 v |}. intros a b [Ha Hfa] [Hb Hfb].
  destruct (distance_same_length a b DistanceMetric.Euclidean) as [d Hd]; [congruence|].
  exists d. split; [done|]. by apply (euclidean_number a b).
Defined.

(** ** Nearest neighbours *)
Section nearest.
Context (metric : DistanceMetric.t) (m : gmap string (list f32)) (query : list f32).

(** A hit is a stored record with its distance. *)
Definition true_hit (h : VectorHit) : Prop :=
  ∃ v, m !! hit_id h = Some v ∧ distance query v metric = Some (hit_distance h).
Definition nearest_first (hits : list VectorHit) : Prop :=
  StronglySorted (λ a b, (f32_rank (hit_distance a) ≤ f32_rank (hit_distance b))%Z) hits.
(** An approximate answer: true hits, no record twice, nearest first. *)
Definition sound_hits (k : nat) (hits : list VectorHit) : Prop :=
  Forall true_hit hits ∧ NoDup (map hit_id hits) ∧ nearest_first hits ∧ length hits ≤ k.
(** The exact answer: moreover as many as there are, and no other record is
    nearer. *)
Definition k_nearest (k : nat) (hits : list VectorHit) : Prop :=
  sound_hits k hits ∧ length hits = min k (size m) ∧
  ∀ id v d h, m !! id = Some v → distance query v metric = Some d → id ∉ map hit_id hits → h ∈ hits →
    (f32_rank (hit_distance h) ≤ f32_rank d)%Z.
End nearest.

(** What an index promises: it is a map of records to vectors. *)
Class VectorIndexLaws (I : Type) `{VectorIndex I} (metric : DistanceMetric.t) `{!Comparable metric} := {
  represents : I → gmap string (list f32) → Prop;
  insert_law i m coin id v : represents i m → m !! id = None → good v →
    ∃ i', insert coin id v i = Some i' ∧ represents i' (<[id := v]> m);
  remove_law i m id : represents i m →
    ∃ i', remove id i = Some (bool_decide (is_Some (m !! id)), i') ∧ represents i' (delete id m);
  len_law i m : represents i m → len i = size m;
  search_law i m query k : represents i m → good query →
    ∃ hits, search i query k = Some hits ∧ sound_hits metric m query k hits
}.

(** ** The exact index *)
Definition hit_cmp (a b : VectorHit) : comparison := default Eq (f32_partial_cmp (hit_distance a) (hit_distance b)).
Definition comparable_hit (h : VectorHit) : bool := negb (is_nan32 (hit_distance h)).

Module BruteForce.
Record BruteForceIndex := MkBrute { vectors : list (string * list f32); metric : DistanceMetric.t }.
Definition new (metric : DistanceMetric.t) : BruteForceIndex := MkBrute [] metric.
Definition others (id : string) (e : string * list f32) : bool := negb (String.eqb e.1 id).
Definition insert (id : string) (vector : list f32) (self : BruteForceIndex) : BruteForceIndex :=
  MkBrute (List.filter (others id) (vectors self) ++ [(id, vector)]) (metric self).
Definition remove (id : string) (self : BruteForceIndex) : bool * BruteForceIndex :=
  let vectors' := List.filter (others id) (vectors self) in
  (length vectors' <? length (vectors self), MkBrute vectors' (metric self)).
Definition score (self : BruteForceIndex) (query : list f32) (e : string * list f32) : option VectorHit :=
  MkHit e.1 <$> distance query e.2 (metric self).
Definition search (self : BruteForceIndex) (query : list f32) (k : nat) : option (list VectorHit) :=
  scored ← mapM (score self query) (vectors self);
  sorted ← sort_unwrap comparable_hit hit_cmp scored;
  Some (take k sorted).
Definition len (self : BruteForceIndex) : nat := length (vectors self).
End BruteForce.
#[export] Instance BruteForce_index : VectorIndex BruteForce.BruteForceIndex := {
  insert _ id v self := Some (BruteForce.insert id v self);
  remove id self := Some (BruteForce.remove id self); search := BruteForce.search; len := BruteForce.len }.

(** * Exact nearest neighbours

    The linear scan represents a map of records to vectors, satisfies the
    laws of vector indexes and answers exactly. *)

Open Scope nat_scope.

(** ** Sorted lists *)
Lemma sorted_take {A} (R : A → A → Prop) l k : StronglySorted R l → StronglySorted R (take k l).
Proof.
  intros Hs. revert k. induction Hs as [|x l Hs IH Hx]; intros [|k]; simpl; constructor; [done|].
  by apply Forall_take.
Qed.
Lemma sorted_filter {A} (R : A → A → Prop) (p : A → bool) l : StronglySorted R l → StronglySorted R (List.filter p l).
Proof.
  induction 1 as [|x l Hs IH Hx]; simpl; [constructor|]. destruct (p x); [|done]. constructor; [done|].
  apply Forall_forall. intros y [_ Hy]%elem_filter_bool. rewrite Forall_forall in Hx. by apply Hx.
Qed.
Lemma sorted_take_drop {A} (R : A → A → Prop) l k x y : StronglySorted R l → x ∈ take k l → y ∈ drop k l → R x y.
Proof.
  intros Hs. revert k. induction Hs as [|z l Hs IH Hz]; intros [|k]; simpl; try (by intros ?%not_elem_of_nil).
  rewrite Forall_forall in Hz. intros [->|Hx]%elem_of_cons Hy; [|by eapply IH]. apply Hz.
  rewrite <- (take_drop k l). apply elem_of_app. by right.
Qed.
Lemma hits_sorted l : (∀ h, h ∈ l → comparable_hit h = true) → nearest_first (sort_by hit_cmp l).
Proof.
  intros Hc. apply (sort_by_measure hit_cmp (λ h, f32_rank (hit_distance h))). intros x y Hx Hy.
  unfold hit_cmp, f32_partial_cmp. apply Hc in Hx, Hy. unfold comparable_hit in *.
  by destruct (is_nan32 (hit_distance x)), (is_nan32 (hit_distance y)).
Qed.
Lemma NoDup_fmap_take {A B} (f : A → B) l k : NoDup (map f l) → NoDup (map f (take k l)).
Proof. rewrite <- (take_drop k l) at 1. rewrite map_app. by intros [? _]%NoDup_app. Qed.

(** ** Answers from a sorted list of all hits *)
Section answers.
Context (metric : DistanceMetric.t) (m : gmap string (list f32)) (query : list f32).

Lemma take_sound k hits :
  Forall (true_hit metric m query) hits → NoDup (map hit_id hits) → nearest_first hits →
  sound_hits metric m query k (take k hits).
Proof.
  intros Ht Hn Hs. split_and!; [by apply Forall_take|by apply NoDup_fmap_take|by apply sorted_take|].
  rewrite length_take. lia.
Qed.

Lemma take_nearest k hits :
  Forall (true_hit metric m query) hits → NoDup (map hit_id hits) → nearest_first hits →
  (∀ id, is_Some (m !! id) → id ∈ map hit_id hits) → k_nearest metric m query k (take k hits).
Proof.
  intros Ht Hn Hs Hall. split_and!; [by apply take_sound| |].
  - rewrite length_take. f_equal. rewrite <- (length_map hit_id hits), <- size_dom.
    rewrite <- (size_list_to_set (C := gset string)) by done. f_equal. apply set_eq. intros id.
    rewrite elem_of_list_to_set, elem_of_dom. split; [|apply Hall].
    intros (h & -> & Hh)%list_elem_of_fmap. rewrite Forall_forall in Ht. destruct (Ht h Hh) as (v & Hv & _). eauto.
  - intros id v d h Hv Hd Hid Hh. assert (id ∈ map hit_id hits) as (h' & -> & Hh')%list_elem_of_fmap
      by (apply Hall; eauto). rewrite <- (take_drop k hits) in Hh'. apply elem_of_app in Hh' as [Hh'|Hh'].
    { destruct Hid. by apply list_elem_of_fmap_2. }
    pose proof (sorted_take_drop _ _ _ _ _ Hs Hh Hh') as Hle. rewrite Forall_forall in Ht.
    destruct (Ht h') as (v' & Hv' & Hd'); [rewrite <- (take_drop k hits); apply elem_of_app; by right|]. congruence.
Qed.
End answers.

(** ** The linear scan *)
Section brute.
Context (metric : DistanceMetric.t) `{!Comparable metric}.
Abbreviation Index := BruteForce.BruteForceIndex.

Record brute_rep (self : Index) (m : gmap string (list f32)) : Prop := {
  br_metric : BruteForce.metric self = metric;
  br_ids : NoDup (map fst (BruteForce.vectors self));
  br_map : list_to_map (BruteForce.vectors self) = m;
  br_good : map_Forall (λ _, good) m
}.

Lemma others_ids id (l : list (string * list f32)) :
  NoDup (map fst l) → NoDup (map fst (List.filter (BruteForce.others id) l)) ∧
  id ∉ map fst (List.filter (BruteForce.others id) l).
Proof.
  induction l as [|[id' v] l IH]; simpl; [split; [constructor|by intros ?%not_elem_of_nil]|].
  intros [Hn Hl]%NoDup_cons. destruct (IH Hl) as [IH1 IH2].
  change (BruteForce.others id (id', v)) with (negb (String.eqb id' id)). destruct (String.eqb_spec id' id) as [->|Hne]; simpl; [done|].
  rewrite NoDup_cons, not_elem_of_cons. split_and!; [|done|by apply not_eq_sym|done].
  intros (e & -> & [_ He]%elem_filter_bool)%list_elem_of_fmap. destruct Hn. by apply list_elem_of_fmap_2.
Qed.
Lemma others_map id (l : list (string * list f32)) :
  list_to_map (List.filter (BruteForce.others id) l) = delete id (list_to_map l : gmap string (list f32)).
Proof.
  induction l as [|[id' v] l IH]; simpl; [by rewrite delete_empty|].
  unfold BruteForce.others at 1. simpl. destruct (String.eqb_spec id' id) as [->|Hne]; simpl.
  - by rewrite delete_insert_eq, IH.
  - by rewrite delete_insert_ne, IH by done.
Qed.
Lemma others_all id (l : list (string * list f32)) : id ∉ map fst l → List.filter (BruteForce.others id) l = l.
Proof.
  induction l as [|[id' v] l IH]; simpl; [done|]. rewrite not_elem_of_cons. intros [Hne Hl].
  unfold BruteForce.others at 1. simpl. destruct (String.eqb_spec id' id) as [->|_]; [done|]. simpl. by rewrite IH.
Qed.

(** Insertion replaces. *)
Lemma brute_upsert self m id v : brute_rep self m → good v → brute_rep (BruteForce.insert id v self) (<[id := v]> m).
Proof.
  intros [Hme Hn Hm Hg] Hv. destruct (others_ids id _ Hn) as [Hn' Hid]. split; simpl; [done|..].
  - rewrite map_app. apply NoDup_app. split_and!; [done| |apply NoDup_singleton].
    intros id' Hid' ->%list_elem_of_singleton. done.
  - rewrite list_to_map_snoc by done. by rewrite others_map, Hm, insert_delete_eq.
  - by apply map_Forall_insert_2.
Qed.
Lemma brute_remove self m id : brute_rep self m →
  (BruteForce.remove id self).1 = bool_decide (is_Some (m !! id)) ∧
  brute_rep (BruteForce.remove id self).2 (delete id m).
Proof.
  intros [Hme Hn Hm Hg]. destruct (others_ids id _ Hn) as [Hn' Hid]. split.
  - simpl. destruct (decide (id ∈ map fst (BruteForce.vectors self))) as [Hin|Hin].
    + rewrite bool_decide_eq_true_2. 2: { rewrite <- Hm. apply not_eq_None_Some. by rewrite <- not_elem_of_list_to_map; intros []. }
      apply Nat.ltb_lt. apply list_elem_of_fmap in Hin as (e & -> & He). clear -He.
      induction He as [e l|e e' l He IH]; simpl.
      * unfold BruteForce.others at 1. rewrite String.eqb_refl. simpl. apply le_n_S, List.filter_length_le.
      * destruct (BruteForce.others e.1 e'); simpl; lia.
    + rewrite others_all by done. rewrite Nat.ltb_irrefl. symmetry. apply bool_decide_eq_false_2.
      rewrite <- Hm. apply not_elem_of_list_to_map in Hin. rewrite Hin. by intros [? ?].
  - split; simpl; [done|done|by rewrite others_map, Hm|by apply map_Forall_delete].
Qed.
Lemma brute_len self m : brute_rep self m → BruteForce.len self = size m.
Proof.
  intros [_ Hn Hm _]. unfold BruteForce.len. rewrite <- (length_map fst), <- size_dom, <- Hm, dom_list_to_map_L.
  symmetry. by apply size_list_to_set.
Qed.
Lemma brute_scored self m query : brute_rep self m → good query →
  ∃ hits, mapM (BruteForce.score self query) (BruteForce.vectors self) = Some hits ∧
    map hit_id hits = map fst (BruteForce.vectors self) ∧
    Forall (λ h, true_hit metric m query h ∧ comparable_hit h = true) hits.
Proof.
  intros [Hme Hn Hm Hg] Hq. assert (∀ e, e ∈ BruteForce.vectors self → m !! e.1 = Some e.2) as Hin.
  { intros [id v] He. rewrite <- Hm. by apply elem_of_list_to_map_1. }
  revert Hin. generalize (BruteForce.vectors self). intros l. induction l as [|e l IH]; intros Hin; simpl; [by exists []|].
  destruct IH as (hits & Hmap & Hids & Hall); [intros; apply Hin; by right|].
  assert (m !! e.1 = Some e.2) as He by (apply Hin; left).
  destruct (good_distance query e.2) as (d & Hd & Hnan); [done|by eapply Hg|].
  exists (MkHit e.1 d :: hits). assert (BruteForce.score self query e = Some (MkHit e.1 d)) as -> by (unfold BruteForce.score; by rewrite Hme, Hd).
  simpl. rewrite Hmap. simpl.
  split_and!; [done|by rewrite Hids|]. constructor; [|done]. split; [by exists e.2|]. unfold comparable_hit. simpl. by rewrite Hnan.
Qed.
Lemma brute_search self m query k : brute_rep self m → good query →
  ∃ hits, BruteForce.search self query k = Some hits ∧ k_nearest metric m query k hits.
Proof.
  intros Hr Hq. destruct (brute_scored _ _ _ Hr Hq) as (hits & Hmap & Hids & Hall). unfold BruteForce.search.
  rewrite Hmap. simpl. rewrite Forall_and in Hall. destruct Hall as [Ht Hc]. rewrite Forall_forall in Hc.
  rewrite sort_unwrap_Some by done. simpl. eexists; split; [done|].
  pose proof (sort_by_perm hit_cmp hits) as Hp. destruct Hr as [_ Hn Hm _]. apply take_nearest.
  - by rewrite Hp.
  - rewrite Hp, Hids. done.
  - by apply hits_sorted.
  - intros id Hid. rewrite Hp, Hids. destruct (decide (id ∈ map fst (BruteForce.vectors self))); [done|].
    rewrite <- Hm in Hid. rewrite not_elem_of_list_to_map_1 in Hid by done. by destruct Hid.
Qed.
End brute.

#[export] Program Instance brute_laws metric `{!Comparable metric} : VectorIndexLaws BruteForce.BruteForceIndex metric :=
  { represents := brute_rep metric }.
Next Obligation. intros metric ? i m coin id v Hr _ Hv. eexists; split; [done|]. by apply brute_upsert. Qed.
Next Obligation.
  intros metric ? i m id Hr. destruct (brute_remove metric i m id Hr) as [Hb Hr'].
  exists (BruteForce.remove id i).2. split; [|done]. by rewrite <- Hb.
Qed.
Next Obligation. intros metric ? i m Hr. by apply (brute_len metric). Qed.
Next Obligation.
  intros metric ? i m query k Hr Hq. destruct (brute_search metric i m query k Hr Hq) as (hits & Hs & [Hk _]). eauto.
Qed.

(** ** Clients of an index

    The service replaces a vector by removing and inserting. *)
Section client.
Context {I} `{VectorIndex I}.
Definition upsert (drawn : nat) (id : string) (v : list f32) (i : I) : option I :=
  '(_, i) ← remove id i; insert drawn id v i.
Inductive VectorOp :=
  | VUpsert (drawn : nat) (id : string) (v : list f32)
  | VRemove (id : string).
Definition run_vop (op : VectorOp) (i : I) : option I :=
  match op with
  | VUpsert drawn id v => upsert drawn id v i
  | VRemove id => snd <$> remove id i
  end.
Fixpoint run_vops (ops : list VectorOp) (i : I) : option I :=
  match ops with [] => Some i | op :: ops' => i ← run_vop op i; run_vops ops' i end.
Definition abs_vop (op : VectorOp) (m : gmap string (list f32)) : gmap string (list f32) :=
  match op with VUpsert _ id v => <[id := v]> m | VRemove id => delete id m end.
Definition abs_vops (ops : list VectorOp) (m : gmap string (list f32)) : gmap string (list f32) :=
  fold_left (λ m op, abs_vop op m) ops m.

Context (metric : DistanceMetric.t) `{!Comparable metric} `{!VectorIndexLaws I metric}.
Definition op_good (op : VectorOp) : Prop := match op with VUpsert _ _ v => good v | VRemove _ => True end.
Lemma run_vop_represents op i m : represents i m → op_good op →
  ∃ i', run_vop op i = Some i' ∧ represents i' (abs_vop op m).
Proof.
  destruct op as [drawn id v|id]; simpl; intros Hr Hg; destruct (remove_law i m id Hr) as (i1 & Hrm & Hr1).
  - unfold upsert. rewrite Hrm. simpl. destruct (insert_law i1 (delete id m) drawn id v Hr1) as (i2 & Hi & Hr2);
      [by rewrite lookup_delete_eq|done|]. rewrite insert_delete_eq in Hr2. eauto.
  - rewrite Hrm. simpl. eauto.
Qed.
Lemma run_vops_represents ops : ∀ i m, represents i m → Forall op_good ops →
  ∃ i', run_vops ops i = Some i' ∧ represents i' (abs_vops ops m).
Proof.
  induction ops as [|op ops IH]; intros i m Hr Hg; simpl; [by eauto|]. apply Forall_cons in Hg as [Hop Hg].
  destruct (run_vop_represents op i m Hr Hop) as (i1 & -> & Hr1). simpl. by apply IH.
Qed.
End client.
