(* ===== verification/BinaryHeap.v ===== *)
(** * Binary heaps (std::collections::BinaryHeap)

    The heap of the standard library as its array: sifting up on [push], and
    on [pop] sifting a hole to the bottom along the larger children and the
    last element up from there.  The order is the [<=] of the element type,
    and need not be total. *)

From S2P Require Export Prelude.
Open Scope nat_scope.

Section heap.
Context {A : Type} (le : A → A → bool).

Definition parent (i : nat) : nat := (i - 1) / 2.

(** The element [x] moves up from a hole at [pos]. *)
Fixpoint sift_up (fuel : nat) (data : list A) (x : A) (pos : nat) : list A :=
  match fuel with
  | 0 => <[pos := x]> data
  | S fuel =>
      if pos =? 0 then <[pos := x]> data
      else match data !! parent pos with
           | Some p => if le x p then <[pos := x]> data else sift_up fuel (<[pos := p]> data) x (parent pos)
           | None => data
           end
  end.
(** The hole at [pos] moves down to a leaf; its final position. *)
Fixpoint sift_down_to_bottom (fuel : nat) (data : list A) (pos : nat) : list A * nat :=
  match fuel with
  | 0 => (data, pos)
  | S fuel =>
      match data !! (2 * pos + 1), data !! (2 * pos + 2) with
      | Some l, Some r =>
          if le l r then sift_down_to_bottom fuel (<[pos := r]> data) (2 * pos + 2)
          else sift_down_to_bottom fuel (<[pos := l]> data) (2 * pos + 1)
      | Some l, None => (<[pos := l]> data, 2 * pos + 1)
      | None, _ => (data, pos)
      end
  end.

Definition push (x : A) (data : list A) : list A := sift_up (length data) (data ++ [x]) x (length data).
Definition peek (data : list A) : option A := head data.
Definition pop (data : list A) : option (A * list A) :=
  match last data with
  | None => None
  | Some item =>
      let data := removelast data in
      match data with
      | [] => Some (item, [])
      | top :: _ =>
          let '(data, pos) := sift_down_to_bottom (length data) data 0 in
          Some (top, sift_up pos data item pos)
      end
  end.

(** ** Permutations *)
Lemma parent_lt i : 0 < i → parent i < i.
Proof. intros Hi. unfold parent. apply Nat.Div0.div_lt_upper_bound. lia. Qed.

Lemma sift_up_perm fuel : ∀ data x pos, pos < length data → sift_up fuel data x pos ≡ₚ <[pos := x]> data.
Proof.
  induction fuel as [|fuel IH]; intros data x pos Hp; simpl; [done|]. destruct (Nat.eqb_spec pos 0) as [|H0]; [done|].
  pose proof (parent_lt pos ltac:(lia)) as Hlt.
  destruct (lookup_lt_is_Some_2 data (parent pos) ltac:(lia)) as [p Hpar]. rewrite Hpar.
  destruct (le x p); [done|]. rewrite IH by (rewrite length_insert; lia).
  rewrite <- (Permutation_insert_swap (<[pos := x]> data) pos (parent pos) x p).
  - by rewrite list_insert_insert_eq.
  - by apply list_lookup_insert_eq.
  - by rewrite list_lookup_insert_ne by lia.
Qed.
Lemma move_perm (data : list A) pos c y x : pos < length data → pos ≠ c → data !! c = Some y →
  <[c := x]> (<[pos := y]> data) ≡ₚ <[pos := x]> data.
Proof.
  intros Hp Hne Hc. rewrite <- (Permutation_insert_swap (<[pos := x]> data) pos c x y).
  - by rewrite list_insert_insert_eq.
  - by apply list_lookup_insert_eq.
  - by rewrite list_lookup_insert_ne by done.
Qed.
Lemma sift_down_perm fuel : ∀ data pos, pos < length data →
  let r := sift_down_to_bottom fuel data pos in
  length r.1 = length data ∧ r.2 < length data ∧ ∀ x, <[r.2 := x]> r.1 ≡ₚ <[pos := x]> data.
Proof.
  induction fuel as [|fuel IH]; intros data pos Hp; simpl; [done|].
  assert (∀ c y, data !! c = Some y → pos ≠ c →
    let r := sift_down_to_bottom fuel (<[pos := y]> data) c in
    length r.1 = length data ∧ r.2 < length data ∧ ∀ x, <[r.2 := x]> r.1 ≡ₚ <[pos := x]> data) as Hstep.
  { intros c y Hc Hne. pose proof (lookup_lt_Some _ _ _ Hc) as Hlt.
    destruct (IH (<[pos := y]> data) c) as (H1 & H2 & H3); [by rewrite length_insert|]. rewrite length_insert in *.
    split_and!; [done|done|]. intros x. rewrite H3. by apply move_perm. }
  rewrite !Nat.add_0_r. destruct (data !! (pos + pos + 1)) as [l|] eqn:El; [|done].
  destruct (data !! (pos + pos + 2)) as [r|] eqn:Er.
  - destruct (le l r); [apply Hstep|apply Hstep]; [done|lia|done|lia].
  - pose proof (lookup_lt_Some _ _ _ El). simpl. rewrite length_insert. split_and!; [done|done|].
    intros x. apply move_perm; [done|lia|done].
Qed.

Lemma push_perm x data : push x data ≡ₚ x :: data.
Proof.
  unfold push. rewrite sift_up_perm by (rewrite length_app; simpl; lia).
  rewrite list_insert_middle || idtac. rewrite insert_app_r_alt, Nat.sub_diag by lia. simpl.
  by rewrite Permutation_app_comm.
Qed.
Lemma pop_None data : pop data = None ↔ data = [].
Proof.
  unfold pop. destruct (last data) as [item|] eqn:E.
  - destruct data; [done|]. split; [|done]. destruct (removelast _); [done|]. by destruct (sift_down_to_bottom _ _ _).
  - by rewrite last_None in E.
Qed.
Lemma pop_perm data x rest : pop data = Some (x, rest) → data ≡ₚ x :: rest.
Proof.
  unfold pop. destruct (last data) as [item|] eqn:E; [|done]. apply last_Some in E as [l ->]. rewrite removelast_last.
  destruct l as [|top l]; [by intros [= -> <-]|].
  pose proof (sift_down_perm (length (top :: l)) (top :: l) 0 ltac:(simpl; lia)) as (Hl & Hp & Hperm).
  destruct (sift_down_to_bottom _ _ _) as [d pos]. simpl in Hl, Hp, Hperm. intros [= <- <-].
  rewrite sift_up_perm by (by rewrite Hl). rewrite Hperm. simpl. by rewrite Permutation_app_comm.
Qed.
Lemma push_length x data : length (push x data) = S (length data).
Proof. by rewrite push_perm. Qed.
Lemma elem_of_push x y data : y ∈ push x data ↔ y = x ∨ y ∈ data.
Proof. by rewrite push_perm, elem_of_cons. Qed.

(** ** Order

    Where the order is that of a measure, the top of a heap is a greatest
    element. *)
Section ordered.
Context (P : A → Prop) (m : A → Z) (le_m : ∀ a b, P a → P b → le a b = (m a <=? m b)%Z).

Definition is_heap (data : list A) : Prop :=
  Forall P data ∧ ∀ i a p, 0 < i → data !! i = Some a → data !! parent i = Some p → (m a ≤ m p)%Z.
(** A heap around a hole, whose children are below its parent. *)
Definition hole_ok (data : list A) (pos : nat) : Prop :=
  Forall P data ∧
  (∀ i a p, 0 < i → i ≠ pos → parent i ≠ pos → data !! i = Some a → data !! parent i = Some p → (m a ≤ m p)%Z) ∧
  (∀ c a g, 0 < c → 0 < pos → parent c = pos → data !! c = Some a → data !! parent pos = Some g → (m a ≤ m g)%Z).

Lemma is_heap_hole data pos : is_heap data → hole_ok data pos.
Proof.
  intros [HP Hh]. split_and!; [done|by intros; eapply Hh|]. intros c a g Hc Hp Hpar Ha Hg.
  pose proof (parent_lt pos Hp). pose proof (parent_lt c Hc).
  destruct (lookup_lt_is_Some_2 data pos) as [b Hb]; [apply lookup_lt_Some in Ha; lia|].
  etrans; [eapply (Hh c); [done|done|by rewrite Hpar]|by eapply (Hh pos)].
Qed.
(** Filling the hole. *)
Lemma fill_hole data pos x :
  hole_ok data pos → P x → (∀ c a, 0 < c → parent c = pos → data !! c = Some a → (m a ≤ m x)%Z) →
  (0 < pos → ∀ p, data !! parent pos = Some p → (m x ≤ m p)%Z) → is_heap (<[pos := x]> data).
Proof.
  intros (HP & Hh & _) HPx Hc Hpar. split; [by apply Forall_insert|]. intros i a p Hi.
  destruct (decide (i = pos)) as [->|Hne].
  - pose proof (parent_lt pos Hi). rewrite (list_lookup_insert_ne data pos (parent pos)) by lia.
    intros Ha Hp. apply list_lookup_insert_Some in Ha as [(_ & <- & _)|[? _]]; [|done]. by apply Hpar.
  - rewrite list_lookup_insert_ne by done. destruct (decide (parent i = pos)) as [Hpi|Hpi].
    + rewrite Hpi. intros Ha Hp. apply list_lookup_insert_Some in Hp as [(_ & <- & _)|[? _]]; [|done]. by eapply Hc.
    + rewrite list_lookup_insert_ne by done. by apply Hh.
Qed.
Lemma sift_up_heap fuel : ∀ data x pos, pos ≤ fuel → pos < length data → hole_ok data pos → P x →
  (∀ c a, 0 < c → parent c = pos → data !! c = Some a → (m a ≤ m x)%Z) → is_heap (sift_up fuel data x pos).
Proof.
  induction fuel as [|fuel IH]; intros data x pos Hf Hlen Hok HPx Hc; simpl.
  - apply fill_hole; [done..|lia].
  - destruct (Nat.eqb_spec pos 0) as [->|H0]; [apply fill_hole; [done..|lia]|].
    pose proof (parent_lt pos ltac:(lia)) as Hlt.
    destruct (lookup_lt_is_Some_2 data (parent pos) ltac:(lia)) as [p Hpar]. rewrite Hpar.
    destruct Hok as (HP & Hh & Hg). assert (P p) as HPp by (by eapply Forall_lookup_1).
    rewrite le_m by done. destruct (Z.leb_spec (m x) (m p)) as [Hle|Hgt].
    { apply fill_hole; [by split_and!|done..|]. intros _ q Hq. congruence. }
    assert (∀ i a, 0 < i → i ≠ pos → <[pos := p]> data !! i = Some a → parent i = parent pos → (m a ≤ m p)%Z) as Hsib.
    { intros i a Hi Hne Ha Hpi. rewrite list_lookup_insert_ne in Ha by done.
      eapply (Hh i); [done|done|lia|done|by rewrite Hpi]. }
    apply IH; [lia|rewrite length_insert; lia| |done|].
    + split_and!; [by apply Forall_insert| |].
      * intros i a q Hi Hne Hnp. destruct (decide (i = pos)) as [->|Hip]; [done|].
        rewrite list_lookup_insert_ne by done. destruct (decide (parent i = pos)) as [Hpi|Hpi].
        -- rewrite Hpi. intros Ha Hq. apply list_lookup_insert_Some in Hq as [(_ & <- & _)|[? _]]; [|done].
           eapply (Hg i); [done|lia|done|done|done].
        -- rewrite list_lookup_insert_ne by done. by apply Hh.
      * intros c a g Hc0 Hpp Hpc Ha Hgg. pose proof (parent_lt _ Hpp).
        rewrite list_lookup_insert_ne in Hgg by lia.
        assert (m p ≤ m g)%Z as Hpg by (eapply (Hh (parent pos)); [lia|lia|lia|done|done]).
        destruct (decide (c = pos)) as [->|Hne].
        -- apply list_lookup_insert_Some in Ha as [(_ & <- & _)|[? _]]; [done|done].
        -- etrans; [by apply (Hsib c a)|done].
    + intros c a Hc0 Hpc Ha. destruct (decide (c = pos)) as [->|Hne].
      * apply list_lookup_insert_Some in Ha as [(_ & <- & _)|[? _]]; [lia|done].
      * etrans; [by apply (Hsib c a)|lia].
Qed.

Lemma hole_down data pos c y : hole_ok data pos → pos < length data → 0 < c → parent c = pos → data !! c = Some y →
  (∀ c' a, 0 < c' → parent c' = pos → data !! c' = Some a → (m a ≤ m y)%Z) → hole_ok (<[pos := y]> data) c.
Proof.
  intros (HP & Hh & Hg) Hlen Hc Hpc Hy Hmax. pose proof (parent_lt c Hc).
  split_and!; [apply Forall_insert; [done|by eapply Forall_lookup_1]| |].
  - intros i a p Hi Hne Hnp. destruct (decide (i = pos)) as [->|Hip].
    + intros Ha. apply list_lookup_insert_Some in Ha as [(_ & <- & _)|[? _]]; [|done].
      pose proof (parent_lt pos Hi). rewrite list_lookup_insert_ne by lia. intros Hp. by eapply (Hg c).
    + rewrite list_lookup_insert_ne by done. destruct (decide (parent i = pos)) as [Hpi|Hpi].
      * rewrite Hpi. intros Ha Hq. apply list_lookup_insert_Some in Hq as [(_ & <- & _)|[? _]]; [|done]. by eapply Hmax.
      * rewrite list_lookup_insert_ne by done. by apply Hh.
  - intros d a g Hd _ Hpd Ha Hgg. pose proof (parent_lt d Hd). rewrite list_lookup_insert_ne in Ha by lia.
    rewrite Hpc in Hgg. apply list_lookup_insert_Some in Hgg as [(_ & <- & _)|[? _]]; [|done].
    eapply (Hh d); [done|lia|lia|done|by rewrite Hpd].
Qed.
Lemma children c pos : 0 < c → parent c = pos → c = 2 * pos + 1 ∨ c = 2 * pos + 2.
Proof.
  unfold parent. intros Hc Hp. pose proof (Nat.div_mod_eq (c - 1) 2). pose proof (Nat.mod_upper_bound (c - 1) 2). lia.
Qed.
Lemma parent_left pos : parent (2 * pos + 1) = pos.
Proof. unfold parent. symmetry. apply (Nat.div_unique _ _ _ 0); lia. Qed.
Lemma parent_right pos : parent (2 * pos + 2) = pos.
Proof. unfold parent. symmetry. apply (Nat.div_unique _ _ _ 1); lia. Qed.

Lemma sift_down_hole fuel : ∀ data pos, length data ≤ fuel + pos → pos < length data → hole_ok data pos →
  let r := sift_down_to_bottom fuel data pos in
  hole_ok r.1 r.2 ∧ ∀ c a, 0 < c → parent c = r.2 → r.1 !! c = Some a → False.
Proof.
  induction fuel as [|fuel IH]; intros data pos Hf Hlen Hok; [simpl in Hf; lia|]. cbn [sift_down_to_bottom].
  destruct (data !! (2 * pos + 1)) as [l|] eqn:El; cycle 1.
  { split; [done|]. intros c a Hc Hp Ha. cbn [fst snd] in *. apply children in Hp as [->| ->]; [congruence| |done].
    apply lookup_ge_None in El. apply lookup_lt_Some in Ha. lia. }
  pose proof (lookup_lt_Some _ _ _ El) as Hl. assert (P l) as HPl by (eapply Forall_lookup_1; [apply Hok|done]).
  destruct (data !! (2 * pos + 2)) as [r|] eqn:Er.
  - pose proof (lookup_lt_Some _ _ _ Er) as Hr. assert (P r) as HPr by (eapply Forall_lookup_1; [apply Hok|done]).
    rewrite le_m by done. destruct (Z.leb_spec (m l) (m r)) as [Hle|Hgt].
    + apply IH; rewrite ?length_insert; [lia|done|]. apply hole_down; [done|done|lia|apply parent_right|done|].
      intros c a Hc Hp Ha. apply children in Hp as [->| ->]; [| |done]; assert (a = l ∨ a = r) as [->| ->] by naive_solver; lia.
    + apply IH; rewrite ?length_insert; [lia|done|]. apply hole_down; [done|done|lia|apply parent_left|done|].
      intros c a Hc Hp Ha. apply children in Hp as [->| ->]; [| |done]; assert (a = l ∨ a = r) as [->| ->] by naive_solver; lia.
  - assert (length data ≤ 2 * pos + 2) as Hlast by (by apply lookup_ge_None). cbn [fst snd]. split.
    + apply hole_down; [done|done|lia|apply parent_left|done|]. intros c a Hc Hp Ha.
      apply children in Hp as [->| ->]; [| |done].
      { assert (a = l) as -> by congruence. lia. }
      apply lookup_lt_Some in Ha. lia.
    + intros c a Hc Hp Ha. apply lookup_lt_Some in Ha. rewrite length_insert in Ha.
      apply children in Hp as [->| ->]; lia.
Qed.

Lemma push_heap x data : is_heap data → P x → is_heap (push x data).
Proof.
  intros Hh HPx. unfold push.
  assert (is_heap data → hole_ok (data ++ [x]) (length data)) as Hext.
  { intros [HP Hd]. split_and!; [by apply Forall_app; split; [|constructor]| |].
    - intros i a p Hi Hne Hnp Ha Hp. pose proof (parent_lt i Hi).
      assert (i < length data) as Hlt by (apply lookup_lt_Some in Ha; rewrite length_app in Ha; simpl in Ha; lia).
      rewrite lookup_app_l in Ha by done. rewrite lookup_app_l in Hp by lia. by eapply Hd.
    - intros c a g Hc _ Hpc Ha _. pose proof (parent_lt c Hc). apply lookup_lt_Some in Ha.
      rewrite length_app in Ha. simpl in Ha. lia. }
  apply sift_up_heap; [lia|rewrite length_app; simpl; lia|by apply Hext|done|].
  intros c a Hc Hpc Ha. pose proof (parent_lt c Hc). apply lookup_lt_Some in Ha. rewrite length_app in Ha. simpl in Ha. lia.
Qed.
Lemma heap_removelast data item : is_heap (data ++ [item]) → is_heap data.
Proof.
  intros [[HP _]%Forall_app Hd]. split; [done|]. intros i a p Hi Ha Hp. pose proof (lookup_lt_Some _ _ _ Ha).
  pose proof (lookup_lt_Some _ _ _ Hp). eapply (Hd i); [done|by rewrite lookup_app_l|by rewrite lookup_app_l].
Qed.
Lemma pop_heap data x rest : is_heap data → pop data = Some (x, rest) → is_heap rest.
Proof.
  unfold pop. intros Hh. destruct (last data) as [item|] eqn:E; [|done]. apply last_Some in E as [l ->].
  rewrite removelast_last. destruct l as [|top l]; [intros [= _ <-]; split; [constructor|done]|].
  assert (P item) as HPi by (destruct Hh as [[_ H]%Forall_app _]; by apply Forall_cons in H as [H _]).
  apply heap_removelast in Hh. pose proof (is_heap_hole _ 0 Hh) as Hok.
  pose proof (sift_down_perm (length (top :: l)) (top :: l) 0 ltac:(simpl; lia)) as (Hl & Hp & _).
  pose proof (sift_down_hole (length (top :: l)) (top :: l) 0 ltac:(lia) ltac:(simpl; lia) Hok) as (Hok' & Hleaf).
  destruct (sift_down_to_bottom _ _ _) as [d pos]. simpl in *. intros [= _ <-].
  apply sift_up_heap; [done|by rewrite Hl|done|done|]. intros c a Hc Hpc Ha. by destruct (Hleaf c a).
Qed.
(** The root is greatest. *)
Lemma heap_top data x : is_heap data → head data = Some x → ∀ y, y ∈ data → (m y ≤ m x)%Z.
Proof.
  intros [_ Hh] Hx y [i Hy]%list_elem_of_lookup. destruct data as [|x' data]; [done|]. injection Hx as ->.
  revert y Hy. induction (lt_wf i) as [i _ IH]. intros y Hy. destruct (decide (i = 0)) as [->|Hi].
  { injection Hy as ->. done. }
  pose proof (parent_lt i ltac:(lia)) as Hlt.
  destruct (lookup_lt_is_Some_2 (x :: data) (parent i)) as [p Hp]; [apply lookup_lt_Some in Hy; lia|].
  etrans; [by eapply (Hh i); [lia|..]|by eapply IH].
Qed.
Lemma pop_top data x rest : is_heap data → pop data = Some (x, rest) → ∀ y, y ∈ data → (m y ≤ m x)%Z.
Proof.
  intros Hh Hp. apply heap_top; [done|]. revert Hp. unfold pop. destruct (last data) as [item|] eqn:E; [|done].
  apply last_Some in E as [l ->]. rewrite removelast_last. destruct l as [|top l]; [by intros [= -> _]|].
  destruct (sift_down_to_bottom _ _ _) as [d pos]. by intros [= -> _].
Qed.
End ordered.
End heap.

Example heap_ex : let h := foldr (push Nat.leb) [] [3; 1; 4; 1; 5; 9; 2; 6] in
  peek h = Some 9 ∧ option_map fst (pop Nat.leb h) = Some 9 ∧
  option_map (peek ∘ snd) (pop Nat.leb h) = Some (Some 6).
Proof. by vm_compute. Qed.
