(* ===== verification/Hnsw.v ===== *)
(** * The HNSW index (crates/vector/src/hnsw.rs)

    A layered graph over the inserted vectors: greedy descent through the
    upper layers, beam search with two binary heaps in a layer, insertion with
    pruned neighbour lists, removal by a flag.  Indexing out of bounds, a
    failed [unwrap] and running out of fuel are [None]; the draw of a random
    level is an argument. *)

From stdpp Require Import gmap.
From S2P Require Export Vector BinaryHeap.
Open Scope nat_scope.

Record HnswConfig := MkHnswConfig { cfg_m : nat; ef_construction : nat; max_layers : nat }.
Definition HnswConfig_default : HnswConfig := MkHnswConfig 16 200 16.
Record HnswNode := MkHnswNode {
  n_id : string; n_vector : list f32; n_level : nat;
  n_neighbors : list (list nat); n_deleted : bool }.
(** The factor [ml] of the level draw is part of the draw. *)
Record HnswIndex := MkHnsw {
  config : HnswConfig; metric : DistanceMetric.t; dim : nat; nodes : list HnswNode;
  node_lookup : gmap string nat; entry_point : option nat; max_level : nat }.

Definition new (dim : nat) (metric : DistanceMetric.t) (config : HnswConfig) : HnswIndex :=
  MkHnsw config metric dim [] ∅ None 0.

(** The order of [OrdF32Idx]: an incomparable pair counts as equal. *)
Abbreviation Entry := (f32 * nat)%type.
Definition entry_cmp (a b : Entry) : comparison := default Eq (f32_partial_cmp a.1 b.1).
Definition entry_le (a b : Entry) : bool := match entry_cmp a b with Gt => false | _ => true end.
(** [Reverse] *)
Definition rev_le (a b : Entry) : bool := entry_le b a.
Definition comparable_entry (e : Entry) : bool := negb (is_nan32 e.1).

(** ** Searching a graph of nodes *)
Section graph.
Context (metric : DistanceMetric.t) (nodes : list HnswNode) (query : list f32).

Definition dist (node_idx : nat) : option f32 :=
  n ← nodes !! node_idx; distance query (n_vector n) metric.
Definition neighbors_at (idx layer : nat) : option (list nat) :=
  n ← nodes !! idx; n_neighbors n !! layer.

(** One scan over the neighbours of the node current at its start. *)
Fixpoint greedy_round (ns : list nat) (current : nat) (current_dist : f32) (changed : bool) :
    option (nat * f32 * bool) :=
  match ns with
  | [] => Some (current, current_dist, changed)
  | neighbor :: ns' =>
      n ← nodes !! neighbor;
      if n_deleted n then greedy_round ns' current current_dist changed
      else
        d ← dist neighbor;
        if f32_ltb d current_dist then greedy_round ns' neighbor d true
        else greedy_round ns' current current_dist changed
  end.
Fixpoint greedy_loop (fuel layer current : nat) (current_dist : f32) : option nat :=
  match fuel with
  | 0 => None
  | S fuel =>
      ns ← neighbors_at current layer;
      '(current, current_dist, changed) ← greedy_round ns current current_dist false;
      if changed : bool then greedy_loop fuel layer current current_dist else Some current
  end.
Definition greedy_closest (start layer : nat) : option nat :=
  current_dist ← dist start; greedy_loop (S (length nodes)) layer start current_dist.
(** The descent through the layers, given from the top. *)
Fixpoint descend (current : nat) (layers : list nat) : option nat :=
  match layers with
  | [] => Some current
  | layer :: layers' => current ← greedy_closest current layer; descend current layers'
  end.

(** The heaps and the visited set of a beam search. *)
Record Beam := MkBeam { candidates : list Entry; results : list Entry; visited : gset nat }.
Definition visit (ef : nat) (b : Beam) (neighbor : nat) : option Beam :=
  if decide (neighbor ∈ visited b) then Some b
  else
    let visited' := {[ neighbor ]} ∪ visited b in
    d ← dist neighbor;
    should_add ← (if length (results b) <? ef then Some true
                  else worst ← peek (results b); Some (f32_ltb d worst.1));
    if should_add : bool then
      let results' := push entry_le (d, neighbor) (results b) in
      let results' := if ef <? length results' then default [] (snd <$> pop entry_le results') else results' in
      Some (MkBeam (push rev_le (d, neighbor) (candidates b)) results' visited')
    else Some (MkBeam (candidates b) (results b) visited').
Fixpoint visit_all (ef : nat) (b : Beam) (ns : list nat) : option Beam :=
  match ns with [] => Some b | n :: ns' => b ← visit ef b n; visit_all ef b ns' end.
Definition beam_done (ef : nat) (c_dist : f32) (results : list Entry) : bool :=
  match peek results with
  | Some worst => f32_ltb worst.1 c_dist && (ef <=? length results)
  | None => false
  end.
Fixpoint beam_loop (fuel ef layer : nat) (b : Beam) : option Beam :=
  match fuel with
  | 0 => None
  | S fuel =>
      match pop rev_le (candidates b) with
      | None => Some b
      | Some ((c_dist, c_idx), candidates) =>
          let b := MkBeam candidates (results b) (visited b) in
          if beam_done ef c_dist (results b) then Some b
          else ns ← neighbors_at c_idx layer; b ← visit_all ef b ns; beam_loop fuel ef layer b
      end
  end.
Definition search_layer (start ef layer : nat) : option (list Entry) :=
  start_dist ← dist start;
  let e := (start_dist, start) in
  b ← beam_loop (S (length nodes)) ef layer (MkBeam (push rev_le e []) (push entry_le e []) {[ start ]});
  sort_unwrap comparable_entry entry_cmp (results b).

(** The live hits among sorted entries. *)
Fixpoint live_hits (es : list Entry) : option (list VectorHit) :=
  match es with
  | [] => Some []
  | (d, idx) :: es' =>
      n ← nodes !! idx; hits ← live_hits es';
      Some (if n_deleted n then hits else MkHit (n_id n) d :: hits)
  end.
End graph.

Definition search_ef (self : HnswIndex) (query : list f32) (k ef : nat) : option (list VectorHit) :=
  match entry_point self with
  | None => Some []
  | Some ep =>
      current ← descend (metric self) (nodes self) query ep (rev (seq 1 (max_level self)));
      candidates ← search_layer (metric self) (nodes self) query current (max ef k) 0;
      hits ← live_hits (nodes self) candidates;
      Some (take k hits)
  end.
Definition search (self : HnswIndex) (query : list f32) (k : nat) : option (list VectorHit) :=
  search_ef self query k (ef_construction (config self)).

(** ** Insertion *)
(** The level drawn, capped at the layers there are. *)
Definition random_level (self : HnswIndex) (drawn : nat) : option nat :=
  if max_layers (config self) =? 0 then None else Some (min drawn (max_layers (config self) - 1)).

Definition set_neighbors (nodes : list HnswNode) (idx layer : nat) (ns : list nat) : option (list HnswNode) :=
  n ← nodes !! idx; _ ← n_neighbors n !! layer;
  Some (<[idx := MkHnswNode (n_id n) (n_vector n) (n_level n) (<[layer := ns]> (n_neighbors n)) (n_deleted n)]> nodes).
(** The neighbours of a node cut down to the [m] nearest of them. *)
Definition pruned (metric : DistanceMetric.t) (nodes : list HnswNode) (m idx layer : nat) (ns : list nat) :
    option (list nat) :=
  n ← nodes !! idx;
  scored ← mapM (λ i, o ← nodes !! i; d ← distance (n_vector n) (n_vector o) metric; Some (d, i)) ns;
  sorted ← sort_unwrap comparable_entry entry_cmp scored;
  Some (map snd (take m sorted)).
Definition link_back (metric : DistanceMetric.t) (m new_idx layer : nat) (nodes : list HnswNode) (neighbor_idx : nat) :
    option (list HnswNode) :=
  ns ← neighbors_at nodes neighbor_idx layer;
  let ns := ns ++ [new_idx] in
  nodes ← set_neighbors nodes neighbor_idx layer ns;
  if m * 2 <? length ns then
    ns ← pruned metric nodes m neighbor_idx layer ns; set_neighbors nodes neighbor_idx layer ns
  else Some nodes.
Fixpoint link_all (metric : DistanceMetric.t) (m new_idx layer : nat) (nodes : list HnswNode) (nearest : list nat) :
    option (list HnswNode) :=
  match nearest with
  | [] => Some nodes
  | i :: nearest' => nodes ← link_back metric m new_idx layer nodes i; link_all metric m new_idx layer nodes nearest'
  end.
Definition connect (metric : DistanceMetric.t) (m new_idx : nat) (nodes : list HnswNode) (neighbors : list Entry)
    (layer : nat) : option (list HnswNode) :=
  let nearest := map snd (take m neighbors) in
  nodes ← set_neighbors nodes new_idx layer nearest;
  link_all metric m new_idx layer nodes nearest.
(** The layers from the top down to the bottom one. *)
Fixpoint connect_layers (cfg : HnswConfig) (metric : DistanceMetric.t) (query : list f32) (new_idx : nat)
    (nodes : list HnswNode) (current : nat) (layers : list nat) : option (list HnswNode) :=
  match layers with
  | [] => Some nodes
  | layer :: layers' =>
      neighbors ← search_layer metric nodes query current (ef_construction cfg) layer;
      nodes ← connect metric (cfg_m cfg) new_idx nodes neighbors layer;
      connect_layers cfg metric query new_idx nodes (match neighbors with (_, i) :: _ => i | [] => current end) layers'
  end.

Definition insert (drawn : nat) (id : string) (vector : list f32) (self : HnswIndex) : option HnswIndex :=
  level ← random_level self drawn;
  let new_idx := length (nodes self) in
  let nodes' := nodes self ++ [MkHnswNode id vector level (replicate (level + 1) []) false] in
  let lookup' := <[id := new_idx]> (node_lookup self) in
  match entry_point self with
  | None => Some (MkHnsw (config self) (metric self) (dim self) nodes' lookup' (Some new_idx) level)
  | Some ep =>
      current ← descend (metric self) nodes' vector ep (rev (seq (level + 1) (max_level self - level)));
      let top := min level (max_level self) in
      nodes' ← connect_layers (config self) (metric self) vector new_idx nodes' current (rev (seq 0 (S top)));
      Some (if max_level self <? level
            then MkHnsw (config self) (metric self) (dim self) nodes' lookup' (Some new_idx) level
            else MkHnsw (config self) (metric self) (dim self) nodes' lookup' (Some ep) (max_level self))
  end.

(** ** Removal and size *)
Definition with_deleted (n : HnswNode) : HnswNode :=
  MkHnswNode (n_id n) (n_vector n) (n_level n) (n_neighbors n) true.
Definition remove (id : string) (self : HnswIndex) : option (bool * HnswIndex) :=
  match node_lookup self !! id with
  | None => Some (false, self)
  | Some idx =>
      n ← nodes self !! idx;
      if n_deleted n then Some (false, self)
      else Some (true, MkHnsw (config self) (metric self) (dim self) (<[idx := with_deleted n]> (nodes self))
                         (delete id (node_lookup self)) (entry_point self) (max_level self))
  end.
Definition len (self : HnswIndex) : nat := length (List.filter (λ n, negb (n_deleted n)) (nodes self)).

#[export] Instance Hnsw_index : VectorIndex HnswIndex := {
  Vector.insert := insert; Vector.remove := remove; Vector.search := search; Vector.len := len }.

Example hnsw_ex :
  let v (l : list Z) := map f32_of_i64 l in
  let i := foldr (λ e i, i ≫= insert e.1.1 e.1.2 (v e.2)) (Some (new 2 DistanceMetric.Euclidean HnswConfig_default))
             [(0, "d"%string, [9; 9]%Z); (1, "c"%string, [5; 5]%Z); (3, "b"%string, [1; 2]%Z); (0, "a"%string, [0; 0]%Z)] in
  option_map (map hit_id) (i ≫= λ i, search i (v [4; 4]%Z) 3) = Some ["c"; "b"; "a"]%string ∧
  option_map len (option_map snd (i ≫= remove "c"%string)) = Some 3.
Proof. split; vm_compute; reflexivity. Qed.
