(* ===== verification/HnswBeam.v ===== *)
(** * Searching the layered graph

    On a well-formed graph greedy descent and beam search terminate without a
    panic and stay in their layer; a beam search ends in a local optimum: a
    neighbour of an answer that is not an answer itself is no nearer than any
    answer. *)

From stdpp Require Import gmap relations.
From S2P Require Export Vector Hnsw.

Open Scope nat_scope.

(** ** Comparisons *)
Abbreviation rank e := (f32_rank (fst e)).
Definition proper (e : Entry) : Prop := is_nan32 e.1 = false.
Lemma f32_ltb_rank a b : is_nan32 a = false → is_nan32 b = false → f32_ltb a b = (f32_rank a <? f32_rank b)%Z.
Proof. unfold f32_ltb, f32_partial_cmp, Z.ltb. intros -> ->. simpl. by destruct (_ ?= _)%Z. Qed.
Lemma entry_cmp_rank a b : proper a → proper b → entry_cmp a b = (rank a ?= rank b)%Z.
Proof. unfold entry_cmp, f32_partial_cmp, proper. by intros -> ->. Qed.
Lemma entry_le_rank a b : proper a → proper b → entry_le a b = (rank a <=? rank b)%Z.
Proof. intros Ha Hb. unfold entry_le. rewrite entry_cmp_rank by done. unfold Z.leb. by destruct (_ ?= _)%Z. Qed.
Lemma rev_le_rank a b : proper a → proper b → rev_le a b = (- rank a <=? - rank b)%Z.
Proof.
  intros Ha Hb. unfold rev_le. rewrite entry_le_rank by done.
  destruct (Z.leb_spec (rank b) (rank a)), (Z.leb_spec (- rank a) (- rank b)); lia.
Qed.

(** ** Well-formed graphs *)
Section graph.
Context (metric : DistanceMetric.t) `{!Comparable metric}.

Definition at_layer (nodes : list HnswNode) (layer i : nat) : Prop := ∃ n, nodes !! i = Some n ∧ layer ≤ n_level n.
Record graph_ok (nodes : list HnswNode) : Prop := {
  go_len i n : nodes !! i = Some n → length (n_neighbors n) = S (n_level n);
  go_nbrs i l ns j : neighbors_at nodes i l = Some ns → j ∈ ns → at_layer nodes l j;
  go_good i n : nodes !! i = Some n → good (n_vector n)
}.
(** The edges of a layer. *)
Definition step (nodes : list HnswNode) (layer i j : nat) : Prop :=
  ∃ ns, neighbors_at nodes i layer = Some ns ∧ j ∈ ns.

Context (nodes : list HnswNode) (Hok : graph_ok nodes) (query : list f32) (Hq : good query).
Abbreviation dist := (dist metric nodes query).

Lemma at_layer_lt layer i : at_layer nodes layer i → i < length nodes.
Proof. intros (n & Hn & _). by eapply lookup_lt_Some. Qed.
Lemma dist_ok i : i < length nodes → ∃ d, dist i = Some d ∧ is_nan32 d = false.
Proof.
  intros [n Hn]%lookup_lt_is_Some. unfold Hnsw.dist. rewrite Hn. simpl. apply good_distance; [done|].
  by eapply go_good.
Qed.
Lemma dist_proper i d : dist i = Some d → is_nan32 d = false.
Proof.
  intros Hd. destruct (dist_ok i) as (d' & Hd' & Hn); [|congruence]. unfold Hnsw.dist in Hd.
  destruct (nodes !! i) eqn:E; [by eapply lookup_lt_Some|done].
Qed.
Lemma neighbors_ok layer i : at_layer nodes layer i → ∃ ns, neighbors_at nodes i layer = Some ns.
Proof.
  intros (n & Hn & Hl). unfold neighbors_at. rewrite Hn. simpl. apply lookup_lt_is_Some.
  rewrite (go_len _ Hok i n Hn). lia.
Qed.

(** ** Greedy descent *)
Lemma greedy_round_ok layer ns : ∀ current cd ch, (∀ j, j ∈ ns → at_layer nodes layer j) →
  at_layer nodes layer current → dist current = Some cd →
  ∃ c d ch', greedy_round metric nodes query ns current cd ch = Some (c, d, ch') ∧
    at_layer nodes layer c ∧ dist c = Some d ∧ (c = current ∨ c ∈ ns) ∧
    ((c, d, ch') = (current, cd, ch) ∨ ch' = true ∧ (f32_rank d < f32_rank cd)%Z).
Proof.
  induction ns as [|j ns IH]; intros current cd ch Hns Hc Hd; simpl; [exists current, cd, ch; naive_solver|].
  destruct (Hns j) as (n & Hn & Hl); [left|]. rewrite Hn. simpl.
  assert (∀ j, j ∈ ns → at_layer nodes layer j) as Hns' by (intros; apply Hns; by right).
  assert (∃ c d ch', greedy_round metric nodes query ns current cd ch = Some (c, d, ch') ∧
    at_layer nodes layer c ∧ dist c = Some d ∧ (c = current ∨ c ∈ j :: ns) ∧
    ((c, d, ch') = (current, cd, ch) ∨ ch' = true ∧ (f32_rank d < f32_rank cd)%Z)) as Hskip.
  { destruct (IH current cd ch Hns' Hc Hd) as (c & d & ch' & ? & ? & ? & Hin & ?). exists c, d, ch'. split_and!; try done.
    destruct Hin; [by left|right; by right]. }
  destruct (n_deleted n); [done|]. destruct (dist_ok j) as (d & Hdj & Hnan); [by eapply lookup_lt_Some|].
  rewrite Hdj. simpl. rewrite f32_ltb_rank by (done || by eapply dist_proper).
  destruct (Z.ltb_spec (f32_rank d) (f32_rank cd)) as [Hlt|_]; [|done].
  destruct (IH j d true Hns' (ex_intro _ n (conj Hn Hl)) Hdj) as (c & d' & ch' & -> & Hc' & Hd' & Hin & Hcase).
  exists c, d', ch'. split_and!; [done..| |].
  { right. destruct Hin as [->|?]; [left|by right]. }
  right. destruct Hcase as [[= -> -> ->]|[-> ?]]; [done|split; [done|lia]].
Qed.

(** Nodes nearer than a bound. *)
Definition nearer (r : Z) (j : nat) : bool := match dist j with Some d => (f32_rank d <? r)%Z | None => false end.
Definition n_nearer (r : Z) : nat := length (List.filter (nearer r) (seq 0 (length nodes))).
Lemma n_nearer_lt j d r : dist j = Some d → (f32_rank d < r)%Z → n_nearer (f32_rank d) < n_nearer r.
Proof.
  intros Hd Hlt. assert (j ∈ seq 0 (length nodes)) as Hj.
  { apply elem_of_seq. unfold Hnsw.dist in Hd. destruct (nodes !! j) eqn:E; [|done]. apply lookup_lt_Some in E. lia. }
  unfold n_nearer. revert Hj. generalize (seq 0 (length nodes)). intros l.
  assert (∀ i, nearer (f32_rank d) i = true → nearer r i = true) as Himp.
  { intros i. unfold nearer. destruct (dist i); [|done]. rewrite !Z.ltb_lt. lia. }
  assert (∀ l, length (List.filter (nearer (f32_rank d)) l) ≤ length (List.filter (nearer r) l)) as Hle.
  { clear l. intros l. induction l as [|i l IH]; [done|]. simpl. destruct (nearer (f32_rank d) i) eqn:E.
    - rewrite (Himp i E). simpl. lia.
    - destruct (nearer r i); simpl; lia. }
  induction 1 as [j l|j i l Hj IH]; simpl.
  - assert (nearer (f32_rank d) j = false) as -> by (unfold nearer; rewrite Hd; apply Z.ltb_irrefl).
    assert (nearer r j = true) as -> by (unfold nearer; rewrite Hd; by apply Z.ltb_lt). simpl. specialize (Hle l). lia.
  - destruct (nearer (f32_rank d) i) eqn:E; [rewrite (Himp i E); simpl; specialize (IH Hd); lia|].
    specialize (IH Hd). destruct (nearer r i); simpl; lia.
Qed.
Lemma greedy_loop_ok layer fuel : ∀ current cd, at_layer nodes layer current → dist current = Some cd →
  n_nearer (f32_rank cd) < fuel →
  ∃ c, greedy_loop metric nodes query fuel layer current cd = Some c ∧ at_layer nodes layer c ∧
    rtc (step nodes layer) current c.
Proof.
  induction fuel as [|fuel IH]; intros current cd Hc Hd Hf; [lia|]. cbn [greedy_loop].
  destruct (neighbors_ok layer current Hc) as [ns Hns]. rewrite Hns. cbn [mbind option_bind].
  destruct (greedy_round_ok layer ns current cd false) as (c & d & ch & -> & Hc' & Hd' & Hin & Hcase);
    [by intros; eapply go_nbrs|done|done|]. cbn [mbind option_bind].
  destruct Hcase as [[= -> -> ->]|[-> Hlt]]; [exists current; by split_and!|].
  pose proof (n_nearer_lt c d _ Hd' Hlt). destruct (IH c d Hc' Hd') as (c' & -> & Hc'' & Hr); [lia|].
  exists c'. split_and!; [done|done|]. destruct Hin as [->|Hin]; [done|]. eapply rtc_l; [|exact Hr]. by exists ns.
Qed.
Lemma greedy_closest_ok layer start : at_layer nodes layer start →
  ∃ c, greedy_closest metric nodes query start layer = Some c ∧ at_layer nodes layer c ∧
    rtc (step nodes layer) start c.
Proof.
  intros Hs. unfold greedy_closest. destruct (dist_ok start) as (d & Hd & _); [by eapply at_layer_lt|].
  rewrite Hd. cbn [mbind option_bind]. apply greedy_loop_ok; [done|done|]. unfold n_nearer.
  pose proof (List.filter_length_le (nearer (f32_rank d)) (seq 0 (length nodes))) as Hle. rewrite length_seq in Hle. lia.
Qed.
Lemma at_layer_le l l' i : l' ≤ l → at_layer nodes l i → at_layer nodes l' i.
Proof. intros Hl (n & Hn & ?). exists n. split; [done|lia]. Qed.
Lemma descend_ok (Q : nat → Prop) low layers : (∀ l i j, Q i → step nodes l i j → Q j) → ∀ current, Q current → at_layer nodes (max low (list_max layers)) current →
  (∀ l, l ∈ layers → low ≤ l) → StronglySorted (λ a b, b ≤ a) layers →
  ∃ c, descend metric nodes query current layers = Some c ∧ at_layer nodes low c ∧ Q c.
Proof.
  intros HQ. induction layers as [|l layers IH]; intros current Hqc Hc Hlow Hs; simpl.
  { exists current. split_and!; [done| |done]. eapply at_layer_le; [|exact Hc]. lia. }
  apply StronglySorted_inv in Hs as [Hs Hl]. assert (low ≤ l) as Hll by (apply Hlow; left).
  destruct (greedy_closest_ok l current) as (c & -> & Hc' & Hr).
  { eapply at_layer_le; [|exact Hc]. simpl. lia. }
  simpl. apply IH; [clear -Hqc Hr HQ; induction Hr; eauto| |intros; apply Hlow; by right|done]. eapply at_layer_le; [|exact Hc'].
  assert (list_max layers ≤ l); [|lia]. apply list_max_le. eapply Forall_impl; [exact Hl|]. done.
Qed.
End graph.

(** * Beam search ends in a local optimum *)

Open Scope nat_scope.

Section beam.
Context (metric : DistanceMetric.t) `{!Comparable metric} (nodes : list HnswNode) (Hok : graph_ok metric nodes)
  (query : list f32) (Hq : good query) (start ef layer : nat).
Abbreviation dist := (dist metric nodes query).
Abbreviation at_layer := (at_layer nodes layer).
Abbreviation reach := (rtc (step nodes layer) start).
Abbreviation ids es := (map (@snd f32 nat) es).

Abbreviation heap_c := (is_heap proper (λ e, - rank e)%Z).
Abbreviation heap_r := (is_heap proper (λ e, rank e)).
(** No answer is farther than [d], and the answer is full. *)
Definition beaten (es : list Entry) (d : f32) : Prop :=
  ef ≤ length es ∧ ∀ e, e ∈ es → (rank e ≤ f32_rank d)%Z.
Record beam_inv (b : Beam) : Prop := {
  bi_cand e : e ∈ candidates b → e.2 ∈ visited b ∧ dist e.2 = Some e.1;
  bi_res e : e ∈ results b → e.2 ∈ visited b ∧ dist e.2 = Some e.1;
  bi_vis i : i ∈ visited b → at_layer i ∧ reach i;
  bi_start : start ∈ visited b;
  bi_nodup : NoDup (ids (results b));
  bi_heap_c : heap_c (candidates b);
  bi_heap_r : heap_r (results b);
  bi_excl i d : i ∈ visited b → dist i = Some d → i ∉ ids (results b) → beaten (results b) d;
  bi_ne : results b ≠ [];
  bi_len : length (results b) ≤ max 1 ef
}.
(** Answers waiting to be expanded are candidates; [c] is being expanded. *)
Definition expanded (c : option nat) (b : Beam) : Prop :=
  ∀ i, i ∈ ids (results b) → c = Some i ∨ i ∈ ids (candidates b) ∨ ∀ j, step nodes layer i j → j ∈ visited b.
Definition left_over (b : Beam) : nat := length (candidates b) + (length nodes - size (visited b)).

Lemma visited_size b : beam_inv b → size (visited b) ≤ length nodes.
Proof.
  intros Hb. rewrite <- (size_set_seq (C := gset nat) 0 (length nodes)). apply subseteq_size. intros i Hi.
  apply elem_of_set_seq. destruct (bi_vis b Hb i Hi) as [Ha _]. apply at_layer_lt in Ha. lia.
Qed.
Lemma peek_worst b w : beam_inv b → peek (results b) = Some w → ∀ e, e ∈ results b → (rank e ≤ rank w)%Z.
Proof. intros Hb Hw e He. exact (heap_top proper (λ e, rank e) _ _ (bi_heap_r b Hb) Hw e He). Qed.

(** Keeping a new answer: it enters, and the worst may leave. *)
Lemma keep_result b i d :
  beam_inv b → i ∉ visited b → dist i = Some d → is_nan32 d = false →
  (length (results b) < ef ∨ ∃ w, peek (results b) = Some w ∧ (f32_rank d < rank w)%Z) →
  let rs := push entry_le (d, i) (results b) in
  let rs' := if ef <? length rs then default [] (snd <$> pop entry_le rs) else rs in
  (∀ e, e ∈ rs' → e = (d, i) ∨ e ∈ results b) ∧ NoDup (ids rs') ∧ heap_r rs' ∧ rs' ≠ [] ∧ length rs' ≤ max 1 ef ∧
  (∀ j dj, dist j = Some dj → (j ∈ visited b ∨ j = i) → j ∉ ids rs' → beaten rs' dj).
Proof.
  intros Hb Hi Hd Hnan Hcase rs. assert (i ∉ ids (results b)) as Hfresh.
  { intros (e & -> & He)%list_elem_of_fmap. destruct Hi. by apply bi_res. }
  pose proof (push_perm entry_le (d, i) (results b)) as Hp. fold rs in Hp.
  assert (heap_r rs) as Hheap by (apply push_heap; [apply entry_le_rank|by apply bi_heap_r|done]).
  assert (NoDup (ids rs)) as Hnd by (rewrite Hp; constructor; [done|by apply bi_nodup]).
  assert (∀ j dj, dist j = Some dj → (j ∈ visited b ∨ j = i) → j ∉ ids rs →
    (∀ e, e ∈ rs → (rank e ≤ f32_rank dj)%Z) ∧ ef ≤ length (results b)) as Hold.
  { intros j dj Hdj Hv Hj. rewrite Hp in Hj. apply not_elem_of_cons in Hj as [Hne Hj]. destruct Hv as [Hv| ->]; [|done].
    destruct (bi_excl b Hb j dj Hv Hdj Hj) as [Hfull Hall]. split; [|done]. intros e. rewrite Hp, elem_of_cons.
    intros [->|He]; [|by apply Hall]. destruct Hcase as [|(w & Hw & Hlt)]; [lia|]. simpl.
    assert (w ∈ results b) as Hin by (destruct (results b); [done|injection Hw as ->; left]). specialize (Hall w Hin). lia. }
  assert (length rs = S (length (results b))) as Hlen by (by rewrite Hp).
  destruct (Nat.ltb_spec ef (length rs)) as [Hgt|Hle].
  - destruct (pop entry_le rs) as [[x rest]|] eqn:Hpop; cycle 1.
    { apply pop_None in Hpop. rewrite Hpop in Hlen. done. }
    simpl. pose proof (pop_perm _ _ _ _ Hpop) as Hpp.
    pose proof (pop_top entry_le proper (λ e, rank e) _ _ _ Hheap Hpop) as Htop.
    assert (length rs = S (length rest)) as Hlen' by (by rewrite Hpp).
    pose proof (bi_len b Hb) as Hbl.
    assert (∀ e, e ∈ rest → e ∈ rs) as Hsub by (intros e He; rewrite Hpp; by right).
    split_and!.
    + intros e He%Hsub. by rewrite Hp, elem_of_cons in He.
    + rewrite Hpp in Hnd. by apply NoDup_cons in Hnd as [_ ?].
    + eapply pop_heap; [apply entry_le_rank|exact Hheap|exact Hpop].
    + pose proof (bi_ne b Hb). destruct rest, (results b); try done. simpl in *. lia.
    + lia.
    + intros j dj Hdj Hv Hj. destruct (decide (j ∈ ids rs)) as [Hin|Hout].
      * assert (j = x.2) as ->. { rewrite Hpp in Hin. apply elem_of_cons in Hin as [->|?]; done. }
        assert (dist x.2 = Some x.1) as Hx.
        { assert (x ∈ rs) as Hxin by (rewrite Hpp; left). rewrite Hp, elem_of_cons in Hxin.
          destruct Hxin as [->|Hxin]; [done|by apply (bi_res b Hb)]. }
        split; [lia|]. intros e He%Hsub. rewrite Hx in Hdj. injection Hdj as <-. by apply Htop.
      * destruct (Hold j dj Hdj Hv Hout) as [Hall Hf]. split; [lia|]. intros e He%Hsub. by apply Hall.
  - split_and!; [|done|done| |lia|].
    + intros e. by rewrite Hp, elem_of_cons.
    + intros Hnil. rewrite Hnil in Hlen. done.
    + intros j dj Hdj Hv Hj. destruct (Hold j dj Hdj Hv Hj) as [Hall Hf]. split; [lia|done].
Qed.

(** What a visit of [i] does to the beam. *)
Record visited_to (c : option nat) (i : nat) (b b' : Beam) : Prop := {
  vt_inv : beam_inv b';
  vt_expanded : expanded c b';
  vt_in : i ∈ visited b';
  vt_old : visited b ⊆ visited b';
  vt_left : left_over b' ≤ left_over b
}.
Section visiting.
Context (c : option nat) (b : Beam) (i : nat) (d : f32) (Hb : beam_inv b) (Hexp : expanded c b).
Context (Hi : at_layer i) (Hr : reach i) (Hv : i ∉ visited b) (Hd : dist i = Some d) (Hnan : is_nan32 d = false).

Lemma left_over_visit b' : beam_inv b' → visited b' = {[i]} ∪ visited b →
  length (candidates b') ≤ S (length (candidates b)) → left_over b' ≤ left_over b.
Proof using All.
  intros Hb' Hvis Hc. unfold left_over. pose proof (visited_size b' Hb') as Hs. rewrite Hvis in *.
  rewrite size_union, size_singleton in * by set_solver. lia.
Qed.
Lemma visited_reach j : j ∈ {[i]} ∪ visited b → at_layer j ∧ reach j.
Proof using All. intros [->%elem_of_singleton|Hj]%elem_of_union; [done|by apply (bi_vis b Hb)]. Qed.

(** A near enough node is an answer and a candidate. *)
Lemma visit_keep : (length (results b) < ef ∨ ∃ w, peek (results b) = Some w ∧ (f32_rank d < rank w)%Z) →
  visited_to c i b (MkBeam (push rev_le (d, i) (candidates b))
    (let rs := push entry_le (d, i) (results b) in
     if ef <? length rs then default [] (snd <$> pop entry_le rs) else rs) ({[i]} ∪ visited b)).
Proof using All.
  intros Hnear. destruct (keep_result b i d Hb Hv Hd Hnan Hnear) as (Hsub & Hnd & Hh & Hne & Hlen & Hex).
  set (rs' := if ef <? _ then _ else _) in *. match goal with |- visited_to _ _ _ ?x => set (b' := x) end.
  assert (beam_inv b') as Hb'.
  { split; simpl; try done.
    - intros e. rewrite elem_of_push. intros [->|He]; [set_solver|]. destruct (bi_cand b Hb e He). set_solver.
    - intros e [->|He]%Hsub; [set_solver|]. destruct (bi_res b Hb e He). set_solver.
    - exact visited_reach.
    - apply elem_of_union_r. by apply bi_start.
    - apply push_heap; [apply rev_le_rank|by apply bi_heap_c|done].
    - intros j dj Hj Hdj. apply Hex; [done|]. set_solver. }
  split; [done| |set_solver|set_solver|].
  - intros j (e & -> & He)%list_elem_of_fmap. simpl. destruct (Hsub e He) as [->|He'].
    { right; left. by rewrite push_perm; left. }
    destruct (Hexp e.2) as [?|[Hc|Hn]]; [by apply list_elem_of_fmap_2|by left| |].
    + right; left. rewrite push_perm. by right.
    + right; right. intros j Hj. apply elem_of_union_r. by apply Hn.
  - apply left_over_visit; [done|done|]. simpl. by rewrite push_length.
Qed.
(** Any other node is only marked. *)
Lemma visit_drop : beaten (results b) d →
  visited_to c i b (MkBeam (candidates b) (results b) ({[i]} ∪ visited b)).
Proof using All.
  intros Hbeaten. match goal with |- visited_to _ _ _ ?x => set (b' := x) end.
  assert (beam_inv b') as Hb'.
  { split; simpl; try apply Hb.
    - intros e He. destruct (bi_cand b Hb e He). set_solver.
    - intros e He. destruct (bi_res b Hb e He). set_solver.
    - exact visited_reach.
    - apply elem_of_union_r. by apply bi_start.
    - intros j dj [->%elem_of_singleton|Hj]%elem_of_union Hdj Hn; [|by eapply bi_excl].
      assert (dj = d) as -> by congruence. done. }
  split; [done| |set_solver|set_solver|apply left_over_visit; [done|done|simpl; lia]].
  intros j Hj. destruct (Hexp j Hj) as [?|[?|Hn]]; [by left|by right; left|].
  right; right. intros j' Hj'. apply elem_of_union_r. by apply Hn.
Qed.
End visiting.

Lemma visit_ok c b i : beam_inv b → expanded c b → at_layer i → reach i →
  ∃ b', visit metric nodes query ef b i = Some b' ∧ visited_to c i b b'.
Proof.
  intros Hb Hexp Hi Hr. unfold visit. destruct (decide (i ∈ visited b)) as [Hv|Hv]; [by exists b|].
  destruct (dist_ok metric nodes Hok query Hq i) as (d & Hd & Hnan); [by eapply at_layer_lt|]. rewrite Hd.
  cbn [mbind option_bind].
  destruct (Nat.ltb_spec (length (results b)) ef) as [Hlt|Hge].
  { cbn [mbind option_bind]. eexists; split; [done|]. eapply visit_keep; eauto. }
  destruct (peek (results b)) as [w|] eqn:Hw; cycle 1.
  { pose proof (bi_ne b Hb). by destruct (results b). }
  assert (w ∈ results b) as Hin by (destruct (results b); [done|injection Hw as ->; left]).
  assert (is_nan32 w.1 = false) as Hwn.
  { eapply dist_proper; [exact Hok|exact Hq|]. by apply (bi_res b Hb w). }
  cbn [mbind option_bind]. rewrite f32_ltb_rank by done.
  destruct (Z.ltb_spec (f32_rank d) (rank w)) as [Hlt|Hle]; eexists; (split; [done|]).
  - eapply visit_keep; eauto.
  - eapply visit_drop; try done. split; [done|]. intros e He. pose proof (peek_worst b w Hb Hw e He). lia.
Qed.

Lemma visit_all_ok c ns : ∀ b, beam_inv b → expanded c b → (∀ i, i ∈ ns → at_layer i ∧ reach i) →
  ∃ b', visit_all metric nodes query ef b ns = Some b' ∧ beam_inv b' ∧ expanded c b' ∧
    (∀ i, i ∈ ns → i ∈ visited b') ∧ visited b ⊆ visited b' ∧ left_over b' ≤ left_over b.
Proof.
  induction ns as [|i ns IH]; intros b Hb Hexp Hns.
  { exists b. split_and!; try done. by intros i ?%not_elem_of_nil. }
  destruct (Hns i) as [Hi Hr]; [left|]. cbn [visit_all].
  destruct (visit_ok c b i Hb Hexp Hi Hr) as (b1 & -> & [Hb1 He1 Hv1 Hs1 Hl1]). cbn [mbind option_bind].
  destruct (IH b1 Hb1 He1) as (b2 & -> & Hb2 & He2 & Hv2 & Hs2 & Hl2); [intros; apply Hns; by right|].
  exists b2. split_and!; try done; [|set_solver|lia]. intros j [->|Hj]%elem_of_cons; [set_solver|by apply Hv2].
Qed.

Definition settled (b : Beam) : Prop := ∀ i j, i ∈ ids (results b) → step nodes layer i j → j ∈ visited b.

Lemma beam_loop_ok fuel : ∀ b, beam_inv b → expanded None b → left_over b < fuel →
  ∃ b', beam_loop metric nodes query fuel ef layer b = Some b' ∧ beam_inv b' ∧ settled b'.
Proof.
  induction fuel as [|fuel IH]; intros b Hb Hexp Hf; [lia|]. cbn [beam_loop].
  destruct (pop rev_le (candidates b)) as [[[cd c] cands]|] eqn:Hpop; cycle 1.
  { apply pop_None in Hpop. exists b. split_and!; [done|done|]. intros i j Hi Hij.
    destruct (Hexp i Hi) as [?|[Hc|Hn]]; [done| |by apply Hn]. rewrite Hpop in Hc. by apply not_elem_of_nil in Hc. }
  pose proof (pop_perm _ _ _ _ Hpop) as Hperm. set (b1 := MkBeam cands (results b) (visited b)).
  assert ((cd, c) ∈ candidates b) as Hcin by (rewrite Hperm; left).
  destruct (bi_cand b Hb _ Hcin) as [Hcv Hcd]. simpl in Hcv, Hcd.
  destruct (bi_vis b Hb c Hcv) as [Hca Hcr].
  assert (beam_inv b1) as Hb1.
  { split; simpl; try apply Hb.
    - intros e He. apply Hb. rewrite Hperm. by right.
    - eapply pop_heap; [apply rev_le_rank|by apply bi_heap_c|exact Hpop]. }
  fold b1. cbv zeta. change (results b1) with (results b) at 1. destruct (beam_done ef cd (results b)) eqn:Hdone.
  - exists b1. split_and!; [done|done|]. intros i j Hi Hij. simpl in *.
    destruct (Hexp i Hi) as [?|[Hc|Hn]]; [done| |by apply Hn]. exfalso.
    unfold beam_done in Hdone. destruct (peek (results b)) as [w|] eqn:Hw; [|done].
    apply andb_true_iff in Hdone as [Hlt _].
    assert (w ∈ results b) as Hwin by (destruct (results b); [done|injection Hw as ->; left]).
    rewrite f32_ltb_rank in Hlt by (eapply dist_proper; [exact Hok|exact Hq|first [exact Hcd|by apply (bi_res b Hb w)]]).
    apply Z.ltb_lt in Hlt. apply list_elem_of_fmap in Hi as (e & -> & He). apply list_elem_of_fmap in Hc as (e' & He2 & He').
    pose proof (peek_worst b w Hb Hw e He) as H1.
    pose proof (pop_top rev_le proper (λ e, - rank e)%Z _ _ _ (bi_heap_c b Hb) Hpop e' He') as H2. simpl in H2.
    destruct (bi_res b Hb e He) as [_ H3]. destruct (bi_cand b Hb e' He') as [_ H4]. rewrite <- He2 in H4.
    assert (e.1 = e'.1) by congruence. assert (rank e = rank e') by congruence. lia.
  - destruct (neighbors_ok metric nodes Hok layer c Hca) as [ns Hns]. rewrite Hns. cbn [mbind option_bind].
    destruct (visit_all_ok (Some c) ns b1 Hb1) as (b2 & Hva & Hb2 & He2 & Hv2 & Hs2 & Hl2).
    + intros i Hi. simpl in *. destruct (Hexp i Hi) as [?|[Hc|Hn]]; [done| |by right; right].
      rewrite Hperm in Hc. apply elem_of_cons in Hc as [->|Hc]; [by left|by right; left].
    + intros i Hi. split; [by eapply go_nbrs|]. eapply rtc_r; [exact Hcr|]. by exists ns.
    + rewrite Hva. cbn [mbind option_bind]. apply IH; [done| |].
      * intros i Hi. destruct (He2 i Hi) as [[= <-]|[Hc|Hn]]; [|by right; left|by right; right].
        right; right. intros j (ns' & Hns' & Hj). apply Hv2. congruence.
      * assert (length (candidates b) = S (length cands)) by (by rewrite Hperm).
        unfold left_over in *. simpl in Hl2. lia.
Qed.

(** ** The answer of a layer *)
Record layer_answer (res : list Entry) : Prop := {
  la_true e : e ∈ res → at_layer e.2 ∧ reach e.2 ∧ dist e.2 = Some e.1;
  la_nodup : NoDup (ids res);
  la_sorted : StronglySorted (λ a b, (rank a ≤ rank b)%Z) res;
  la_ne : res ≠ [];
  la_len : length res ≤ max 1 ef;
  la_start d : dist start = Some d → start ∉ ids res → beaten res d;
  la_local i j d : i ∈ ids res → step nodes layer i j → dist j = Some d → j ∉ ids res → beaten res d
}.

Lemma search_layer_ok : at_layer start →
  ∃ res, search_layer metric nodes query start ef layer = Some res ∧ layer_answer res.
Proof.
  intros Hs. unfold search_layer. destruct (dist_ok metric nodes Hok query Hq start) as (d & Hd & Hnan); [by eapply at_layer_lt|].
  rewrite Hd. cbn [mbind option_bind]. set (b0 := MkBeam _ _ _).
  assert (candidates b0 = [(d, start)] ∧ results b0 = [(d, start)]) as [Hc0 Hr0] by done.
  assert (∀ m : Entry → Z, is_heap proper m [(d, start)]) as Hheap.
  { intros m. split; [by repeat constructor|]. intros [|[|i]] a p Hi; try lia; done. }
  assert (beam_inv b0) as Hb0.
  { split; rewrite ?Hc0, ?Hr0; simpl.
    - intros e ->%list_elem_of_singleton. set_solver.
    - intros e ->%list_elem_of_singleton. set_solver.
    - intros i ->%elem_of_singleton. by split; [|apply rtc_refl].
    - set_solver.
    - apply NoDup_singleton.
    - apply Hheap.
    - apply Hheap.
    - intros i d' ->%elem_of_singleton _ Hn. destruct Hn. left.
    - done.
    - lia. }
  destruct (beam_loop_ok (S (length nodes)) b0 Hb0) as (b & -> & Hb & Hset).
  - intros i Hi. rewrite Hr0 in Hi. right; left. by rewrite Hc0.
  - unfold left_over. rewrite Hc0. change (visited b0) with ({[start]} : gset nat).
    rewrite size_singleton. apply at_layer_lt in Hs. cbn [length]. lia.
  - cbn [mbind option_bind]. rewrite sort_unwrap_Some; cycle 1.
    { intros e He. unfold comparable_entry. apply bi_res in He as [_ He]; [|done].
      by rewrite (dist_proper metric nodes Hok query Hq _ _ He). }
    eexists; split; [done|]. pose proof (sort_by_perm entry_cmp (results b)) as Hp.
    assert (∀ e, e ∈ results b → proper e) as Hprop.
    { intros e He. apply bi_res in He as [_ He]; [|done]. eapply dist_proper; [exact Hok|exact Hq|exact He]. }
    assert (∀ d, beaten (results b) d → beaten (sort_by entry_cmp (results b)) d) as Hbeat.
    { intros d' [H1 H2]. split; [by rewrite Hp|]. intros e He. apply H2. by rewrite <- Hp. }
    split.
    + intros e He. rewrite Hp in He. destruct (bi_res b Hb e He) as [Hv ?]. by destruct (bi_vis b Hb _ Hv).
    + rewrite Hp. by apply bi_nodup.
    + apply (sort_by_measure entry_cmp (λ e, rank e)). intros x y Hx Hy. apply entry_cmp_rank; by apply Hprop.
    + intros Hnil. rewrite Hnil in Hp. apply Permutation_nil_l in Hp. by apply (bi_ne b Hb).
    + rewrite Hp. by apply bi_len.
    + intros d' Hd' Hn. rewrite Hp in Hn. apply Hbeat. eapply bi_excl; [done|by apply bi_start|done|done].
    + intros i j d' Hi Hij Hd' Hn. rewrite Hp in Hi, Hn. apply Hbeat. eapply bi_excl; [done|by eapply Hset|done|done].
Qed.

(** A beam as wide as what can be reached returns all of it. *)
Lemma layer_answer_all res (R : gset nat) : layer_answer res →
  (∀ i, reach i → i ∈ R) → size R ≤ ef → ∀ i, reach i → i ∈ ids res.
Proof.
  intros Hr HR Hef.
  assert (∀ i d, reach i → beaten res d → i ∈ ids res) as Hfull.
  { intros i d Hi [Hlen _]. destruct (decide (i ∈ ids res)); [done|]. exfalso.
    assert (size (list_to_set (i :: ids res) : gset nat) ≤ size R) as Hs.
    { apply subseteq_size. intros j. rewrite elem_of_list_to_set, elem_of_cons. intros [->|Hj]; [by apply HR|].
      apply list_elem_of_fmap in Hj as (e & -> & He). apply HR. by apply (la_true res Hr e). }
    rewrite size_list_to_set in Hs by (constructor; [done|by apply la_nodup]). simpl in Hs. rewrite length_map in Hs. lia. }
  assert (∀ i, at_layer i → ∃ d, dist i = Some d) as Hdist.
  { intros i Hi. destruct (dist_ok metric nodes Hok query Hq i) as (d & Hd & _); [by eapply at_layer_lt|eauto]. }
  refine (rtc_ind_r (λ i, i ∈ ids res) start _ _); [|intros i j Hi Hij IH].
  - destruct (decide (start ∈ ids res)) as [|Hn]; [done|]. destruct (Hdist start) as [d Hd].
    { pose proof (la_ne res Hr). destruct res as [|e res]; [done|]. destruct (la_true _ Hr e) as (_ & Hre & _); [left|].
      destruct (rtc_inv _ _ Hre) as [Heq|(y & (ns & Hns & _) & _)].
      { rewrite Heq. by apply (la_true _ Hr e); left. }
      unfold neighbors_at in Hns. destruct (nodes !! start) as [n|] eqn:En; [|done]. exists n. split; [done|].
      simpl in Hns. apply lookup_lt_Some in Hns. rewrite (go_len metric nodes Hok start n En) in Hns. lia. }
    eapply Hfull; [constructor|by eapply la_start].
  - destruct (decide (j ∈ ids res)) as [|Hn]; [done|].
    assert (at_layer j) as Hj by (destruct Hij as (ns & Hns & Hj); by eapply go_nbrs).
    destruct (Hdist j Hj) as [d Hd]. eapply Hfull; [by eapply rtc_r|by eapply la_local].
Qed.
End beam.
