(* ===== verification/HnswSpec.v ===== *)
(** * Linking a new node

    Insertion keeps the graph well formed and everything but the neighbour
    lists of the layers it links; a list is pruned only when it overflows. *)

From stdpp Require Import gmap relations.
From S2P Require Export HnswBeam.

Open Scope nat_scope.

(** What linking never changes. *)
Definition shape (n : HnswNode) := (n_id n, n_vector n, n_level n, n_deleted n).
Definition same_shape (ns ns' : list HnswNode) : Prop := map shape ns = map shape ns'.
#[export] Instance same_shape_equiv : Equivalence same_shape.
Proof. unfold same_shape. split; [done|by intros ?? ->|by intros ??? -> ->]. Qed.

Lemma same_shape_lookup ns ns' i n : same_shape ns ns' → ns !! i = Some n → ∃ n', ns' !! i = Some n' ∧ shape n' = shape n.
Proof.
  intros Hs Hn. assert (map shape ns !! i = Some (shape n)) as H by (by apply list_lookup_fmap_Some; eauto).
  rewrite Hs in H. apply list_lookup_fmap_Some in H as (n' & ? & ?). eauto.
Qed.
Lemma same_shape_at ns ns' l i : same_shape ns ns' → at_layer ns l i → at_layer ns' l i.
Proof.
  intros Hs (n & Hn & Hl). destruct (same_shape_lookup _ _ _ _ Hs Hn) as (n' & Hn' & [= _ _ E _]).
  exists n'. split; [done|]. by rewrite E.
Qed.
Lemma same_shape_length ns ns' : same_shape ns ns' → length ns = length ns'.
Proof. intros Hs. by rewrite <- (length_map shape ns), Hs, length_map. Qed.

Section link.
Context (metric : DistanceMetric.t) `{!Comparable metric}.
Abbreviation graph_ok := (graph_ok metric).

Lemma set_neighbors_ok nodes idx layer ns :
  graph_ok nodes → at_layer nodes layer idx → (∀ j, j ∈ ns → at_layer nodes layer j) →
  ∃ nodes', set_neighbors nodes idx layer ns = Some nodes' ∧ graph_ok nodes' ∧ same_shape nodes nodes' ∧
    ∀ i l, neighbors_at nodes' i l = if decide (i = idx ∧ l = layer) then Some ns else neighbors_at nodes i l.
Proof.
  intros Hok Hat Hns. destruct (neighbors_ok metric nodes Hok layer idx Hat) as [old Hold].
  destruct Hat as (n & Hn & Hl). unfold set_neighbors. unfold neighbors_at in Hold. rewrite Hn in *. simpl in *.
  rewrite Hold. simpl. eexists; split; [done|]. set (n' := MkHnswNode _ _ _ _ _). set (nodes' := <[idx := n']> nodes).
  assert (∀ i l, neighbors_at nodes' i l = if decide (i = idx ∧ l = layer) then Some ns else neighbors_at nodes i l) as Hat.
  { intros i l. unfold neighbors_at, nodes'. destruct (decide (i = idx)) as [->|Hne].
    - rewrite list_lookup_insert_eq by (by eapply lookup_lt_Some). rewrite Hn. simpl. destruct (decide (l = layer)) as [->|Hl'].
      + rewrite decide_True by done. apply list_lookup_insert_eq. by eapply lookup_lt_Some.
      + rewrite decide_False by naive_solver. by apply list_lookup_insert_ne.
    - rewrite decide_False by naive_solver. by rewrite list_lookup_insert_ne. }
  assert (same_shape nodes nodes') as Hs.
  { apply (list_eq (shape <$> nodes) (shape <$> nodes')). intros i. rewrite !list_lookup_fmap. unfold nodes'.
    destruct (decide (i = idx)) as [->|Hne]; [|by rewrite list_lookup_insert_ne].
    rewrite list_lookup_insert_eq by (by eapply lookup_lt_Some). by rewrite Hn. }
  split_and!; [|done|exact Hat]. split.
  - intros i x Hx. apply list_lookup_insert_Some in Hx as [(_ & <- & _)|[_ Hx]]; [|by eapply go_len].
    simpl. rewrite length_insert. by eapply go_len.
  - intros i l ns' j. rewrite Hat. intros Hns' Hj. apply (same_shape_at _ _ _ _ Hs).
    destruct (decide _) as [[_ ->]|_]; [injection Hns' as <-; by apply Hns|by eapply go_nbrs].
  - intros i x Hx. apply list_lookup_insert_Some in Hx as [(_ & <- & _)|[_ Hx]]; simpl; by eapply go_good.
Qed.

(** Pruning keeps some of the neighbours. *)
Lemma pruned_ok nodes m idx layer ns :
  graph_ok nodes → at_layer nodes layer idx → (∀ j, j ∈ ns → at_layer nodes layer j) →
  ∃ ns', pruned metric nodes m idx layer ns = Some ns' ∧ ∀ j, j ∈ ns' → j ∈ ns.
Proof.
  intros Hok (n & Hn & _) Hns. unfold pruned. rewrite Hn. cbn [mbind option_bind].
  assert (good (n_vector n)) as Hg by (by eapply go_good).
  assert (∃ scored, mapM (λ i, o ← nodes !! i; d ← distance (n_vector n) (n_vector o) metric; Some (d, i)) ns = Some scored ∧
    map snd scored = ns ∧ ∀ e, e ∈ scored → comparable_entry e = true) as (scored & -> & Hids & Hcomp).
  { induction ns as [|j ns IH]; simpl; [exists []; split_and!; try done; by intros e ?%not_elem_of_nil|].
    destruct IH as (scored & -> & Hids & Hcomp); [intros; apply Hns; by right|].
    destruct (Hns j) as (o & Ho & _); [left|]. rewrite Ho. simpl.
    destruct (good_distance (n_vector n) (n_vector o)) as (d & -> & Hnan); [done|by eapply go_good|]. simpl.
    exists ((d, j) :: scored). split_and!; [done|by rewrite <- Hids|]. intros e [->|He]%elem_of_cons; [|by apply Hcomp].
    unfold comparable_entry. simpl. by rewrite Hnan. }
  cbn [mbind option_bind]. rewrite sort_unwrap_Some by done. cbn [mbind option_bind]. eexists; split; [done|].
  intros j (e & -> & He)%list_elem_of_fmap. rewrite <- Hids. apply list_elem_of_fmap_2.
  rewrite <- (sort_by_perm entry_cmp scored), <- (take_drop m). apply elem_of_app. by left.
Qed.

Lemma link_back_ok m new_idx layer nodes i :
  graph_ok nodes → at_layer nodes layer i → at_layer nodes layer new_idx →
  ∃ nodes', link_back metric m new_idx layer nodes i = Some nodes' ∧ graph_ok nodes' ∧ same_shape nodes nodes' ∧
    (∀ i' l, i' ≠ i ∨ l ≠ layer → neighbors_at nodes' i' l = neighbors_at nodes i' l) ∧
    (∀ ns, neighbors_at nodes i layer = Some ns → length ns < m * 2 →
      neighbors_at nodes' i layer = Some (ns ++ [new_idx])).
Proof.
  intros Hok Hi Hnew. destruct (neighbors_ok metric nodes Hok layer i Hi) as [ns Hns]. unfold link_back. rewrite Hns.
  cbn [mbind option_bind].
  assert (∀ j, j ∈ ns ++ [new_idx] → at_layer nodes layer j) as Hall.
  { intros j [Hj| ->%list_elem_of_singleton]%elem_of_app; [by eapply go_nbrs|done]. }
  destruct (set_neighbors_ok nodes i layer (ns ++ [new_idx]) Hok Hi Hall) as (nodes1 & -> & Hok1 & Hs1 & Hn1).
  cbn [mbind option_bind]. destruct (Nat.ltb_spec (m * 2) (length (ns ++ [new_idx]))) as [Hlt|Hge].
  - assert (∀ j, j ∈ ns ++ [new_idx] → at_layer nodes1 layer j) as Hall1
      by (intros j Hj; eapply same_shape_at; [exact Hs1|by apply Hall]).
    destruct (pruned_ok nodes1 m i layer (ns ++ [new_idx]) Hok1) as (ns' & -> & Hsub); [by eapply same_shape_at|done|].
    cbn [mbind option_bind].
    destruct (set_neighbors_ok nodes1 i layer ns' Hok1) as (nodes2 & -> & Hok2 & Hs2 & Hn2);
      [by eapply same_shape_at|intros j Hj; by apply Hall1, Hsub|].
    exists nodes2. split_and!; [done|done|by etrans| |].
    + intros i' l Hne. rewrite Hn2, Hn1, !decide_False by naive_solver. done.
    + intros ns0 [= <-] Hl. rewrite length_app in Hlt. simpl in Hlt. lia.
  - exists nodes1. split_and!; [done..| |].
    + intros i' l Hne. rewrite Hn1, decide_False by naive_solver. done.
    + intros ns0 [= <-] Hl. by rewrite Hn1, decide_True.
Qed.
Lemma link_all_ok m new_idx layer nearest : ∀ nodes,
  graph_ok nodes → (∀ i, i ∈ nearest → at_layer nodes layer i) → at_layer nodes layer new_idx → NoDup nearest →
  ∃ nodes', link_all metric m new_idx layer nodes nearest = Some nodes' ∧ graph_ok nodes' ∧ same_shape nodes nodes' ∧
    (∀ i l, i ∉ nearest ∨ l ≠ layer → neighbors_at nodes' i l = neighbors_at nodes i l) ∧
    (∀ i ns, i ∈ nearest → neighbors_at nodes i layer = Some ns → length ns < m * 2 →
      neighbors_at nodes' i layer = Some (ns ++ [new_idx])).
Proof.
  induction nearest as [|i nearest IH]; intros nodes Hok Hat Hnew Hnd.
  { exists nodes. split_and!; try done. by intros i ns ?%not_elem_of_nil. }
  apply NoDup_cons in Hnd as [Hi Hnd]. cbn [link_all].
  destruct (link_back_ok m new_idx layer nodes i Hok) as (n1 & -> & Hok1 & Hs1 & Hk1 & Hl1); [apply Hat; left|done|].
  cbn [mbind option_bind].
  destruct (IH n1 Hok1) as (n2 & -> & Hok2 & Hs2 & Hk2 & Hl2);
    [intros j Hj; eapply same_shape_at; [exact Hs1|apply Hat; by right]|by eapply same_shape_at|done|].
  exists n2. split_and!; [done|done|by etrans| |].
  - intros j l Hne. rewrite Hk2, Hk1; [done| |]; rewrite not_elem_of_cons in Hne; tauto.
  - intros j ns [->|Hj]%elem_of_cons Hns Hlen; [rewrite Hk2 by tauto; by apply Hl1|].
    apply Hl2; [done| |done]. rewrite Hk1; [done|]. left. intros ->. done.
Qed.

(** [connect]: the new node points at the nearest, and they point back. *)
Lemma connect_ok m new_idx layer nodes (neighbors : list Entry) :
  graph_ok nodes → at_layer nodes layer new_idx → (∀ e, e ∈ neighbors → at_layer nodes layer e.2) →
  NoDup (map snd neighbors) → new_idx ∉ map snd neighbors →
  ∃ nodes', connect metric m new_idx nodes neighbors layer = Some nodes' ∧ graph_ok nodes' ∧ same_shape nodes nodes' ∧
    let nearest := map snd (take m neighbors) in
    (∀ i l, i ∉ nearest ∧ i ≠ new_idx ∨ l ≠ layer → neighbors_at nodes' i l = neighbors_at nodes i l) ∧
    neighbors_at nodes' new_idx layer = Some nearest ∧
    (∀ i ns, i ∈ nearest → neighbors_at nodes i layer = Some ns → length ns < m * 2 →
      neighbors_at nodes' i layer = Some (ns ++ [new_idx])).
Proof.
  intros Hok Hnew Hat Hnd Hfresh. unfold connect. set (nearest := map snd (take m neighbors)).
  assert (∀ i, i ∈ nearest → i ∈ map snd neighbors) as Hsub.
  { intros i. unfold nearest. rewrite <- (take_drop m neighbors) at 2. rewrite map_app, elem_of_app. by left. }
  assert (∀ i, i ∈ nearest → at_layer nodes layer i) as Hat'
    by (intros i (e & -> & He)%Hsub%list_elem_of_fmap; by apply Hat).
  assert (NoDup nearest) as Hnd' by (by apply NoDup_fmap_take).
  assert (new_idx ∉ nearest) as Hfresh' by (intros H%Hsub; done).
  destruct (set_neighbors_ok nodes new_idx layer nearest Hok Hnew Hat') as (n1 & -> & Hok1 & Hs1 & Hn1).
  cbn [mbind option_bind].
  destruct (link_all_ok m new_idx layer nearest n1 Hok1) as (n2 & -> & Hok2 & Hs2 & Hk2 & Hl2);
    [intros i Hi; eapply same_shape_at; [exact Hs1|by apply Hat']|by eapply same_shape_at|done|].
  exists n2. split_and!; [done|done|by etrans|..].
  - intros i l Hne. rewrite Hk2 by naive_solver. by rewrite Hn1, decide_False by naive_solver.
  - rewrite Hk2 by tauto. by rewrite Hn1, decide_True.
  - intros i ns Hi Hns Hlen. apply Hl2; [done| |done]. rewrite Hn1, decide_False; [done|]. intros [-> _]. done.
Qed.

(** The layers of the new node, from the top; the last one is seen from the
    graph before it is linked. *)
Lemma connect_layers_ok cfg query new_idx layers : good query → ∀ nodes current,
  graph_ok nodes → StronglySorted (λ a b, b < a) layers →
  (∀ l, l ∈ layers → at_layer nodes l new_idx ∧ at_layer nodes l current ∧
    ∀ i ns, neighbors_at nodes i l = Some ns → new_idx ∉ ns) → current ≠ new_idx →
  ∃ nodes', connect_layers cfg metric query new_idx nodes current layers = Some nodes' ∧
    graph_ok nodes' ∧ same_shape nodes nodes' ∧
    (last layers = Some 0 → ∃ nodes0 current0 res, graph_ok nodes0 ∧ same_shape nodes nodes0 ∧
      (∀ i, neighbors_at nodes0 i 0 = neighbors_at nodes i 0) ∧ at_layer nodes0 0 current0 ∧ current0 ≠ new_idx ∧
      search_layer metric nodes0 query current0 (ef_construction cfg) 0 = Some res ∧
      connect metric (cfg_m cfg) new_idx nodes0 res 0 = Some nodes').
Proof.
  intros Hq. induction layers as [|l layers IH]; intros nodes current Hok Hs Hl Hcur; [by exists nodes|].
  apply StronglySorted_inv in Hs as [Hs Hlt]. destruct (Hl l) as (Hnew & Hc & Hfresh); [left|]. cbn [connect_layers].
  destruct (search_layer_ok metric nodes Hok query Hq current (ef_construction cfg) l Hc) as (res & Hres & Ha).
  rewrite Hres. cbn [mbind option_bind].
  assert (new_idx ∉ map snd res) as Hout.
  { intros (e & He & Hin)%list_elem_of_fmap. destruct (la_true _ _ _ _ _ _ _ Ha e Hin) as (_ & Hr & _).
    rewrite <- He in Hr. destruct (rtc_inv_r _ _ Hr) as [?|(y & _ & ns & Hns & Hj)]; [done|]. by eapply Hfresh. }
  destruct (connect_ok (cfg_m cfg) new_idx l nodes res Hok Hnew) as (n1 & Hcon & Hok1 & Hs1 & Hk1 & Hn1 & _);
    [intros e He; by apply (la_true _ _ _ _ _ _ _ Ha)|by eapply la_nodup|done|]. rewrite Hcon. cbn [mbind option_bind].
  assert (∃ d0 i0 res', res = (d0, i0) :: res') as (d0 & i0 & res' & ->).
  { pose proof (la_ne _ _ _ _ _ _ _ Ha). destruct res as [|[d0 i0] res']; [done|eauto]. }
  assert (i0 ≠ new_idx) as Hi0 by (intros ->; apply Hout; left).
  rewrite Forall_forall in Hlt.
  destruct (IH n1 i0 Hok1 Hs) as (n2 & Hrest & Hok2 & Hs2 & Hlast); [|done|].
  { intros l' Hl'. specialize (Hlt l' Hl'). destruct (Hl l') as (Hnew' & _ & Hfresh'); [by right|]. split_and!.
    - by eapply same_shape_at.
    - eapply same_shape_at; [exact Hs1|]. eapply at_layer_le; [|apply (la_true _ _ _ _ _ _ _ Ha (d0, i0)); left]. lia.
    - intros i ns. rewrite Hk1 by (right; lia). apply Hfresh'. }
  exists n2. split_and!; [done|done|by etrans|]. destruct layers as [|l' layers].
  - intros [= ->]. injection Hrest as <-. by exists nodes, current, ((d0, i0) :: res').
  - intros Hl0. destruct (Hlast Hl0) as (nodes0 & c0 & r0 & H1 & H2 & H3 & H4).
    exists nodes0, c0, r0. split_and!; [done|by etrans| |apply H4..]. intros i. rewrite H3. apply Hk1. right.
    assert (0 < l); [|lia]. specialize (Hlt l'). assert (l' ∈ l' :: layers) by left. specialize (Hlt ltac:(done)). lia.
Qed.
End link.

(** * The HNSW index is a vector index

    The graph represents a map of records to vectors and satisfies the laws
    of vector indexes; while no neighbour list has overflowed it answers
    exactly. *)

Open Scope nat_scope.

Section spec.
Context (metric : DistanceMetric.t) `{!Comparable metric}.
Abbreviation graph_ok := (graph_ok metric).

Definition live (n : HnswNode) : bool := negb (n_deleted n).
(** A live node of the record [id]. *)
Definition node_of (nodes : list HnswNode) (id : string) (i : nat) (n : HnswNode) : Prop :=
  nodes !! i = Some n ∧ n_deleted n = false ∧ n_id n = id.
Record hnsw_rep (self : HnswIndex) (m : gmap string (list f32)) : Prop := {
  hr_metric : Hnsw.metric self = metric;
  hr_layers : max_layers (config self) ≠ 0;
  hr_graph : graph_ok (nodes self);
  hr_entry : match entry_point self with
             | None => nodes self = []
             | Some ep => ∃ n, nodes self !! ep = Some n ∧ n_level n = max_level self
             end;
  hr_lookup id i : node_lookup self !! id = Some i ↔ ∃ n, node_of (nodes self) id i n;
  hr_map id v : m !! id = Some v ↔ ∃ i n, node_of (nodes self) id i n ∧ n_vector n = v
}.

(** ** Shapes determine the records *)
Lemma node_of_shape ns ns' id i : same_shape ns ns' →
  (∃ n, node_of ns id i n) ↔ ∃ n, node_of ns' id i n.
Proof.
  assert (∀ ns ns', same_shape ns ns' → (∃ n, node_of ns id i n) → ∃ n, node_of ns' id i n) as H.
  { intros a b Hs (n & Hn & Hd & Hid). destruct (same_shape_lookup _ _ _ _ Hs Hn) as (n' & Hn' & [= E1 E2 E3 E4]).
    exists n'. unfold node_of. by rewrite E4, E1. }
  intros Hs. split; apply H; [done|by symmetry].
Qed.
Lemma node_of_shape_vec ns ns' id v : same_shape ns ns' →
  (∃ i n, node_of ns id i n ∧ n_vector n = v) ↔ ∃ i n, node_of ns' id i n ∧ n_vector n = v.
Proof.
  assert (∀ ns ns', same_shape ns ns' → (∃ i n, node_of ns id i n ∧ n_vector n = v) →
    ∃ i n, node_of ns' id i n ∧ n_vector n = v) as H.
  { intros a b Hs (i & n & (Hn & Hd & Hid) & Hv). destruct (same_shape_lookup _ _ _ _ Hs Hn) as (n' & Hn' & [= E1 E2 E3 E4]).
    exists i, n'. unfold node_of. by rewrite E4, E1, E2. }
  intros Hs. split; apply H; [done|by symmetry].
Qed.

(** ** Removal *)
Lemma with_deleted_graph nodes idx n : graph_ok nodes → nodes !! idx = Some n → graph_ok (<[idx := with_deleted n]> nodes).
Proof.
  intros Hok Hn.
  assert (∀ i l, neighbors_at (<[idx := with_deleted n]> nodes) i l = neighbors_at nodes i l) as Hnb.
  { intros i l. unfold neighbors_at. destruct (decide (i = idx)) as [->|Hne]; [|by rewrite list_lookup_insert_ne].
    rewrite list_lookup_insert_eq by (by eapply lookup_lt_Some). by rewrite Hn. }
  assert (∀ i x, <[idx := with_deleted n]> nodes !! i = Some x →
    ∃ y, nodes !! i = Some y ∧ n_vector y = n_vector x ∧ n_level y = n_level x ∧ n_neighbors y = n_neighbors x) as Hold.
  { intros i x Hx. apply list_lookup_insert_Some in Hx as [(<- & <- & _)|[_ Hx]]; eauto. }
  split.
  - intros i x (y & Hy & _ & <- & <-)%Hold. by eapply go_len.
  - intros i l ns j. rewrite Hnb. intros Hns Hj. destruct (go_nbrs metric nodes Hok i l ns j Hns Hj) as (x & Hx & Hl).
    destruct (decide (j = idx)) as [->|Hne].
    + exists (with_deleted n). rewrite list_lookup_insert_eq by (by eapply lookup_lt_Some). split; [done|].
      simpl. congruence.
    + exists x. by rewrite list_lookup_insert_ne.
  - intros i x (y & Hy & <- & _)%Hold. by eapply go_good.
Qed.
Lemma node_of_deleted nodes idx n id i x : nodes !! idx = Some n →
  node_of (<[idx := with_deleted n]> nodes) id i x ↔ i ≠ idx ∧ node_of nodes id i x.
Proof.
  intros Hn. unfold node_of. destruct (decide (i = idx)) as [->|Hne].
  - rewrite list_lookup_insert_eq by (by eapply lookup_lt_Some). split; [|naive_solver].
    intros ([= <-] & Hd & _). done.
  - rewrite list_lookup_insert_ne by done. naive_solver.
Qed.
Lemma hnsw_remove self m id : hnsw_rep self m →
  ∃ self', remove id self = Some (bool_decide (is_Some (m !! id)), self') ∧ hnsw_rep self' (delete id m) ∧
    config self' = config self ∧ length (nodes self') = length (nodes self) ∧
    (∀ i l, neighbors_at (nodes self') i l = neighbors_at (nodes self) i l).
Proof.
  intros Hr. unfold remove. destruct (node_lookup self !! id) as [idx|] eqn:El; cycle 1.
  - assert (m !! id = None) as Hm.
    { destruct (m !! id) as [v|] eqn:E; [|done]. apply (hr_map self m Hr) in E as (i & n & Hn & _).
      assert (node_lookup self !! id = Some i) by (apply (hr_lookup self m Hr); eauto). congruence. }
    exists self. rewrite Hm, bool_decide_eq_false_2 by (by intros [? ?]). rewrite delete_id by done. by split_and!.
  - apply (hr_lookup self m Hr) in El as Hn. destruct Hn as (n & Hn & Hd & Hid). rewrite Hn. cbn [mbind option_bind]. rewrite Hd.
    assert (m !! id = Some (n_vector n)) as Hm by (apply (hr_map self m Hr); exists idx, n; by split).
    rewrite Hm, bool_decide_eq_true_2 by eauto. eexists; split; [done|].
    assert (∀ i x id', node_of (nodes self) id' i x → id' = id → i = idx) as Huniq.
    { intros i x id' Hx ->. assert (node_lookup self !! id = Some i) by (apply (hr_lookup self m Hr); eauto). congruence. }
    split_and!; [|done|simpl; by rewrite length_insert|]; cycle 1.
    { intros i l. unfold neighbors_at. simpl. destruct (decide (i = idx)) as [->|Hne]; [|by rewrite list_lookup_insert_ne].
      rewrite list_lookup_insert_eq by (by eapply lookup_lt_Some). by rewrite Hn. }
    split; simpl; try apply Hr.
    + apply with_deleted_graph; [apply Hr|done].
    + pose proof (hr_entry self m Hr) as He. destruct (entry_point self) as [ep|]; [|by rewrite He in Hn].
      destruct He as (e & He & Hl). destruct (decide (ep = idx)) as [->|Hne].
      * exists (with_deleted n). rewrite list_lookup_insert_eq by (by eapply lookup_lt_Some). split; [done|].
        simpl. congruence.
      * exists e. by rewrite list_lookup_insert_ne.
    + intros id' i. setoid_rewrite (node_of_deleted _ _ n _ _ _ Hn). rewrite lookup_delete_Some.
      rewrite (hr_lookup self m Hr). split.
      * intros (Hne & x & Hx). exists x. split; [|done]. intros ->. destruct Hx as (Hx & _ & Hx'). congruence.
      * intros (x & Hne & Hx). split; [|eauto]. intros <-. by apply (Huniq i x id) in Hx.
    + intros id' v. setoid_rewrite (node_of_deleted _ _ n _ _ _ Hn). rewrite lookup_delete_Some.
      rewrite (hr_map self m Hr). split.
      * intros (Hne & i & x & Hx & Hv). exists i, x. split_and!; [|done|done].
        intros ->. destruct Hx as (Hx & _ & Hx'). congruence.
      * intros (i & x & (Hne & Hx) & Hv). split; [|eauto]. intros <-. by apply (Huniq i x id) in Hx.
Qed.

(** ** Insertion *)
Lemma append_graph nodes n : graph_ok nodes → length (n_neighbors n) = S (n_level n) →
  (∀ l ns, n_neighbors n !! l = Some ns → ns = []) → good (n_vector n) → graph_ok (nodes ++ [n]).
Proof.
  intros Hok Hlen Hempty Hg.
  assert (∀ i x, (nodes ++ [n]) !! i = Some x → nodes !! i = Some x ∨ i = length nodes ∧ x = n) as Hold.
  { intros i x. rewrite lookup_app_Some, list_lookup_singleton_Some. intros [?|(? & ? & <-)]; [by left|right; split; [lia|done]]. }
  split.
  - intros i x [Hx|[_ ->]]%Hold; [by eapply go_len|done].
  - intros i l ns j. unfold neighbors_at. intros (x & Hx & Hl)%bind_Some Hj. apply Hold in Hx as [Hx|[-> ->]].
    + destruct (go_nbrs metric nodes Hok i l ns j) as (y & Hy & Hyl); [unfold neighbors_at; by rewrite Hx|done|].
      exists y. split; [by apply lookup_app_l_Some|done].
    + rewrite (Hempty l ns Hl) in Hj. by apply not_elem_of_nil in Hj.
  - intros i x [Hx|[_ ->]]%Hold; [by eapply go_good|done].
Qed.
Lemma neighbors_append nodes n i l : (∀ l ns, n_neighbors n !! l = Some ns → ns = []) →
  neighbors_at (nodes ++ [n]) i l = if decide (i = length nodes) then n_neighbors n !! l else neighbors_at nodes i l.
Proof.
  intros Hempty. unfold neighbors_at. destruct (decide (i = length nodes)) as [->|Hne].
  - rewrite lookup_app_r, Nat.sub_diag by lia. done.
  - destruct (decide (i < length nodes)); [by rewrite lookup_app_l|].
    rewrite !lookup_ge_None_2; [done|lia|rewrite length_app; simpl; lia].
Qed.
Lemma seq_rev_sorted a n : StronglySorted (λ x y, y < x) (rev (seq a n)).
Proof.
  revert a. induction n as [|n IH]; intros a; [constructor|]. rewrite seq_S, rev_app_distr. simpl. constructor; [apply IH|].
  apply Forall_forall. intros x Hx.
  apply list_elem_of_In, in_rev, in_seq in Hx. lia.
Qed.
Lemma elem_rev_seq x a n : x ∈ rev (seq a n) ↔ a ≤ x < a + n.
Proof. by rewrite list_elem_of_In, <- in_rev, in_seq. Qed.

(** How layer 0 of an enlarged graph came about. *)
Definition linked (cfg : HnswConfig) (nodes nodes' : list HnswNode) (n : HnswNode) : Prop :=
  if decide (nodes = []) then nodes' = [n]
  else ∃ nodes0 current res, graph_ok nodes0 ∧ same_shape (nodes ++ [n]) nodes0 ∧
    (∀ i, neighbors_at nodes0 i 0 = neighbors_at (nodes ++ [n]) i 0) ∧ current < length nodes ∧
    search_layer metric nodes0 (n_vector n) current (ef_construction cfg) 0 = Some res ∧
    connect metric (cfg_m cfg) (length nodes) nodes0 res 0 = Some nodes'.
Definition fresh_node (id : string) (v : list f32) (level : nat) : HnswNode :=
  MkHnswNode id v level (replicate (level + 1) []) false.
Lemma fresh_empty id v level l ns : n_neighbors (fresh_node id v level) !! l = Some ns → ns = [].
Proof. simpl. by intros [-> _]%lookup_replicate. Qed.

Lemma linked_graph cfg self m id v level ep :
  hnsw_rep self m → good v → entry_point self = Some ep →
  let nodes' := nodes self ++ [fresh_node id v level] in
  ∃ current ns, descend metric nodes' v ep (rev (seq (level + 1) (max_level self - level))) = Some current ∧
    connect_layers cfg metric v (length (nodes self)) nodes' current (rev (seq 0 (S (min level (max_level self))))) = Some ns ∧
    graph_ok ns ∧ same_shape nodes' ns ∧ linked cfg (nodes self) ns (fresh_node id v level).
Proof.
  intros Hr Hg Hep. set (n := fresh_node id v level). intros nodes'. pose proof (hr_graph self m Hr) as Hok.
  pose proof (hr_entry self m Hr) as He. rewrite Hep in He. destruct He as (e & He & Hle).
  assert (graph_ok nodes') as Hok'.
  { apply append_graph; [done|simpl; rewrite length_replicate; lia|apply fresh_empty|done]. }
  assert (nodes' !! length (nodes self) = Some n) as Hn by (unfold nodes'; by rewrite lookup_app_r, Nat.sub_diag by lia).
  assert (∀ i l ns, neighbors_at nodes' i l = Some ns → ∀ j, j ∈ ns → j < length (nodes self)) as Hold.
  { intros i l ns. unfold nodes'. rewrite neighbors_append by apply fresh_empty. destruct (decide _) as [->|_].
    - intros ->%fresh_empty j ?%not_elem_of_nil. done.
    - intros Hns j Hj. eapply at_layer_lt. by eapply go_nbrs. }
  assert (nodes' !! ep = Some e) as He' by (by apply lookup_app_l_Some).
  set (top := min level (max_level self)).
  destruct (descend_ok metric nodes' Hok' v Hg (λ i, i < length (nodes self)) top
    (rev (seq (level + 1) (max_level self - level)))) with (current := ep) as (c & Hc & Hct & Hcl).
  { intros l i j _ (ns & Hns & Hj). by eapply Hold. }
  { by eapply lookup_lt_Some. }
  { exists e. split; [done|]. rewrite Hle.
    assert (list_max (rev (seq (level + 1) (max_level self - level))) ≤ max_level self); [|lia].
    apply list_max_le, Forall_forall. intros x Hx. apply elem_rev_seq in Hx. lia. }
  { intros l Hl%elem_rev_seq. lia. }
  { eapply sorted_weaken; [|apply seq_rev_sorted]. simpl. lia. }
  destruct (connect_layers_ok metric cfg v (length (nodes self)) (rev (seq 0 (S top))) Hg nodes' c Hok')
    as (ns & Hns & Hokn & Hsn & Hlast).
  { apply seq_rev_sorted. }
  { intros l Hl%elem_rev_seq. split_and!.
    - exists n. split; [done|]. simpl. lia.
    - eapply at_layer_le; [|exact Hct]. lia.
    - intros i ns Hns Hin. specialize (Hold i l ns Hns _ Hin). lia. }
  { lia. }
  exists c, ns. split_and!; [done..|]. unfold linked. rewrite decide_False by (by intros Hnil; rewrite Hnil in He).
  destruct Hlast as (nodes0 & c0 & res & H1 & H2 & H3 & H4 & H5 & H6 & H7).
  { simpl. by rewrite last_snoc. }
  exists nodes0, c0, res. split_and!; try done. apply at_layer_lt in H4.
  rewrite <- (same_shape_length _ _ H2) in H4. unfold nodes' in H4. rewrite length_app in H4. simpl in H4. lia.
Qed.

Lemma node_of_append nodes n id i x : node_of (nodes ++ [n]) id i x ↔
  node_of nodes id i x ∨ i = length nodes ∧ x = n ∧ n_deleted n = false ∧ n_id n = id.
Proof.
  unfold node_of. rewrite lookup_app_Some, list_lookup_singleton_Some. split.
  - intros ([Hi|(? & ? & <-)] & Hd & Hid); [by left|right]. split_and!; [lia|done..].
  - intros [(? & ? & ?)|(-> & -> & ? & ?)]; [by split_and!; [left|..]|]. split_and!; [right|done..]. split_and!; [lia|lia|done].
Qed.
Lemma hnsw_insert self m drawn id v : hnsw_rep self m → m !! id = None → good v →
  ∃ self' level, insert drawn id v self = Some self' ∧ hnsw_rep self' (<[id := v]> m) ∧ config self' = config self ∧
    same_shape (nodes self ++ [fresh_node id v level]) (nodes self') ∧
    linked (config self) (nodes self) (nodes self') (fresh_node id v level).
Proof.
  intros Hr Hm Hg. unfold insert, random_level. pose proof (hr_layers self m Hr) as Hl.
  rewrite (proj2 (Nat.eqb_neq _ _) Hl). cbn [mbind option_bind]. set (level := min drawn _). fold (fresh_node id v level).
  set (n := fresh_node id v level). rewrite (hr_metric self m Hr).
  assert (∀ ns ep ml, graph_ok ns → same_shape (nodes self ++ [n]) ns → (∃ x, ns !! ep = Some x ∧ n_level x = ml) →
    hnsw_rep (MkHnsw (config self) metric (dim self) ns (<[id := length (nodes self)]> (node_lookup self)) (Some ep) ml)
      (<[id := v]> m)) as Hrep.
  { intros ns ep ml Hok Hs Hx.
    assert (∀ i x, ¬ node_of (nodes self) id i x) as Hno.
    { intros i x Hx'. assert (m !! id = Some (n_vector x)) by (apply (hr_map self m Hr); eauto). congruence. }
    split; simpl; try done.
    - intros id' i. rewrite <- (node_of_shape _ _ id' i Hs). setoid_rewrite node_of_append.
      rewrite lookup_insert_Some, (hr_lookup self m Hr). split.
      + intros [[<- <-]|[Hne [x Hx']]]; [exists n; by right|exists x; by left].
      + intros [x [Hx'|(-> & -> & _ & <-)]]; [right; split; [|eauto]; intros <-; by eapply Hno|by left].
    - intros id' w. rewrite <- (node_of_shape_vec _ _ id' w Hs). setoid_rewrite node_of_append.
      rewrite lookup_insert_Some, (hr_map self m Hr). split.
      + intros [[<- <-]|[Hne (i & x & Hx' & Hw)]]; [exists (length (nodes self)), n; split; [by right|done]|].
        exists i, x. split; [by left|done].
      + intros (i & x & [Hx'|(-> & -> & _ & <-)] & Hw); [right; split; [|eauto]; intros <-; by eapply Hno|by left]. }
  subst n. destruct (entry_point self) as [ep|] eqn:Hep.
  - destruct (linked_graph (config self) self m id v level ep Hr Hg Hep) as (c & ns & -> & Hns & Hok & Hs & Hlk).
    cbn [mbind option_bind]. cbv zeta. rewrite Hns. cbn [mbind option_bind]. eexists _, level. split; [done|].
    pose proof (hr_entry self m Hr) as He. rewrite Hep in He. destruct He as (e & He & Hle).
    destruct (Nat.ltb_spec (max_level self) level); split_and!; try done; apply Hrep; try done.
    + destruct (same_shape_lookup _ _ (length (nodes self)) (fresh_node id v level) Hs) as (x & Hx & [= _ _ E _]);
        [by rewrite lookup_app_r, Nat.sub_diag by lia|]. exists x. by rewrite E.
    + destruct (same_shape_lookup _ _ ep e Hs) as (x & Hx & [= _ _ E _]); [by apply lookup_app_l_Some|].
      exists x. by rewrite E.
  - pose proof (hr_entry self m Hr) as He. rewrite Hep in He. eexists _, level. split; [done|].
    rewrite He. split_and!; try done.
    rewrite He in Hrep. apply Hrep; [|done|by eexists].
    apply append_graph; [rewrite <- He; apply Hr|simpl; rewrite length_replicate; lia|apply fresh_empty|done].
Qed.
End spec.
