(* ===== verification/HnswTheorems.v ===== *)
(** * Theorems about the HNSW index

    From the empty index, any sequence of replacements and removals runs
    without a panic and represents the map it should; searches return true
    hits.  An index that has never held more nodes than a neighbour list may
    hold answers with the true nearest neighbours. *)

From stdpp Require Import gmap relations.
From S2P Require Export HnswSpec.
Open Scope nat_scope.

Section theorems.
Context (metric : DistanceMetric.t) `{!Comparable metric}.
Abbreviation rep := (hnsw_rep metric).

(** ** Live nodes *)
Lemma live_unique self m i j x y id : rep self m → node_of (nodes self) id i x → node_of (nodes self) id j y → i = j.
Proof.
  intros Hr Hx Hy. assert (node_lookup self !! id = Some i) by (apply (hr_lookup _ self m Hr); eauto).
  assert (node_lookup self !! id = Some j) by (apply (hr_lookup _ self m Hr); eauto). congruence.
Qed.
Lemma live_ids_nodup (ns : list HnswNode) :
  (∀ i j x y id, node_of ns id i x → node_of ns id j y → i = j) → NoDup (map n_id (List.filter live ns)).
Proof.
  induction ns as [|n ns IH]; intros Hu; simpl; [constructor|].
  assert (NoDup (map n_id (List.filter live ns))) as Hnd.
  { apply IH. intros i j x y id Hx Hy. assert (S i = S j) by (eapply (Hu _ _ x y id); done). lia. }
  destruct (live n) eqn:El; [|done]. simpl. constructor; [|done].
  intros (x & He & [Hl [j Hx]%list_elem_of_lookup]%elem_filter_bool)%list_elem_of_fmap.
  unfold live in *. apply negb_true_iff in El, Hl.
  assert (0 = S j); [|done]. by eapply (Hu 0 (S j) n x (n_id n)).
Qed.
Lemma hnsw_len self m : rep self m → len self = size m.
Proof.
  intros Hr. unfold len. fold live. rewrite <- (length_map n_id), <- size_dom.
  rewrite <- (size_list_to_set (C := gset string)) by (apply live_ids_nodup; intros; by eapply live_unique).
  f_equal. apply set_eq. intros id. rewrite elem_of_list_to_set, elem_of_dom. split.
  - intros (n & -> & [Hl [i Hn]%list_elem_of_lookup]%elem_filter_bool)%list_elem_of_fmap. exists (n_vector n).
    apply (hr_map _ self m Hr). exists i, n. split; [|done]. split_and!; [done| |done]. by apply negb_true_iff.
  - intros (v & (i & n & (Hn & Hd & <-) & _)%(hr_map _ self m Hr)). apply list_elem_of_fmap_2, elem_filter_bool.
    split; [unfold live; by rewrite Hd|by eapply list_elem_of_lookup_2].
Qed.

(** ** Hits *)
Definition hit_of (ns : list HnswNode) (e : Entry) : option VectorHit :=
  n ← ns !! e.2; if n_deleted n then None else Some (MkHit (n_id n) e.1).
Lemma live_hits_omap ns (es : list Entry) : (∀ e, e ∈ es → e.2 < length ns) → live_hits ns es = Some (omap (hit_of ns) es).
Proof.
  induction es as [|[d i] es IH]; intros Hes; [done|]. cbn [live_hits].
  destruct (lookup_lt_is_Some_2 ns i) as [n Hn]; [apply (Hes (d, i)); left|]. rewrite Hn. cbn [mbind option_bind].
  rewrite IH by (intros; apply Hes; by right). cbn [mbind option_bind]. f_equal.
  change (omap (hit_of ns) ((d, i) :: es)) with
    (match hit_of ns (d, i) with Some h => h :: omap (hit_of ns) es | None => omap (hit_of ns) es end).
  assert (hit_of ns (d, i) = if n_deleted n then None else Some (MkHit (n_id n) d)) as -> by (unfold hit_of; simpl; by rewrite Hn).
  by destruct (n_deleted n).
Qed.
Lemma hit_of_node ns e h : hit_of ns e = Some h ↔ ∃ n, node_of ns (hit_id h) e.2 n ∧ hit_distance h = e.1.
Proof.
  unfold hit_of, node_of. destruct (ns !! e.2) as [n|]; simpl; [|split; [done|naive_solver]].
  destruct (n_deleted n) eqn:Ed; split; try done; [naive_solver congruence| |].
  - intros [= <-]. exists n. by split_and!.
  - intros (n' & ([= <-] & _ & Hid) & Hd). destruct h. simpl in *. congruence.
Qed.
Lemma hits_elem ns (es : list Entry) h : h ∈ omap (hit_of ns) es ↔ ∃ e n, e ∈ es ∧ node_of ns (hit_id h) e.2 n ∧ hit_distance h = e.1.
Proof.
  rewrite list_elem_of_omap. setoid_rewrite hit_of_node. split.
  - intros (e & He & n & ? & ?). eauto.
  - intros (e & n & He & ? & ?). eauto.
Qed.
Lemma hits_nodup ns (es : list Entry) : (∀ i j x y id, node_of ns id i x → node_of ns id j y → i = j) →
  NoDup (map snd es) → NoDup (map hit_id (omap (hit_of ns) es)).
Proof.
  intros Hu. induction es as [|e es IH]; simpl; [constructor|]. intros [Hn Hnd]%NoDup_cons.
  destruct (hit_of ns e) as [h|] eqn:Eh; [|by apply IH]. simpl. constructor; [|by apply IH].
  apply hit_of_node in Eh as (x & Hx & _). intros (h' & Heq & (e' & y & He' & Hy & _)%hits_elem)%list_elem_of_fmap.
  rewrite Heq in Hx. rewrite (Hu _ _ _ _ _ Hx Hy) in Hn. apply Hn. by apply list_elem_of_fmap_2.
Qed.
Lemma hits_nearest ns (es : list Entry) : StronglySorted (λ a b, (rank a ≤ rank b)%Z) es → nearest_first (omap (hit_of ns) es).
Proof.
  unfold nearest_first. induction 1 as [|e es Hs IH He]; simpl; [constructor|]. destruct (hit_of ns e) as [h|] eqn:Eh; [|done].
  constructor; [done|]. apply Forall_forall. intros h' (e' & n & He' & _ & Hd)%hits_elem.
  apply hit_of_node in Eh as (_ & _ & Hd'). rewrite Forall_forall in He. specialize (He e' He'). by rewrite Hd, Hd'.
Qed.

(** The entries a search sees. *)
Lemma search_entries self m query k ep : rep self m → good query → entry_point self = Some ep →
  ∃ current es, at_layer (nodes self) 0 current ∧
    layer_answer metric (nodes self) query current (max (ef_construction (config self)) k) 0 es ∧
    search self query k = Some (take k (omap (hit_of (nodes self)) es)).
Proof.
  intros Hr Hq Hep. pose proof (hr_graph _ self m Hr) as Hok. pose proof (hr_entry _ self m Hr) as He.
  rewrite Hep in He. destruct He as (e & He & Hle).
  destruct (descend_ok metric (nodes self) Hok query Hq (λ _, True) 0 (rev (seq 1 (max_level self)))) with (current := ep)
    as (c & Hc & Hct & _); [done|done| |intros; lia|eapply sorted_weaken; [|apply seq_rev_sorted]; simpl; lia|].
  { exists e. split; [done|]. rewrite Hle. apply list_max_le, Forall_forall. intros x Hx. apply elem_rev_seq in Hx. lia. }
  destruct (search_layer_ok metric (nodes self) Hok query Hq c (max (ef_construction (config self)) k) 0 Hct) as (es & Hes & Ha).
  exists c, es. split_and!; [done|done|]. unfold search, search_ef. rewrite Hep, (hr_metric _ self m Hr), Hc.
  cbn [mbind option_bind]. rewrite Hes. cbn [mbind option_bind]. rewrite live_hits_omap; [done|].
  intros x Hx. eapply at_layer_lt. by apply (la_true _ _ _ _ _ _ _ Ha).
Qed.
Lemma hits_sound self m query current ef es : rep self m →
  layer_answer metric (nodes self) query current ef 0 es →
  let hits := omap (hit_of (nodes self)) es in
  Forall (true_hit metric m query) hits ∧ NoDup (map hit_id hits) ∧ nearest_first hits.
Proof.
  intros Hr Ha. split_and!.
  - apply Forall_forall. intros h (e & n & He & Hn & Hd)%hits_elem. exists (n_vector n). split.
    + apply (hr_map _ self m Hr). eauto.
    + destruct (la_true _ _ _ _ _ _ _ Ha e He) as (_ & _ & Hdist). unfold dist in Hdist.
      destruct Hn as (Hn & _). rewrite Hn in Hdist. simpl in Hdist. by rewrite Hd.
  - apply hits_nodup; [intros; by eapply live_unique|by eapply la_nodup].
  - apply hits_nearest. by eapply la_sorted.
Qed.
Lemma hnsw_search self m query k : rep self m → good query →
  ∃ hits, search self query k = Some hits ∧ sound_hits metric m query k hits.
Proof.
  intros Hr Hq. destruct (entry_point self) as [ep|] eqn:Hep.
  - destruct (search_entries self m query k ep Hr Hq Hep) as (c & es & _ & Ha & ->). eexists; split; [done|].
    destruct (hits_sound self m query c _ es Hr Ha) as (H1 & H2 & H3). by apply take_sound.
  - exists []. unfold search, search_ef. rewrite Hep. split; [done|]. split_and!; try constructor. simpl. lia.
Qed.
Lemma hnsw_new dim cfg : max_layers cfg ≠ 0 → rep (new dim metric cfg) ∅.
Proof.
  intros Hl. split; simpl; try done.
  - intros id i. split; [done|]. by intros (n & Hn & _).
  - intros id v. split; [done|]. by intros (i & n & (Hn & _) & _).
Qed.
End theorems.

#[export] Program Instance hnsw_laws metric `{!Comparable metric} : VectorIndexLaws HnswIndex metric :=
  { represents := hnsw_rep metric }.
Next Obligation.
  intros metric ? i m drawn id v Hr Hm Hv. destruct (hnsw_insert metric i m drawn id v Hr Hm Hv) as (i' & l & ? & ? & _). eauto.
Qed.
Next Obligation.
  intros metric ? i m id Hr. destruct (hnsw_remove metric i m id Hr) as (i' & ? & ? & _). eauto.
Qed.
Next Obligation. intros metric ? i m Hr. by apply (hnsw_len metric). Qed.
Next Obligation. intros metric ? i m query k Hr Hq. by apply (hnsw_search metric). Qed.

(** ** Small indexes are exact *)
Section exact.
Context (metric : DistanceMetric.t) `{!Comparable metric}.
Abbreviation rep := (hnsw_rep metric).

(** Layer 0 of a graph without pruning. *)
Record dense (ns : list HnswNode) : Prop := {
  de_reach i j : i < length ns → j < length ns → rtc (step ns 0) i j;
  de_sym i j : step ns 0 i j → step ns 0 j i;
  de_list i l : neighbors_at ns i 0 = Some l → NoDup l ∧ i ∉ l
}.
Lemma nbr_lt ns i l j : graph_ok metric ns → neighbors_at ns i 0 = Some l → j ∈ l → j < length ns.
Proof. intros Hok Hl Hj. eapply at_layer_lt. by eapply (go_nbrs metric ns Hok). Qed.
(** A list of other nodes is shorter than the list of nodes. *)
Lemma nbr_short ns i l : graph_ok metric ns → dense ns → neighbors_at ns i 0 = Some l → length l < length ns.
Proof.
  intros Hok Hd Hl. destruct (de_list ns Hd i l Hl) as [Hn Hi].
  assert (i < length ns) as Hlt.
  { unfold neighbors_at in Hl. destruct (ns !! i) eqn:E; [by eapply lookup_lt_Some|done]. }
  assert (NoDup (i :: l)) as Hnd by (by constructor).
  assert (size (list_to_set (i :: l) : gset nat) ≤ size (set_seq 0 (length ns) : gset nat)) as Hs.
  { apply subseteq_size. intros j. rewrite elem_of_list_to_set, elem_of_cons, elem_of_set_seq.
    intros [->|Hj]; [lia|]. pose proof (nbr_lt ns i l j Hok Hl Hj). lia. }
  rewrite size_set_seq, size_list_to_set in Hs by done. simpl in Hs. lia.
Qed.

(** What an unpruned insertion does to layer 0. *)
Lemma linked_small cfg ns ns' n : graph_ok metric ns → dense ns → good (n_vector n) → ns ≠ [] →
  (∀ l0 l1, n_neighbors n !! l0 = Some l1 → l1 = []) →
  linked metric cfg ns ns' n → length ns ≤ 2 * cfg_m cfg → length ns ≤ ef_construction cfg → 1 ≤ cfg_m cfg →
  ∃ nearest, nearest ≠ [] ∧ NoDup nearest ∧ (∀ i, i ∈ nearest → i < length ns) ∧
    neighbors_at ns' (length ns) 0 = Some nearest ∧
    (∀ i l, i < length ns → neighbors_at ns i 0 = Some l →
      neighbors_at ns' i 0 = Some (if decide (i ∈ nearest) then l ++ [length ns] else l)).
Proof.
  intros Hok Hd Hg Hne Hempty Hlk Hm Hef H1. unfold linked in Hlk. rewrite decide_False in Hlk by done.
  destruct Hlk as (n0 & c & res & Hok0 & Hs0 & Hnb & Hc & Hres & Hcon).
  assert (length n0 = S (length ns)) as Hlen0 by (rewrite <- (same_shape_length _ _ Hs0), length_app; simpl; lia).
  assert (∀ i, i < length ns → neighbors_at n0 i 0 = neighbors_at ns i 0) as Hold.
  { intros i Hi. rewrite Hnb, neighbors_append by done. by rewrite decide_False by lia. }
  assert (∀ i, at_layer ns 0 i → at_layer n0 0 i) as Hat.
  { intros i (x & Hx & _). eapply same_shape_at; [exact Hs0|]. exists x. split; [by apply lookup_app_l_Some|lia]. }
  assert (∀ i, i < length ns → at_layer ns 0 i) as Hat0.
  { intros i [x Hx]%lookup_lt_is_Some. exists x. split; [done|lia]. }
  destruct (search_layer_ok metric n0 Hok0 (n_vector n) Hg c (ef_construction cfg) 0) as (res' & Hres' & Ha);
    [by apply Hat, Hat0|]. assert (res' = res) as -> by congruence.
  assert (∀ i, rtc (step n0 0) c i → i < length ns) as Hin.
  { refine (rtc_ind_r (λ i, i < length ns) c Hc _). intros i j _ (l & Hl & Hj) Hi. rewrite Hold in Hl by done.
    by eapply nbr_lt. }
  assert (∀ i, rtc (step ns 0) c i → rtc (step n0 0) c i) as Hup.
  { refine (rtc_ind_r (λ i, rtc (step n0 0) c i) c (rtc_refl _ _) _). intros i j Hi (l & Hl & Hj) Hr.
    eapply rtc_r; [exact Hr|]. exists l. split; [|done]. rewrite Hold; [done|]. by apply Hin. }
  assert (∀ i, i ∈ map snd res → i < length ns) as Hsub.
  { intros i (e & -> & He)%list_elem_of_fmap. apply Hin. by apply (la_true _ _ _ _ _ _ _ Ha). }
  assert (at_layer n0 0 (length ns)) as Hnew.
  { apply (same_shape_at (ns ++ [n])); [done|]. exists n. split; [|lia]. by rewrite lookup_app_r, Nat.sub_diag by lia. }
  destruct (connect_ok metric (cfg_m cfg) (length ns) 0 n0 res Hok0 Hnew) as (n1 & Hcon' & _ & _ & Hkeep & Hnear & Hback).
  { intros e He. by apply (la_true _ _ _ _ _ _ _ Ha). }
  { by eapply la_nodup. }
  { intros Hi%Hsub. lia. }
  assert (n1 = ns') as -> by congruence. set (nearest := map snd (take (cfg_m cfg) res)) in *.
  assert (∀ i, i ∈ nearest → i ∈ map snd res) as Hnsub.
  { intros i. unfold nearest. rewrite <- (take_drop (cfg_m cfg) res) at 2. rewrite map_app, elem_of_app. by left. }
  exists nearest. split_and!.
  - pose proof (la_ne _ _ _ _ _ _ _ Ha). unfold nearest. destruct res, (cfg_m cfg); simpl; try done; lia.
  - apply NoDup_fmap_take. by eapply la_nodup.
  - intros i Hi. by apply Hsub, Hnsub.
  - done.
  - intros i l Hi Hl. pose proof (nbr_short ns i l Hok Hd Hl) as Hshort. destruct (decide (i ∈ nearest)) as [Hin'|Hout].
    + apply Hback; [done|by rewrite Hold|lia].
    + rewrite Hkeep; [by rewrite Hold|]. left. split; [done|lia].
Qed.

(** The bottom layer after linking: the edges there were, and both
    directions between the new node and its neighbours. *)
Lemma linked_step ns ns' nearest : graph_ok metric ns → (∀ i, i ∈ nearest → i < length ns) →
  length ns' = S (length ns) → neighbors_at ns' (length ns) 0 = Some nearest →
  (∀ i l, i < length ns → neighbors_at ns i 0 = Some l →
     neighbors_at ns' i 0 = Some (if decide (i ∈ nearest) then l ++ [length ns] else l)) →
  (∀ i l, neighbors_at ns' i 0 = Some l → i = length ns ∧ l = nearest ∨
     ∃ l0, i < length ns ∧ neighbors_at ns i 0 = Some l0 ∧ l = (if decide (i ∈ nearest) then l0 ++ [length ns] else l0)) ∧
  ∀ i j, step ns' 0 i j ↔ step ns 0 i j ∨ i = length ns ∧ j ∈ nearest ∨ i ∈ nearest ∧ j = length ns.
Proof.
  intros Hok Hlt Hlen Hnew Hold.
  assert (∀ i, i < length ns → ∃ l, neighbors_at ns i 0 = Some l) as Htot.
  { intros i [x Hx]%lookup_lt_is_Some. apply (neighbors_ok metric ns Hok). exists x. split; [done|lia]. }
  assert (∀ i l, neighbors_at ns' i 0 = Some l → i = length ns ∧ l = nearest ∨
     ∃ l0, i < length ns ∧ neighbors_at ns i 0 = Some l0 ∧ l = (if decide (i ∈ nearest) then l0 ++ [length ns] else l0)) as Hcases.
  { intros i l Hl. destruct (decide (i = length ns)) as [->|Hi]; [left; split; [done|congruence]|right].
    assert (i < length ns) as Hi'.
    { unfold neighbors_at in Hl. destruct (ns' !! i) eqn:E; [|done]. apply lookup_lt_Some in E. lia. }
    destruct (Htot i Hi') as [l0 Hl0]. rewrite (Hold i l0 Hi' Hl0) in Hl. injection Hl as <-. by exists l0. }
  split; [exact Hcases|]. intros i j. split.
  - intros (l & Hl & Hj). destruct (Hcases i l Hl) as [[-> ->]|(l0 & Hi & Hl0 & ->)]; [by right; left|].
    destruct (decide (i ∈ nearest)); [|left; by exists l0].
    apply elem_of_app in Hj as [Hj| ->%list_elem_of_singleton]; [left; by exists l0|by right; right].
  - intros [(l & Hl & Hj)|[[-> Hj]|[Hi ->]]].
    + assert (i < length ns) as Hi.
      { unfold neighbors_at in Hl. destruct (ns !! i) eqn:E; [by eapply lookup_lt_Some|done]. }
      eexists; split; [by apply (Hold i l Hi Hl)|]. destruct (decide _); [apply elem_of_app; by left|done].
    + by exists nearest.
    + destruct (Htot i (Hlt i Hi)) as [l Hl]. eexists; split; [by apply (Hold i l (Hlt i Hi) Hl)|].
      rewrite decide_True by done. apply elem_of_app. right. by apply list_elem_of_singleton.
Qed.
Lemma dense_linked cfg ns ns' n : graph_ok metric ns → graph_ok metric ns' → dense ns → good (n_vector n) →
  (∀ l0 l1, n_neighbors n !! l0 = Some l1 → l1 = []) → n_neighbors n !! 0 = Some [] →
  same_shape (ns ++ [n]) ns' →
  linked metric cfg ns ns' n → length ns ≤ 2 * cfg_m cfg → length ns ≤ ef_construction cfg → 1 ≤ cfg_m cfg → dense ns'.
Proof.
  intros Hok Hok' Hd Hg Hempty H0 Hs Hlk Hm Hef H1. destruct (decide (ns = [])) as [->|Hne].
  { unfold linked in Hlk. rewrite decide_True in Hlk by done. subst ns'.
    assert (∀ i l, neighbors_at [n] i 0 = Some l → i = 0 ∧ l = []) as Hone.
    { intros [|i] l Hl; unfold neighbors_at in Hl; simpl in Hl; [|done]. split; [done|]. congruence. }
    split.
    - intros [|i] [|j]; simpl; try lia. constructor.
    - intros i j (l & [-> ->]%Hone & Hj). by apply not_elem_of_nil in Hj.
    - intros i l [-> ->]%Hone. split; [constructor|apply not_elem_of_nil]. }
  destruct (linked_small cfg ns ns' n Hok Hd Hg Hne Hempty Hlk Hm Hef H1) as (nearest & Hnn & Hnd & Hlt & Hnew & Hold).
  assert (length ns' = S (length ns)) as Hlen by (rewrite <- (same_shape_length _ _ Hs), length_app; simpl; lia).
  destruct (linked_step ns ns' nearest Hok Hlt Hlen Hnew Hold) as [Hcases Hstep].
  assert (∀ i j, i < length ns → j < length ns → rtc (step ns' 0) i j) as Hin.
  { intros i j Hi Hj. eapply (rtc_subrel (step ns 0)); [|by apply de_reach]. intros a b Hab. apply Hstep. by left. }
  destruct nearest as [|e0 nearest]; [done|]. assert (e0 < length ns) as He0 by (apply Hlt; left).
  assert (step ns' 0 (length ns) e0 ∧ step ns' 0 e0 (length ns)) as [Hto Hfrom].
  { split; apply Hstep; right; [left|right]; split; try done; left. }
  split.
  - rewrite Hlen. intros i j Hi Hj. destruct (decide (i = length ns)) as [->|], (decide (j = length ns)) as [->|].
    + constructor.
    + eapply rtc_l; [exact Hto|]. apply Hin; lia.
    + eapply rtc_r; [|exact Hfrom]. apply Hin; lia.
    + apply Hin; lia.
  - intros i j. rewrite !Hstep. intros [?|[[-> ?]|[? ->]]]; [left; by apply de_sym|by right; right|by right; left].
  - intros i l Hl. destruct (Hcases i l Hl) as [[-> ->]|(l0 & Hi & Hl0 & ->)].
    { split; [done|]. intros Hbad%Hlt. lia. }
    destruct (de_list ns Hd i l0 Hl0) as [Hnd0 Hi0]. destruct (decide _); [|done].
    split; [apply NoDup_app; split_and!; [done| |apply NoDup_singleton]|].
    + intros x Hx ->%list_elem_of_singleton. pose proof (nbr_lt ns i l0 _ Hok Hl0 Hx). lia.
    + rewrite not_elem_of_app, list_elem_of_singleton. split; [done|lia].
Qed.

(** Operations on a small index. *)
Definition small (self : HnswIndex) (m : gmap string (list f32)) : Prop := rep self m ∧ dense (nodes self).
Lemma dense_same ns ns' : length ns = length ns' → (∀ i l, neighbors_at ns' i l = neighbors_at ns i l) → dense ns → dense ns'.
Proof.
  intros Hl Hn Hd. assert (∀ i j, step ns' 0 i j ↔ step ns 0 i j) as Hs by (intros i j; unfold step; by setoid_rewrite Hn).
  split.
  - rewrite <- Hl. intros i j Hi Hj. eapply (rtc_subrel (step ns 0)); [|by apply de_reach]. intros a b. apply Hs.
  - intros i j. rewrite !Hs. by apply de_sym.
  - intros i l. rewrite Hn. by apply de_list.
Qed.
Definition is_upsert (op : VectorOp) : bool := match op with VUpsert _ _ _ => true | VRemove _ => false end.
Definition upserts (ops : list VectorOp) : nat := length (List.filter is_upsert ops).

Lemma small_op cfg op self m : small self m → config self = cfg → op_good metric op →
  length (nodes self) ≤ 2 * cfg_m cfg → length (nodes self) ≤ ef_construction cfg → 1 ≤ cfg_m cfg →
  ∃ self', run_vop op self = Some self' ∧ small self' (abs_vop op m) ∧ config self' = cfg ∧
    length (nodes self') = length (nodes self) + if is_upsert op then 1 else 0.
Proof.
  intros [Hr Hd] Hcfg Hg Hm Hef H1.
  assert (∀ id, ∃ s, remove id self = Some (bool_decide (is_Some (m !! id)), s) ∧ small s (delete id m) ∧
    config s = cfg ∧ length (nodes s) = length (nodes self)) as Hrem.
  { intros id. destruct (hnsw_remove metric self m id Hr) as (s & Hs & Hrs & Hc & Hl & Hn). exists s.
    split_and!; [done|split; [done|by eapply dense_same]|congruence|done]. }
  destruct op as [drawn id v|id]; simpl; destruct (Hrem id) as (s & Hs & [Hrs Hds] & Hcs & Hls); cycle 1.
  { change (Vector.remove id self) with (remove id self). rewrite Hs. simpl. exists s. split_and!; try done. lia. }
  unfold upsert. change (Vector.remove id self) with (remove id self). rewrite Hs. cbn [mbind option_bind].
  change (Vector.insert drawn id v s) with (insert drawn id v s).
  destruct (hnsw_insert metric s (delete id m) drawn id v Hrs) as (s' & level & Hi & Hr' & Hc' & Hsh & Hlk);
    [apply lookup_delete_eq|done|]. rewrite insert_delete_eq in Hr'. rewrite Hi. exists s'. split_and!; [done| |congruence|].
  - split; [done|]. rewrite Hcs in Hlk.
    eapply (dense_linked cfg (nodes s) (nodes s') (fresh_node id v level)); [by apply Hrs|by apply Hr'|exact Hds|exact Hg|apply fresh_empty| |exact Hsh|exact Hlk|lia..].
    simpl. by rewrite lookup_replicate_2 by lia.
  - rewrite <- (same_shape_length _ _ Hsh), length_app. simpl. lia.
Qed.
Lemma small_ops cfg ops : 1 ≤ cfg_m cfg → ∀ self m, small self m → config self = cfg → Forall (op_good metric) ops →
  length (nodes self) + upserts ops ≤ 2 * cfg_m cfg + 1 → length (nodes self) + upserts ops ≤ ef_construction cfg →
  ∃ self', run_vops ops self = Some self' ∧ small self' (abs_vops ops m) ∧ config self' = cfg ∧
    length (nodes self') = length (nodes self) + upserts ops.
Proof.
  intros H1. induction ops as [|op ops IH]; intros self m Hs Hc Hg Hm Hef; cbn [run_vops].
  { by exists self; split_and!. }
  apply Forall_cons in Hg as [Hop Hg]. unfold upserts in *. simpl List.filter in *.
  destruct (is_upsert op) eqn:Eu; simpl length in *.
  - destruct (small_op cfg op self m Hs Hc Hop) as (s1 & -> & Hs1 & Hc1 & Hl1); [lia..|]. rewrite Eu in Hl1. simpl.
    destruct (IH s1 _ Hs1 Hc1 Hg) as (s2 & -> & Hs2 & Hc2 & Hl2); [lia..|]. exists s2. split_and!; try done. lia.
  - destruct op as [|id]; [done|]. destruct Hs as [Hr Hd].
    destruct (hnsw_remove metric self m id Hr) as (s1 & Hs1 & Hr1 & Hc1 & Hl1 & Hn1).
    simpl. change (Vector.remove id self) with (remove id self). rewrite Hs1. simpl.
    destruct (IH s1 (delete id m)) as (s2 & -> & Hs2 & Hc2 & Hl2);
      [split; [done|by eapply dense_same]|congruence|done|lia|lia|]. exists s2. split_and!; try done. lia.
Qed.

Lemma small_search self m query k : small self m → good query → length (nodes self) ≤ ef_construction (config self) →
  ∃ hits, search self query k = Some hits ∧ k_nearest metric m query k hits.
Proof.
  intros [Hr Hd] Hq Hef. destruct (entry_point self) as [ep|] eqn:Hep.
  - destruct (search_entries metric self m query k ep Hr Hq Hep) as (c & es & Hc & Ha & ->). eexists; split; [done|].
    destruct (hits_sound metric self m query c _ es Hr Ha) as (H1 & H2 & H3). apply take_nearest; try done.
    intros id [v Hv]. apply (hr_map _ self m Hr) in Hv as (i & n & Hn & _).
    assert (i < length (nodes self)) as Hi by (destruct Hn as (Hn & _); by eapply lookup_lt_Some).
    assert (i ∈ map snd es) as (e & -> & He)%list_elem_of_fmap.
    { eapply (layer_answer_all metric (nodes self) (hr_graph _ self m Hr) query Hq c _ 0 es (set_seq 0 (length (nodes self)))).
      - exact Ha.
      - intros j Hj. apply elem_of_set_seq. apply at_layer_lt in Hc. split; [lia|]. simpl.
        revert j Hj. refine (rtc_ind_r (λ j, j < length (nodes self)) c Hc _). intros a b _ (l & Hl & Hb) _.
        eapply nbr_lt; [by apply Hr|exact Hl|exact Hb].
      - rewrite size_set_seq. lia.
      - apply de_reach; [done|by apply at_layer_lt in Hc|done]. }
    destruct (hit_of (nodes self) e) as [h|] eqn:Eh.
    + assert (hit_id h = id) as <-.
      { apply hit_of_node in Eh as (x & (Hx & _ & Hid) & _). destruct Hn as (Hn & _ & <-). congruence. }
      apply list_elem_of_fmap_2, list_elem_of_omap. eauto.
    + unfold hit_of in Eh. destruct Hn as (Hn & Hdel & _). rewrite Hn in Eh. simpl in Eh. by rewrite Hdel in Eh.
  - exists []. pose proof (hr_entry _ self m Hr) as He. rewrite Hep in He.
    assert (m = ∅) as ->.
    { apply map_eq. intros id. rewrite lookup_empty. destruct (m !! id) as [v|] eqn:E; [|done].
      apply (hr_map _ self m Hr) in E as (i & n & (Hn & _) & _). by rewrite He in Hn. }
    unfold search, search_ef. rewrite Hep. split; [done|]. split_and!; [repeat split; try constructor; simpl; lia|
      by rewrite map_size_empty, Nat.min_0_r|]. intros id v d h _ _ _ Hh. by apply not_elem_of_nil in Hh.
Qed.
End exact.

(** ** Theorems *)
(** C12.  The HNSW index refines a map of records to vectors: started empty,
    any sequence of replacements and removals of vectors with comparable
    distances runs without a panic and without running out of fuel, whatever
    levels are drawn; the size of the index is that of the map, and a search
    terminates with at most [k] hits that are stored records with their exact
    distances, each record once, nearest first. *)
Theorem hnsw_refines (metric : DistanceMetric.t) `{!Comparable metric} (dim : nat) (cfg : HnswConfig)
    (ops : list VectorOp) :
  max_layers cfg ≠ 0 → Forall (op_good metric) ops →
  ∃ self, run_vops ops (new dim metric cfg) = Some self ∧ len self = size (abs_vops ops ∅) ∧
    ∀ query k, good query →
      ∃ hits, search self query k = Some hits ∧ sound_hits metric (abs_vops ops ∅) query k hits.
Proof.
  intros Hl Hg.
  destruct (run_vops_represents (VectorIndexLaws0 := hnsw_laws metric) metric ops _ _ (hnsw_new metric dim cfg Hl) Hg) as (i & Hi & Hr).
  exists i. split_and!; [done|by eapply hnsw_len|]. intros query k Hq. exact (hnsw_search metric i _ query k Hr Hq).
Qed.

(** C13.  A small HNSW index is exact: if no more vectors were ever inserted
    than a neighbour list can hold beside its own node ([2m + 1]) and than the
    beam is wide, a search returns the true [k] nearest stored vectors, as
    the linear scan does - removed nodes and replaced vectors included, and
    whatever levels were drawn. *)
Theorem hnsw_exact (metric : DistanceMetric.t) `{!Comparable metric} (dim : nat) (cfg : HnswConfig)
    (ops : list VectorOp) (query : list f32) (k : nat) :
  max_layers cfg ≠ 0 → 1 ≤ cfg_m cfg → Forall (op_good metric) ops → good query →
  upserts ops ≤ 2 * cfg_m cfg + 1 → upserts ops ≤ ef_construction cfg →
  ∃ self hits, run_vops ops (new dim metric cfg) = Some self ∧ search self query k = Some hits ∧
    k_nearest metric (abs_vops ops ∅) query k hits.
Proof.
  intros Hl Hm Hg Hq H1 H2.
  destruct (small_ops metric cfg ops Hm (new dim metric cfg) ∅) as (self & Hrun & Hs & Hc & Hn); [|done..|].
  { split; [by apply hnsw_new|]. split; [intros i j Hi; simpl in Hi; lia|by intros i j (l & Hl' & _)|done]. }
  destruct (small_search metric self _ query k Hs Hq) as (hits & Hh & Hk); [rewrite Hc, Hn; simpl; lia|].
  by exists self, hits.
Qed.

(** C15.  Beam search ends in a local optimum: on a well-formed graph it
    terminates without a panic, and a node of the layer that is a neighbour of
    a returned node but is not returned itself is no nearer to the query than
    any returned node - and then the beam is full.  Returned nodes can be
    reached from the start, occur once and are sorted by distance. *)
Theorem beam_local_optimum (metric : DistanceMetric.t) `{!Comparable metric} (nodes : list HnswNode)
    (query : list f32) (start ef layer : nat) :
  graph_ok metric nodes → good query → at_layer nodes layer start →
  ∃ res, search_layer metric nodes query start ef layer = Some res ∧
    (∀ e, e ∈ res → dist metric nodes query e.2 = Some e.1 ∧ rtc (step nodes layer) start e.2) ∧
    NoDup (map snd res) ∧ StronglySorted (λ a b, (rank a ≤ rank b)%Z) res ∧ 0 < length res ≤ max 1 ef ∧
    ∀ i j d, i ∈ map snd res → step nodes layer i j → dist metric nodes query j = Some d → j ∉ map snd res →
      ef ≤ length res ∧ ∀ e, e ∈ res → (rank e ≤ f32_rank d)%Z.
Proof.
  intros Hok Hq Hs. destruct (search_layer_ok metric nodes Hok query Hq start ef layer Hs) as (res & Hres & Ha).
  exists res. split_and!; [done| |by eapply la_nodup|by eapply la_sorted| |by eapply la_len|].
  - intros e He. destruct (la_true _ _ _ _ _ _ _ Ha e He) as (_ & ? & ?). done.
  - pose proof (la_ne _ _ _ _ _ _ _ Ha). destruct res; [done|simpl; lia].
  - intros i j d Hi Hij Hd Hj. by eapply (la_local _ _ _ _ _ _ _ Ha i j d).
Qed.

(** ** A concrete family of vectors *)
Definition all_comparable (metric : DistanceMetric.t) (vs : list (list f32)) : bool :=
  forallb (λ a, forallb (λ b, match distance a b metric with Some d => negb (is_nan32 d) | None => false end) vs) vs.
Definition comparable_of (metric : DistanceMetric.t) (vs : list (list f32)) (H : all_comparable metric vs = true) :
  Comparable metric.
Proof.
  refine {| good v := v ∈ vs |}. intros a b Ha Hb. unfold all_comparable in H. rewrite forallb_forall in H.
  specialize (H a (proj1 (list_elem_of_In _ _) Ha)). rewrite forallb_forall in H.
  specialize (H b (proj1 (list_elem_of_In _ _) Hb)). destruct (distance a b metric) as [d|]; [|done].
  exists d. split; [done|]. by apply negb_true_iff.
Defined.

Definition points : list (list f32) :=
  map (map f32_of_i64) [[0; 0]; [5; 5]; [1; 2]; [9; 9]; [4; 4]]%Z.
Definition some_points : Comparable DistanceMetric.Euclidean := comparable_of DistanceMetric.Euclidean points eq_refl.
#[local] Existing Instance some_points.
Definition point (i : nat) : list f32 := nth i points [].
Definition point_ops : list VectorOp :=
  [VUpsert 0 "a" (point 0); VUpsert 3 "b" (point 1); VUpsert 1 "c" (point 2); VUpsert 0 "b" (point 3);
   VRemove "a"; VUpsert 2 "d" (point 1)]%string.
Lemma point_ops_good : Forall (op_good DistanceMetric.Euclidean) point_ops.
Proof. repeat constructor; simpl; compute_decide. Qed.

Lemma hnsw_refines_witness :
  ∃ self, run_vops point_ops (new 2 DistanceMetric.Euclidean HnswConfig_default) = Some self ∧ len self = 3.
Proof.
  destruct (hnsw_refines DistanceMetric.Euclidean 2 HnswConfig_default point_ops ltac:(done) point_ops_good)
    as (self & Hrun & Hlen & _).
  exists self. split; [exact Hrun|]. rewrite Hlen. vm_compute. reflexivity.
Defined.
Lemma hnsw_exact_witness :
  ∃ self hits, run_vops point_ops (new 2 DistanceMetric.Euclidean HnswConfig_default) = Some self ∧
    search self (point 4) 2 = Some hits ∧
    k_nearest DistanceMetric.Euclidean (abs_vops point_ops ∅) (point 4) 2 hits.
Proof.
  apply (hnsw_exact DistanceMetric.Euclidean 2 HnswConfig_default point_ops (point 4) 2);
    [done|simpl; lia|exact point_ops_good|simpl; compute_decide|vm_compute; lia|vm_compute; lia].
Defined.
Definition one_node : list HnswNode := [fresh_node "a" (point 0) 0].
Lemma beam_local_optimum_witness :
  ∃ res, search_layer DistanceMetric.Euclidean one_node (point 4) 0 1 0 = Some res ∧ length res = 1.
Proof.
  destruct (beam_local_optimum DistanceMetric.Euclidean one_node (point 4) 0 1 0) as (res & Hres & _ & _ & _ & Hlen & _).
  - split.
    + intros [|i] n; [|done]. intros [= <-]. reflexivity.
    + intros [|i] [|l] ns j; try done. intros [= <-] Hj. by apply not_elem_of_nil in Hj.
    + intros [|i] n; [|done]. intros [= <-]. simpl. compute_decide.
  - simpl. compute_decide.
  - exists (fresh_node "a" (point 0) 0). split; [reflexivity|lia].
  - exists res. split; [exact Hres|]. simpl in Hlen. lia.
Defined.

(** Inserting a stored record without removing it first leaves both nodes
    live, and a search answers with the record twice. *)
Example insert_twice :
  let run := insert 0 "a"%string (point 0) (new 2 DistanceMetric.Euclidean HnswConfig_default) ≫= insert 0 "a"%string (point 1) in
  option_map len run = Some 2 ∧ option_map (map hit_id) (run ≫= λ i, search i (point 4) 5) = Some ["a"; "a"]%string.
Proof. split; vm_compute; reflexivity. Qed.
