(* ===== verification/HnswSnapshot.v ===== *)
(** * Snapshots of the HNSW index (crates/vector/src/hnsw.rs)

    The binary format of [serialize] and [deserialize]: a header, then the
    nodes, numbers little-endian.  Reading is a computation over the unread
    bytes; an error carries what its message tells. *)

From stdpp Require Import gmap.
From S2P Require Import Bytes.
From S2P Require Export Hnsw HnswTheorems.

Open Scope nat_scope.

(** ** Little-endian numbers *)
Fixpoint le_bytes (w : nat) (n : Z) : bytes :=
  match w with 0 => [] | S w => z2b n :: le_bytes w (n / 256) end.
Fixpoint of_le_bytes (bs : bytes) : Z :=
  match bs with [] => 0 | b :: bs' => b2z b + 256 * of_le_bytes bs' end.
(** [(n as u32).to_le_bytes()], [i64::to_le_bytes], [f32::to_le_bytes]. *)
Definition u32_bytes (n : nat) : bytes := le_bytes 4 (Z.of_nat n `mod` 2 ^ 32).
Definition i64_bytes (n : Z) : bytes := le_bytes 8 n.
Definition f32_bytes (v : f32) : bytes := le_bytes 4 (to_bits32 v).

(** ** Writing *)
Definition MAGIC : bytes := as_bytes "HNSW".
Definition VERSION : byte := x01.
Definition metric_byte (metric : DistanceMetric.t) : byte :=
  match metric with
  | DistanceMetric.Cosine => x00 | DistanceMetric.Euclidean => x01 | DistanceMetric.DotProduct => x02
  end.
Definition layer_bytes (layer_neighbors : list nat) : bytes :=
  u32_bytes (length layer_neighbors) ++ flat_map u32_bytes layer_neighbors.
Definition node_bytes (node : HnswNode) : bytes :=
  let id_bytes := as_bytes (n_id node) in
  u32_bytes (length id_bytes) ++ id_bytes ++ [if n_deleted node then x01 else x00] ++ u32_bytes (n_level node) ++
  flat_map f32_bytes (n_vector node) ++ u32_bytes (length (n_neighbors node)) ++ flat_map layer_bytes (n_neighbors node).
Definition ep_raw (entry_point : option nat) : Z :=
  match entry_point with Some idx => as_i64 (Z.of_nat idx) | None => -1 end.
Definition serialize (self : HnswIndex) : bytes :=
  MAGIC ++ [VERSION] ++
  u32_bytes (cfg_m (config self)) ++ u32_bytes (ef_construction (config self)) ++ u32_bytes (max_layers (config self)) ++
  [metric_byte (metric self)] ++ u32_bytes (dim self) ++ i64_bytes (ep_raw (entry_point self)) ++
  u32_bytes (max_level self) ++ u32_bytes (length (nodes self)) ++ flat_map node_bytes (nodes self).

(** ** Its size *)
Definition layer_size (layer_neighbors : list nat) : nat := 4 + length layer_neighbors * 4.
Definition node_size (node : HnswNode) : nat :=
  (4 + length (as_bytes (n_id node))) + 5 + length (n_vector node) * 4 + 4 + sum_list_with layer_size (n_neighbors node).
Definition snapshot_size (self : HnswIndex) : nat := 5 + 12 + 21 + sum_list_with node_size (nodes self).

(** ** Reading *)
Inductive SnapshotError :=
  | UnexpectedEnd
  | UnexpectedEndOfId
  | InvalidMagic (got : bytes)
  | UnsupportedVersion (got : byte)
  | UnknownMetric (got : byte)
  | InvalidUtf8.
Abbreviation Reader := (SE bytes SnapshotError).

Definition read_exact (err : SnapshotError) (n : nat) : Reader bytes := λ cursor,
  if length cursor <? n then (Err err, []) else (Ok (take n cursor), drop n cursor).
Definition read_bytes (n : nat) : Reader bytes := read_exact UnexpectedEnd n.
Definition read_u8 : Reader byte := b ← read_bytes 1; mret (hd x00 b).
(** [u32::from_le_bytes(..) as usize], [i64::from_le_bytes], [f32::from_le_bytes]. *)
Definition read_u32 : Reader nat := b ← read_bytes 4; mret (Z.to_nat (of_le_bytes b)).
Definition read_i64 : Reader Z := b ← read_bytes 8; mret (as_i64 (of_le_bytes b)).
Definition read_f32 : Reader f32 := b ← read_bytes 4; mret (F32 (of_le_bytes b)).
(** [for _ in 0..n { out.push(read) }] *)
Fixpoint read_many {A} (read : Reader A) (n : nat) : Reader (list A) :=
  match n with 0 => mret [] | S n => x ← read; xs ← read_many read n; mret (x :: xs) end.

Definition read_metric : Reader DistanceMetric.t :=
  b ← read_u8;
  match b with
  | x00 => mret DistanceMetric.Cosine
  | x01 => mret DistanceMetric.Euclidean
  | x02 => mret DistanceMetric.DotProduct
  | other => throw (UnknownMetric other)
  end.
Definition read_layer : Reader (list nat) := n ← read_u32; read_many read_u32 n.
Definition read_node (dim : nat) : Reader HnswNode :=
  id_len ← read_u32;
  id_buf ← read_exact UnexpectedEndOfId id_len;
  id ← lift (ok_or (from_utf8 id_buf) InvalidUtf8);
  deleted ← read_u8;
  level ← read_u32;
  vector ← read_many read_f32 dim;
  num_layers ← read_u32;
  neighbors ← read_many read_layer num_layers;
  mret (MkHnswNode id vector level neighbors (negb (bool_decide (deleted = x00)))).

(** Every live node under its record, the last one of a record winning. *)
Definition add_live (lookup : gmap string nat) (e : nat * HnswNode) : gmap string nat :=
  if n_deleted e.2 then lookup else <[n_id e.2 := e.1]> lookup.
Definition rebuilt_lookup (nodes : list HnswNode) : gmap string nat := fold_left add_live (imap pair nodes) ∅.

Definition read_index : Reader HnswIndex :=
  magic ← read_bytes 4;
  if negb (bool_decide (magic = MAGIC)) then throw (InvalidMagic magic) else
  version ← read_u8;
  if negb (bool_decide (version = VERSION)) then throw (UnsupportedVersion version) else
  m ← read_u32;
  ef_construction ← read_u32;
  max_layers ← read_u32;
  metric ← read_metric;
  dim ← read_u32;
  ep_raw ← read_i64;
  let entry_point := if (ep_raw <? 0)%Z then None else Some (Z.to_nat ep_raw) in
  max_level ← read_u32;
  node_count ← read_u32;
  nodes ← read_many (read_node dim) node_count;
  mret (MkHnsw (MkHnswConfig m ef_construction max_layers) metric dim nodes (rebuilt_lookup nodes) entry_point max_level).
Definition deserialize (data : bytes) : Result SnapshotError HnswIndex := fst (read_index data).

Example snapshot_ex :
  let i := foldr (λ e i, i ≫= Hnsw.insert e.1.1 e.1.2 (map f32_of_i64 e.2)) (Some (new 2 DistanceMetric.Euclidean HnswConfig_default))
             [(0, "c"%string, [5; 5]%Z); (1, "b"%string, [1; 2]%Z); (0, "a"%string, [0; 0]%Z)] in
  option_map (λ i, deserialize (serialize i)) i = option_map Ok i ∧
  option_map (λ i, length (serialize i)) i = option_map snapshot_size i ∧
  deserialize (as_bytes "XYZW") = Err (InvalidMagic (as_bytes "XYZW")) ∧ deserialize (as_bytes "HNS") = Err UnexpectedEnd.
Proof. split_and!; vm_compute; reflexivity. Qed.

(** * Snapshots can be read back

    Readers that invert a writer compose; a snapshot of an index whose
    numbers fit their fields is read back, and no proper prefix of it is
    accepted. *)

Open Scope nat_scope.

(** ** Little-endian numbers *)
Lemma le_bytes_length w n : length (le_bytes w n) = w.
Proof. revert n. induction w as [|w IH]; intros n; simpl; [done|]. by rewrite IH. Qed.
Lemma of_le_bytes_le w n : of_le_bytes (le_bytes w n) = (n `mod` 2 ^ (8 * Z.of_nat w))%Z.
Proof.
  revert n. induction w as [|w IH]; intros n; cbn [le_bytes of_le_bytes]; [by rewrite Z.mod_1_r|].
  rewrite IH, b2z_z2b. replace (8 * Z.of_nat (S w))%Z with (8 + 8 * Z.of_nat w)%Z by lia.
  rewrite Z.pow_add_r by lia. change (2 ^ 8)%Z with 256%Z. rewrite Z.rem_mul_r by lia. lia.
Qed.

(** ** Readers that invert writers

    [parses r l x]: reading [l] and anything behind it gives [x] and leaves
    the rest; a proper prefix of [l] is refused. *)
Definition parses {A} (r : Reader A) (l : bytes) (x : A) : Prop :=
  (∀ rest, r (l ++ rest) = (Ok x, rest)) ∧
  ∀ p q, l = p ++ q → q ≠ [] → ∃ e rest, r p = (Err e, rest).

Lemma parses_ret {A} (x : A) : parses (mret x) [] x.
Proof. split; [done|]. by intros [] []. Qed.
Lemma parses_bind {A B} (r : Reader A) (f : A → Reader B) l1 l2 x y :
  parses r l1 x → parses (f x) l2 y → parses (r ≫= f) (l1 ++ l2) y.
Proof.
  intros [H1 E1] [H2 E2]. split.
  - intros rest. rewrite <- app_assoc, (SE_bind_ok r f _ x (l2 ++ rest)) by apply H1. apply H2.
  - intros p q Hpq Hq. apply app_eq_app in Hpq as (l & [(-> & ->)|(-> & ->)]).
    + destruct l as [|b l].
      * destruct (E2 [] l2 eq_refl Hq) as (e & rest & He). exists e, rest. rewrite <- He.
        apply SE_bind_ok. specialize (H1 []). by rewrite !app_nil_r in H1.
      * destruct (E1 p (b :: l) eq_refl) as (e & rest & He); [done|]. exists e, rest. by apply SE_bind_err.
    + destruct (E2 l q eq_refl Hq) as (e & rest & He). exists e, rest.
      by rewrite (SE_bind_ok r f _ x l) by apply H1.
Qed.
(** The last step of a reader consumes nothing. *)
Lemma parses_map {A B} (r : Reader A) (f : A → Reader B) l x y :
  parses r l x → parses (f x) [] y → parses (r ≫= f) l y.
Proof. intros H1 H2. rewrite <- (app_nil_r l). by eapply parses_bind. Qed.
Lemma parses_exact err l : parses (read_exact err (length l)) l l.
Proof.
  split.
  - intros rest. unfold read_exact. rewrite length_app. destruct (Nat.ltb_spec (length l + length rest) (length l)); [lia|].
    by rewrite take_app_length, drop_app_length.
  - intros p q -> Hq. exists err, []. unfold read_exact. rewrite length_app. destruct q; [done|]. simpl.
    destruct (Nat.ltb_spec (length p) (length p + S (length q))); [done|lia].
Qed.
Lemma parses_bytes n l : length l = n → parses (read_bytes n) l l.
Proof. intros <-. apply parses_exact. Qed.
Lemma parses_lift {A} (r : Result SnapshotError A) x : r = Ok x → parses (lift r) [] x.
Proof. intros ->. split; [done|]. by intros [] []. Qed.

Definition is_u32 (n : nat) : Prop := (Z.of_nat n < 2 ^ 32)%Z.
#[export] Instance is_u32_dec n : Decision (is_u32 n).
Proof. unfold is_u32. apply _. Defined.
Definition f32_wf (v : f32) : Prop := (0 ≤ to_bits32 v < 2 ^ 32)%Z.
#[export] Instance f32_wf_dec v : Decision (f32_wf v).
Proof. unfold f32_wf. apply _. Defined.

Lemma parses_u8 b : parses read_u8 [b] b.
Proof. eapply parses_map; [by apply parses_bytes|apply parses_ret]. Qed.
Lemma parses_u32 n : is_u32 n → parses read_u32 (u32_bytes n) n.
Proof.
  intros Hn. unfold is_u32 in Hn. eapply parses_map; [apply parses_bytes, le_bytes_length|].
  unfold u32_bytes. rewrite of_le_bytes_le. change (8 * Z.of_nat 4)%Z with 32%Z.
  rewrite Z.mod_mod, Z.mod_small, Nat2Z.id by lia. apply parses_ret.
Qed.
Lemma as_i64_range n : i64_range n → as_i64 n = n.
Proof. unfold i64_range, as_i64. intros Hn. rewrite Z.mod_small; lia. Qed.
Lemma parses_i64 n : i64_range n → parses read_i64 (i64_bytes n) n.
Proof.
  intros Hn. unfold i64_range in Hn. eapply parses_map; [apply parses_bytes, le_bytes_length|].
  unfold i64_bytes. rewrite of_le_bytes_le. change (8 * Z.of_nat 8)%Z with 64%Z.
  assert (as_i64 (n `mod` 2 ^ 64) = as_i64 n) as ->; [unfold as_i64; by rewrite Z.add_mod_idemp_l by lia|].
  rewrite as_i64_range by done. apply parses_ret.
Qed.
Lemma parses_f32 v : f32_wf v → parses read_f32 (f32_bytes v) v.
Proof.
  intros Hv. destruct v as [n]. unfold f32_wf in Hv. simpl in Hv. eapply parses_map; [apply parses_bytes, le_bytes_length|].
  unfold f32_bytes. rewrite of_le_bytes_le. change (8 * Z.of_nat 4)%Z with 32%Z. simpl to_bits32.
  rewrite Z.mod_small by lia. apply parses_ret.
Qed.
Lemma parses_many {A} (r : Reader A) (enc : A → bytes) xs :
  (∀ x, x ∈ xs → parses r (enc x) x) → parses (read_many r (length xs)) (flat_map enc xs) xs.
Proof.
  induction xs as [|x xs IH]; intros Hr; cbn [read_many length flat_map]; [apply parses_ret|].
  eapply parses_bind; [apply Hr; left|]. eapply parses_map; [|apply parses_ret]. apply IH. intros y Hy. apply Hr. by right.
Qed.
Lemma parses_metric metric : parses read_metric [metric_byte metric] metric.
Proof. eapply parses_map; [apply parses_u8|]. destruct metric; apply parses_ret. Qed.

(** ** The numbers of an index that fit their fields *)
Definition layer_fits (ns : list nat) : Prop := is_u32 (length ns) ∧ Forall is_u32 ns.
Definition node_fits (dim : nat) (n : HnswNode) : Prop :=
  utf8_valid (as_bytes (n_id n)) = true ∧ is_u32 (length (as_bytes (n_id n))) ∧ is_u32 (n_level n) ∧
  length (n_vector n) = dim ∧ Forall f32_wf (n_vector n) ∧
  is_u32 (length (n_neighbors n)) ∧ Forall layer_fits (n_neighbors n).
Definition fits (self : HnswIndex) : Prop :=
  is_u32 (cfg_m (config self)) ∧ is_u32 (ef_construction (config self)) ∧ is_u32 (max_layers (config self)) ∧
  is_u32 (dim self) ∧ is_u32 (max_level self) ∧ is_u32 (length (nodes self)) ∧
  i64_range (from_option Z.of_nat (-1)%Z (entry_point self)) ∧
  Forall (node_fits (dim self)) (nodes self).
#[export] Instance layer_fits_dec ns : Decision (layer_fits ns).
Proof. unfold layer_fits. apply _. Defined.
#[export] Instance node_fits_dec dim n : Decision (node_fits dim n).
Proof. unfold node_fits. apply _. Defined.
#[export] Instance fits_dec self : Decision (fits self).
Proof. unfold fits, i64_range. apply _. Defined.

Lemma parses_layer ns : layer_fits ns → parses read_layer (layer_bytes ns) ns.
Proof.
  intros [Hl Hns]. eapply parses_bind; [by apply parses_u32|]. apply parses_many. intros n Hn.
  rewrite Forall_forall in Hns. by apply parses_u32, Hns.
Qed.
Lemma parses_node dim n : node_fits dim n → parses (read_node dim) (node_bytes n) n.
Proof.
  intros (Hid & Hil & Hlv & <- & Hv & Hnl & Hns). unfold read_node, node_bytes. rewrite Forall_forall in Hv. rewrite Forall_forall in Hns.
  eapply parses_bind; [by apply parses_u32|]. eapply parses_bind; [apply parses_exact|].
  rewrite <- (app_nil_l ([_] ++ _)). eapply parses_bind; [apply parses_lift; by rewrite from_utf8_as_bytes|].
  eapply parses_bind; [apply parses_u8|]. eapply parses_bind; [by apply parses_u32|].
  eapply parses_bind; [apply parses_many; intros; by apply parses_f32, Hv|].
  eapply parses_bind; [by apply parses_u32|].
  eapply parses_map; [apply parses_many; intros; by apply parses_layer, Hns|].
  destruct n as [id v l ns []]; apply parses_ret.
Qed.

(** The index with its lookup rebuilt from its nodes. *)
Definition relookup (self : HnswIndex) : HnswIndex :=
  MkHnsw (config self) (metric self) (dim self) (nodes self) (rebuilt_lookup (nodes self)) (entry_point self) (max_level self).
Lemma ep_raw_fits ep : i64_range (from_option Z.of_nat (-1)%Z ep) → ep_raw ep = from_option Z.of_nat (-1)%Z ep.
Proof. destruct ep; [apply as_i64_range|done]. Qed.
Lemma parses_index self : fits self → parses read_index (serialize self) (relookup self).
Proof.
  intros (Hm & Hef & Hml & Hd & Hmax & Hn & Hep & Hns). pose proof (ep_raw_fits _ Hep) as Hraw.
  rewrite <- Hraw in Hep. rewrite Forall_forall in Hns.
  unfold read_index, serialize.
  eapply parses_bind; [by apply parses_bytes|]. rewrite bool_decide_eq_true_2 by done. cbn [negb].
  eapply parses_bind; [apply parses_u8|]. rewrite bool_decide_eq_true_2 by done. cbn [negb].
  do 3 (eapply parses_bind; [by apply parses_u32|]). eapply parses_bind; [apply parses_metric|].
  eapply parses_bind; [by apply parses_u32|]. eapply parses_bind; [by apply parses_i64|].
  do 2 (eapply parses_bind; [by apply parses_u32|]).
  eapply parses_map; [apply parses_many; intros; by apply parses_node, Hns|].
  rewrite Hraw. unfold relookup. destruct self as [[m ef ml] metric dim ns lk [ep|] lv]; simpl; [|apply parses_ret].
  destruct (Z.ltb_spec (Z.of_nat ep) 0); [lia|]. rewrite Nat2Z.id. apply parses_ret.
Qed.

(** ** Sizes *)
Lemma flat_map_length {A} (enc : A → bytes) (size : A → nat) xs :
  (∀ x, length (enc x) = size x) → length (flat_map enc xs) = sum_list_with size xs.
Proof. intros H. induction xs as [|x xs IH]; simpl; [done|]. by rewrite length_app, IH, H. Qed.
Lemma sum_const {A} (c : nat) (xs : list A) : sum_list_with (λ _, c) xs = length xs * c.
Proof. induction xs as [|x xs IH]; simpl; [done|]. by rewrite IH. Qed.
Lemma u32_bytes_length n : length (u32_bytes n) = 4.
Proof. apply le_bytes_length. Qed.
Lemma layer_bytes_length ns : length (layer_bytes ns) = layer_size ns.
Proof.
  unfold layer_bytes, layer_size. by rewrite length_app, u32_bytes_length, (flat_map_length _ (λ _, 4)), sum_const by apply u32_bytes_length.
Qed.
Lemma node_bytes_length n : length (node_bytes n) = node_size n.
Proof.
  unfold node_bytes, node_size. rewrite !length_app, !u32_bytes_length, (flat_map_length _ (λ _, 4)), sum_const by (intros; apply le_bytes_length).
  rewrite (flat_map_length _ layer_size) by apply layer_bytes_length. simpl. lia.
Qed.
Lemma serialize_length self : length (serialize self) = snapshot_size self.
Proof.
  unfold serialize, snapshot_size, i64_bytes. rewrite !length_app, !u32_bytes_length, le_bytes_length.
  rewrite (flat_map_length _ node_size) by apply node_bytes_length. simpl. lia.
Qed.

(** ** The rebuilt lookup *)
Lemma rebuilt_snoc ns n : rebuilt_lookup (ns ++ [n]) = add_live (rebuilt_lookup ns) (length ns, n).
Proof. unfold rebuilt_lookup. rewrite imap_app, fold_left_app. simpl. by rewrite Nat.add_0_r. Qed.
Lemma rebuilt_sound ns id i : rebuilt_lookup ns !! id = Some i → ∃ n, node_of ns id i n.
Proof.
  induction ns as [|n ns IH] using rev_ind; [done|]. rewrite rebuilt_snoc. unfold add_live. simpl.
  assert (rebuilt_lookup ns !! id = Some i → ∃ x, node_of (ns ++ [n]) id i x) as Hold.
  { intros (x & Hx & Hd & Hid)%IH. exists x. split_and!; [by apply lookup_app_l_Some|done|done]. }
  destruct (n_deleted n) eqn:Ed; [done|]. intros [[<- <-]|[_ Hi]]%lookup_insert_Some; [|by apply Hold].
  exists n. split_and!; [|done|done]. by rewrite lookup_app_r, Nat.sub_diag by lia.
Qed.
Lemma rebuilt_complete ns id i n : node_of ns id i n → is_Some (rebuilt_lookup ns !! id).
Proof.
  revert i n. induction ns as [|x ns IH] using rev_ind; intros i n (Hn & Hd & Hid); [done|].
  rewrite rebuilt_snoc. unfold add_live. simpl. apply lookup_app_Some in Hn as [Hn|[Hi Hn]].
  - destruct (IH i n) as [j Hj]; [done|]. destruct (n_deleted x); [eauto|].
    destruct (decide (n_id x = id)) as [->|Hne]; [by rewrite lookup_insert_eq|]. rewrite lookup_insert_ne by done. eauto.
  - apply list_lookup_singleton_Some in Hn as [_ ->]. rewrite Hd, Hid. by rewrite lookup_insert_eq.
Qed.
Lemma rep_relookup metric `{!Comparable metric} self m : hnsw_rep metric self m → relookup self = self.
Proof.
  intros Hr. unfold relookup. assert (rebuilt_lookup (nodes self) = node_lookup self) as ->; [|by destruct self].
  apply map_eq. intros id. apply option_eq. intros i. rewrite (hr_lookup _ self m Hr). split; [apply rebuilt_sound|].
  intros (n & Hn). destruct (rebuilt_complete _ _ _ _ Hn) as [j Hj]. rewrite Hj.
  destruct (rebuilt_sound _ _ _ Hj) as (x & Hx). f_equal. by eapply (live_unique _ self m).
Qed.

(** ** Theorems *)
(** C14.  An index survives its snapshot: when its numbers fit their fields,
    [deserialize] of [serialize] is the index with the lookup rebuilt - the
    index itself if it was reached by replacements and removals -, also with
    bytes behind it; a proper prefix of a snapshot is refused; and
    [snapshot_size] is exactly the length written. *)
Theorem snapshot_roundtrip (self : HnswIndex) :
  fits self →
  (∀ rest, deserialize (serialize self ++ rest) = Ok (relookup self)) ∧
  (∀ p q, serialize self = p ++ q → q ≠ [] → ∃ e, deserialize p = Err e) ∧
  length (serialize self) = snapshot_size self ∧
  (∀ metric `(!Comparable metric) dim cfg ops, max_layers cfg ≠ 0 → Forall (op_good metric) ops →
     run_vops ops (new dim metric cfg) = Some self → deserialize (serialize self) = Ok self).
Proof.
  intros Hf. destruct (parses_index self Hf) as [H1 H2].
  assert (∀ rest, deserialize (serialize self ++ rest) = Ok (relookup self)) as Hrt.
  { intros rest. unfold deserialize. by rewrite H1. }
  split_and!; [done| |apply serialize_length|].
  - intros p q Hpq Hq. destruct (H2 p q Hpq Hq) as (e & rest & He). exists e. unfold deserialize. by rewrite He.
  - intros metric Hc dim cfg ops Hl Hg Hrun.
    destruct (run_vops_represents (VectorIndexLaws0 := hnsw_laws metric) metric ops _ _ (hnsw_new metric dim cfg Hl) Hg)
      as (i & Hi & Hr). rewrite Hrun in Hi. injection Hi as <-.
    rewrite <- (app_nil_r (serialize self)), Hrt. f_equal. by apply (rep_relookup metric self _ Hr).
Qed.

Definition some_index : HnswIndex :=
  default (new 2 DistanceMetric.Euclidean HnswConfig_default)
    (run_vops point_ops (new 2 DistanceMetric.Euclidean HnswConfig_default)).
Lemma snapshot_roundtrip_witness :
  deserialize (serialize some_index) = Ok some_index ∧ length (serialize some_index) = 304.
Proof.
  destruct (snapshot_roundtrip some_index ltac:(compute_decide)) as (_ & _ & Hlen & Hops). split.
  - apply (Hops DistanceMetric.Euclidean some_points 2 HnswConfig_default point_ops); [done|exact point_ops_good|].
    vm_compute. reflexivity.
  - rewrite Hlen. vm_compute. reflexivity.
Defined.
