(* ===== verification/FullText.v ===== *)
(** * Full-text indexes (crates/search)

    Analyzer configurations (analyzer.rs), the index of one table and field
    (fts_index.rs) and the manager of all of them (manager.rs).  Tantivy and
    the directories it writes are a parameter: the class [Tantivy] lists the
    calls the crate makes, as computations over the state [W] of the engine
    and the file system that may fail with an error text or panic. *)

From stdpp Require Import gmap.
From S2P Require Export Core.
Open Scope nat_scope.

(** A statement can fail, or its thread panics. *)
Inductive Failure := Fail (e : Error) | Panicked.
#[export] Instance Failure_eq_dec : EqDecision Failure.
Proof. solve_decision. Defined.

(** ** Analyzers (analyzer.rs) *)
Module Language.
Inductive t := English | Spanish | French | German | Italian | Portuguese | Russian.
End Language.
#[export] Instance Language_eq_dec : EqDecision Language.t.
Proof. solve_decision. Defined.
Module AnalyzerConfig.
Inductive t := Default | Language (l : Language.t) | Simple.
End AnalyzerConfig.
#[export] Instance AnalyzerConfig_eq_dec : EqDecision AnalyzerConfig.t.
Proof. solve_decision. Defined.
Definition ANALYZER_NAME : string := "dllb_analyzer".

(** Tantivy's analyzers: a tokenizer and the filters behind it. *)
Inductive BaseTokenizer := SimpleTokenizer | WhitespaceTokenizer.
Inductive TokenFilter := LowerCaser | Stemmer (l : Language.t).
Record TextAnalyzer := MkAnalyzer { ta_tokenizer : BaseTokenizer; ta_filters : list TokenFilter }.
Definition build_analyzer (config : AnalyzerConfig.t) : TextAnalyzer :=
  match config with
  | AnalyzerConfig.Default => MkAnalyzer SimpleTokenizer [LowerCaser]
  | AnalyzerConfig.Language lang => MkAnalyzer SimpleTokenizer [LowerCaser; Stemmer lang]
  | AnalyzerConfig.Simple => MkAnalyzer WhitespaceTokenizer []
  end.

(** ** The engine *)
Inductive TantivyError := TError (msg : string) | TPanic.
(** The schema has two text fields. *)
Inductive SchemaField := IdField | TextField.

Class Tantivy (W : Type) := {
  TIndex : Type; TWriter : Type; TReader : Type; TQuery : Type; DocAddress : Type;
  fs_create_dir_all : string → SE W TantivyError unit;
  fs_exists : string → W → bool;
  fs_remove_dir_all : string → SE W TantivyError unit;
  create_in_dir : string → SE W TantivyError TIndex;
  open_in_dir : string → SE W TantivyError TIndex;
  register_tokenizer : TIndex → string → TextAnalyzer → SE W TantivyError unit;
  index_writer : TIndex → Z → SE W TantivyError TWriter;
  index_reader : TIndex → SE W TantivyError TReader;
  add_document : TWriter → list (SchemaField * string) → SE W TantivyError unit;
  delete_term : TWriter → SchemaField → string → SE W TantivyError unit;
  commit_writer : TWriter → SE W TantivyError unit;
  reload_reader : TReader → SE W TantivyError unit;
  parse_query : TIndex → list SchemaField → string → SE W TantivyError TQuery;
  top_docs : TReader → TQuery → nat → SE W TantivyError (list (f32 * DocAddress));
  (** The first text value of a field of a stored document. *)
  stored_text : TReader → DocAddress → SchemaField → SE W TantivyError (option string)
}.
(** The order a hash map is iterated in. *)
Class HashOrder := hash_order : ∀ {A : Type}, gmap string A → list (string * A).
(** Every entry is visited once. *)
Class HashOrderLaws `{HashOrder} : Prop :=
  hash_order_perm : ∀ {A} (m : gmap string A), hash_order m ≡ₚ map_to_list m.
Lemma hash_order_empty `{HashOrderLaws} {A} : hash_order (∅ : gmap string A) = [].
Proof. apply Permutation_nil_r. rewrite hash_order_perm. by rewrite map_to_list_empty. Qed.

(** [path.join(name)]: an absolute name replaces the path. *)
Definition path_join (path name : string) : string :=
  match name with
  | String "/" _ => name
  | _ => match rev (list_ascii_of_string path) with
         | [] => name
         | "/"%char :: _ => (path ++ name)%string
         | _ => (path ++ "/" ++ name)%string
         end
  end.

Section fts.
Context {W : Type} `{Tantivy W}.
(** A computation over the engine. *)
Abbreviation F := (SE W Failure).

(** [call.map_err(|e| err(e.to_string()))]. *)
Definition engine {A} (err : string → Error) (call : SE W TantivyError A) : F A := λ w,
  match call w with
  | (Ok a, w') => (Ok a, w')
  | (Err (TError msg), w') => (Err (Fail (err msg)), w')
  | (Err TPanic, w') => (Err Panicked, w')
  end.

(** ** One index (fts_index.rs) *)
Record SearchHit := MkSearchHit { sh_id : string; sh_score : f32 }.
Record FtsIndex := MkFtsIndex { fi_index : TIndex; fi_reader : TReader; fi_writer : TWriter }.

Definition create_or_open (path : string) : SE W TantivyError TIndex := λ w,
  match create_in_dir path w with
  | (Err (TError _), w') => open_in_dir path w'
  | r => r
  end.
Definition open_or_create (path : string) (config : AnalyzerConfig.t) : F FtsIndex :=
  _ ← engine Storage (fs_create_dir_all path);
  index ← engine Index (create_or_open path);
  _ ← engine Index (register_tokenizer index ANALYZER_NAME (build_analyzer config));
  writer ← engine Index (index_writer index 15000000);
  reader ← engine Index (index_reader index);
  mret (MkFtsIndex index reader writer).
Definition index_document (self : FtsIndex) (id text : string) : F unit :=
  engine Index (add_document (fi_writer self) [(IdField, id); (TextField, text)]).
Definition delete_document (self : FtsIndex) (id : string) : F unit :=
  engine Index (delete_term (fi_writer self) IdField id).
Definition update_document (self : FtsIndex) (id text : string) : F unit :=
  _ ← delete_document self id; index_document self id text.
(** Hits whose stored document has no record id are dropped. *)
Definition hit_of_doc (self : FtsIndex) (top : f32 * DocAddress) : F (option SearchHit) :=
  id ← engine Query (stored_text (fi_reader self) top.2 IdField);
  mret ((λ id, MkSearchHit id top.1) <$> id).
Definition search (self : FtsIndex) (query_str : string) (limit : nat) : F (list SearchHit) :=
  query ← engine Query (parse_query (fi_index self) [TextField] query_str);
  top ← engine Query (top_docs (fi_reader self) query limit);
  hits ← for_map (hit_of_doc self) top;
  mret (omap id hits).
Definition commit (self : FtsIndex) : F unit :=
  _ ← engine Index (commit_writer (fi_writer self));
  engine Index (reload_reader (fi_reader self)).
End fts.
Arguments FtsIndex W {_}.

(** ** The manager (manager.rs) *)
Module FtsManagers.
Section manager.
Context {W : Type} `{Tantivy W, HashOrder}.
Record FtsManager := MkManager { base_dir : string; indexes : gmap string (FtsIndex W) }.
(** A computation over the manager and the engine. *)
Abbreviation F := (SE (FtsManager * W) Failure).

Definition new (base_dir : string) : FtsManager := MkManager base_dir ∅.
Definition index_key (table field : string) : string := (table ++ "." ++ field)%string.
Definition index_path (self : FtsManager) (key : string) : string := path_join (path_join (base_dir self) "fts") key.

Definition on_engine {A} (f : SE W Failure A) : F A := λ s, let '(r, w) := f s.2 in (r, (s.1, w)).
Definition set_indexes (f : gmap string (FtsIndex W) → gmap string (FtsIndex W)) : F unit := λ s,
  (Ok tt, (MkManager (base_dir s.1) (f (indexes s.1)), s.2)).
Definition manager : F FtsManager := λ s, (Ok s.1, s).

Definition define_index (table field : string) (analyzer : AnalyzerConfig.t) : F unit :=
  let key := index_key table field in
  self ← manager;
  index ← on_engine (open_or_create (index_path self key) analyzer);
  set_indexes <[key := index]>.
Definition get_index (table field : string) : F (FtsIndex W) :=
  self ← manager;
  lift (ok_or (indexes self !! index_key table field)
    (Fail (Index ("no FTS index defined for " ++ table ++ "." ++ field)))).
Definition index_document (table field id text : string) : F unit :=
  idx ← get_index table field; on_engine (FullText.index_document idx id text).
Definition delete_document (table field id : string) : F unit :=
  idx ← get_index table field; on_engine (FullText.delete_document idx id).
Definition update_document (table field id text : string) : F unit :=
  idx ← get_index table field; on_engine (FullText.update_document idx id text).
Definition search (table field query : string) (limit : nat) : F (list SearchHit) :=
  idx ← get_index table field; on_engine (FullText.search idx query limit).
Definition commit_all : F unit :=
  self ← manager; for_each (λ idx, on_engine (FullText.commit idx)) (map snd (hash_order (indexes self))).
Definition path_exists (path : string) : F bool := λ s, (Ok (fs_exists path s.2), s).
Definition drop_index (table field : string) : F unit :=
  let key := index_key table field in
  _ ← set_indexes (delete key);
  self ← manager;
  let path := index_path self key in
  exists_ ← path_exists path;
  if exists_ : bool then on_engine (engine Storage (fs_remove_dir_all path)) else mret tt.
End manager.
Arguments FtsManager W {_}.
End FtsManagers.

(** An engine that accepts everything and finds nothing. *)
Definition no_engine : Tantivy unit := {|
  TIndex := unit; TWriter := unit; TReader := unit; TQuery := unit; DocAddress := unit;
  fs_create_dir_all _ := mret tt; fs_exists _ _ := false; fs_remove_dir_all _ := mret tt;
  create_in_dir _ := mret tt; open_in_dir _ := mret tt; register_tokenizer _ _ _ := mret tt;
  index_writer _ _ := mret tt; index_reader _ := mret tt; add_document _ _ := mret tt;
  delete_term _ _ _ := mret tt; commit_writer _ := mret tt; reload_reader _ := mret tt;
  parse_query _ _ _ := mret tt; top_docs _ _ _ := mret []; stored_text _ _ _ := mret None |}.
