(* ===== verification/SearchServices.v ===== *)
(** * Search services (crates/query/src/search.rs)

    The process-wide state of the full-text and vector indexes beside the
    store: which full-text indexes are open, and the in-memory vector indexes
    by name, each with its dimension, its lock and its loaded flag.  Requests
    are served one after the other, so a lock is its poison flag: a panic
    under a write guard poisons it, and every later use fails.  The levels the
    vector indexes draw are a stream. *)

From stdpp Require Import gmap.
From S2P Require Export FullText Hnsw Display Tokenizer.
Open Scope nat_scope.

Definition lock_err : Failure := Fail (Core.Index "search-service lock poisoned").

Record VectorEntry := MkEntry {
  ve_dim : nat; ve_index : HnswIndex; ve_poisoned : bool; ve_rebuild_poisoned : bool; ve_loaded : bool }.
Definition fresh_entry (dim : nat) (metric : DistanceMetric.t) : VectorEntry :=
  MkEntry dim (Hnsw.new dim metric HnswConfig_default) false false false.
Definition with_index (e : VectorEntry) (i : HnswIndex) : VectorEntry :=
  MkEntry (ve_dim e) i (ve_poisoned e) (ve_rebuild_poisoned e) (ve_loaded e).
Definition with_loaded (loaded : bool) (e : VectorEntry) : VectorEntry :=
  MkEntry (ve_dim e) (ve_index e) (ve_poisoned e) (ve_rebuild_poisoned e) loaded.
Definition poison (e : VectorEntry) : VectorEntry :=
  MkEntry (ve_dim e) (ve_index e) true (ve_rebuild_poisoned e) (ve_loaded e).
Definition poison_rebuild (e : VectorEntry) : VectorEntry :=
  MkEntry (ve_dim e) (ve_index e) (ve_poisoned e) true (ve_loaded e).

Definition one_of (s : string) (names : list string) : bool := existsb (String.eqb s) names.

(** ** Names and values *)
Section names.
Context `{Unicode}.
Definition parse_analyzer (name : string) : Result Failure AnalyzerConfig.t :=
  let s := to_lowercase name in
  if one_of s [""; "default"]%string then Ok AnalyzerConfig.Default
  else if one_of s ["simple"]%string then Ok AnalyzerConfig.Simple
  else if one_of s ["english"]%string then Ok (AnalyzerConfig.Language Language.English)
  else if one_of s ["spanish"]%string then Ok (AnalyzerConfig.Language Language.Spanish)
  else if one_of s ["french"]%string then Ok (AnalyzerConfig.Language Language.French)
  else if one_of s ["german"]%string then Ok (AnalyzerConfig.Language Language.German)
  else if one_of s ["italian"]%string then Ok (AnalyzerConfig.Language Language.Italian)
  else if one_of s ["portuguese"]%string then Ok (AnalyzerConfig.Language Language.Portuguese)
  else if one_of s ["russian"]%string then Ok (AnalyzerConfig.Language Language.Russian)
  else Err (Fail (Core.Query ("unknown analyzer '" ++ s ++ "'; expected default, simple, or a language")%string)).
Definition parse_metric (name : string) : Result Failure DistanceMetric.t :=
  let s := to_lowercase name in
  if one_of s [""; "cosine"]%string then Ok DistanceMetric.Cosine
  else if one_of s ["euclidean"; "l2"]%string then Ok DistanceMetric.Euclidean
  else if one_of s ["dot"; "dotproduct"; "dot_product"]%string then Ok DistanceMetric.DotProduct
  else Err (Fail (Core.Query ("unknown metric '" ++ s ++ "'; expected cosine, euclidean, or dot")%string)).
End names.
Definition metric_str (metric : DistanceMetric.t) : string :=
  match metric with
  | DistanceMetric.Cosine => "cosine" | DistanceMetric.Euclidean => "euclidean" | DistanceMetric.DotProduct => "dot"
  end.

Definition number_to_f32 (it : Value) : option f32 :=
  match it with VFloat f => Some (f32_of_f64 f) | VInt n => Some (f32_of_i64 n) | _ => None end.
Definition value_to_vector (value : Value) : option (list f32) :=
  match value with VVector v => Some v | VArray items => mapM number_to_f32 items | _ => None end.
Definition value_to_text (value : Value) : option string :=
  match value with VString s => Some s | _ => None end.

(** ** The services *)
Section services.
Context {W : Type} `{Tantivy W, HashOrder, Unicode}.
Record SearchServices := MkServices {
  ss_fts : FtsManagers.FtsManager W; ss_engine : W; ss_open : gset string;
  ss_vectors : gmap string VectorEntry; ss_draws : nat → nat }.
Abbreviation SV := (SE SearchServices Failure).

Definition SearchServices_new (base_dir : string) (engine : W) (draws : nat → nat) : SearchServices :=
  MkServices (FtsManagers.new base_dir) engine ∅ ∅ draws.

(** *** Full text *)
Definition fts_key (table field : string) : string := (table ++ "." ++ field)%string.
(** A call of the manager. *)
Definition on_fts {A} (f : SE (FtsManagers.FtsManager W * W) Failure A) : SV A := λ s,
  let '(r, (fts, w)) := f (ss_fts s, ss_engine s) in (r, MkServices fts w (ss_open s) (ss_vectors s) (ss_draws s)).
Definition fts_opened (key : string) : SV bool := λ s, (Ok (bool_decide (key ∈ ss_open s)), s).
Definition set_open (f : gset string → gset string) : SV unit := λ s,
  (Ok tt, MkServices (ss_fts s) (ss_engine s) (f (ss_open s)) (ss_vectors s) (ss_draws s)).

Definition ensure_fulltext (table field analyzer : string) : SV unit :=
  let key := fts_key table field in
  opened ← fts_opened key;
  if opened : bool then mret tt
  else
    cfg ← lift (parse_analyzer analyzer);
    _ ← on_fts (FtsManagers.define_index table field cfg);
    set_open (union {[ key ]}).
Definition fts_index (table field id text : string) : SV unit := on_fts (FtsManagers.update_document table field id text).
Definition fts_delete (table field id : string) : SV unit := on_fts (FtsManagers.delete_document table field id).
Definition fts_commit : SV unit := on_fts FtsManagers.commit_all.
Definition drop_fulltext (table field : string) : SV unit :=
  _ ← on_fts (FtsManagers.drop_index table field);
  set_open (λ open, open ∖ {[ fts_key table field ]}).
Definition fts_search (table field query : string) (limit : nat) : SV (list (string * f32)) :=
  hits ← on_fts (FtsManagers.search table field query limit);
  mret (map (λ h, (sh_id h, sh_score h)) hits).

(** *** Vectors *)
Definition vector_entry (name : string) : SV (option VectorEntry) := λ s, (Ok (ss_vectors s !! name), s).
Definition set_vectors (f : gmap string VectorEntry → gmap string VectorEntry) : SV unit := λ s,
  (Ok tt, MkServices (ss_fts s) (ss_engine s) (ss_open s) (f (ss_vectors s)) (ss_draws s)).
Definition draw : SV nat := λ s,
  (Ok (ss_draws s 0), MkServices (ss_fts s) (ss_engine s) (ss_open s) (ss_vectors s) (λ n, ss_draws s (S n))).

Definition vector_exists (name : string) : SV bool := e ← vector_entry name; mret (bool_decide (is_Some e)).
Definition define_vector (name : string) (dim : nat) (metric : DistanceMetric.t) : SV unit :=
  set_vectors <[name := fresh_entry dim metric]>.
Definition get_or_create_vector (name : string) (dim : nat) (metric : DistanceMetric.t) : SV VectorEntry :=
  e ← vector_entry name;
  match e with
  | Some entry => mret entry
  | None => let entry := fresh_entry dim metric in _ ← set_vectors <[name := entry]>; mret entry
  end.
Definition set_vector_loaded (name : string) (loaded : bool) : SV unit := set_vectors (alter (with_loaded loaded) name).

(** [index.write()] and an update under the guard; a panic poisons the lock. *)
Definition write_index (name : string) (entry : VectorEntry) (f : HnswIndex → option HnswIndex) : SV unit :=
  if ve_poisoned entry then throw lock_err
  else match f (ve_index entry) with
       | Some i => set_vectors <[name := with_index entry i]>
       | None => _ ← set_vectors <[name := poison entry]>; throw Panicked
       end.
Definition vector_insert (name id : string) (vector : list f32) : SV unit :=
  e ← vector_entry name;
  match e with
  | Some entry =>
      if length vector =? ve_dim entry then
        level ← draw; write_index name entry (λ hnsw, '(_, hnsw) ← Hnsw.remove id hnsw; Hnsw.insert level id vector hnsw)
      else mret tt
  | None => mret tt
  end.
Definition vector_remove (name id : string) : SV unit :=
  e ← vector_entry name;
  match e with
  | Some entry => write_index name entry (λ hnsw, '(_, hnsw) ← Hnsw.remove id hnsw; Some hnsw)
  | None => mret tt
  end.
Definition vector_search (name : string) (query : list f32) (k : nat) : SV (list (string * f32)) :=
  e ← vector_entry name;
  entry ← lift (ok_or e (Fail (Core.Index ("vector index '" ++ name ++ "' is not loaded")%string)));
  if negb (length query =? ve_dim entry) then
    throw (Fail (Core.Query ("query vector has dimension " ++ show_nat (length query) ++ ", index '" ++ name ++
                        "' expects " ++ show_nat (ve_dim entry))%string))
  else if ve_poisoned entry then throw lock_err
  else match Hnsw.search (ve_index entry) query k with
       | Some hits => mret (map (λ h, (hit_id h, hit_distance h)) hits)
       | None => throw Panicked
       end.
Definition drop_vector (name : string) : SV unit := set_vectors (delete name).
End services.
Arguments SearchServices W {_}.
