(* ===== verification/FullTextSpec.v ===== *)
(** * What full-text search relies on, and one index

    The documented behaviour of the engine as laws over a view of its state:
    what a directory holds, what a writer has staged, what a reader shows.
    On top of them the operations of one index (fts_index.rs) and of the
    manager (manager.rs): staging, committing all indexes, searching. *)

From stdpp Require Import gmap.
From S2P Require Export SearchServices.
Open Scope nat_scope.

(** ** The engine *)
(** Documents as pairs of id and text. *)
Definition corpus : Type := list (string * string).

Class TantivyView (W : Type) `{Tantivy W} := {
  index_dir : TIndex → string;
  writer_dir : TWriter → string;
  reader_dir : TReader → string;
  (** Ids within the length limit of a term. *)
  id_fits : string → Prop;
  (** The query holds of a text, as the index analyzes it. *)
  query_matches : TQuery → string → bool;
  (** The committed documents; [None]: there is no index. *)
  on_disk : string → W → option corpus;
  (** No writer holds the lock of the directory. *)
  unlocked : string → W → Prop;
  (** The documents as the writer leaves them; [None]: it is closed. *)
  staged : TWriter → W → option corpus;
  (** The documents searches of the reader see. *)
  shown : TReader → W → option corpus;
  (** The document behind an address. *)
  doc_at : TReader → DocAddress → W → option (string * string)
}.

Section view.
Context {W : Type} `{TantivyView W}.
(** Nothing the view shows has changed. *)
Record same_view (w w' : W) : Prop := {
  sv_disk p : on_disk p w' = on_disk p w;
  sv_lock p : unlocked p w → unlocked p w';
  sv_staged wr : staged wr w' = staged wr w;
  sv_shown r : shown r w' = shown r w;
  sv_doc r a : doc_at r a w' = doc_at r a w
}.
(** Only the directory [d] and its handles have changed. *)
Record others (d : string) (w w' : W) : Prop := {
  ot_disk p : p ≠ d → on_disk p w' = on_disk p w;
  ot_lock p : p ≠ d → unlocked p w → unlocked p w';
  ot_staged wr : writer_dir wr ≠ d → staged wr w' = staged wr w;
  ot_shown r : reader_dir r ≠ d → shown r w' = shown r w
}.
Lemma others_refl d w : others d w w. Proof. by split. Qed.
Lemma others_trans d w1 w2 w3 : others d w1 w2 → others d w2 w3 → others d w1 w3.
Proof.
  intros [A1 B1 C1 D1] [A2 B2 C2 D2]. split; intros x Hx.
  - by rewrite A2, A1.
  - auto.
  - by rewrite C2, C1.
  - by rewrite D2, D1.
Qed.
Lemma same_others d w w' : same_view w w' → others d w w'.
Proof. intros [A B C D _]. split; auto. Qed.
Lemma same_view_refl w : same_view w w. Proof. by split. Qed.
Lemma same_view_trans w1 w2 w3 : same_view w1 w2 → same_view w2 w3 → same_view w1 w3.
Proof. intros [A1 B1 C1 D1 E1] [A2 B2 C2 D2 E2]. split; intros; auto; congruence. Qed.
(** A process that starts over the directories another one left. *)
Definition reopened (w w' : W) : Prop := ∀ p, on_disk p w' = on_disk p w ∧ unlocked p w'.
End view.

Definition higher (a b : f32) : Prop := f32_ltb a b = false.

(** The engine as documented, on runs in which it does not fail: opening
    creates or finds the directory, one writer at a time holds it, additions
    and deletions by id are staged in order, [commit] publishes them,
    [reload] shows what is committed (a reader may also reload by itself after
    a commit), a search returns the best matching documents, and asking for
    none of them panics. *)
Class TantivyLaws (W : Type) `{TantivyView W} : Prop := {
  create_dir_law p w : ∃ w', fs_create_dir_all p w = (Ok tt, w') ∧ same_view w w';
  create_new_law p w : on_disk p w = None → unlocked p w →
    ∃ i w', create_in_dir p w = (Ok i, w') ∧ index_dir i = p ∧ on_disk p w' = Some [] ∧ unlocked p w' ∧ others p w w';
  create_old_law p w c : on_disk p w = Some c →
    ∃ msg w', create_in_dir p w = (Err (TError msg), w') ∧ same_view w w';
  open_law p w c : on_disk p w = Some c → ∃ i w', open_in_dir p w = (Ok i, w') ∧ index_dir i = p ∧ same_view w w';
  register_law i n a w : ∃ w', register_tokenizer i n a w = (Ok tt, w') ∧ same_view w w';
  writer_law i budget w c : on_disk (index_dir i) w = Some c → unlocked (index_dir i) w → (15000000 ≤ budget)%Z →
    ∃ wr w', index_writer i budget w = (Ok wr, w') ∧ writer_dir wr = index_dir i ∧ staged wr w' = Some c ∧
      on_disk (index_dir i) w' = Some c ∧ others (index_dir i) w w';
  reader_law i w c : on_disk (index_dir i) w = Some c →
    ∃ r w', index_reader i w = (Ok r, w') ∧ reader_dir r = index_dir i ∧ shown r w' = Some c ∧
      on_disk (index_dir i) w' = Some c ∧ (∀ wr, staged wr w' = staged wr w) ∧ others (index_dir i) w w';
  add_law wr id text w c : staged wr w = Some c → id_fits id →
    ∃ w', add_document wr [(IdField, id); (TextField, text)] w = (Ok tt, w') ∧ staged wr w' = Some (c ++ [(id, text)]) ∧
      (∀ p, on_disk p w' = on_disk p w) ∧ (∀ r, shown r w' = shown r w) ∧ others (writer_dir wr) w w';
  delete_law wr id w c : staged wr w = Some c → id_fits id →
    ∃ w', delete_term wr IdField id w = (Ok tt, w') ∧ staged wr w' = Some (filter (λ d, d.1 ≠ id) c) ∧
      (∀ p, on_disk p w' = on_disk p w) ∧ (∀ r, shown r w' = shown r w) ∧ others (writer_dir wr) w w';
  commit_law wr w c : staged wr w = Some c →
    ∃ w', commit_writer wr w = (Ok tt, w') ∧ staged wr w' = Some c ∧ on_disk (writer_dir wr) w' = Some c ∧
      (∀ r, is_Some (shown r w) → is_Some (shown r w')) ∧ others (writer_dir wr) w w';
  reload_law r w c : is_Some (shown r w) → on_disk (reader_dir r) w = Some c →
    ∃ w', reload_reader r w = (Ok tt, w') ∧ shown r w' = Some c ∧ (∀ p, on_disk p w' = on_disk p w) ∧
      (∀ wr, staged wr w' = staged wr w) ∧ others (reader_dir r) w w';
  parse_law i fields query w : ∃ r w', parse_query i fields query w = (r, w') ∧ r ≠ Err TPanic ∧ same_view w w';
  top_docs_law r q n w c : shown r w = Some c → n ≠ 0 →
    ∃ top docs w', top_docs r q n w = (Ok top, w') ∧ same_view w w' ∧
      Forall2 (λ hit d, doc_at r hit.2 w' = Some d) top docs ∧
      docs ⊆+ filter (λ d, Is_true (query_matches q d.2)) c ∧
      length docs = min n (length (filter (λ d, Is_true (query_matches q d.2)) c)) ∧
      Sorted higher (map fst top);
  top_docs_zero_law r q w : ∃ w', top_docs r q 0 w = (Err TPanic, w') ∧ same_view w w';
  stored_text_law r a w d : doc_at r a w = Some d → ∃ w', stored_text r a IdField w = (Ok (Some d.1), w') ∧ same_view w w'
}.

(** ** Corpora *)
(** The corpus holds the texts [V], each id once. *)
Definition represents_texts (c : corpus) (V : string → option string) : Prop :=
  NoDup (map fst c) ∧ ∀ id text, (id, text) ∈ c ↔ V id = Some text.
Definition retext (V : string → option string) (id : string) (new : option string) : string → option string :=
  λ id', if decide (id' = id) then new else V id'.

Lemma represents_no_texts : represents_texts [] (λ _, None).
Proof. split; [constructor|]. intros id text. split; [by intros ?%not_elem_of_nil|done]. Qed.
Lemma represents_delete c V id : represents_texts c V → represents_texts (filter (λ d, d.1 ≠ id) c) (retext V id None).
Proof.
  intros [Hnd Hc]. split.
  - eapply sublist_NoDup; [exact Hnd|]. apply (fmap_sublist fst), sublist_filter.
  - intros id' text. rewrite list_elem_of_filter, Hc. unfold retext. simpl. case_decide; split; naive_solver.
Qed.
Lemma represents_update c V id text :
  represents_texts c V → represents_texts (filter (λ d, d.1 ≠ id) c ++ [(id, text)]) (retext V id (Some text)).
Proof.
  intros Hc. destruct (represents_delete c V id Hc) as [Hnd Hin]. split.
  - rewrite map_app. cbn [map fst]. apply NoDup_app. split_and!; [done| |apply NoDup_singleton].
    intros x Hx ->%list_elem_of_singleton. apply list_elem_of_fmap in Hx as ([id' t] & -> & Hx). simpl in Hx.
    apply list_elem_of_filter in Hx as [Hne _]. by apply Hne.
  - intros id' text'. rewrite elem_of_app, Hin, list_elem_of_singleton. unfold retext. case_decide; split; naive_solver.
Qed.

(** ** One index *)
Section one.
Context {W : Type} `{TL : TantivyLaws W}.
Implicit Types (idx : FtsIndex W) (w : W).

(** The handles of an index belong to the directory. *)
Record idx_at idx (d : string) : Prop := {
  ia_index : index_dir (fi_index idx) = d;
  ia_writer : writer_dir (fi_writer idx) = d;
  ia_reader : reader_dir (fi_reader idx) = d
}.
(** It stages [P], shows [V], and [V] is committed. *)
Record idx_holds idx (d : string) w (P V : corpus) : Prop := {
  ih_staged : staged (fi_writer idx) w = Some P;
  ih_shown : shown (fi_reader idx) w = Some V;
  ih_disk : on_disk d w = Some V
}.
Definition idx_open idx (d : string) w : Prop :=
  is_Some (staged (fi_writer idx) w) ∧ is_Some (shown (fi_reader idx) w) ∧ is_Some (on_disk d w).

Lemma holds_same idx d w w' P V : same_view w w' → idx_holds idx d w P V → idx_holds idx d w' P V.
Proof. intros [A B C D _] [X Y Z]. split; congruence. Qed.
Lemma holds_others idx d d' w w' P V : idx_at idx d' → d' ≠ d → others d w w' →
  idx_holds idx d' w P V → idx_holds idx d' w' P V.
Proof.
  intros [_ Hw Hr] Hd [A B C D] [X Y Z]. split.
  - by rewrite C by congruence.
  - by rewrite D by congruence.
  - by rewrite A.
Qed.
Lemma open_others idx d d' w w' : idx_at idx d' → d' ≠ d → others d w w' → idx_open idx d' w → idx_open idx d' w'.
Proof.
  intros [_ Hw Hr] Hd [A B C D] (X & Y & Z). split_and!.
  - by rewrite C by congruence.
  - by rewrite D by congruence.
  - by rewrite A.
Qed.

Lemma engine_run {A} err (call : SE W TantivyError A) w a w' : call w = (Ok a, w') → engine err call w = (Ok a, w').
Proof. unfold engine. by intros ->. Qed.

(** Opening creates the directory or finds what was committed there. *)
Lemma create_or_open_run d w : unlocked d w →
  ∃ i w', create_or_open d w = (Ok i, w') ∧ index_dir i = d ∧ on_disk d w' = Some (default [] (on_disk d w)) ∧
    unlocked d w' ∧ others d w w'.
Proof.
  intros Hu. unfold create_or_open. destruct (on_disk d w) as [c|] eqn:Ed.
  - destruct (create_old_law d w c Ed) as (msg & w1 & -> & Hs1).
    destruct (open_law d w1 c) as (i & w2 & Ho & Hi & Hs2); [by rewrite (sv_disk _ _ Hs1)|].
    pose proof (same_view_trans _ _ _ Hs1 Hs2) as Hs. exists i, w2. split_and!; [done|done| | |by apply same_others].
    + by rewrite (sv_disk _ _ Hs).
    + by apply (sv_lock _ _ Hs).
  - destruct (create_new_law d w Ed Hu) as (i & w1 & -> & Hi & Hd & Hu1 & Ho). by exists i, w1.
Qed.
Lemma idx_open_run d cfg w : unlocked d w →
  ∃ idx w', open_or_create d cfg w = (Ok idx, w') ∧ idx_at idx d ∧
    idx_holds idx d w' (default [] (on_disk d w)) (default [] (on_disk d w)) ∧ others d w w'.
Proof.
  intros Hu. unfold open_or_create.
  destruct (create_dir_law d w) as (w1 & Hr1 & Hs1). rewrite (SE_bind_ok _ _ _ _ _ (engine_run Storage _ _ _ _ Hr1)).
  destruct (create_or_open_run d w1) as (i & w2 & Hr2 & Hi & Hd2 & Hu2 & Ho2); [by apply (sv_lock _ _ Hs1)|].
  rewrite (sv_disk _ _ Hs1) in Hd2. set (c := default [] (on_disk d w)) in *.
  rewrite (SE_bind_ok _ _ _ _ _ (engine_run Index _ _ _ _ Hr2)).
  destruct (register_law i ANALYZER_NAME (build_analyzer cfg) w2) as (w3 & Hr3 & Hs3).
  rewrite (SE_bind_ok _ _ _ _ _ (engine_run Index _ _ _ _ Hr3)).
  destruct (writer_law i 15000000 w3 c) as (wr & w4 & Hr4 & Hwr & Hst4 & Hd4 & Ho4);
    [by rewrite Hi, (sv_disk _ _ Hs3)|by rewrite Hi; apply (sv_lock _ _ Hs3)|done|].
  rewrite (SE_bind_ok _ _ _ _ _ (engine_run Index _ _ _ _ Hr4)).
  destruct (reader_law i w4 c Hd4) as (r & w5 & Hr5 & Hrd & Hsh5 & Hd5 & Hst5 & Ho5).
  rewrite (SE_bind_ok _ _ _ _ _ (engine_run Index _ _ _ _ Hr5)). rewrite Hi in *.
  exists (MkFtsIndex i r wr), w5. split_and!; [done|by split|split; simpl; [by rewrite Hst5|done|done]|].
  apply (others_trans d _ w1); [by apply same_others|]. apply (others_trans d _ w2); [done|].
  apply (others_trans d _ w3); [by apply same_others|]. by eapply others_trans.
Qed.

Section staging.
Context idx (d : string) (Hat : idx_at idx d).
Lemma idx_add_run w P V id text : idx_holds idx d w P V → id_fits id →
  ∃ w', index_document idx id text w = (Ok tt, w') ∧ idx_holds idx d w' (P ++ [(id, text)]) V ∧ others d w w'.
Proof using TL Hat.
  intros [X Y Z] Hf. destruct (add_law _ id text w P X Hf) as (w' & Hr & Hst & Hd & Hsh & Ho).
  exists w'. split; [by apply engine_run|]. rewrite (ia_writer _ _ Hat) in Ho. split; [|done].
  split; [done|by rewrite Hsh|by rewrite Hd].
Qed.
Lemma idx_remove_run w P V id : idx_holds idx d w P V → id_fits id →
  ∃ w', delete_document idx id w = (Ok tt, w') ∧ idx_holds idx d w' (filter (λ x, x.1 ≠ id) P) V ∧ others d w w'.
Proof using TL Hat.
  intros [X Y Z] Hf. destruct (delete_law _ id w P X Hf) as (w' & Hr & Hst & Hd & Hsh & Ho).
  exists w'. split; [by apply engine_run|]. rewrite (ia_writer _ _ Hat) in Ho. split; [|done].
  split; [done|by rewrite Hsh|by rewrite Hd].
Qed.
Lemma idx_replace_run w P V id text : idx_holds idx d w P V → id_fits id →
  ∃ w', update_document idx id text w = (Ok tt, w') ∧
    idx_holds idx d w' (filter (λ x, x.1 ≠ id) P ++ [(id, text)]) V ∧ others d w w'.
Proof using TL Hat.
  intros Hh Hf. destruct (idx_remove_run w P V id Hh Hf) as (w1 & Hr1 & Hh1 & Ho1).
  destruct (idx_add_run w1 _ V id text Hh1 Hf) as (w2 & Hr2 & Hh2 & Ho2). exists w2. unfold update_document.
  rewrite (SE_bind_ok _ _ _ _ _ Hr1). split_and!; [done..|by eapply others_trans].
Qed.
Lemma idx_publish_run w P : staged (fi_writer idx) w = Some P → is_Some (shown (fi_reader idx) w) →
  ∃ w', commit idx w = (Ok tt, w') ∧ idx_holds idx d w' P P ∧ others d w w'.
Proof using TL Hat.
  intros X Y. destruct (commit_law _ w P X) as (w1 & Hr1 & Hst1 & Hd1 & Hsh1 & Ho1). destruct Hat as [_ Hw Hrd].
  destruct (reload_law (fi_reader idx) w1 P) as (w2 & Hr2 & Hsh2 & Hd2 & Hst2 & Ho2); [by apply Hsh1|by rewrite Hrd, <- Hw|].
  exists w2. unfold commit. rewrite (SE_bind_ok _ _ _ _ _ (engine_run Index _ _ _ _ Hr1)). rewrite Hw, Hrd in *.
  split_and!; [by apply engine_run| |by eapply others_trans]. split; [by rewrite Hst2|done|by rewrite Hd2].
Qed.
End staging.
End one.

(** ** Searching one index *)
(** The best [n] texts that match, each once, best first; all of them if there
    are fewer. *)
Definition best_matches `{TantivyView W} (V : string → option string) (q : TQuery) (n : nat) (hits : list (string * f32)) : Prop :=
  NoDup (map fst hits) ∧
  (∀ id, id ∈ map fst hits → ∃ text, V id = Some text ∧ query_matches q text = true) ∧
  length hits ≤ n ∧ Sorted higher (map snd hits) ∧
  (length hits < n → ∀ id text, V id = Some text → query_matches q text = true → id ∈ map fst hits).
(** The engine reads the text [query] as [q]. *)
Definition parses_as {W} `{TantivyView W} (query : string) (q : TQuery) : Prop :=
  ∃ i w w', parse_query i [TextField] query w = (Ok q, w').

Section searching.
Context {W : Type} `{TL : TantivyLaws W}.
Implicit Types (idx : FtsIndex W) (w : W).

Definition hit_at (top : f32 * DocAddress) (d : string * string) : SearchHit := MkSearchHit d.1 top.1.
Lemma hits_run idx top : ∀ docs w, Forall2 (λ hit d, doc_at (fi_reader idx) hit.2 w = Some d) top docs →
  ∃ w', for_map (hit_of_doc idx) top w = (Ok (map Some (zip_with hit_at top docs)), w') ∧ same_view w w'.
Proof using TL.
  induction top as [|t top IH]; intros docs w Hf; inversion Hf as [|? d ? docs' Ht Hl]; subst; cbn [for_map zip_with map].
  { exists w. split; [done|]. apply same_view_refl. }
  destruct (stored_text_law _ _ _ _ Ht) as (w1 & Hr1 & Hs1).
  destruct (IH docs' w1) as (w2 & Hr2 & Hs2).
  { eapply Forall2_impl; [exact Hl|]. intros x y Hx. by rewrite (sv_doc _ _ Hs1). }
  exists w2. split; [|by eapply same_view_trans]. unfold hit_of_doc.
  rewrite (SE_bind_ok _ _ _ (Some (hit_at t d)) w1); [by rewrite (SE_bind_ok _ _ _ _ _ Hr2)|].
  by rewrite (SE_bind_ok _ _ _ _ _ (engine_run Core.Query _ _ _ _ Hr1)).
Qed.
Lemma omap_Some {A} (l : list A) : omap id (map Some l) = l.
Proof. induction l as [|x l IH]; [done|]. cbn. by f_equal. Qed.

Lemma best_docs (V : string → option string) (c : corpus) (q : TQuery) (n : nat) (docs : corpus) :
  represents_texts c V → docs ⊆+ filter (λ d, Is_true (query_matches q d.2)) c →
  length docs = min n (length (filter (λ d, Is_true (query_matches q d.2)) c)) →
  NoDup (map fst docs) ∧ (∀ id, id ∈ map fst docs → ∃ text, V id = Some text ∧ query_matches q text = true) ∧
  length docs ≤ n ∧
  (length docs < n → ∀ id text, V id = Some text → query_matches q text = true → id ∈ map fst docs).
Proof.
  intros [Hnd Hc] Hsub Hlen. set (all := filter _ c) in *. split_and!.
  - assert (NoDup (map fst all)) as Hall by (eapply sublist_NoDup; [exact Hnd|]; apply (fmap_sublist fst), sublist_filter).
    apply submseteq_Permutation in Hsub as [k Hk]. rewrite Hk, map_app in Hall. by apply NoDup_app in Hall as [? _].
  - intros id ([id' text] & -> & Hin)%list_elem_of_fmap. exists text. eapply elem_of_submseteq in Hin; [|exact Hsub].
    apply list_elem_of_filter in Hin as [Hm Hin]. split; [by apply Hc|by apply Is_true_true].
  - lia.
  - intros Hlt id text HV Hm. assert (docs ≡ₚ all) as Hp by (apply submseteq_length_Permutation; [done|lia]).
    apply list_elem_of_fmap. exists (id, text). split; [done|]. rewrite Hp. apply list_elem_of_filter.
    split; [by apply Is_true_true|by apply Hc].
Qed.
Lemma idx_search_run idx d w P c V query n : idx_holds idx d w P c → represents_texts c V →
  ∃ r w', FullText.search idx query n w = (r, w') ∧ same_view w w' ∧
    match r with
    | Ok hits => n ≠ 0 ∧ ∃ q, parses_as (W := W) query q ∧ best_matches V q n (map (λ h, (sh_id h, sh_score h)) hits)
    | Err e => (∃ msg, e = Fail (Core.Query msg)) ∨ n = 0 ∧ e = Panicked
    end.
Proof using TL.
  intros [X Y Z] HV. unfold FullText.search.
  destruct (parse_law (fi_index idx) [TextField] query w) as (r & w1 & Hr1 & Hp & Hs1).
  destruct r as [q|[msg|]]; [|exists (Err (Fail (Core.Query msg))), w1; split_and!; [|done|by left; exists msg]|done]; cycle 1.
  { apply SE_bind_err. unfold engine. by rewrite Hr1. }
  rewrite (SE_bind_ok _ _ _ _ _ (engine_run Core.Query _ _ _ _ Hr1)).
  destruct (decide (n = 0)) as [->|Hn].
  { destruct (top_docs_zero_law (fi_reader idx) q w1) as (w2 & Hr2 & Hs2). exists (Err Panicked), w2.
    split_and!; [|by eapply same_view_trans|by right]. apply SE_bind_err. unfold engine. by rewrite Hr2. }
  destruct (top_docs_law (fi_reader idx) q n w1 c) as (top & docs & w2 & Hr2 & Hs2 & Hat & Hsub & Hlen & Hsort);
    [by rewrite (sv_shown _ _ Hs1)|done|].
  rewrite (SE_bind_ok _ _ _ _ _ (engine_run Core.Query _ _ _ _ Hr2)).
  destruct (hits_run idx top docs w2 Hat) as (w3 & Hr3 & Hs3). rewrite (SE_bind_ok _ _ _ _ _ Hr3).
  exists (Ok (zip_with hit_at top docs)), w3. split; [by rewrite omap_Some|].
  split; [by eapply same_view_trans, same_view_trans|]. split; [done|]. exists q. split; [by exists (fi_index idx), w, w1|].
  assert (map fst (map (λ h, (sh_id h, sh_score h)) (zip_with hit_at top docs)) = map fst docs ∧
    map snd (map (λ h, (sh_id h, sh_score h)) (zip_with hit_at top docs)) = map fst top) as [E1 E2].
  { clear -Hat. induction Hat as [|t x top docs Ht Hat [IH1 IH2]]; [done|]. simpl. by rewrite IH1, IH2. }
  destruct (best_docs V c q n docs HV Hsub Hlen) as (A & B & C & D).
  assert (length (map (λ h, (sh_id h, sh_score h)) (zip_with hit_at top docs)) = length docs) as El.
  { rewrite <- (length_map fst), E1. apply length_map. }
  unfold best_matches. rewrite E1, E2, El. done.
Qed.
End searching.

(** ** The manager *)
(** A key that a path appends. *)
Definition relative (key : string) : Prop := match key with String "/" _ => False | _ => True end.
Lemma string_app_inj (p a b : string) : (p ++ a)%string = (p ++ b)%string → a = b.
Proof. induction p as [|c p IH]; simpl; [done|]. intros [= E]. by apply IH. Qed.
Lemma path_join_inj p k1 k2 : relative k1 → relative k2 → path_join p k1 = path_join p k2 → k1 = k2.
Proof.
  intros H1 H2. assert (∀ k, relative k → path_join p k = match rev (list_ascii_of_string p) with
    | [] => k | "/"%char :: _ => (p ++ k)%string | _ => (p ++ "/" ++ k)%string end) as Hp.
  { intros [|[[] [] [] [] [] [] [] []] k]; try done. }
  rewrite !Hp by done. destruct (rev _) as [|c l]; [done|].
  destruct c as [[] [] [] [] [] [] [] []]; intros E%string_app_inj; (done || by injection E).
Qed.

Section manager.
Context {W : Type} `{TL : TantivyLaws W} `{HL : HashOrderLaws}.
Implicit Types (mgr : FtsManagers.FtsManager W) (w : W).
Abbreviation indexes := FtsManagers.indexes.
Abbreviation index_path := FtsManagers.index_path.

Lemma index_path_inj mgr k1 k2 : relative k1 → relative k2 → index_path mgr k1 = index_path mgr k2 → k1 = k2.
Proof. apply path_join_inj. Qed.

(** Every open index has a directory of its own. *)
Record manager_ok mgr w : Prop := {
  mo_relative k idx : indexes mgr !! k = Some idx → relative k;
  mo_at k idx : indexes mgr !! k = Some idx → idx_at idx (index_path mgr k);
  mo_open k idx : indexes mgr !! k = Some idx → idx_open idx (index_path mgr k) w
}.
(** A change to the directory of one key. *)
Lemma manager_frame mgr w w' k : relative k → others (index_path mgr k) w w' →
  (∀ idx, indexes mgr !! k = Some idx → idx_open idx (index_path mgr k) w') → manager_ok mgr w → manager_ok mgr w'.
Proof.
  intros Hk Ho Hi [A B C]. split; [done|done|]. intros k' idx Hidx. destruct (decide (k' = k)) as [->|Hne]; [by apply Hi|].
  eapply open_others; [by apply B| |exact Ho|by apply C]. intros E%index_path_inj; [done|by eapply A|done].
Qed.
Lemma holds_open idx d w P V : idx_holds idx d w P V → idx_open idx d w.
Proof. intros [X Y Z]. split_and!; eauto. Qed.

Lemma commit_loop mgr (l : list (string * FtsIndex W)) : ∀ w, NoDup (map fst l) →
  (∀ k idx, (k, idx) ∈ l → indexes mgr !! k = Some idx) → manager_ok mgr w →
  ∃ w', for_each (λ idx, FtsManagers.on_engine (commit idx)) (map snd l) (mgr, w) = (Ok tt, (mgr, w')) ∧
    manager_ok mgr w' ∧
    (∀ k idx P, indexes mgr !! k = Some idx → staged (fi_writer idx) w = Some P →
       staged (fi_writer idx) w' = Some P ∧
       (k ∈ map fst l ∨ idx_holds idx (index_path mgr k) w P P → idx_holds idx (index_path mgr k) w' P P)) ∧
    (∀ d, (∀ k idx, indexes mgr !! k = Some idx → index_path mgr k ≠ d) →
       on_disk d w' = on_disk d w ∧ (unlocked d w → unlocked d w')).
Proof using TL.
  induction l as [|[k idx] l IH]; intros w Hnd Hl Hm; cbn [map for_each snd fst].
  { exists w. split_and!; [done|done| |done]. intros k idx P _ HP. split; [done|]. by intros [?%not_elem_of_nil|?]. }
  cbn [map fst] in Hnd. apply NoDup_cons in Hnd as [Hk Hnd]. assert (indexes mgr !! k = Some idx) as Hidx by (apply Hl; left).
  destruct Hm as [Hrel Hat Hop]. destruct (Hop k idx Hidx) as ([P HP] & Hsh & _).
  destruct (idx_publish_run idx _ (Hat k idx Hidx) w P HP Hsh) as (w1 & Hr1 & Hh1 & Ho1).
  destruct (IH w1 Hnd) as (w2 & Hr2 & Hm2 & Hp2 & Hf2); [intros; apply Hl; by right| |].
  { eapply manager_frame; [by eapply Hrel|exact Ho1| |by split]. intros idx' E. rewrite Hidx in E. injection E as <-.
    by eapply holds_open. }
  exists w2. split_and!; [|done| |].
  - rewrite (SE_bind_ok _ _ _ tt (mgr, w1)); [exact Hr2|]. unfold FtsManagers.on_engine. simpl. by rewrite Hr1.
  - intros k' idx' P' Hidx' HP'. destruct (decide (k' = k)) as [->|Hne].
    + rewrite Hidx in Hidx'. injection Hidx' as <-. rewrite HP in HP'. injection HP' as <-.
      destruct (Hp2 k idx P Hidx (ih_staged _ _ _ _ _ Hh1)) as [? Hx]. split; [done|]. intros _. apply Hx. by right.
    + assert (index_path mgr k' ≠ index_path mgr k) as Hd.
      { intros E%index_path_inj; [done|by eapply Hrel|by eapply Hrel]. }
      destruct (Hp2 k' idx' P' Hidx') as [? Hx].
      { by rewrite (ot_staged _ _ _ Ho1) by (rewrite (ia_writer _ _ (Hat k' idx' Hidx')); done). }
      split; [done|]. intros Hc. apply Hx. destruct Hc as [[?|?]%elem_of_cons|Hh]; [done|by left|right].
      eapply holds_others; [by apply Hat|exact Hd|exact Ho1|done].
  - intros d Hd. pose proof (Hd k idx Hidx) as Hne. destruct (Hf2 d Hd) as [E1 E2]. split.
    + rewrite E1. by apply (ot_disk _ _ _ Ho1).
    + intros Hu. apply E2. by apply (ot_lock _ _ _ Ho1).
Qed.
Lemma commit_all_run mgr w : manager_ok mgr w →
  ∃ w', FtsManagers.commit_all (mgr, w) = (Ok tt, (mgr, w')) ∧ manager_ok mgr w' ∧
    (∀ k idx P, indexes mgr !! k = Some idx → staged (fi_writer idx) w = Some P → idx_holds idx (index_path mgr k) w' P P) ∧
    (∀ d, (∀ k idx, indexes mgr !! k = Some idx → index_path mgr k ≠ d) →
       on_disk d w' = on_disk d w ∧ (unlocked d w → unlocked d w')).
Proof using TL HL.
  intros Hm. unfold FtsManagers.commit_all. rewrite (SE_bind_ok _ _ _ mgr (mgr, w)) by done.
  assert (hash_order (indexes mgr) ≡ₚ map_to_list (indexes mgr)) as Hp by apply HL.
  destruct (commit_loop mgr (hash_order (indexes mgr)) w) as (w' & Hr & Hm' & Hc & Hf).
  - rewrite Hp. apply NoDup_fst_map_to_list.
  - intros k idx. rewrite Hp. apply elem_of_map_to_list.
  - done.
  - exists w'. split_and!; [done..| |done]. intros k idx P Hidx HP. apply (Hc k idx P Hidx HP). left. rewrite Hp.
    apply list_elem_of_fmap. exists (k, idx). split; [done|]. by apply elem_of_map_to_list.
Qed.
End manager.

(** ** An engine in memory

    Handles are directories; a query matches the texts that contain it, and
    all scores are one. *)
Module MemTantivy.
Record fs := MkFs { disk : gmap string corpus; writers : gmap string corpus; readers : gmap string corpus }.
Definition contains (q text : string) : bool := match String.index 0 q text with Some _ => true | None => false end.
Definition stage (wr : string) (f : corpus → corpus) : SE fs TantivyError unit := λ w,
  match writers w !! wr with
  | Some c => (Ok tt, MkFs (disk w) (<[wr := f c]> (writers w)) (readers w))
  | None => (Err (TError "the writer is closed"), w)
  end.
#[export] Instance engine : Tantivy fs := {|
  TIndex := string; TWriter := string; TReader := string; TQuery := string; DocAddress := string * string;
  fs_create_dir_all _ := mret tt;
  fs_exists d w := bool_decide (is_Some (disk w !! d));
  fs_remove_dir_all d w := (Ok tt, MkFs (delete d (disk w)) (writers w) (readers w));
  create_in_dir d w := match disk w !! d with
                       | Some _ => (Err (TError "the index exists"), w)
                       | None => (Ok d, MkFs (<[d := []]> (disk w)) (writers w) (readers w))
                       end;
  open_in_dir d w := match disk w !! d with Some _ => (Ok d, w) | None => (Err (TError "no index"), w) end;
  register_tokenizer _ _ _ := mret tt;
  index_writer d _ w := match writers w !! d, disk w !! d with
                        | None, Some c => (Ok d, MkFs (disk w) (<[d := c]> (writers w)) (readers w))
                        | _, _ => (Err (TError "the lock is busy"), w)
                        end;
  index_reader d w := match disk w !! d with
                      | Some c => (Ok d, MkFs (disk w) (writers w) (<[d := c]> (readers w)))
                      | None => (Err (TError "no index"), w)
                      end;
  add_document wr fields := match fields with
                            | [(IdField, id); (TextField, text)] => stage wr (λ c, c ++ [(id, text)])
                            | _ => throw (TError "not a document of the schema")
                            end;
  delete_term wr _ id := stage wr (filter (λ d, d.1 ≠ id));
  commit_writer wr w := match writers w !! wr with
                        | Some c => (Ok tt, MkFs (<[wr := c]> (disk w)) (writers w) (readers w))
                        | None => (Err (TError "the writer is closed"), w)
                        end;
  reload_reader r w := match disk w !! r with
                       | Some c => (Ok tt, MkFs (disk w) (writers w) (<[r := c]> (readers w)))
                       | None => (Err (TError "no index"), w)
                       end;
  parse_query _ _ q := mret q;
  top_docs r q n w := match n, readers w !! r with
                      | O, _ => (Err TPanic, w)
                      | _, Some c => (Ok (map (pair f32_one) (take n (filter (λ d, Is_true (contains q d.2)) c))), w)
                      | _, None => (Err (TError "the reader is closed"), w)
                      end;
  stored_text _ a field := mret (Some (match field with IdField => a.1 | TextField => a.2 end)) |}.
#[export] Instance view : TantivyView fs := {|
  index_dir d := d; writer_dir d := d; reader_dir d := d; id_fits _ := True;
  query_matches := contains; on_disk d w := disk w !! d; unlocked d w := writers w !! d = None;
  staged wr w := writers w !! wr; shown r w := readers w !! r; doc_at _ a _ := Some a |}.

Ltac mem_others := split; simpl; intros; rewrite ?lookup_insert_ne by done; done.
#[export] Instance laws : TantivyLaws fs.
Proof.
  split; simpl; intros.
  - exists w. split; [done|]. apply same_view_refl.
  - rewrite H. eexists _, _. split; [done|]. split_and!; [done|apply lookup_insert_eq|done|mem_others].
  - rewrite H. eexists _, _. split; [done|]. apply same_view_refl.
  - rewrite H. eexists _, _. split; [done|]. split; [done|]. apply same_view_refl.
  - exists w. split; [done|]. apply same_view_refl.
  - rewrite H, H0. eexists _, _. split; [done|]. split_and!; [done|apply lookup_insert_eq|done|mem_others].
  - rewrite H. eexists _, _. split; [done|]. split_and!; [done|apply lookup_insert_eq|done|done|mem_others].
  - unfold stage. rewrite H. eexists. split; [done|]. split_and!; [apply lookup_insert_eq|done|done|mem_others].
  - unfold stage. rewrite H. eexists. split; [done|]. split_and!; [apply lookup_insert_eq|done|done|mem_others].
  - rewrite H. eexists. split; [done|]. split_and!; [done|apply lookup_insert_eq|done|mem_others].
  - rewrite H0. eexists. split; [done|]. split_and!; [apply lookup_insert_eq|done|done|mem_others].
  - eexists _, w. split; [done|]. split; [done|]. apply same_view_refl.
  - destruct n as [|n]; [done|]. unfold corpus in *. rewrite H. set (all := filter _ c). eexists _, (take (S n) all), w. split; [done|].
    split; [apply same_view_refl|]. split_and!.
    + generalize (take (S n) all). intros l. induction l as [|d l IH]; [constructor|]. by constructor.
    + apply sublist_submseteq, sublist_take.
    + by rewrite length_take.
    + rewrite map_map. generalize (take (S n) all). intros l. induction l as [|d l IH]; [constructor|].
      simpl. constructor; [done|]. destruct l; constructor. vm_compute. reflexivity.
  - exists w. split; [done|]. apply same_view_refl.
  - injection H as <-. exists w. split; [done|]. apply same_view_refl.
Qed.
(** Handles close with the process. *)
Definition boot (w : fs) : fs := MkFs (disk w) ∅ ∅.
Lemma boot_reopened w : reopened w (boot w).
Proof. intros d. split; [done|]. apply lookup_empty. Qed.
End MemTantivy.
