(* ===== verification/SearchExecutor.v ===== *)
(** * The statement executor with search services (crates/query/src/executor.rs)

    The handlers as the server and the command line run them, over the store
    and the search services: maintenance of the full-text and vector indexes
    after every write, their definition and removal, and the search
    statements.  A panic is an error of its own. *)

From stdpp Require Import gmap.
From S2P Require Export SearchServices Statements.
Open Scope nat_scope.

(** ** Ranks *)
Definition DEFAULT_SEARCH_LIMIT : nat := 10.
(** [limit.saturating_mul(10).max(limit)] *)
Definition candidate_pool (limit : nat) (filtered : bool) : nat :=
  if filtered then max (Z.to_nat (Z.min (Z.of_nat limit * 10) (2 ^ 64 - 1))) limit else limit.

(** [f64::min], [f64::max]: a NaN is ignored. *)
Definition f64_min (a b : f64) : f64 := if is_nan a then b else if is_nan b then a else if f64_ltb b a then b else a.
Definition f64_max (a b : f64) : f64 := if is_nan a then b else if is_nan b then a else if f64_ltb a b then b else a.
Definition f64_infinity : f64 := F64 0x7FF0000000000000.
Definition f64_neg_infinity : f64 := F64 0xFFF0000000000000.
(** [f64::clamp]: a NaN stays. *)
Definition f64_clamp (x lo hi : f64) : f64 := if f64_ltb x lo then lo else if f64_gtb x hi then hi else x.

Definition goodness (lower_is_better : bool) (hit : string * f32) : f64 :=
  if lower_is_better then f64_neg (f64_of_f32 hit.2) else f64_of_f32 hit.2.
Definition normalize_scores (hits : list (string * f32)) (lower_is_better : bool) : list (string * f64) :=
  let goods := map (goodness lower_is_better) hits in
  let min := fold_left f64_min goods f64_infinity in
  let max := fold_left f64_max goods f64_neg_infinity in
  let range := f64_sub max min in
  zip_with (λ hit g, (hit.1, if f64_gtb range f64_zero then f64_div (f64_sub g min) range else f64_one)) hits goods.

(** [blended.entry(id).or_insert((0.0, 0.0)).0 = s], and [.1]. *)
Abbreviation Blend := (gmap string (f64 * f64)).
Definition blend_text (m : Blend) (h : string * f64) : Blend :=
  <[h.1 := (h.2, (default (f64_zero, f64_zero) (m !! h.1)).2)]> m.
Definition blend_vector (m : Blend) (h : string * f64) : Blend :=
  <[h.1 := ((default (f64_zero, f64_zero) (m !! h.1)).1, h.2)]> m.
Record Blended := MkBlended { bl_id : string; bl_score : f64; bl_text : f64; bl_vector : f64 }.
Definition blended_of (alpha : f64) (e : string * (f64 * f64)) : Blended :=
  MkBlended e.1 (f64_add (f64_mul alpha e.2.1) (f64_mul (f64_sub f64_one alpha) e.2.2)) e.2.1 e.2.2.
Definition blended_cmp (a b : Blended) : comparison :=
  match default Eq (f64_partial_cmp (bl_score b) (bl_score a)) with
  | Eq => ord_cmp (bl_id a) (bl_id b)
  | c => c
  end.

(** ** Catalog *)
Inductive SearchKind := KFullText | KVector.
Definition label (want : SearchKind) : string := match want with KFullText => "full-text" | KVector => "vector" end.
Definition is_search_index (field : string) (want : SearchKind) (d : IndexDefinition) : bool :=
  bool_decide (head (ix_fields d) = Some field) &&
  match ix_kind d, want with FullText _, KFullText | Index.Vector _ _, KVector => true | _, _ => false end.

(** An error of the store fails the statement. *)
Definition from_store {A} (r : result A) : Result Failure A := match r with Ok a => Ok a | Err e => Err (Fail e) end.

Module WithServices.
Section executor.
Context {S W : Type} `{KvStore S} `{FieldsCodec} `{DefCodec} `{CodeIntel} `{DebugFmt} `{KvCompact S}.
Context `{Tantivy W, HashOrder, Unicode} (ns db : string) (o : Oracle).
(** A handler: over the store and the services. *)
Abbreviation X := (SE (S * SearchServices W) Failure).

Definition store {A} (m : M S A) : X A := λ s, let '(r, st) := m s.1 in (from_store r, (st, s.2)).
(** A handler of the store that may panic. *)
Definition store_or_panic {A} (m : M S (option A)) : X A := r ← store m; lift (ok_or r Panicked).
Definition services {A} (m : SE (SearchServices W) Failure A) : X A := λ s,
  let '(r, sv) := m s.2 in (r, (s.1, sv)).
Definition fail {A} (e : Error) : X A := throw (Fail e).

(** ** Maintenance *)
(** A panic while the rebuild lock is held poisons it. *)
Definition guarded (name : string) {A} (body : X A) : X A := λ s,
  match body s with
  | (Err Panicked, (st, sv)) =>
      (Err Panicked, (st, MkServices (ss_fts sv) (ss_engine sv) (ss_open sv)
                            (alter poison_rebuild name (ss_vectors sv)) (ss_draws sv)))
  | r => r
  end.
(** [doc.fields.get(field).and_then(value_to_vector)] *)
Definition doc_vector (field : string) (doc : Document) : option (list f32) :=
  oget field (doc_fields doc) ≫= value_to_vector.
Definition doc_text (field : string) (doc : Document) : option string :=
  oget field (doc_fields doc) ≫= value_to_text.
Definition load_vector (name field : string) (doc : Document) : X unit :=
  match doc_vector field doc with
  | Some v => services (vector_insert name (rid_id (doc_id doc)) v)
  | None => mret tt
  end.
Definition ensure_vector_loaded (table : string) (def : IndexDefinition) (dim : nat) (metric : string) : X unit :=
  parsed_metric ← lift (parse_metric metric);
  entry ← services (get_or_create_vector (ix_name def) dim parsed_metric);
  if ve_loaded entry then mret tt
  else if ve_rebuild_poisoned entry then fail (Core.Index "vector rebuild lock poisoned")
  else guarded (ix_name def)
    (_ ← match head (ix_fields def) with
         | None => mret tt
         | Some field =>
             docs ← store (Collections.scan_all (Collections.new ns db table));
             for_each (load_vector (ix_name def) field) docs
         end;
     services (set_vector_loaded (ix_name def) true)).

Definition maintain_index (table id : string) (doc : option Document) (def : IndexDefinition) : X unit :=
  match head (ix_fields def) with
  | None => mret tt
  | Some field =>
      match ix_kind def with
      | FullText analyzer =>
          _ ← services (ensure_fulltext table field analyzer);
          match doc ≫= doc_text field with
          | Some text => services (fts_index table field id text)
          | None => services (fts_delete table field id)
          end
      | Index.Vector dim metric =>
          match doc ≫= doc_vector field with
          | Some v =>
              _ ← ensure_vector_loaded table def dim metric;
              services (vector_insert (ix_name def) id v)
          | None =>
              exists_ ← services (vector_exists (ix_name def));
              if exists_ : bool then services (vector_remove (ix_name def) id) else mret tt
          end
      | BTree => mret tt
      end
  end.
Definition maintain_search_indexes (table id : string) (doc : option Document) (defs : list IndexDefinition) : X unit :=
  for_each (maintain_index table id doc) defs.
Definition commit_search : X unit := services fts_commit.
(** After a write: maintenance from the stored document, if there is one. *)
Definition maintain_stored (coll : Collection) (id : string) : X bool :=
  stored ← store (Collections.get coll id);
  match stored with
  | Some doc => _ ← maintain_search_indexes (co_table coll) id (Some doc) (Collections.indexes coll); mret true
  | None => mret false
  end.

(** ** Documents *)
(** The storage part of a [CREATE]: the result and the id written. *)
Definition create_stored (coll : Collection) (uuid table : string) (id : option string)
    (fields : list (string * Literal)) (on_conflict : option OnConflict) : M S (QueryResult * string) :=
  let record_id := match id with Some id => RecordIds.new table id | None => RecordIds.generate uuid table end in
  let doc := set_fields (Documents.new record_id) fields in
  match on_conflict with
  | Some conflict =>
      id_str ← lift (ok_or id (Core.Query "ON CONFLICT UPDATE requires an explicit record ID"));
      let update_fields := match conflict with
                           | OnUpdate => to_fields fields
                           | OnUpdateSet update_set => to_fields update_set
                           end in
      '(result_id, was_created) ← Collections.upsert coll id_str doc update_fields;
      mret (if was_created : bool then QCreated result_id else QUpdated result_id, rid_id result_id)
  | None =>
      created_id ← match id with
                   | Some id => Collections.create_with_id coll id doc
                   | None => Collections.create coll doc
                   end;
      mret (QCreated created_id, rid_id created_id)
  end.
Definition exec_create (uuid table : string) (id : option string) (fields : list (string * Literal))
    (on_conflict : option OnConflict) : X QueryResult :=
  coll ← store (Collections.load ns db table);
  '(result, id_str) ← store (create_stored coll uuid table id fields on_conflict);
  stored ← maintain_stored coll id_str;
  _ ← (if stored : bool then commit_search else mret tt);
  mret result.

Fixpoint update_rows (coll : Collection) (filter : option WhereClause) (update_fields : Fields)
    (docs : list Document) (matched : nat) : X nat :=
  match docs with
  | [] => mret matched
  | doc :: docs' =>
      if keep filter doc then
        _ ← store (Collections.merge coll (rid_id (doc_id doc)) update_fields);
        _ ← maintain_stored coll (rid_id (doc_id doc));
        update_rows coll filter update_fields docs' (matched + 1)
      else update_rows coll filter update_fields docs' matched
  end.
Definition exec_update (target : FromTarget) (fields : list (string * Literal)) (filter : option WhereClause) :
    X QueryResult :=
  let update_fields := to_fields fields in
  match target with
  | FromRecord r =>
      coll ← store (Collections.load ns db (rr_table r));
      found ← store (Collections.get coll (rr_id r));
      match found with
      | Some _ =>
          _ ← store (Collections.merge coll (rr_id r) update_fields);
          stored ← maintain_stored coll (rr_id r);
          _ ← (if stored : bool then commit_search else mret tt);
          mret (QUpdate 1)
      | None => mret (QUpdate 0)
      end
  | FromTable table =>
      coll ← store (Collections.load ns db table);
      docs ← store (Collections.scan_all coll);
      matched ← update_rows coll filter update_fields docs 0;
      _ ← (if 0 <? matched then commit_search else mret tt);
      mret (QUpdate matched)
  end.

Definition exec_delete (table id : string) : X QueryResult :=
  coll ← store (Collections.load ns db table);
  existed ← store (Collections.delete coll id);
  _ ← (if existed : bool then
         _ ← maintain_search_indexes table id None (Collections.indexes coll); commit_search
       else mret tt);
  mret (QDeleted existed).
Fixpoint delete_rows (coll : Collection) (filter : option WhereClause) (docs : list Document) (count : nat) : X nat :=
  match docs with
  | [] => mret count
  | doc :: docs' =>
      if keep filter doc then
        existed ← store (Collections.delete coll (rid_id (doc_id doc)));
        if existed : bool then
          _ ← maintain_search_indexes (co_table coll) (rid_id (doc_id doc)) None (Collections.indexes coll);
          delete_rows coll filter docs' (count + 1)
        else delete_rows coll filter docs' count
      else delete_rows coll filter docs' count
  end.
Definition exec_delete_where (table : string) (filter : option WhereClause) : X QueryResult :=
  coll ← store (Collections.load ns db table);
  docs ← store (candidates coll filter);
  count ← delete_rows coll filter docs 0;
  _ ← (if 0 <? count then commit_search else mret tt);
  mret (QDeletedMany count).

(** *** Batches *)
(** The document a step of the batch wrote, if its table has a search index. *)
Definition search_create (uuid : string) (stmt : Statement) (cache : gmap string (list IndexDefinition)) :
    list (string * string) :=
  match stmt with
  | Create table id _ _ =>
      if existsb (λ d, negb (IndexDefinitions.is_btree d)) (default [] (cache !! table))
      then [(table, match id with Some s => s | None => uuid end)] else []
  | _ => []
  end.
Fixpoint batch_loop (stmts : list (string * Statement)) (b : batch_state) (creates : list (string * string)) :
    X (batch_state * list (string * string)) :=
  match stmts with
  | [] => mret (b, creates)
  | (uuid, stmt) :: stmts' =>
      b ← store (batch_step ns db uuid stmt b);
      batch_loop stmts' b (creates ++ search_create uuid stmt (idx_cache b))
  end.
Definition maintain_created (cache : gmap string (list IndexDefinition)) (created : string * string) : X unit :=
  stored ← store (Collections.get (Collections.new ns db created.1) created.2);
  match stored with
  | Some doc => maintain_search_indexes created.1 created.2 (Some doc) (default [] (cache !! created.1))
  | None => mret tt
  end.
(** [execute_batch] up to the version counters of the edge types. *)
Definition execute_batch (stmts : list (string * Statement)) : X QueryResult :=
  '(b, creates) ← batch_loop stmts (MkBatch [] [] 0 0 ∅) [];
  _ ← store (DllbStorage.write_batch (all_puts b) (all_deletes b));
  _ ← match creates with
      | [] => mret tt
      | _ => _ ← for_each (maintain_created (idx_cache b)) creates; commit_search
      end;
  mret (QBatch (length stmts) (b_created b) (b_updated b)).

(** ** Index definitions *)
Definition exec_remove_index (name table : string) : X QueryResult :=
  defs ← store (load_index_definitions ns db table);
  let existing := List.find (λ d, String.eqb (ix_name d) name) defs in
  let def_key := index_catalog_key ns db table name in
  let entry_prefix := index_prefix ns db table name in
  keys ← store (DllbStorage.scan_prefix_keys entry_prefix);
  _ ← store (DllbStorage.write_batch [] (keys ++ [def_key]));
  _ ← match existing with
      | Some def =>
          match ix_kind def with
          | Index.Vector _ _ => services (drop_vector name)
          | FullText _ =>
              match head (ix_fields def) with
              | Some field => services (drop_fulltext table field)
              | None => mret tt
              end
          | BTree => mret tt
          end
      | None => mret tt
      end;
  mret QOk.

Definition put_definition (table : string) (def : IndexDefinition) : X unit :=
  '(def_key, def_bytes) ← lift (from_store (index_definition_kv ns db table def));
  store (DllbStorage.write_batch [(def_key, def_bytes)] []).
Definition load_text (table field : string) (doc : Document) : X unit :=
  match doc_text field doc with
  | Some text => services (fts_index table field (rid_id (doc_id doc)) text)
  | None => mret tt
  end.
Definition exec_define_fulltext (name table field : string) (analyzer : option string) : X QueryResult :=
  let analyzer := default "default"%string analyzer in
  _ ← lift (parse_analyzer analyzer);
  _ ← put_definition table (MkIndexDefinition name [field] false (FullText analyzer));
  _ ← services (ensure_fulltext table field analyzer);
  docs ← store (Collections.scan_all (Collections.new ns db table));
  _ ← for_each (load_text table field) docs;
  _ ← services fts_commit;
  mret QOk.
Definition exec_define_vector (name table field : string) (dim : nat) (metric : option string) : X QueryResult :=
  if dim =? 0 then fail (Core.Query "DEFINE VECTOR INDEX requires a positive DIMENSION")
  else
    let metric := default "cosine"%string metric in
    parsed_metric ← lift (parse_metric metric);
    _ ← put_definition table (MkIndexDefinition name [field] false (Index.Vector dim metric));
    _ ← services (define_vector name dim parsed_metric);
    docs ← store (Collections.scan_all (Collections.new ns db table));
    _ ← for_each (load_vector name field) docs;
    _ ← services (set_vector_loaded name true);
    mret QOk.

(** ** Search *)
Definition find_search_index (table field : string) (want : SearchKind) : X IndexDefinition :=
  defs ← store (load_index_definitions ns db table);
  lift (ok_or (List.find (is_search_index field want) defs)
    (Fail (Core.Query ("no " ++ label want ++ " index defined on " ++ table ++ "." ++ field)%string))).

(** Rows for ranked hits, resolved against [by_id]; the limit is compared
    after a row is pushed. *)
Fixpoint rank_loop {H} (hit_key : H → string) (scores : H → Fields) (by_id : gmap string Document)
    (filter : option WhereClause) (table : string) (limit : nat) (hits : list H) (rows : list Fields) : list Fields :=
  match hits with
  | [] => rows
  | h :: hits' =>
      match by_id !! hit_key h with
      | None => rank_loop hit_key scores by_id filter table limit hits' rows
      | Some doc =>
          if keep filter doc then
            let row := oinsert "id"%string (VString (table ++ ":" ++ hit_key h)) (doc_fields doc) in
            let rows := rows ++ [oextend row (scores h)] in
            if limit <=? length rows then rows
            else rank_loop hit_key scores by_id filter table limit hits' rows
          else rank_loop hit_key scores by_id filter table limit hits' rows
      end
  end.
Definition by_id_of (docs : list Document) : gmap string Document :=
  fold_left (λ m d, <[rid_id (doc_id d) := d]> m) docs ∅.
Definition ranked_rows {H} (hit_key : H → string) (scores : H → Fields) (table : string) (hits : list H)
    (filter : option WhereClause) (limit : nat) : X QueryResult :=
  docs ← store (Collections.get_many (Collections.new ns db table) (map hit_key hits));
  mret (QRows (rank_loop hit_key scores (by_id_of docs) filter table limit hits [])).
Definition rows_from_hits (table : string) (hits : list (string * f32)) (filter : option WhereClause) (limit : nat)
    (score_field : string) : X QueryResult :=
  ranked_rows fst (λ h : string * f32, [(score_field, VFloat (f64_of_f32 h.2))]) table hits filter limit.

Definition limit_of (limit : option Z) : nat := match limit with Some n => Z.to_nat n | None => DEFAULT_SEARCH_LIMIT end.
Definition is_some {A} (o : option A) : bool := match o with Some _ => true | None => false end.
Definition ensure_fulltext_of (table field : string) (def : IndexDefinition) : X unit :=
  match ix_kind def with FullText analyzer => services (ensure_fulltext table field analyzer) | _ => mret tt end.
Definition ensure_vector_of (table : string) (def : IndexDefinition) : X unit :=
  match ix_kind def with Index.Vector dim metric => ensure_vector_loaded table def dim metric | _ => mret tt end.

Definition exec_search (table field query : string) (filter : option WhereClause) (limit : option Z) : X QueryResult :=
  def ← find_search_index table field KFullText;
  _ ← ensure_fulltext_of table field def;
  let limit := limit_of limit in
  hits ← services (fts_search table field query (candidate_pool limit (is_some filter)));
  rows_from_hits table hits filter limit "score".
Definition exec_vector_search (table field : string) (vector : list f64) (filter : option WhereClause) (k : option Z) :
    X QueryResult :=
  def ← find_search_index table field KVector;
  _ ← ensure_vector_of table def;
  let k := limit_of k in
  hits ← services (vector_search (ix_name def) (map f32_of_f64 vector) (candidate_pool k (is_some filter)));
  rows_from_hits table hits filter k "distance".
Definition hybrid_scores (h : Blended) : Fields :=
  [("score"%string, VFloat (bl_score h)); ("text_score"%string, VFloat (bl_text h)); ("vector_score"%string, VFloat (bl_vector h))].
Definition exec_hybrid_search (table text_field query vector_field : string) (vector : list f64) (alpha : option f64)
    (filter : option WhereClause) (limit : option Z) : X QueryResult :=
  text_def ← find_search_index table text_field KFullText;
  _ ← ensure_fulltext_of table text_field text_def;
  vec_def ← find_search_index table vector_field KVector;
  _ ← ensure_vector_of table vec_def;
  let alpha := f64_clamp (default (F64 0x3FE0000000000000) alpha) f64_zero f64_one in
  let limit := limit_of limit in
  let fetch := candidate_pool limit true in
  text_hits ← services (fts_search table text_field query fetch);
  vec_hits ← services (vector_search (ix_name vec_def) (map f32_of_f64 vector) fetch);
  let blended := fold_left blend_text (normalize_scores text_hits false) ∅ in
  let blended := fold_left blend_vector (normalize_scores vec_hits true) blended in
  scored ← lift (ok_or (o_sort o Blended blended_cmp (map (blended_of alpha) (hash_order blended))) Panicked);
  ranked_rows bl_id hybrid_scores table scored filter limit.

(** ** Dispatch *)
Definition execute (stmt : Statement) : X QueryResult :=
  match stmt with
  | Create table id fields on_conflict => exec_create (o_uuid o 0) table id fields on_conflict
  | Delete table id => exec_delete table id
  | DeleteWhere table filter => exec_delete_where table filter
  | Update target fields filter => exec_update target fields filter
  | RemoveIndex name table => exec_remove_index name table
  | DefineFulltextIndex name table field analyzer => exec_define_fulltext name table field analyzer
  | DefineVectorIndex name table field dim metric => exec_define_vector name table field (Z.to_nat dim) metric
  | Search table field query filter limit => exec_search table field query filter limit
  | VectorSearch table field vector filter k => exec_vector_search table field vector filter k
  | HybridSearch table text_field query vector_field vector alpha filter limit =>
      exec_hybrid_search table text_field query vector_field vector alpha filter limit
  | _ => store_or_panic (Statements.execute ns db o stmt)
  end.
End executor.
End WithServices.
