(* ===== verification/ServiceRuns.v ===== *)
(** * Handlers over the store and the services

    The interface of a table whose search indexes are maintained
    ([Maintained]), and the statements on such a table: they answer and store
    as they do on the store alone, and maintenance keeps the invariant.  The
    tables without search indexes are the first instance. *)

From stdpp Require Import gmap.
From S2P Require Export SearchExecutor CollectionTheorems IndexDdl.
Import WithServices.
Open Scope nat_scope.

(** ** Running handlers *)
Section runs.
Context {S W : Type} `{Tantivy W}.
Implicit Types (s : S) (sv : SearchServices W).

Lemma store_run {A} (m : M S A) s sv r s' : m s = (r, s') →
  store m (s, sv) = (from_store r, (s', sv)).
Proof. intros E. unfold store. simpl. by rewrite E. Qed.
Lemma services_run {A} (m : SE (SearchServices W) Failure A) s sv r sv' : m sv = (r, sv') →
  services m (s, sv) = (r, (s, sv')).
Proof. intros E. unfold services. simpl. by rewrite E. Qed.
End runs.

(** ** Values written by a statement *)
Lemma literal_in (fields : list (string * Literal)) k x :
  (k, x) ∈ map (λ kv : string * Literal, (kv.1, to_value kv.2)) fields → ∃ lit, (k, lit) ∈ fields ∧ x = to_value lit.
Proof. intros ([k' lit] & [= -> ->] & Hin)%list_elem_of_fmap. eauto. Qed.
Lemma set_fields_extend doc fields :
  doc_fields (set_fields doc fields) = oextend (doc_fields doc) (map (λ kv : string * Literal, (kv.1, to_value kv.2)) fields).
Proof. unfold set_fields. revert doc. induction fields as [|kv fields IH]; intros doc; simpl; [done|]. by rewrite IH. Qed.
Lemma set_fields_id doc fields : doc_id (set_fields doc fields) = doc_id doc.
Proof. unfold set_fields. revert doc. induction fields as [|kv fields IH]; intros doc; simpl; [done|]. by rewrite IH. Qed.

(** ** The catalog *)
Section catalog.
Context {S W : Type} `{KL : KvLaws S} `{DefCodec} `{Tantivy W, HashOrder}.
Context (ns db table : string) (ixs : list IndexDefinition).
Abbreviation coll := (MkCollection ns db table None ixs).
Implicit Types (s : S) (sv : SearchServices W).

Lemma load_frame s s' : Collections.load ns db table s = (Ok coll, s) →
  (∀ k, index_catalog_prefix ns db table `prefix_of` k → oget k (contents s') = oget k (contents s)) →
  Collections.load ns db table s' = (Ok coll, s').
Proof using KL.
  intros Hl Hs. unfold Collections.load, load_index_definitions, DllbStorage.prefix_scan in *. revert Hl.
  unfold mbind, SE_bind, lift. rewrite !prefix_scan_law, (prefix_orange_ext _ s s'); [| |done].
  - destruct (traverse _ _); [|done]. by intros [= ->].
  - rewrite index_catalog_prefix_shape. rewrite (app_comm_cons _ _ tag.METADATA), app_assoc. by apply prefix_end_tag.
Qed.
Lemma catalog_not_written k id : index_catalog_prefix ns db table `prefix_of` k →
  k ≠ Collections.doc_key coll id ∧ ¬ index_region coll k.
Proof.
  rewrite index_catalog_prefix_shape. intros [r ->]. split.
  - unfold Collections.doc_key. rewrite document_key_shape, <- !app_assoc. intros E%app_inv_head. simpl in E.
    injection E as E _. by apply (f_equal Byte.to_N) in E.
  - intros (i & _ & _ & r' & E). rewrite index_prefix_shape, <- !app_assoc in E. apply app_inv_head in E. simpl in E.
    injection E as E _. by apply (f_equal Byte.to_N) in E.
Qed.
Lemma load_definitions s : Collections.load ns db table s = (Ok coll, s) → load_index_definitions ns db table s = (Ok ixs, s).
Proof.
  unfold Collections.load, mbind, SE_bind. destruct (load_index_definitions ns db table s) as [[d|e] s1]; [|done].
  by intros [= -> ->].
Qed.
(** No full-text index is open. *)
Definition text_idle sv : Prop := hash_order (FtsManagers.indexes (ss_fts sv)) = [].
Lemma commit_run s sv : text_idle sv → commit_search (s, sv) = (Ok tt, (s, sv)).
Proof.
  intros Hi. apply services_run. unfold fts_commit, on_fts, FtsManagers.commit_all.
  rewrite (SE_bind_ok _ _ _ (ss_fts sv) (ss_fts sv, ss_engine sv)) by done. rewrite Hi. simpl. by destruct sv.
Qed.
End catalog.

(** ** Defining a search index *)
Section define.
Context {S W : Type} `{KL : KvLaws S} `{FL : FieldsCodecLaws} `{DL : DefCodecLaws} `{CodeIntel} `{Tantivy W, HashOrder, Unicode}.
Context (ns db table name field : string) (kind : IndexKind)
  (i1 i2 : list IndexDefinition) (Hkind : kind ≠ BTree).
Abbreviation def := (MkIndexDefinition name [field] false kind).
Abbreviation coll := (MkCollection ns db table None (i1 ++ i2)).
Abbreviation coll' := (MkCollection ns db table None (i1 ++ def :: i2)).

Lemma search_index_entries doc : Collections.entries coll' doc = Collections.entries coll doc.
Proof.
  unfold Collections.entries. simpl. induction i1 as [|i l IH]; [by destruct kind|]. cbn [app build_index_entries]. by rewrite IH.
Qed.
Lemma search_region_same k : index_region coll' k ↔ index_region coll k.
Proof.
  unfold index_region. simpl. split; intros (i & Hi & Hb & Hp); exists i; (split; [|done]).
  - apply elem_of_app in Hi as [Hi|[->|Hi]%elem_of_cons]; [apply elem_of_app; by left|by destruct kind|apply elem_of_app; by right].
  - apply elem_of_app in Hi as [Hi|Hi]; apply elem_of_app; [by left|right; by right].
Qed.
Context (Hwf : coll_wf coll) (Hname : seg_ok name) (Hfresh : ∀ d, d ∈ i1 ++ i2 → ix_name d ≠ name).
Lemma search_index_wf : coll_wf coll'.
Proof using Hwf Hname Hfresh.
  assert (∀ d, d ∈ i1 ++ def :: i2 → d = def ∨ d ∈ i1 ++ i2) as Hin by (intros d; rewrite !elem_of_app, elem_of_cons; tauto).
  destruct Hwf as [W1 W2 W3 W4 W5]. split; [done..| |]; simpl.
  - intros d [->|Hd]%Hin; [done|by apply W4].
  - intros d1 d2 [->|H1']%Hin [->|H2']%Hin E; [done|by destruct (Hfresh d2 H2')|by destruct (Hfresh d1 H1')|by apply W5].
Qed.
(** The catalog entry is outside the documents and entries of the table. *)
Lemma search_index_inv c b : coll_inv c coll → coll_inv (oinsert (index_catalog_key ns db table name) b c) coll' ∧
  ∀ id, stored (oinsert (index_catalog_key ns db table name) b c) coll' id = stored c coll id.
Proof.
  intros Hinv. set (key := index_catalog_key _ _ _ _).
  assert (∀ id, key ≠ Collections.doc_key coll id) as Hk by (intros; by apply def_key_not_doc).
  assert (∀ id, stored (oinsert key b c) coll' id = stored c coll id) as Hst.
  { intros id. unfold stored. change (Collections.doc_key coll' id) with (Collections.doc_key coll id).
    by rewrite oget_insert_ne by apply Hk. }
  split; [|done]. split.
  - intros id b' Hb. change (Collections.doc_key coll' id) with (Collections.doc_key coll id) in Hb.
    rewrite oget_insert_ne in Hb by apply Hk. destruct (inv_docs _ _ Hinv id b' Hb) as (doc & es & Hd & He).
    exists doc, es. by rewrite search_index_entries.
  - intros k v Hkv Hp. eapply (inv_ids _ _ Hinv); [|exact Hp]. rewrite <- Hkv. symmetry. apply oget_insert_ne.
    intros <-. by apply def_key_not_doc_prefix in Hp.
  - intros k Hr. apply search_region_same in Hr. rewrite oget_insert_ne.
    + rewrite (inv_entries _ _ Hinv k Hr). split; intros (id & doc & es & Hd & He & Hin); exists id, doc, es;
        [rewrite Hst, search_index_entries|rewrite Hst, search_index_entries in *]; done.
    + intros <-. eapply (def_key_not_region ns db table name None (i1 ++ i2) [] false); [|done].
      destruct Hr as (i & Hi & ?). exists i. split; [|done]. apply elem_of_app. by left.
Qed.
End define.

Section search_catalog.
Context {S W : Type} `{KL : KvLaws S} `{FL : FieldsCodecLaws} `{DL : DefCodecLaws} `{CodeIntel} `{Tantivy W, HashOrder, Unicode}.
Context (ns db table : string).

Lemma load_extended s s' ixs def b :
  Collections.load ns db table s = (Ok (MkCollection ns db table None ixs), s) →
  oget (index_catalog_key ns db table (ix_name def)) (contents s) = None →
  def_to_vec def = Ok b → contents s' = oinsert (index_catalog_key ns db table (ix_name def)) b (contents s) →
  ∃ i1 i2, ixs = i1 ++ i2 ∧ Collections.load ns db table s' = (Ok (MkCollection ns db table None (i1 ++ def :: i2)), s').
Proof using KL DL.
  intros Hl Hk Hb Hc. apply load_definitions in Hl. unfold load_index_definitions, DllbStorage.prefix_scan in Hl.
  revert Hl. unfold mbind, SE_bind, lift. rewrite prefix_scan_law. intros [= Hl].
  destruct (oinsert_split _ b _ Hk) as (l1 & l2 & E1 & E2). rewrite <- Hc in E2.
  unfold orange in Hl. rewrite E1, filter_app in Hl. apply traverse_app in Hl as (y1 & y2 & H1' & H2' & ->).
  exists y1, y2. split; [done|]. unfold Collections.load, load_index_definitions, DllbStorage.prefix_scan, mbind, SE_bind, lift.
  rewrite prefix_scan_law. unfold orange. rewrite E2, filter_app, filter_cons_True; cycle 1.
  { apply Is_true_true, prefix_range; simpl.
    - rewrite index_catalog_prefix_shape, (app_comm_cons _ _ tag.METADATA), app_assoc. by apply prefix_end_tag.
    - rewrite index_catalog_prefix_shape, index_catalog_key_shape. exists (as_bytes (ix_name def)).
      by rewrite <- !app_assoc, <- app_comm_cons, <- app_assoc. }
  assert (traverse (λ kv : bytes * bytes, ser_err (def_from_slice kv.2))
    ((index_catalog_key ns db table (ix_name def), b) :: filter (λ kv, Is_true (leb (index_catalog_prefix ns db table) kv.1 &&
       ltb kv.1 (prefix_end (index_catalog_prefix ns db table)))) l2) = Ok (def :: y2)) as H3'.
  { cbn [traverse]. simpl. rewrite (def_roundtrip _ _ Hb). simpl. by rewrite H2'. }
  match goal with |- context [traverse ?f (?a ++ ?b)] => assert (traverse f (a ++ b) = Ok (y1 ++ def :: y2)) as -> end; [|done].
  apply traverse_app. by exists y1, (def :: y2).
Qed.
Lemma put_definition_run s (sv : SearchServices W) def :
  match def_to_vec def with
  | Ok b => ∃ s1, put_definition ns db table def (s, sv) = (Ok tt, (s1, sv)) ∧
      contents s1 = oinsert (index_catalog_key ns db table (ix_name def)) b (contents s)
  | Err e => put_definition ns db table def (s, sv) = (Err (Fail (Serialization e)), (s, sv))
  end.
Proof using KL.
  unfold put_definition, index_definition_kv, ser_err. destruct (def_to_vec def) as [b|e]; [|done].
  destruct (write_batch_law [(index_catalog_key ns db table (ix_name def), b)] [] s) as (s1 & Hw & Hc).
  exists s1. split; [|exact Hc]. rewrite (SE_bind_ok _ _ (s, sv) (index_catalog_key ns db table (ix_name def), b) (s, sv)) by done.
  unfold DllbStorage.write_batch. by rewrite (store_run _ _ sv _ _ Hw).
Qed.
End search_catalog.

Section added.
Context {S W : Type} `{KL : KvLaws S} `{FL : FieldsCodecLaws} `{DL : DefCodecLaws} `{CodeIntel} `{Tantivy W, HashOrder, Unicode}.
Context (ns db table : string).
(** A definition added to a table: the extended catalog, over the same
    documents, ready to be scanned for the backfill. *)
Record added (s s1 : S) (ixs ixs' : list IndexDefinition) (def : IndexDefinition) (docs : list Document) : Prop := {
  ad_in d : d ∈ ixs' ↔ d = def ∨ d ∈ ixs;
  ad_wf : coll_wf (MkCollection ns db table None ixs');
  ad_unique : unique_btree (MkCollection ns db table None ixs');
  ad_only d : d ∈ ixs' → d = def ∨ IndexDefinitions.is_btree d = true;
  ad_load : Collections.load ns db table s1 = (Ok (MkCollection ns db table None ixs'), s1);
  ad_inv : coll_inv (contents s1) (MkCollection ns db table None ixs');
  ad_stored id : stored (contents s1) (MkCollection ns db table None ixs') id =
    stored (contents s) (MkCollection ns db table None ixs) id;
  ad_scan : Collections.scan_all (Collections.new ns db table) s1 = (Ok docs, s1);
  ad_docs : all_docs (MkCollection ns db table None ixs') (contents s1) docs
}.
Context (name field : string) (kind : IndexKind) (Hkind : kind ≠ BTree).
Abbreviation def := (MkIndexDefinition name [field] false kind).
Lemma add_definition_run ixs s (sv : SearchServices W) :
  Collections.load ns db table s = (Ok (MkCollection ns db table None ixs), s) → coll_wf (MkCollection ns db table None ixs) →
  coll_inv (contents s) (MkCollection ns db table None ixs) → (∀ d, d ∈ ixs → IndexDefinitions.is_btree d = true) →
  seg_ok name → (∀ d, d ∈ ixs → ix_name d ≠ name) → oget (index_catalog_key ns db table name) (contents s) = None →
  (∃ e, def_to_vec def = Err e ∧ put_definition ns db table def (s, sv) = (Err (Fail (Serialization e)), (s, sv))) ∨
  (∃ s1 ixs' docs, put_definition ns db table def (s, sv) = (Ok tt, (s1, sv)) ∧ added s s1 ixs ixs' def docs).
Proof using KL FL DL Hkind.
  intros Hl Hwf Hinv Hbt Hname Hfresh Hk. pose proof (put_definition_run ns db table s sv def) as Hput.
  destruct (def_to_vec def) as [b|e] eqn:Eb; [right|left; by exists e]. destruct Hput as (s1 & Hput & Hc).
  destruct (load_extended ns db table s s1 ixs def b Hl Hk Eb Hc) as (i1 & i2 & -> & Hl1). simpl in Hl1.
  destruct (search_index_inv ns db table name field kind i1 i2 Hkind (contents s) b Hinv) as [Hi1 Hst1].
  change (index_catalog_key ns db table name) with (index_catalog_key ns db table (ix_name def)) in Hi1, Hst1.
  rewrite <- Hc in Hi1, Hst1.
  assert (coll_wf (MkCollection ns db table None (i1 ++ def :: i2))) as Hwf1 by (by apply search_index_wf).
  assert (∀ d, d ∈ i1 ++ def :: i2 ↔ d = def ∨ d ∈ i1 ++ i2) as Hin by (intros d; rewrite !elem_of_app, elem_of_cons; tauto).
  destruct (scan_all_run (Collections.new ns db table) (coll_wf_new ns db table None _ Hwf1) s1)
    as (docs & Hscan & Hall & _); [by eapply coll_inv_new|].
  exists s1, (i1 ++ def :: i2), docs. split; [done|]. split; try done.
  - intros d [->|Hd]%Hin; [done|]. intros _. by apply Hbt.
  - intros d [->|Hd]%Hin; [by left|right; by apply Hbt].
Qed.
End added.

(** A statement on the table that writes fitting values under fitting ids. *)
Definition writes_ok (table : string) (id_ok : string → Prop) (lit_ok : list (string * Literal) → Prop) (o : Oracle)
    (stmt : Statement) : Prop :=
  match stmt with
  | Create t id fields on_conflict =>
      t = table ∧ is_str (default (o_uuid o 0) id) ∧ id_ok (default (o_uuid o 0) id) ∧ lit_ok fields ∧
      match on_conflict with Some (OnUpdateSet update_set) => lit_ok update_set | _ => True end
  | Update (FromRecord r) fields _ => rr_table r = table ∧ lit_ok fields
  | Update (FromTable t) fields _ => t = table ∧ lit_ok fields
  | Ast.Delete t _ | DeleteWhere t _ => t = table
  | _ => False
  end.

(** ** Maintained tables *)
Section table.
Context {S W : Type} `{KL : KvLaws S} `{FL : FieldsCodecLaws} `{DefCodec} `{CodeIntel} `{Tantivy W, HashOrder, Unicode}.
Context (ns db table : string) (ixs : list IndexDefinition).
Abbreviation coll := (MkCollection ns db table None ixs).

(** What the search indexes of a table promise to its statements: an
    invariant of the store and the services that every write followed by its
    maintenance keeps, provided the id and the fields written fit the indexes,
    and that a commit turns into what holds between statements. *)
Class Maintained := {
  mt_inv : S * SearchServices W → Prop;
  mt_done : S * SearchServices W → Prop;
  mt_id : string → Prop;
  mt_fit : Fields → Prop;
  mt_lit : list (string * Literal) → Prop;
  mt_load st : mt_inv st → Collections.load ns db table st.1 = (Ok coll, st.1);
  mt_table st : mt_inv st → coll_inv (contents st.1) coll;
  mt_commit s sv : mt_inv (s, sv) → ∃ sv', commit_search (s, sv) = (Ok tt, (s, sv')) ∧ mt_done (s, sv');
  mt_write s sv id new s' : mt_inv (s, sv) → coll_inv (contents s') coll →
    mt_id id → written coll (contents s) id new (contents s') → (∀ doc, new = Some doc → mt_fit (doc_fields doc)) →
    ∃ sv', maintain_search_indexes ns db table id new ixs (s', sv) = (Ok tt, (s', sv')) ∧ mt_inv (s', sv');
  mt_stored st id doc : mt_inv st → stored (contents st.1) coll id = Some doc → mt_id id ∧ mt_fit (doc_fields doc);
  mt_merge old fields : mt_fit (doc_fields old) → mt_lit fields →
    mt_fit (doc_fields (Collections.merge_fields old (to_fields fields)));
  mt_new rid fields : mt_lit fields → mt_fit (doc_fields (set_fields (Documents.new rid) fields))
}.
Context (Hwf : coll_wf coll) (Hub : unique_btree coll) `{Mt : Maintained}.
Implicit Types (s : S) (sv : SearchServices W).

Lemma maintain_stored_run s sv id new s' : mt_inv (s, sv) → coll_inv (contents s') coll → mt_id id →
  written coll (contents s) id (Some new) (contents s') → mt_fit (doc_fields new) →
  ∃ sv', maintain_stored ns db coll id (s', sv) = (Ok true, (s', sv')) ∧ mt_inv (s', sv').
Proof using All.
  intros Hs Hi' Hid Hw Hnew. destruct (mt_write s sv id (Some new) s' Hs Hi' Hid Hw) as (sv' & Hr & Hs'); [by intros ? [= <-]|].
  exists sv'. split; [|done]. unfold maintain_stored. rewrite (SE_bind_ok _ _ _ (Some new) (s', sv)).
  - by rewrite (SE_bind_ok _ _ _ _ _ Hr).
  - rewrite (store_run _ _ _ _ _ (get_run coll s' id Hi')). by rewrite (wr_id _ _ _ _ _ Hw).
Qed.
(** *** Steps of statements *)
Lemma merge_step s sv id fields : mt_inv (s, sv) → mt_lit fields →
  ∃ r s', Collections.merge coll id (to_fields fields) s = (r, s') ∧
    match r with
    | Ok _ => ∃ sv', maintain_stored ns db coll id (s', sv) = (Ok true, (s', sv')) ∧ mt_inv (s', sv')
    | Err _ => s' = s
    end.
Proof using All.
  intros Hs Hl. pose proof (mt_table _ Hs) as Hi. simpl in Hi. pose proof (merge_run coll Hwf s id (to_fields fields) Hi) as Hm.
  destruct (stored (contents s) coll id) as [old|] eqn:Hst; [|by eexists _, s].
  destruct Hm as (r & s' & Hr & [(-> & _ & Hi' & Hw)|([e ->] & -> & _)]); [|by exists (Err e), s].
  destruct (mt_stored (s, sv) _ _ Hs Hst) as [Hid Hfit].
  exists (Ok tt), s'. split; [done|]. eapply maintain_stored_run; [done..|exact Hw|]. by apply mt_merge.
Qed.
Lemma delete_step s sv id : mt_inv (s, sv) →
  ∃ b s', Collections.delete coll id s = (Ok b, s') ∧
    if b : bool then ∃ sv', maintain_search_indexes ns db table id None ixs (s', sv) = (Ok tt, (s', sv')) ∧ mt_inv (s', sv')
    else s' = s.
Proof using All.
  intros Hs. pose proof (mt_table _ Hs) as Hi. simpl in Hi. pose proof (delete_run coll Hwf s id Hi) as Hd.
  destruct (stored (contents s) coll id) as [old|] eqn:Hst; [|by exists false, s]. destruct Hd as (s' & Hr & Hi' & Hw).
  destruct (mt_stored (s, sv) _ _ Hs Hst) as [Hid _]. exists true, s'. split; [done|]. by eapply mt_write.
Qed.
Lemma create_step s sv id doc : mt_inv (s, sv) → is_str id → mt_id id → rid_id (doc_id doc) = id → mt_fit (doc_fields doc) →
  ∃ r s', Collections.create_inner coll id doc s = (r, s') ∧
    match r with
    | Ok rid => rid = doc_id doc ∧
        ∃ sv', maintain_stored ns db coll id (s', sv) = (Ok true, (s', sv')) ∧ mt_inv (s', sv')
    | Err _ => s' = s
    end.
Proof using All.
  intros Hs Hid Hmid Hdoc Hfit. pose proof (mt_table _ Hs) as Hi. simpl in Hi.
  destruct (create_inner_run coll Hwf s id doc Hub Hi Hid Hdoc) as (r & s' & Hr & [(-> & _ & Hi' & Hw)|([e ->] & -> & _)]);
    [|by exists (Err e), s].
  exists (Ok (doc_id doc)), s'. split_and!; [done|done|]. by eapply maintain_stored_run.
Qed.

(** *** Statements *)
(** A handler over the store and the services. *)
Abbreviation XM := (SE (S * SearchServices W) Failure).
(** The run with services agrees with the run on the store alone; what it
    returns satisfies [Q], and an error keeps the invariant. *)
Definition tracks {A} (Q : A → S * SearchServices W → Prop) (m : XM A) (m0 : M S A) (st : S * SearchServices W) : Prop :=
  ∃ r s' sv', m0 st.1 = (r, s') ∧ m st = (from_store r, (s', sv')) ∧
    match r with Ok a => Q a (s', sv') | Err _ => mt_inv (s', sv') end.
(** Between statements: either everything is committed or nothing was done. *)
Definition settled {A} (st0 : S * SearchServices W) (_ : A) (st : S * SearchServices W) : Prop := mt_done st ∨ st = st0.

Lemma tracks_ret {A} (Q : A → _ → Prop) a st : Q a st → tracks Q (mret a) (mret a) st.
Proof. intros Hs. exists (Ok a), st.1, st.2. destruct st. by split_and!. Qed.
Lemma tracks_bind {A B} (P : A → _ → Prop) (Q : B → _ → Prop) (m : XM A) m0 (f : A → XM B) f0 st :
  tracks P m m0 st → (∀ a st', P a st' → tracks Q (f a) (f0 a) st') → tracks Q (m ≫= f) (m0 ≫= f0) st.
Proof.
  intros (r & s' & sv' & H0' & Hm & Hs) Hf. destruct r as [a|e].
  - destruct (Hf a (s', sv') Hs) as (r & s2 & sv2 & E0 & E & Hs2). exists r, s2, sv2.
    by rewrite (SE_bind_ok _ _ _ _ _ H0'), (SE_bind_ok _ _ _ _ _ Hm).
  - exists (Err e), s', sv'. by rewrite (SE_bind_err _ _ _ _ _ H0'), (SE_bind_err _ _ _ _ _ Hm).
Qed.
(** A read, and a step of the store with its maintenance. *)
Lemma tracks_read {A} (m : M S A) r st : mt_inv st → m st.1 = (r, st.1) → tracks (λ _ st', st' = st) (store m) m st.
Proof. intros Hs E. destruct st as [s sv]. exists r, s, sv. rewrite (store_run _ _ _ _ _ E). by destruct r. Qed.
Lemma tracks_load st : mt_inv st →
  Collections.load ns db table st.1 = (Ok coll, st.1) ∧ store (Collections.load ns db table) st = (Ok coll, st).
Proof. intros Hs. destruct st as [s sv]. pose proof (mt_load _ Hs) as E. by rewrite (store_run _ _ _ _ _ E). Qed.
(** Skipping the load on both sides. *)
Lemma tracks_loaded {A} Q (f : Collection → XM A) f0 st : mt_inv st →
  tracks Q (f coll) (f0 coll) st →
  tracks Q (coll ← store (Collections.load ns db table); f coll) (coll ← Collections.load ns db table; f0 coll) st.
Proof.
  intros Hs (r & s' & sv' & E0 & E & Hs'). destruct (tracks_load st Hs) as [L0 L]. exists r, s', sv'.
  by rewrite (SE_bind_ok _ _ _ _ _ L0), (SE_bind_ok _ _ _ _ _ L).
Qed.
Lemma tracks_commit {A} (b : bool) (a : A) st st0 : mt_inv st → (b = false → st = st0) →
  tracks (settled st0) (_ ← (if b then commit_search else mret tt); mret a) (mret a) st.
Proof.
  intros Hs Hb. destruct st as [s sv]. destruct b; cycle 1.
  { exists (Ok a), s, sv. split_and!; [done..|]. right. by apply Hb. }
  destruct (mt_commit s sv Hs) as (sv' & E & Hd). exists (Ok a), s, sv'. split; [done|]. split; [|by left].
  by rewrite (SE_bind_ok _ _ _ _ _ E).
Qed.
Lemma tracks_merge {A} Q id fields (f : bool → XM A) f0 st : mt_inv st → mt_lit fields →
  (∀ st', mt_inv st' → tracks Q (f true) f0 st') →
  tracks Q (_ ← store (Collections.merge coll id (to_fields fields)); stored ← maintain_stored ns db coll id; f stored)
           (_ ← Collections.merge coll id (to_fields fields); f0) st.
Proof using All.
  intros Hs Hl Hf. destruct st as [s sv]. destruct (merge_step s sv id fields Hs Hl) as (r & s' & Hr & Hm).
  pose proof (store_run _ _ sv _ _ Hr) as Hr'. destruct r as [[]|e].
  - destruct Hm as (sv' & Hm & Hs'). destruct (Hf (s', sv') Hs') as (r & s2 & sv2 & E0 & E & Hs2). exists r, s2, sv2.
    by rewrite (SE_bind_ok _ _ _ _ _ Hr), (SE_bind_ok _ _ _ _ _ Hr'), (SE_bind_ok _ _ _ _ _ Hm).
  - subst s'. exists (Err e), s, sv. by rewrite (SE_bind_err _ _ _ _ _ Hr), (SE_bind_err _ _ _ _ _ Hr').
Qed.
Lemma tracks_delete {A} Q id (k : XM unit) (f : bool → XM A) (g0 : bool → M S A) st : mt_inv st →
  (∀ st', mt_inv st' → tracks Q (_ ← k; f true) (g0 true) st') → tracks Q (f false) (g0 false) st →
  tracks Q (existed ← store (Collections.delete coll id);
            _ ← (if existed : bool then _ ← maintain_search_indexes ns db table id None ixs; k else mret tt); f existed)
           (existed ← Collections.delete coll id; g0 existed) st.
Proof using All.
  intros Hs Ht Hf. destruct st as [s sv]. destruct (delete_step s sv id Hs) as (b & s' & Hr & Hm).
  pose proof (store_run _ _ sv _ _ Hr) as Hr'. unfold tracks. rewrite (SE_bind_ok _ _ _ _ _ Hr), (SE_bind_ok _ _ _ _ _ Hr').
  destruct b; [|subst s'; exact Hf]. destruct Hm as (sv' & Hm & Hs').
  destruct (Ht (s', sv') Hs') as (r & s2 & sv2 & E0 & E & Hs2). exists r, s2, sv2. split_and!; [done| |done].
  rewrite <- E. unfold mbind, SE_bind. unfold mbind, SE_bind in Hm. by rewrite Hm.
Qed.
Lemma candidates_ro filter : read_only (candidates coll filter : M S (list Document)).
Proof using All.
  assert (∀ p, read_only (kv_prefix_scan p : M S _)) by (intros p s r s'; rewrite prefix_scan_law; congruence).
  assert (∀ lo hi, read_only (kv_scan lo hi : M S _)) by (intros lo hi s r s'; rewrite scan_law; congruence).
  assert (∀ ks, read_only (kv_multi_get ks : M S _)) by (intros ks s r s'; rewrite multi_get_law; congruence).
  unfold candidates, run_index_plan, Collections.find_ids_for_scan, find_ids, Collections.get_many, Collections.scan_all,
    DllbStorage.scan, DllbStorage.prefix_scan, DllbStorage.multi_get. atomic_solve.
Qed.

(** The count of a loop tells whether it did anything. *)
Definition counted (n : nat) (st0 : S * SearchServices W) (n' : nat) (st : S * SearchServices W) : Prop :=
  mt_inv st ∧ n ≤ n' ∧ (n' = n → st = st0).
Lemma tracks_counted n st0 st (m : XM nat) m0 : tracks (counted (n + 1) st) m m0 st → tracks (counted n st0) m m0 st.
Proof.
  intros (r & s' & sv' & E0 & E & Hs). exists r, s', sv'. split_and!; [done..|]. destruct r; [|done].
  destruct Hs as (Hi & Hle & _). split_and!; [done|lia|]. lia.
Qed.
Lemma update_rows_tracks filter fields docs : ∀ n st, mt_inv st → mt_lit fields →
  tracks (counted n st) (update_rows ns db coll filter (to_fields fields) docs n)
    (Executor.update_rows coll filter (to_fields fields) docs n) st.
Proof using All.
  induction docs as [|doc docs IH]; intros n st Hs Hl; cbn [update_rows Executor.update_rows]; [by apply tracks_ret|].
  destruct (keep filter doc); [|by apply IH]. apply (tracks_merge _ _ _ (λ _, _)); [done|done|].
  intros st' Hs'. by apply tracks_counted, IH.
Qed.
Lemma delete_rows_tracks filter docs : ∀ n st, mt_inv st →
  tracks (counted n st) (delete_rows ns db coll filter docs n) (Executor.delete_rows coll filter docs n) st.
Proof using All.
  induction docs as [|doc docs IH]; intros n st Hs; cbn [delete_rows Executor.delete_rows]; [by apply tracks_ret|].
  destruct (keep filter doc); [|by apply IH].
  pose proof (tracks_delete (counted n st) (rid_id (doc_id doc)) (mret tt)
    (λ existed : bool, delete_rows ns db coll filter docs (if existed then n + 1 else n))
    (λ existed : bool, Executor.delete_rows coll filter docs (if existed then n + 1 else n)) st Hs) as (r & s' & sv' & E0 & E & Hs').
  - intros st' Hs'. by apply tracks_counted, IH.
  - by apply IH.
  - exists r, s', sv'. split_and!; [exact E0| |done]. rewrite <- E. unfold mbind, SE_bind.
    destruct (store _ st) as [[[]|e] st1]; [|done..]. unfold maintain_search_indexes. simpl co_table. simpl Collections.indexes.
    by destruct (for_each _ _ _) as [[[]|e] st2].
Qed.

Lemma create_stored_step s sv uuid id fields on_conflict : mt_inv (s, sv) →
  is_str (default uuid id) → mt_id (default uuid id) → mt_lit fields →
  match on_conflict with Some (OnUpdateSet update_set) => mt_lit update_set | _ => True end →
  ∃ r s', create_stored coll uuid table id fields on_conflict s = (r, s') ∧
    match r with
    | Ok (_, id') => ∃ sv', maintain_stored ns db coll id' (s', sv) = (Ok true, (s', sv')) ∧ mt_inv (s', sv')
    | Err _ => s' = s
    end.
Proof using All.
  intros Hs Hid Hmid Hl Hc. unfold create_stored. destruct on_conflict as [conflict|].
  - destruct id as [id|]; [|by eexists _, s]. simpl in Hid, Hmid. rewrite (SE_bind_ok _ _ s id s) by done. cbv zeta.
    set (uf := match conflict with OnUpdate => to_fields fields | OnUpdateSet us => to_fields us end).
    assert (∃ lits, uf = to_fields lits ∧ mt_lit lits) as (lits & -> & Hlits).
    { destruct conflict as [|us]; [by exists fields|by exists us]. }
    pose proof (mt_table _ Hs) as Hi. simpl in Hi.
    assert (∃ r s', Collections.upsert coll id (set_fields (Documents.new (RecordIds.new table id)) fields) (to_fields lits) s = (r, s') ∧
      match r with
      | Ok (rid, _) => rid = RecordIds.new table id ∧
          ∃ sv', maintain_stored ns db coll id (s', sv) = (Ok true, (s', sv')) ∧ mt_inv (s', sv')
      | Err _ => s' = s
      end) as (r & s' & Hr & Hm).
    { unfold Collections.upsert. rewrite (SE_bind_ok _ _ s _ s (contains_run coll s id Hi)). case_bool_decide.
      - destruct (merge_step s sv id lits Hs Hlits) as (r & s' & Hr & Hm). destruct r as [[]|e].
        + rewrite (SE_bind_ok _ _ _ _ _ Hr). by eexists _, s'.
        + rewrite (SE_bind_err _ _ _ _ _ Hr). by eexists _, s'.
      - destruct (create_step s sv id (set_fields (Documents.new (RecordIds.new table id)) fields) Hs Hid Hmid) as (r & s' & Hr & Hm);
          [by rewrite set_fields_id|by apply mt_new|]. destruct r as [rid|e].
        + rewrite (SE_bind_ok _ _ _ _ _ Hr). eexists _, s'. split; [done|]. destruct Hm as [-> Hm]. split; [by rewrite set_fields_id|done].
        + rewrite (SE_bind_err _ _ _ _ _ Hr). by eexists _, s'. }
    destruct r as [[rid created]|e].
    + destruct Hm as [-> Hm]. rewrite (SE_bind_ok _ _ _ _ _ Hr). by eexists _, s'.
    + rewrite (SE_bind_err _ _ _ _ _ Hr). by eexists _, s'.
  - set (doc := set_fields (Documents.new match id with Some i => RecordIds.new table i | None => RecordIds.generate uuid table end) fields).
    assert (∃ doc', match id with Some id => Collections.create_with_id coll id doc | None => Collections.create coll doc end
        = Collections.create_inner coll (default uuid id) doc' ∧ rid_id (doc_id doc') = default uuid id ∧
        mt_fit (doc_fields doc')) as (doc' & -> & Hdid & Hfit).
    { pose proof (mt_new match id with Some i => RecordIds.new table i | None => RecordIds.generate uuid table end fields Hl) as Hfit.
      fold doc in Hfit. destruct id as [id|].
      - by exists (Collections.set_id coll id doc).
      - exists doc. unfold Collections.create. assert (rid_id (doc_id doc) = uuid) as Hu by (unfold doc; by rewrite set_fields_id).
        rewrite Hu. done. }
    destruct (create_step s sv (default uuid id) doc' Hs Hid Hmid Hdid Hfit) as (r & s' & Hr & Hm). destruct r as [rid|e].
    + destruct Hm as [-> Hm]. rewrite (SE_bind_ok _ _ _ _ _ Hr). eexists _, s'. split; [done|]. simpl. by rewrite Hdid.
    + rewrite (SE_bind_err _ _ _ _ _ Hr). by eexists _, s'.
Qed.
(** The storage part of a [CREATE] is all of it without services. *)
Lemma exec_create_stored uuid id fields on_conflict s : Collections.load ns db table s = (Ok coll, s) →
  Executor.exec_create ns db uuid table id fields on_conflict s =
  ('(q, _) ← create_stored coll uuid table id fields on_conflict; mret q) s.
Proof.
  intros Hl. unfold Executor.exec_create, create_stored. rewrite (SE_bind_ok _ _ _ _ _ Hl). cbv zeta.
  destruct on_conflict as [conflict|].
  - destruct id as [id|]; [|done]. unfold mbind, SE_bind. simpl. by destruct (Collections.upsert _ _ _ _ s) as [[[rid []]|e] s'].
  - unfold mbind, SE_bind. destruct id as [id|]; [by destruct (Collections.create_with_id _ _ _ s) as [[]]|].
    by destruct (Collections.create _ _ s) as [[]].
Qed.
Lemma create_tracks uuid id fields on_conflict st : mt_inv st →
  is_str (default uuid id) → mt_id (default uuid id) → mt_lit fields →
  match on_conflict with Some (OnUpdateSet update_set) => mt_lit update_set | _ => True end →
  tracks (settled st) (exec_create ns db uuid table id fields on_conflict)
    (Executor.exec_create ns db uuid table id fields on_conflict) st.
Proof using All.
  intros Hs Hid Hmid Hl Hc. destruct st as [s sv]. destruct (tracks_load _ Hs) as [L0 L]. simpl in L0.
  destruct (create_stored_step s sv uuid id fields on_conflict Hs Hid Hmid Hl Hc) as (r & s' & Hr & Hm).
  unfold tracks, exec_create. simpl fst. rewrite (exec_create_stored _ _ _ _ _ L0), (SE_bind_ok _ _ _ _ _ L).
  pose proof (store_run _ _ sv _ _ Hr) as Hr'. destruct r as [[q id']|e].
  - destruct Hm as (sv1 & Hm & Hs'). destruct (mt_commit s' sv1 Hs') as (sv' & Hcm & Hd).
    exists (Ok q), s', sv'. rewrite (SE_bind_ok _ _ _ _ _ Hr). split; [done|].
    rewrite (SE_bind_ok _ _ _ _ _ Hr'), (SE_bind_ok _ _ _ _ _ Hm). split; [|by left].
    by rewrite (SE_bind_ok _ _ _ _ _ Hcm).
  - subst s'. exists (Err e), s, sv. by rewrite (SE_bind_err _ _ _ _ _ Hr), (SE_bind_err _ _ _ _ _ Hr').
Qed.

Lemma update_tracks target fields filter st : mt_inv st → mt_lit fields →
  match target with FromRecord r => rr_table r = table | FromTable t => t = table end →
  tracks (settled st) (exec_update ns db target fields filter) (Executor.exec_update ns db target fields filter) st.
Proof using All.
  intros Hs Hl Ht. destruct target as [t|r]; unfold exec_update, Executor.exec_update; rewrite Ht;
    (apply (tracks_loaded _ (λ coll, _) (λ coll, _)); [done|]).
  - destruct (scan_all_run coll Hwf st.1 (mt_table _ Hs)) as (docs & Hscan & _).
    eapply tracks_bind; [by eapply tracks_read|]. intros docs' st1 ->.
    eapply tracks_bind; [by apply update_rows_tracks|]. intros n st2 (Hs2 & _ & Hn). apply tracks_commit; [done|].
    intros E%Nat.ltb_ge. apply Hn. lia.
  - eapply tracks_bind; [eapply tracks_read; [done|]; apply get_run, (mt_table _ Hs)|].
    intros [d|] st1 ->; [|by apply tracks_ret; right]. apply (tracks_merge _ _ _ (λ stored, _)); [done|done|].
    intros st2 Hs2. by apply (tracks_commit true).
Qed.
Lemma delete_tracks id st : mt_inv st →
  tracks (settled st) (exec_delete ns db table id) (Executor.exec_delete ns db table id) st.
Proof using All.
  intros Hs. apply (tracks_loaded _ (λ coll, _) (λ coll, _)); [done|].
  apply (tracks_delete _ id commit_search (λ existed, mret (QDeleted existed)) (λ existed, mret (QDeleted existed))); [done| |].
  - intros st' Hs'. by apply (tracks_commit true).
  - apply tracks_ret. by right.
Qed.
Lemma delete_where_tracks filter st : mt_inv st →
  tracks (settled st) (exec_delete_where ns db table filter) (Executor.exec_delete_where ns db table filter) st.
Proof using All.
  intros Hs. apply (tracks_loaded _ (λ coll, _) (λ coll, _)); [done|].
  destruct (candidates coll filter st.1) as [r s'] eqn:E. pose proof (candidates_ro _ _ _ _ E) as ->.
  eapply tracks_bind; [by eapply tracks_read|]. intros docs st1 ->.
  eapply tracks_bind; [by apply delete_rows_tracks|]. intros n st2 (Hs2 & _ & Hn). apply tracks_commit; [done|].
  intros Hz%Nat.ltb_ge. apply Hn. lia.
Qed.

Lemma execute_tracks `{DebugFmt, KvCompact S} o stmt st : mt_inv st → writes_ok table mt_id mt_lit o stmt →
  ∃ r s' sv', Statements.execute ns db o stmt st.1 = (match r with Ok q => Ok (Some q) | Err e => Err e end, s') ∧
    execute ns db o stmt st = (from_store r, (s', sv')) ∧
    match r with Ok _ => mt_done (s', sv') ∨ (s', sv') = st | Err _ => mt_inv (s', sv') end.
Proof using All.
  intros Hs Hok.
  assert (∀ m0, tracks (settled st) (execute ns db o stmt) m0 st →
    ∃ r s' sv', (r ← m0; mret (Some r)) st.1 = (match r with Ok q => Ok (Some q) | Err e => Err e end, s') ∧
      execute ns db o stmt st = (from_store r, (s', sv')) ∧
      match r with Ok _ => mt_done (s', sv') ∨ (s', sv') = st | Err _ => mt_inv (s', sv') end) as Hm.
  { intros m0 (r & s' & sv' & E0 & E & Hs'). exists r, s', sv'. split_and!; [|done..].
    unfold mbind, SE_bind. rewrite E0. by destruct r. }
  destruct stmt as [t id fields oc| |t id|t filter| | |target fields filter| | | | | | | | | | | | | |]; try done; simpl in Hok.
  - destruct Hok as (-> & Hid & Hmid & Hl & Hc). apply Hm. by apply create_tracks.
  - subst t. apply Hm, delete_tracks, Hs.
  - subst t. apply Hm, delete_where_tracks, Hs.
  - apply Hm. destruct target; destruct Hok; by apply update_tracks.
Qed.
End table.

(** ** Ranked rows *)
Lemma omap_map_ext {A B C} (f : A → B) (g : B → option C) (h : A → option C) l :
  (∀ x, x ∈ l → g (f x) = h x) → omap g (map f l) = omap h l.
Proof.
  induction l as [|x l IH]; intros Hl; [done|].
  specialize (IH (λ y Hy, Hl y (list_elem_of_further _ _ _ Hy))). cbn [map omap list_omap] in *. rewrite (Hl x) by left. by rewrite IH.
Qed.
Section ranked.
Context `{CodeIntel} {Hit : Type} (hit_key : Hit → string) (scores : Hit → Fields) (by_id : gmap string Document)
  (filter : option WhereClause) (table : string) (limit : nat).
Definition ranked_row (h : Hit) : option Fields :=
  doc ← by_id !! hit_key h;
  if keep filter doc then Some (oextend (oinsert "id"%string (VString (table ++ ":" ++ hit_key h)) (doc_fields doc)) (scores h))
  else None.
Lemma rank_loop_spec hits : ∀ rows, length rows < max 1 limit →
  rank_loop hit_key scores by_id filter table limit hits rows =
  rows ++ take (max 1 limit - length rows) (omap ranked_row hits).
Proof.
  induction hits as [|h hits IH]; intros rows Hr; cbn [rank_loop omap list_omap].
  { by rewrite take_nil, app_nil_r. }
  unfold ranked_row at 1. destruct (by_id !! hit_key h) as [doc|]; cbn [mbind option_bind]; [|by apply IH].
  destruct (keep filter doc); [|by apply IH]. rewrite length_app. simpl length.
  replace (max 1 limit - length rows) with (S (max 1 limit - length rows - 1)) by lia. cbn [take].
  destruct (Nat.leb_spec limit (length rows + 1)).
  - replace (max 1 limit - length rows - 1) with 0 by lia. by rewrite take_0.
  - rewrite IH by (rewrite length_app; simpl; lia). rewrite length_app, <- app_assoc. simpl. do 3 f_equal. lia.
Qed.
End ranked.
Lemma by_id_lookup (docs : list Document) : NoDup (map (λ d, rid_id (doc_id d)) docs) →
  ∀ doc, doc ∈ docs → by_id_of docs !! rid_id (doc_id doc) = Some doc.
Proof.
  unfold by_id_of. generalize (∅ : gmap string Document). induction docs as [|x docs IH]; intros m Hnd doc Hd;
    [by apply not_elem_of_nil in Hd|]. simpl in Hnd. apply NoDup_cons in Hnd as [Hx Hnd]. simpl.
  apply elem_of_cons in Hd as [->|Hd]; [|by apply IH]. clear IH Hnd.
  enough (∀ m, m !! rid_id (doc_id x) = Some x →
    fold_left (λ m d, <[rid_id (doc_id d) := d]> m) docs m !! rid_id (doc_id x) = Some x) as He by (apply He, lookup_insert_eq).
  induction docs as [|y docs IH]; intros m' Hm; simpl; [done|]. apply not_elem_of_cons in Hx as [Hne Hx]. apply IH; [done|].
  rewrite lookup_insert_ne; [done|]. by apply not_eq_sym.
Qed.

Section stored.
Context {S W : Type} `{KL : KvLaws S} `{FL : FieldsCodecLaws} `{DefCodec} `{CodeIntel} `{Tantivy W, HashOrder, Unicode}.
Context (ns db table : string) (ixs : list IndexDefinition).
Abbreviation coll := (MkCollection ns db table None ixs).
Implicit Types (s : S) (sv : SearchServices W).

Lemma by_id_stored c ids id : NoDup ids → id ∈ ids → by_id_of (omap (stored c coll) ids) !! id = stored c coll id.
Proof.
  intros Hnd Hid. assert (NoDup (map (λ d, rid_id (doc_id d)) (omap (stored c coll) ids))) as Hnd'.
  { clear Hid. induction Hnd as [|x l Hx Hnd IH]; [constructor|]. cbn [omap list_omap].
    destruct (stored c coll x) as [doc|] eqn:E; [|done]. simpl. constructor; [|done].
    rewrite (stored_id _ _ _ _ E). intros (d & Ed & (y & Hy & Hd)%list_elem_of_omap)%list_elem_of_fmap.
    rewrite (stored_id _ _ _ _ Hd) in Ed. by subst. }
  destruct (stored c coll id) as [doc|] eqn:E.
  - rewrite <- (stored_id _ _ _ _ E). apply by_id_lookup; [done|]. apply list_elem_of_omap. eauto.
  - unfold by_id_of. clear Hnd'. assert (∀ d, d ∈ omap (stored c coll) ids → rid_id (doc_id d) ≠ id) as Hne.
    { intros d (y & _ & Hd)%list_elem_of_omap Ed. rewrite (stored_id _ _ _ _ Hd) in Ed. congruence. }
    revert Hne. generalize (∅ : gmap string Document) (lookup_empty (M := gmap string) (A := Document) id).
    induction (omap (stored c coll) ids) as [|d l IH]; intros m Hm Hne; simpl; [done|]. apply IH.
    + rewrite lookup_insert_ne; [done|]. apply Hne. left.
    + intros d' Hd'. apply Hne. by right.
Qed.
(** The row of a hit: nothing if its document is gone or filtered out. *)
Definition stored_row {Hit} (hit_key : Hit → string) (scores : Hit → Fields) (c : OMap bytes bytes)
    (filter : option WhereClause) (h : Hit) : option Fields :=
  doc ← stored c coll (hit_key h);
  if keep filter doc then Some (oextend (oinsert "id"%string (VString (table ++ ":" ++ hit_key h)) (doc_fields doc)) (scores h))
  else None.
Lemma ranked_rows_run {Hit} (hit_key : Hit → string) (scores : Hit → Fields) hits filter limit s sv :
  coll_inv (contents s) coll → NoDup (map hit_key hits) → (limit ≠ 0 ∨ hits = []) →
  ranked_rows ns db hit_key scores table hits filter limit (s, sv) =
  (Ok (QRows (take limit (omap (stored_row hit_key scores (contents s) filter) hits))), (s, sv)).
Proof using KL.
  intros Hi Hnd Hlim. unfold ranked_rows. set (ids := map hit_key hits) in *.
  rewrite (SE_bind_ok _ _ _ (omap (stored (contents s) coll) ids) (s, sv)).
  2: { rewrite (store_run _ _ _ _ _ (get_many_run (Collections.new ns db table) s ids (coll_inv_new _ _ _ _ _ _ Hi))). done. }
  unfold mret, SE_ret. do 3 f_equal. rewrite rank_loop_spec by (simpl; lia). simpl length. rewrite Nat.sub_0_r.
  assert (omap (ranked_row hit_key scores (by_id_of (omap (stored (contents s) coll) ids)) filter table) hits =
    omap (stored_row hit_key scores (contents s) filter) hits) as ->.
  { rewrite <- (map_id hits) at 1. apply omap_map_ext. intros h Hh. unfold ranked_row, stored_row.
    by rewrite by_id_stored by (done || by apply list_elem_of_fmap_2). }
  simpl. destruct Hlim as [Hne| ->]; [by rewrite Nat.max_r by lia|]. simpl. by rewrite !take_nil.
Qed.

(** The one search index of a table. *)
Lemma find_index_run field want def st : Collections.load ns db table st.1 = (Ok coll, st.1) →
  def ∈ ixs → (∀ d, d ∈ ixs → d = def ∨ IndexDefinitions.is_btree d = true) → is_search_index field want def = true →
  find_search_index ns db table field want st = (Ok def, st).
Proof.
  intros Hload Hindex Honly Hdef. destruct st as [s sv]. unfold find_search_index.
  pose proof (load_definitions ns db table ixs _ Hload) as Hl. simpl in Hl.
  rewrite (SE_bind_ok _ _ _ ixs (s, sv)) by (by rewrite (store_run _ _ _ _ _ Hl)).
  assert (List.find (is_search_index field want) ixs = Some def) as ->; [|done].
  destruct (List.find (is_search_index field want) ixs) as [d|] eqn:E.
  - apply List.find_some in E as [Hd Hm]. apply list_elem_of_In in Hd. destruct (Honly d Hd) as [->|Hb]; [done|].
    unfold is_search_index, IndexDefinitions.is_btree in *. destruct (ix_kind d); [|done..].
    destruct want; by rewrite andb_false_r in Hm.
  - by rewrite (List.find_none _ _ E def (proj1 (list_elem_of_In _ _) Hindex)) in Hdef.
Qed.
Lemma index_of name field kind want :
  match kind, want with FullText _, KFullText | Index.Vector _ _, KVector => True | _, _ => False end →
  is_search_index field want (MkIndexDefinition name [field] false kind) = true.
Proof. intros Hk. unfold is_search_index. simpl. rewrite bool_decide_eq_true_2 by done. by destruct kind, want. Qed.
End stored.

(** ** Tables without search indexes *)
Section plain.
Context {S W : Type} `{KL : KvLaws S} `{FL : FieldsCodecLaws} `{DefCodec} `{CodeIntel} `{Tantivy W, HashOrder, Unicode}.
Context (ns db : string).

Record plain_table (table : string) (s : S) (ixs : list IndexDefinition) : Prop := {
  pt_wf : coll_wf (MkCollection ns db table None ixs);
  pt_load : Collections.load ns db table s = (Ok (MkCollection ns db table None ixs), s);
  pt_inv : coll_inv (contents s) (MkCollection ns db table None ixs);
  pt_btree d : d ∈ ixs → IndexDefinitions.is_btree d = true
}.
Lemma maintain_plain table id doc ixs st : (∀ d, d ∈ ixs → IndexDefinitions.is_btree d = true) →
  maintain_search_indexes (S := S) (W := W) ns db table id doc ixs st = (Ok tt, st).
Proof.
  unfold maintain_search_indexes. induction ixs as [|d ixs IH]; intros Hb; cbn [for_each]; [done|].
  rewrite (SE_bind_ok _ _ st tt st); [apply IH; intros; apply Hb; by right|].
  unfold maintain_index. specialize (Hb d ltac:(left)). unfold IndexDefinitions.is_btree in Hb.
  destruct (head (ix_fields d)); [|done]. by destruct (ix_kind d).
Qed.
Definition plain_maintained table ixs (sv : SearchServices W) (Hidle : text_idle sv)
    (Hb : ∀ d, d ∈ ixs → IndexDefinitions.is_btree d = true) : Maintained (S := S) (W := W) ns db table ixs.
Proof using KL.
  refine {| mt_inv st := Collections.load ns db table st.1 = (Ok (MkCollection ns db table None ixs), st.1) ∧
              coll_inv (contents st.1) (MkCollection ns db table None ixs) ∧ st.2 = sv;
            mt_done st := Collections.load ns db table st.1 = (Ok (MkCollection ns db table None ixs), st.1) ∧
              coll_inv (contents st.1) (MkCollection ns db table None ixs) ∧ st.2 = sv;
            mt_id _ := True; mt_fit _ := True; mt_lit _ := True |}; try done.
  - by intros st [? _].
  - by intros st (_ & ? & _).
  - intros s sv' (Hl & Hi & E). simpl in E. subst sv'. exists sv. split; [by apply commit_run|done].
  - intros s sv' id new s' (Hl & _ & Hsv) Hi _ Hw _. simpl in *. subst sv'. exists sv. split; [by apply maintain_plain|].
    split_and!; [|done|done]. apply (load_frame ns db table ixs s); [done|]. intros k Hk.
    destruct (catalog_not_written ns db table ixs k id Hk). by apply (wr_frame _ _ _ _ _ Hw).
Defined.

Lemma remove_index_plain name table s (sv : SearchServices W) ixs : plain_table table s ixs →
  exec_remove_index ns db name table (s, sv) =
  let '(r, s') := Executor.exec_remove_index ns db name table s in (from_store r, (s', sv)).
Proof.
  intros [_ Hl _ Hb]. pose proof (load_definitions ns db table ixs s Hl) as Hd.
  unfold exec_remove_index, Executor.exec_remove_index. rewrite (SE_bind_ok _ _ _ _ _ Hd).
  rewrite (SE_bind_ok _ _ _ _ _ (store_run _ _ sv _ _ Hd)). cbv zeta. unfold mbind, SE_bind, store, mret, SE_ret. simpl.
  destruct (DllbStorage.scan_prefix_keys _ s) as [[keys|e] s1]; simpl; [|done].
  destruct (DllbStorage.write_batch _ _ s1) as [[[]|e] s2]; simpl; [|done].
  destruct (List.find _ ixs) as [d|] eqn:Ef; [|done]. apply List.find_some in Ef as [Hin _].
  specialize (Hb d (proj2 (list_elem_of_In _ _) Hin)). unfold IndexDefinitions.is_btree in Hb. by destruct (ix_kind d).
Qed.
End plain.

(** The tables a statement writes have no search index, and it neither
    defines nor uses one; a [CREATE] without an id draws a valid one. *)
Definition plain_statement {S : Type} `{KvStore S, KvView S} `{FieldsCodec} `{DefCodec} (ns db : string) (s : S) (o : Oracle)
    (stmt : Statement) : Prop :=
  match stmt with
  | Create t id _ _ => (∃ ixs, plain_table ns db t s ixs) ∧ is_str (default (o_uuid o 0) id)
  | Ast.Delete t _ | DeleteWhere t _ | Update (FromTable t) _ _ | RemoveIndex _ t => ∃ ixs, plain_table ns db t s ixs
  | Update (FromRecord r) _ _ => ∃ ixs, plain_table ns db (rr_table r) s ixs
  | DefineFulltextIndex _ _ _ _ | DefineVectorIndex _ _ _ _ _ | Search _ _ _ _ _ | VectorSearch _ _ _ _ _
  | HybridSearch _ _ _ _ _ _ _ _ => False
  | _ => True
  end.
(** The answer of a handler without services, as one with services gives it. *)
Definition plain_answer (r : result (option QueryResult)) : Result Failure QueryResult :=
  match r with Ok (Some q) => Ok q | Ok None => Err Panicked | Err e => Err (Fail e) end.

(** A statement answers and stores with the services exactly as without them. *)
Lemma execute_transparent {S W : Type} `{KL : KvLaws S} `{FL : FieldsCodecLaws} `{DefCodec} `{CodeIntel}
    `{DebugFmt, KvCompact S} `{Tantivy W, HashOrder, Unicode} (ns db : string) (o : Oracle) (stmt : Statement)
    (s : S) (sv : SearchServices W) :
  text_idle sv → plain_statement ns db s o stmt →
  execute ns db o stmt (s, sv) =
    let '(r, s') := Statements.execute ns db o stmt s in (plain_answer r, (s', sv)).
Proof.
  intros Hidle Hp.
  assert (∀ t ixs, plain_table ns db t s ixs → writes_ok t (λ _, True) (λ _, True) o stmt →
    execute ns db o stmt (s, sv) = let '(r, s') := Statements.execute ns db o stmt s in (plain_answer r, (s', sv))) as Hw.
  { intros t ixs [Hwf Hl Hi Hb] Hok.
    assert (unique_btree (MkCollection ns db t None ixs)) as Hub by (intros d Hd _; by apply Hb).
    destruct (execute_tracks ns db t ixs Hwf Hub (Mt := plain_maintained ns db t ixs sv Hidle Hb) o stmt (s, sv))
      as (r & s' & sv' & E0 & E & Hd); [by split_and!|done|].
    assert (sv' = sv) as -> by (destruct r; [destruct Hd as [(_ & _ & Hd)|[= _ ->]]|destruct Hd as (_ & _ & Hd)]; done).
    simpl in E0. rewrite E0, E. by destruct r. }
  assert (execute ns db o stmt (s, sv) = store_or_panic (Statements.execute ns db o stmt) (s, sv) →
    execute ns db o stmt (s, sv) = let '(r, s') := Statements.execute ns db o stmt s in (plain_answer r, (s', sv))) as Hrest.
  { intros ->. unfold store_or_panic, mbind, SE_bind, store, lift. simpl.
    destruct (Statements.execute ns db o stmt s) as [[[q|]|e] s']; done. }
  destruct stmt as [t id fields oc| |t id|t filter| | |target fields filter| | | |n t| | | | | | | | | |];
    try (by apply Hrest); try done.
  - destruct Hp as [[ixs Ht] Hid]. apply (Hw t ixs Ht). split_and!; try done. by destruct oc as [[]|].
  - destruct Hp as [ixs Ht]. by apply (Hw t ixs Ht).
  - destruct Hp as [ixs Ht]. by apply (Hw t ixs Ht).
  - destruct target as [t|r]; destruct Hp as [ixs Ht]; [by apply (Hw t ixs Ht)|by apply (Hw (rr_table r) ixs Ht)].
  - destruct Hp as [ixs Ht]. unfold execute. rewrite (remove_index_plain ns db n t s sv ixs Ht).
    unfold Statements.execute. unfold mbind, SE_bind. by destruct (Executor.exec_remove_index ns db n t s) as [[q|e] s'].
Qed.
