(* ===== verification/VectorService.v ===== *)
(** * Vector indexes follow the store

    The invariant that ties a vector index of the services to the documents
    of its table, its maintenance by every write, its rebuild on first use,
    and the answers of [VECTOR SEARCH]. *)

From stdpp Require Import gmap.
From S2P Require Export HnswTheorems ServiceRuns.
Import WithServices.
Open Scope nat_scope.

(** ** One vector index *)
Section index.
Context {S W : Type} `{Tantivy W, HashOrder, Unicode}.
Context (metric : DistanceMetric.t) `{!Comparable metric} (name : string) (dim : nat).
Implicit Types (sv : SearchServices W) (m : gmap string (list f32)).

Definition healthy (e : VectorEntry) m : Prop :=
  ve_dim e = dim ∧ ve_poisoned e = false ∧ ve_rebuild_poisoned e = false ∧ hnsw_rep metric (ve_index e) m.
(** The index represents [m]. *)
Definition holds sv (loaded : bool) m : Prop :=
  ∃ e, ss_vectors sv !! name = Some e ∧ healthy e m ∧ ve_loaded e = loaded.
(** The full-text side is untouched. *)
Definition same_text sv sv' : Prop := ss_fts sv' = ss_fts sv ∧ ss_engine sv' = ss_engine sv ∧ ss_open sv' = ss_open sv.
Lemma same_text_trans sv1 sv2 sv3 : same_text sv1 sv2 → same_text sv2 sv3 → same_text sv1 sv3.
Proof. intros (? & ? & ?) (? & ? & ?). split_and!; congruence. Qed.

Lemma holds_set sv f loaded m e : f (ss_vectors sv) !! name = Some e → healthy e m → ve_loaded e = loaded →
  ∃ sv', set_vectors f sv = (Ok tt, sv') ∧ holds sv' loaded m ∧ same_text sv sv'.
Proof. intros He Hm Hl. eexists. split; [done|]. split; [by exists e|done]. Qed.

Lemma write_index_run sv e f loaded m i : healthy e m → ve_loaded e = loaded → f (ve_index e) = Some i →
  ∀ m', hnsw_rep metric i m' →
  ∃ sv', write_index name e f sv = (Ok tt, sv') ∧ holds sv' loaded m' ∧ same_text sv sv'.
Proof.
  intros (Hd & Hp & Hr & Hm) Hl Hf m' Hm'. unfold write_index. rewrite Hp, Hf.
  eapply holds_set; [apply lookup_insert_eq|by split_and!|done].
Qed.
Lemma vector_insert_run sv loaded m id v : holds sv loaded m → length v = dim → good v →
  ∃ sv', vector_insert name id v sv = (Ok tt, sv') ∧ holds sv' loaded (<[id := v]> m) ∧ same_text sv sv'.
Proof.
  intros (e & He & Hh & Hl) Hv Hg. unfold vector_insert. rewrite (SE_bind_ok _ _ sv (Some e) sv) by (unfold vector_entry; by rewrite He).
  destruct Hh as (Hd & Hp & Hr & Hm). rewrite Hd, Hv, Nat.eqb_refl.
  destruct (draw sv) as [[level|] sv1] eqn:Ed; [|done]. rewrite (SE_bind_ok _ _ _ _ _ Ed). injection Ed as <- <-.
  destruct (hnsw_remove metric (ve_index e) m id Hm) as (i1 & Hi1 & Hr1 & _).
  destruct (insert_law (VectorIndexLaws := hnsw_laws metric) i1 (delete id m) (ss_draws sv 0) id v Hr1) as (i2 & Hi2 & Hr2);
    [apply lookup_delete_eq|done|]. rewrite insert_delete_eq in Hr2.
  edestruct (write_index_run (MkServices (ss_fts sv) (ss_engine sv) (ss_open sv) (ss_vectors sv) (λ n, ss_draws sv (Datatypes.S n)))
    e (λ hnsw, '(_, hnsw) ← Hnsw.remove id hnsw; Hnsw.insert (ss_draws sv 0) id v hnsw) loaded m i2)
    as (sv' & Hw & Hh' & Ht); [by split_and!|done| |exact Hr2|].
  { rewrite Hi1. exact Hi2. }
  exists sv'. split_and!; [exact Hw|done|done..].
Qed.
Lemma vector_remove_run sv loaded m id : holds sv loaded m →
  ∃ sv', vector_remove name id sv = (Ok tt, sv') ∧ holds sv' loaded (delete id m) ∧ same_text sv sv'.
Proof.
  intros (e & He & Hh & Hl). unfold vector_remove. rewrite (SE_bind_ok _ _ sv (Some e) sv) by (unfold vector_entry; by rewrite He).
  destruct (hnsw_remove metric (ve_index e) m id) as (i1 & Hi1 & Hr1 & _); [by destruct Hh as (_ & _ & _ & ?)|].
  eapply write_index_run; [done|done|by rewrite Hi1|exact Hr1].
Qed.
Lemma set_loaded_run sv loaded l m : holds sv loaded m →
  ∃ sv', set_vector_loaded name l sv = (Ok tt, sv') ∧ holds sv' l m ∧ same_text sv sv'.
Proof.
  intros (e & He & Hh & Hl). eapply holds_set; [by rewrite lookup_alter_eq, He|by destruct Hh as (? & ? & ? & ?)|done].
Qed.
End index.

(** ** The table and its index *)
Section table.
Context {S W : Type} `{KL : KvLaws S} `{FL : FieldsCodecLaws} `{DefCodec} `{CodeIntel} `{Tantivy W, HashOrder, Unicode}.
Context (ns db table : string) (ixs : list IndexDefinition).
Abbreviation coll := (MkCollection ns db table None ixs).
Context (Hwf : coll_wf coll) (Hub : unique_btree coll).
(** The one vector index of the table. *)
Context (name field metric_name : string) (dim : nat) (metric : DistanceMetric.t) `{!Comparable metric}.
Abbreviation def := (MkIndexDefinition name [field] false (Index.Vector dim metric_name)).
Context (Hmetric : parse_metric metric_name = Ok metric).
Implicit Types (s : S) (sv : SearchServices W) (c : OMap bytes bytes).

(** The vectors stored in the table. *)
Definition vectors c (id : string) : option (list f32) := stored c coll id ≫= doc_vector field.
(** They have the dimension of the index and comparable distances. *)
Definition vector_fits (v : list f32) : Prop := length v = dim ∧ good v.
Definition docs_fit c : Prop := ∀ id v, vectors c id = Some v → vector_fits v.

(** A loaded index represents the vectors stored, but for the records that
    [P] leaves out; one not loaded yet holds no other records. *)
Definition follows (P : string → Prop) sv c : Prop :=
  ss_vectors sv !! name = None ∨
  ∃ m loaded, holds metric name dim sv loaded m ∧
    if loaded : bool then ∀ id, P id → m !! id = vectors c id
    else ∀ id, is_Some (m !! id) → is_Some (vectors c id).

(** *** Rebuilding *)
Definition with_doc (m : gmap string (list f32)) (doc : Document) : gmap string (list f32) :=
  match doc_vector field doc with Some v => <[rid_id (doc_id doc) := v]> m | None => m end.
Lemma load_vectors_run s docs : ∀ sv m loaded,
  holds metric name dim sv loaded m → (∀ doc v, doc ∈ docs → doc_vector field doc = Some v → vector_fits v) →
  ∃ sv', for_each (load_vector name field) docs (s, sv) = (Ok tt, (s, sv')) ∧
    holds metric name dim sv' loaded (fold_left with_doc docs m) ∧ same_text sv sv'.
Proof.
  induction docs as [|doc docs IH]; intros sv m loaded Hh Hv; cbn [for_each fold_left]; [by exists sv|].
  assert (∃ sv1, load_vector name field doc (s, sv) = (Ok tt, (s, sv1)) ∧
    holds metric name dim sv1 loaded (with_doc m doc) ∧ same_text sv sv1) as (sv1 & Hr & Hh1 & Ht).
  { unfold load_vector, with_doc. destruct (doc_vector field doc) as [v|] eqn:Ev; [|by exists sv].
    destruct (Hv doc v) as [Hl Hg]; [left|done|].
    destruct (vector_insert_run metric name dim sv loaded m (rid_id (doc_id doc)) v Hh Hl Hg) as (sv1 & Hr & ? & ?).
    exists sv1. split_and!; [|done..]. by rewrite (services_run _ _ _ _ _ Hr). }
  rewrite (SE_bind_ok _ _ _ _ _ Hr). destruct (IH sv1 _ loaded Hh1) as (sv' & Hr' & Hh' & Ht');
    [intros; eapply Hv; [by right|done]|].
  exists sv'. split_and!; [done|done|by eapply same_text_trans..].
Qed.

Lemma with_doc_other docs : ∀ m id, (∀ doc, doc ∈ docs → rid_id (doc_id doc) ≠ id) → fold_left with_doc docs m !! id = m !! id.
Proof.
  induction docs as [|doc docs IH]; intros m id Hid; simpl; [done|]. rewrite IH by (intros; apply Hid; by right).
  unfold with_doc. destruct (doc_vector field doc); [|done]. rewrite lookup_insert_ne; [done|]. apply Hid. left.
Qed.
Lemma rebuilt_vectors c docs m :
  all_docs coll c docs → (∀ id, is_Some (m !! id) → is_Some (vectors c id)) →
  ∀ id, fold_left with_doc docs m !! id = vectors c id.
Proof.
  intros [Hnd Hall] Hm id. unfold vectors in *. destruct (stored c coll id) as [doc|] eqn:Hst; cbn [mbind option_bind].
  - apply Hall in Hst as [Hd Hid]. specialize (Hm id). revert m Hm. assert (stored c coll id = Some doc) as -> by (by apply Hall).
    cbn [mbind option_bind]. clear Hall. induction docs as [|x docs IH]; intros m Hm; [by apply not_elem_of_nil in Hd|].
    simpl in Hnd. apply NoDup_cons in Hnd as [Hx Hnd]. simpl. apply elem_of_cons in Hd as [<-|Hd].
    + rewrite with_doc_other.
      2: { intros y Hy E. apply Hx, list_elem_of_fmap. exists y. split; [congruence|done]. }
      unfold with_doc. rewrite Hid. destruct (doc_vector field doc) as [v|]; [by rewrite lookup_insert_eq|].
      destruct (m !! id) eqn:E; [|done]. by destruct Hm as [? ?].
    + apply IH; [done|done|]. unfold with_doc. destruct (doc_vector field x); [|done].
      rewrite lookup_insert_ne; [done|]. intros E. apply Hx, list_elem_of_fmap. exists doc. split; [congruence|done].
  - rewrite with_doc_other by (intros doc Hd Hid; assert (stored c coll id = Some doc) by (by apply Hall); congruence).
    destruct (m !! id) eqn:E; [|done]. specialize (Hm id). rewrite Hst, E in Hm. destruct Hm as [? Hx]; [done|]. by simpl in Hx.
Qed.

Lemma ensure_run (P : string → Prop) s sv : coll_inv (contents s) coll → docs_fit (contents s) → follows P sv (contents s) →
  ∃ sv' m, ensure_vector_loaded ns db table def dim metric_name (s, sv) = (Ok tt, (s, sv')) ∧
    holds metric name dim sv' true m ∧ (∀ id, P id → m !! id = vectors (contents s) id) ∧ same_text sv sv'.
Proof.
  intros Hinv Hfit Hf. unfold ensure_vector_loaded. rewrite Hmetric. rewrite (SE_bind_ok _ _ _ metric (s, sv)) by done.
  assert (∃ sv1 e, get_or_create_vector name dim metric sv = (Ok e, sv1) ∧ same_text sv sv1 ∧
    ve_rebuild_poisoned e = false ∧ ∃ m, holds metric name dim sv1 (ve_loaded e) m ∧
      if ve_loaded e then ∀ id, P id → m !! id = vectors (contents s) id
      else ∀ id, is_Some (m !! id) → is_Some (vectors (contents s) id)) as (sv1 & e & Hr & Ht & Hp & m & Hh & Hm).
  { unfold get_or_create_vector. destruct Hf as [Hn|(m & l & Hh & Hm)].
    - rewrite (SE_bind_ok _ _ sv None sv) by (unfold vector_entry; by rewrite Hn). eexists _, _. split; [done|]. split; [done|].
      split; [done|]. exists ∅. split; [|by intros id [? ?]]. exists (fresh_entry dim metric). simpl.
      split; [apply lookup_insert_eq|]. split; [|done]. split_and!; try done. by apply hnsw_new.
    - destruct Hh as (e & He & Hh & Hl). rewrite (SE_bind_ok _ _ sv (Some e) sv) by (unfold vector_entry; by rewrite He).
      exists sv, e. split; [done|]. split; [done|]. split; [by destruct Hh as (_ & _ & ? & _)|]. rewrite Hl. exists m.
      split; [by exists e|done]. }
  rewrite (SE_bind_ok _ _ _ e (s, sv1)) by (unfold services; simpl; by rewrite Hr).
  destruct (ve_loaded e) eqn:El; [by exists sv1, m|]. rewrite Hp.
  destruct (scan_all_run (Collections.new ns db table) (coll_wf_new ns db table None ixs Hwf) s)
    as (docs & Hscan & Hall & _); [by eapply coll_inv_new|].
  destruct (load_vectors_run s docs sv1 m false Hh) as (sv2 & Hr2 & Hh2 & Ht2).
  { intros doc v Hd Hv. destruct Hall as [_ Hall]. apply (Hfit (rid_id (doc_id doc))). unfold vectors.
    assert (stored (contents s) coll (rid_id (doc_id doc)) = Some doc) as ->; [|done]. by apply Hall. }
  destruct (set_loaded_run metric name dim sv2 false true _ Hh2) as (sv3 & Hr3 & Hh3 & Ht3).
  exists sv3, (fold_left with_doc docs m). split_and!; [|done| |by eapply same_text_trans; [eapply same_text_trans|]..].
  - unfold guarded. simpl head. rewrite (SE_bind_ok _ _ (s, sv1) tt (s, sv2)).
    + by rewrite (services_run _ _ _ _ _ Hr3).
    + change (head (ix_fields def)) with (Some field). cbv iota. rewrite (SE_bind_ok _ _ (s, sv1) docs (s, sv1)); [done|]. by rewrite (store_run _ _ _ _ _ Hscan).
  - intros id _. by apply rebuilt_vectors.
Qed.

(** *** Maintenance *)
Abbreviation Follows := (follows (λ _, True)).
Lemma written_vectors c id new c' : written coll c id new c' →
  vectors c' id = new ≫= doc_vector field ∧ ∀ id', id' ≠ id → vectors c' id' = vectors c id'.
Proof.
  intros Hw. unfold vectors. split; [by rewrite (wr_id _ _ _ _ _ Hw)|]. intros id' Hne. by rewrite (wr_other _ _ _ _ _ Hw).
Qed.
Lemma written_refl c id : written coll c id (stored c coll id) c.
Proof. by split. Qed.

Lemma maintain_index_run s sv c id new :
  coll_inv (contents s) coll → docs_fit (contents s) → written coll c id new (contents s) → Follows sv c →
  ∃ sv', maintain_index ns db table id new def (s, sv) = (Ok tt, (s, sv')) ∧ Follows sv' (contents s) ∧ same_text sv sv'.
Proof using KL Hwf Hmetric.
  intros Hinv Hfit Hw Hf. destruct (written_vectors _ _ _ _ Hw) as [Hid Hother].
  unfold maintain_index. change (head (ix_fields def)) with (Some field). cbv iota. cbn [ix_kind ix_name]. cbv iota.
  destruct (new ≫= doc_vector field) as [v|] eqn:Hv.
  - assert (follows (λ i, i ≠ id) sv (contents s)) as Hpre.
    { destruct Hf as [?|(m & l & Hh & Hm)]; [by left|]. right. exists m, l. split; [done|]. destruct l.
      - intros i Hi. by rewrite Hm, Hother.
      - intros i Hi. destruct (decide (i = id)) as [->|Hne]; [by rewrite Hid|]. rewrite Hother by done. by apply Hm. }
    destruct (ensure_run (λ i, i ≠ id) s sv Hinv Hfit Hpre) as (sv1 & m & Hr & Hh & Hm & Ht).
    rewrite (SE_bind_ok _ _ _ _ _ Hr). destruct (Hfit id v Hid) as [Hl Hg].
    destruct (vector_insert_run metric name dim sv1 true m id v Hh Hl Hg) as (sv2 & Hr2 & Hh2 & Ht2).
    exists sv2. split_and!; [by rewrite (services_run _ _ _ _ _ Hr2)| |by eapply same_text_trans..].
    right. exists (<[id := v]> m), true. split; [done|]. intros i _. destruct (decide (i = id)) as [->|Hne].
    + by rewrite lookup_insert_eq, Hid.
    + rewrite lookup_insert_ne by done. by apply Hm.
  - unfold vector_exists. destruct Hf as [Hn|(m & l & Hh & Hm)].
    + rewrite (SE_bind_ok _ _ _ false (s, sv)).
      * exists sv. split_and!; [done|by left|done..].
      * apply services_run. rewrite (SE_bind_ok _ _ sv None sv) by (unfold vector_entry; by rewrite Hn). done.
    + pose proof Hh as (e & He & _). rewrite (SE_bind_ok _ _ _ true (s, sv)).
      2: { apply services_run. rewrite (SE_bind_ok _ _ sv (Some e) sv) by (unfold vector_entry; by rewrite He). done. }
      destruct (vector_remove_run metric name dim sv l m id Hh) as (sv1 & Hr & Hh1 & Ht).
      exists sv1. split_and!; [by rewrite (services_run _ _ _ _ _ Hr)| |apply Ht..].
      right. exists (delete id m), l. split; [done|]. destruct l; intros i Hi.
      * destruct (decide (i = id)) as [->|Hne]; [by rewrite lookup_delete_eq, Hid|].
        rewrite lookup_delete_ne, Hother by done. by apply Hm.
      * destruct (decide (i = id)) as [->|Hne]; [rewrite lookup_delete_eq in Hi; by destruct Hi|].
        rewrite lookup_delete_ne in Hi by done. rewrite Hother by done. by apply Hm.
Qed.
Lemma maintain_all_run s sv c id new (defs : list IndexDefinition) :
  (∀ d, d ∈ defs → d = def ∨ IndexDefinitions.is_btree d = true) →
  coll_inv (contents s) coll → docs_fit (contents s) → written coll c id new (contents s) →
  (Follows sv c ∧ def ∈ defs) ∨ Follows sv (contents s) →
  ∃ sv', maintain_search_indexes ns db table id new defs (s, sv) = (Ok tt, (s, sv')) ∧ Follows sv' (contents s) ∧ same_text sv sv'.
Proof using KL Hwf Hmetric.
  unfold maintain_search_indexes. intros Hd Hinv Hfit Hw. revert sv.
  assert (new = stored (contents s) coll id) as -> by (by rewrite (wr_id _ _ _ _ _ Hw)).
  induction defs as [|d defs IH]; intros sv Hf; cbn [for_each].
  { exists sv. split_and!; [done| |done..]. destruct Hf as [[_ Hn]|Hf]; [by apply not_elem_of_nil in Hn|done]. }
  assert (∃ sv1, maintain_index ns db table id (stored (contents s) coll id) d (s, sv) = (Ok tt, (s, sv1)) ∧
    same_text sv sv1 ∧ (Follows sv1 c ∧ def ∈ defs ∨ Follows sv1 (contents s))) as (sv1 & Hr & Ht & Hf1).
  { destruct (Hd d) as [->|Hb]; [left| |].
    - assert (∃ c0, written coll c0 id (stored (contents s) coll id) (contents s) ∧ Follows sv c0) as (c0 & Hw0 & Hf0).
      { destruct Hf as [[Hf _]|Hf]; [by exists c|]. exists (contents s). split; [apply written_refl|done]. }
      destruct (maintain_index_run s sv c0 id _ Hinv Hfit Hw0 Hf0) as (sv1 & ? & ? & ?). exists sv1. split_and!; try done. by right.
    - exists sv. split; [|split; [done|]].
      + unfold maintain_index, IndexDefinitions.is_btree in *. destruct (head (ix_fields d)); [|done]. by destruct (ix_kind d).
      + destruct Hf as [[Hf Hin]|Hf]; [left|by right]. split; [done|]. apply elem_of_cons in Hin as [<-|?]; [|done]. done. }
  rewrite (SE_bind_ok _ _ _ _ _ Hr). destruct (IH (λ x Hx, Hd x (list_elem_of_further _ _ _ Hx)) sv1 Hf1) as (sv2 & Hr2 & Hf2 & Ht2).
  exists sv2. split_and!; [done|done|by eapply same_text_trans..].
Qed.

(** *** The invariant of the table and its index *)
Context (Hindex : def ∈ ixs) (Honly : ∀ d, d ∈ ixs → d = def ∨ IndexDefinitions.is_btree d = true).
Record service_inv (st : S * SearchServices W) : Prop := {
  si_load : Collections.load ns db table st.1 = (Ok coll, st.1);
  si_inv : coll_inv (contents st.1) coll;
  si_fit : docs_fit (contents st.1);
  si_follows : Follows st.2 (contents st.1);
  si_idle : text_idle st.2
}.
Definition fields_fit (fs : Fields) : Prop := ∀ v, oget field fs ≫= value_to_vector = Some v → vector_fits v.

Definition new_fits (new : option Document) : Prop := ∀ doc, new = Some doc → fields_fit (doc_fields doc).
Lemma docs_fit_written c id new c' : docs_fit c → written coll c id new c' → new_fits new → docs_fit c'.
Proof.
  intros Hfit Hw Hnew i v Hv. destruct (written_vectors _ _ _ _ Hw) as [Hid Hother].
  destruct (decide (i = id)) as [->|Hne]; [|by apply (Hfit i); rewrite <- Hother].
  rewrite Hid in Hv. destruct new as [doc|]; [|done]. by apply (Hnew doc eq_refl).
Qed.
Lemma stored_fits c id doc : docs_fit c → stored c coll id = Some doc → fields_fit (doc_fields doc).
Proof. intros Hfit Hst v Hv. apply (Hfit id). unfold vectors. by rewrite Hst. Qed.

(** A write followed by its maintenance keeps the invariant. *)
Lemma write_step s sv id new s' : service_inv (s, sv) → coll_inv (contents s') coll →
  written coll (contents s) id new (contents s') → new_fits new →
  ∃ sv', maintain_search_indexes ns db table id new ixs (s', sv) = (Ok tt, (s', sv')) ∧ service_inv (s', sv').
Proof using KL Hwf Hmetric Hindex Honly.
  intros [Hl Hi Hfit Hf Hidle] Hi' Hw Hnew. simpl in *. pose proof (docs_fit_written _ _ _ _ Hfit Hw Hnew) as Hfit'.
  destruct (maintain_all_run s' sv (contents s) id new ixs Honly Hi' Hfit' Hw) as (sv' & Hr & Hf' & Ht & _); [by left|].
  exists sv'. split; [done|]. split; simpl; [|done..|].
  - apply (load_frame ns db table ixs s); [done|]. intros k Hk. destruct (catalog_not_written ns db table ixs k id Hk). by apply (wr_frame _ _ _ _ _ Hw).
  - unfold text_idle in *. by rewrite Ht.
Qed.

(** *** Values written by a statement *)
Definition literals_fit (fields : list (string * Literal)) : Prop :=
  ∀ lit v, (field, lit) ∈ fields → value_to_vector (to_value lit) = Some v → vector_fits v.
Lemma extend_fits m (l : list (string * Value)) : fields_fit m →
  (∀ x v, (field, x) ∈ l → value_to_vector x = Some v → vector_fits v) → fields_fit (oextend m l).
Proof.
  intros Hm Hl v Hv. destruct (oget field (oextend m l)) as [x|] eqn:E; [|done].
  apply oget_extend_inv in E as [E|E]; [by eapply Hl|]. apply Hm. by rewrite E.
Qed.
Lemma to_fields_fit fields x v : literals_fit fields → (field, x) ∈ to_fields fields → value_to_vector x = Some v → vector_fits v.
Proof.
  intros Hl Hin Hv. unfold to_fields in Hin. apply oget_iff in Hin; [|by apply osorted_extend].
  apply oget_extend_inv in Hin as [Hin|Hin]; [|done]. apply literal_in in Hin as (lit & Hin & ->). by eapply Hl.
Qed.
Lemma merged_fits old fields : fields_fit (doc_fields old) → literals_fit fields →
  fields_fit (doc_fields (Collections.merge_fields old (to_fields fields))).
Proof. intros Ho Hl. apply extend_fits; [done|]. intros. by eapply to_fields_fit. Qed.
Lemma set_fields_fit rid fields : literals_fit fields → fields_fit (doc_fields (set_fields (Documents.new rid) fields)).
Proof.
  intros Hl. rewrite set_fields_extend. apply extend_fits; [by intros v Hv|].
  intros x v Hin Hv. apply literal_in in Hin as (lit & Hin & ->). by eapply Hl.
Qed.

(** *** Statements *)
Definition vector_maintained : Maintained (W := W) ns db table ixs.
Proof using KL Hwf Hmetric Hindex Honly Comparable0.
  refine {| mt_inv := service_inv; mt_done := service_inv; mt_id _ := True; mt_fit := fields_fit; mt_lit := literals_fit |}.
  - intros st Hs. apply (si_load _ Hs).
  - intros st Hs. apply (si_inv _ Hs).
  - intros s sv Hs. exists sv. split; [apply commit_run, (si_idle _ Hs)|done].
  - intros s sv id new s' Hs Hi _ Hw Hnew. by eapply write_step.
  - intros st id doc Hs Hst. split; [done|]. by eapply stored_fits, Hst; apply (si_fit _ Hs).
  - apply merged_fits.
  - apply set_fields_fit.
Defined.
(** A statement on the table that writes fitting vectors. *)
Definition stmt_ok (o : Oracle) (stmt : Statement) : Prop := writes_ok table (λ _, True) literals_fit o stmt.

(** *** Search *)
(** The row of a hit. *)
Definition hit_row c (filter : option WhereClause) (h : string * f32) : option Fields :=
  stored_row ns db table ixs fst (λ h, [("distance"%string, VFloat (f64_of_f32 h.2))]) c filter h.
Lemma vector_search_run st vector filter k : service_inv st → length vector = dim → good (map f32_of_f64 vector) →
  ∃ m hits sv', (∀ id, m !! id = vectors (contents st.1) id) ∧
    sound_hits metric m (map f32_of_f64 vector) (candidate_pool (limit_of k) (is_some filter)) hits ∧
    exec_vector_search ns db table field vector filter k st =
      (Ok (QRows (take (limit_of k) (omap (λ h, hit_row (contents st.1) filter (hit_id h, hit_distance h)) hits))), (st.1, sv')) ∧
    service_inv (st.1, sv').
Proof using KL Hwf Hmetric Hindex Honly.
  intros Hs Hv Hg. destruct st as [s sv]. pose proof Hs as [Hl Hi Hfit Hf Hidle]. simpl in *.
  unfold exec_vector_search. rewrite (SE_bind_ok _ _ _ _ _ (find_index_run ns db table ixs field KVector def (s, sv) Hl Hindex Honly (index_of name field (Index.Vector dim metric_name) KVector I))).

  destruct (ensure_run (λ _, True) s sv Hi Hfit Hf) as (sv1 & m & Hr & Hh & Hm & Ht).
  rewrite (SE_bind_ok _ _ _ tt (s, sv1)) by exact Hr. cbv zeta. set (pool := candidate_pool _ _).
  pose proof Hh as (e & He & (Hd & Hp & _ & Hrep) & _).
  destruct (hnsw_search metric _ _ (map f32_of_f64 vector) pool Hrep Hg) as (hits & Hhits & Hsound).
  exists m, hits, sv1. split; [intros id; by apply Hm|]. split; [done|].
  assert (vector_search name (map f32_of_f64 vector) pool sv1 = (Ok (map (λ h, (hit_id h, hit_distance h)) hits), sv1)) as Hsv.
  { unfold vector_search. rewrite (SE_bind_ok _ _ sv1 (Some e) sv1) by (unfold vector_entry; by rewrite He).
    rewrite (SE_bind_ok _ _ sv1 e sv1) by done. rewrite Hd, length_map, Hv, Nat.eqb_refl. simpl. by rewrite Hp, Hhits. }
  rewrite (SE_bind_ok _ _ _ _ _ (services_run _ s sv1 _ _ Hsv)). split; cycle 1.
  { split; simpl; [done..| |by unfold text_idle in *; rewrite (proj1 Ht)]. right. exists m, true. split; [done|]. intros id _. by apply Hm. }
  destruct Hsound as (_ & Hnd & _ & Hlen). unfold rows_from_hits.
  rewrite (ranked_rows_run ns db table ixs fst _ _ filter (limit_of k) s sv1 Hi); cycle 1.
  - by rewrite map_map.
  - destruct (decide (limit_of k = 0)) as [E|?]; [right|by left].
    assert (pool = 0) as Hpool by (unfold pool, candidate_pool; rewrite E; by destruct (is_some filter)).
    rewrite Hpool in Hlen. by destruct hits; simpl in Hlen; [|lia].
  - do 4 f_equal. by apply omap_map_ext.
Qed.
End table.
