(* ===== verification/VectorTheorems.v ===== *)
(** * Vector indexes end to end

    A table with one vector index, under the statements that define the
    index, write documents and search it: the index follows the store from
    its definition on, through restarts, and [VECTOR SEARCH] answers with
    stored documents at their exact distances. *)

From stdpp Require Import gmap.
From S2P Require Export VectorService.
Import WithServices.
Open Scope nat_scope.

(** ** Tables with one vector index *)
Record vector_table `{Unicode} (ns db table : string) (ixs : list IndexDefinition) (name field metric_name : string)
    (dim : nat) (metric : DistanceMetric.t) : Prop := {
  vt_wf : coll_wf (MkCollection ns db table None ixs);
  vt_unique : unique_btree (MkCollection ns db table None ixs);
  vt_metric : parse_metric metric_name = Ok metric;
  vt_index : MkIndexDefinition name [field] false (Index.Vector dim metric_name) ∈ ixs;
  vt_only d : d ∈ ixs → d = MkIndexDefinition name [field] false (Index.Vector dim metric_name) ∨
    IndexDefinitions.is_btree d = true
}.

(** C20.  [DEFINE VECTOR INDEX] with a fresh name on a table without other
    search indexes whose stored vectors all fit - they have the dimension of
    the index and distances that compare: the catalog entry is added, the
    documents are unchanged, and afterwards the in-memory index holds exactly
    the vectors of the stored documents, whatever index of that name the
    process held before - or the definition cannot be serialized and nothing
    changes.  (Vectors of another dimension are not covered: the index skips
    them.) *)
Theorem define_vector_contract {S W} `{KL : KvLaws S} `{FL : FieldsCodecLaws} `{DL : DefCodecLaws} `{CodeIntel}
    `{Tantivy W, HashOrder, Unicode} (ns db table : string) (ixs : list IndexDefinition) (name field : string)
    (dim : nat) (metric_opt : option string) (metric : DistanceMetric.t) `{!Comparable metric}
    (s : S) (sv : SearchServices W) :
  let metric_name := default "cosine"%string metric_opt in
  let def := MkIndexDefinition name [field] false (Index.Vector dim metric_name) in
  let coll := MkCollection ns db table None ixs in
  Collections.load ns db table s = (Ok coll, s) → coll_wf coll → coll_inv (contents s) coll →
  (∀ d, d ∈ ixs → IndexDefinitions.is_btree d = true) →
  seg_ok name → (∀ d, d ∈ ixs → ix_name d ≠ name) → oget (index_catalog_key ns db table name) (contents s) = None →
  dim ≠ 0 → parse_metric metric_name = Ok metric → docs_fit ns db table ixs field dim metric (contents s) → text_idle sv →
  ∃ r s' sv', exec_define_vector ns db name table field dim metric_opt (s, sv) = (r, (s', sv')) ∧
    ((r = Ok QOk ∧ ∃ ixs', (∀ d, d ∈ ixs' ↔ d = def ∨ d ∈ ixs) ∧
        vector_table ns db table ixs' name field metric_name dim metric ∧
        service_inv ns db table ixs' name field dim metric (s', sv') ∧
        (∀ id, stored (contents s') coll id = stored (contents s) coll id) ∧
        ∃ m, holds metric name dim sv' true m ∧ ∀ id, m !! id = vectors ns db table ixs field (contents s) id) ∨
     (∃ e, def_to_vec def = Err e ∧ r = Err (Fail (Serialization e)) ∧ s' = s ∧ sv' = sv)).
Proof.
  intros metric_name def coll Hl Hwf Hinv Hbt Hname Hfresh Hk Hdim Hmetric Hfit Hidle.
  unfold exec_define_vector. destruct (Nat.eqb_spec dim 0) as [|_]; [done|]. cbv zeta. fold metric_name.
  rewrite Hmetric. rewrite (SE_bind_ok _ _ _ metric (s, sv)) by done. fold def.
  destruct (add_definition_run ns db table name field (Index.Vector dim metric_name) ltac:(done) ixs s sv Hl Hwf Hinv Hbt Hname Hfresh Hk)
    as [(e & He & Hput)|(s1 & ixs' & docs & Hput & Had)].
  { eexists _, s, sv. rewrite (SE_bind_err _ _ _ _ _ Hput). split; [done|]. right. by exists e. }
  rewrite (SE_bind_ok _ _ _ _ _ Hput). destruct Had as [Hin Hwf1 Hub Honly Hl1 Hi1 Hst1 Hscan Hall].
  assert (∀ id, vectors ns db table ixs' field (contents s1) id = vectors ns db table ixs field (contents s) id)
    as Hvec by (intros id; unfold vectors; by rewrite Hst1).
  assert (docs_fit ns db table ixs' field dim metric (contents s1)) as Hfit1 by (intros id v; rewrite Hvec; apply Hfit).
  set (sv1 := MkServices (ss_fts sv) (ss_engine sv) (ss_open sv) (<[name := fresh_entry dim metric]> (ss_vectors sv)) (ss_draws sv)).
  rewrite (SE_bind_ok _ _ _ tt (s1, sv1)) by done.
  rewrite (SE_bind_ok _ _ _ _ _ (store_run _ _ sv1 _ _ Hscan)).
  assert (holds metric name dim sv1 false ∅) as Hh.
  { exists (fresh_entry dim metric). split; [apply lookup_insert_eq|]. split; [|done]. split_and!; try done. by apply hnsw_new. }
  destruct (load_vectors_run name field dim metric s1 docs sv1 ∅ false Hh) as (sv2 & Hr2 & Hh2 & Ht2).
  { intros doc v Hd Hv. destruct Hall as [_ Hall]. apply (Hfit1 (rid_id (doc_id doc))). unfold vectors.
    assert (stored (contents s1) (MkCollection ns db table None ixs') (rid_id (doc_id doc)) = Some doc) as ->; [|done].
    by apply Hall. }
  rewrite (SE_bind_ok _ _ _ _ _ Hr2).
  destruct (set_loaded_run metric name dim sv2 false true _ Hh2) as (sv3 & Hr3 & Hh3 & Ht3).
  rewrite (SE_bind_ok _ _ _ _ _ (services_run _ s1 _ _ _ Hr3)).
  assert (∀ id, fold_left (with_doc field) docs ∅ !! id = vectors ns db table ixs' field (contents s1) id) as Hm.
  { apply rebuilt_vectors; [done|]. intros id. rewrite lookup_empty. by intros [? ?]. }
  exists (Ok QOk), s1, sv3. split; [done|]. left. split; [done|]. exists ixs'. split; [done|]. split_and!.
  - split; [done..|by apply Hin; left|done].
  - split; [done..| |].
    + right. exists (fold_left (with_doc field) docs ∅), true. split; [done|]. intros id _. apply Hm.
    + unfold text_idle in *. simpl. rewrite (proj1 Ht3), (proj1 Ht2). done.
  - intros id. by rewrite <- Hst1.
  - eexists. split; [exact Hh3|]. intros id. by rewrite Hm, Hvec.
Qed.

(** ** Serving statements and restarting

    The specification has no index: a write runs on the store alone, a search
    answers from the vectors stored at that moment, a restart does nothing. *)
Inductive ServiceOp (W : Type) :=
  | OpStatement (o : Oracle) (stmt : Statement)
  | OpRestart (base_dir : string) (engine : W) (draws : nat → nat).
Arguments OpStatement {W} o stmt.
Arguments OpRestart {W} base_dir engine draws.

Section serve.
Context {S W : Type} `{KL : KvLaws S} `{FL : FieldsCodecLaws} `{DefCodec} `{CodeIntel} `{DebugFmt, KvCompact S}.
Context `{Tantivy W} `{HL : HashOrderLaws} `{Unicode}.
Context (ns db table : string) (ixs : list IndexDefinition) (name field metric_name : string) (dim : nat)
  (metric : DistanceMetric.t) `{!Comparable metric} (Hvt : vector_table ns db table ixs name field metric_name dim metric).

Definition serve (op : ServiceOp W) (st : S * SearchServices W) : option (Result Failure QueryResult) * (S * SearchServices W) :=
  match op with
  | OpStatement o stmt => let '(r, st) := execute ns db o stmt st in (Some r, st)
  | OpRestart base_dir engine draws => (None, (st.1, SearchServices_new base_dir engine draws))
  end.
Fixpoint serve_all (ops : list (ServiceOp W)) (st : S * SearchServices W) :
    list (option (Result Failure QueryResult)) * (S * SearchServices W) :=
  match ops with
  | [] => ([], st)
  | op :: ops' => let '(r, st) := serve op st in let '(rs, st) := serve_all ops' st in (r :: rs, st)
  end.

(** A write of fitting vectors, a search with a fitting vector, a restart. *)
Definition op_ok (op : ServiceOp W) : Prop :=
  match op with
  | OpStatement _ (VectorSearch t f vector _ _) =>
      t = table ∧ f = field ∧ length vector = dim ∧ good (map f32_of_f64 vector)
  | OpStatement o stmt => stmt_ok table field dim metric o stmt
  | OpRestart _ _ _ => True
  end.
Inductive spec_step : S → ServiceOp W → option (Result Failure QueryResult) → S → Prop :=
  | spec_write o stmt s r s' : stmt_ok table field dim metric o stmt →
      Statements.execute ns db o stmt s = (match r with Ok q => Ok (Some q) | Err e => Err e end, s') →
      spec_step s (OpStatement o stmt) (Some (from_store r)) s'
  | spec_search o vector filter k s m hits :
      (∀ id, m !! id = vectors ns db table ixs field (contents s) id) →
      sound_hits metric m (map f32_of_f64 vector) (candidate_pool (limit_of k) (is_some filter)) hits →
      spec_step s (OpStatement o (VectorSearch table field vector filter k))
        (Some (Ok (QRows (take (limit_of k)
           (omap (λ h, hit_row ns db table ixs (contents s) filter (hit_id h, hit_distance h)) hits))))) s
  | spec_restart base_dir engine draws s : spec_step s (OpRestart base_dir engine draws) None s.
Inductive spec_steps : S → list (ServiceOp W) → list (option (Result Failure QueryResult)) → S → Prop :=
  | spec_nil s : spec_steps s [] [] s
  | spec_cons s op r s1 ops rs s' : spec_step s op r s1 → spec_steps s1 ops rs s' → spec_steps s (op :: ops) (r :: rs) s'.

Abbreviation Inv := (service_inv ns db table ixs name field dim metric).
Lemma restart_inv st base_dir engine draws : Inv st → Inv (st.1, SearchServices_new base_dir engine draws).
Proof using HL.
  intros [? ? ? _ _]. split; simpl; [done..|by left|]. unfold text_idle. simpl. apply hash_order_empty.
Qed.
Lemma serve_step op st : Inv st → op_ok op →
  ∃ r s' sv', serve op st = (r, (s', sv')) ∧ spec_step st.1 op r s' ∧ Inv (s', sv').
Proof using KL FL HL Hvt.
  intros Hs Hok. pose proof Hvt as [Hwf Hub Hmetric Hin Honly]. destruct op as [o stmt|base_dir engine draws]; cycle 1.
  { eexists None, st.1, _. split; [done|]. split; [constructor|]. by apply restart_inv. }
  assert ((∃ t f v filter k, stmt = VectorSearch t f v filter k) ∨ stmt_ok table field dim metric o stmt)
    as [(t & f & v & filter & k & ->)|Hok'] by (destruct stmt; (by right) || (left; by do 5 eexists)).
  - destruct Hok as (-> & -> & Hl & Hg).
    destruct (vector_search_run ns db table ixs Hwf name field metric_name dim metric Hmetric Hin Honly st v filter k Hs Hl Hg)
      as (m & hits & sv' & Hm & Hh & Hr & Hs'). exists (Some (Ok (QRows (take (limit_of k)
       (omap (λ h, hit_row ns db table ixs (contents st.1) filter (hit_id h, hit_distance h)) hits))))), st.1, sv'.
    split; [unfold serve; simpl; by rewrite Hr|]. split; [by econstructor|done].
  - destruct (execute_tracks ns db table ixs Hwf Hub
      (Mt := vector_maintained ns db table ixs Hwf name field metric_name dim metric Hmetric Hin Honly) o stmt st Hs Hok')
      as (r & s' & sv' & Hr0 & Hr & Hd).
    assert (Inv (s', sv')) as Hs' by (destruct r; [destruct Hd as [| ->]|]; done).
    exists (Some (from_store r)), s', sv'. split; [unfold serve; by rewrite Hr|]. split; [by econstructor|done].
Qed.
Lemma serve_all_steps ops : ∀ st, Inv st → Forall op_ok ops →
  ∃ rs s' sv', serve_all ops st = (rs, (s', sv')) ∧ spec_steps st.1 ops rs s' ∧ Inv (s', sv').
Proof using KL FL HL Hvt.
  induction ops as [|op ops IH]; intros st Hs Hok; cbn [serve_all].
  { exists [], st.1, st.2. destruct st. split; [done|]. split; [constructor|done]. }
  apply Forall_cons in Hok as [Hop Hok]. destruct (serve_step op st Hs Hop) as (r & s1 & sv1 & -> & Hstep & Hs1).
  destruct (IH (s1, sv1) Hs1 Hok) as (rs & s' & sv' & -> & Hsteps & Hs'). exists (r :: rs), s', sv'.
  split; [done|]. split; [by econstructor|done].
Qed.
End serve.

(** C2.  The vector index is a cache of the store: from a state in which it
    follows the documents, any sequence of writes of fitting vectors, vector
    searches and restarts of the process is served without a panic or an error
    of the index, exactly as the specification without an index does - writes
    answer and store as they would without services, and every search,
    the first one after a restart included, answers with at most [k]
    documents stored at that moment, each once, with the exact distance of its
    stored vector, nearest first, the filter applied. *)
Theorem vector_service_refines {S W} `{KL : KvLaws S} `{FL : FieldsCodecLaws} `{DefCodec} `{CodeIntel}
    `{DebugFmt, KvCompact S} `{Tantivy W} `{HL : HashOrderLaws} `{Unicode} (ns db table : string)
    (ixs : list IndexDefinition) (name field metric_name : string) (dim : nat) (metric : DistanceMetric.t)
    `{!Comparable metric} (ops : list (ServiceOp W)) (st : S * SearchServices W) :
  vector_table ns db table ixs name field metric_name dim metric →
  service_inv ns db table ixs name field dim metric st → Forall (op_ok table field dim metric) ops →
  ∃ rs s' sv', serve_all ns db ops st = (rs, (s', sv')) ∧
    spec_steps ns db table ixs field dim metric st.1 ops rs s' ∧
    service_inv ns db table ixs name field dim metric (s', sv').
Proof. intros Hvt Hs Hok. by eapply serve_all_steps. Qed.

(** ** A concrete process *)
#[local] Existing Instance no_engine.
#[local] Instance key_order : HashOrder := λ A m, map_to_list m.
#[local] Instance key_order_laws : HashOrderLaws.
Proof. intros A m. reflexivity. Qed.
Fixpoint ascii_lower (s : string) : string :=
  match s with
  | EmptyString => EmptyString
  | String c s => let n := Ascii.nat_of_ascii c in
      String (if (65 <=? n) && (n <=? 90) then Ascii.ascii_of_nat (n + 32) else c) (ascii_lower s)
  end.
#[local] Instance lower_unicode : Unicode := {| is_alphanumeric _ := true; to_lowercase := ascii_lower |}.
#[local] Instance quiet_debug : DebugFmt := {| debug_literals _ := ""%string; debug_value _ := ""%string |}.
#[local] Instance idle_compact : KvCompact MemRedb.db := λ s, (Ok false, s).
#[local] Instance euclid2 : Comparable DistanceMetric.Euclidean := euclidean_comparable 2.
#[local] Existing Instance MemCodec.fields.
#[local] Existing Instance MemCodec.defs.

Definition services0 : SearchServices unit := SearchServices_new "data" tt (λ _, 0).
Definition by_vec : IndexDefinition := MkIndexDefinition "by_vec" ["vec"%string] false (Index.Vector 2 "Euclidean").
Definition items : Collection := MkCollection "n" "d" "items" None [by_vec].
Lemma no_vectors metric `{!Comparable metric} : docs_fit "n" "d" "items" [] "vec" 2 metric [].
Proof. by intros id v. Qed.
Lemma items_wf0 : coll_wf (MkCollection "n" "d" "items" None []).
Proof. split; try compute_decide; by intros ? ?%elem_of_nil || intros ? ? ?%elem_of_nil. Qed.

Lemma define_vector_contract_witness :
  ∃ s' sv', exec_define_vector "n" "d" "by_vec" "items" "vec" 2 (Some "Euclidean"%string) (MemRedb.empty, services0)
      = (Ok QOk, (s', sv')) ∧ ∃ e, ss_vectors sv' !! "by_vec"%string = Some e ∧ ve_loaded e = true.
Proof.
  destruct (define_vector_contract "n" "d" "items" [] "by_vec" "vec" 2 (Some "Euclidean"%string) DistanceMetric.Euclidean
    MemRedb.empty services0) as (r & s' & sv' & Hr & Hc).
  - reflexivity.
  - exact items_wf0.
  - apply coll_inv_empty.
  - by intros ? ?%elem_of_nil.
  - compute_decide.
  - by intros ? ?%elem_of_nil.
  - reflexivity.
  - done.
  - reflexivity.
  - apply no_vectors.
  - reflexivity.
  - exists s', sv'. destruct Hc as [(-> & ixs' & _ & _ & _ & _ & m & Hh & _)|(e & He & _)].
    + split; [done|]. destruct Hh as (e & He & _ & Hl). by exists e.
    + vm_compute in He. discriminate He.
Defined.

(** The process restarted after the definition. *)
Definition defined : MemRedb.db :=
  (exec_define_vector "n" "d" "by_vec" "items" "vec" 2 (Some "Euclidean"%string) (MemRedb.empty, services0)).2.1.
Lemma defined_contents b : def_to_vec by_vec = Ok b →
  contents defined = oinsert (index_catalog_key "n" "d" "items" "by_vec") b [].
Proof.
  intros Hb. destruct (def_to_vec by_vec) as [b'|] eqn:E; [|done]. injection Hb as <-. revert E. vm_compute. by intros [= <-].
Qed.
Lemma items_table : vector_table "n" "d" "items" [by_vec] "by_vec" "vec" "Euclidean" 2 DistanceMetric.Euclidean.
Proof.
  split.
  - apply (search_index_wf "n" "d" "items" "by_vec" "vec" (Index.Vector 2 "Euclidean") [] [] items_wf0); [compute_decide|by intros ? ?%elem_of_nil].
  - intros idx ->%list_elem_of_singleton. done.
  - reflexivity.
  - by left.
  - intros d ->%list_elem_of_singleton. by left.
Qed.
Lemma items_inv : service_inv "n" "d" "items" [by_vec] "by_vec" "vec" 2 DistanceMetric.Euclidean (defined, services0).
Proof.
  destruct (def_to_vec by_vec) as [b|] eqn:Hb; [|vm_compute in Hb; discriminate Hb]. pose proof (defined_contents b Hb) as Hc.
  destruct (search_index_inv "n" "d" "items" "by_vec" "vec" (Index.Vector 2 "Euclidean") [] [] ltac:(done) [] b (coll_inv_empty _)) as [Hi Hst].
  rewrite <- Hc in Hi, Hst. split.
  - vm_compute. reflexivity.
  - exact Hi.
  - intros id v. unfold vectors. cbn [fst]. change [by_vec] with ([] ++ by_vec :: []). unfold by_vec. by rewrite Hst.
  - by left.
  - reflexivity.
Qed.

Definition pair_of (x y : Z) : Literal := LArray [LInt x; LInt y].
Definition put (id : string) (x y : Z) : ServiceOp unit :=
  OpStatement plain_oracle (Create "items" (Some id) [("vec"%string, pair_of x y); ("n"%string, LInt x)] None).
Definition nearest (x y k : Z) : ServiceOp unit :=
  OpStatement plain_oracle (VectorSearch "items" "vec" [f64_of_i64 x; f64_of_i64 y] None (Some k)).
Definition item_ops : list (ServiceOp unit) :=
  [put "a" 0 0; put "b" 5 5; put "c" 1 2; nearest 4 4 2;
   OpStatement plain_oracle (Update (FromRecord (MkRecordRef "items" "a")) [("vec"%string, pair_of 4 3)] None);
   OpRestart "data" tt (λ _, 0); nearest 4 4 2;
   OpStatement plain_oracle (Ast.Delete "items" "b"); nearest 4 4 2].
Abbreviation ok2 := (op_ok "items" "vec" 2 DistanceMetric.Euclidean).
Lemma pair_fits x y l : (∀ e, e ∈ l → e.1 ≠ "vec"%string) → finite32 (f32_of_i64 x) → finite32 (f32_of_i64 y) →
  literals_fit "vec" 2 DistanceMetric.Euclidean (("vec"%string, pair_of x y) :: l).
Proof.
  intros Hl Hx Hy lit v [[= ->]|Hin]%elem_of_cons; [|by destruct (Hl _ Hin)].
  intros [= <-]. split; [done|]. split; [done|]. apply Forall_cons. split; [done|]. by apply Forall_singleton.
Qed.
Lemma put_ok id x y : is_str id → finite32 (f32_of_i64 x) → finite32 (f32_of_i64 y) → ok2 (put id x y).
Proof.
  intros Hid Hx Hy. split; [done|]. split; [exact Hid|]. split; [done|]. split; [|done]. apply pair_fits; [|done..].
  by intros e ->%list_elem_of_singleton.
Qed.
Lemma nearest_ok x y k : Forall finite32 (map f32_of_f64 [f64_of_i64 x; f64_of_i64 y]) → ok2 (nearest x y k).
Proof. intros Hv. split_and!; [done..|]. by split. Qed.
Lemma item_ops_ok : Forall ok2 item_ops.
Proof.
  unfold item_ops. repeat (apply Forall_cons; split).
  - apply put_ok; compute_decide.
  - apply put_ok; compute_decide.
  - apply put_ok; compute_decide.
  - apply nearest_ok. compute_decide.
  - split; [done|]. apply pair_fits; [by intros e ?%elem_of_nil|compute_decide..].
  - done.
  - apply nearest_ok. compute_decide.
  - done.
  - apply nearest_ok. compute_decide.
  - apply Forall_nil. done.
Qed.

Lemma vector_service_refines_witness :
  ∃ rs s' sv', serve_all "n" "d" item_ops (defined, services0) = (rs, (s', sv')) ∧
    spec_steps "n" "d" "items" [by_vec] "vec" 2 DistanceMetric.Euclidean defined item_ops rs s'.
Proof.
  destruct (vector_service_refines "n" "d" "items" [by_vec] "by_vec" "vec" "Euclidean" 2 DistanceMetric.Euclidean
    item_ops (defined, services0) items_table items_inv item_ops_ok) as (rs & s' & sv' & Hrun & Hspec & _).
  exists rs, s', sv'. exact (conj Hrun Hspec).
Defined.

(** The answers of that run: the ids found. *)
Definition found (r : option (Result Failure QueryResult)) : option (list Value) :=
  match r with Some (Ok (QRows rows)) => Some (omap (oget "id"%string) rows) | _ => None end.
Example item_answers :
  map found (serve_all "n" "d" item_ops (defined, services0)).1 =
  [None; None; None; Some [VString "items:b"; VString "items:c"]; None; None;
   Some [VString "items:a"; VString "items:b"]; None; Some [VString "items:a"; VString "items:c"]]%string.
Proof. vm_compute. reflexivity. Qed.

(** ** What the hypotheses exclude *)
Definition set_vec (id : string) (v : list Literal) : ServiceOp unit :=
  OpStatement plain_oracle (Update (FromRecord (MkRecordRef "items" id)) [("vec"%string, LArray v)] None).
Definition answers (ops : list (ServiceOp unit)) : list (option (list Value)) :=
  map found (serve_all "n" "d" ops (defined, services0)).1.
(** An embedding replaced by one of another dimension stays in the index
    until the process restarts. *)
Example stale_dimension :
  answers [put "a" 0 0; set_vec "a" [LInt 1; LInt 2; LInt 3]; nearest 0 0 1; OpRestart "data" tt (λ _, 0); nearest 0 0 1] =
  [None; None; Some [VString "items:a"%string]; None; Some []].
Proof. vm_compute. reflexivity. Qed.
(** Indexes are kept by name alone: an index of the same name on another
    table replaces this one. *)
Example shared_name :
  answers [put "a" 0 0; nearest 0 0 1;
           OpStatement plain_oracle (DefineVectorIndex "by_vec" "others" "vec" 2 (Some "Euclidean"%string)); nearest 0 0 1] =
  [None; Some [VString "items:a"%string]; None; Some []].
Proof. vm_compute. reflexivity. Qed.
(** Two embeddings that overflow single precision: their distance is a NaN
    and the insertion panics; the lock stays poisoned for every later use. *)
Definition huge : Literal := LFloat (F64 0x7E37E43C8800759C).
Example overflow_poisons :
  drop 3 (serve_all "n" "d" [put "a" 0 0; set_vec "a" [huge; LInt 0]; put "b" 1 1; set_vec "b" [huge; LInt 0]; nearest 0 0 1]
     (defined, services0)).1 = [Some (Err Panicked); Some (Err lock_err)].
Proof. vm_compute. reflexivity. Qed.
