(* ===== verification/FullTextService.v ===== *)
(** * Full-text indexes end to end

    A table with one full-text index, over an engine that behaves as
    documented ([TantivyLaws]): what the engine stages follows the documents of
    the table, a commit publishes it, [SEARCH] answers with the best matches of
    what is committed, and what a process leaves behind is found by the next. *)

From stdpp Require Import gmap.
From S2P Require Export FullTextSpec ServiceRuns.
Import WithServices.
Open Scope nat_scope.

(** ** The services of one index *)
Section services.
Context {W : Type} `{TL : TantivyLaws W} `{HL : HashOrderLaws} `{Unicode}.
Context (table field : string) (Hrel : relative (fts_key table field)).
Abbreviation key := (fts_key table field).
Implicit Types (sv : SearchServices W) (V P : string → option string).

Definition dir sv : string := FtsManagers.index_path (ss_fts sv) key.
Definition texts_on_disk sv V : Prop := represents_texts (default [] (on_disk (dir sv) (ss_engine sv))) V.
(** The index is not open in this process. *)
Definition closed sv : Prop :=
  (key ∉ ss_open sv) ∧ FtsManagers.indexes (ss_fts sv) !! key = None ∧ unlocked (dir sv) (ss_engine sv).
(** It is open, stages [P] and shows [V]. *)
Definition opened sv P V : Prop :=
  key ∈ ss_open sv ∧ ∃ idx cp cv, FtsManagers.indexes (ss_fts sv) !! key = Some idx ∧
    idx_holds idx (dir sv) (ss_engine sv) cp cv ∧ represents_texts cp P ∧ represents_texts cv V.
Definition others_ok sv : Prop := manager_ok (ss_fts sv) (ss_engine sv).
(** The paths have not moved. *)
Definition same_base sv sv' : Prop := FtsManagers.base_dir (ss_fts sv') = FtsManagers.base_dir (ss_fts sv).
Lemma same_dir sv sv' : same_base sv sv' → dir sv' = dir sv.
Proof. intros E. unfold dir, FtsManagers.index_path. by rewrite E. Qed.

Lemma on_fts_run {A} (f : SE (FtsManagers.FtsManager W * W) Failure A) sv r fts w :
  f (ss_fts sv, ss_engine sv) = (r, (fts, w)) →
  on_fts f sv = (r, MkServices fts w (ss_open sv) (ss_vectors sv) (ss_draws sv)).
Proof. intros E. unfold on_fts. by rewrite E. Qed.
(** A call on the open index. *)
Lemma get_index_run {A} sv idx (f : FtsIndex W → SE W Failure A) r w :
  FtsManagers.indexes (ss_fts sv) !! key = Some idx → f idx (ss_engine sv) = (r, w) →
  on_fts (idx ← FtsManagers.get_index table field; FtsManagers.on_engine (f idx)) sv =
  (r, MkServices (ss_fts sv) w (ss_open sv) (ss_vectors sv) (ss_draws sv)).
Proof.
  intros Hi Hf. apply on_fts_run. rewrite (SE_bind_ok _ _ _ idx (ss_fts sv, ss_engine sv)).
  - unfold FtsManagers.on_engine. simpl. by rewrite Hf.
  - unfold FtsManagers.get_index. rewrite (SE_bind_ok _ _ _ (ss_fts sv) (ss_fts sv, ss_engine sv)) by done.
    change (FtsManagers.index_key table field) with key. by rewrite Hi.
Qed.

(** *** Opening *)
Lemma ensure_open sv analyzer P V : opened sv P V → ensure_fulltext table field analyzer sv = (Ok tt, sv).
Proof.
  intros [Ho _]. unfold ensure_fulltext. rewrite (SE_bind_ok _ _ sv true sv); [done|].
  unfold fts_opened. by rewrite bool_decide_eq_true_2.
Qed.
Lemma ensure_closed sv analyzer cfg V : parse_analyzer analyzer = Ok cfg → closed sv → texts_on_disk sv V → others_ok sv →
  ∃ sv', ensure_fulltext table field analyzer sv = (Ok tt, sv') ∧ opened sv' V V ∧ others_ok sv' ∧ same_base sv sv'.
Proof using All.
  intros Hcfg (Hk & Hi & Hu) HV Hm. unfold ensure_fulltext.
  rewrite (SE_bind_ok _ _ sv false sv) by (unfold fts_opened; by rewrite bool_decide_eq_false_2).
  rewrite (SE_bind_ok _ _ sv cfg sv) by (by rewrite Hcfg).
  destruct (idx_open_run (dir sv) cfg (ss_engine sv) Hu) as (idx & w' & Hr & Hat & Hh & Ho).
  set (mgr' := FtsManagers.MkManager (FtsManagers.base_dir (ss_fts sv)) (<[key := idx]> (FtsManagers.indexes (ss_fts sv)))).
  assert (FtsManagers.define_index table field cfg (ss_fts sv, ss_engine sv) = (Ok tt, (mgr', w'))) as Hd.
  { unfold FtsManagers.define_index. rewrite (SE_bind_ok _ _ _ (ss_fts sv) (ss_fts sv, ss_engine sv)) by done.
    rewrite (SE_bind_ok _ _ _ idx (ss_fts sv, w')); [done|]. unfold FtsManagers.on_engine.
    change (FtsManagers.index_key table field) with key. simpl. fold (dir sv). by rewrite Hr. }
  rewrite (SE_bind_ok _ _ _ _ _ (on_fts_run _ _ _ _ _ Hd)). eexists. split; [done|]. split_and!; [| |done].
  - split; [simpl; set_solver|]. eexists idx, _, _. split; [apply lookup_insert_eq|]. split; [exact Hh|done].
  - unfold others_ok in *. simpl.
    assert (manager_ok (ss_fts sv) w') as [A B C].
    { eapply manager_frame; [exact Hrel|exact Ho| |done]. intros idx'. by rewrite Hi. }
    split; intros k idx' Hk'; unfold mgr' in Hk'; cbn [FtsManagers.indexes] in Hk'; apply lookup_insert_Some in Hk' as [[<- <-]|[Hne Hidx]];
      [done|by eapply A|done|by apply B|by eapply holds_open|by apply C].
Qed.

(** *** Staging *)
Section staging.
Context sv P V (Hop : opened sv P V) (Hm : others_ok sv).
Lemma stage_run (f : FtsIndex W → SE W Failure unit) P' :
  (∀ idx cp cv, idx_at idx (dir sv) → idx_holds idx (dir sv) (ss_engine sv) cp cv → represents_texts cp P →
     ∃ w' cp', f idx (ss_engine sv) = (Ok tt, w') ∧ idx_holds idx (dir sv) w' cp' cv ∧ represents_texts cp' P' ∧
       others (dir sv) (ss_engine sv) w') →
  ∃ sv', on_fts (idx ← FtsManagers.get_index table field; FtsManagers.on_engine (f idx)) sv = (Ok tt, sv') ∧
    opened sv' P' V ∧ others_ok sv' ∧ same_base sv sv'.
Proof using All.
  intros Hf. destruct Hop as (Hk & idx & cp & cv & Hi & Hh & HP & HV).
  destruct (Hf idx cp cv) as (w' & cp' & Hr & Hh' & HP' & Ho); [by apply (mo_at _ _ Hm)|done..|].
  eexists. split; [by eapply get_index_run|]. split_and!; [| |done].
  - split; [done|]. by exists idx, cp', cv.
  - eapply manager_frame; [exact Hrel|exact Ho| |exact Hm]. intros idx' E. simpl in E. rewrite Hi in E. injection E as <-.
    by eapply holds_open.
Qed.
Lemma fts_index_run id text : id_fits id →
  ∃ sv', fts_index table field id text sv = (Ok tt, sv') ∧ opened sv' (retext P id (Some text)) V ∧ others_ok sv' ∧ same_base sv sv'.
Proof using All.
  intros Hf. apply stage_run. intros idx cp cv Hat Hh HP.
  destruct (idx_replace_run idx _ Hat _ cp cv id text Hh Hf) as (w' & Hr & Hh' & Ho).
  exists w', (filter (λ x, x.1 ≠ id) cp ++ [(id, text)]). split_and!; [done..|by apply represents_update|done].
Qed.
Lemma fts_delete_run id : id_fits id →
  ∃ sv', fts_delete table field id sv = (Ok tt, sv') ∧ opened sv' (retext P id None) V ∧ others_ok sv' ∧ same_base sv sv'.
Proof using All.
  intros Hf. apply stage_run. intros idx cp cv Hat Hh HP.
  destruct (idx_remove_run idx _ Hat _ cp cv id Hh Hf) as (w' & Hr & Hh' & Ho).
  exists w', (filter (λ x, x.1 ≠ id) cp). split_and!; [done..|by apply represents_delete|done].
Qed.
End staging.

(** *** Committing *)
Lemma fts_commit_run sv : others_ok sv →
  ∃ sv', fts_commit sv = (Ok tt, sv') ∧ others_ok sv' ∧ same_base sv sv' ∧
    (∀ P V, opened sv P V → opened sv' P P) ∧ (∀ V, closed sv → texts_on_disk sv V → closed sv' ∧ texts_on_disk sv' V).
Proof using All.
  intros Hm. destruct (commit_all_run (ss_fts sv) (ss_engine sv) Hm) as (w' & Hr & Hm' & Hc & Hf).
  eexists. split; [by apply on_fts_run|]. split_and!; [done|done| |].
  - intros P V (Hk & idx & cp & cv & Hi & Hh & HP & HV). split; [done|]. exists idx, cp, cp. split; [done|].
    split; [|done]. by apply (Hc key idx cp Hi), Hh.
  - intros V (Hk & Hi & Hu) HV. destruct (Hf (dir sv)) as [E1 E2].
    + intros k idx Hidx E%index_path_inj; [congruence|by eapply (mo_relative _ _ Hm)|done].
    + split; [split_and!; [done|done|by apply E2]|]. unfold texts_on_disk, dir in *. simpl. by rewrite E1.
Qed.

(** *** Searching *)
Lemma fts_search_run sv P V query n : opened sv P V → others_ok sv →
  ∃ r sv', fts_search table field query n sv = (r, sv') ∧ opened sv' P V ∧ others_ok sv' ∧ same_base sv sv' ∧
    match r with
    | Ok hits => n ≠ 0 ∧ ∃ q, parses_as (W := W) query q ∧ best_matches V q n hits
    | Err e => (∃ msg, e = Fail (Core.Query msg)) ∨ n = 0 ∧ e = Panicked
    end.
Proof using All.
  intros (Hk & idx & cp & cv & Hi & Hh & HP & HV) Hm.
  destruct (idx_search_run idx _ _ cp cv V query n Hh HV) as (r & w' & Hr & Hs & Hres).
  pose proof (get_index_run sv idx (λ idx, FullText.search idx query n) r w' Hi Hr) as Hr'.
  set (sv' := MkServices (ss_fts sv) w' (ss_open sv) (ss_vectors sv) (ss_draws sv)) in *.
  assert (opened sv' P V ∧ others_ok sv' ∧ same_base sv sv') as (A & B & C).
  { split_and!; [|eapply manager_frame; [exact Hrel|by apply same_others| |exact Hm]|done].
    - split; [done|]. exists idx, cp, cv. split; [done|]. split; [by eapply holds_same|done].
    - intros idx' E. simpl in E. rewrite Hi in E. injection E as <-. eapply holds_open, holds_same; [exact Hs|exact Hh]. }
  unfold fts_search, FtsManagers.search. destruct r as [hits|e].
  - exists (Ok (map (λ h, (sh_id h, sh_score h)) hits)), sv'. split; [by rewrite (SE_bind_ok _ _ _ _ _ Hr')|]. exact (conj A (conj B (conj C Hres))).
  - exists (Err e), sv'. split; [by rewrite (SE_bind_err _ _ _ _ _ Hr')|]. exact (conj A (conj B (conj C Hres))).
Qed.
End services.

(** ** The table and its index *)
Record fulltext_table `{Unicode} (ns db table : string) (ixs : list IndexDefinition) (name field analyzer : string) : Prop := {
  ft_wf : coll_wf (MkCollection ns db table None ixs);
  ft_unique : unique_btree (MkCollection ns db table None ixs);
  ft_relative : relative (fts_key table field);
  ft_analyzer : ∃ cfg, parse_analyzer analyzer = Ok cfg;
  ft_index : MkIndexDefinition name [field] false (FullText analyzer) ∈ ixs;
  ft_only d : d ∈ ixs → d = MkIndexDefinition name [field] false (FullText analyzer) ∨ IndexDefinitions.is_btree d = true
}.

Section table.
Context {S W : Type} `{KL : KvLaws S} `{FL : FieldsCodecLaws} `{DefCodec} `{CodeIntel} `{TL : TantivyLaws W}.
Context `{HL : HashOrderLaws} `{Unicode} (ns db table : string) (ixs : list IndexDefinition) (name field analyzer : string).
Context (Hft : fulltext_table ns db table ixs name field analyzer).
Abbreviation coll := (MkCollection ns db table None ixs).
Abbreviation def := (MkIndexDefinition name [field] false (FullText analyzer)).
Abbreviation view := (string → option string).
Implicit Types (s : S) (sv : SearchServices W) (c : OMap bytes bytes) (P V : view) (L : string → Prop).

(** The texts stored in the table. *)
Definition texts c : view := λ id, stored c coll id ≫= doc_text field.
(** Outside the ids [L], [P] is what is stored. *)
Definition current L P c : Prop := ∀ id, ¬ L id → P id = texts c id.

(** The engine holds [V] committed; outside [L] - writes a restart has lost -
    what it stages is what the table stores. *)
Definition index_inv L V sv c : Prop :=
  others_ok sv ∧
  ((closed table field sv ∧ texts_on_disk table field sv V ∧ current L V c) ∨
   ∃ P, opened table field sv P V ∧ current L P c).
Record text_inv L V (st : S * SearchServices W) : Prop := {
  ti_load : Collections.load ns db table st.1 = (Ok coll, st.1);
  ti_inv : coll_inv (contents st.1) coll;
  ti_ids id : is_Some (stored (contents st.1) coll id) → id_fits id;
  ti_index : index_inv L V st.2 (contents st.1)
}.
(** After a commit, what is committed is what is stored. *)
Definition text_done L (st : S * SearchServices W) : Prop :=
  ∃ V, text_inv L V st ∧ current L V (contents st.1).

Lemma index_inv_weaken L L' V sv c c' : index_inv L V sv c → (∀ id, ¬ L' id → ¬ L id ∧ texts c' id = texts c id) → index_inv L' V sv c'.
Proof.
  intros [Hm Hi] HL'. split; [done|]. assert (∀ P, current L P c → current L' P c') as Hc.
  { intros P HP id Hid. destruct (HL' id Hid) as [Hn ->]. by apply HP. }
  destruct Hi as [(? & ? & ?)|(P & ? & ?)]; [left|right]; eauto.
Qed.
Lemma open_index sv V L c : index_inv L V sv c →
  ∃ sv' P, ensure_fulltext table field analyzer sv = (Ok tt, sv') ∧ opened table field sv' P V ∧ current L P c ∧
    others_ok sv' ∧ same_base sv sv'.
Proof using Hft TL HL.
  destruct Hft as [_ _ Hrel [cfg Hcfg] _ _]. intros [Hm [(Hc & HV & Hcur)|(P & Ho & Hcur)]].
  - destruct (ensure_closed table field Hrel sv analyzer cfg V Hcfg Hc HV Hm) as (sv' & Hr & Ho & Hm' & Hb).
    by exists sv', V.
  - exists sv, P. split_and!; try done. by eapply ensure_open.
Qed.

(** *** Maintenance *)
Lemma maintain_text_run L V s sv id : id_fits id → index_inv (λ i, L i ∨ i = id) V sv (contents s) →
  ∃ sv', maintain_index ns db table id (stored (contents s) coll id) def (s, sv) = (Ok tt, (s, sv')) ∧
    index_inv L V sv' (contents s) ∧ same_base sv sv'.
Proof using Hft TL HL.
  intros Hid Hi. destruct (open_index sv V _ _ Hi) as (sv1 & P & Hr1 & Ho1 & Hcur & Hm1 & Hb1).
  pose proof (ft_relative _ _ _ _ _ _ _ Hft) as Hrel.
  assert (∀ new, texts (contents s) id = new → current L (retext P id new) (contents s)) as Hnew.
  { intros new <- i Hi'. unfold retext. case_decide; [by subst|]. apply Hcur. tauto. }
  unfold maintain_index. cbn [head ix_fields ix_kind]. rewrite (SE_bind_ok _ _ _ _ _ (services_run _ s _ _ _ Hr1)).
  change (stored (contents s) coll id ≫= doc_text field) with (texts (contents s) id).
  destruct (texts (contents s) id) as [text|] eqn:Et.
  - destruct (fts_index_run table field Hrel sv1 P V Ho1 Hm1 id text Hid) as (sv2 & Hr2 & Ho2 & Hm2 & Hb2).
    exists sv2. split_and!; [by apply services_run| |congruence]. split; [done|]. right. eexists. split; [done|by apply Hnew].
  - destruct (fts_delete_run table field Hrel sv1 P V Ho1 Hm1 id Hid) as (sv2 & Hr2 & Ho2 & Hm2 & Hb2).
    exists sv2. split_and!; [by apply services_run| |congruence]. split; [done|]. right. eexists. split; [done|by apply Hnew].
Qed.
Lemma maintain_texts_run L V s id (defs : list IndexDefinition) :
  (∀ d, d ∈ defs → d = def ∨ IndexDefinitions.is_btree d = true) → id_fits id → ∀ sv,
  (index_inv (λ i, L i ∨ i = id) V sv (contents s) ∧ def ∈ defs) ∨ index_inv L V sv (contents s) →
  ∃ sv', maintain_search_indexes ns db table id (stored (contents s) coll id) defs (s, sv) = (Ok tt, (s, sv')) ∧
    index_inv L V sv' (contents s) ∧ same_base sv sv'.
Proof using Hft TL HL.
  intros Hd Hid. unfold maintain_search_indexes.
  assert (∀ sv, index_inv L V sv (contents s) → index_inv (λ i, L i ∨ i = id) V sv (contents s)) as Hweak.
  { intros sv Hi. eapply index_inv_weaken; [exact Hi|]. intros i Hn. split; [tauto|done]. }
  induction defs as [|d defs IH]; intros sv Hi; cbn [for_each].
  { exists sv. split_and!; [done| |done]. destruct Hi as [[_ ?%not_elem_of_nil]|?]; done. }
  assert (∃ sv1, maintain_index ns db table id (stored (contents s) coll id) d (s, sv) = (Ok tt, (s, sv1)) ∧ same_base sv sv1 ∧
    (index_inv (λ i, L i ∨ i = id) V sv1 (contents s) ∧ def ∈ defs ∨ index_inv L V sv1 (contents s))) as (sv1 & Hr1 & Hb1 & Hi1).
  { destruct (Hd d) as [->|Hb]; [left| |].
    - destruct (maintain_text_run L V s sv id Hid) as (sv1 & ? & ? & ?); [destruct Hi as [[? _]|?]; auto|].
      exists sv1. split_and!; try done. by right.
    - exists sv. split_and!; [|done|].
      + unfold maintain_index, IndexDefinitions.is_btree in *. destruct (head (ix_fields d)); [|done]. by destruct (ix_kind d).
      + destruct Hi as [[Hi Hin]|Hi]; [left|by right]. split; [done|]. apply elem_of_cons in Hin as [<-|?]; done. }
  rewrite (SE_bind_ok _ _ _ _ _ Hr1).
  destruct (IH (λ x Hx, Hd x (list_elem_of_further _ _ _ Hx)) sv1 Hi1) as (sv2 & Hr2 & Hi2 & Hb2).
  exists sv2. split_and!; [done|done|congruence].
Qed.

(** *** The promise to the statements *)
Definition fulltext_maintained L V : Maintained (S := S) (W := W) ns db table ixs.
Proof using KL Hft TL HL.
  refine {| mt_inv := text_inv L V; mt_done := text_done L; mt_id := id_fits; mt_fit _ := True; mt_lit _ := True |}; try done.
  - intros st Hs. apply (ti_load _ _ _ Hs).
  - intros st Hs. apply (ti_inv _ _ _ Hs).
  - intros s sv [Hl Hc Hids [Hm Hi]]. pose proof (ft_relative _ _ _ _ _ _ _ Hft) as Hrel.
    destruct (fts_commit_run table field Hrel sv Hm) as (sv' & Hr & Hm' & Hb & Hopen & Hclosed).
    exists sv'. split; [by apply services_run|]. simpl in *. destruct Hi as [(Hcl & HV & Hcur)|(P & Ho & Hcur)].
    + destruct (Hclosed V Hcl HV). exists V. split; [|done]. split; [done..|]. split; [done|by left].
    + exists P. split; [|done]. split; [done..|]. split; [done|]. right. exists P. split; [by eapply Hopen|done].
  - intros s sv id new s' [Hl Hc Hids Hi] Hc' Hid Hw _. simpl in *.
    assert (new = stored (contents s') coll id) as -> by (by rewrite (wr_id _ _ _ _ _ Hw)).
    destruct (maintain_texts_run L V s' id ixs (ft_only _ _ _ _ _ _ _ Hft) Hid sv) as (sv' & Hr & Hi' & Hb).
    { left. split; [|exact (ft_index _ _ _ _ _ _ _ Hft)]. eapply index_inv_weaken; [exact Hi|]. intros i Hn. split; [tauto|].
      unfold texts. rewrite (wr_other _ _ _ _ _ Hw) by tauto. done. }
    exists sv'. split; [done|]. split; simpl; [|done| |done].
    + apply (load_frame ns db table ixs s); [done|]. intros k Hk. destruct (catalog_not_written ns db table ixs k id Hk).
      by apply (wr_frame _ _ _ _ _ Hw).
    + intros i Hi1. destruct (decide (i = id)) as [->|Hne]; [done|]. apply Hids. by rewrite <- (wr_other _ _ _ _ _ Hw).
  - intros st id doc Hs Hst. split; [|done]. apply (ti_ids _ _ _ Hs). eauto.
Defined.

(** *** Search *)
(** The row of a hit. *)
Definition text_row c (filter : option WhereClause) (h : string * f32) : option Fields :=
  stored_row ns db table ixs fst (λ h, [("score"%string, VFloat (f64_of_f32 h.2))]) c filter h.
(** What a search for at most [limit] documents may answer when [V] is committed. *)
Definition search_answer V c (query : string) (filter : option WhereClause) (limit : nat) (r : Result Failure QueryResult) : Prop :=
  match r with
  | Ok rows => limit ≠ 0 ∧ ∃ q hits, parses_as (W := W) query q ∧
      best_matches V q (candidate_pool limit (is_some filter)) hits ∧ rows = QRows (take limit (omap (text_row c filter) hits))
  | Err e => (∃ msg, e = Fail (Core.Query msg)) ∨ limit = 0 ∧ e = Panicked
  end.
Lemma candidate_pool_zero limit filtered : candidate_pool limit filtered = 0 → limit = 0.
Proof. unfold candidate_pool. destruct filtered; lia. Qed.
Lemma exec_search_run L V s sv query filter limit : text_inv L V (s, sv) →
  ∃ r sv', exec_search ns db table field query filter limit (s, sv) = (r, (s, sv')) ∧ text_inv L V (s, sv') ∧
    search_answer V (contents s) query filter (limit_of limit) r.
Proof using KL Hft TL HL.
  intros Hs. pose proof Hs as [Hl Hc Hids Hi]. simpl in *. pose proof (ft_relative _ _ _ _ _ _ _ Hft) as Hrel.
  unfold exec_search.
  rewrite (SE_bind_ok _ _ _ _ _ (find_index_run ns db table ixs field KFullText def (s, sv) Hl
    (ft_index _ _ _ _ _ _ _ Hft) (ft_only _ _ _ _ _ _ _ Hft) (index_of name field (FullText analyzer) KFullText I))).
  destruct (open_index sv V L _ Hi) as (sv1 & P & Hr1 & Ho1 & Hcur & Hm1 & Hb1).
  rewrite (SE_bind_ok _ _ _ tt (s, sv1)) by (unfold ensure_fulltext_of; simpl; by apply services_run). cbv zeta.
  set (pool := candidate_pool (limit_of limit) (is_some filter)).
  destruct (fts_search_run table field Hrel sv1 P V query pool Ho1 Hm1) as (r & sv2 & Hr2 & Ho2 & Hm2 & Hb2 & Hres).
  pose proof (services_run _ s _ _ _ Hr2) as Hr2'.
  assert (text_inv L V (s, sv2)) as Hs2 by (split; [done..|]; split; [done|right; eauto]).
  destruct r as [hits|e].
  - destruct Hres as (Hn & q & Hq & Hbest).
    assert (limit_of limit ≠ 0) as Hlim by (intros E; apply Hn; unfold pool, candidate_pool; rewrite E; by destruct (is_some filter)).
    exists (Ok (QRows (take (limit_of limit) (omap (text_row (contents s) filter) hits)))), sv2. split; [|split; [done|]].
    + rewrite (SE_bind_ok _ _ _ _ _ Hr2'). unfold rows_from_hits.
      by rewrite (ranked_rows_run ns db table ixs fst _ _ filter (limit_of limit) s sv2 Hc (proj1 Hbest) (or_introl Hlim)).
    + split; [done|]. by exists q, hits.
  - exists (Err e), sv2. split; [by rewrite (SE_bind_err _ _ _ _ _ Hr2')|]. split; [done|].
    destruct Hres as [?|[E ->]]; [by left|right]. split; [by eapply candidate_pool_zero|done].
Qed.
End table.

(** ** Defining the index *)
Section load.
Context {S W : Type} `{KL : KvLaws S} `{FL : FieldsCodecLaws} `{TL : TantivyLaws W} `{HL : HashOrderLaws} `{Unicode}.
Context (ns db table field : string) (ixs : list IndexDefinition) (Hrel : relative (fts_key table field)).
Abbreviation coll := (MkCollection ns db table None ixs).

Definition with_text (P : string → option string) (doc : Document) : string → option string :=
  match doc_text field doc with Some text => retext P (rid_id (doc_id doc)) (Some text) | None => P end.
Lemma load_texts_run (s : S) docs : ∀ (sv : SearchServices W) P V, opened table field sv P V → others_ok sv →
  (∀ doc, doc ∈ docs → id_fits (rid_id (doc_id doc))) →
  ∃ sv', for_each (load_text table field) docs (s, sv) = (Ok tt, (s, sv')) ∧
    opened table field sv' (fold_left with_text docs P) V ∧ others_ok sv' ∧ same_base sv sv'.
Proof using TL HL Hrel H5.
  induction docs as [|doc docs IH]; intros sv P V Ho Hm Hid; cbn [for_each fold_left]; [by exists sv|].
  assert (∃ sv1, load_text table field doc (s, sv) = (Ok tt, (s, sv1)) ∧ opened table field sv1 (with_text P doc) V ∧
    others_ok sv1 ∧ same_base sv sv1) as (sv1 & Hr1 & Ho1 & Hm1 & Hb1).
  { unfold load_text, with_text. destruct (doc_text field doc) as [text|]; [|by exists sv].
    destruct (fts_index_run table field Hrel sv P V Ho Hm (rid_id (doc_id doc)) text) as (sv1 & Hr1 & ?); [apply Hid; left|].
    exists sv1. split; [by apply services_run|done]. }
  rewrite (SE_bind_ok _ _ _ _ _ Hr1). destruct (IH sv1 _ V Ho1 Hm1) as (sv2 & Hr2 & Ho2 & Hm2 & Hb2); [intros; apply Hid; by right|].
  exists sv2. split_and!; [done..|congruence].
Qed.
Lemma with_text_other docs : ∀ P id, (∀ doc, doc ∈ docs → rid_id (doc_id doc) ≠ id) → fold_left with_text docs P id = P id.
Proof.
  induction docs as [|doc docs IH]; intros P id Hid; simpl; [done|]. rewrite IH by (intros; apply Hid; by right).
  unfold with_text. destruct (doc_text field doc); [|done]. unfold retext. rewrite decide_False; [done|].
  intros E. eapply Hid; [left|done].
Qed.
Lemma loaded_texts c docs P id : all_docs coll c docs →
  fold_left with_text docs P id = match texts ns db table ixs field c id with Some text => Some text | None => P id end.
Proof.
  intros [Hnd Hall]. unfold texts. destruct (stored c coll id) as [doc|] eqn:Hst; cbn [mbind option_bind].
  - apply Hall in Hst as [Hd Hid]. clear Hall. revert P. induction docs as [|x docs IH]; intros P; [by apply not_elem_of_nil in Hd|].
    cbn [map] in Hnd. apply NoDup_cons in Hnd as [Hx Hnd]. cbn [fold_left]. apply elem_of_cons in Hd as [<-|Hd].
    + rewrite with_text_other.
      2: { intros y Hy E. apply Hx, list_elem_of_fmap. exists y. split; [congruence|done]. }
      unfold with_text. destruct (doc_text field doc); [|done]. unfold retext. by rewrite decide_True.
    + rewrite (IH Hnd Hd). unfold with_text. destruct (doc_text field x); [|done]. unfold retext.
      rewrite decide_False; [done|]. intros E. apply Hx, list_elem_of_fmap. exists doc. split; [congruence|done].
  - apply with_text_other. intros doc Hd Hid. assert (stored c coll id = Some doc) by (by apply Hall). congruence.
Qed.
End load.

(** C21.  [DEFINE FULLTEXT INDEX] on a table without other search indexes, with
    a fresh name, in a process where no index of the field is open: the
    catalog entry is added, the documents are unchanged, and afterwards every
    document with a text in the field is indexed and committed; a document
    without one keeps what an earlier index left in the directory, and nothing
    is left in a fresh one - or the definition cannot be serialized and
    nothing changes. *)
Theorem define_fulltext_contract {S W} `{KL : KvLaws S} `{FL : FieldsCodecLaws} `{DL : DefCodecLaws} `{CodeIntel}
    `{TL : TantivyLaws W} `{HL : HashOrderLaws} `{Unicode} (ns db table : string) (ixs : list IndexDefinition)
    (name field : string) (analyzer_opt : option string) (s : S) (sv : SearchServices W) (V0 : string → option string) :
  let analyzer := default "default"%string analyzer_opt in
  let def := MkIndexDefinition name [field] false (FullText analyzer) in
  let coll := MkCollection ns db table None ixs in
  Collections.load ns db table s = (Ok coll, s) → coll_wf coll → coll_inv (contents s) coll →
  (∀ d, d ∈ ixs → IndexDefinitions.is_btree d = true) →
  seg_ok name → (∀ d, d ∈ ixs → ix_name d ≠ name) → oget (index_catalog_key ns db table name) (contents s) = None →
  (∃ cfg, parse_analyzer analyzer = Ok cfg) → relative (fts_key table field) →
  (∀ id, is_Some (stored (contents s) coll id) → id_fits id) →
  others_ok sv → closed table field sv → texts_on_disk table field sv V0 →
  ∃ r s' sv', exec_define_fulltext ns db name table field analyzer_opt (s, sv) = (r, (s', sv')) ∧
    ((r = Ok QOk ∧ ∃ ixs' V, (∀ d, d ∈ ixs' ↔ d = def ∨ d ∈ ixs) ∧
        fulltext_table ns db table ixs' name field analyzer ∧
        text_inv ns db table ixs' field (λ id, texts ns db table ixs field (contents s) id = None ∧ V0 id ≠ None) V (s', sv') ∧
        (∀ id, stored (contents s') coll id = stored (contents s) coll id) ∧
        ∀ id, V id = match texts ns db table ixs field (contents s) id with Some text => Some text | None => V0 id end) ∨
     (∃ e, def_to_vec def = Err e ∧ r = Err (Fail (Serialization e)) ∧ s' = s ∧ sv' = sv)).
Proof.
  intros analyzer def coll Hl Hwf Hinv Hbt Hname Hfresh Hk [cfg Hcfg] Hrel Hids Hm Hcl HV0.
  unfold exec_define_fulltext. fold analyzer. cbv zeta. rewrite Hcfg.
  rewrite (SE_bind_ok _ _ _ cfg (s, sv)) by done. fold def.
  destruct (add_definition_run ns db table name field (FullText analyzer) ltac:(done) ixs s sv Hl Hwf Hinv Hbt Hname Hfresh Hk)
    as [(e & He & Hput)|(s1 & ixs' & docs & Hput & Had)].
  { eexists _, s, sv. rewrite (SE_bind_err _ _ _ _ _ Hput). split; [done|]. right. by exists e. }
  rewrite (SE_bind_ok _ _ _ _ _ Hput). destruct Had as [Hin Hwf1 Hub Honly Hl1 Hi1 Hst1 Hscan Hall].
  assert (∀ id, texts ns db table ixs' field (contents s1) id = texts ns db table ixs field (contents s) id)
    as Htx by (intros id; unfold texts; by rewrite Hst1).
  destruct (ensure_closed table field Hrel sv analyzer cfg V0 Hcfg Hcl HV0 Hm) as (sv1 & Hr1 & Ho1 & Hm1 & _).
  rewrite (SE_bind_ok _ _ _ _ _ (services_run _ s1 _ _ _ Hr1)).
  rewrite (SE_bind_ok _ _ _ _ _ (store_run _ _ sv1 _ _ Hscan)).
  destruct (load_texts_run table field Hrel s1 docs sv1 V0 V0 Ho1 Hm1) as (sv2 & Hr2 & Ho2 & Hm2 & _).
  { intros doc Hd. destruct Hall as [_ Hall]. apply Hids. rewrite <- Hst1. exists doc. by apply Hall. }
  rewrite (SE_bind_ok _ _ _ _ _ Hr2).
  destruct (fts_commit_run table field Hrel sv2 Hm2) as (sv3 & Hr3 & Hm3 & _ & Hopen & _).
  rewrite (SE_bind_ok _ _ _ _ _ (services_run _ s1 _ _ _ Hr3)).
  set (V := fold_left (with_text field) docs V0) in *.
  assert (∀ id, V id = match texts ns db table ixs field (contents s) id with Some text => Some text | None => V0 id end) as HV.
  { intros id. unfold V. rewrite (loaded_texts ns db table field ixs' (contents s1) docs V0 id Hall). by rewrite Htx. }
  exists (Ok QOk), s1, sv3. split; [done|]. left. split; [done|]. exists ixs', V. split; [done|]. split_and!.
  - split; [done..|by exists cfg|by apply Hin; left|done].
  - split; [done|done| |].
    + intros id Hs. apply Hids. by rewrite <- Hst1.
    + split; [done|]. right. exists V. split; [by eapply Hopen|]. intros id Hn. rewrite Htx, HV.
      destruct (texts _ _ _ _ _ _ id) as [text|] eqn:Et; [done|].
      destruct (V0 id) eqn:E; [|done]. by destruct Hn.
  - intros id. by rewrite <- Hst1.
  - done.
Qed.

(** ** Serving statements and restarting *)
Inductive TextOp (W : Type) :=
  | TextStatement (o : Oracle) (stmt : Statement)
  (** The process ends; the next one finds the directories. *)
  | TextRestart (boot : W → W) (draws : nat → nat).
Arguments TextStatement {W} o stmt.
Arguments TextRestart {W} boot draws.

Section serve.
Context {S W : Type} `{KL : KvLaws S} `{FL : FieldsCodecLaws} `{DefCodec} `{CodeIntel} `{DebugFmt, KvCompact S}.
Context `{TL : TantivyLaws W} `{HL : HashOrderLaws} `{Unicode}.
Context (ns db table : string) (ixs : list IndexDefinition) (name field analyzer : string).
Abbreviation view := (string → option string).
Abbreviation texts := (texts ns db table ixs field).
Abbreviation current := (current ns db table ixs field).
Abbreviation text_inv := (text_inv ns db table ixs field).

Definition serve_text (op : TextOp W) (st : S * SearchServices W) : option (Result Failure QueryResult) * (S * SearchServices W) :=
  match op with
  | TextStatement o stmt => let '(r, st) := execute ns db o stmt st in (Some r, st)
  | TextRestart boot draws =>
      (None, (st.1, SearchServices_new (FtsManagers.base_dir (ss_fts st.2)) (boot (ss_engine st.2)) draws))
  end.
Fixpoint serve_texts (ops : list (TextOp W)) (st : S * SearchServices W) :
    list (option (Result Failure QueryResult)) * (S * SearchServices W) :=
  match ops with
  | [] => ([], st)
  | op :: ops' => let '(r, st) := serve_text op st in let '(rs, st) := serve_texts ops' st in (r :: rs, st)
  end.
(** A write under ids the engine indexes, a search, a restart. *)
Definition text_op_ok (op : TextOp W) : Prop :=
  match op with
  | TextStatement _ (Search t f _ _ _) => t = table ∧ f = field
  | TextStatement o stmt => writes_ok table id_fits (λ _, True) o stmt
  | TextRestart boot _ => ∀ w, reopened w (boot w)
  end.
(** The specification: the store, the committed texts, and the ids whose last
    write was lost. *)
Inductive text_step : S → view → (string → Prop) → TextOp W → option (Result Failure QueryResult) →
    S → view → (string → Prop) → Prop :=
  | step_write o stmt s V L r s' V' : writes_ok table id_fits (λ _, True) o stmt →
      Statements.execute ns db o stmt s = (match r with Ok q => Ok (Some q) | Err e => Err e end, s') →
      match r with Ok _ => current L V' (contents s') ∨ s' = s ∧ V' = V | Err _ => V' = V end →
      text_step s V L (TextStatement o stmt) (Some (from_store r)) s' V' L
  | step_search o query filter limit s V L r :
      search_answer (W := W) ns db table ixs V (contents s) query filter (limit_of limit) r →
      text_step s V L (TextStatement o (Search table field query filter limit)) (Some r) s V L
  | step_restart boot draws s V L :
      text_step s V L (TextRestart boot draws) None s V (λ id, V id ≠ texts (contents s) id).
Inductive text_steps : S → view → (string → Prop) → list (TextOp W) → list (option (Result Failure QueryResult)) →
    S → view → (string → Prop) → Prop :=
  | text_nil s V L : text_steps s V L [] [] s V L
  | text_cons s V L op r s1 V1 L1 ops rs s' V' L' : text_step s V L op r s1 V1 L1 → text_steps s1 V1 L1 ops rs s' V' L' →
      text_steps s V L (op :: ops) (r :: rs) s' V' L'.

Context (Hft : fulltext_table ns db table ixs name field analyzer).
Lemma restart_texts L V (st : S * SearchServices W) boot draws : (∀ w, reopened w (boot w)) → text_inv L V st →
  text_inv (λ id, V id ≠ texts (contents st.1) id) V
    (st.1, SearchServices_new (FtsManagers.base_dir (ss_fts st.2)) (boot (ss_engine st.2)) draws).
Proof.
  intros Hboot [Hl Hc Hids [Hm Hi]]. set (sv' := SearchServices_new _ _ _).
  assert (same_base st.2 sv') as Hb by done. pose proof (same_dir table field _ _ Hb) as Hd.
  destruct (Hboot (ss_engine st.2) (dir table field st.2)) as [Ed Hu].
  assert (texts_on_disk table field st.2 V) as HV.
  { destruct Hi as [(_ & ? & _)|(P & (_ & idx & cp & cv & _ & Hh & _ & HV) & _)]; [done|].
    unfold texts_on_disk. by rewrite (ih_disk _ _ _ _ _ Hh). }
  assert (texts_on_disk table field sv' V) as HV'.
  { unfold texts_on_disk in *. rewrite Hd. change (ss_engine sv') with (boot (ss_engine st.2)). by rewrite Ed. }
  split; [done..|]. split; [split; simpl; intros k idx; by rewrite lookup_empty|]. left. split; [|split; [exact HV'|]].
  - split; [simpl; set_solver|]. split; [apply lookup_empty|].
    change (unlocked (dir table field sv') (boot (ss_engine st.2))). by rewrite Hd.
  - intros id Hn. destruct (decide (V id = texts (contents st.1) id)); [done|]. by destruct Hn.
Qed.
Lemma serve_text_step op L V st : text_inv L V st → text_op_ok op →
  ∃ r s' sv' V' L', serve_text op st = (r, (s', sv')) ∧ text_step st.1 V L op r s' V' L' ∧ text_inv L' V' (s', sv').
Proof using KL FL TL HL Hft.
  intros Hs Hok. destruct op as [o stmt|boot draws]; cycle 1.
  { eexists None, st.1, _, V, _. split; [done|]. split; [constructor|]. by eapply restart_texts. }
  assert ((∃ t f q filter limit, stmt = Search t f q filter limit) ∨ writes_ok table id_fits (λ _, True) o stmt)
    as [(t & f & q & filter & limit & ->)|Hok'] by (destruct stmt; (by right) || (left; by do 5 eexists)).
  - destruct Hok as [-> ->]. destruct st as [s sv].
    destruct (exec_search_run ns db table ixs name field analyzer Hft L V s sv q filter limit Hs) as (r & sv' & Hr & Hs' & Ha).
    exists (Some r), s, sv', V, L. split; [unfold serve_text; simpl; by rewrite Hr|]. split; [by constructor|done].
  - pose proof Hft as [Hwf Hub _ _ _ _].
    destruct (execute_tracks ns db table ixs Hwf Hub (Mt := fulltext_maintained ns db table ixs name field analyzer Hft L V) o stmt st Hs Hok')
      as (r & s' & sv' & Hr0 & Hr & Hd).
    assert (∃ V', text_inv L V' (s', sv') ∧
      match r with Ok _ => current L V' (contents s') ∨ s' = st.1 ∧ V' = V | Err _ => V' = V end) as (V' & Hs' & HV).
    { destruct r as [q|e]; [|by exists V]. destruct Hd as [(V' & ? & ?)|E]; [exists V'; split; [done|by left]|].
      subst st. exists V. split; [done|by right]. }
    exists (Some (from_store r)), s', sv', V', L. split; [unfold serve_text; by rewrite Hr|]. split; [by econstructor|done].
Qed.
Lemma serve_texts_steps ops : ∀ L V st, text_inv L V st → Forall text_op_ok ops →
  ∃ rs s' sv' V' L', serve_texts ops st = (rs, (s', sv')) ∧ text_steps st.1 V L ops rs s' V' L' ∧ text_inv L' V' (s', sv').
Proof using KL FL TL HL Hft.
  induction ops as [|op ops IH]; intros L V st Hs Hok; cbn [serve_texts].
  { exists [], st.1, st.2, V, L. destruct st. split; [done|]. split; [constructor|done]. }
  apply Forall_cons in Hok as [Hop Hok]. destruct (serve_text_step op L V st Hs Hop) as (r & s1 & sv1 & V1 & L1 & -> & Hstep & Hs1).
  destruct (IH L1 V1 (s1, sv1) Hs1 Hok) as (rs & s' & sv' & V' & L' & -> & Hsteps & Hs').
  exists (r :: rs), s', sv', V', L'. split; [done|]. split; [by econstructor|done].
Qed.
End serve.

(** C3.  Full-text search follows the store up to commits: over an engine that
    behaves as documented, any sequence of writes, searches and restarts is
    served as the specification says.  Writes answer and store as without the
    index; a write that succeeds leaves every stored text committed, one that
    fails midway leaves the committed texts behind the store - the next commit
    catches up, a restart before it loses those texts; and every [SEARCH] with
    a limit answers with the best matching committed texts, each document
    once, in the order of the scores, the filter applied to the documents as
    stored - or with the error of the query parser.  A limit of zero panics. *)
Theorem fulltext_service_refines {S W} `{KL : KvLaws S} `{FL : FieldsCodecLaws} `{DefCodec} `{CodeIntel}
    `{DebugFmt, KvCompact S} `{TL : TantivyLaws W} `{HL : HashOrderLaws} `{Unicode} (ns db table : string)
    (ixs : list IndexDefinition) (name field analyzer : string) (ops : list (TextOp W)) (L : string → Prop)
    (V : string → option string) (st : S * SearchServices W) :
  fulltext_table ns db table ixs name field analyzer → text_inv ns db table ixs field L V st →
  Forall (text_op_ok table field) ops →
  ∃ rs s' sv' V' L', serve_texts ns db ops st = (rs, (s', sv')) ∧
    text_steps ns db table ixs field st.1 V L ops rs s' V' L' ∧ text_inv ns db table ixs field L' V' (s', sv').
Proof. intros Hft Hs Hok. by eapply serve_texts_steps. Qed.

(** ** A concrete process *)
#[local] Instance sorted_order : HashOrder := λ A m, map_to_list m.
#[local] Instance sorted_order_laws : HashOrderLaws.
Proof. intros A m. reflexivity. Qed.
#[local] Instance lowercase_only : Unicode := {| is_alphanumeric _ := true; to_lowercase s := s |}.
#[local] Instance blank_debug : DebugFmt := {| debug_literals _ := ""%string; debug_value _ := ""%string |}.
#[local] Instance never_compact : KvCompact MemRedb.db := λ s, (Ok false, s).
#[local] Existing Instances MemCodec.fields MemCodec.defs.
#[local] Existing Instances MemTantivy.engine MemTantivy.view MemTantivy.laws.

Definition first_services : SearchServices MemTantivy.fs :=
  SearchServices_new "data" (MemTantivy.MkFs ∅ ∅ ∅) (λ _, 0).
Definition by_body : IndexDefinition := MkIndexDefinition "by_body" ["body"%string] false (FullText "english").
Lemma notes_wf0 : coll_wf (MkCollection "n" "d" "notes" None []).
Proof. split; try compute_decide; by intros ? ?%elem_of_nil || intros ? ? ?%elem_of_nil. Qed.
Lemma nothing_open : others_ok first_services.
Proof. split; simpl; intros k idx; by rewrite lookup_empty. Qed.
Lemma notes_closed : closed "notes" "body" first_services.
Proof. split; [simpl; set_solver|]. split; reflexivity. Qed.
Lemma nothing_on_disk : texts_on_disk "notes" "body" first_services (λ _, None).
Proof. unfold texts_on_disk. apply represents_no_texts. Qed.

Lemma define_fulltext_contract_witness :
  ∃ s' sv', exec_define_fulltext "n" "d" "by_body" "notes" "body" (Some "english"%string) (MemRedb.empty, first_services)
      = (Ok QOk, (s', sv')) ∧ ∃ ixs', fulltext_table "n" "d" "notes" ixs' "by_body" "body" "english".
Proof.
  destruct (define_fulltext_contract "n" "d" "notes" [] "by_body" "body" (Some "english"%string) MemRedb.empty first_services
    (λ _, None)) as (r & s' & sv' & Hr & Hc).
  - reflexivity.
  - exact notes_wf0.
  - apply coll_inv_empty.
  - by intros ? ?%elem_of_nil.
  - compute_decide.
  - by intros ? ?%elem_of_nil.
  - reflexivity.
  - by eexists.
  - done.
  - done.
  - exact nothing_open.
  - exact notes_closed.
  - exact nothing_on_disk.
  - exists s', sv'. destruct Hc as [(-> & ixs' & V & _ & Hft & _)|(e & He & _)].
    + split; [done|]. by exists ixs'.
    + vm_compute in He. discriminate He.
Defined.

(** A process started on the store after the definition. *)
Definition notes_store : MemRedb.db :=
  (exec_define_fulltext "n" "d" "by_body" "notes" "body" (Some "english"%string) (MemRedb.empty, first_services)).2.1.
Lemma notes_contents b : def_to_vec by_body = Ok b →
  contents notes_store = oinsert (index_catalog_key "n" "d" "notes" "by_body") b [].
Proof.
  intros Hb. destruct (def_to_vec by_body) as [b'|] eqn:E; [|done]. injection Hb as <-. revert E. vm_compute. by intros [= <-].
Qed.
Lemma notes_table : fulltext_table "n" "d" "notes" [by_body] "by_body" "body" "english".
Proof.
  split.
  - apply (search_index_wf "n" "d" "notes" "by_body" "body" (FullText "english") [] [] notes_wf0);
      [compute_decide|by intros ? ?%elem_of_nil].
  - intros idx ->%list_elem_of_singleton. done.
  - done.
  - by eexists.
  - by left.
  - intros d ->%list_elem_of_singleton. by left.
Qed.
Lemma notes_inv : text_inv "n" "d" "notes" [by_body] "body" (λ _, False) (λ _, None) (notes_store, first_services).
Proof.
  destruct (def_to_vec by_body) as [b|] eqn:Hb; [|vm_compute in Hb; discriminate Hb]. pose proof (notes_contents b Hb) as Hc.
  destruct (search_index_inv "n" "d" "notes" "by_body" "body" (FullText "english") [] [] ltac:(done) [] b (coll_inv_empty _)) as [Hi Hst].
  rewrite <- Hc in Hi, Hst. split.
  - vm_compute. reflexivity.
  - exact Hi.
  - done.
  - split; [exact nothing_open|]. left. split; [exact notes_closed|]. split; [exact nothing_on_disk|].
    intros id _. unfold texts. cbn [fst]. change [by_body] with ([] ++ by_body :: []). unfold by_body. by rewrite Hst.
Qed.

Definition note (id body : string) : TextOp MemTantivy.fs :=
  TextStatement plain_oracle (Create "notes" (Some id) [("body"%string, LString body)] None).
Definition look (query : string) (limit : Z) : TextOp MemTantivy.fs :=
  TextStatement plain_oracle (Search "notes" "body" query None (Some limit)).
Definition restart : TextOp MemTantivy.fs := TextRestart MemTantivy.boot (λ _, 0).
Definition note_ops : list (TextOp MemTantivy.fs) :=
  [note "a" "old red"; note "b" "new red"; look "red" 10; look "red" 1;
   TextStatement plain_oracle (Update (FromRecord (MkRecordRef "notes" "a")) [("body"%string, LString "old blue")] None);
   restart; look "red" 10; TextStatement plain_oracle (Ast.Delete "notes" "b"); look "red" 10; look "blue" 10; look "red" 0].
Lemma note_ops_ok : Forall (text_op_ok "notes" "body") note_ops.
Proof.
  assert (∀ id body, is_str id → text_op_ok "notes" "body" (note id body)) as Hn by (intros id body Hid; by split_and!).
  assert (∀ query limit, text_op_ok "notes" "body" (look query limit)) as Hl by done.
  unfold note_ops. apply Forall_cons. split; [apply Hn; compute_decide|]. apply Forall_cons. split; [apply Hn; compute_decide|].
  repeat (apply Forall_cons; split); done || (intros w; apply MemTantivy.boot_reopened).
Qed.
Lemma fulltext_service_refines_witness :
  ∃ rs s' sv' V' L', serve_texts "n" "d" note_ops (notes_store, first_services) = (rs, (s', sv')) ∧
    text_steps "n" "d" "notes" [by_body] "body" notes_store (λ _, None) (λ _, False) note_ops rs s' V' L'.
Proof.
  destruct (fulltext_service_refines "n" "d" "notes" [by_body] "by_body" "body" "english" note_ops (λ _, False) (λ _, None)
    (notes_store, first_services) notes_table notes_inv note_ops_ok) as (rs & s' & sv' & V' & L' & Hrun & Hspec & _).
  exists rs, s', sv', V', L'. exact (conj Hrun Hspec).
Defined.

(** The ids found by the searches of a run; [None] for what is no search. *)
Definition found_ids (ops : list (TextOp MemTantivy.fs)) : list (option (list Value)) :=
  map (λ r, match r with Some (Ok (QRows rows)) => Some (omap (oget "id"%string) rows) | _ => None end)
    (serve_texts "n" "d" ops (notes_store, first_services)).1.
Example note_answers : found_ids note_ops =
  [None; None; Some [VString "notes:a"; VString "notes:b"]; Some [VString "notes:a"]; None; None; Some [VString "notes:b"];
   None; Some []; Some [VString "notes:a"]; None]%string.
Proof. vm_compute. reflexivity. Qed.
(** A limit of zero panics. *)
Example limit_zero_panics : (serve_text "n" "d" (look "red" 0) (notes_store, first_services)).1 = Some (Err Panicked).
Proof. vm_compute. reflexivity. Qed.
(** An [UPDATE] that fails at its second row - a B-tree entry that cannot be
    encoded - has stored the first one, whose text is not committed: searches
    miss it until the next commit, and after a restart for good. *)
Definition failed_update : list (TextOp MemTantivy.fs) :=
  [TextStatement plain_oracle (DefineIndex "by_ab" "notes" ["a"; "b"]%string false); note "r1" "old";
   TextStatement plain_oracle (Create "notes" (Some "r2") [("body", LString "old"); ("b", LInt 1)] None);
   TextStatement plain_oracle (Update (FromTable "notes") [("body", LString "new"); ("a", LArray [])] None)]%string.
Example failed_update_unseen :
  found_ids (failed_update ++ [look "new" 10; note "r3" "other"; look "new" 10]) =
    [None; None; None; None; Some []; None; Some [VString "notes:r1"%string]] ∧
  found_ids (failed_update ++ [restart; note "r3" "other"; look "new" 10]) =
    [None; None; None; None; None; None; Some []] ∧
  found_ids (failed_update ++ [restart; TextStatement plain_oracle (Select SAll (FromTable "notes")
    (Some (WCmp (SField "body") OpEq (LString "new"%string))) [] None)]) = [None; None; None; None; None; Some [VString "notes:r1"%string]].
Proof. split_and!; vm_compute; reflexivity. Qed.
(** Defining the index again with another analyzer leaves the open one as it
    is, and reports success. *)
Example analyzer_kept :
  let again := TextStatement plain_oracle (DefineFulltextIndex "by_body" "notes" "body" (Some "simple"%string)) in
  let st := (serve_texts "n" "d" [note "a" "x"] (notes_store, first_services)).2 in
  (serve_text "n" "d" again st).1 = Some (Ok QOk) ∧ ss_engine (serve_text "n" "d" again st).2.2 = ss_engine st.2.
Proof. split; vm_compute; reflexivity. Qed.
