(* ===== verification/Server.v ===== *)
(** * The server and the command line (crates/server/src/main.rs, crates/cli/src/main.rs)

    Running query texts over the store, the search services, the versions and
    the cache, as both programs do, and the line protocol: one connection is a
    sequence of lines, answered with one line of text per request.  A line
    that cannot be read is [None]; a panic ends the task of the connection. *)

From stdpp Require Import gmap.
From S2P Require Export Session SearchExecutor.
Open Scope nat_scope.

(** ** The process *)
Record Server (S L W : Type) `{Tantivy W} := MkServer {
  sv_store : S;
  sv_search : SearchServices W;
  sv_versions : WriteVersions;
  (** [None]: its lock is poisoned. *)
  sv_cache : option (ComputeCache L)
}.
#[global] Arguments MkServer {_ _ _ _} _ _ _ _.
#[global] Arguments sv_store {_ _ _ _} _.
#[global] Arguments sv_search {_ _ _ _} _.
#[global] Arguments sv_versions {_ _ _ _} _.
#[global] Arguments sv_cache {_ _ _ _} _.

Section server.
Context {S L W : Type} `{KvStore S} `{FieldsCodec} `{DefCodec} `{CodeIntel} `{DebugFmt} `{KvCompact S}.
Context `{JsonRows} `{!Lru L CacheKey CacheEntry} `{Tantivy W, HashOrder, Unicode} (ns db : string).
Abbreviation Process := (Server S L W).
(** A request's computation. *)
Abbreviation R := (SE Process Failure).

(** [run] after parsing. *)
Definition lookup_cache (stmt : Statement) (outcome : OutcomeFormat) : R (option string) := λ p,
  match cache_kind_of stmt, sv_cache p with
  | None, _ => (Ok None, p)
  | Some _, None => (Err Panicked, p)
  | Some _, Some cache =>
      let '(hit, cache) := try_cache_hit ns db stmt outcome (sv_versions p) cache in
      (Ok hit, MkServer (sv_store p) (sv_search p) (sv_versions p) (Some cache))
  end.
Definition run_execute (o : Oracle) (stmt : Statement) : R QueryResult := λ p,
  let '(r, (s, sv)) := WithServices.execute ns db o stmt (sv_store p, sv_search p) in
  (r, MkServer s sv (sv_versions p) (sv_cache p)).
Definition finish (stmt : Statement) (r : QueryResult) (outcome : OutcomeFormat) : R unit := λ p,
  match stmt, r with
  | Relate _ edge_type _ _, QOk =>
      (Ok tt, MkServer (sv_store p) (sv_search p) (Versions.bump (sv_versions p) ns db edge_type) (sv_cache p))
  | _, _ =>
      match cache_kind_of stmt, sv_cache p with
      | Some _, Some cache =>
          match post_execute ns db stmt r outcome (sv_versions p) cache with
          | Some (versions, cache) => (Ok tt, MkServer (sv_store p) (sv_search p) versions (Some cache))
          | None => (Err Panicked, MkServer (sv_store p) (sv_search p) (sv_versions p) None)
          end
      | _, _ => (Ok tt, p)
      end
  end.
Definition run_statement (o : Oracle) (stmt : Statement) (outcome : OutcomeFormat) : R (QueryResult * OutcomeFormat) :=
  hit ← lookup_cache stmt outcome;
  match hit with
  | Some payload => mret (QCachedResponse payload, outcome)
  | None => r ← run_execute o stmt; _ ← finish stmt r outcome; mret (r, outcome)
  end.
(** A result of the parser; [None] would be a panic. *)
Definition parsed (query : string) : Result Failure Query := r ← ok_or (parse query) Panicked; from_store r.
Definition run (o : Oracle) (query : string) : R (QueryResult * OutcomeFormat) :=
  q ← lift (parsed query); run_statement o (q_statement q) (q_outcome q).

(** [execute_batch] with its last step. *)
Definition run_batch (stmts : list (string * Statement)) : R QueryResult := λ p,
  match WithServices.execute_batch ns db stmts (sv_store p, sv_search p) with
  | (Err e, (s, sv)) => (Err e, MkServer s sv (sv_versions p) (sv_cache p))
  | (Ok r, (s, sv)) => (Ok r, MkServer s sv (bump_relates ns db (map snd stmts) (sv_versions p)) (sv_cache p))
  end.

(** ** Lines *)
Definition encode_char (c : char) : bytes :=
  let b (n : N) := z2b (Z.of_N n) in
  if (c <? 0x80)%N then [b c]
  else if (c <? 0x800)%N then [b (0xC0 + c / 64); b (0x80 + c mod 64)]%N
  else if (c <? 0x10000)%N then [b (0xE0 + c / 4096); b (0x80 + c / 64 mod 64); b (0x80 + c mod 64)]%N
  else [b (0xF0 + c / 262144); b (0x80 + c / 4096 mod 64); b (0x80 + c / 64 mod 64); b (0x80 + c mod 64)]%N.
Definition of_chars (cs : list char) : string := str_of_bytes (concat (map encode_char cs)).
Fixpoint skip_semicolons (cs : list char) : list char :=
  match cs with c :: cs' => if (c =? 59)%N then skip_semicolons cs' else cs | [] => [] end.
(** [trim_end_matches(';')] *)
Definition trim_semicolons (cs : list char) : list char := reverse (skip_semicolons (reverse cs)).
(** [line.trim().trim_end_matches(';').trim()] *)
Definition clean (line : string) : string :=
  of_chars (trim (trim_semicolons (trim (decode_utf8 (as_bytes line))))).
Definition lower_byte_of (b : Z) : Z := if (65 <=? b)%Z && (b <=? 90)%Z then (b + 32)%Z else b.
Definition eq_ignore_ascii_case (a b : string) : bool :=
  bool_decide (map (λ c, lower_byte_of (b2z c)) (as_bytes a) = map (λ c, lower_byte_of (b2z c)) (as_bytes b)).

(** ** One connection of the server *)
Section connection.
(** The choices of each request, and whether the text of a response reaches
    the client. *)
Context (o : nat → Oracle) (written : nat → bool).

(** The task of a connection: [None] is its panic. *)
Definition respond (r : Result Failure (QueryResult * OutcomeFormat)) : option string :=
  match r with
  | Ok (result, outcome) => Some (format_result result outcome)
  | Err (Fail e) => Some (format_error e Json)
  | Err Panicked => None
  end.
(** The loop from [BEGIN BATCH] to [END BATCH]: the statements, the first
    error, and the lines left. *)
Fixpoint read_batch (lines : list (option string)) (batch_stmts : list Statement) (batch_err : option string) :
    Result Failure (list Statement * option string * list (option string)) :=
  match lines with
  | Some batch_line :: lines' =>
      let bq := clean batch_line in
      if eq_ignore_ascii_case bq "END BATCH" then Ok (batch_stmts, batch_err, lines')
      else if bool_decide (bq = ""%string) then read_batch lines' batch_stmts batch_err
      else match batch_err with
           | Some _ => read_batch lines' batch_stmts batch_err
           | None =>
               match parsed bq with
               | Ok q => read_batch lines' (batch_stmts ++ [q_statement q]) None
               | Err (Fail err) => read_batch lines' batch_stmts (Some (format_error err Json))
               | Err Panicked => Err Panicked
               end
           end
  | None :: lines' => Ok (batch_stmts, batch_err, lines')
  | [] => Ok (batch_stmts, batch_err, [])
  end.
Definition batch_response (i : nat) (batch_stmts : list Statement) (batch_err : option string) (p : Process) :
    option string * Process :=
  match batch_err with
  | Some err_resp => (Some err_resp, p)
  | None =>
      let '(r, p) := run_batch (imap (λ j stmt, (o_uuid (o i) j, stmt)) batch_stmts) p in
      (respond (r ← r; Ok (r, Json)), p)
  end.

Inductive ConnEnd := Closed | WriteFailed | Crashed.
(** [i] requests were answered before. *)
Fixpoint serve_connection (fuel i : nat) (lines : list (option string)) (p : Process) :
    option (list string * ConnEnd * Process) :=
  match fuel with
  | 0 => None
  | Datatypes.S fuel =>
      (* [writer.write_all(response)], and on with the lines left. *)
      let send lines '(response, p) :=
        match response with
        | None => Some ([], Crashed, p)
        | Some text =>
            if written i then '(out, e, p) ← serve_connection fuel (i + 1) lines p; Some (text :: out, e, p)
            else Some ([], WriteFailed, p)
        end in
      match lines with
      | Some line :: lines =>
          let query := clean line in
          if bool_decide (query = ""%string) then serve_connection fuel i lines p
          else if eq_ignore_ascii_case query "BEGIN BATCH" then
            match read_batch lines [] None with
            | Ok (batch_stmts, batch_err, lines) => send lines (batch_response i batch_stmts batch_err p)
            | Err _ => Some ([], Crashed, p)
            end
          else let '(r, p) := run (o i) query p in send lines (respond r, p)
      | _ => Some ([], Closed, p)
      end
  end.
End connection.

(** ** The shell *)
Inductive ReadLine := RLine (line : string) | RInterrupted | REof | RError (msg : string).
Inductive Output := Stdout (text : string) | Stderr (text : string).
(** The Markdown renderer and serde_json's reformatting. *)
Class Renderer := { md : string → string; prettify_json : string → option string }.
Section shell.
Context `{Renderer} (o : nat → Oracle).
Local Open Scope string_scope.
Definition content (raw lang : string) : string :=
  if String.eqb lang "json" then default raw (prettify_json raw) else raw.
Definition code (raw lang : string) : string :=
  md ("```" ++ lang ++ newline ++ content raw lang ++ newline ++ "```").
Definition error (raw lang : string) : string :=
  md ("**error**" ++ newline ++ newline ++ "```" ++ lang ++ newline ++ content raw lang ++ newline ++ "```").
Definition outcome_lang (outcome : OutcomeFormat) : string :=
  match outcome with Json => "json" | Toon => "toml" | Csv => "csv" end.
Context (HELP : string).
(** The read loop; [None] is a panic. *)
Fixpoint repl (i : nat) (lines : list ReadLine) (p : Process) : option (list Output) * Process :=
  match lines with
  | RLine line :: lines' =>
      let trimmed := of_chars (trim (decode_utf8 (as_bytes line))) in
      if bool_decide (trimmed = "") then repl i lines' p
      else if String.eqb trimmed ".quit" || String.eqb trimmed ".exit" then (Some [Stdout (md "*Bye.*")], p)
      else if String.eqb trimmed ".help" then
        let '(out, p) := repl i lines' p in (cons (Stdout (md HELP)) <$> out, p)
      else
        let query := of_chars (trim (trim_semicolons (decode_utf8 (as_bytes trimmed)))) in
        match run (o i) query p with
        | (Ok (result, outcome), p) =>
            let '(out, p) := repl (i + 1) lines' p in
            (cons (Stdout (code (format_result result outcome) (outcome_lang outcome))) <$> out, p)
        | (Err (Fail err), p) =>
            let '(out, p) := repl (i + 1) lines' p in
            (cons (Stderr (error (format_error err Json) "json")) <$> out, p)
        | (Err Panicked, p) => (None, p)
        end
  | RError err :: _ => (Some [Stderr (error (dq "{'error':'" ++ err ++ dq "'}") "json"); Stdout (md "*Bye.*")], p)
  | _ => (Some [Stdout (md "*Bye.*")], p)
  end.
End shell.
End server.

(** [args.windows(2).find(|w| w[0] == flag).map(|w| w[1].clone())] *)
Fixpoint get_arg (args : list string) (flag : string) : option string :=
  match args with
  | a :: ((b :: _) as args') => if String.eqb a flag then Some b else get_arg args' flag
  | _ => None
  end.
Definition has_flag (args : list string) (flag : string) : bool := existsb (String.eqb flag) args.
