(* ===== verification/ServerSpec.v ===== *)
(** * The server, specified

    A connection is cut into requests, each answered once and in order; a
    batch is all or nothing. *)

From stdpp Require Import gmap.
From S2P Require Export ServiceRuns Server ParserTotal CollectionTheorems ExecutorRows.
Open Scope nat_scope.

(** ** Requests *)
Inductive Request := Single (query : string) | Batch (lines : list string).
(** [batch]: the lines of the batch that is open. *)
Fixpoint frame (batch : option (list string)) (lines : list (option string)) : list Request :=
  match lines, batch with
  | Some line :: lines, None =>
      let query := clean line in
      if bool_decide (query = ""%string) then frame None lines
      else if eq_ignore_ascii_case query "BEGIN BATCH" then frame (Some []) lines
      else Single query :: frame None lines
  | Some line :: lines, Some ls =>
      let query := clean line in
      if eq_ignore_ascii_case query "END BATCH" then Batch ls :: frame None lines
      else if bool_decide (query = ""%string) then frame (Some ls) lines
      else frame (Some (ls ++ [query])) lines
  | None :: lines, Some ls => Batch ls :: frame None lines
  | [], Some ls => [Batch ls]
  | None :: _, None | [], None => []
  end.

Section answers.
Context {S L W : Type} `{KvStore S} `{FieldsCodec} `{DefCodec} `{CodeIntel} `{DebugFmt} `{KvCompact S}.
Context `{JsonRows} `{!Lru L CacheKey CacheEntry} `{Tantivy W, HashOrder, Unicode} (ns db : string).
Context (o : nat → Oracle) (written : nat → bool).
Abbreviation Process := (Server S L W).

Definition answer (i : nat) (req : Request) (p : Process) : option string * Process :=
  match req with
  | Single query => let '(r, p) := run ns db (o i) query p in (respond r, p)
  | Batch lines =>
      match traverse parsed lines with
      | Ok qs => batch_response ns db o i (map q_statement qs) None p
      | Err (Fail e) => (Some (format_error e Json), p)
      | Err Panicked => (None, p)
      end
  end.
Fixpoint answer_all (i : nat) (reqs : list Request) (p : Process) : list string * ConnEnd * Process :=
  match reqs with
  | [] => ([], Closed, p)
  | req :: reqs' =>
      match answer i req p with
      | (None, p) => ([], Crashed, p)
      | (Some text, p) =>
          if written i then let '(out, e, p) := answer_all (i + 1) reqs' p in (text :: out, e, p)
          else ([], WriteFailed, p)
      end
  end.

Lemma read_batch_frame lines : ∀ acc stmts err, ∃ ls rest, length rest ≤ length lines ∧
  frame (Some acc) lines = Batch (acc ++ ls) :: frame None rest ∧
  match err with
  | Some e => ∃ ss, read_batch lines stmts (Some e) = Ok (ss, Some e, rest)
  | None => match traverse parsed ls with
            | Ok qs => read_batch lines stmts None = Ok (stmts ++ map q_statement qs, None, rest)
            | Err (Fail e) => ∃ ss, read_batch lines stmts None = Ok (ss, Some (format_error e Json), rest)
            | Err Panicked => read_batch lines stmts None = Err Panicked
            end
  end.
Proof.
  induction lines as [|[line|] lines IH]; intros acc stmts err; cbn [frame read_batch].
  - exists [], []. rewrite app_nil_r. split; [done|]. split; [done|]. destruct err; [by eexists|]. simpl. by rewrite app_nil_r.
  - destruct (eq_ignore_ascii_case _ _).
    { exists [], lines. rewrite app_nil_r. split; [simpl; lia|]. split; [done|]. destruct err; [by eexists|]. simpl. by rewrite app_nil_r. }
    case_bool_decide as Hempty.
    { destruct (IH acc stmts err) as (ls & rest & Hl & Hf & Hr). exists ls, rest. split; [simpl; lia|]. by split. }
    destruct err as [e|].
    { destruct (IH (acc ++ [clean line]) stmts (Some e)) as (ls & rest & Hl & Hf & Hr). exists (clean line :: ls), rest.
      split; [simpl; lia|]. split; [by rewrite Hf, <- app_assoc|done]. }
    destruct (parsed (clean line)) as [q|[e|]] eqn:Eq.
    + destruct (IH (acc ++ [clean line]) (stmts ++ [q_statement q]) None) as (ls & rest & Hl & Hf & Hr). exists (clean line :: ls), rest.
      split; [simpl; lia|]. split; [by rewrite Hf, <- app_assoc|]. cbn [traverse]. rewrite Eq. simpl.
      destruct (traverse parsed ls) as [qs|[e|]]; simpl; [by rewrite <- app_assoc in Hr|done..].
    + destruct (IH (acc ++ [clean line]) stmts (Some (format_error e Json))) as (ls & rest & Hl & Hf & Hr). exists (clean line :: ls), rest.
      split; [simpl; lia|]. split; [by rewrite Hf, <- app_assoc|]. cbn [traverse]. by rewrite Eq.
    + destruct (IH (acc ++ [clean line]) stmts None) as (ls & rest & Hl & Hf & Hr). exists (clean line :: ls), rest.
      split; [simpl; lia|]. split; [by rewrite Hf, <- app_assoc|]. cbn [traverse]. by rewrite Eq.
  - exists [], lines. rewrite app_nil_r. split; [simpl; lia|]. split; [done|]. destruct err; [by eexists|]. simpl. by rewrite app_nil_r.
Qed.

Lemma connection_frame fuel : ∀ i lines p, length lines < fuel →
  serve_connection ns db o written fuel i lines p = Some (answer_all i (frame None lines) p).
Proof.
  induction fuel as [|fuel IH]; intros i lines p Hf; [lia|]. cbn [serve_connection].
  assert (∀ rest req, length rest < fuel →
    (let '(response, p) := answer i req p in
     match response with
     | None => Some ([], Crashed, p)
     | Some text => if written i then '(out, e, p) ← serve_connection ns db o written fuel (i + 1) rest p; Some (text :: out, e, p)
                    else Some ([], WriteFailed, p)
     end) = Some (answer_all i (req :: frame None rest) p)) as Hsend.
  { intros rest req Hr. cbn [answer_all]. destruct (answer i req p) as [[text|] p1]; [|done]. destruct (written i); [|done].
    rewrite IH by done. simpl. by destruct (answer_all (i + 1) _ p1) as [[? ?] ?]. }
  destruct lines as [|[line|] lines]; [done| |done]. cbn [frame]. simpl in Hf.
  case_bool_decide; [apply IH; lia|]. destruct (eq_ignore_ascii_case _ _).
  - destruct (read_batch_frame lines [] [] None) as (ls & rest & Hl & -> & Hr). rewrite <- Hsend by lia. cbn [answer app].
    destruct (traverse parsed ls) as [qs|[e|]].
    + rewrite Hr. done.
    + destruct Hr as [ss ->]. done.
    + by rewrite Hr.
  - rewrite <- Hsend by lia. cbn [answer]. by destruct (run _ _ _ _ p).
Qed.

Lemma answered_count reqs : ∀ i p, let '(out, e, _) := answer_all i reqs p in
  length out ≤ length reqs ∧ (e = Closed ↔ length out = length reqs).
Proof.
  induction reqs as [|req reqs IH]; intros i p; cbn [answer_all]; [done|].
  destruct (answer i req p) as [[text|] p1]; [|simpl; split; [lia|split; [done|lia]]].
  destruct (written i); [|simpl; split; [lia|split; [done|lia]]].
  specialize (IH (i + 1) p1). destruct (answer_all (i + 1) reqs p1) as [[out e] p2]. simpl. destruct IH as [Hl He].
  split; [lia|]. rewrite He. lia.
Qed.
End answers.

(** ** Batches *)
Definition batchable (stmt : Statement) : Prop :=
  match stmt with Create _ _ _ _ | Relate _ _ _ _ => True | _ => False end.
Section batch_reads.
Context {S W : Type} `{KA : KvAtomic S} `{FieldsCodec} `{DefCodec} `{CodeIntel} `{DebugFmt} `{KvCompact S}.
Context `{Tantivy W, HashOrder, Unicode} (ns db : string).

Lemma upsert_to_ops_ro coll id doc fields : read_only (Collections.upsert_to_ops coll id doc fields : M S _).
Proof using KA.
  pose proof (get_coll_ro coll). pose proof (check_unique_all_ro coll).
  unfold Collections.upsert_to_ops, DllbStorage.contains. atomic_solve.
Qed.
Lemma batch_step_ro uuid stmt b : read_only (batch_step ns db uuid stmt b : M S batch_state).
Proof using KA.
  pose proof upsert_to_ops_ro. unfold batch_step, cached_definitions, load_index_definitions, DllbStorage.prefix_scan.
  destruct stmt; atomic_solve.
Qed.
Lemma batch_loop_ro stmts : ∀ b, read_only (batch_loop ns db stmts b : M S batch_state).
Proof using KA.
  induction stmts as [|[uuid stmt] stmts IH]; intros b; simpl; [atomic_solve|].
  apply read_bind; [apply batch_step_ro|]. intros b'. apply IH.
Qed.
Lemma batch_loop_batchable stmts : ∀ b s b' s', batch_loop ns db stmts b s = (Ok b', s') → Forall batchable (map snd stmts).
Proof.
  induction stmts as [|[uuid stmt] stmts IH]; intros b s b' s' Hr; simpl; [constructor|]. cbn [batch_loop] in Hr.
  apply SE_bind_inv in Hr as (b1 & s1 & Hs & Hr). constructor; [|by eapply IH]. by destruct stmt.
Qed.
(** The loop with services collects what to maintain beside. *)
Lemma service_loop stmts : ∀ b creates s (sv : SearchServices W),
  match batch_loop ns db stmts b s with
  | (Ok b', s') => ∃ cs, WithServices.batch_loop ns db stmts b creates (s, sv) = (Ok (b', cs), (s', sv))
  | (Err e, s') => WithServices.batch_loop ns db stmts b creates (s, sv) = (Err (Fail e), (s', sv))
  end.
Proof.
  induction stmts as [|[uuid stmt] stmts IH]; intros b creates s sv; cbn [batch_loop WithServices.batch_loop];
    [by eexists|].
  unfold WithServices.store. unfold mbind, SE_bind. simpl. destruct (batch_step ns db uuid stmt b s) as [[b1|e] s1]; [|done].
  apply IH.
Qed.

(** Search maintenance only reads the store. *)
Definition keeps_store {A} (m : SE (S * SearchServices W) Failure A) : Prop := ∀ st, (m st).2.1 = st.1.
Lemma keeps_bind {A B} (m : SE (S * SearchServices W) Failure A) (f : A → SE (S * SearchServices W) Failure B) :
  keeps_store m → (∀ a, keeps_store (f a)) → keeps_store (m ≫= f).
Proof.
  intros Hm Hf st. specialize (Hm st). unfold mbind, SE_bind. destruct (m st) as [[a|e] st1]; [|done]. by rewrite Hf.
Qed.
Lemma keeps_store_read {A} (m : M S A) : read_only m → keeps_store (WithServices.store m).
Proof. intros Hm [s sv]. unfold WithServices.store. simpl. destruct (m s) as [r s'] eqn:E. by apply Hm in E as ->. Qed.
Lemma keeps_services {A} (m : SE (SearchServices W) Failure A) : keeps_store (WithServices.services m).
Proof. intros [s sv]. unfold WithServices.services. simpl. by destruct (m sv). Qed.
Lemma keeps_mret {A} (a : A) : keeps_store (mret a). Proof. done. Qed.
Lemma keeps_throw {A} e : keeps_store (throw e : SE (S * SearchServices W) Failure A). Proof. done. Qed.
Lemma keeps_lift {A} r : keeps_store (lift r : SE (S * SearchServices W) Failure A). Proof. done. Qed.
Lemma keeps_for_each {A} (body : A → SE (S * SearchServices W) Failure unit) l :
  (∀ x, keeps_store (body x)) → keeps_store (for_each body l).
Proof. intros Hb. induction l as [|x l IH]; cbn [for_each]; [done|]. by apply keeps_bind. Qed.
Lemma keeps_guarded {A} name (body : SE (S * SearchServices W) Failure A) : keeps_store body → keeps_store (WithServices.guarded name body).
Proof. intros Hb st. specialize (Hb st). unfold WithServices.guarded. by destruct (body st) as [[|[]] []]. Qed.
Lemma keeps_fail {A} e : keeps_store (WithServices.fail e : SE (S * SearchServices W) Failure A). Proof. done. Qed.
Create HintDb keeps.
Hint Resolve keeps_services keeps_mret keeps_throw keeps_lift keeps_fail : keeps.
Ltac keeps_step :=
  match goal with
  | |- keeps_store (_ ≫= _) => apply keeps_bind; [|intros ?]
  | |- keeps_store (WithServices.store _) => apply keeps_store_read
  | |- keeps_store (for_each _ _) => apply keeps_for_each; intros ?
  | |- keeps_store (WithServices.guarded _ _) => apply keeps_guarded
  | |- keeps_store (match ?x with _ => _ end) => destruct x
  | |- _ => solve [auto with keeps]
  end.
Lemma keeps_maintain id t doc defs : keeps_store (WithServices.maintain_search_indexes (S := S) (W := W) ns db t id doc defs).
Proof using KA.
  unfold WithServices.maintain_search_indexes. apply keeps_for_each. intros def. unfold WithServices.maintain_index,
    WithServices.ensure_vector_loaded. repeat keeps_step.
  - unfold Collections.scan_all, DllbStorage.prefix_scan. atomic_solve.
  - unfold WithServices.load_vector. repeat keeps_step.
Qed.
Lemma keeps_maintained cache creates : keeps_store (
  match creates with
  | [] => mret tt
  | _ => _ ← for_each (WithServices.maintain_created (S := S) (W := W) ns db cache) creates; WithServices.commit_search
  end).
Proof using KA.
  destruct creates; [done|]. apply keeps_bind; [|intros ?; apply keeps_services]. apply keeps_for_each. intros c.
  unfold WithServices.maintain_created. apply keeps_bind; [apply keeps_store_read, get_coll_ro|].
  intros [doc|]; [apply keeps_maintain|done].
Qed.

Lemma execute_batch_cases stmts s (sv : SearchServices W) r s' sv' :
  WithServices.execute_batch ns db stmts (s, sv) = (r, (s', sv')) →
  (∃ e, r = Err (Fail e) ∧ s' = s ∧ sv' = sv) ∨
  (∃ b, batch_loop ns db stmts (MkBatch [] [] 0 0 ∅) s = (Ok b, s) ∧ Forall batchable (map snd stmts) ∧
     kv_write_batch (all_puts b) (all_deletes b) s = (Ok tt, s')).
Proof using KA.
  unfold WithServices.execute_batch. intros E. pose proof (service_loop stmts (MkBatch [] [] 0 0 ∅) [] s sv) as Hloop.
  destruct (batch_loop ns db stmts (MkBatch [] [] 0 0 ∅) s) as [[b|e] s1] eqn:Eb; pose proof (batch_loop_ro _ _ _ _ _ Eb) as ->.
  2: { rewrite (SE_bind_err _ _ _ _ _ Hloop) in E. injection E as <- <- <-. left. by exists e. }
  destruct Hloop as [cs Hloop]. rewrite (SE_bind_ok _ _ _ _ _ Hloop) in E.
  destruct (kv_write_batch (all_puts b) (all_deletes b) s) as [[[]|e] s1] eqn:Ew.
  - right. exists b. split; [done|]. split; [by eapply batch_loop_batchable|].
    rewrite (SE_bind_ok _ _ (s, sv) tt (s1, sv)) in E by (unfold WithServices.store, DllbStorage.write_batch; simpl; by rewrite Ew).
    pose proof (keeps_bind _ (λ _, mret (QBatch (length stmts) (b_created b) (b_updated b)))
      (keeps_maintained (idx_cache b) cs) (λ _, keeps_mret _) (s1, sv)) as Hk. rewrite E in Hk. simpl in Hk. by rewrite Ew, Hk.
  - apply write_batch_atomic in Ew as Hs. subst s1. left. exists e.
    rewrite (SE_bind_err _ _ (s, sv) (Fail e) (s, sv)) in E by (unfold WithServices.store, DllbStorage.write_batch; simpl; by rewrite Ew).
    by injection E as <- <- <-.
Qed.
End batch_reads.

(** ** Tables without search indexes *)
Section without_indexes.
Context {S W : Type} `{KL : KvLaws S} `{FL : FieldsCodecLaws} `{DefCodec} `{CodeIntel} `{DebugFmt} `{KvCompact S}.
Context `{Tantivy W, HashOrder, Unicode} (ns db : string).

(** A batch creates no document in a table with a search index. *)
Definition plain_batched (s : S) (stmt : Statement) : Prop :=
  match stmt with
  | Create t _ _ _ => ∀ ixs s', load_index_definitions ns db t s = (Ok ixs, s') →
      ∀ d, d ∈ ixs → IndexDefinitions.is_btree d = true
  | _ => True
  end.
Definition cache_loaded (s : S) (b : batch_state) : Prop :=
  ∀ t ixs, idx_cache b !! t = Some ixs → load_index_definitions ns db t s = (Ok ixs, s).

Lemma load_definitions_ro t : read_only (load_index_definitions ns db t : M S _).
Proof using KL. pose proof (laws_atomic (S := S)). unfold load_index_definitions, DllbStorage.prefix_scan. atomic_solve. Qed.
Lemma cached_definitions_loaded t b s ixs b' s' : cached_definitions ns db t b s = (Ok (ixs, b'), s') → cache_loaded s b → cache_loaded s b'.
Proof using KL.
  unfold cached_definitions. intros E Hb. destruct (idx_cache b !! t) as [ds|] eqn:Et; [by injection E as <- <- <-|].
  apply SE_bind_inv in E as (ds & s1 & El & E). injection E as <- <- <-.
  pose proof (load_definitions_ro _ _ _ _ El) as ->. intros t' ixs. simpl.
  destruct (decide (t' = t)) as [->|Hne]; [rewrite lookup_insert_eq; by intros [= ->]|].
  rewrite lookup_insert_ne by done. apply Hb.
Qed.
Lemma batch_step_loaded uuid stmt b s b' s' : batch_step ns db uuid stmt b s = (Ok b', s') → cache_loaded s b → cache_loaded s b'.
Proof using KL.
  destruct stmt; try done; simpl; intros E Hb.
  - apply SE_bind_inv in E as ([ds b1] & s1 & Ec & E). apply cached_definitions_loaded in Ec; [|done].
    cbv zeta in E. destruct on_conflict as [conflict|].
    + apply SE_bind_inv in E as (id_str & s2 & _ & E). apply SE_bind_inv in E as ([[[? ?] ?] ?] & s3 & _ & E).
      by injection E as <- <-.
    + apply SE_bind_inv in E as ([? ?] & s2 & _ & E). by injection E as <- <-.
  - apply SE_bind_inv in E as (puts & s1 & _ & E). by injection E as <- <-.
Qed.
Lemma plain_search_create uuid stmt b s : cache_loaded s b → plain_batched s stmt →
  WithServices.search_create uuid stmt (idx_cache b) = [].
Proof.
  intros Hb Hp. destruct stmt; try done. simpl in *.
  destruct (existsb _ _) eqn:E; [|done]. apply existsb_exists in E as (d & Hin & Hd). exfalso.
  destruct (idx_cache b !! table) as [ixs|] eqn:Et; [|done]. simpl in Hin.
  rewrite (Hp _ _ (Hb _ _ Et) d) in Hd; [done|]. by apply list_elem_of_In.
Qed.
Lemma service_loop_plain stmts : ∀ b s (sv : SearchServices W), cache_loaded s b → (∀ us, us ∈ stmts → plain_batched s us.2) →
  WithServices.batch_loop ns db stmts b [] (s, sv) =
    let '(r, s') := batch_loop ns db stmts b s in
    (match r with Ok b' => Ok (b', []) | Err e => Err (Fail e) end, (s', sv)).
Proof using KL.
  pose proof (laws_atomic (S := S)) as KA.
  induction stmts as [|[uuid stmt] stmts IH]; intros b s sv Hb Hp; cbn [batch_loop WithServices.batch_loop]; [done|].
  unfold WithServices.store. unfold mbind, SE_bind. cbn -[WithServices.search_create batch_step].
  destruct (batch_step ns db uuid stmt b s) as [[b1|e] s1] eqn:E; [|done].
  pose proof (batch_step_ro ns db uuid stmt b s _ _ E) as ->. apply batch_step_loaded in E; [|done].
  cbn -[WithServices.search_create batch_step WithServices.batch_loop batch_loop].
  rewrite (plain_search_create uuid stmt b1 s); [|done|apply (Hp (uuid, stmt)); left].
  apply IH; [done|]. intros us Hus. apply Hp. by right.
Qed.
Lemma batch_transparent stmts s (sv : SearchServices W) : (∀ us, us ∈ stmts → plain_batched s us.2) →
  WithServices.execute_batch ns db stmts (s, sv) = let '(r, s') := Executor.execute_batch ns db stmts s in (from_store r, (s', sv)).
Proof using KL.
  intros Hp. unfold WithServices.execute_batch, execute_batch, mbind, SE_bind.
  rewrite service_loop_plain by done.
  destruct (batch_loop ns db stmts _ s) as [[b|e] s1]; [|done]. unfold WithServices.store. simpl.
  destruct (DllbStorage.write_batch _ _ s1) as [[[]|e] s2]; done.
Qed.
End without_indexes.

Lemma parsed_no_panic q : parsed q ≠ Err Panicked.
Proof. unfold parsed. destruct (parse_Some q) as [[r|e] ->]; done. Qed.
Lemma traverse_no_panic lines : traverse parsed lines ≠ Err Panicked.
Proof.
  induction lines as [|l lines IH]; [done|]. cbn [traverse]. pose proof (parsed_no_panic l) as Hl.
  destruct (parsed l) as [q|e]; simpl; [|congruence]. destruct (traverse parsed lines) as [qs|e]; simpl; congruence.
Qed.
Lemma imap_snd {A} (f : nat → string) (l : list A) : map snd (imap (λ j x, (f j, x)) l) = l.
Proof. revert f. induction l as [|x l IH]; intros f; [done|]. cbn [imap map snd]. f_equal. apply (IH (λ j, f (Datatypes.S j))). Qed.

(** ** Theorems *)
(** C6.  Every request is answered: on any sequence of lines, including lines
    that cannot be read, the task of a connection ends; it cuts the lines into
    queries and batches ([frame]) and answers them one by one in order, each
    in the state the earlier ones left.  All requests are answered unless a
    response cannot be written or a handler panics, and nothing is answered
    twice. *)
Theorem connection_answers {S L W} `{KvStore S} `{FieldsCodec} `{DefCodec} `{CodeIntel} `{DebugFmt} `{KvCompact S}
    `{JsonRows} `{!Lru L CacheKey CacheEntry} `{Tantivy W, HashOrder, Unicode} (ns db : string) (o : nat → Oracle)
    (written : nat → bool) (lines : list (option string)) (p : Server S L W) :
  ∃ out e p', serve_connection ns db o written (Datatypes.S (length lines)) 0 lines p = Some (out, e, p') ∧
    answer_all ns db o written 0 (frame None lines) p = (out, e, p') ∧
    length out ≤ length (frame None lines) ∧ (e = Closed ↔ length out = length (frame None lines)).
Proof.
  rewrite connection_frame by lia. pose proof (answered_count ns db o written (frame None lines) 0 p) as Hc.
  destruct (answer_all _ _ _ _ _ _ p) as [[out e] p']. exists out, e, p'. destruct Hc. by split_and!.
Qed.

(** C5.  A batch is all or nothing: over a store whose own operations are
    atomic, one that holds a line that does not parse or a statement other
    than [CREATE] and [RELATE], or that fails on any statement, is answered
    with an error and leaves the whole process as it was; otherwise all its
    writes reach the store in one write, planned against the store as it was
    before the batch - also when the maintenance of the search indexes fails
    afterwards. *)
Theorem batch_all_or_nothing {S L W} `{KA : KvAtomic S} `{FieldsCodec} `{DefCodec} `{CodeIntel} `{DebugFmt} `{KvCompact S}
    `{JsonRows} `{!Lru L CacheKey CacheEntry} `{Tantivy W, HashOrder, Unicode} (ns db : string) (o : nat → Oracle)
    (i : nat) (lines : list string) (p p' : Server S L W) (response : option string) :
  answer ns db o i (Batch lines) p = (response, p') →
  (∃ e, response = Some (format_error e Json) ∧ p' = p) ∨
  (∃ qs b, traverse parsed lines = Ok qs ∧ Forall batchable (map q_statement qs) ∧
     batch_loop ns db (imap (λ j stmt, (o_uuid (o i) j, stmt)) (map q_statement qs)) (MkBatch [] [] 0 0 ∅) (sv_store p)
       = (Ok b, sv_store p) ∧
     kv_write_batch (all_puts b) (all_deletes b) (sv_store p) = (Ok tt, sv_store p')).
Proof.
  cbn [answer]. destruct (traverse parsed lines) as [qs|[e|]] eqn:Ep.
  - unfold batch_response, run_batch. set (stmts := imap _ _).
    destruct (WithServices.execute_batch ns db stmts (sv_store p, sv_search p)) as [r [s' sv']] eqn:E.
    destruct (execute_batch_cases ns db stmts _ _ _ _ _ E) as [(e & -> & -> & ->)|(b & Hb & Hall & Hw)].
    + intros [= <- <-]. left. exists e. split; [done|]. by destruct p.
    + intros Hr. right. exists qs, b. split; [done|]. split.
      { revert Hall. unfold stmts. by rewrite imap_snd. }
      split; [done|]. rewrite Hw. destruct r; injection Hr as <- <-; done.
  - intros [= <- <-]. left. by exists e.
  - by apply traverse_no_panic in Ep.
Qed.

(** ** The process without search indexes

    Requests as the program without services runs them ([Session]), and as
    the server does. *)
Inductive Asked :=
  | AskText (o : Oracle) (query : string)
  | AskBatch (stmts : list (string * Statement)).
Section asked.
Context {S L W : Type} `{KL : KvLaws S} `{FL : FieldsCodecLaws} `{DefCodec} `{CodeIntel} `{DebugFmt} `{KvCompact S}.
Context `{JsonRows} `{!Lru L CacheKey CacheEntry} `{Tantivy W, HashOrder, Unicode} (ns db : string).
Abbreviation Response := (QueryResult * OutcomeFormat)%type.

Definition ask_session (a : Asked) (se : Session S L) : option (result Response * Session S L) :=
  match a with
  | AskText o query => Session.run ns db o query se
  | AskBatch stmts => let '(r, se) := Session.run_batch ns db stmts se in Some ((r ← r; Ok (r, Json)), se)
  end.
Definition ask_server (a : Asked) : SE (Server S L W) Failure Response :=
  match a with
  | AskText o query => run ns db o query
  | AskBatch stmts => r ← run_batch ns db stmts; mret (r, Json)
  end.
(** The answers in order; [None] is a panic. *)
Fixpoint ask_session_all (l : list Asked) (se : Session S L) : option (list (result Response) * Session S L) :=
  match l with
  | [] => Some ([], se)
  | a :: l' => '(r, se) ← ask_session a se; '(rs, se) ← ask_session_all l' se; Some (r :: rs, se)
  end.
Fixpoint ask_server_all (l : list Asked) (p : Server S L W) : list (Result Failure Response) * Server S L W :=
  match l with
  | [] => ([], p)
  | a :: l' => let '(r, p) := ask_server a p in let '(rs, p) := ask_server_all l' p in (r :: rs, p)
  end.
Definition server_of (se : Session S L) (sv : SearchServices W) : Server S L W :=
  MkServer (se_store se) sv (se_versions se) (Some (se_cache se)).

(** Each request, when its turn comes, is about tables without search indexes. *)
Definition plain_asked (s : S) (a : Asked) : Prop :=
  match a with
  | AskText o query => ∀ q, parse query = Some (Ok q) → plain_statement ns db s o (q_statement q)
  | AskBatch stmts => ∀ us, us ∈ stmts → plain_batched ns db s us.2
  end.
Fixpoint all_plain (l : list Asked) (se : Session S L) : Prop :=
  match l with
  | [] => True
  | a :: l' => plain_asked (se_store se) a ∧ ∀ r se', ask_session a se = Some (r, se') → all_plain l' se'
  end.

Lemma finish_post stmt r outcome (s : S) (sv : SearchServices W) versions cache :
  finish ns db stmt r outcome (MkServer s sv versions (Some cache)) =
  match post_execute ns db stmt r outcome versions cache with
  | Some (versions, cache) => (Ok tt, MkServer s sv versions (Some cache))
  | None => (Err Panicked, MkServer s sv versions None)
  end.
Proof. unfold finish, post_execute. simpl. by destruct stmt, r. Qed.
Lemma run_statement_transparent o stmt outcome se (sv : SearchServices W) : text_idle sv → plain_statement ns db (se_store se) o stmt →
  match Session.run_statement ns db o stmt outcome se with
  | Some (r, se') => run_statement ns db o stmt outcome (server_of se sv) = (from_store r, server_of se' sv)
  | None => ∃ p, run_statement ns db o stmt outcome (server_of se sv) = (Err Panicked, p)
  end.
Proof using KL FL.
  intros Hidle Hp. unfold Session.run_statement, run_statement.
  assert (lookup_cache ns db stmt outcome (server_of se sv) =
    let '(hit, cache) := try_cache_hit ns db stmt outcome (se_versions se) (se_cache se) in
    (Ok hit, MkServer (se_store se) sv (se_versions se) (Some cache))) as Hl.
  { unfold lookup_cache, try_cache_hit. by destruct (cache_kind_of stmt) as [[]|]. }
  destruct (try_cache_hit ns db stmt outcome (se_versions se) (se_cache se)) as [[payload|] cache].
  { by rewrite (SE_bind_ok _ _ _ _ _ Hl). }
  rewrite (SE_bind_ok _ _ _ _ _ Hl).
  assert (∀ r s', run_execute ns db o stmt (MkServer (se_store se) sv (se_versions se) (Some cache)) = (r, MkServer s' sv (se_versions se) (Some cache)) ↔
    WithServices.execute ns db o stmt (se_store se, sv) = (r, (s', sv))) as Hx.
  { intros r s'. unfold run_execute. simpl. destruct (WithServices.execute _ _ _ _ _) as [r' [s1 sv1]].
    split; by intros [= <- <- <-]. }
  pose proof (execute_transparent ns db o stmt (se_store se) sv Hidle Hp) as E.
  destruct (Statements.execute ns db o stmt (se_store se)) as [[[q|]|e] s']; apply Hx in E; simpl in E.
  - rewrite (SE_bind_ok _ _ _ _ _ E). unfold mbind, SE_bind. rewrite finish_post. simpl.
    destruct (post_execute _ _ _ _ _ _ _) as [[versions cache']|]; simpl; [done|by eexists].
  - rewrite (SE_bind_err _ _ _ _ _ E). by eexists.
  - by rewrite (SE_bind_err _ _ _ _ _ E).
Qed.
Lemma ask_transparent a se (sv : SearchServices W) : text_idle sv → plain_asked (se_store se) a →
  match ask_session a se with
  | Some (r, se') => ask_server a (server_of se sv) = (from_store r, server_of se' sv)
  | None => ∃ p, ask_server a (server_of se sv) = (Err Panicked, p)
  end.
Proof using KL FL.
  intros Hidle Hp. destruct a as [o query|stmts]; simpl in *.
  - unfold Session.run, run, parsed. destruct (parse_Some query) as [[q|e] Eq]; rewrite Eq in *; [|done].
    simpl. by apply run_statement_transparent, Hp.
  - unfold Session.run_batch, run_batch, mbind, SE_bind. simpl. rewrite batch_transparent by done.
    by destruct (execute_batch ns db stmts (se_store se)) as [[r|e] s'].
Qed.
Lemma ask_all_transparent l : ∀ se (sv : SearchServices W), text_idle sv → all_plain l se →
  match ask_session_all l se with
  | Some (rs, se') => ask_server_all l (server_of se sv) = (map from_store rs, server_of se' sv)
  | None => Err Panicked ∈ (ask_server_all l (server_of se sv)).1
  end.
Proof using KL FL.
  induction l as [|a l IH]; intros se sv Hidle Hp; [done|]. destruct Hp as [Ha Hl].
  cbn [ask_session_all ask_server_all]. pose proof (ask_transparent a se sv Hidle Ha) as E.
  destruct (ask_session a se) as [[r se1]|] eqn:Ea; cbn.
  - rewrite E. specialize (IH se1 sv Hidle (Hl _ _ eq_refl)).
    destruct (ask_session_all l se1) as [[rs se']|]; cbn; [by rewrite IH|].
    destruct (ask_server_all l (server_of se1 sv)) as [rs p]. by right.
  - destruct E as [p ->]. destruct (ask_server_all l p) as [rs p']. by left.
Qed.
End asked.

(** C4.  Search services are transparent: on a server with no full-text index
    open, any sequence of request texts and batches about tables without
    search indexes is answered, and leaves store, versions and cache, exactly
    as by the executor without services - errors included - and the services
    stay as they were; a request that would panic there panics here.  What is
    proved of statements and of the cache without services therefore holds of
    the server. *)
Theorem services_transparent {S L W : Type} `{KL : KvLaws S} `{FL : FieldsCodecLaws} `{DefCodec} `{CodeIntel} `{DebugFmt}
    `{KvCompact S} `{JsonRows} `{!Lru L CacheKey CacheEntry} `{Tantivy W, HashOrder, Unicode}
    (ns db : string) (l : list Asked) (se : Session S L) (sv : SearchServices W) :
  text_idle sv → all_plain ns db l se →
  match ask_session_all ns db l se with
  | Some (rs, se') => ask_server_all ns db l (server_of se sv) = (map from_store rs, server_of se' sv)
  | None => Err Panicked ∈ (ask_server_all ns db l (server_of se sv)).1
  end.
Proof. apply ask_all_transparent. Qed.

(** ** A concrete process *)
#[local] Existing Instance no_engine.
#[local] Instance listed_order : HashOrder := λ A m, map_to_list m.
#[local] Instance same_case : Unicode := {| is_alphanumeric _ := true; to_lowercase s := s |}.
#[local] Instance silent_debug : DebugFmt := {| debug_literals _ := ""%string; debug_value _ := ""%string |}.
#[local] Instance plain_json : JsonRows := {| rows_to_json _ := Some "[]"%string |}.
#[local] Instance done_compact : KvCompact MemRedb.db := λ s, (Ok false, s).
#[local] Existing Instance MemCodec.fields.
#[local] Existing Instance MemCodec.defs.
Definition fresh_process : Server MemRedb.db (list_lru CacheKey CacheEntry) unit :=
  MkServer MemRedb.empty (SearchServices_new "data" tt (λ _, 0)) Versions.default
    (Some (with_bounds 10 4096)).
Definition serve_lines (lines : list (option string)) : option (list string * ConnEnd * nat) :=
  '(out, e, p) ← serve_connection "n" "d" (λ _, plain_oracle) (λ _, true) (Datatypes.S (length lines)) 0 lines fresh_process;
  Some (out, e, length (contents (sv_store p))).
Example session :
  serve_lines [Some "CREATE t:a SET n = 1;"; Some "   "; Some "begin batch"; Some "CREATE t:b SET n = 2";
    Some "RELATE t:a->knows->t:b"; Some "END BATCH;"; Some "SELECT"; Some "COUNT t"]%string =
  Some ([dq "{'status':'created','id':'t:a'}"; dq "{'status':'batch','count':2,'created':1,'updated':0}";
    dq "{'status':'error','message':'query error: unexpected end of input, expected identifier'}";
    dq "{'status':'count','count':2}"]%string, Closed, 4).
Proof. vm_compute. reflexivity. Qed.
(** A connection that ends inside a batch, and a line that is not UTF-8, end
    the batch, which is then executed. *)
Example unfinished_batch :
  serve_lines [Some "BEGIN BATCH"; Some "CREATE t:a SET n = 1"; Some "CREATE t:b SET n = 2"]%string =
    Some ([dq "{'status':'batch','count':2,'created':2,'updated':0}"]%string, Closed, 2) ∧
  serve_lines [Some "BEGIN BATCH"; Some "CREATE t:a SET n = 1"; None; Some "COUNT t"]%string =
    Some ([dq "{'status':'batch','count':1,'created':1,'updated':0}"; dq "{'status':'count','count':1}"]%string, Closed, 1).
Proof. split; vm_compute; reflexivity. Qed.
(** A CSV answer of the line protocol spans several lines. *)
Example csv_response_lines :
  option_map (λ r, map (contains_char "010"%char) r.1.1) (serve_lines [Some "CREATE t:a SET n = 1"; Some "SELECT n FROM t OUTCOME CSV"]%string) =
  Some [false; true].
Proof. vm_compute. reflexivity. Qed.

Lemma batch_all_or_nothing_witness :
  ∃ b, batch_loop "n" "d" (imap (λ j stmt, (o_uuid plain_oracle j, stmt)) [Create "t" (Some "a"%string) [("n"%string, LInt 1)] None])
      (MkBatch [] [] 0 0 ∅) MemRedb.empty = (Ok b, MemRedb.empty).
Proof.
  destruct (answer "n" "d" (λ _, plain_oracle) 0 (Batch ["CREATE t:a SET n = 1"%string]) fresh_process) as [response p'] eqn:E.
  destruct (batch_all_or_nothing "n" "d" (λ _, plain_oracle) 0 ["CREATE t:a SET n = 1"%string] fresh_process p' response E)
    as [(e & _ & ->)|(qs & b & Hqs & _ & Hb & _)].
  - exfalso. apply (f_equal (λ r, length (contents (sv_store r.2)))) in E. vm_compute in E. discriminate E.
  - vm_compute in Hqs. injection Hqs as <-. exists b. exact Hb.
Defined.

(** A conversation on [people], whose indexes are B-trees: a deletion through
    an index, a batch, an analysis computed and then cached, an error. *)
Definition conversation : list Asked :=
  [AskText plain_oracle "DELETE people WHERE age >= 35";
   AskBatch [("u", Create "t" (Some "a") [("n", LInt 1)] None);
             ("v", Relate (MkRecordRef "p" "a") "knows" (MkRecordRef "p" "b") [])];
   AskText plain_oracle "GRAPH COMPONENTS knows OUTCOME CSV";
   AskText plain_oracle "GRAPH COMPONENTS knows OUTCOME CSV";
   AskText plain_oracle "SELECT"]%string.
Definition people_session : Session MemRedb.db (list_lru CacheKey CacheEntry) :=
  MkSession indexed_people Versions.default (with_bounds 10 4096).
Definition idle_services : SearchServices unit := SearchServices_new "data" tt (λ _, 0).
Lemma people_plain : plain_table "n" "d" "people" indexed_people (co_indexes people).
Proof.
  split; [exact people_wf|exact indexed_people_load|exact indexed_people_inv|].
  by intros d [<-|[<-|[]]]%list_elem_of_In.
Qed.
Lemma conversation_plain : all_plain "n" "d" conversation people_session.
Proof.
  split; [|intros r1 se1 E1; split; [|intros r2 se2 E2]].
  - assert (parse "DELETE people WHERE age >= 35" = Some (Ok (MkQuery (DeleteWhere "people" (Some (age_from 35))) Json))) as Hq
      by (vm_compute; reflexivity).
    intros q E. rewrite Hq in E. injection E as <-. by exists (co_indexes people); apply people_plain.
  - assert (match ask_session "n" "d" (AskText plain_oracle "DELETE people WHERE age >= 35") people_session with
            | Some (_, se) => (load_index_definitions "n" "d" "t" (se_store se)).1 | None => Ok [] end = Ok []) as Hd
      by (vm_compute; reflexivity).
    rewrite E1 in Hd. intros us [->| ->%list_elem_of_singleton]%elem_of_cons; [|done].
    intros ixs s' E. rewrite E in Hd. injection Hd as ->. by intros d ?%elem_of_nil.
  - assert (parse "GRAPH COMPONENTS knows OUTCOME CSV" = Some (Ok (MkQuery (GraphComponents "knows") Csv))) as Hq
      by (vm_compute; reflexivity).
    assert (match parse "SELECT" with Some (Ok _) => false | _ => true end = true) as He by (vm_compute; reflexivity).
    split; [|intros r3 se3 _; split; [|intros r4 se4 _; split; [|done]]]; intros q E;
      [rewrite Hq in E; by injection E as <-..|by rewrite E in He].
Qed.
Definition text_of (r : Result Failure (QueryResult * OutcomeFormat)) : string := default "panic"%string (respond r).
Definition conversation_texts : list string :=
  [dq "{'status':'deleted_many','count':1}"; dq "{'status':'batch','count':2,'created':1,'updated':0}";
   "status,component_count,largest,nodes" ++ newline ++ "components,1,2,2";
   "status,component_count,largest,nodes" ++ newline ++ "components,1,2,2";
   dq "{'status':'error','message':'query error: unexpected end of input, expected identifier'}"]%string.
Lemma conversation_answers :
  match ask_session_all "n" "d" conversation people_session with
  | Some (rs, _) => map text_of (map from_store rs) | None => [] end = conversation_texts.
Proof. vm_compute. reflexivity. Qed.
Lemma services_transparent_witness :
  ∃ rs p, ask_server_all "n" "d" conversation (server_of people_session idle_services) = (rs, p) ∧
    map text_of rs = conversation_texts ∧ sv_search p = idle_services.
Proof.
  pose proof (services_transparent "n" "d" conversation people_session idle_services eq_refl conversation_plain) as E.
  pose proof conversation_answers as Ha.
  destruct (ask_session_all "n" "d" conversation people_session) as [[rs se]|]; [|discriminate Ha].
  exact (ex_intro _ _ (ex_intro _ _ (conj E (conj Ha eq_refl)))).
Defined.
